(* ===== verification/_CoqProject ===== *)
-Q . S2P
Prelude.v
PyFloat.v
PyWorld.v
PyText.v
Money.v
Pagination.v
AppErrors.v
Resilience.v
LabConfig.v
LabMetrics.v
TokenBucket.v
LabDeadline.v
LabRetry.v
LabShed.v
LabFaults.v
LabHandler.v
LabIdempotency.v
Lease.v
PaymentKeys.v
Outbox.v
Sessions.v
LastWrite.v
Ambiguous.v
Orders.v
OrderKeys.v
LabFanout.v
Metastable.v
PyAsync.v
Shedder.v
Gateway.v
Queueing.v
Cardinality.v
PyHash.v
Pkce.v
Security.v
RetryStorm.v
DeadlineChain.v
TailFanout.v
BurnRate.v
PageRules.v
Histogram.v
RowStore.v
LockOrder.v
Isolation.v
CpuBudget.v
KeyRace.v
