(* ===== verification/Prelude.v ===== *)
(** * Engineering Depth Lab: a verification development

    The repository is a course in ten layers, src/01-machine to src/10-edge, each a
    set of small programs in several languages.  This development models the Python
    that carries logic of its own, in seven groups; a file requires the files of the
    components it calls, and all of them this one.

    ** Shared files

    - [Prelude] (this file): results [res], the state-and-exception monad [ST] with
      [try_with] and [finally], its Hoare triples, the tactics [split_ands],
      [case_inner] and [to_props], the hint database [py], and lemmas on sums and on
      [List.filter];
    - [PyFloat]: Python's floats as the rationals [k / 2^1074] with infinities and
      nan, rounding to nearest even after each operation;
    - [PyWorld]: the clock and the random numbers a program reads, [round],
      [sorted] and number formatting;
    - [PyText]: [str], [int] and [float] of text, [strip] and [lower];
    - [PyAsync]: [asyncio]'s semaphore, and coroutines as trees of readings, actions and
      awaits, with a logic that bounds what a coroutine does to a measure of the state;
    - [PyHash]: SHA-256 and URL-safe base64, with its round trip;
    - [RowStore]: committed rows, row locks and the waits they cause; when the waits form
      no cycle, and that a standstill has one.

    ** The machine and data layers (src/01-machine, src/03-data)

    - [CpuBudget] (07-inside-a-container/00-harness/local/cfs_sim.py): quota, burst and the
      threads frozen at zero; how much CPU a period can give, and what it forgives;
    - [LockOrder] (05-*/python/deadlock_ordering.py): transfers statement by statement in
      two lock orders, with deadlocks and retries; conservation, termination, no cycle;
    - [Isolation] (01-*/python/lost_update.py and write_skew.py): transactions at the three
      levels, with and without locked reads; which variants lose an update or break the
      rule that somebody is on call.

    ** The craft API (src/08-craft/lab/api/app)

    - [Money] (core/money.py): the shipped and the repaired split; when each
      conserves the total;
    - [Pagination] (core/pagination.py): three cursors and the walk over pages,
      against the interface [KeyOrder]; the composite cursor visits every row once;
    - [AppErrors] (core/errors.py): the taxonomy and its translation to HTTP;
    - [Resilience] (core/resilience.py): deadline, windowed retry budget,
      [with_retries] and the latency breaker;
    - [Orders] (models.py, deep/, shallow/, repositories/, routers/): handlers run in
      [ST session exn], and each statement consumes a [turn] in which other
      sessions may change the database and the statement may fail.  The deep and the
      shallow listing are one function; pages tile one listing; what each error mode
      answers to an outage; create, read and delete; which row each writing handler may
      insert or delete, hence the integrity of the tables;
    - [OrderKeys] (services/idempotency.py): the planted window between charge and
      key, and its fix, under every interleaving.

    ** The failure lab's service (src/05-failure/lab/app)

    - [LabConfig] (config.py): typed fields, start-up from the environment, hot
      reload in two phases; [LabMetrics] (metrics.py): the counters;
    - [TokenBucket], [LabRetry] (retry.py): the retry budget, backoff and the retry
      loop, with arbitrary interference at its awaits; the bounds on the load
      retries add;
    - [LabDeadline] (deadline.py, db.py): deadlines through hops, the timeouts
      derived from them, the work of a request;
    - [LabShed] (shed.py): the gradient limit and the shedder; [LabFaults]
      (faults.py): injected faults;
    - [LabHandler] (main.py): one request from arrival to reply as a step relation
      that composes all of these, and the operator's changes and resets; the handler's books
      since the last reset as its invariant;
    - [LabIdempotency] (idempotency.py): claiming a key, over the interface of its
      SQL statements; exactly one charge;
    - [LabFanout] (fanout.py, cache.py, the fan-out of main.py): hedged calls from await
      to await, the bound on second copies, the measured threshold as a 95th percentile,
      the backends' addresses, the verdict of a fan-out.

    ** The failure layer's simulators (src/05-failure/0*/python)

    - [Metastable] (04-*/python/metastable.py): cache, pool, retrying clients and the
      four escapes; what the cache can refill from, and what an escape bounds;
    - [Shedder] (05-*/python/shedder.py): pools, gradient limit and admission modes;
      how many each lets in, and that a split pool isolates the checkout;
    - [DeadlineChain] (02-*/python/deadline_chain.py): a deadline through three hops, and
      the queries that outlive their requests; the books of the pool and of the zombies,
      and how long a query can sleep;
    - [RetryStorm] (03-*/python/retry_storm.py): three hops of retries as one coroutine;
      how far a request is amplified, and what a retry budget makes of it;
    - [TailFanout] (06-*/python/fanout.py): legs, hedges and their losers over backends with
      workers; whose workers are in use, and how many calls are hedged;
    - [KeyRace] (07-*/python/idempotency.py): the naive handler and two correct ones over a
      pool; one charge per connection or per key, who waits, and that somebody can move.

    ** Observability and security (src/06-observability, src/07-security)

    - [Cardinality] (04-cardinality): a counter with a limit on its series equals a
      reference that keeps the sets seen first;
    - [Histogram] (02-real-p99/python/histogram_lies.py): bucket counters and the quantile
      made from them; which bucket it lies in, and that counters of pods add up;
    - [BurnRate] (06-*/python/burn_rate.py): rolling windows over prefix sums of floats
      decide a burn rate within one event, hence when each rule is lit, and that the short
      window clears it;
    - [PageRules] (07-*/python/page_worthiness.py): the same rules over a running sum, the
      rules on causes, and the scoreboard of the four scenarios;
    - [Pkce] (05-oauth2-oidc-and-pkce): when the server issues a token, that a code buys
      one, and what each attack of the demonstration gets;
    - [Security] (01-authn-authz-and-idor, 04-jwt-and-revocation, 08-crypto-and-rate-limiting):
      object access, the payload of a token, revocation, rate limits.

    ** The edge layer (src/10-edge)

    - [Gateway] (lab/gateway/app.py): the response generator with every way in which it
      can be left, and the shadow mirror;
    - [Queueing] (03-*/python/pool_queueing.py): Little's law as an identity of the
      integral the program keeps, and the pool as a limit on throughput.

    ** The distributed lab (src/04-distributed)

    - [Ambiguous] (01-*/python/ambiguous_result.py, docker payments1.py and
      ledger.py, topic1_reconcile.sql): an adversary picks the fate of each call;
      what retrying only the safe errors guarantees, and what the audit finds;
    - [PaymentKeys] (02-*/python/idempotency_race.py, payments2.py): check-then-insert,
      atomic insert and advisory lock, statement by statement; the last two refine
      "one charge per key", and always terminate;
    - [LastWrite] (03-*/python/lww_writers.py): last write wins on a client's clock,
      on the database's, and compare-and-set;
    - [Sessions] (04-*/python/session_guarantees.py, api4.py): replicas, session
      tokens, the checker of session guarantees; a session of the service reads its own
      writes, from its commit to its read;
    - [Outbox] (06-*/python/hwm_skip.py and outbox_relay.py, payments6.py, relay6.py):
      dual write, outbox, the two relays, broker and consumer;
    - [Lease] (07-*/python/fencing_demo.py, relay7.py): lease, fencing and the audit of
      what a paused leader pays.

    ** How state and operations correspond

    A Python object or a table row is a [Record] with the source's field names; a
    dict or a table with a key is a [gmap], a table whose order or duplicates matter
    a list.  A function keeps its name.  Where threads, processes or coroutines
    interleave, a definition covers one stretch between two points at which another
    may run (a statement, an await), a [place] says where the program is, and a
    schedule or a step relation chooses who moves; theorems hold for every schedule.
    A transaction's writes are visible at its commit.  Numbers are Python's: integers
    are unbounded [Z], floats are [PyFloat]'s except where a file says that it counts
    in whole microseconds.

    ** What the theorems show

    Exactly-once effects ([LabIdempotency], [PaymentKeys], [OrderKeys], [KeyRace], [Outbox]),
    at-most-once retries ([Ambiguous]), fencing and epochs ([Lease]), invariants of
    long runs ([LabHandler], [LabShed], [Shedder], [TailFanout], [Gateway], [Orders], [LockOrder]), bounds on
    retries and load ([LabRetry], [Resilience], [LabFanout], [RetryStorm], [Queueing], [CpuBudget]), round
    trips ([LabDeadline], [Security]), equivalences ([Orders], [OrderKeys], [Cardinality],
    [Security]), termination and progress ([PaymentKeys], [KeyRace], [Outbox], [LockOrder]), consistency
    ([Sessions], [LastWrite], [Isolation]), access ([Pkce]) and error behaviour ([LabConfig], [Orders]).
    Where the code does not do what it says, the theorem states what it does.

    ** Fuel

    Loops of the source that are bounded by a count recurse on that count
    ([Pagination.walk_pages], [LabRetry.attempt_loop], [RetryStorm.retry],
    [Ambiguous.Demo.tries]), so no bound is added.  [Sessions.Replica.catch_up] recurses on the log that is left,
    and [Sessions.Api.poll] on the rounds of the poll, whose deadline ends it first.
    Schedules are finite lists of any length.

    ** Not modelled

    Clients of databases, brokers and HTTP are libraries: what the code relies on is
    a parameter with named laws ([Ambiguous.Demo.Transport], [Ambiguous.Service.Client]),
    or an adversary; Postgres is what its manual says of the statements the code sends.
    Left out are:
    - the benchmarks and socket experiments of layers 01 to 03, whose result is how long a
      machine, a kernel or a query plan takes, and the drivers of [VACUUM], indexes and
      replication, whose behaviour is the database's;
    - distributions and statistics that need [math.log], [math.exp] or a sampler, the
      models of 10-edge among them: their results are real numbers, and [PyFloat] has the
      four operations and the square root only;
    - the assembly of each service (main.py, configuration, middleware of a framework), its
      start-up, printing and plotting; load generators and test suites. *)

From Stdlib Require Import ZArith Lia List.
From stdpp Require Import base option list numbers strings gmap.

(** ** Results and the state-and-exception monad

    A Python call either returns a value or raises; [res] is that sum.  Code
    that mutates the objects of a module runs in [ST S E], an explicit state
    passing monad: the state survives an exception, as it does in Python. *)

Inductive res (E A : Type) : Type :=
| Ok (a : A)
| Err (e : E).
Arguments Ok {E A} a.
Arguments Err {E A} e.

Definition ST (S E A : Type) : Type := S -> res E A * S.

#[export] Instance ST_ret {S E} : MRet (ST S E) := fun A a s => (Ok a, s).
#[export] Instance ST_bind {S E} : MBind (ST S E) :=
  fun A B k m s =>
    match m s with
    | (Ok a, s') => k a s'
    | (Err e, s') => (Err e, s')
    end.

Section Combinators.
Context {S E : Type}.

Definition get : ST S E S := fun s => (Ok s, s).
Definition modify (f : S -> S) : ST S E unit := fun s => (Ok tt, f s).
Definition raise {A} (e : E) : ST S E A := fun s => (Err e, s).
(** [try: m except e: h e]; the handler runs in the state [m] left. *)
Definition try_with {A} (m : ST S E A) (h : E -> ST S E A) : ST S E A :=
  fun s =>
    match m s with
    | (Ok a, s') => (Ok a, s')
    | (Err e, s') => h e s'
    end.
(** [try: m finally: f]: [f] runs whatever [m] did, and does not raise. *)
Definition finally {A} (m : ST S E A) (f : S -> S) : ST S E A :=
  fun s => let '(r, s') := m s in (r, f s').
End Combinators.

(** ** Automation shared by the components *)

Create HintDb py.
Create Rewrite HintDb py.

(** Split the conjunctions of the goal and of the hypotheses. *)
Ltac split_ands :=
  repeat match goal with
         | H : _ /\ _ |- _ => destruct H
         | |- _ /\ _ => split
         end.

(** Case analysis on the innermost [match] or [if] of the goal. *)
Ltac case_inner :=
  match goal with
  | |- context [match ?x with _ => _ end] =>
      lazymatch x with
      | context [match _ with _ => _ end] => fail
      | _ => destruct x eqn:?
      end
  end.

(** Turn the boolean integer tests of the context into propositions. *)
Ltac to_props :=
  repeat match goal with
         | H : (_ <? _)%Z = true |- _ => apply Z.ltb_lt in H
         | H : (_ <? _)%Z = false |- _ => apply Z.ltb_ge in H
         | H : (_ <=? _)%Z = true |- _ => apply Z.leb_le in H
         | H : (_ <=? _)%Z = false |- _ => apply Z.leb_gt in H
         | H : (_ =? _)%Z = true |- _ => apply Z.eqb_eq in H
         | H : (_ =? _)%Z = false |- _ => apply Z.eqb_neq in H
         | H : (_ && _) = true |- _ => apply andb_true_iff in H as [? ?]
         | H : (_ || _) = false |- _ => apply orb_false_iff in H as [? ?]
         | H : negb _ = true |- _ => apply negb_true_iff in H
         | H : negb _ = false |- _ => apply negb_false_iff in H
         end.

(** ** Hoare triples for the monad

    [hoare P m Q]: from a state that satisfies [P], [m] ends in a result and a
    state related by [Q], whether it returns or raises. *)

Definition hoare {S E A} (P : S -> Prop) (m : ST S E A) (Q : res E A -> S -> Prop) : Prop :=
  forall s, P s -> let '(r, s') := m s in Q r s'.

Section Hoare.
Context {S E : Type}.

Lemma hoare_ret {A} (a : A) (P : S -> Prop) (Q : res E A -> S -> Prop) :
  (forall s, P s -> Q (Ok a) s) -> hoare P (mret a) Q.
Proof. intros H s Hs. by apply H. Qed.

Lemma hoare_raise {A} (e : E) (P : S -> Prop) (Q : res E A -> S -> Prop) :
  (forall s, P s -> Q (Err e) s) -> hoare P (raise e) Q.
Proof. intros H s Hs. by apply H. Qed.

Lemma hoare_modify (f : S -> S) (P : S -> Prop) (Q : res E unit -> S -> Prop) :
  (forall s, P s -> Q (Ok tt) (f s)) -> hoare P (modify f) Q.
Proof. intros H s Hs. by apply H. Qed.

Lemma hoare_bind {A B} (P : S -> Prop) (m : ST S E A) (R : A -> S -> Prop)
    (f : A -> ST S E B) (Q : res E B -> S -> Prop) :
  hoare P m (fun r s => match r with Ok a => R a s | Err e => Q (Err e) s end) ->
  (forall a, hoare (R a) (f a) Q) -> hoare P (m ≫= f) Q.
Proof.
  intros Hm Hf s Hs. specialize (Hm s Hs). unfold mbind, ST_bind.
  destruct (m s) as [[a|e] s']; [by apply Hf|done].
Qed.

Lemma hoare_conseq {A} (P P' : S -> Prop) (m : ST S E A) (Q Q' : res E A -> S -> Prop) :
  hoare P' m Q' -> (forall s, P s -> P' s) -> (forall r s, Q' r s -> Q r s) -> hoare P m Q.
Proof. intros H HP HQ s Hs. specialize (H s (HP s Hs)). destruct (m s). auto. Qed.

(** A pure fact moves out of the precondition. *)
Lemma hoare_and_pure {A} (F : Prop) (P : S -> Prop) (m : ST S E A) (Q : res E A -> S -> Prop) :
  (F -> hoare P m Q) -> hoare (fun s => F /\ P s) m Q.
Proof. intros H s [HF Hs]. by apply H. Qed.

(** A step that keeps [P], then the rest. *)
Lemma hoare_frame_bind {A B} (P : S -> Prop) (m : ST S E A) (f : A -> ST S E B)
    (Q : res E B -> S -> Prop) :
  hoare P m (fun _ => P) -> (forall e s, P s -> Q (Err e) s) ->
  (forall a, hoare P (f a) Q) -> hoare P (m ≫= f) Q.
Proof.
  intros Hm He Hf. apply hoare_bind with (R := fun _ => P); [|done].
  eapply hoare_conseq; [exact Hm|done|]. intros [a|e] s H; auto.
Qed.
End Hoare.

(** ** Lists of integers *)

Definition zsum (l : list Z) : Z := foldr Z.add 0%Z l.

Lemma zsum_app (l k : list Z) : zsum (l ++ k) = (zsum l + zsum k)%Z.
Proof. induction l as [|x l IH]; simpl; lia. Qed.

Lemma zsum_replicate (n : nat) (x : Z) : zsum (replicate n x) = (Z.of_nat n * x)%Z.
Proof. induction n as [|n IH]; simpl; lia. Qed.

Lemma zsum_map_opp (l : list Z) : zsum (map Z.opp l) = (- zsum l)%Z.
Proof. induction l as [|x l IH]; simpl; lia. Qed.

Lemma zsum_fmap_cons {A} (f : A -> Z) (a : A) (l : list A) :
  zsum (f <$> a :: l) = (f a + zsum (f <$> l))%Z.
Proof. done. Qed.

(** Replacing one element. *)
Lemma zsum_insert {A} (f : A -> Z) (l : list A) (i : nat) (x y : A) :
  l !! i = Some x -> zsum (f <$> <[i := y]> l) = (zsum (f <$> l) - f x + f y)%Z.
Proof.
  revert i. induction l as [|a l IH]; intros [|i] H; try done.
  - injection H as <-. rewrite (zsum_fmap_cons f a l). change (<[0%nat := y]> (a :: l)) with (y :: l).
    rewrite zsum_fmap_cons. lia.
  - change (<[S i := y]> (a :: l)) with (a :: <[i := y]> l). rewrite !zsum_fmap_cons.
    rewrite (IH i H). lia.
Qed.

Lemma zsum_nonneg {A} (f : A -> Z) (l : list A) :
  (forall x, 0 <= f x)%Z -> (0 <= zsum (f <$> l))%Z.
Proof.
  intros H. induction l as [|a l IH]; [done|]. rewrite zsum_fmap_cons. specialize (H a). lia.
Qed.

Lemma zsum_ge {A} (f : A -> Z) (l : list A) (i : nat) (x : A) :
  (forall y, 0 <= f y)%Z -> l !! i = Some x -> (f x <= zsum (f <$> l))%Z.
Proof.
  intros H. revert i. induction l as [|a l IH]; intros [|i] Hi; try done;
    rewrite zsum_fmap_cons.
  - injection Hi as <-. pose proof (zsum_nonneg f l H). lia.
  - specialize (IH i Hi). specialize (H a). lia.
Qed.

Lemma insert_delete_perm {A} (l : list A) (i : nat) (x y : A) : l !! i = Some x -> <[i := y]> l ≡ₚ y :: delete i l.
Proof.
  revert i. induction l as [|a l IH]; intros [|i] H; try done. csimpl.
  change (<[S i := y]> (a :: l)) with (a :: <[i := y]> l). rewrite (IH i H). constructor.
Qed.

(** The sum of the values of a map. *)
Section map_sum.
Context {K} `{Countable K}.

Definition map_sum (m : gmap K Z) : Z := zsum ((map_to_list m).*2).

Lemma zsum_perm (l l' : list Z) : l ≡ₚ l' -> zsum l = zsum l'.
Proof. induction 1; unfold zsum in *; simpl; lia. Qed.

Lemma map_sum_insert_None (m : gmap K Z) (k : K) (v : Z) : m !! k = None -> map_sum (<[k := v]> m) = (map_sum m + v)%Z.
Proof.
  intros Hk. unfold map_sum. rewrite (zsum_perm _ (((k, v) :: map_to_list m).*2)); [apply Z.add_comm|].
  apply fmap_Permutation. by apply map_to_list_insert.
Qed.

Lemma map_sum_add (m : gmap K Z) (k : K) (v : Z) : map_sum (<[k := (default 0 (m !! k) + v)%Z]> m) = (map_sum m + v)%Z.
Proof.
  destruct (m !! k) as [x|] eqn:Hk; [|by rewrite map_sum_insert_None]. cbn.
  rewrite <- insert_delete_eq, map_sum_insert_None by apply lookup_delete_eq.
  rewrite <- (insert_delete_id m k x Hk) at 2. rewrite map_sum_insert_None by apply lookup_delete_eq. lia.
Qed.

End map_sum.

Lemma zsum_add {A} (f g : A -> Z) (l : list A) : zsum ((fun x => f x + g x) <$> l)%Z = (zsum (f <$> l) + zsum (g <$> l))%Z.
Proof. induction l as [|x l IH]; [done|]. rewrite !zsum_fmap_cons. lia. Qed.

Lemma zsum_swap {A B} (f : A -> B -> Z) (l : list A) (k : list B) :
  zsum ((fun x => zsum (f x <$> k)) <$> l) = zsum ((fun y => zsum ((fun x => f x y) <$> l)) <$> k).
Proof.
  induction l as [|x l IH].
  - induction k as [|y k IHk]; [done|]. rewrite zsum_fmap_cons, <- IHk. done.
  - rewrite zsum_fmap_cons, IH, <- zsum_add. f_equal.
Qed.

Lemma zsum_zero {A} (f : A -> Z) (l : list A) : (forall x, x ∈ l -> f x = 0%Z) -> zsum (f <$> l) = 0%Z.
Proof.
  intros H. induction l as [|x l IH]; [done|]. rewrite zsum_fmap_cons, IH, (H x); [done|by apply list_elem_of_here|].
  intros y Hy. apply H. by apply list_elem_of_further.
Qed.

#[export] Hint Rewrite zsum_app zsum_replicate zsum_map_opp : py.

(** How many elements satisfy [f]. *)
Definition bit (b : bool) : Z := if b then 1%Z else 0%Z.
Definition countb {A} (f : A -> bool) (l : list A) : Z := zsum ((fun x => bit (f x)) <$> l).

Lemma countb_cons {A} (f : A -> bool) (x : A) (l : list A) : countb f (x :: l) = (bit (f x) + countb f l)%Z.
Proof. done. Qed.

Lemma countb_snoc {A} (f : A -> bool) (l : list A) (x : A) : countb f (l ++ [x]) = (countb f l + bit (f x))%Z.
Proof. unfold countb. rewrite fmap_app, zsum_app. simpl. lia. Qed.

Lemma countb_insert {A} (f : A -> bool) (l : list A) (i : nat) (x y : A) :
  l !! i = Some x -> countb f (<[i := y]> l) = (countb f l + (bit (f y) - bit (f x)))%Z.
Proof. intros H. unfold countb. rewrite (zsum_insert _ _ _ _ _ H). lia. Qed.

#[export] Instance countb_perm {A} (f : A -> bool) : Proper ((≡ₚ) ==> eq) (countb f).
Proof.
  intros l k H. induction H as [|x l k _ IH|x y l|l k j _ IH1 _ IH2]; rewrite ?countb_cons; lia.
Qed.

Lemma countb_nonneg {A} (f : A -> bool) (l : list A) : (0 <= countb f l)%Z.
Proof. apply zsum_nonneg. intros x. unfold bit. destruct (f x); lia. Qed.

Lemma countb_le {A} (f g : A -> bool) (l : list A) :
  (forall x, f x = true -> g x = true) -> (countb f l <= countb g l)%Z.
Proof.
  intros H. induction l as [|x l IH]; [done|]. rewrite !countb_cons. specialize (H x).
  unfold bit. destruct (f x), (g x); lia || (exfalso; intuition discriminate).
Qed.

Lemma countb_ext {A} (f g : A -> bool) (l : list A) : (forall x, x ∈ l -> f x = g x) -> countb f l = countb g l.
Proof.
  induction l as [|x l IH]; intros H; [done|]. rewrite !countb_cons, IH, (H x); [done|by apply list_elem_of_here|].
  intros y Hy. apply H. by apply list_elem_of_further.
Qed.

Lemma countb_disjoint {A} (f g : A -> bool) (l : list A) :
  (forall x, f x = true -> g x = false) -> (countb f l + countb g l)%Z = countb (fun x => f x || g x) l.
Proof.
  intros H. induction l as [|x l IH]; [done|]. rewrite !countb_cons. specialize (H x).
  destruct (f x); cbn [orb bit]; [rewrite H by done; cbn [bit]|]; lia.
Qed.

Lemma countb_length {A} (f : A -> bool) (l : list A) : (countb f l <= Z.of_nat (length l))%Z.
Proof.
  induction l as [|x l IH]; [done|]. rewrite countb_cons. cbn [length]. unfold bit. destruct (f x); lia.
Qed.

Lemma countb_pos {A} (f : A -> bool) (l : list A) (i : nat) (x : A) :
  l !! i = Some x -> f x = true -> (1 <= countb f l)%Z.
Proof.
  intros H Hf. pose proof (zsum_ge (fun x => bit (f x)) l i x) as G. cbn beta in G. rewrite Hf in G.
  apply G; [|exact H]. intros y. unfold bit. destruct (f y); lia.
Qed.

Lemma countb_witness {A} (f : A -> bool) (l : list A) : (0 < countb f l)%Z -> exists x, x ∈ l /\ f x = true.
Proof.
  induction l as [|y l IH]; [done|]. rewrite countb_cons. destruct (f y) eqn:E; cbn [bit]; intros H.
  - exists y. split; [by apply list_elem_of_here|done].
  - destruct IH as (x & Hx & Hf); [lia|]. exists x. split; [by apply list_elem_of_further|done].
Qed.

(** *** [List.filter] *)

Lemma filter_all_true {A} (p : A -> bool) (l : list A) :
  Forall (fun x => p x = true) l -> List.filter p l = l.
Proof. induction 1 as [|x l Hx Hl IH]; simpl; [done|]. by rewrite Hx, IH. Qed.

Lemma List_filter_none {A} (p : A -> bool) (l : list A) :
  Forall (fun x => p x = false) l -> List.filter p l = [].
Proof. induction 1 as [|x l Hx Hl IH]; simpl; [done|]. by rewrite Hx. Qed.

Lemma filter_take_le {A} (p : A -> bool) (l : list A) (n : nat) :
  (length (List.filter p (take n l)) <= length (take n (List.filter p l)))%nat.
Proof.
  revert n. induction l as [|x l IH]; intros [|n]; simpl; try lia.
  specialize (IH n). destruct (p x); simpl; [lia|].
  etransitivity; [exact IH|]. rewrite !length_take. lia.
Qed.

Lemma filter_filter_andb {A} (p q : A -> bool) (l : list A) :
  List.filter q (List.filter p l) = List.filter (fun x => p x && q x) l.
Proof. induction l as [|x l IH]; [done|]. simpl. destruct (p x); simpl; [destruct (q x); by rewrite IH|done]. Qed.

Lemma filter_idemp {A} (p : A -> bool) (l : list A) : List.filter p (List.filter p l) = List.filter p l.
Proof. rewrite filter_filter_andb. apply List.filter_ext. intros x. by destruct (p x). Qed.

Lemma filter_fmap_sublist {A B} (f : A -> B) (p : A -> bool) (l : list A) :
  (f <$> List.filter p l) `sublist_of` (f <$> l).
Proof. induction l as [|x l IH]; [constructor|]. simpl. by destruct (p x); constructor. Qed.

Lemma Forall_list_filter {A} (P : A -> Prop) (p : A -> bool) (l : list A) :
  Forall P l -> Forall P (List.filter p l).
Proof. induction 1 as [|x l Hx _ IH]; [constructor|]. simpl. destruct (p x); [by constructor|done]. Qed.
