(* ===== verification/PyFloat.v ===== *)
(** * Python's [float]: IEEE 754 binary64, exactly

    Every finite binary64 number is an integer multiple of [2^-1074], the
    smallest subnormal.  [Fin k] is the number [k * 2^-1074], so the order of
    floats is the order of [Z] and the rounding of an exact rational result is
    an integer function, [rnd]: round to nearest, ties to even, on 53 bits.
    The sign of zero is not represented: the code modelled here only compares,
    adds, multiplies and divides by non-zero numbers, none of which tells the
    two zeros apart. *)

From Stdlib Require Import ZArith Lia.
From stdpp Require Import base option list numbers.
From S2P Require Import Prelude.

Open Scope Z_scope.

(** ** Definitions *)

Inductive float : Type :=
| Fin (k : Z)
| PInf
| NInf
| NaN.

#[export] Instance float_eq_dec : EqDecision float.
Proof. solve_decision. Defined.

(** [1.0] in units of the smallest subnormal. *)
Definition unit_k : Z := 2 ^ 1074.
(** The first magnitude past the largest finite float. *)
Definition max_k : Z := 2 ^ 2098.

(** [n / d] rounded to an integer, ties to even. *)
Definition div_half_even (n d : Z) : Z :=
  let q := n / d in
  let r := n mod d in
  if 2 * r <? d then q
  else if d <? 2 * r then q + 1
  else if Z.even q then q else q + 1.

(** The exponent of the last of the 53 bits of [n / d]; zero for subnormals. *)
Definition scale (n d : Z) : Z := Z.max 0 (Z.log2 (n / d) - 52).

(** A fraction without its common factors of two, which are most of the digits here. *)
Fixpoint halve (p q : positive) : positive * positive :=
  match p, q with xO p', xO q' => halve p' q' | _, _ => (p, q) end.

Definition cancel (n d : Z) : Z * Z :=
  match n, d with Zpos p, Zpos q => (Zpos (halve p q).1, Zpos (halve p q).2) | _, _ => (n, d) end.

Definition rnd_pos (n d : Z) : Z :=
  let c := cancel n d in
  let e := scale c.1 c.2 in
  let r := cancel c.1 (c.2 * 2 ^ e) in
  div_half_even r.1 r.2 * 2 ^ e.

Definition rnd (n d : Z) : Z :=
  if n <? 0 then - rnd_pos (- n) d else rnd_pos n d.

Definition overflow (k : Z) : float :=
  if max_k <=? k then PInf else if k <=? - max_k then NInf else Fin k.

(** The float nearest to [n / d] units. *)
Definition fround (n d : Z) : float := overflow (rnd n d).

(** [float(z)], and the literal [n / d]. *)
Definition of_Z (z : Z) : float := fround (z * unit_k) 1.
Definition lit (n d : Z) : float := fround (n * unit_k) d.

Definition fopp (a : float) : float :=
  match a with
  | Fin x => Fin (- x)
  | PInf => NInf
  | NInf => PInf
  | NaN => NaN
  end.

Definition fadd (a b : float) : float :=
  match a, b with
  | Fin x, Fin y => fround (x + y) 1
  | NaN, _ | _, NaN => NaN
  | PInf, NInf | NInf, PInf => NaN
  | PInf, _ | _, PInf => PInf
  | NInf, _ | _, NInf => NInf
  end.

Definition fsub (a b : float) : float := fadd a (fopp b).

Definition fneg (a : float) : bool :=
  match a with Fin x => x <? 0 | NInf => true | _ => false end.

Definition fmul (a b : float) : float :=
  match a, b with
  | Fin x, Fin y => fround (x * y) unit_k
  | _, _ =>
      match a, b with
      | NaN, _ | _, NaN => NaN
      | Fin 0, _ | _, Fin 0 => NaN
      | _, _ => if xorb (fneg a) (fneg b) then NInf else PInf
      end
  end.

(** [a / b]; [None] is [ZeroDivisionError]. *)
Definition fdiv (a b : float) : option float :=
  match a, b with
  | _, Fin 0 => None
  | NaN, _ | _, NaN => Some NaN
  | Fin x, Fin y => Some (fround (Z.sgn y * x * unit_k) (Z.abs y))
  | Fin _, _ => Some (Fin 0)
  | _, Fin _ => Some (if xorb (fneg a) (fneg b) then NInf else PInf)
  | _, _ => Some NaN
  end.

(** [a / c] for a positive integer constant [c] written as a float literal. *)
Definition fdivc (a : float) (c : positive) : float :=
  match a with
  | Fin x => fround x (Zpos c)
  | _ => a
  end.

Definition fltb (a b : float) : bool :=
  match a, b with
  | NaN, _ | _, NaN => false
  | Fin x, Fin y => x <? y
  | NInf, NInf => false
  | NInf, _ => true
  | _, PInf => match a with PInf => false | _ => true end
  | _, _ => false
  end.

(** [x ** 0.5], rounded to nearest: an integer square root with a sticky bit. *)
Definition fsqrt (a : float) : float :=
  match a with
  | Fin k =>
      if k <? 0 then NaN
      else
        let n := k * unit_k in
        let r := Z.sqrt n in
        fround (if r * r =? n then 2 * r else 2 * r + 1) 2
  | PInf => PInf
  | _ => NaN
  end.

(** [x < z] for an integer [z] compares exactly, without converting [z]. *)
Definition fltb_Z (a : float) (z : Z) : bool :=
  match a with Fin x => x <? z * unit_k | NInf => true | _ => false end.

Definition fleb (a b : float) : bool :=
  match a, b with
  | NaN, _ | _, NaN => false
  | _, _ => negb (fltb b a)
  end.

(** Python's two-argument [min] and [max]: the first argument wins ties, and
    wins against [nan]. *)
Definition fmin (a b : float) : float := if fltb b a then b else a.
Definition fmax (a b : float) : float := if fltb a b then b else a.

(** [int(x)] truncates and [round(x)] rounds half to even; both raise on an
    infinity or a [nan]. *)
Definition f_int (a : float) : option Z :=
  match a with Fin x => Some (Z.quot x unit_k) | _ => None end.

Definition f_round (a : float) : option Z :=
  match a with
  | Fin x => Some (Z.sgn x * div_half_even (Z.abs x) unit_k)
  | _ => None
  end.

(** A float that binary64 can hold. *)
Definition rep (k : Z) : Prop := rnd k 1 = k.
Definition wf (a : float) : Prop :=
  match a with Fin k => rep k /\ Z.abs k < max_k | _ => True end.

Definition is_nan (a : float) : bool := match a with NaN => true | _ => false end.

Declare Scope float_scope.
Delimit Scope float_scope with F.
Infix "+" := fadd : float_scope.
Infix "-" := fsub : float_scope.
Infix "*" := fmul : float_scope.
Infix "<?" := fltb : float_scope.
Infix "<=?" := fleb : float_scope.

(** ** Arithmetic of the rounding *)

Lemma unit_k_pos : 0 < unit_k.
Proof. unfold unit_k. apply Z.pow_pos_nonneg; lia. Qed.

Lemma max_k_unit : max_k = unit_k * 2 ^ 1024.
Proof. unfold max_k, unit_k. rewrite <- Z.pow_add_r by lia. reflexivity. Qed.

Lemma max_k_pos : 0 < max_k.
Proof. unfold max_k. apply Z.pow_pos_nonneg; lia. Qed.

Lemma unit_k_eq : unit_k = 2 ^ 1074.
Proof. reflexivity. Qed.

#[export] Hint Resolve unit_k_pos max_k_pos : py.
#[global] Opaque unit_k max_k.

Lemma div_half_even_spec (n d : Z) :
  0 < d ->
  (2 * div_half_even n d - 1) * d <= 2 * n <= (2 * div_half_even n d + 1) * d /\
  (2 * n = (2 * div_half_even n d - 1) * d -> Z.even (div_half_even n d) = true) /\
  (2 * n = (2 * div_half_even n d + 1) * d -> Z.even (div_half_even n d) = true).
Proof.
  intros Hd. unfold div_half_even.
  pose proof (Z.div_mod n d ltac:(lia)) as Hn.
  pose proof (Z.mod_pos_bound n d Hd) as Hr.
  set (q := n / d) in *. set (r := n mod d) in *. clearbody q r.
  assert (Hev : Z.even q = false -> Z.even (q + 1) = true).
  { intros H. rewrite Z.add_1_r, Z.even_succ, <- Z.negb_even, H. done. }
  destruct (2 * r <? d) eqn:H1; to_props; [split_ands; intros; nia|].
  destruct (d <? 2 * r) eqn:H2; to_props; [split_ands; intros; nia|].
  destruct (Z.even q) eqn:H3; split_ands; intros; first [nia | auto].
Qed.

Lemma div_half_even_mono (n1 d1 n2 d2 : Z) :
  0 < d1 -> 0 < d2 -> n1 * d2 <= n2 * d1 ->
  div_half_even n1 d1 <= div_half_even n2 d2.
Proof.
  intros H1 H2 H.
  destruct (div_half_even_spec n1 d1 H1) as ([A1 _] & A2 & _).
  destruct (div_half_even_spec n2 d2 H2) as ([_ B1] & _ & B2).
  set (q1 := div_half_even n1 d1) in *. set (q2 := div_half_even n2 d2) in *.
  clearbody q1 q2.
  destruct (Z.le_gt_cases q1 q2) as [|Hgt]; [done|exfalso].
  assert ((2 * q1 - 1) * d1 * d2 <= 2 * n1 * d2) by nia.
  assert (2 * n2 * d1 <= (2 * q2 + 1) * d2 * d1) by nia.
  assert (Hq : q1 = q2 + 1) by nia. subst q1.
  assert (E1 : 2 * n1 = (2 * (q2 + 1) - 1) * d1) by nia.
  assert (E2 : 2 * n2 = (2 * q2 + 1) * d2) by nia.
  specialize (A2 E1). specialize (B2 E2).
  rewrite Z.add_1_r, Z.even_succ, <- Z.negb_even, B2 in A2. done.
Qed.

Lemma div_half_even_exact (q d : Z) : 0 < d -> div_half_even (q * d) d = q.
Proof.
  intros Hd. unfold div_half_even.
  rewrite Z.div_mul, Z.mod_mul by lia.
  destruct (2 * 0 <? d) eqn:H; to_props; lia.
Qed.

Lemma scale_nonneg (n d : Z) : 0 <= scale n d.
Proof. unfold scale. lia. Qed.

Lemma scale_mono (n1 d1 n2 d2 : Z) :
  0 <= n1 -> 0 < d1 -> 0 < d2 -> n1 * d2 <= n2 * d1 -> scale n1 d1 <= scale n2 d2.
Proof.
  intros Hn H1 H2 H. unfold scale.
  assert (Hq : n1 / d1 <= n2 / d2).
  { apply Z.div_le_lower_bound; [done|].
    pose proof (Z.mul_div_le n1 d1 H1). nia. }
  pose proof (Z.log2_le_mono _ _ Hq). lia.
Qed.

(** A non-zero scale pins the value into one binade. *)
Lemma scale_upper (n d : Z) : 0 <= n -> 0 < d -> n < 2 ^ 53 * (d * 2 ^ scale n d).
Proof.
  intros Hn Hd.
  assert (Hq : n / d < 2 ^ (53 + scale n d)).
  { destruct (Z.eq_dec (n / d) 0) as [->|Hz].
    - apply Z.pow_pos_nonneg; [lia|]. pose proof (scale_nonneg n d). lia.
    - pose proof (Z.div_pos n d Hn Hd).
      apply Z.log2_lt_pow2; [lia|]. unfold scale. lia. }
  rewrite Z.pow_add_r in Hq by (pose proof (scale_nonneg n d); lia).
  pose proof (Z.mod_pos_bound n d Hd). pose proof (Z.div_mod n d ltac:(lia)). nia.
Qed.

Lemma scale_lower (n d : Z) :
  0 <= n -> 0 < d -> 0 < scale n d -> 2 ^ 52 * (d * 2 ^ scale n d) <= n.
Proof.
  intros Hn Hd Hs.
  assert (Hq : 2 ^ (52 + scale n d) <= n / d).
  { destruct (Z.eq_dec (n / d) 0) as [E|Hz].
    - unfold scale in Hs. rewrite E in Hs. simpl in Hs. lia.
    - pose proof (Z.div_pos n d Hn Hd).
      apply Z.log2_le_pow2; [lia|]. unfold scale in *. lia. }
  rewrite Z.pow_add_r in Hq by lia.
  pose proof (Z.mul_div_le n d Hd). nia.
Qed.

Lemma cancel_spec (n d : Z) : exists c, 0 < c /\ n = (cancel n d).1 * c /\ d = (cancel n d).2 * c.
Proof.
  destruct n as [|p|p], d as [|q|q]; try (exists 1; cbn [cancel fst snd]; lia).
  revert q. induction p as [p IH|p IH|]; intros [q|q|]; try (exists 1; cbn [cancel halve fst snd]; lia).
  destruct (IH q) as (c & Hc & H1 & H2). exists (2 * c). cbn [cancel halve fst snd] in *. lia.
Qed.

Lemma div_half_even_scale (n d c : Z) : 0 < c -> div_half_even (n * c) (d * c) = div_half_even n d.
Proof.
  intros Hc. destruct (Z.eq_dec d 0) as [->|Hd].
  { rewrite Z.mul_0_l. unfold div_half_even. rewrite !Zdiv_0_r, !Zmod_0_r. repeat case_match; to_props; nia. }
  unfold div_half_even. rewrite Z.div_mul_cancel_r, Z.mul_mod_distr_r by lia.
  replace (2 * (n mod d * c) <? d * c) with (2 * (n mod d) <? d) by (apply Bool.eq_iff_eq_true; rewrite !Z.ltb_lt; nia).
  replace (d * c <? 2 * (n mod d * c)) with (d <? 2 * (n mod d)) by (apply Bool.eq_iff_eq_true; rewrite !Z.ltb_lt; nia).
  done.
Qed.

Lemma scale_scale (n d c : Z) : 0 < c -> scale (n * c) (d * c) = scale n d.
Proof.
  intros Hc. unfold scale. destruct (Z.eq_dec d 0) as [->|Hd]; [by rewrite Z.mul_0_l, !Zdiv_0_r|].
  by rewrite Z.div_mul_cancel_r by lia.
Qed.

(** What [rnd_pos] computes. *)
Lemma rnd_pos_eq (n d : Z) : rnd_pos n d = div_half_even n (d * 2 ^ scale n d) * 2 ^ scale n d.
Proof.
  unfold rnd_pos. destruct (cancel_spec n d) as (c & Hc & Hn & Hd). set (n' := (cancel n d).1) in *. set (d' := (cancel n d).2) in *.
  assert (Hs : scale n' d' = scale n d) by (rewrite Hn, Hd; symmetry; by apply scale_scale). rewrite Hs. set (e := scale n d) in *. clearbody e.
  destruct (cancel_spec n' (d' * 2 ^ e)) as (b & Hb & E1 & E2). f_equal.
  rewrite <- (div_half_even_scale _ _ b Hb), <- E1, <- E2, <- (div_half_even_scale _ _ c Hc). f_equal; [by rewrite Hn|rewrite Hd; lia].
Qed.

Lemma rnd_pos_mono (n1 d1 n2 d2 : Z) :
  0 <= n1 -> 0 < d1 -> 0 < d2 -> n1 * d2 <= n2 * d1 -> rnd_pos n1 d1 <= rnd_pos n2 d2.
Proof.
  intros Hn H1 H2 H. rewrite !rnd_pos_eq.
  pose proof (scale_mono n1 d1 n2 d2 Hn H1 H2 H) as Hs.
  pose proof (scale_nonneg n1 d1) as Hs1.
  assert (0 <= n2) by nia.
  pose proof (scale_upper n1 d1 Hn H1) as Hu.
  pose proof (scale_lower n2 d2 ltac:(lia) H2) as Hl.
  set (e1 := scale n1 d1) in *. set (e2 := scale n2 d2) in *. clearbody e1 e2.
  assert (P1 : 0 < 2 ^ e1) by (apply Z.pow_pos_nonneg; lia).
  assert (P2 : 0 < 2 ^ e2) by (apply Z.pow_pos_nonneg; lia).
  destruct (Z.eq_dec e1 e2) as [->|Hne].
  - apply Z.mul_le_mono_nonneg_r; [lia|]. apply div_half_even_mono; nia.
  - specialize (Hl ltac:(lia)).
    assert (A : div_half_even n1 (d1 * 2 ^ e1) <= 2 ^ 53).
    { rewrite <- (div_half_even_exact (2 ^ 53) (d1 * 2 ^ e1)) by nia.
      apply div_half_even_mono; nia. }
    assert (B : 2 ^ 52 <= div_half_even n2 (d2 * 2 ^ e2)).
    { rewrite <- (div_half_even_exact (2 ^ 52) (d2 * 2 ^ e2)) by nia.
      apply div_half_even_mono; nia. }
    assert (C : 2 ^ 53 * 2 ^ e1 <= 2 ^ 52 * 2 ^ e2).
    { rewrite <- !Z.pow_add_r by lia. apply Z.pow_le_mono_r; lia. }
    nia.
Qed.

Lemma rnd_pos_nonneg (n d : Z) : 0 <= n -> 0 < d -> 0 <= rnd_pos n d.
Proof.
  intros Hn Hd. transitivity (rnd_pos 0 1); [done|]. apply rnd_pos_mono; lia.
Qed.

(** Rounding is monotone in the exact value. *)
Lemma rnd_mono (n1 d1 n2 d2 : Z) :
  0 < d1 -> 0 < d2 -> n1 * d2 <= n2 * d1 -> rnd n1 d1 <= rnd n2 d2.
Proof.
  intros H1 H2 H. unfold rnd.
  destruct (n1 <? 0) eqn:E1, (n2 <? 0) eqn:E2; to_props.
  - apply Z.opp_le_mono. rewrite !Z.opp_involutive. apply rnd_pos_mono; lia.
  - pose proof (rnd_pos_nonneg (- n1) d1). pose proof (rnd_pos_nonneg n2 d2). lia.
  - nia.
  - apply rnd_pos_mono; lia.
Qed.

Lemma rnd_pos_zero (d : Z) : 0 < d -> rnd_pos 0 d = 0.
Proof.
  intros Hd. rewrite rnd_pos_eq.
  rewrite <- (Z.mul_0_l (d * 2 ^ scale 0 d)) at 1.
  rewrite div_half_even_exact; [done|].
  assert (0 < 2 ^ scale 0 d) by (apply Z.pow_pos_nonneg; [lia|apply scale_nonneg]). nia.
Qed.

Lemma rnd_opp (n d : Z) : 0 < d -> rnd (- n) d = - rnd n d.
Proof.
  intros Hd. unfold rnd. destruct (- n <? 0) eqn:E1, (n <? 0) eqn:E2; to_props; try lia.
  - by rewrite Z.opp_involutive.
  - assert (n = 0) as -> by lia. by rewrite Z.opp_0, rnd_pos_zero.
Qed.

(** Integers of at most 53 significant bits are floats. *)
Lemma rep_mult (q e : Z) : 0 <= q <= 2 ^ 53 -> 0 <= e -> rep (q * 2 ^ e).
Proof.
  intros Hq He. unfold rep, rnd.
  assert (Pe : 0 < 2 ^ e) by (apply Z.pow_pos_nonneg; lia).
  destruct (q * 2 ^ e <? 0) eqn:E; to_props; [nia|]. rewrite rnd_pos_eq.
  assert (Hd : exists p, q * 2 ^ e = p * 2 ^ scale (q * 2 ^ e) 1).
  { unfold scale. rewrite Z.div_1_r.
    destruct (Z.eq_dec q (2 ^ 53)) as [->|Hne].
    - rewrite <- Z.pow_add_r by lia. rewrite Z.log2_pow2 by lia.
      exists (2 ^ (53 + e - Z.max 0 (53 + e - 52))).
      rewrite <- Z.pow_add_r by lia. f_equal. lia.
    - destruct (Z.eq_dec q 0) as [->|Hz]; [by exists 0|].
      assert (Z.log2 (q * 2 ^ e) <= 52 + e).
      { rewrite Z.log2_mul_pow2 by lia.
        assert (Z.log2 q < 53) by (apply Z.log2_lt_pow2; lia). lia. }
      set (s := Z.max 0 _). exists (q * 2 ^ (e - s)).
      rewrite <- Z.mul_assoc, <- Z.pow_add_r by lia. do 2 f_equal. lia. }
  destruct Hd as [p Hp].
  assert (0 < 2 ^ scale (q * 2 ^ e) 1).
  { apply Z.pow_pos_nonneg; [lia|apply scale_nonneg]. }
  rewrite Hp at 1. rewrite Z.mul_1_l, div_half_even_exact by done. lia.
Qed.

Lemma rep_opp (k : Z) : rep k -> rep (- k).
Proof. unfold rep. intros H. rewrite rnd_opp by lia. by rewrite H. Qed.

(** The shape of a non-negative float. *)
Lemma rep_shape (k : Z) :
  rep k -> 0 <= k -> exists q, k = q * 2 ^ scale k 1 /\ 0 <= q <= 2 ^ 53.
Proof.
  unfold rep, rnd. intros H Hk. destruct (k <? 0) eqn:E; to_props; [lia|].
  rewrite rnd_pos_eq, Z.mul_1_l in H.
  exists (div_half_even k (2 ^ scale k 1)). split; [done|].
  assert (0 < 2 ^ scale k 1) by (apply Z.pow_pos_nonneg; [lia|apply scale_nonneg]).
  split.
  - nia.
  - rewrite <- (div_half_even_exact (2 ^ 53) (2 ^ scale k 1)) by done.
    apply div_half_even_mono; try done.
    pose proof (scale_upper k 1 Hk ltac:(lia)). nia.
Qed.

Lemma rnd_pos_rep (n d : Z) : 0 <= n -> 0 < d -> rep (rnd_pos n d).
Proof.
  intros Hn Hd. rewrite rnd_pos_eq. apply rep_mult; [|apply scale_nonneg].
  pose proof (scale_upper n d Hn Hd).
  assert (0 < 2 ^ scale n d) by (apply Z.pow_pos_nonneg; [lia|apply scale_nonneg]).
  split.
  - transitivity (div_half_even 0 1); [done|]. apply div_half_even_mono; nia.
  - rewrite <- (div_half_even_exact (2 ^ 53) (d * 2 ^ scale n d)) by nia.
    apply div_half_even_mono; nia.
Qed.

(** Rounding is idempotent: its result is a float. *)
Lemma rnd_rep (n d : Z) : 0 < d -> rep (rnd n d).
Proof.
  intros Hd. destruct (Z.le_gt_cases 0 n) as [Hn|Hn].
  - unfold rnd. destruct (n <? 0) eqn:E; to_props; [lia|]. by apply rnd_pos_rep.
  - unfold rnd. destruct (n <? 0) eqn:E; to_props; [|lia].
    apply rep_opp, rnd_pos_rep; lia.
Qed.

Lemma rnd_exact (k d : Z) : 0 < d -> rep k -> rnd (k * d) d = k.
Proof.
  intros Hd Hk. unfold rep in Hk.
  apply Z.le_antisymm; [rewrite <- Hk at 2|rewrite <- Hk at 1]; apply rnd_mono; lia.
Qed.

Lemma rep_int (z : Z) : Z.abs z <= 2 ^ 53 -> rep (z * unit_k).
Proof.
  intros Hz. rewrite unit_k_eq. destruct (Z.le_gt_cases 0 z).
  - apply rep_mult; lia.
  - replace (z * 2 ^ 1074) with (- (- z * 2 ^ 1074)) by lia. apply rep_opp, rep_mult; lia.
Qed.

(** ** Floats of integers *)

Lemma of_Z_small (z : Z) : Z.abs z <= 2 ^ 53 -> of_Z z = Fin (z * unit_k).
Proof.
  intros Hz. unfold of_Z, fround.
  replace (rnd (z * unit_k) 1) with (z * unit_k) by (symmetry; by apply rep_int).
  unfold overflow. rewrite max_k_unit. pose proof unit_k_pos.
  assert (2 ^ 53 < 2 ^ 1024) by (apply Z.pow_lt_mono_r; lia).
  set (M := 2 ^ 1024) in *. set (m := 2 ^ 53) in *. clearbody M m.
  generalize dependent unit_k. intros u Hu.
  destruct (u * M <=? z * u) eqn:E1; to_props; [nia|].
  destruct (z * u <=? - (u * M)) eqn:E2; to_props; [nia|]. done.
Qed.

(** ** Closure: every operation yields a binary64 number *)

Lemma rep_0 : rep 0.
Proof. apply (rep_mult 0 0); lia. Qed.

Lemma wf_0 : wf (Fin 0).
Proof. split; [apply rep_0|apply max_k_pos]. Qed.

Lemma fround_wf (n d : Z) : 0 < d -> wf (fround n d).
Proof.
  intros Hd. unfold fround, overflow.
  destruct (max_k <=? rnd n d) eqn:E1; [done|].
  destruct (rnd n d <=? - max_k) eqn:E2; [done|]. to_props.
  split; [by apply rnd_rep|lia].
Qed.

Lemma of_Z_wf (z : Z) : wf (of_Z z).
Proof. apply fround_wf. lia. Qed.

Lemma fopp_wf (a : float) : wf a -> wf (fopp a).
Proof. destruct a as [k| | |]; simpl; auto. intros [? ?]. split; [by apply rep_opp|lia]. Qed.

Lemma fadd_wf (a b : float) : wf (fadd a b).
Proof. destruct a, b; simpl; auto. apply fround_wf. lia. Qed.

Lemma fsub_wf (a b : float) : wf (fsub a b).
Proof. apply fadd_wf. Qed.

Lemma fmul_wf (a b : float) : wf (fmul a b).
Proof. unfold fmul. repeat case_match; try done; apply fround_wf, unit_k_pos. Qed.

Lemma fdivc_wf (a : float) (c : positive) : wf a -> wf (fdivc a c).
Proof. destruct a; simpl; auto. intros _. apply fround_wf. lia. Qed.

Lemma fdiv_wf (a b c : float) : fdiv a b = Some c -> wf c.
Proof.
  unfold fdiv. intros H. repeat case_match; simplify_eq; try done; try apply wf_0;
    apply fround_wf; lia.
Qed.

Lemma fmin_wf (a b : float) : wf a -> wf b -> wf (fmin a b).
Proof. unfold fmin. by destruct (fltb b a). Qed.

Lemma fmax_wf (a b : float) : wf a -> wf b -> wf (fmax a b).
Proof. unfold fmax. by destruct (fltb a b). Qed.

#[export] Hint Resolve fround_wf of_Z_wf fopp_wf fadd_wf fsub_wf fmul_wf fdivc_wf
  fmin_wf fmax_wf : py.

(** ** The order *)

Ltac float_cases :=
  repeat match goal with a : float |- _ => destruct a end;
  simpl in *; try discriminate; to_props; auto.

Lemma fleb_refl (a : float) : is_nan a = false -> fleb a a = true.
Proof. destruct a; simpl; auto. intros _. unfold fleb. simpl. by rewrite Z.ltb_irrefl. Qed.

Lemma fleb_Fin (x y : Z) : fleb (Fin x) (Fin y) = (x <=? y).
Proof. unfold fleb. simpl. by rewrite Z.leb_antisym. Qed.

Lemma fleb_trans (a b c : float) : fleb a b = true -> fleb b c = true -> fleb a c = true.
Proof.
  destruct a, b, c; rewrite ?fleb_Fin; try done.
  intros H1 H2. apply Z.leb_le. to_props. lia.
Qed.

Lemma fltb_fleb (a b : float) : fltb a b = true -> fleb a b = true.
Proof. destruct a, b; rewrite ?fleb_Fin; simpl; try done. intros H. apply Z.leb_le. to_props. lia. Qed.

Lemma fleb_total (a b : float) :
  is_nan a = false -> is_nan b = false -> fltb a b = false -> fleb b a = true.
Proof. destruct a, b; rewrite ?fleb_Fin; simpl; try done. intros _ _ H. apply Z.leb_le. to_props. lia. Qed.

Lemma fltb_fleb_trans (a b c : float) : fltb a b = true -> fleb b c = true -> fltb a c = true.
Proof.
  destruct a, b, c; rewrite ?fleb_Fin; simpl; try done.
  intros H1 H2. apply Z.ltb_lt. to_props. lia.
Qed.

Lemma fleb_not_fltb (a b : float) : fleb a b = true -> fltb b a = false.
Proof. unfold fleb. destruct a, b; simpl; try done; intros H; by apply negb_true_iff in H. Qed.

(** [min] and [max] never step outside their first argument, even when the
    second one is a [nan]. *)
Lemma fmin_le_l (a b : float) : is_nan a = false -> fleb (fmin a b) a = true.
Proof.
  intros Ha. unfold fmin. destruct (fltb b a) eqn:E; [by apply fltb_fleb|by apply fleb_refl].
Qed.

Lemma fmax_ge_l (a b : float) : is_nan a = false -> fleb a (fmax a b) = true.
Proof.
  intros Ha. unfold fmax. destruct (fltb a b) eqn:E; [by apply fltb_fleb|by apply fleb_refl].
Qed.

Lemma fmin_le_r (a b : float) :
  is_nan a = false -> is_nan b = false -> fleb (fmin a b) b = true.
Proof.
  intros Ha Hb. unfold fmin. destruct (fltb b a) eqn:E; [by apply fleb_refl|].
  by apply fleb_total.
Qed.

Lemma fmin_comm (a b : float) : is_nan a = false -> is_nan b = false -> fmin a b = fmin b a.
Proof.
  destruct a as [x| | |], b as [y| | |]; try done. intros _ _. unfold fmin. cbn [fltb].
  destruct (Z.ltb_spec y x), (Z.ltb_spec x y); try lia; try done. f_equal. lia.
Qed.

Lemma fmin_glb (a b c : float) :
  fleb c a = true -> fleb c b = true -> fleb c (fmin a b) = true.
Proof. unfold fmin. by destruct (fltb b a). Qed.

Lemma fmax_lub (a b c : float) :
  fleb a c = true -> fleb b c = true -> fleb (fmax a b) c = true.
Proof. unfold fmax. by destruct (fltb a b). Qed.

Lemma fleb_nan_l (a b : float) : fleb a b = true -> is_nan a = false.
Proof. by destruct a. Qed.

Lemma fleb_nan_r (a b : float) : fleb a b = true -> is_nan b = false.
Proof. by destruct a, b. Qed.

#[export] Hint Resolve fleb_refl fltb_fleb fmin_le_l fmax_ge_l fmin_glb fmax_lub
  fleb_nan_l fleb_nan_r : py.

(** ** Rounded arithmetic respects the order *)

#[global] Arguments fleb : simpl never.
#[global] Arguments fround : simpl never.
#[global] Arguments lit : simpl never.
#[global] Arguments of_Z : simpl never.

Lemma overflow_mono (x y : Z) : x <= y -> fleb (overflow x) (overflow y) = true.
Proof.
  intros H. unfold overflow.
  pose proof max_k_pos.
  destruct (max_k <=? x) eqn:E1, (max_k <=? y) eqn:E2,
    (x <=? - max_k) eqn:E3, (y <=? - max_k) eqn:E4;
    to_props; try lia; rewrite ?fleb_Fin; try done. by apply Z.leb_le.
Qed.

Lemma fround_mono (n1 d1 n2 d2 : Z) :
  0 < d1 -> 0 < d2 -> n1 * d2 <= n2 * d1 -> fleb (fround n1 d1) (fround n2 d2) = true.
Proof. intros. apply overflow_mono, rnd_mono; done. Qed.

(** A float is its own rounding. *)
Lemma fround_exact (k d : Z) : 0 < d -> rep k -> Z.abs k < max_k -> fround (k * d) d = Fin k.
Proof.
  intros Hd Hk Hm. unfold fround. rewrite rnd_exact by done. unfold overflow.
  destruct (max_k <=? k) eqn:E1; to_props; [lia|].
  destruct (k <=? - max_k) eqn:E2; to_props; [lia|]. done.
Qed.

Lemma of_Z_0 : of_Z 0 = Fin 0.
Proof. rewrite of_Z_small by lia. done. Qed.

Lemma fsub_0_r (x : Z) : wf (Fin x) -> fsub (Fin x) (Fin 0) = Fin x.
Proof.
  intros [Hr Hm]. change (fround (x + - 0) 1 = Fin x).
  replace (x + - 0) with (x * 1) by lia. apply fround_exact; lia || done.
Qed.

Lemma fadd_0_l (x : Z) : wf (Fin x) -> fadd (Fin 0) (Fin x) = Fin x.
Proof.
  intros [Hr Hm]. change (fround (0 + x) 1 = Fin x).
  replace (0 + x) with (x * 1) by lia. apply fround_exact; lia || done.
Qed.

(** A product with a fraction of one stays between zero and the number. *)
Lemma fmul_fraction (k r : Z) :
  wf (Fin k) -> 0 <= k -> 0 <= r <= unit_k ->
  fleb (Fin 0) (fmul (Fin k) (Fin r)) = true /\ fleb (fmul (Fin k) (Fin r)) (Fin k) = true.
Proof.
  intros [Hr Hm] Hk Hrr. pose proof unit_k_pos. simpl. split.
  - rewrite <- (fround_exact 0 1) by (try lia; try apply rep_0; pose proof max_k_pos; lia).
    apply fround_mono; lia.
  - rewrite <- (fround_exact k 1) by (lia || done). apply fround_mono; nia.
Qed.

(** [a - b] is never negative when [b <= a]. *)
Lemma fsub_nonneg (x y : Z) : x <= y -> fleb (Fin 0) (fsub (Fin y) (Fin x)) = true.
Proof.
  intros H. simpl.
  rewrite <- (fround_exact 0 1) by (try lia; try apply rep_0; pose proof max_k_pos; lia).
  apply fround_mono; lia.
Qed.

Lemma fadd_nonneg (a b : float) :
  fleb (Fin 0) a = true -> fleb (Fin 0) b = true -> fleb (Fin 0) (fadd a b) = true.
Proof.
  destruct a as [x| | |], b as [y| | |]; try done.
  rewrite !fleb_Fin. intros Hx Hy. to_props. simpl.
  rewrite <- (fround_exact 0 1) by (try lia; try apply rep_0; pose proof max_k_pos; lia).
  apply fround_mono; lia.
Qed.

(** Subtracting a non-negative number from a float never increases it. *)
Lemma fsub_le (x : Z) (b : float) :
  wf (Fin x) -> fleb (Fin 0) b = true -> fleb (fsub (Fin x) b) (Fin x) = true.
Proof.
  intros [Hr Hm] Hb. destruct b as [y| | |]; try done. rewrite fleb_Fin in Hb. to_props.
  simpl. rewrite <- (fround_exact x 1) by (try lia; done). apply fround_mono; lia.
Qed.

(** [x - 1.0] is exact for [1.0 <= x < 2^53]. *)
Lemma fsub_one_exact (x : Z) :
  wf (Fin x) -> unit_k <= x < 2 ^ 53 * unit_k ->
  fsub (Fin x) (of_Z 1) = Fin (x - unit_k).
Proof.
  intros [Hr Hm] Hx. rewrite of_Z_small by lia. pose proof unit_k_pos.
  change (fround (x + - (1 * unit_k)) 1 = Fin (x - unit_k)).
  replace (x + - (1 * unit_k)) with ((x - unit_k) * 1) by lia.
  apply fround_exact; [lia| |lia].
  destruct (rep_shape x Hr ltac:(lia)) as (q & Hq & Hb).
  pose proof (scale_nonneg x 1) as Hs.
  remember (scale x 1) as e eqn:Ee.
  assert (He : e <= 1074).
  { destruct (Z.le_gt_cases e 1074) as [|Hgt]; [done|].
    pose proof (scale_lower x 1 ltac:(lia) ltac:(lia)) as Hl. rewrite <- Ee in Hl.
    specialize (Hl ltac:(lia)).
    assert (Hp : 2 ^ 1075 <= 2 ^ e) by (apply Z.pow_le_mono_r; lia).
    exfalso. rewrite unit_k_eq in Hx.
    assert (E : 2 ^ 52 * 2 ^ 1075 = 2 ^ 53 * 2 ^ 1074) by (rewrite <- !Z.pow_add_r; lia).
    lia. }
  assert (Hu : unit_k = 2 ^ (1074 - e) * 2 ^ e).
  { rewrite unit_k_eq. rewrite <- Z.pow_add_r by lia. f_equal. lia. }
  rewrite Hq, Hu, <- Z.mul_sub_distr_r. apply rep_mult; [|done].
  assert (0 < 2 ^ e) by (apply Z.pow_pos_nonneg; lia).
  assert (0 < 2 ^ (1074 - e)) by (apply Z.pow_pos_nonneg; lia). nia.
Qed.

(** ** Integers as floats *)

Lemma fround_eq (n d : Z) : fround n d = overflow (rnd n d).
Proof. reflexivity. Qed.

Lemma lit_eq (n d : Z) : lit n d = fround (n * unit_k) d.
Proof. reflexivity. Qed.

Lemma lit_1 (z : Z) : lit z 1 = of_Z z.
Proof. reflexivity. Qed.

Lemma fround_not_nan (n d : Z) : is_nan (fround n d) = false.
Proof. unfold fround, overflow. by repeat case_match. Qed.

Lemma of_Z_not_nan (z : Z) : is_nan (of_Z z) = false.
Proof. unfold of_Z, fround, overflow. by repeat case_match. Qed.

Lemma of_Z_wf_small (z : Z) : Z.abs z <= 2 ^ 53 -> wf (Fin (z * unit_k)).
Proof. intros H. rewrite <- of_Z_small by done. apply of_Z_wf. Qed.

(** Products of small integers are exact. *)
Lemma of_Z_mul (x y : Z) :
  Z.abs x <= 2 ^ 53 -> Z.abs y <= 2 ^ 53 -> Z.abs (x * y) <= 2 ^ 53 ->
  fmul (of_Z x) (of_Z y) = of_Z (x * y).
Proof.
  intros Hx Hy Hxy. rewrite !of_Z_small by done. simpl.
  replace (x * unit_k * (y * unit_k)) with (x * y * unit_k * unit_k) by lia.
  destruct (of_Z_wf_small (x * y) Hxy). apply fround_exact; [apply unit_k_pos|done|done].
Qed.

(** An integer no larger than a float stays so after conversion. *)
Lemma of_Z_below (z k : Z) : wf (Fin k) -> z * unit_k <= k -> fleb (of_Z z) (Fin k) = true.
Proof.
  intros [Hr Hm] Hz. unfold of_Z. rewrite <- (fround_exact k 1) by (lia || done).
  apply fround_mono; lia.
Qed.

Lemma of_Z_above (z k : Z) : wf (Fin k) -> k <= z * unit_k -> fleb (Fin k) (of_Z z) = true.
Proof.
  intros [Hr Hm] Hz. unfold of_Z. rewrite <- (fround_exact k 1) by (lia || done).
  apply fround_mono; lia.
Qed.

Lemma of_Z_mono (x y : Z) : x <= y -> fleb (of_Z x) (of_Z y) = true.
Proof. intros H. unfold of_Z. apply fround_mono; try lia. pose proof unit_k_pos. nia. Qed.

Lemma fltb_Z_false (a : float) (z : Z) :
  wf a -> is_nan a = false -> fltb_Z a z = false -> fleb (of_Z z) a = true.
Proof.
  destruct a as [k| | |]; simpl; try done; intros Hw _ H; to_props.
  - by apply of_Z_below.
  - pose proof (of_Z_not_nan z). by destruct (of_Z z).
Qed.

(** Rounding errors below [2 ^ m]: at most [2 ^ (m - 53)]. *)
Lemma fround_near_at (m n d : Z) :
  0 <= m <= 52 -> 0 < d -> 0 <= n < 2 ^ m * unit_k * d ->
  exists k, fround n d = Fin k /\ 0 <= k /\ n - 2 ^ (1021 + m) * d <= k * d <= n + 2 ^ (1021 + m) * d.
Proof.
  intros Hm Hd Hn. set (e := 2 ^ (1021 + m)) in *.
  assert (Hu : 2 ^ m * unit_k = 2 ^ (1074 + m)) by (rewrite unit_k_eq, <- Z.pow_add_r by lia; f_equal; lia).
  assert (Hq : n / d < 2 ^ (1074 + m)) by (apply Z.div_lt_upper_bound; nia).
  assert (Hq0 : 0 <= n / d) by (apply Z.div_pos; lia).
  assert (Hs : 0 <= scale n d <= 1021 + m).
  { unfold scale. split; [lia|]. destruct (Z.eq_dec (n / d) 0) as [->|]; [simpl; lia|].
    pose proof (Z.log2_lt_pow2 (n / d) (1074 + m)). lia. }
  assert (Hp : 0 < 2 ^ scale n d <= e).
  { split; [apply Z.pow_pos_nonneg; lia|]. apply Z.pow_le_mono_r; lia. }
  assert (Hr : n - e * d <= rnd n d * d <= n + e * d).
  { unfold rnd. rewrite !rnd_pos_eq. destruct (n <? 0) eqn:E; to_props; [lia|].
    destruct (div_half_even_spec n (d * 2 ^ scale n d)) as [H _]; [nia|].
    set (q := div_half_even n (d * 2 ^ scale n d)) in *. clearbody q.
    set (p := 2 ^ scale n d) in *. clearbody p.
    assert (p * d <= e * d) by (apply Z.mul_le_mono_nonneg_r; lia).
    replace (q * p * d) with (q * (d * p)) by ring. lia. }
  assert (H0 : 0 <= rnd n d) by (apply (rnd_mono 0 1 n d); lia).
  assert (Hlt : rnd n d < max_k).
  { assert (He : e < 2 ^ 1074) by (apply Z.pow_lt_mono_r; lia). rewrite Hu in Hn.
    assert (Hb : 2 ^ (1074 + m) + 2 ^ 1074 <= max_k).
    { transitivity (2 ^ 1126 + 2 ^ 1074); [|rewrite max_k_unit, unit_k_eq; apply Z.leb_le; vm_compute; reflexivity].
      apply Z.add_le_mono_r, Z.pow_le_mono_r; lia. }
    clearbody e. apply (Z.mul_lt_mono_pos_r d); [exact Hd|]. nia. }
  exists (rnd n d). rewrite fround_eq. unfold overflow.
  destruct (max_k <=? rnd n d) eqn:E1; to_props; [lia|].
  destruct (rnd n d <=? - max_k) eqn:E2; to_props; [pose proof max_k_pos; lia|].
  split; [reflexivity|]. split; [exact H0|exact Hr].
Qed.

(** Rounding errors below 1024.0: at most [eps], 2^-43. *)
Definition eps : Z := 2 ^ 1031.

Lemma fround_near (n d : Z) :
  0 < d -> 0 <= n < 1024 * unit_k * d ->
  exists k, fround n d = Fin k /\ 0 <= k /\ n - eps * d <= k * d <= n + eps * d.
Proof. intros Hd Hn. apply (fround_near_at 10 n d); [lia|exact Hd|exact Hn]. Qed.

Lemma fsqrt_near (k : Z) :
  0 <= k <= 1000 * unit_k ->
  exists q r, fsqrt (Fin k) = Fin q /\ 0 <= r /\ r * r <= k * unit_k < (r + 1) * (r + 1) /\
              0 <= q /\ r - eps <= q <= r + 1 + eps.
Proof.
  intros Hk. pose proof unit_k_pos as Hu. simpl.
  destruct (k <? 0) eqn:E; to_props; [lia|].
  pose proof (Z.sqrt_spec (k * unit_k) ltac:(nia)) as Hr. cbn zeta in Hr.
  set (r := Z.sqrt (k * unit_k)) in *.
  assert (Hr0 : 0 <= r) by apply Z.sqrt_nonneg.
  assert (r <= 1000 * unit_k).
  { destruct (Z.le_gt_cases r (1000 * unit_k)); [assumption|exfalso].
    pose proof (Z.mul_lt_mono_nonneg (1000 * unit_k) r (1000 * unit_k) r ltac:(lia) ltac:(lia)
      ltac:(lia) ltac:(lia)).
    pose proof (Z.mul_le_mono_nonneg_r k (1000 * unit_k) unit_k ltac:(lia) ltac:(lia)).
    pose proof (Z.mul_pos_pos unit_k unit_k Hu Hu). lia. }
  destruct (fround_near (if r * r =? k * unit_k then 2 * r else 2 * r + 1) 2)
    as (q & -> & Hq & Hb); [lia|destruct (_ =? _); lia|].
  exists q, r. split; [reflexivity|]. split; [exact Hr0|]. split; [lia|].
  split; [exact Hq|]. destruct (_ =? _) in Hb; lia.
Qed.

(** A difference rounded to minus infinity is below zero: the operands are in
    order. *)
Lemma fsub_ninf_lt (a b : float) : wf a -> wf b -> fsub a b = NInf -> fltb a b = true.
Proof.
  destruct a as [x| | |], b as [y| | |]; try done. intros Ha Hb H. simpl in *.
  apply Z.ltb_lt. destruct (Z.le_gt_cases y x) as [Hle|]; [exfalso|done].
  pose proof (fsub_nonneg y x Hle) as Hn. simpl in Hn. by rewrite H in Hn.
Qed.

(** ** Agreement with the Standard Library's model of IEEE 754

    [to_spec] writes a finite float in the mantissa and exponent form of
    [SpecFloat]; the examples compare sums, products, quotients and literals
    with the operations of that library. *)

From Stdlib Require SpecFloat.

Definition to_spec (a : float) : SpecFloat.spec_float :=
  match a with
  | Fin 0 => SpecFloat.S754_zero false
  | Fin (Zpos p) => SpecFloat.binary_normalize 53 1024 (Zpos p) (-1074) false
  | Fin (Zneg p) => SpecFloat.binary_normalize 53 1024 (Zneg p) (-1074) true
  | PInf => SpecFloat.S754_infinity false
  | NInf => SpecFloat.S754_infinity true
  | NaN => SpecFloat.S754_nan
  end.

Definition spec_Z (z : Z) : SpecFloat.spec_float :=
  SpecFloat.binary_normalize 53 1024 z 0 false.

Definition spec_lit (n d : Z) : SpecFloat.spec_float :=
  SpecFloat.SFdiv 53 1024 (spec_Z n) (spec_Z d).

Example lit_agrees :
  map (fun p => to_spec (lit p.1 p.2)) [(1, 10); (2, 10); (5, 1000); (7, 3); (-1, 3)] =
  map (fun p => spec_lit p.1 p.2) [(1, 10); (2, 10); (5, 1000); (7, 3); (-1, 3)].
Proof. by vm_compute. Qed.

Example sqrt_agrees :
  map (fun x => to_spec (fsqrt x)) [of_Z 10; of_Z 400; lit 1 10] =
  map (SpecFloat.SFsqrt 53 1024) [spec_Z 10; spec_Z 400; spec_lit 1 10].
Proof. by vm_compute. Qed.

Example add_agrees :
  to_spec (lit 1 10 + lit 2 10)%F = SpecFloat.SFadd 53 1024 (spec_lit 1 10) (spec_lit 2 10) /\
  (lit 1 10 + lit 2 10)%F <> lit 3 10.
Proof. split; [by vm_compute|by vm_compute]. Qed.

Example mul_agrees :
  to_spec (lit 1 10 * lit 3 1)%F = SpecFloat.SFmul 53 1024 (spec_lit 1 10) (spec_lit 3 1) /\
  to_spec (fdivc (lit 7 10) 1000) =
    SpecFloat.SFdiv 53 1024 (spec_lit 7 10) (spec_Z 1000).
Proof. split; by vm_compute. Qed.

(** Later files reason about these through the lemmas above; only [vm_compute]
    evaluates them. *)
#[global] Opaque fround of_Z lit.
