(* ===== verification/PyWorld.v ===== *)
(** * Clocks and random numbers

    A reading of [time.monotonic()], [time.perf_counter()] or [time.time()] and
    a draw of [random.random()] are inputs of the program.  [World] holds the
    readings still to come, in order, as arbitrary streams: every theorem holds
    for all of them, and says so when it needs a monotonic clock.  A sleep
    changes no state of the program; it only shows in later readings. *)

From Stdlib Require Import ZArith Lia.
From stdpp Require Import base option list numbers strings pretty sorting.
From S2P Require Import Prelude PyFloat.

Open Scope Z_scope.

Record World : Type := mkWorld {
  clock : nat -> float;
  ticks : nat;
  dice : nat -> float;
  draws : nat;
}.

(** [time.monotonic()] and the other clocks. *)
Definition read_clock (w : World) : float * World :=
  (clock w (ticks w), mkWorld (clock w) (S (ticks w)) (dice w) (draws w)).

(** [random.random()]. *)
Definition read_random (w : World) : float * World :=
  (dice w (draws w), mkWorld (clock w) (ticks w) (dice w) (S (draws w))).

(** [random.uniform(a, b)] is [a + (b - a) * random()]. *)
Definition uniform (a b : float) (w : World) : float * World :=
  let '(r, w') := read_random w in ((a + (b - a) * r)%F, w').

(** A [random.random()] is in [0.0, 1.0). *)
Definition fair_dice (w : World) : Prop :=
  forall n, exists k, dice w n = Fin k /\ 0 <= k < unit_k.

(** [round(x, 2)]: the exact value rounded to hundredths, ties to even, then to
    the nearest float. *)
Definition round2 (x : float) : float :=
  match x with
  | Fin k => lit (Z.sgn k * div_half_even (100 * Z.abs k) unit_k) 100
  | _ => x
  end.

(** The format [:.0f]. *)
Definition fmt0 (x : float) : string :=
  match x with
  | Fin k =>
      (if k <? 0 then "-" else "") +:+ pretty (Z.to_N (div_half_even (Z.abs k) unit_k))
  | PInf => "inf"
  | NInf => "-inf"
  | NaN => "nan"
  end.

(** [sorted] on floats: stable, comparing with [<]. *)
Fixpoint insert_float (x : float) (l : list float) : list float :=
  match l with
  | [] => [x]
  | y :: l' => if (y <? x)%F then y :: insert_float x l' else x :: l
  end.

Definition sorted_floats (l : list float) : list float := foldr insert_float [] l.

(** ** Lemmas *)

Lemma insert_float_perm (x : float) (l : list float) : insert_float x l ≡ₚ x :: l.
Proof.
  induction l as [|y l IH]; simpl; [done|]. destruct (fltb y x); [|done].
  rewrite IH. constructor.
Qed.

Lemma sorted_floats_perm (l : list float) : sorted_floats l ≡ₚ l.
Proof. induction l as [|x l IH]; simpl; [done|]. by rewrite insert_float_perm, IH. Qed.

Lemma sorted_floats_length (l : list float) : length (sorted_floats l) = length l.
Proof. by rewrite sorted_floats_perm. Qed.

Lemma insert_float_sorted (x : float) (l : list float) :
  is_nan x = false -> Forall (fun y => is_nan y = false) l ->
  StronglySorted (fun a b => fleb a b = true) l -> StronglySorted (fun a b => fleb a b = true) (insert_float x l).
Proof.
  intros Hx Hl Hs. induction Hs as [|y l Hs IH Hy]; simpl; [repeat constructor|].
  apply Forall_cons in Hl as [Hny Hl]. destruct (fltb y x) eqn:E.
  - constructor; [by apply IH|]. rewrite insert_float_perm. constructor; [by apply fltb_fleb|exact Hy].
  - assert (Hxy : fleb x y = true) by (by apply fleb_total).
    constructor; [by constructor|]. constructor; [exact Hxy|].
    eapply Forall_impl; [exact Hy|]. intros z Hz. by apply (fleb_trans x y z).
Qed.

Lemma sorted_floats_sorted (l : list float) :
  Forall (fun y => is_nan y = false) l -> StronglySorted (fun a b => fleb a b = true) (sorted_floats l).
Proof.
  induction 1 as [|x l Hx Hl IH]; simpl; [constructor|].
  apply insert_float_sorted; [exact Hx| |exact IH]. by rewrite sorted_floats_perm.
Qed.

Lemma fltb_irrefl (a : float) : fltb a a = false.
Proof. destruct a; try done. apply Z.ltb_irrefl. Qed.

(** At position [i] of a sorted list: at most [i] before, the rest not before. *)
Lemma sorted_below (l : list float) (i : nat) (x : float) :
  StronglySorted (fun a b => fleb a b = true) l -> l !! i = Some x ->
  (length (List.filter (fun y => fltb y x) l) <= i)%nat.
Proof.
  intros Hs. revert i. induction Hs as [|a l Hs IH Ha]; intros i Hi; [done|]. destruct i as [|i].
  - injection Hi as <-. cbn [List.filter]. rewrite fltb_irrefl.
    rewrite List_filter_none; [done|]. eapply Forall_impl; [exact Ha|]. intros y. apply fleb_not_fltb.
  - specialize (IH i Hi). cbn [List.filter]. destruct (fltb a x); cbn [length]; lia.
Qed.

Lemma sorted_above (l : list float) (i : nat) (x : float) :
  StronglySorted (fun a b => fleb a b = true) l -> l !! i = Some x ->
  (i + length (List.filter (fun y => fltb x y) l) < length l)%nat.
Proof.
  intros Hs. revert i. induction Hs as [|a l Hs IH Ha]; intros i Hi; [done|]. destruct i as [|i].
  - injection Hi as <-. cbn [List.filter]. rewrite fltb_irrefl.
    pose proof (List.filter_length_le (fun y => fltb a y) l). cbn [length]. lia.
  - specialize (IH i Hi). cbn [List.filter length].
    rewrite Forall_forall in Ha. rewrite (fleb_not_fltb _ _ (Ha x (list_elem_of_lookup_2 l i x Hi))). lia.
Qed.

Lemma filter_length_perm {A} (p : A -> bool) (l k : list A) :
  l ≡ₚ k -> length (List.filter p l) = length (List.filter p k).
Proof.
  induction 1 as [|x l k _ IH|x y l|l k m _ IH1 _ IH2]; simpl; [done| | |by rewrite IH1].
  - destruct (p x); simpl; by rewrite IH.
  - by destruct (p x), (p y).
Qed.

(** [p / 100 * n], for the percentages and list lengths the programs use. *)
Lemma percent_near (p : Z) (n : nat) :
  0 <= p <= 100 -> Z.of_nat n <= 100000 ->
  exists x, (lit p 100 * of_Z (Z.of_nat n))%F = Fin x /\ 0 <= x /\
    Z.abs (100 * x - p * Z.of_nat n * unit_k) < unit_k.
Proof.
  intros Hp Hn. set (N := Z.of_nat n). assert (HN : 0 <= N <= 100000) by lia.
  pose proof unit_k_pos as Hu.
  destruct (fround_near_at 1 (p * unit_k) 100) as (k & Ek & Hk0 & Hk);
    [lia|lia|split; [lia|change (2 ^ 1) with 2; nia]|].
  rewrite lit_eq, Ek, of_Z_small by lia. cbn [fmul].
  assert (Hs : 2 ^ (1021 + 1) * 2 ^ 52 = unit_k) by (rewrite unit_k_eq, <- Z.pow_add_r by lia; reflexivity).
  set (e := 2 ^ (1021 + 1)) in *. assert (He : 0 < e) by (apply Z.pow_pos_nonneg; lia).
  assert (Hs' : 2 ^ (1021 + 17) = 65536 * e) by (subst e; rewrite <- (Z.pow_add_r 2 16) by lia; reflexivity).
  change (2 ^ 52) with 4503599627370496 in Hs. clearbody e.
  assert (Hkp : 0 <= k <= 2 * unit_k) by nia.
  destruct (fround_near_at 17 (k * (N * unit_k)) unit_k) as (x & Ex & Hx0 & Hx); [lia|exact Hu| |].
  { split; [apply Z.mul_nonneg_nonneg; lia|]. change (2 ^ 17) with 131072.
    assert (k * N <= 2 * unit_k * N) by (apply Z.mul_le_mono_nonneg_r; lia). nia. }
  rewrite Ex, Hs' in *. exists x. split; [reflexivity|]. split; [exact Hx0|].
  assert (Hxk : k * N - 65536 * e <= x <= k * N + 65536 * e).
  { split; apply (Z.mul_le_mono_pos_r _ _ unit_k); lia. }
  assert (HkN : p * unit_k * N - e * 100 * N <= k * 100 * N <= p * unit_k * N + e * 100 * N).
  { split; rewrite <- ?Z.mul_sub_distr_r, <- ?Z.mul_add_distr_r; apply Z.mul_le_mono_nonneg_r; lia. }
  assert (HeN : e * 100 * N <= e * 10000000) by nia.
  replace (p * N * unit_k) with (p * unit_k * N) by ring. lia.
Qed.

(** [int(0.95 * n)]. *)
Lemma rank_95 (n : nat) :
  Z.of_nat n <= 100000 ->
  exists i, f_int (lit 95 100 * of_Z (Z.of_nat n))%F = Some i /\ 0 <= i /\
    20 * i <= 19 * Z.of_nat n <= 20 * (i + 1).
Proof.
  intros Hn. destruct (percent_near 95 n ltac:(lia) Hn) as (x & -> & Hx0 & Hx). cbn [f_int].
  pose proof unit_k_pos as Hu. rewrite Z.quot_div_nonneg by lia. exists (x / unit_k).
  split; [reflexivity|]. split; [apply Z.div_pos; lia|].
  pose proof (Z.div_mod x unit_k ltac:(lia)) as Hd. pose proof (Z.mod_pos_bound x unit_k Hu) as Hb.
  set (i := x / unit_k) in *. clearbody i. set (N := Z.of_nat n) in *. clearbody N.
  assert (100 * i * unit_k < (95 * N + 1) * unit_k) by lia.
  assert (95 * N * unit_k < (100 * (i + 1) + 1) * unit_k) by lia.
  assert (100 * i < 95 * N + 1) by (apply (Z.mul_lt_mono_pos_r unit_k); lia).
  assert (95 * N < 100 * (i + 1) + 1) by (apply (Z.mul_lt_mono_pos_r unit_k); lia). lia.
Qed.

(** [math.ceil(x)]. *)
Definition f_ceil (a : float) : option Z :=
  match a with Fin x => Some (- (- x / unit_k)) | _ => None end.

(** [math.ceil(p / 100 * n)]. *)
Lemma rank_ceil (p : Z) (n : nat) :
  0 <= p <= 100 -> Z.of_nat n <= 100000 ->
  exists i, f_ceil (lit p 100 * of_Z (Z.of_nat n))%F = Some i /\ 0 <= i /\
    100 * (i - 1) <= p * Z.of_nat n <= 100 * i.
Proof.
  intros Hp Hn. destruct (percent_near p n Hp Hn) as (x & -> & Hx0 & Hx). cbn [f_ceil].
  pose proof unit_k_pos as Hu. exists (- (- x / unit_k)). split; [reflexivity|].
  pose proof (Z.div_mod (- x) unit_k ltac:(lia)) as Hd. pose proof (Z.mod_pos_bound (- x) unit_k Hu) as Hb.
  set (i := - x / unit_k) in *. clearbody i. set (N := Z.of_nat n) in *. clearbody N.
  assert (H1 : 100 * (- i - 1) * unit_k < (p * N + 1) * unit_k) by lia.
  assert (H2 : p * N * unit_k < (100 * - i + 1) * unit_k) by lia.
  apply Z.mul_lt_mono_pos_r in H1, H2; [|exact Hu..].
  split; [|lia]. assert (unit_k * i <= unit_k * 0) by lia. apply (Z.mul_le_mono_pos_l i 0) in H; lia.
Qed.

(** At position [i] of the sorted values. *)
Lemma sorted_splits (l : list float) (i : nat) (x : float) :
  Forall (fun y => is_nan y = false) l -> sorted_floats l !! i = Some x ->
  x ∈ l /\ (length (List.filter (fun y => fltb y x) l) <= i)%nat /\
  (i + length (List.filter (fun y => fltb x y) l) < length l)%nat.
Proof.
  intros Hl Hx. pose proof (sorted_floats_sorted l Hl) as Hs.
  pose proof (sorted_below _ _ _ Hs Hx) as Hb. pose proof (sorted_above _ _ _ Hs Hx) as Ha.
  rewrite sorted_floats_length in Ha.
  rewrite (filter_length_perm _ _ _ (sorted_floats_perm l)) in Ha.
  rewrite (filter_length_perm _ _ _ (sorted_floats_perm l)) in Hb.
  split; [by apply list_elem_of_lookup_2 in Hx; rewrite sorted_floats_perm in Hx|]. lia.
Qed.

(** So the sample at that rank is the 95th percentile. *)
Lemma p95_splits (l : list float) (i : Z) (x : float) :
  Forall (fun y => is_nan y = false) l -> 0 <= i ->
  20 * i <= 19 * Z.of_nat (length l) <= 20 * (i + 1) ->
  sorted_floats l !! Z.to_nat (Z.min (Z.of_nat (length l) - 1) i) = Some x ->
  x ∈ l /\
  (20 * length (List.filter (fun y => fltb y x) l) <= 19 * length l)%nat /\
  (20 * length (List.filter (fun y => fltb x y) l) <= length l)%nat.
Proof.
  intros Hl Hi Hr Hx. destruct (sorted_splits _ _ _ Hl Hx) as (H1 & H2 & H3). split; [exact H1|]. lia.
Qed.

(** A draw below the bound stays below it: [0 <= uniform(0, b) <= b]. *)
Lemma uniform_bounds (k : Z) (w : World) :
  fair_dice w -> wf (Fin k) -> 0 <= k ->
  fleb (Fin 0) (uniform (Fin 0) (Fin k) w).1 = true /\
  fleb (uniform (Fin 0) (Fin k) w).1 (Fin k) = true.
Proof.
  intros Hd Hw Hk. unfold uniform, read_random. cbn [fst].
  destruct (Hd (draws w)) as (r & -> & Hr).
  rewrite fsub_0_r by done.
  destruct (fmul_fraction k r Hw Hk) as [H1 H2]; [lia|].
  pose proof (fmul_wf (Fin k) (Fin r)) as Hwf.
  destruct (fmul (Fin k) (Fin r)) as [x| | |]; try done.
  by rewrite fadd_0_l.
Qed.

Example fmt0_examples :
  (fmt0 (of_Z 2), fmt0 (lit 5 2), fmt0 (lit (-7) 2), round2 (lit 1 3)) =
  ("2", "2", "-4", lit 33 100).
Proof. by vm_compute. Qed.
