(* ===== verification/PyText.v ===== *)
(** * Text: the parts of [str], [int] and [float] the configuration uses

    [str(v)] of the JSON values a patch can hold, [strip], [lower], and the
    parsers behind [int(s)] and [float(s)], on ASCII text. *)

From Stdlib Require Import ZArith Lia Ascii.
From stdpp Require Import base option list numbers strings pretty.
From S2P Require Import Prelude PyFloat.

Open Scope Z_scope.

(** ** Definitions *)

(** A JSON value.  Floats, lists and objects enter the coercions only through
    their [str()], so that is what [VOther] holds. *)
Inductive pyval : Type :=
| VNone
| VBool (b : bool)
| VInt (z : Z)
| VStr (s : string)
| VOther (text : string).

Definition str_Z (z : Z) : string :=
  if z <? 0 then String "-" (pretty (Z.to_N (- z))) else pretty (Z.to_N z).

Definition py_str (v : pyval) : string :=
  match v with
  | VNone => "None"
  | VBool true => "True"
  | VBool false => "False"
  | VInt z => str_Z z
  | VStr s => s
  | VOther t => t
  end.

(** The characters [str.strip] removes. *)
Definition is_space (c : ascii) : bool :=
  let n := N_of_ascii c in
  ((9 <=? n) && (n <=? 13) || (28 <=? n) && (n <=? 32))%N.

Fixpoint lstrip (s : string) : string :=
  match s with
  | String c s' => if is_space c then lstrip s' else s
  | EmptyString => EmptyString
  end.

(** Drop the spaces at the end: a space stays when text follows it. *)
Fixpoint rstrip (s : string) : string :=
  match s with
  | String c s' =>
      match rstrip s' with
      | EmptyString => if is_space c then EmptyString else String c EmptyString
      | t => String c t
      end
  | EmptyString => EmptyString
  end.

Definition strip (s : string) : string := rstrip (lstrip s).

Definition lower_char (c : ascii) : ascii :=
  let n := N_of_ascii c in
  if ((65 <=? n) && (n <=? 90))%N then ascii_of_N (n + 32) else c.

Fixpoint lower (s : string) : string :=
  match s with
  | String c s' => String (lower_char c) (lower s')
  | EmptyString => EmptyString
  end.

Definition digit (c : ascii) : option Z :=
  let n := Z.of_N (N_of_ascii c) in
  if (48 <=? n) && (n <=? 57) then Some (n - 48) else None.

(** The digits at the head of a string, with single underscores between them:
    the number read so far, how many digits, and the rest. *)
Fixpoint digits (acc : Z) (count : nat) (s : string) : Z * nat * string :=
  match s with
  | String c s' =>
      match digit c with
      | Some d => digits (10 * acc + d) (S count) s'
      | None =>
          if Ascii.eqb c "_" && (0 <? Z.of_nat count) then
            match s' with
            | String c2 _ =>
                match digit c2 with
                | Some _ => digits acc count s'
                | None => (acc, count, s)
                end
            | EmptyString => (acc, count, s)
            end
          else (acc, count, s)
      end
  | EmptyString => (acc, count, s)
  end.

Definition signed (s : string) : Z * string :=
  match s with
  | String "-" s' => (-1, s')
  | String "+" s' => (1, s')
  | _ => (1, s)
  end.

(** [int(s)] in base ten; [None] is [ValueError]. *)
Definition parse_int (s : string) : option Z :=
  let '(sg, s) := signed (strip s) in
  match digits 0 0 s with
  | (n, S _, EmptyString) => Some (sg * n)
  | _ => None
  end.

(** The float nearest to [m * 10^e]. *)
Definition of_decimal (m e : Z) : float :=
  if 0 <=? e then lit (m * 10 ^ e) 1 else lit m (10 ^ (- e)).

(** An optional exponent: [e], a sign and digits, to the end of the text. *)
Definition exponent (s : string) : option Z :=
  match s with
  | EmptyString => Some 0
  | String c s' =>
      if Ascii.eqb (lower_char c) "e" then
        let '(sg, t) := signed s' in
        match digits 0 0 t with
        | (n, S _, EmptyString) => Some (sg * n)
        | _ => None
        end
      else None
  end.

(** [float(s)]; [None] is [ValueError]. *)
Definition parse_float (s : string) : option float :=
  let '(sg, s) := signed (strip s) in
  if bool_decide (lower s ∈ ["inf"; "infinity"]) then Some (if sg <? 0 then NInf else PInf)
  else if bool_decide (lower s = "nan") then Some NaN
  else
    let '(m, n1, s1) := digits 0 0 s in
    let '(m, n2, s2) :=
      match s1 with
      | String "." s1' =>
          let '(f, k, rest) := digits 0 0 s1' in (m * 10 ^ Z.of_nat k + f, k, rest)
      | _ => (m, O, s1)
      end in
    if (n1 + n2 =? 0)%nat then None
    else e ← exponent s2; Some (of_decimal (sg * m) (e - Z.of_nat n2)).

(** ** Lemmas *)

Lemma digit_pretty (d : N) :
  (d < 10)%N -> digit (pretty_N_char d) = Some (Z.of_N d).
Proof.
  intros H. destruct d as [|p]; [done|].
  do 4 (destruct p as [p|p|]; try lia; try done).
Qed.

Lemma digits_step (x : N) (s : string) (acc : Z) (n : nat) :
  (x < 10)%N ->
  digits acc n (String (pretty_N_char x) s) = digits (10 * acc + Z.of_N x) (S n) s.
Proof. intros H. simpl. by rewrite digit_pretty. Qed.

(** Reading back what [str] printed. *)
Lemma digits_pretty_go (x : N) (s : string) :
  (0 < x)%N ->
  exists n, digits 0 0 (pretty_N_go x s) = digits (Z.of_N x) (S n) s.
Proof.
  revert s. induction (N.lt_wf_0 x) as [x _ IH]. intros s Hx.
  rewrite pretty_N_go_step by done.
  pose proof (N.mod_lt x 10 ltac:(lia)) as Hm.
  destruct (decide (x / 10 = 0)%N) as [E|E].
  - rewrite E, pretty_N_go_0. exists O. rewrite digits_step by done. f_equal.
    pose proof (N.div_mod x 10 ltac:(lia)). lia.
  - destruct (IH (x / 10)%N) with (s := String (pretty_N_char (x `mod` 10)) s) as [n Hn].
    + apply N.div_lt; lia.
    + by apply N.neq_0_lt_0.
    + exists (S n). rewrite Hn, digits_step by done. f_equal.
      pose proof (N.div_mod x 10 ltac:(lia)). lia.
Qed.

Lemma digits_pretty (x : N) :
  exists n, digits 0 0 (pretty x) = (Z.of_N x, S n, EmptyString).
Proof.
  unfold pretty, pretty_N. destruct (decide (x = 0)%N) as [->|Hx]; [by exists O|].
  destruct (digits_pretty_go x "") as [n Hn]; [lia|]. exists n. by rewrite Hn.
Qed.

(** Every character of [s] satisfies [p]. *)
Fixpoint all_chars (p : ascii -> Prop) (s : string) : Prop :=
  match s with
  | String c s' => p c /\ all_chars p s'
  | EmptyString => True
  end.

Definition is_digit (c : ascii) : Prop := is_Some (digit c).

Lemma pretty_go_digits (x : N) (s : string) :
  all_chars is_digit s -> all_chars is_digit (pretty_N_go x s).
Proof.
  revert s. induction (N.lt_wf_0 x) as [x _ IH]. intros s Hs.
  destruct (decide (x = 0)%N) as [->|Hx]; [by rewrite pretty_N_go_0|].
  rewrite pretty_N_go_step by lia. apply IH; [apply N.div_lt; lia|].
  split; [|done]. unfold is_digit. rewrite digit_pretty; [by eexists|].
  apply N.mod_lt. lia.
Qed.

Lemma pretty_digits (x : N) : all_chars is_digit (pretty x).
Proof.
  unfold pretty, pretty_N. case_decide; [|by apply pretty_go_digits].
  split; [by eexists|done].
Qed.

Lemma digit_range (c : ascii) : is_digit c -> (48 <= N_of_ascii c <= 57)%N.
Proof.
  unfold is_digit, digit. intros [d H].
  destruct ((48 <=? _) && _) eqn:E; [|done]. to_props. lia.
Qed.

Lemma digit_not_space (c : ascii) : is_digit c -> is_space c = false.
Proof.
  intros H%digit_range. unfold is_space. set (n := N_of_ascii c) in *. clearbody n.
  destruct (9 <=? n)%N eqn:?, (n <=? 13)%N eqn:?, (28 <=? n)%N eqn:?, (n <=? 32)%N eqn:?;
    simpl; try done; rewrite ?N.leb_le in *; lia.
Qed.

Lemma all_chars_impl (p q : ascii -> Prop) (s : string) :
  (forall c, p c -> q c) -> all_chars p s -> all_chars q s.
Proof. intros H. induction s as [|c s IH]; simpl; [done|]. intros [? ?]. auto. Qed.

Lemma strip_id (s : string) : all_chars (fun c => is_space c = false) s -> strip s = s.
Proof.
  unfold strip. intros H.
  assert (E : lstrip s = s) by (destruct s; simpl in *; [done|]; by destruct H as [-> _]).
  rewrite E. clear E. induction s as [|c s IH]; simpl in *; [done|].
  destruct H as [Hc Hs]. rewrite (IH Hs). destruct s; [by rewrite Hc|done].
Qed.

Lemma signed_digits (s : string) : all_chars is_digit s -> signed s = (1, s).
Proof.
  destruct s as [|c s]; [done|]. intros [H%digit_range _].
  unfold signed. destruct c as [[] [] [] [] [] [] [] []]; try done;
    vm_compute in H; by destruct H.
Qed.

(** [int(str(z))] is [z]. *)
Lemma parse_int_str (z : Z) : parse_int (str_Z z) = Some z.
Proof.
  unfold parse_int, str_Z.
  assert (Hp : forall x : N, strip (pretty x) = pretty x).
  { intros x. apply strip_id. eapply all_chars_impl; [apply digit_not_space|].
    apply pretty_digits. }
  destruct (z <? 0) eqn:E; to_props.
  - rewrite (strip_id (String "-" _)).
    + simpl. destruct (digits_pretty (Z.to_N (- z))) as [n ->]. f_equal. lia.
    + split; [done|]. eapply all_chars_impl; [apply digit_not_space|]. apply pretty_digits.
  - rewrite Hp, signed_digits by apply pretty_digits.
    destruct (digits_pretty (Z.to_N z)) as [n ->]. f_equal. lia.
Qed.

Example parse_int_examples :
  map parse_int [" 42 "; "+7"; "-3"; "1_000"; ""; "1__0"; "4.0"; "_1"; "x"] =
  [Some 42; Some 7; Some (-3); Some 1000; None; None; None; None; None].
Proof. by vm_compute. Qed.

Example parse_float_examples :
  map parse_float ["30.0"; "2.5e-1"; " .5"; "1_0"; "-inf"; "e5"; "5."; "1e"] =
  [Some (of_Z 30); Some (lit 1 4); Some (lit 1 2); Some (of_Z 10); Some NInf; None;
   Some (of_Z 5); None].
Proof. by vm_compute. Qed.

Lemma strip_str_Z (z : Z) : strip (str_Z z) = str_Z z.
Proof.
  unfold str_Z. destruct (z <? 0); apply strip_id; [split; [done|]|];
    (eapply all_chars_impl; [apply digit_not_space|]; apply pretty_digits).
Qed.
