(* ===== verification/Money.v ===== *)
(** * Money: splitting an amount of cents into [n] parts

    Models src/08-craft/lab/api/app/core/money.py.  [split_evenly] is the
    shipped split and [split_evenly_fixed] its repair for refunds.  Python's
    [//] and [%] floor, like [Z.div] and [Z.modulo]. *)

From Stdlib Require Import ZArith Lia.
From stdpp Require Import base option list numbers strings sorting.
From S2P Require Import Prelude.

Open Scope Z_scope.

(** ** Definitions *)

Inductive money_error : Type :=
| ValueError (msg : string).

(** [for i in range(r): parts[i] += 1]. *)
Definition add_one_to_first (r : Z) (parts : list Z) : list Z :=
  imap (fun i x => if Z.of_nat i <? r then x + 1 else x) parts.

Definition split_evenly (total_cents n : Z) : res money_error (list Z) :=
  if n <? 1 then Err (ValueError "n must be >= 1")
  else
    let base := total_cents / n in
    let remainder := Z.abs total_cents mod n in
    Ok (add_one_to_first remainder (replicate (Z.to_nat n) base)).

Definition split_evenly_fixed (total_cents n : Z) : res money_error (list Z) :=
  if n <? 1 then Err (ValueError "n must be >= 1")
  else
    let sign := if total_cents <? 0 then -1 else 1 in
    let base := Z.abs total_cents / n in
    let remainder := Z.abs total_cents mod n in
    let parts := add_one_to_first remainder (replicate (Z.to_nat n) base) in
    Ok (map (fun p => sign * p) parts).

(** The contract of the docstring: the parts are [n] numbers that sum to the
    total and differ by at most one, and those that get the extra cent, of the charge or
    of the refund, come first. *)
Definition fair_split (total n : Z) (parts : list Z) : Prop :=
  Z.of_nat (length parts) = n /\
  zsum parts = total /\
  (forall x y, x ∈ parts -> y ∈ parts -> Z.abs (x - y) <= 1) /\
  (forall i j x y, (i <= j)%nat -> parts !! i = Some x -> parts !! j = Some y -> Z.abs y <= Z.abs x).

(** ** The shape of the loop's result *)

Lemma add_one_replicate (r n : nat) (b : Z) :
  (r <= n)%nat ->
  add_one_to_first (Z.of_nat r) (replicate n b) =
  replicate r (b + 1) ++ replicate (n - r) b.
Proof.
  intros Hr. apply list_eq. intros i. unfold add_one_to_first.
  rewrite list_lookup_imap.
  destruct (decide (i < n)%nat) as [Hi|Hi].
  - rewrite lookup_replicate_2 by done. simpl.
    destruct (decide (i < r)%nat) as [Hir|Hir].
    + rewrite lookup_app_l by (rewrite length_replicate; lia).
      rewrite lookup_replicate_2 by lia. destruct (_ <? _) eqn:E; to_props; [done|lia].
    + rewrite lookup_app_r, lookup_replicate_2 by (rewrite ?length_replicate; lia).
      destruct (_ <? _) eqn:E; to_props; [lia|done].
  - rewrite lookup_ge_None_2, lookup_ge_None_2; [done| |];
      rewrite ?length_app, !length_replicate; lia.
Qed.

Lemma elem_of_split (x b : Z) (r m : nat) :
  x ∈ replicate r (b + 1) ++ replicate m b -> x = b \/ x = b + 1.
Proof. rewrite elem_of_app, !elem_of_replicate. tauto. Qed.

Lemma split_evenly_ok (t n : Z) :
  1 <= n ->
  split_evenly t n =
  Ok (replicate (Z.to_nat (Z.abs t mod n)) (t / n + 1) ++
      replicate (Z.to_nat n - Z.to_nat (Z.abs t mod n)) (t / n)).
Proof.
  intros Hn. unfold split_evenly. destruct (n <? 1) eqn:E; to_props; [lia|].
  pose proof (Z.mod_pos_bound (Z.abs t) n ltac:(lia)).
  rewrite <- (Z2Nat.id (Z.abs t mod n)) at 1 by lia.
  rewrite add_one_replicate by lia. done.
Qed.

Lemma split_evenly_sum (t n : Z) (parts : list Z) :
  split_evenly t n = Ok parts -> zsum parts = n * (t / n) + Z.abs t mod n.
Proof.
  intros H. destruct (Z.le_gt_cases 1 n) as [Hn|Hn].
  - rewrite split_evenly_ok in H by done. simplify_eq.
    pose proof (Z.mod_pos_bound (Z.abs t) n ltac:(lia)).
    autorewrite with py. nia.
  - unfold split_evenly in H. destruct (n <? 1) eqn:E; to_props; [done|lia].
Qed.

(** On non-negative totals the repair changes nothing. *)
Lemma split_evenly_fixed_nonneg (t n : Z) :
  0 <= t -> split_evenly_fixed t n = split_evenly t n.
Proof.
  intros Ht. unfold split_evenly_fixed, split_evenly.
  destruct (t <? 0) eqn:E; to_props; [lia|]. rewrite Z.abs_eq by done.
  destruct (n <? 1); [done|]. f_equal.
  rewrite <- map_id. apply map_ext. intros. lia.
Qed.

Lemma split_evenly_fixed_neg (t n : Z) (parts : list Z) :
  t < 0 -> split_evenly (- t) n = Ok parts ->
  split_evenly_fixed t n = Ok (map Z.opp parts).
Proof.
  intros Ht H. unfold split_evenly_fixed, split_evenly in *.
  destruct (t <? 0) eqn:E; to_props; [|lia]. destruct (n <? 1); [done|].
  rewrite Z.abs_neq by lia. rewrite Z.abs_eq in H by lia. simplify_eq. done.
Qed.

Lemma split_evenly_fair (t n : Z) (parts : list Z) :
  0 <= t -> split_evenly t n = Ok parts -> fair_split t n parts.
Proof.
  intros Ht H. pose proof (split_evenly_sum t n parts H) as Hsum.
  unfold split_evenly in H. destruct (n <? 1) eqn:E; to_props; [done|].
  pose proof (Z.mod_pos_bound (Z.abs t) n ltac:(lia)).
  rewrite <- (Z2Nat.id (Z.abs t mod n)) in H at 1 by lia.
  rewrite add_one_replicate in H by lia. simplify_eq.
  split_and!.
  - rewrite length_app, !length_replicate. lia.
  - rewrite Hsum, Z.abs_eq by done. pose proof (Z.div_mod t n ltac:(lia)). lia.
  - intros x y Hx%elem_of_split Hy%elem_of_split. lia.
  - intros i j x y Hij Hx Hy. apply lookup_app_Some in Hx as [Hx|[Hi Hx]], Hy as [Hy|[Hj Hy]];
      apply lookup_replicate in Hx as [-> Hx], Hy as [-> Hy]; pose proof (Z.div_pos t n Ht ltac:(lia));
      rewrite ?length_replicate in *; lia.
Qed.

Lemma fair_split_opp (t n : Z) (parts : list Z) :
  fair_split t n parts -> fair_split (- t) n (map Z.opp parts).
Proof.
  intros (Hl & Hs & Hd & Ho). split_and!.
  - rewrite length_map. done.
  - rewrite zsum_map_opp. lia.
  - intros x y. rewrite !list_elem_of_fmap.
    intros (a & -> & Ha) (b & -> & Hb). specialize (Hd a b Ha Hb). lia.
  - change (map Z.opp parts) with (Z.opp <$> parts). intros i j x y Hij Hx Hy.
    apply list_lookup_fmap_Some in Hx as (a & -> & Ha), Hy as (b & -> & Hb).
    specialize (Ho i j a b Hij Ha Hb). lia.
Qed.

(** ** Properties *)

(** C38: [split_evenly_fixed] meets the contract of the docstring for every
    integer total, refunds included: it raises exactly when [n < 1], and
    otherwise returns [n] parts that sum to the total and differ by at most a
    cent, those with the extra cent first. *)
Theorem split_evenly_fixed_correct (t n : Z) :
  (n < 1 -> split_evenly_fixed t n = Err (ValueError "n must be >= 1")) /\
  (1 <= n -> exists parts, split_evenly_fixed t n = Ok parts /\ fair_split t n parts).
Proof.
  split.
  - intros Hn. unfold split_evenly_fixed. destruct (n <? 1) eqn:E; to_props; [done|lia].
  - intros Hn. destruct (Z.le_gt_cases 0 t) as [Ht|Ht].
    + rewrite split_evenly_fixed_nonneg by done. rewrite split_evenly_ok by done.
      eexists. split; [done|]. apply split_evenly_fair; [done|]. by apply split_evenly_ok.
    + pose proof (split_evenly_ok (- t) n Hn) as H.
      eexists. split; [by apply (split_evenly_fixed_neg t n _ Ht H)|].
      replace t with (- - t) at 1 by lia.
      apply fair_split_opp, split_evenly_fair; [lia|done].
Qed.

(** The shipped [split_evenly] keeps the "evenly" half of its contract on
    every total, and keeps the sum exactly when the total is not negative or
    [n] divides twice the total: on any other refund it silently changes the
    amount. *)
Theorem split_evenly_conserves_iff (t n : Z) :
  1 <= n ->
  exists parts, split_evenly t n = Ok parts /\
    Z.of_nat (length parts) = n /\
    (forall x y, x ∈ parts -> y ∈ parts -> Z.abs (x - y) <= 1) /\
    (zsum parts = t <-> 0 <= t \/ (2 * t) mod n = 0).
Proof.
  intros Hn. pose proof (split_evenly_ok t n Hn) as H.
  eexists. split; [exact H|].
  pose proof (Z.mod_pos_bound (Z.abs t) n ltac:(lia)).
  split; [rewrite length_app, !length_replicate; lia|].
  split; [intros x y Hx%elem_of_split Hy%elem_of_split; lia|].
  rewrite (split_evenly_sum t n _ H).
  pose proof (Z.div_mod t n ltac:(lia)). pose proof (Z.mod_pos_bound t n ltac:(lia)).
  pose proof (Z.div_mod (Z.abs t) n ltac:(lia)).
  split.
  - intros E. destruct (Z.le_gt_cases 0 t) as [|Ht]; [by left|right].
    rewrite Z.abs_neq in * by lia.
    apply Z.mod_divide; [lia|]. exists (t / n - - t / n). nia.
  - intros [Ht|E]; [rewrite Z.abs_eq in *; lia|].
    destruct (Z.le_gt_cases 0 t) as [Ht|Ht]; [rewrite Z.abs_eq in *; lia|].
    rewrite Z.abs_neq in * by lia.
    apply Z.mod_divide in E as [k Hk]; [|lia].
    assert (n * (k - t / n + - t / n) = t mod n - - t mod n) by nia.
    assert (k - t / n + - t / n = 0) by nia. nia.
Qed.

Lemma split_evenly_conserves_iff_witness :
  1 <= 3 /\ exists parts, split_evenly (-1) 3 = Ok parts /\
    Z.of_nat (length parts) = 3 /\
    (forall x y, x ∈ parts -> y ∈ parts -> Z.abs (x - y) <= 1) /\
    (zsum parts = -1 <-> 0 <= -1 \/ (2 * -1) mod 3 = 0).
Proof. split; [lia|apply (split_evenly_conserves_iff (-1) 3); lia]. Defined.

(** The refund that loses a cent: [-1] split three ways adds up to [-2]. *)
Example refund_loses_a_cent :
  split_evenly (-1) 3 = Ok [0; -1; -1] /\ zsum [0; -1; -1] <> -1.
Proof. by vm_compute. Qed.
