(* ===== verification/Pagination.v ===== *)
(** * Keyset pagination: three cursors and the walk over the pages

    Models src/08-craft/lab/api/app/core/pagination.py.  [page] bounds on
    [created_at] alone, [page_inclusive] with [<=], [page_composite] on the
    whole sort key; [walk_pages] follows the cursors.  The two strict cursors
    are instances of one keyset cursor over an ordered key ([KeyOrder]), and
    the theorems about walks are proved once, against that interface. *)

From Stdlib Require Import ZArith Lia Sorting.Sorted.
From stdpp Require Import base option list numbers sorting sets.
From S2P Require Import Prelude.

Open Scope Z_scope.

(** ** Definitions *)

Record Row : Type := mkRow { created_at : Z; id : Z }.

#[export] Instance Row_eq_dec : EqDecision Row.
Proof. solve_decision. Defined.

Inductive page_error : Type :=
| ValueError
| RuntimeError (max_pages emitted inputs : nat).

Definition Cursor : Type := option Z.
Definition Composite : Type := option (Z * Z).

(** [out[-1]] for a list that is not empty. *)
Definition last_key {K} (key : Row -> K) (out : list Row) : option K :=
  key <$> last out.

Definition page (rows : list Row) (cursor : Cursor) (limit : Z)
  : res page_error (list Row * Cursor) :=
  if limit <? 1 then Err ValueError
  else
    let rows := match cursor with
                | Some c => List.filter (fun r => created_at r <? c) rows
                | None => rows
                end in
    let out := take (Z.to_nat limit) rows in
    let next_cursor :=
      if Z.of_nat (length out) =? limit then last_key created_at out else None in
    Ok (out, next_cursor).

Definition page_inclusive (rows : list Row) (cursor : Cursor) (limit : Z)
  : res page_error (list Row * Cursor) :=
  if limit <? 1 then Err ValueError
  else
    let rows := match cursor with
                | Some c => List.filter (fun r => created_at r <=? c) rows
                | None => rows
                end in
    let out := take (Z.to_nat limit) rows in
    let next_cursor :=
      if Z.of_nat (length out) =? limit then last_key created_at out else None in
    Ok (out, next_cursor).

(** Python's [<] on pairs. *)
Definition tuple_ltb (a b : Z * Z) : bool :=
  (a.1 <? b.1) || ((a.1 =? b.1) && (a.2 <? b.2)).

Definition row_key (r : Row) : Z * Z := (created_at r, id r).

Definition page_composite (rows : list Row) (before : Composite) (limit : Z)
  : res page_error (list Row * Composite) :=
  if limit <? 1 then Err ValueError
  else
    let rows := match before with
                | Some b => List.filter (fun r => tuple_ltb (row_key r) b) rows
                | None => rows
                end in
    let out := take (Z.to_nat limit) rows in
    let next_before :=
      if Z.of_nat (length out) =? limit then last_key row_key out else None in
    Ok (out, next_before).

(** The loop of [walk_pages]: [n] iterations of [range(max_pages)] are left. *)
Fixpoint walk_loop {C} (impl : list Row -> option C -> Z -> res page_error (list Row * option C))
    (rows : list Row) (limit : Z) (max_pages n : nat) (seen : list Row) (cursor : option C)
  : res page_error (list Row) :=
  match n with
  | O => Err (RuntimeError max_pages (length seen) (length rows))
  | S n' =>
      match impl rows cursor limit with
      | Err e => Err e
      | Ok (out, cursor') =>
          let seen' := seen ++ out in
          match cursor' with
          | None => Ok seen'
          | Some _ => walk_loop impl rows limit max_pages n' seen' cursor'
          end
      end
  end.

Definition walk_pages {C} (rows : list Row) (limit : Z)
    (impl : list Row -> option C -> Z -> res page_error (list Row * option C))
    (max_pages : nat) : res page_error (list Row) :=
  walk_loop impl rows limit max_pages max_pages [] None.

(** [sorted(rows, key=..., reverse=True)]: Python's sort is stable, and stays
    so under [reverse=True], so a row goes before the rows it ties with. *)
Fixpoint insert_desc (lt : Row -> Row -> bool) (x : Row) (l : list Row) : list Row :=
  match l with
  | [] => [x]
  | y :: l' => if lt x y then y :: insert_desc lt x l' else x :: l
  end.

Definition sort_desc (lt : Row -> Row -> bool) (rows : list Row) : list Row :=
  foldr (insert_desc lt) [] rows.

Definition sorted_desc (rows : list Row) : list Row :=
  sort_desc (fun a b => created_at a <? created_at b) rows.

Definition sorted_desc_composite (rows : list Row) : list Row :=
  sort_desc (fun a b => tuple_ltb (row_key a) (row_key b)) rows.

(** ** The interface: a strict total order on keys, and its keyset cursor *)

Class KeyOrder (K : Type) (ltb : K -> K -> bool) : Prop := {
  key_irrefl : forall a, ltb a a = false;
  key_trans : forall a b c, ltb a b = true -> ltb b c = true -> ltb a c = true;
  key_total : forall a b, ltb a b = false -> ltb b a = false -> a = b;
}.

#[export] Instance Z_KeyOrder : KeyOrder Z Z.ltb.
Proof. split; intros; try apply Z.ltb_irrefl; try apply Z.ltb_lt; to_props; lia. Qed.

Lemma tuple_ltb_spec (a b : Z * Z) :
  tuple_ltb a b = true <-> a.1 < b.1 \/ (a.1 = b.1 /\ a.2 < b.2).
Proof.
  unfold tuple_ltb. rewrite orb_true_iff, andb_true_iff, !Z.ltb_lt, Z.eqb_eq. done.
Qed.

#[export] Instance tuple_KeyOrder : KeyOrder (Z * Z) tuple_ltb.
Proof.
  split.
  - intros a. apply not_true_iff_false. rewrite tuple_ltb_spec. lia.
  - intros a b c. rewrite !tuple_ltb_spec. lia.
  - intros [a1 a2] [b1 b2] H1%not_true_iff_false H2%not_true_iff_false.
    rewrite tuple_ltb_spec in H1, H2. simpl in *. f_equal; lia.
Qed.

Section Keyset.
Context {K : Type} (ltb : K -> K -> bool) `{!KeyOrder K ltb} (key : Row -> K).

(** The rows a cursor leaves, and the page cut from them. *)
Definition after (rows : list Row) (c : option K) : list Row :=
  match c with
  | Some c => List.filter (fun r => ltb (key r) c) rows
  | None => rows
  end.

Definition keyset_page (rows : list Row) (c : option K) (limit : Z)
  : res page_error (list Row * option K) :=
  if limit <? 1 then Err ValueError
  else
    let out := take (Z.to_nat limit) (after rows c) in
    Ok (out, if Z.of_nat (length out) =? limit then last_key key out else None).

(** Newest first: no row is strictly before an earlier one. *)
Definition desc (rows : list Row) : Prop :=
  StronglySorted (fun a b => ltb (key a) (key b) = false) rows.
Definition strict_desc (rows : list Row) : Prop :=
  StronglySorted (fun a b => ltb (key b) (key a) = true) rows.

Lemma strict_desc_desc (rows : list Row) : strict_desc rows -> desc rows.
Proof.
  induction 1 as [|x l Hl IH Hx]; constructor; [done|].
  eapply Forall_impl; [exact Hx|]. simpl. intros y Hy.
  destruct (ltb (key x) (key y)) eqn:E; [|done].
  pose proof (key_trans _ _ _ E Hy) as C. by rewrite key_irrefl in C.
Qed.

Lemma filter_all_false (p : Row -> bool) (l : list Row) :
  Forall (fun r => p r = false) l -> List.filter p l = [].
Proof. induction 1 as [|x l Hx Hl IH]; simpl; [done|]. by rewrite Hx. Qed.

Lemma desc_app_inv (l1 l2 : list Row) :
  desc (l1 ++ l2) ->
  desc l2 /\ (forall x y, x ∈ l1 -> y ∈ l2 -> ltb (key x) (key y) = false).
Proof.
  induction l1 as [|z l1 IH]; simpl; intros H.
  - split; [done|]. intros x y Hx. by apply elem_of_nil in Hx.
  - apply StronglySorted_inv in H as [Hs Hf]. destruct (IH Hs) as [H1 H2].
    split; [done|]. intros x y [->|Hx]%elem_of_cons Hy; [|by apply H2].
    rewrite Forall_forall in Hf. apply Hf, elem_of_app. by right.
Qed.

Lemma after_desc (rows : list Row) (c : option K) : desc rows -> desc (after rows c).
Proof.
  destruct c as [c|]; simpl; [|done].
  induction 1 as [|r l Hs IH Hf]; simpl; [constructor|].
  destruct (ltb (key r) c); [|done]. constructor; [done|].
  rewrite Forall_forall in *. intros y Hy%list_elem_of_In%filter_In.
  apply Hf, list_elem_of_In. tauto.
Qed.

(** Following a cursor twice is following the later one. *)
Lemma after_next (rows : list Row) (c : option K) (l1 l2 : list Row) (x : Row) :
  desc rows -> after rows c = l1 ++ x :: l2 ->
  after rows (Some (key x)) = List.filter (fun r => ltb (key r) (key x)) l2.
Proof.
  intros Hd Ha.
  assert (E : after rows (Some (key x)) =
              List.filter (fun r => ltb (key r) (key x)) (after rows c)).
  { destruct c as [c|]; simpl; [|done].
    assert (Hxc : ltb (key x) c = true).
    { assert (Hin : x ∈ after rows (Some c)) by (rewrite Ha; set_solver).
      apply list_elem_of_In, filter_In in Hin. tauto. }
    clear Ha Hd. induction rows as [|r rows IH]; simpl; [done|].
    destruct (ltb (key r) c) eqn:E1; simpl.
    - destruct (ltb (key r) (key x)); [f_equal|]; apply IH.
    - destruct (ltb (key r) (key x)) eqn:E2; [|apply IH].
      by rewrite (key_trans _ _ _ E2 Hxc) in E1. }
  rewrite E, Ha, List.filter_app. simpl. rewrite key_irrefl.
  rewrite filter_all_false; [done|].
  pose proof (after_desc rows c Hd) as Hd'. rewrite Ha in Hd'.
  apply Forall_forall. intros y Hy.
  destruct (desc_app_inv _ _ Hd') as [_ H]. apply H; set_solver.
Qed.

(** One page: either the walk stops, or it goes on strictly after the last row
    of a full page. *)
Lemma keyset_page_full (rows : list Row) (c : option K) (limit : Z) :
  1 <= limit -> (Z.to_nat limit <= length (after rows c))%nat ->
  exists l x, after rows c = (l ++ [x]) ++ drop (Z.to_nat limit) (after rows c) /\
    length (l ++ [x]) = Z.to_nat limit /\
    keyset_page rows c limit = Ok (l ++ [x], Some (key x)).
Proof.
  intros Hl Hlen. unfold keyset_page. destruct (limit <? 1) eqn:E; to_props; [lia|].
  destruct (take (Z.to_nat limit) (after rows c)) as [|x l _] eqn:T using rev_ind.
  - apply (f_equal length) in T. rewrite length_take in T. simpl in T. lia.
  - exists l, x. rewrite <- T at 1 2. rewrite take_drop, length_take.
    split_ands; [done|lia|]. cbv zeta. unfold last_key. rewrite last_snoc. simpl.
    rewrite <- T, length_take, Nat.min_l by lia.
    destruct (_ =? _) eqn:E2; to_props; [done|lia].
Qed.

Lemma keyset_page_short (rows : list Row) (c : option K) (limit : Z) :
  1 <= limit -> (length (after rows c) < Z.to_nat limit)%nat ->
  keyset_page rows c limit = Ok (after rows c, None).
Proof.
  intros Hl Hlen. unfold keyset_page. destruct (limit <? 1) eqn:E; to_props; [lia|].
  rewrite take_ge by lia. destruct (_ =? _) eqn:E2; to_props; [lia|done].
Qed.

(** Every row the walk passes over ties with a row it delivers, it delivers a
    sublist of the rows, and it needs at most one page per [limit] rows. *)
Lemma walk_keyset (rows : list Row) (limit : Z) (m n : nat) :
  desc rows -> 1 <= limit ->
  forall c seen, Z.of_nat (length (after rows c)) < Z.of_nat n * limit ->
  exists out, walk_loop keyset_page rows limit m n seen c = Ok (seen ++ out) /\
    sublist out (after rows c) /\
    (forall r, r ∈ after rows c -> r ∈ out \/ exists r', r' ∈ out /\ key r' = key r) /\
    (strict_desc (after rows c) -> out = after rows c).
Proof.
  intros Hd Hl. induction n as [|n IH]; intros c seen Hlen; [lia|].
  simpl walk_loop.
  destruct (decide (Z.to_nat limit <= length (after rows c))%nat) as [Hf|Hs].
  - destruct (keyset_page_full rows c limit Hl Hf) as (l & x & Ha & Hll & ->).
    set (l2 := drop (Z.to_nat limit) (after rows c)) in *.
    assert (Ha' : after rows c = l ++ x :: l2) by (by rewrite Ha, <- app_assoc).
    pose proof (after_next rows c l l2 x Hd Ha') as Hn.
    assert (Hfl : (length (List.filter (fun r => ltb (key r) (key x)) l2) <= length l2)%nat)
      by apply List.filter_length_le.
    assert (Hl2 : (length l2 + Z.to_nat limit = length (after rows c))%nat).
    { unfold l2. rewrite length_drop. lia. }
    destruct (IH (Some (key x)) (seen ++ l ++ [x])) as (out & -> & Hsub & Hcov & Hst).
    { rewrite Hn. nia. }
    exists ((l ++ [x]) ++ out). split_ands.
    + by rewrite !app_assoc.
    + rewrite Ha. apply sublist_app; [done|]. etrans; [exact Hsub|].
      rewrite Hn. clear. induction l2 as [|y l2 IH]; simpl; [done|].
      destruct (ltb _ _); by constructor.
    + intros r Hr. rewrite Ha' in Hr.
      rewrite elem_of_app, elem_of_cons in Hr.
      destruct (ltb (key r) (key x)) eqn:E.
      * destruct Hr as [Hr|[->|Hr]]; [set_solver|by rewrite key_irrefl in E|].
        destruct (Hcov r) as [?|(r' & ? & ?)].
        { rewrite Hn. apply list_elem_of_In, filter_In. by rewrite <- list_elem_of_In. }
        { left. set_solver. }
        right. exists r'. set_solver.
      * destruct Hr as [Hr|[->|Hr]]; [set_solver|set_solver|].
        right. exists x. split; [set_solver|]. apply key_total; [|done].
        pose proof (after_desc rows c Hd) as Hda.
        rewrite Ha in Hda. destruct (desc_app_inv _ _ Hda) as [_ H]. apply H; set_solver.
    + intros Hstr. rewrite Ha in Hstr |- *. f_equal.
      assert (Hf2 : List.filter (fun r => ltb (key r) (key x)) l2 = l2).
      { apply filter_all_true. clear - Hstr. rewrite <- app_assoc in Hstr.
        induction l as [|y l IH]; simpl in Hstr; apply StronglySorted_inv in Hstr as [? ?];
          [done|by apply IH]. }
      rewrite Hn, Hf2 in Hst. apply Hst. clear - Hstr.
      induction (l ++ [x]) as [|y k IH]; simpl in Hstr; [done|].
      apply StronglySorted_inv in Hstr as [? ?]. by apply IH.
  - rewrite keyset_page_short by lia. exists (after rows c). split_ands; try done.
    intros r Hr. by left.
Qed.
End Keyset.

Lemma walk_loop_ext {C} (f g : list Row -> option C -> Z -> res page_error (list Row * option C))
    (rows : list Row) (limit : Z) (m n : nat) (seen : list Row) (c : option C) :
  (forall c, f rows c limit = g rows c limit) ->
  walk_loop f rows limit m n seen c = walk_loop g rows limit m n seen c.
Proof.
  intros H. revert seen c. induction n as [|n IH]; intros seen c; simpl; [done|].
  rewrite H. destruct (g rows c limit) as [[out [c'|]]|]; auto.
Qed.

Lemma page_keyset (rows : list Row) (c : Cursor) (limit : Z) :
  page rows c limit = keyset_page Z.ltb created_at rows c limit.
Proof. by destruct c. Qed.

Lemma page_composite_keyset (rows : list Row) (c : Composite) (limit : Z) :
  page_composite rows c limit = keyset_page tuple_ltb row_key rows c limit.
Proof. by destruct c. Qed.

(** ** Sorting *)

Section Sorting.
Context {K : Type} (ltb : K -> K -> bool) `{!KeyOrder K ltb} (key : Row -> K).
Let lt (a b : Row) : bool := ltb (key a) (key b).

Lemma insert_desc_perm (x : Row) (l : list Row) : insert_desc lt x l ≡ₚ x :: l.
Proof.
  induction l as [|y l IH]; simpl; [done|]. destruct (lt x y); [|done].
  rewrite IH. constructor.
Qed.

Lemma sort_desc_perm (l : list Row) : sort_desc lt l ≡ₚ l.
Proof. induction l as [|x l IH]; simpl; [done|]. by rewrite insert_desc_perm, IH. Qed.

Lemma insert_desc_desc (x : Row) (l : list Row) :
  desc ltb key l -> desc ltb key (insert_desc lt x l).
Proof.
  induction 1 as [|y l Hs IH Hf]; simpl; [repeat constructor|].
  destruct (lt x y) eqn:E; unfold lt in E.
  - constructor; [done|]. rewrite insert_desc_perm. constructor; [|done].
    destruct (ltb (key y) (key x)) eqn:E2; [|done].
    pose proof (key_trans _ _ _ E E2) as C. by rewrite key_irrefl in C.
  - constructor; [by constructor|]. constructor; [done|].
    eapply Forall_impl; [exact Hf|]. intros z Hz. simpl in *.
    destruct (ltb (key x) (key z)) eqn:E2; [|done].
    destruct (ltb (key y) (key x)) eqn:E3.
    + by rewrite (key_trans _ _ _ E3 E2) in Hz.
    + rewrite (key_total _ _ E E3) in E2. congruence.
Qed.

Lemma sort_desc_desc (l : list Row) : desc ltb key (sort_desc lt l).
Proof. induction l as [|x l IH]; simpl; [constructor|]. by apply insert_desc_desc. Qed.

(** Distinct keys make the order strict. *)
Lemma desc_nodup_strict (l : list Row) :
  desc ltb key l -> NoDup (key <$> l) -> strict_desc ltb key l.
Proof.
  induction 1 as [|x l Hs IH Hf]; simpl; [constructor|].
  intros [Hx Hn]%NoDup_cons. constructor; [by apply IH|].
  rewrite Forall_forall in *. intros y Hy.
  destruct (ltb (key y) (key x)) eqn:E; [done|]. exfalso. apply Hx.
  rewrite (key_total (key x) (key y)); [|by apply Hf|done].
  by apply list_elem_of_fmap_2.
Qed.
End Sorting.

(** ** Properties *)

(** C34: the composite cursor is exact.  For rows with distinct ids, sorted as
    the precondition asks, walking the pages yields every row exactly once, in
    order, whenever the page budget allows one page per [limit] rows (and one
    more); the default budget of the harness is [max_pages = 1000]. *)
Theorem walk_composite_exact (rows : list Row) (limit : Z) (max_pages : nat) :
  NoDup (id <$> rows) -> 1 <= limit ->
  Z.of_nat (length rows) < Z.of_nat max_pages * limit ->
  walk_pages (sorted_desc_composite rows) limit page_composite max_pages =
    Ok (sorted_desc_composite rows) /\
  sorted_desc_composite rows ≡ₚ rows.
Proof.
  intros Hid Hl Hlen. unfold sorted_desc_composite.
  set (l := sort_desc _ rows).
  assert (Hp : l ≡ₚ rows) by apply sort_desc_perm.
  assert (Hd : desc tuple_ltb row_key l) by apply (sort_desc_desc tuple_ltb row_key).
  split; [|done]. unfold walk_pages.
  rewrite (walk_loop_ext _ (keyset_page tuple_ltb row_key)) by (intros; apply page_composite_keyset).
  destruct (walk_keyset tuple_ltb row_key l limit max_pages max_pages Hd Hl None [])
    as (out & -> & _ & _ & Hex); [simpl; by rewrite Hp|].
  f_equal. apply Hex, (desc_nodup_strict tuple_ltb row_key); [done|].
  apply (NoDup_fmap_1 snd). rewrite <- list_fmap_compose. simpl.
  change (snd ∘ row_key) with id. by rewrite Hp.
Qed.

Lemma walk_composite_exact_witness :
  let rows := [mkRow 5 1; mkRow 7 2; mkRow 7 3] in
  NoDup (id <$> rows) /\ 1 <= 1 /\ Z.of_nat (length rows) < Z.of_nat 4 * 1 /\
  walk_pages (sorted_desc_composite rows) 1 page_composite 4 =
    Ok [mkRow 7 3; mkRow 7 2; mkRow 5 1].
Proof.
  intros rows.
  assert (H1 : NoDup (id <$> rows)) by (apply (bool_decide_unpack _); vm_compute; done).
  split; [done|]. split; [lia|]. split; [vm_compute; done|].
  exact (proj1 (walk_composite_exact rows 1 4 H1 ltac:(lia) ltac:(vm_compute; done))).
Defined.

(** the shipped cursor on [created_at] alone always terminates within the
    page budget and never repeats a row, and every row it skips ties with a
    row it delivers; so it is exact when the timestamps are distinct. *)
Theorem walk_page_skips_only_ties (rows : list Row) (limit : Z) (max_pages : nat) :
  1 <= limit -> Z.of_nat (length rows) < Z.of_nat max_pages * limit ->
  exists out, walk_pages (sorted_desc rows) limit page max_pages = Ok out /\
    sublist out (sorted_desc rows) /\
    (forall r, r ∈ rows -> r ∈ out \/ exists r', r' ∈ out /\ created_at r' = created_at r) /\
    (NoDup (created_at <$> rows) -> out = sorted_desc rows).
Proof.
  intros Hl Hlen. unfold sorted_desc. set (l := sort_desc _ rows).
  assert (Hp : l ≡ₚ rows) by apply sort_desc_perm.
  assert (Hd : desc Z.ltb created_at l) by apply (sort_desc_desc Z.ltb created_at).
  unfold walk_pages.
  rewrite (walk_loop_ext _ (keyset_page Z.ltb created_at)) by (intros; apply page_keyset).
  destruct (walk_keyset Z.ltb created_at l limit max_pages max_pages Hd Hl None [])
    as (out & -> & Hsub & Hcov & Hex); [simpl; by rewrite Hp|].
  exists out. split; [done|]. split; [done|]. split.
  - intros r Hr. apply Hcov. simpl. by rewrite Hp.
  - intros Hn. apply Hex, (desc_nodup_strict Z.ltb created_at); [done|]. simpl. by rewrite Hp.
Qed.

Lemma walk_page_skips_only_ties_witness :
  let rows := [mkRow 7 1; mkRow 7 2; mkRow 5 3] in
  walk_pages (sorted_desc rows) 1 page 4 = Ok [mkRow 7 1; mkRow 5 3] /\
  exists out, walk_pages (sorted_desc rows) 1 page 4 = Ok out /\
    sublist out (sorted_desc rows) /\
    (forall r, r ∈ rows -> r ∈ out \/ exists r', r' ∈ out /\ created_at r' = created_at r) /\
    (NoDup (created_at <$> rows) -> out = sorted_desc rows).
Proof.
  intros rows. split; [by vm_compute|].
  apply (walk_page_skips_only_ties rows 1 4); [lia|by vm_compute].
Defined.

(** the inclusive cursor serves its boundary page for ever.  When the first
    [limit] rows share a timestamp (always so for [limit = 1] and one row), the
    walk ends in [RuntimeError] for every page budget, having emitted [limit]
    rows per page. *)
Theorem walk_inclusive_never_ends (rows : list Row) (limit t : Z) (max_pages : nat) :
  desc Z.ltb created_at rows -> 1 <= limit -> limit <= Z.of_nat (length rows) ->
  Forall (fun r => created_at r = t) (take (Z.to_nat limit) rows) ->
  walk_pages rows limit page_inclusive max_pages =
    Err (RuntimeError max_pages (max_pages * Z.to_nat limit) (length rows)).
Proof.
  intros Hd Hl Hlen Ht.
  assert (Hkeep : List.filter (fun r => created_at r <=? t) rows = rows).
  { apply filter_all_true. destruct rows as [|r0 rows]; [by constructor|].
    rewrite Z2Nat.inj_le, Nat2Z.id in Hlen by lia.
    destruct (Z.to_nat limit) as [|k] eqn:Ek; [lia|]. simpl in Ht.
    apply Forall_cons in Ht as [H0 _]. apply StronglySorted_inv in Hd as [_ Hf].
    constructor; [apply Z.leb_le; lia|].
    eapply Forall_impl; [exact Hf|]. intros y Hy. simpl in Hy. apply Z.leb_le. to_props. lia. }
  assert (Hlast : last_key created_at (take (Z.to_nat limit) rows) = Some t).
  { unfold last_key. destruct (last (take (Z.to_nat limit) rows)) as [r|] eqn:E.
    - simpl. f_equal. rewrite Forall_forall in Ht. apply Ht.
      apply last_Some in E as [l' ->]. set_solver.
    - apply last_None in E. apply (f_equal length) in E.
      rewrite length_take in E. simpl in E. lia. }
  assert (Hpage : forall c, c = None \/ c = Some t ->
            page_inclusive rows c limit = Ok (take (Z.to_nat limit) rows, Some t)).
  { intros c Hc. unfold page_inclusive. destruct (limit <? 1) eqn:E; to_props; [lia|].
    assert (E2 : match c with
                 | Some c => List.filter (fun r => created_at r <=? c) rows
                 | None => rows end = rows) by (destruct Hc as [->| ->]; done).
    rewrite E2, Hlast, length_take, Nat.min_l by lia.
    destruct (_ =? _) eqn:E3; to_props; [done|lia]. }
  assert (G : forall n seen c, c = None \/ c = Some t ->
    walk_loop page_inclusive rows limit max_pages n seen c =
      Err (RuntimeError max_pages (length seen + n * Z.to_nat limit) (length rows))).
  { induction n as [|n IH]; intros seen c Hc; simpl.
    - by rewrite Nat.add_0_r.
    - rewrite (Hpage c Hc). rewrite IH by (by right). do 2 f_equal.
      rewrite length_app, length_take. lia. }
  unfold walk_pages. rewrite G by (by left). done.
Qed.

Lemma walk_inclusive_never_ends_witness :
  let rows := [mkRow 7 1; mkRow 7 2; mkRow 5 3] in
  walk_pages rows 2 page_inclusive 1000 = Err (RuntimeError 1000 2000 3).
Proof.
  intros rows. apply (walk_inclusive_never_ends rows 2 7 1000);
    [repeat constructor|lia|simpl; lia|repeat constructor].
Defined.
