(* ===== verification/AppErrors.v ===== *)
(** * The error taxonomy and its one translation to HTTP

    Models src/08-craft/lab/api/app/core/errors.py: the classes below
    [AppError], [as_body], and the handler [install_error_handlers] installs.
    Anything that is not an [AppError] has no handler and reaches the top of
    the stack: [app_error_handler] is only ever given an [app_error]. *)

From Stdlib Require Import ZArith Lia.
From stdpp Require Import base option list numbers strings pretty gmap.
From S2P Require Import Prelude PyFloat PyWorld.

Open Scope Z_scope.

(** ** Definitions *)

Inductive json : Type :=
| JStr (s : string)
| JInt (z : Z)
| JFloat (x : float).

(** The classes of the taxonomy.  [Unavailable] is the one with a [__init__] of
    its own. *)
Inductive app_class : Type := AppErrorC | NotFound | Conflict | Invalid | DeadlineExceeded | Shed.

Inductive app_error : Type :=
| Plain (c : app_class) (message : string) (detail : list (string * json))
| Unavailable (message : string) (retry_after : float).

(** Exceptions as the code tells them apart: the taxonomy, the built-in
    [TimeoutError], and everything else. *)
Inductive exn : Type :=
| App (e : app_error)
| TimeoutError
| Bug (name : string).

Definition status_code (e : app_error) : Z :=
  match e with
  | Plain AppErrorC _ _ => 500
  | Plain NotFound _ _ => 404
  | Plain Conflict _ _ => 409
  | Plain Invalid _ _ => 422
  | Plain DeadlineExceeded _ _ => 504
  | Plain Shed _ _ => 503
  | Unavailable _ _ => 503
  end.

Definition code (e : app_error) : string :=
  match e with
  | Plain AppErrorC _ _ => "app_error"
  | Plain NotFound _ _ => "not_found"
  | Plain Conflict _ _ => "conflict"
  | Plain Invalid _ _ => "invalid"
  | Plain DeadlineExceeded _ _ => "deadline_exceeded"
  | Plain Shed _ _ => "shed"
  | Unavailable _ _ => "unavailable"
  end.

Definition message (e : app_error) : string :=
  match e with Plain _ m _ => m | Unavailable m _ => m end.

Definition detail (e : app_error) : list (string * json) :=
  match e with
  | Plain _ _ d => d
  | Unavailable _ r => [("retry_after", JFloat r)]
  end.

(** [{"error": self.code, "message": self.message, **self.detail}]: a later
    key wins. *)
Definition as_body (e : app_error) : gmap string json :=
  foldl (fun m kv => <[kv.1 := kv.2]> m)
    (<["message" := JStr (message e)]> {["error" := JStr (code e)]})
    (detail e).

Record response : Type := mkResponse {
  r_status : Z;
  r_body : gmap string json;
  r_headers : gmap string string;
}.

(** [str(int(max(1, round(exc.retry_after))))]; [None] when [round] raises. *)
Definition retry_after_header (r : float) : option string :=
  n ← f_round r; Some (pretty (Z.to_N (Z.max 1 n))).

(** The body of [_app_error].  [None]: the handler itself raised. *)
Definition app_error_handler (e : app_error) : option response :=
  headers ← match e with
            | Unavailable _ r =>
                h ← retry_after_header r; Some {["Retry-After" := h]}
            | _ => Some ∅
            end;
  Some (mkResponse (status_code e) (as_body e) headers).

(** ** Lemmas *)

Lemma as_body_lookup (d : list (string * json)) (m : gmap string json) (k : string) :
  k ∉ d.*1 -> foldl (fun m kv => <[kv.1 := kv.2]> m) m d !! k = m !! k.
Proof.
  revert m. induction d as [|[k' v] d IH]; intros m Hk; simpl in *; [done|].
  apply not_elem_of_cons in Hk as [? ?].
  rewrite IH by done. by rewrite lookup_insert_ne.
Qed.

(** ** Properties *)

(** The taxonomy becomes HTTP in one place, totally: whenever the
    [retry_after] of an [Unavailable] is finite the handler answers with the
    class's status, a body that carries the class's code and the message
    (unless the raiser's own detail overrides those keys), and a [Retry-After]
    header exactly for [Unavailable], of at least one second. *)
Theorem app_error_handler_total (e : app_error) :
  (forall m r, e = Unavailable m r -> exists k, r = Fin k) ->
  exists resp, app_error_handler e = Some resp /\
    r_status resp = status_code e /\ 400 <= r_status resp < 600 /\
    ("error" ∉ (detail e).*1 -> r_body resp !! "error" = Some (JStr (code e))) /\
    ("message" ∉ (detail e).*1 -> r_body resp !! "message" = Some (JStr (message e))) /\
    (forall h, r_headers resp !! "Retry-After" = Some h <->
       exists m r n, e = Unavailable m r /\ f_round r = Some n /\
         h = pretty (Z.to_N (Z.max 1 n))).
Proof.
  intros Hfin.
  assert (Hs : 400 <= status_code e < 600) by (destruct e as [[] ? ?|? ?]; simpl; lia).
  assert (He : "error" ∉ (detail e).*1 -> as_body e !! "error" = Some (JStr (code e)))
    by (intros H; unfold as_body; rewrite as_body_lookup by done; by simplify_map_eq).
  assert (Hm : "message" ∉ (detail e).*1 -> as_body e !! "message" = Some (JStr (message e)))
    by (intros H; unfold as_body; rewrite as_body_lookup by done; by simplify_map_eq).
  destruct e as [c m d|m r].
  - eexists. split; [done|]. cbn [r_status r_body r_headers]. do 4 (split; [done|]).
    intros h. split; [by rewrite lookup_empty|]. by intros (? & ? & ? & ? & _).
  - destruct (Hfin m r eq_refl) as [k ->]. unfold app_error_handler, retry_after_header. simpl.
    eexists. split; [done|]. cbn [r_status r_body r_headers]. do 4 (split; [done|]).
    intros h. rewrite lookup_singleton_eq. split.
    + intros [= <-]. by do 3 eexists.
    + intros (m' & r' & n & [= <- <-] & Hn & ->). simpl in Hn. by simplify_eq.
Qed.

Lemma app_error_handler_total_witness :
  exists resp, app_error_handler (Unavailable "db down" (Fin (3 * unit_k))) = Some resp /\
    r_status resp = 503 /\
    r_body resp !! "error" = Some (JStr "unavailable").
Proof.
  destruct (app_error_handler_total (Unavailable "db down" (Fin (3 * unit_k))))
    as (resp & H & Hs & _ & He & _).
  - intros m r [= <- <-]. by eexists.
  - exists resp. split; [exact H|]. split; [exact Hs|]. apply He. simpl.
    apply not_elem_of_cons. split; [congruence|]. apply not_elem_of_nil.
Defined.
