(* ===== verification/Resilience.v ===== *)
(** * Deadline, retry budget, retries and the latency breaker

    Models src/08-craft/lab/api/app/core/resilience.py.  A reading of
    [time.monotonic()] is an argument named [now] of the pure operations, or
    comes from the [World] of the stateful ones.  [with_retries], [deadline]
    and [guard] wrap an arbitrary computation on a state [X] of their own. *)

From Stdlib Require Import ZArith Lia Sorting.Sorted.
From stdpp Require Import base option list numbers strings relations.
From S2P Require Import Prelude PyFloat PyWorld AppErrors.

Open Scope Z_scope.

(** ** The retry budget *)

Module RetryBudget.

Record t : Type := mk {
  pct : float;
  window_s : float;
  requests : list float;
  retries : list float;
}.

(** [__init__] with [__post_init__]. *)
Definition init (pct window_s : float) : t := mk pct window_s [] [].

(** [while q and q[0] < now - self.window_s: q.popleft()]. *)
Fixpoint drop_old (limit : float) (q : list float) : list float :=
  match q with
  | x :: q' => if (x <? limit)%F then drop_old limit q' else q
  | [] => []
  end.

Definition trim (now : float) (b : t) : t :=
  let limit := (now - window_s b)%F in
  mk (pct b) (window_s b) (drop_old limit (requests b)) (drop_old limit (retries b)).

Definition record_request (now : float) (b : t) : t :=
  let b := trim now b in
  mk (pct b) (window_s b) (requests b ++ [now]) (retries b).

(** [len(self._requests) * (self.pct / 100.0)]. *)
Definition allowed (b : t) : float :=
  (of_Z (Z.of_nat (length (requests b))) * fdivc (pct b) 100)%F.

Definition try_spend (now : float) (b : t) : bool * t :=
  if (pct b <=? Fin 0)%F then (false, b)
  else
    let b := trim now b in
    if (allowed b <? of_Z (Z.of_nat (length (retries b)) + 1))%F then (false, b)
    else (true, mk (pct b) (window_s b) (requests b) (retries b ++ [now])).

Record stats_t : Type := mkStats {
  st_requests : nat; st_retries : nat; st_retry_fraction_pct : float }.

Definition stats (now : float) (b : t) : stats_t * t :=
  let b := trim now b in
  let reqs := Z.of_nat (length (requests b)) in
  let frac :=
    match fdiv (of_Z 100 * of_Z (Z.of_nat (length (retries b))))%F (of_Z reqs) with
    | Some q => round2 q
    | None => Fin 0
    end in
  (mkStats (length (requests b)) (length (retries b)) frac, b).

End RetryBudget.

(** ** The deadline and the retries *)

(** [random.uniform(0, min(cap_s, base_s * (2 ** attempt)))]. *)
Definition full_jitter (attempt : Z) (base_s cap_s : float) (w : World) : float * World :=
  uniform (Fin 0) (fmin cap_s (base_s * of_Z (2 ^ attempt))%F) w.

Definition default_base_s : float := lit 5 100.
Definition default_cap_s : float := lit 2 1.

Section Retries.
Context {X A : Type}.

(** The state around the wrapped computation: the context variable
    [_deadline_at], the budget, the clocks, and the state [X] of the rest. *)
Record RState : Type := mkR {
  deadline_at : option float;
  budget : RetryBudget.t;
  world : World;
  ext : X;
}.

Definition set_world (w : World) (s : RState) : RState :=
  mkR (deadline_at s) (budget s) w (ext s).
Definition set_budget (b : RetryBudget.t) (s : RState) : RState :=
  mkR (deadline_at s) b (world s) (ext s).
Definition set_deadline (d : option float) (s : RState) : RState :=
  mkR d (budget s) (world s) (ext s).

Definition monotonic : ST RState exn float := fun s =>
  let '(t, w) := read_clock (world s) in (Ok t, set_world w s).

Definition remaining : ST RState exn (option float) := fun s =>
  match deadline_at s with
  | None => (Ok None, s)
  | Some at_ => let '(t, w) := read_clock (world s) in (Ok (Some (at_ - t)%F), set_world w s)
  end.

(** The budget operations with the clock reading each one makes. *)
Definition record_request : ST RState exn unit :=
  now ← monotonic; modify (fun s => set_budget (RetryBudget.record_request now (budget s)) s).

Definition spend_at (now : float) : ST RState exn bool := fun s =>
  let '(ok, b) := RetryBudget.try_spend now (budget s) in (Ok ok, set_budget b s).

Definition try_spend : ST RState exn bool := fun s =>
  if (RetryBudget.pct (budget s) <=? Fin 0)%F then (Ok false, s)
  else (monotonic ≫= spend_at) s.

Definition draw_jitter (attempt : Z) : ST RState exn float := fun s =>
  let '(d, w) := full_jitter attempt default_base_s default_cap_s (world s) in
  (Ok d, set_world w s).

(** [async with deadline(budget_s): body].  [asyncio.timeout] shows as a
    [TimeoutError] raised by [body]. *)
Definition deadline (budget_s : option float) (body : ST RState exn A) : ST RState exn A :=
  match budget_s with
  | None => body
  | Some b =>
      s ← get;
      now ← monotonic;
      _ ← modify (set_deadline (Some (now + b)%F));
      finally
        (try_with body (fun e =>
           match e with
           | TimeoutError =>
               raise (App (Plain DeadlineExceeded
                 ("request exceeded its " +:+ fmt0 (b * of_Z 1000)%F +:+ "ms budget") []))
           | e => raise e
           end))
        (set_deadline (deadline_at s))
  end.

(** The wrapped call [await fn()], acting on the rest of the state. *)
Context (fn : ST X exn A).

Definition call_fn : ST RState exn A := fun s =>
  let '(r, x) := fn (ext s) in (r, mkR (deadline_at s) (budget s) (world s) x).

(** The [except Unavailable] arm for the exception [exc] of attempt [attempt]:
    it raises, or sleeps and lets the loop go on. *)
Definition on_unavailable (exc : exn) (attempt attempts : Z) : ST RState exn unit :=
  if attempts <=? attempt then raise exc
  else
    ok ← try_spend;
    if negb ok then raise exc
    else
      delay ← draw_jitter attempt;
      left ← remaining;
      match left with
      | Some l =>
          if (l <=? delay)%F
          then raise (App (Plain DeadlineExceeded "no budget left to retry" []))
          else mret tt
      | None => mret tt
      end.

(** [for attempt in range(attempts + 1)] with [n] iterations left.  After the
    loop [raise last] is only reached with no iteration at all, where [last]
    is [None] and [raise None] is a [TypeError]. *)
Fixpoint retry_loop (n : nat) (attempt attempts : Z) : ST RState exn A :=
  match n with
  | O => raise (Bug "TypeError")
  | S n' =>
      try_with call_fn (fun e =>
        match e with
        | App (Unavailable _ _) =>
            _ ← on_unavailable e attempt attempts;
            retry_loop n' (attempt + 1) attempts
        | _ => raise e
        end)
  end.

Definition with_retries (attempts : Z) : ST RState exn A :=
  _ ← record_request; retry_loop (Z.to_nat (attempts + 1)) 0 attempts.

(** [fn_runs rs x x']: successive calls of [fn] from [x] to [x'] that returned
    or raised [rs], in order. *)
Inductive fn_runs : list (res exn A) -> X -> X -> Prop :=
| runs_nil x : fn_runs [] x x
| runs_cons r rs x y z : fn x = (r, y) -> fn_runs rs y z -> fn_runs (r :: rs) x z.

End Retries.
Arguments RState : clear implicits.

(** ** The latency breaker *)

Module LatencyBreaker.

Record t : Type := mk {
  threshold_ms : option Z;
  window : nat;
  min_samples : nat;
  open_for_s : float;
  samples : list float;
  opened_at : option float;
  trips : Z;
}.

Definition init (threshold_ms : option Z) (window min_samples : nat) (open_for_s : float) : t :=
  mk threshold_ms window min_samples open_for_s [] None 0.

(** [deque(maxlen=window).append]. *)
Definition push (n : nat) (x : float) (q : list float) : list float :=
  let q := q ++ [x] in drop (length q - n) q.

(** The property [is_open]; it resets the breaker once [open_for_s] is over. *)
Definition is_open (now : float) (b : t) : bool * t :=
  match opened_at b with
  | None => (false, b)
  | Some at_ =>
      if (open_for_s b <=? now - at_)%F
      then (false, mk (threshold_ms b) (window b) (min_samples b) (open_for_s b) [] None (trips b))
      else (true, b)
  end.

(** [ordered[min(len(ordered) - 1, int(0.95 * len(ordered)))]]. *)
Definition p95 (samples : list float) : option float :=
  i ← f_int (lit 95 100 * of_Z (Z.of_nat (length samples)))%F;
  sorted_floats samples !! Z.to_nat (Z.min (Z.of_nat (length samples) - 1) i).

Definition observe (duration_s now : float) (b : t) : t :=
  match threshold_ms b with
  | None => b
  | Some thr =>
      let q := push (window b) (duration_s * of_Z 1000)%F (samples b) in
      let b' := mk (threshold_ms b) (window b) (min_samples b) (open_for_s b) q
                   (opened_at b) (trips b) in
      if (Z.of_nat (length q) <? Z.of_nat (min_samples b)) || bool_decide (is_Some (opened_at b))
      then b'
      else
        match p95 q with
        | Some p =>
            if (of_Z thr <? p)%F
            then mk (threshold_ms b) (window b) (min_samples b) (open_for_s b) q
                    (Some now) (trips b + 1)
            else b'
        | None => b'
        end
  end.

Record stats_t : Type := mkStats { st_open : bool; st_trips : Z; st_samples : nat }.
Definition stats (b : t) : stats_t :=
  mkStats (bool_decide (is_Some (opened_at b))) (trips b) (length (samples b)).

(** [async with guard(): body].  [t0] is the reading [is_open] makes, [t1] and
    [t2] bracket the body and [t3] is the reading of a trip; the breaker is
    observed whether the body returned or raised. *)
Definition guard {X A} (t0 t1 t2 t3 : float) (body : ST X exn A) : ST (t * X) exn A :=
  fun '(b, x) =>
    let '(open, b) := is_open t0 b in
    if open
    then (Err (App (Unavailable "circuit open on latency" (open_for_s b))), (b, x))
    else let '(r, x') := body x in (r, (observe (t2 - t1)%F t3 b, x')).

End LatencyBreaker.

(** ** Lemmas *)

Section RetryLemmas.
Context {X A : Type} (fn : ST X exn A).
Implicit Types s : RState X.

(** Nothing but [call_fn] touches the wrapped state, and nothing but
    [deadline] touches the context variable. *)
Definition keeps {B} (m : ST (RState X) exn B) : Prop :=
  forall s, ext (m s).2 = ext s /\ deadline_at (m s).2 = deadline_at s.

Lemma keeps_ret {B} (b : B) : keeps (mret b).
Proof. done. Qed.

Lemma keeps_raise {B} (e : exn) : keeps (raise e : ST (RState X) exn B).
Proof. done. Qed.

Lemma keeps_bind {B C} (m : ST (RState X) exn B) (k : B -> ST (RState X) exn C) :
  keeps m -> (forall b, keeps (k b)) -> keeps (m ≫= k).
Proof.
  intros Hm Hk s. unfold mbind, ST_bind. specialize (Hm s).
  destruct (m s) as [[b|e] s'] eqn:E; simpl in *; [|done].
  destruct Hm, (Hk b s'). split; congruence.
Qed.

Lemma keeps_if {B} (c : bool) (m1 m2 : ST (RState X) exn B) :
  keeps m1 -> keeps m2 -> keeps (if c then m1 else m2).
Proof. by destruct c. Qed.

Lemma keeps_monotonic : keeps monotonic.
Proof. done. Qed.

Lemma keeps_record_request : keeps record_request.
Proof. done. Qed.

Lemma keeps_try_spend : keeps try_spend.
Proof.
  intros s. unfold try_spend. destruct (_ <=? _)%F; [done|].
  unfold mbind, ST_bind, monotonic, spend_at. simpl.
  by destruct (RetryBudget.try_spend _ _).
Qed.

Lemma keeps_draw_jitter (n : Z) : keeps (draw_jitter n).
Proof. intros s. unfold draw_jitter. by destruct (full_jitter _ _ _ _). Qed.

Lemma keeps_remaining : keeps remaining.
Proof. by intros [[a|] b w x]. Qed.

#[local] Hint Resolve keeps_ret keeps_raise keeps_bind keeps_if keeps_record_request
  keeps_try_spend keeps_draw_jitter keeps_remaining : py.

Lemma keeps_on_unavailable (e : exn) (n m : Z) : keeps (on_unavailable e n m).
Proof.
  unfold on_unavailable. apply keeps_if; [auto with py|].
  apply keeps_bind; [auto with py|]. intros ok. apply keeps_if; [auto with py|].
  apply keeps_bind; [auto with py|]. intros d. apply keeps_bind; [auto with py|].
  intros [l|]; auto with py.
Qed.

Definition gave_up : exn := App (Plain DeadlineExceeded "no budget left to retry" []).

Lemma try_spend_ok s : exists ok s', try_spend s = (Ok ok, s').
Proof.
  unfold try_spend. destruct (_ <=? _)%F; [by do 2 eexists|].
  unfold mbind, ST_bind, monotonic, spend_at. simpl.
  destruct (RetryBudget.try_spend _ _). by do 2 eexists.
Qed.

Lemma draw_jitter_ok (n : Z) s : exists d s', draw_jitter n s = (Ok d, s').
Proof. unfold draw_jitter. destruct (full_jitter _ _ _ _) as [d w]. by do 2 eexists. Qed.

(** What the [except] arm can raise. *)
Lemma on_unavailable_raises (exc e : exn) (n m : Z) s s' :
  on_unavailable exc n m s = (Err e, s') -> e = exc \/ e = gave_up.
Proof.
  unfold on_unavailable. destruct (m <=? n); [intros [= ->]; by left|].
  unfold mbind, ST_bind. destruct (try_spend_ok s) as (ok & s1 & ->).
  destruct ok; cbn [negb]; [|intros [= ->]; by left].
  destruct (draw_jitter_ok n s1) as (d & s2 & ->).
  unfold remaining. destruct (deadline_at s2) as [a|]; simpl; [|done].
  destruct (_ <=? _)%F; intros [= <- <-]. by right.
Qed.

(** No retry is affordable when the budget is off. *)
Lemma on_unavailable_off (exc : exn) (n m : Z) s :
  (RetryBudget.pct (budget s) <=? Fin 0)%F = true ->
  on_unavailable exc n m s = (Err exc, s).
Proof.
  intros H. unfold on_unavailable, try_spend, mbind, ST_bind.
  destruct (m <=? n); [done|]. by rewrite H.
Qed.

Lemma record_request_pct s :
  RetryBudget.pct (budget (record_request s).2) = RetryBudget.pct (budget s).
Proof. done. Qed.

Definition is_unavailable (r : res exn A) : Prop :=
  exists m t, r = Err (App (Unavailable m t)).

(** The runs of the loop: between one and [n] calls, all but the last raised
    [Unavailable], and the outcome is the last one's, or [gave_up] after an
    [Unavailable]. *)
Lemma retry_loop_runs (n : nat) (attempt attempts : Z) s r s' :
  (0 < n)%nat -> attempt + Z.of_nat n = attempts + 1 ->
  retry_loop fn n attempt attempts s = (r, s') ->
  exists rs last, fn_runs fn (rs ++ [last]) (ext s) (ext s') /\
    (length rs < n)%nat /\ Forall is_unavailable rs /\
    (r = last \/ (is_unavailable last /\ r = Err gave_up)) /\
    deadline_at s' = deadline_at s /\
    ((RetryBudget.pct (budget s) <=? Fin 0)%F = true -> rs = [] /\ r = last).
Proof.
  revert attempt s. induction n as [|n IH]; intros attempt s Hn Ha; [lia|].
  simpl. unfold try_with. unfold call_fn at 1. destruct (fn (ext s)) as [r0 x] eqn:Ef.
  set (s1 := mkR (deadline_at s) (budget s) (world s) x).
  assert (Hone : fn_runs fn [r0] (ext s) x) by (eapply runs_cons; [done|constructor]).
  assert (Hdone : (r0, s1) = (r, s') -> exists rs last,
    fn_runs fn (rs ++ [last]) (ext s) (ext s') /\
    (length rs < S n)%nat /\ Forall is_unavailable rs /\
    (r = last \/ (is_unavailable last /\ r = Err gave_up)) /\
    deadline_at s' = deadline_at s /\
    ((RetryBudget.pct (budget s) <=? Fin 0)%F = true -> rs = [] /\ r = last)).
  { intros [= <- <-]. exists [], r0. split_and!; auto; simpl; lia. }
  destruct r0 as [a|[e| |b]]; simpl; try exact Hdone.
  destruct e as [c m d|m t]; try exact Hdone.
  intros H. unfold mbind, ST_bind in H.
  destruct (on_unavailable _ attempt attempts s1) as [[[]|e] s2] eqn:Eo.
  - destruct n as [|n].
    { exfalso. unfold on_unavailable in Eo.
      destruct (attempts <=? attempt) eqn:E; to_props; [done|lia]. }
    destruct (keeps_on_unavailable (App (Unavailable m t)) attempt attempts s1) as [Hx Hd].
    rewrite Eo in Hx, Hd. simpl in Hx, Hd.
    destruct (IH (attempt + 1) s2 ltac:(lia) ltac:(lia) H)
      as (rs & last & Hr & Hl & Hu & Hlast & Hd' & _).
    exists (Err (App (Unavailable m t)) :: rs), last. split_and!; simpl; try done.
    + eapply runs_cons; [done|]. by rewrite <- Hx.
    + lia.
    + constructor; [by do 2 eexists|done].
    + congruence.
    + intros Hoff. rewrite on_unavailable_off in Eo by done. done.
  - simplify_eq.
    destruct (keeps_on_unavailable (App (Unavailable m t)) attempt attempts s1) as [Hx Hd].
    rewrite Eo in Hx, Hd. simpl in Hx, Hd.
    exists [], (Err (App (Unavailable m t))). split_and!; simpl; try done; try lia.
    + by rewrite Hx.
    + destruct (on_unavailable_raises _ _ _ _ _ _ Eo) as [->| ->]; [by left|].
      right. split; [by do 2 eexists|done].
    + intros Hoff. rewrite on_unavailable_off in Eo by done. by simplify_eq.
Qed.
End RetryLemmas.

(** ** Properties of the retries and of the deadline *)

(** [with_retries] calls [fn] at least once and at most [attempts + 1] times,
    retries only [Unavailable], and ends with the outcome of the last call or,
    after an [Unavailable], with [DeadlineExceeded]; it leaves the deadline
    alone, and with a retry budget of zero percent it never retries. *)
Theorem with_retries_calls {X A} (fn : ST X exn A) (attempts : Z) (s s' : RState X) (r : res exn A) :
  0 <= attempts -> with_retries fn attempts s = (r, s') ->
  exists rs last, fn_runs fn (rs ++ [last]) (ext s) (ext s') /\
    Z.of_nat (length (rs ++ [last])) <= attempts + 1 /\
    Forall is_unavailable rs /\
    (r = last \/ (is_unavailable last /\ r = Err gave_up)) /\
    deadline_at s' = deadline_at s /\
    ((RetryBudget.pct (budget s) <=? Fin 0)%F = true -> rs = [] /\ r = last).
Proof.
  intros Ha H. unfold with_retries, mbind, ST_bind in H.
  destruct (record_request s) as [[u|e] s1] eqn:E; [|by unfold record_request in E].
  destruct (keeps_record_request s) as [Hx Hd]. rewrite E in Hx, Hd. simpl in Hx, Hd.
  assert (Hp : RetryBudget.pct (budget s1) = RetryBudget.pct (budget s)).
  { rewrite <- (record_request_pct s). by rewrite E. }
  destruct (retry_loop_runs fn (Z.to_nat (attempts + 1)) 0 attempts s1 r s' ltac:(lia)
              ltac:(lia) H) as (rs & last & Hr & Hl & Hu & Hlast & Hd' & Hoff).
  exists rs, last. rewrite <- Hx, <- Hp, length_app. simpl. split_and!; try done; try lia.
  congruence.
Qed.

(** A call that is unavailable twice and then answers, with attempts to spare. *)
Definition flaky : ST nat exn Z := fun n =>
  match n with
  | O => (Ok 42, O)
  | S n' => (Err (App (Unavailable "down" (of_Z 1))), n')
  end.

Definition calm_world : World := mkWorld (fun n => of_Z (Z.of_nat n)) 0 (fun _ => lit 1 2) 0.

Lemma with_retries_calls_witness :
  let s := mkR None (RetryBudget.init (of_Z 300) (of_Z 100)) calm_world 2%nat in
  (with_retries flaky 3 s).1 = Ok 42 /\
  exists rs last, fn_runs flaky (rs ++ [last]) 2%nat (ext (with_retries flaky 3 s).2) /\
    Z.of_nat (length (rs ++ [last])) <= 3 + 1 /\
    Forall is_unavailable rs /\
    ((with_retries flaky 3 s).1 = last \/
      (is_unavailable last /\ (with_retries flaky 3 s).1 = Err gave_up)) /\
    deadline_at (with_retries flaky 3 s).2 = deadline_at s /\
    ((RetryBudget.pct (budget s) <=? Fin 0)%F = true ->
       rs = [] /\ (with_retries flaky 3 s).1 = last).
Proof.
  intros s. split; [by vm_compute|].
  apply (with_retries_calls flaky 3 s); [lia|]. by destruct (with_retries flaky 3 s).
Defined.

(** [deadline] restores the context variable on every exit, shows its body the
    deadline [now + budget], turns exactly [TimeoutError] into
    [DeadlineExceeded], and passes every other outcome through. *)
Theorem deadline_scoped {X A} (b : float) (body : ST (RState X) exn A) (s : RState X) :
  let inner := set_deadline (Some ((read_clock (world s)).1 + b)%F)
                 (set_world (read_clock (world s)).2 s) in
  let '(r, s') := deadline (Some b) body s in
  deadline_at s' = deadline_at s /\ ext s' = ext (body inner).2 /\
  r <> Err TimeoutError /\
  ((body inner).1 <> Err TimeoutError -> r = (body inner).1) /\
  ((body inner).1 = Err TimeoutError ->
     exists m, r = Err (App (Plain DeadlineExceeded m []))).
Proof.
  intros inner. unfold deadline, mbind, ST_bind, get, monotonic, modify, finally, try_with. simpl.
  change (body _) with (body inner). destruct (body inner) as [[a|[e| |n]] s1]; simpl;
    split_and!; try done; by eexists.
Qed.

(** ** Properties of the budget *)

Section BudgetLemmas.
Import RetryBudget.

Definition ascending (q : list float) : Prop := StronglySorted (fun a b => fleb a b = true) q.

(** The entries a window that starts at [limit] keeps. *)
Definition in_window (limit : float) (q : list float) : list float :=
  List.filter (fun x => negb (fltb x limit)) q.

Lemma drop_old_window (limit : float) (q : list float) :
  ascending q -> drop_old limit q = in_window limit q.
Proof.
  induction 1 as [|x q Hs IH Hf]; simpl; [done|].
  destruct (fltb x limit) eqn:E; simpl; [done|]. f_equal.
  clear Hs IH. induction Hf as [|y q Hy Hf IH]; simpl; [done|].
  destruct (fltb y limit) eqn:E2; simpl; [|by f_equal].
  exfalso. destruct x, y, limit; rewrite ?fleb_Fin in Hy; simpl in *; try done; to_props; lia.
Qed.

Lemma ascending_snoc (q : list float) (x : float) :
  ascending q -> Forall (fun y => fleb y x = true) q -> ascending (q ++ [x]).
Proof.
  induction 1 as [|y q Hs IH Hf]; simpl; intros Hx; [repeat constructor|].
  apply Forall_cons in Hx as [Hy Hx]. constructor; [by apply IH|].
  apply Forall_app. by repeat constructor.
Qed.

Lemma ascending_in_window (limit : float) (q : list float) :
  ascending q -> ascending (in_window limit q).
Proof.
  induction 1 as [|x q Hs IH Hf]; simpl; [constructor|].
  destruct (negb _); [|done]. constructor; [done|].
  rewrite Forall_forall in *. intros y Hy%list_elem_of_In%filter_In.
  apply Hf, list_elem_of_In. tauto.
Qed.

Lemma Forall_in_window (P : float -> Prop) (limit : float) (q : list float) :
  Forall P q -> Forall P (in_window limit q).
Proof.
  rewrite !Forall_forall. intros H x Hx%list_elem_of_In%filter_In. apply H, list_elem_of_In. tauto.
Qed.

(** Both queues are in order and end no later than [now]. *)
Definition ordered (b : t) (now : float) : Prop :=
  (ascending (requests b) /\ Forall (fun y => fleb y now = true) (requests b)) /\
  (ascending (retries b) /\ Forall (fun y => fleb y now = true) (retries b)).

Lemma ordered_later (b : t) (now later : float) :
  fleb now later = true -> ordered b now -> ordered b later.
Proof.
  intros H [[? F1] [? F2]].
  split; (split; [done|]); [eapply Forall_impl; [exact F1|]|eapply Forall_impl; [exact F2|]];
    intros x Hx; simpl in *; by eapply fleb_trans.
Qed.

Lemma trim_window (b : t) (now : float) :
  ordered b now ->
  trim now b = mk (pct b) (window_s b)
    (in_window (now - window_s b)%F (requests b)) (in_window (now - window_s b)%F (retries b)).
Proof.
  intros [[H1 _] [H2 _]]. unfold trim. by rewrite !drop_old_window by done.
Qed.

Lemma trim_ordered (b : t) (now : float) : ordered b now -> ordered (trim now b) now.
Proof.
  intros H. rewrite trim_window by done. destruct H as [[? ?] [? ?]].
  split; simpl; (split; [by apply ascending_in_window|by apply Forall_in_window]).
Qed.

(** The life of a budget: requests are recorded and retries spent at the
    readings of a clock that does not go back. *)
Inductive budget_step : t * float -> t * float -> Prop :=
| step_record b last now :
    fleb last now = true -> budget_step (b, last) (record_request now b, now)
| step_spend b last now :
    fleb last now = true -> budget_step (b, last) (snd (try_spend now b), now).

Lemma snoc_ordered (q : list float) (now : float) :
  is_nan now = false ->
  ascending q /\ Forall (fun y => fleb y now = true) q ->
  ascending (q ++ [now]) /\ Forall (fun y => fleb y now = true) (q ++ [now]).
Proof.
  intros Hn [? ?]. split; [by apply ascending_snoc|].
  apply Forall_app. split; [done|]. repeat constructor. by apply fleb_refl.
Qed.

Lemma budget_step_inv (c c' : t * float) (p w : float) :
  budget_step c c' ->
  ordered c.1 c.2 /\ pct c.1 = p /\ window_s c.1 = w ->
  ordered c'.1 c'.2 /\ pct c'.1 = p /\ window_s c'.1 = w.
Proof.
  intros [b last now Hle|b last now Hle] (Ho & Hp & Hw); simpl in *;
    pose proof (ordered_later _ _ _ Hle Ho) as Ho';
    pose proof (trim_ordered _ _ Ho') as [Hr1 Hr2];
    pose proof (fleb_nan_r _ _ Hle) as Hn.
  - split; [|done]. split; [|done]. by apply snoc_ordered.
  - unfold try_spend. destruct (pct b <=? Fin 0)%F; [by split_and!|].
    destruct (allowed _ <? _)%F; simpl.
    + split; [by split|done].
    + split; [|done]. split; [done|]. by apply snoc_ordered.
Qed.

Lemma budget_reach_inv (c c' : t * float) (p w : float) :
  rtc budget_step c c' ->
  ordered c.1 c.2 /\ pct c.1 = p /\ window_s c.1 = w ->
  ordered c'.1 c'.2 /\ pct c'.1 = p /\ window_s c'.1 = w.
Proof. induction 1; eauto using budget_step_inv. Qed.

(** In every reachable state a retry is granted exactly when, counting only the
    last [window_s] seconds, [pct] percent of the requests is not less than the
    retries including this one; a granted retry is recorded, a refused one is
    not. *)
Theorem retry_budget_window (p : Z) (w t0 last now : float) (b : t) :
  rtc budget_step (init (Fin p) w, t0) (b, last) -> fleb last now = true ->
  let limit := (now - w)%F in
  let reqs := in_window limit (requests b) in
  let spent := in_window limit (retries b) in
  let '(ok, b') := try_spend now b in
  (ok = true <->
     0 < p /\
     fltb (of_Z (Z.of_nat (length reqs)) * fdivc (Fin p) 100)%F
          (of_Z (Z.of_nat (length spent) + 1)) = false) /\
  (ok = true -> requests b' = reqs /\ retries b' = spent ++ [now]) /\
  (ok = false -> retries b' = spent \/ b' = b).
Proof.
  intros Hreach Hle limit reqs spent.
  assert (Hinit : ordered (init (Fin p) w) t0) by (split; split; constructor).
  destruct (budget_reach_inv _ _ (Fin p) w Hreach) as (Ho & Hp & Hw); [done|].
  simpl in Ho, Hp, Hw. pose proof (ordered_later _ _ _ Hle Ho) as Ho'.
  unfold try_spend. rewrite Hp, fleb_Fin.
  destruct (p <=? 0) eqn:E; to_props; [split; [split; [done|lia]|naive_solver]|].
  rewrite trim_window, Hw, Hp by done. fold limit reqs spent.
  unfold allowed. cbn [requests retries pct].
  destruct (fltb _ _) eqn:E2; naive_solver.
Qed.

Lemma retry_budget_window_witness :
  let b := record_request (of_Z 1) (record_request (of_Z 0) (init (of_Z 50) (of_Z 10))) in
  rtc budget_step (init (Fin (50 * unit_k)) (of_Z 10), of_Z 0) (b, of_Z 1) /\
  (try_spend (of_Z 2) b).1 = true /\
  (try_spend (of_Z 2) (try_spend (of_Z 2) b).2).1 = false /\
  let '(ok, b') := try_spend (of_Z 2) b in
  ok = true -> retries b' = [of_Z 2].
Proof.
  intros b.
  assert (H : rtc budget_step (init (Fin (50 * unit_k)) (of_Z 10), of_Z 0) (b, of_Z 1)).
  { unfold b. rewrite (of_Z_small 50) by lia.
    eapply rtc_l; [apply (step_record _ _ (of_Z 0)); by vm_compute|].
    eapply rtc_l; [apply (step_record _ _ (of_Z 1)); by vm_compute|]. apply rtc_refl. }
  split; [done|]. split; [by vm_compute|]. split; [by vm_compute|].
  pose proof (retry_budget_window (50 * unit_k) (of_Z 10) (of_Z 0) (of_Z 1) (of_Z 2) b H
                ltac:(by vm_compute)) as T.
  cbv zeta in T. destruct (try_spend (of_Z 2) b) as [ok b'] eqn:E.
  intros Hok. destruct T as (_ & T & _). destruct (T Hok) as [_ ->].
  by vm_compute.
Defined.
End BudgetLemmas.

(** ** Properties of the breaker *)

Section BreakerLemmas.
Import LatencyBreaker.

Lemma push_length (n : nat) (x : float) (q : list float) :
  length (push n x q) = Nat.min n (S (length q)).
Proof. unfold push. rewrite length_drop, length_app. simpl. lia. Qed.

Lemma p95_in (q : list float) (p : float) : p95 q = Some p -> p ∈ q.
Proof.
  unfold p95. intros (i & _ & H)%bind_Some.
  apply list_elem_of_lookup_2 in H. by rewrite sorted_floats_perm in H.
Qed.

(** The life of a breaker: its property is read and durations are observed. *)
Inductive breaker_step : t -> t -> Prop :=
| step_is_open b now : breaker_step b (snd (is_open now b))
| step_observe b d now : breaker_step b (observe d now b).

Definition breaker_ok (thr : option Z) (win : nat) (b : t) : Prop :=
  threshold_ms b = thr /\ window b = win /\
  (length (samples b) <= win)%nat /\ 0 <= trips b /\
  (is_Some (opened_at b) -> is_Some thr /\ 0 < trips b).

Lemma breaker_step_ok (thr : option Z) (win : nat) (b b' : t) :
  breaker_step b b' -> breaker_ok thr win b -> breaker_ok thr win b'.
Proof.
  unfold breaker_ok. intros [b0 now|b0 d now] (Ht & Hw & Hl & Hn & Ho).
  - unfold is_open. destruct (opened_at b0) eqn:E; [|simpl; rewrite ?E; split_and!; naive_solver].
    destruct (_ <=? _)%F; simpl.
    + split_and!; try done; try lia; by intros [? [=]].
    + rewrite ?E. split_and!; naive_solver.
  - unfold observe. destruct (threshold_ms b0) as [z|] eqn:E;
      [|by rewrite E].
    assert (Hp : (length (push (window b0) (d * of_Z 1000)%F (samples b0)) <= win)%nat)
      by (rewrite push_length; lia).
    destruct (_ || _); [simpl; naive_solver|].
    destruct (p95 _) as [p|]; [|simpl; naive_solver].
    destruct (of_Z z <? p)%F; simpl; [|naive_solver].
    split_and!; try done; try lia. intros _. split; [|lia].
    rewrite <- Ht. by eexists.
Qed.

(** The only way a closed breaker opens: a threshold is set, the window holds
    at least [min_samples] durations, and its p95 exceeds the threshold. *)
Lemma observe_opens (b : t) (d now : float) :
  opened_at b = None -> is_Some (opened_at (observe d now b)) ->
  let q := push (window b) (d * of_Z 1000)%F (samples b) in
  exists thr p, threshold_ms b = Some thr /\ (min_samples b <= length q)%nat /\
    p95 q = Some p /\ fltb (of_Z thr) p = true /\
    observe d now b = mk (threshold_ms b) (window b) (min_samples b) (open_for_s b) q
                         (Some now) (trips b + 1).
Proof.
  intros Hc Ho q. unfold observe in *. fold q in Ho |- *. clearbody q. rewrite Hc in *.
  destruct (threshold_ms b) as [thr|] eqn:E; [|by rewrite Hc in Ho; destruct Ho].
  destruct (Z.of_nat (length q) <? Z.of_nat (min_samples b)) eqn:E1; simpl in *;
    [by destruct Ho|]. to_props.
  destruct (p95 q) as [p|] eqn:E2; [|by destruct Ho].
  destruct (of_Z thr <? p)%F eqn:E3; [|by destruct Ho].
  exists thr, p. split_and!; first [reflexivity|assumption|lia].
Qed.

(** What [guard] does to a body, on both branches: an open breaker raises
    [Unavailable] with the configured [retry_after] and does not run it; a
    closed one runs it once, passes its outcome through and observes it. *)
Theorem guard_spec {X A} (t0 t1 t2 t3 : float) (body : ST X exn A) (b : t) (x : X) :
  let '(open, b0) := is_open t0 b in
  let '(r, (b', x')) := guard t0 t1 t2 t3 body (b, x) in
  if open
  then r = Err (App (Unavailable "circuit open on latency" (open_for_s b))) /\ x' = x /\ b' = b
  else (r, x') = body x /\ b' = observe (t2 - t1)%F t3 b0.
Proof.
  unfold guard. destruct (is_open t0 b) as [[] b0] eqn:E.
  - assert (b0 = b) as ->; [|done].
    unfold is_open in E. destruct (opened_at b); [|done]. destruct (_ <=? _)%F; by simplify_eq.
  - by destruct (body x) as [r x'].
Qed.

(** Every reachable breaker keeps at most [window] samples, and opens only with
    a threshold set, at least [min_samples] samples and a sample slower than
    the threshold. *)
Theorem breaker_opens_only_on_latency (thr : option Z) (win ms : nat) (ofs d now : float) (b : t) :
  rtc breaker_step (init thr win ms ofs) b ->
  (length (samples b) <= win)%nat /\
  (is_Some (opened_at b) -> is_Some thr /\ 0 < trips b) /\
  (opened_at b = None -> is_Some (opened_at (observe d now b)) ->
     exists z p, thr = Some z /\ p ∈ samples (observe d now b) /\ fltb (of_Z z) p = true /\
       (min_samples b <= length (samples (observe d now b)))%nat /\
       trips (observe d now b) = trips b + 1).
Proof.
  intros Hr.
  assert (Hok : breaker_ok thr win b).
  { assert (Hinit : breaker_ok thr win (init thr win ms ofs))
      by (split_and!; simpl; try done; try lia; by intros [? [=]]).
    revert Hinit. induction Hr; eauto using breaker_step_ok. }
  destruct Hok as (Ht & Hw & Hl & _ & Ho). split; [done|]. split; [done|].
  intros Hc Hop. destruct (observe_opens b d now Hc Hop) as (z & p & Hz & Hm & Hp & Hlt & ->).
  exists z, p. split_and!; simpl; [congruence|by apply p95_in|done|done|done].
Qed.

Lemma breaker_opens_only_on_latency_witness :
  let b := observe (of_Z 2) (of_Z 5) (init (Some 100) 50 2 (of_Z 5)) in
  rtc breaker_step (init (Some 100) 50 2 (of_Z 5)) b /\
  opened_at b = None /\ is_Some (opened_at (observe (of_Z 2) (of_Z 6) b)) /\
  exists z p, Some 100 = Some z /\ p ∈ samples (observe (of_Z 2) (of_Z 6) b) /\
    fltb (of_Z z) p = true /\
    (min_samples b <= length (samples (observe (of_Z 2) (of_Z 6) b)))%nat /\
    trips (observe (of_Z 2) (of_Z 6) b) = trips b + 1.
Proof.
  intros b.
  assert (Hr : rtc breaker_step (init (Some 100) 50 2 (of_Z 5)) b)
    by (eapply rtc_l; [apply step_observe|apply rtc_refl]).
  assert (Hc : opened_at b = None) by by vm_compute.
  assert (Ho : is_Some (opened_at (observe (of_Z 2) (of_Z 6) b)))
    by (vm_compute; by eexists).
  split; [done|]. split; [done|]. split; [done|].
  exact (proj2 (proj2 (breaker_opens_only_on_latency (Some 100) 50 2 (of_Z 5)
                         (of_Z 2) (of_Z 6) b Hr)) Hc Ho).
Defined.

(** The calls of a list of durations, each guarded at its own readings. *)
Fixpoint admitted (b : t) (calls : list (float * float * float)) : list bool * t :=
  match calls with
  | [] => ([], b)
  | (t0, d, t3) :: calls =>
      let '(open, b) := is_open t0 b in
      if open then let '(l, b) := admitted b calls in (false :: l, b)
      else let '(l, b) := admitted (observe d t3 b) calls in (true :: l, b)
  end.

Lemma closed_admits (b : t) (calls : list (float * float * float)) :
  opened_at b = None -> (length (samples b) + length calls < min_samples b)%nat ->
  (admitted b calls).1 = replicate (length calls) true.
Proof.
  revert b. induction calls as [|[[t0 d] t3] calls IH]; intros b Hc Hl; [done|].
  simpl in *. unfold is_open. rewrite Hc.
  assert (Hn : opened_at (observe d t3 b) = None /\
    (length (samples (observe d t3 b)) <= S (length (samples b)))%nat /\
    min_samples (observe d t3 b) = min_samples b).
  { unfold observe. destruct (threshold_ms b) as [z|]; [|split_and!; auto].
    pose proof (push_length (window b) (d * of_Z 1000)%F (samples b)) as Hp.
    destruct (Z.of_nat _ <? Z.of_nat _) eqn:E; to_props; simpl; [|lia].
    split_and!; auto; lia. }
  destruct Hn as (H1 & H2 & H3).
  specialize (IH (observe d t3 b) H1 ltac:(lia)).
  destruct (admitted (observe d t3 b) calls) as [l b']. simpl in *. by rewrite IH.
Qed.

(** Once an open breaker's [open_for_s] is over, the next [min_samples - 1]
    calls are all let through, however slow they are: the half-open state
    admits a whole batch and not one probe. *)
Theorem half_open_admits_batch (b : t) (a t0 : float) (calls : list (float * float * float)) :
  opened_at b = Some a -> fleb (open_for_s b) (t0 - a)%F = true ->
  (length calls < min_samples b)%nat ->
  is_open t0 b = (false, snd (is_open t0 b)) /\
  (admitted (snd (is_open t0 b)) calls).1 = replicate (length calls) true.
Proof.
  intros Ha He Hl. unfold is_open. rewrite Ha, He. simpl. split; [done|].
  by apply closed_admits.
Qed.

Lemma half_open_admits_batch_witness :
  let b := mk (Some 100) 50 20 (of_Z 5) [] (Some (of_Z 10)) 1 in
  let slow := replicate 19 (of_Z 15, of_Z 60, of_Z 75) in
  fst (is_open (of_Z 14) b) = true /\
  (admitted (snd (is_open (of_Z 15) b)) slow).1 = replicate 19 true.
Proof.
  intros b slow. split; [by vm_compute|].
  apply (half_open_admits_batch b (of_Z 10) (of_Z 15) slow); [done|by vm_compute|].
  simpl. lia.
Defined.
End BreakerLemmas.
