(* ===== verification/LabConfig.v ===== *)
(** * Failure lab: the runtime-mutable configuration

    Models src/05-failure/lab/app/config.py: the coercions, the table of
    fields, and the [Config] object with its lock (every operation below is one
    critical section).  The environment and a patch are ordered dictionaries,
    here lists of pairs with distinct keys. *)

From Stdlib Require Import ZArith Lia.
From stdpp Require Import base option list numbers strings gmap.
From S2P Require Import Prelude PyFloat PyText.

Open Scope Z_scope.

(** ** Values and coercions *)

(** A coerced value; [CNone] is an unset optional. *)
Inductive cval : Type :=
| CNone
| CInt (z : Z)
| CFloat (x : float)
| CStr (s : string)
| CBool (b : bool).

#[export] Instance cval_eq_dec : EqDecision cval.
Proof. solve_decision. Defined.

(** Python's [==] on two of them: a [nan] differs from itself. *)
Definition cval_eqb (a b : cval) : bool :=
  match a, b with
  | CFloat NaN, CFloat NaN => false
  | _, _ => bool_decide (a = b)
  end.

Inductive ValueError : Type :=
| BadNumber (text : string)
| BadChoice (allowed : list string) (got : string).

Inductive coercion : Type :=
| KInt
| KOptInt
| KFloat
| KStr
| KBool
| KChoice (allowed : list string).

Definition of_option {A} (e : ValueError) (o : option A) : res ValueError A :=
  match o with Some a => Ok a | None => Err e end.

Definition res_map {A B} (f : A -> B) (r : res ValueError A) : res ValueError B :=
  match r with Ok a => Ok (f a) | Err e => Err e end.

Definition _int (v : pyval) : res ValueError Z :=
  of_option (BadNumber (py_str v)) (parse_int (strip (py_str v))).

Definition _opt_int (v : pyval) : res ValueError (option Z) :=
  match v with
  | VNone => Ok None
  | _ =>
      let s := strip (py_str v) in
      if bool_decide (s = "") || bool_decide (lower s ∈ ["none"; "null"; "unset"])
      then Ok None
      else res_map Some (of_option (BadNumber s) (parse_int s))
  end.

Definition _float (v : pyval) : res ValueError float :=
  of_option (BadNumber (py_str v)) (parse_float (strip (py_str v))).

Definition _str (v : pyval) : string := py_str v.

Definition _bool (v : pyval) : bool :=
  match v with
  | VBool b => b
  | _ => bool_decide (lower (strip (py_str v)) ∈ ["1"; "true"; "yes"; "on"])
  end.

Definition _choice (allowed : list string) (v : pyval) : res ValueError string :=
  let s := strip (py_str v) in
  if bool_decide (s ∈ allowed) then Ok s else Err (BadChoice allowed s).

Definition coerce (k : coercion) (v : pyval) : res ValueError cval :=
  match k with
  | KInt => res_map CInt (_int v)
  | KOptInt => res_map (fun o => match o with Some z => CInt z | None => CNone end) (_opt_int v)
  | KFloat => res_map CFloat (_float v)
  | KStr => Ok (CStr (_str v))
  | KBool => Ok (CBool (_bool v))
  | KChoice allowed => res_map CStr (_choice allowed v)
  end.

(** ** The fields *)

Definition CONTRACT_FIELDS : list (string * (coercion * cval)) := [
  ("ROLE", (KChoice ["app"; "gateway"; "service_b"; "service_c"; "backend"], CStr "app"));
  ("SERVICE_MS", (KInt, CInt 40));
  ("POOL_SIZE", (KInt, CInt 5));
  ("MAX_OVERFLOW", (KInt, CInt 10));
  ("POOL_TIMEOUT_S", (KFloat, CFloat (of_Z 30)));
  ("STATEMENT_TIMEOUT_MS", (KOptInt, CNone));
  ("CLIENT_TIMEOUT_MS", (KInt, CInt 500));
  ("DEADLINE_HEADER", (KStr, CStr "X-Request-Deadline"));
  ("DEADLINE_SLACK_MS", (KInt, CInt 20));
  ("PROPAGATE_DEADLINE", (KBool, CBool false));
  ("RETRY_ATTEMPTS", (KInt, CInt 3));
  ("RETRY_BASE_MS", (KInt, CInt 50));
  ("RETRY_JITTER", (KChoice ["none"; "full"], CStr "none"));
  ("RETRY_BUDGET_PCT", (KFloat, CFloat (Fin 0)));
  ("SHED_MODE", (KChoice ["none"; "static"; "priority"; "adaptive"], CStr "none"));
  ("SHED_LIMIT", (KOptInt, CNone));
  ("SHED_WAIT_MS", (KInt, CInt 50));
  ("CACHE_TTL_S", (KInt, CInt 300));
  ("IDEMPOTENCY_MODE", (KChoice ["naive"; "correct"], CStr "correct"));
  ("UVICORN_BACKLOG", (KInt, CInt 2048));
  ("UVICORN_LIMIT_CONCURRENCY", (KOptInt, CNone))].

Definition EXTRA_FIELDS : list (string * (coercion * cval)) := [
  ("DOWNSTREAM_URL", (KStr, CStr ""));
  ("BACKEND_HOST", (KStr, CStr "backend"));
  ("BACKEND_PORT", (KInt, CInt 8000));
  ("LATENCY_DIST", (KChoice ["fixed"; "lognormal"; "bimodal"], CStr "fixed"));
  ("LATENCY_P50_MS", (KInt, CInt 10));
  ("LATENCY_TAIL_RATIO", (KFloat, CFloat (of_Z 20)));
  ("BIMODAL_SLOW_PCT", (KFloat, CFloat (of_Z 1)));
  ("HEDGE", (KBool, CBool false));
  ("HEDGE_AFTER_MS", (KOptInt, CNone));
  ("HEDGE_BUDGET_PCT", (KFloat, CFloat (of_Z 5)));
  ("DATABASE_URL", (KStr, CStr ""));
  ("PGHOST", (KStr, CStr "postgres"));
  ("PGPORT", (KInt, CInt 5432));
  ("PGUSER", (KStr, CStr "app"));
  ("PGPASSWORD", (KStr, CStr "app"));
  ("PGDATABASE", (KStr, CStr "failure_lab"));
  ("REDIS_URL", (KStr, CStr "redis://redis:6379/0"));
  ("BULKHEAD", (KBool, CBool false));
  ("REPORT_POOL_SIZE", (KInt, CInt 3));
  ("REPORT_SERVICE_MS", (KInt, CInt 2000));
  ("CACHE_KEYS", (KInt, CInt 500));
  ("IDEMPOTENCY_TTL_S", (KInt, CInt 60))].

(** [{**CONTRACT_FIELDS, **EXTRA_FIELDS}]; the names are distinct. *)
Definition FIELDS : list (string * (coercion * cval)) := CONTRACT_FIELDS ++ EXTRA_FIELDS.

(** Looking a key up in a dictionary written as a list of pairs. *)
Fixpoint assoc {V} (k : string) (d : list (string * V)) : option V :=
  match d with
  | [] => None
  | (k', v) :: d' => if bool_decide (k = k') then Some v else assoc k d'
  end.

(** ** The object *)

Abbreviation values := (gmap string cval).

(** [__init__]: the environment, or the default when a name is unset or empty. *)
Fixpoint init_fields (environ : list (string * string)) (fs : list (string * (coercion * cval)))
    (acc : values) : res ValueError values :=
  match fs with
  | [] => Ok acc
  | (name, (k, default)) :: fs' =>
      match assoc name environ with
      | None | Some EmptyString => init_fields environ fs' (<[name := default]> acc)
      | Some raw =>
          match coerce k (VStr raw) with
          | Ok v => init_fields environ fs' (<[name := v]> acc)
          | Err e => Err e
          end
      end
  end.

Definition init (environ : list (string * string)) : res ValueError values :=
  init_fields environ FIELDS ∅.

(** [get] raises [KeyError] ([None]) for a name that is not a field. *)
Definition get (name : string) (c : values) : option cval := c !! name.

(** [snapshot] copies the dictionary. *)
Definition snapshot (c : values) : values := c.

(** [default if value is None else coerce(value)]. *)
Definition stage_one (f : coercion * cval) (value : pyval) : res ValueError cval :=
  match value with VNone => Ok f.2 | v => coerce f.1 v end.

(** The staging loop of [apply]: unknown keys are skipped, a JSON [null] stages
    the default, anything else is coerced; nothing is written yet. *)
Fixpoint stage (patch : list (string * pyval)) : res ValueError (list (string * cval)) :=
  match patch with
  | [] => Ok []
  | (key, value) :: patch' =>
      match assoc key FIELDS with
      | None => stage patch'
      | Some f =>
          match stage_one f value with
          | Err e => Err e
          | Ok c => res_map (cons (key, c)) (stage patch')
          end
      end
  end.

(** The loop under the lock: record what changed, and write. *)
Fixpoint write_staged (staged : list (string * cval)) : ST values ValueError (list (string * cval)) :=
  match staged with
  | [] => mret []
  | (key, coerced) :: staged' => fun c =>
      let changed := match c !! key with
                     | Some old => negb (cval_eqb old coerced)
                     | None => true
                     end in
      (applied ← write_staged staged';
       mret (if changed then (key, coerced) :: applied else applied)) (<[key := coerced]> c)
  end.

Definition apply (patch : list (string * pyval))
  : ST values ValueError (list (string * cval) * list string) := fun c =>
  let unknown := filter (fun k => assoc k FIELDS = None) patch.*1 in
  match stage patch with
  | Err e => (Err e, c)
  | Ok staged => (applied ← write_staged staged; mret (applied, unknown)) c
  end.

(** ** What a well-formed configuration is *)

Definition has_type (k : coercion) (v : cval) : Prop :=
  match k, v with
  | KInt, CInt _ => True
  | KOptInt, (CInt _ | CNone) => True
  | KFloat, CFloat _ => True
  | KStr, CStr _ => True
  | KBool, CBool _ => True
  | KChoice allowed, CStr s => s ∈ allowed
  | _, _ => False
  end.

(** Every field has a value of its type, and there is nothing else. *)
Definition well_typed (c : values) : Prop :=
  forall name, match assoc name FIELDS with
               | Some (k, _) => exists v, c !! name = Some v /\ has_type k v
               | None => c !! name = None
               end.

(** ** Lemmas *)

Lemma coerce_type (k : coercion) (v : pyval) (c : cval) : coerce k v = Ok c -> has_type k c.
Proof.
  destruct k; simpl; unfold _int, _opt_int, _float, _choice, of_option, res_map; intros H;
    repeat case_match; simplify_eq; simpl; try done.
  by case_bool_decide.
Qed.

Lemma coerce_int (z : Z) : coerce KInt (VInt z) = Ok (CInt z).
Proof. simpl. unfold _int. simpl. by rewrite strip_str_Z, parse_int_str. Qed.

Lemma assoc_Some_in {V} (k : string) (v : V) (d : list (string * V)) :
  assoc k d = Some v -> (k, v) ∈ d.
Proof.
  induction d as [|[k' v'] d IH]; simpl; [done|].
  case_bool_decide; intros H'; [simplify_eq; left|right; auto].
Qed.

Lemma assoc_None {V} (k : string) (d : list (string * V)) : assoc k d = None <-> k ∉ d.*1.
Proof.
  induction d as [|[k' v'] d IH]; simpl; [set_solver|].
  case_bool_decide; subst; rewrite elem_of_cons; [naive_solver|]. rewrite IH. naive_solver.
Qed.

Lemma assoc_in {V} (k : string) (v : V) (d : list (string * V)) :
  NoDup d.*1 -> (k, v) ∈ d -> assoc k d = Some v.
Proof.
  induction d as [|[k' v'] d IH]; simpl; [set_solver|].
  intros [Hk Hn]%NoDup_cons [?|Hin]%elem_of_cons; simplify_eq.
  - by case_bool_decide.
  - case_bool_decide as E; [|by apply IH]. subst. exfalso. apply Hk.
    by apply (list_elem_of_fmap_2 fst) in Hin.
Qed.

Lemma fields_nodup : NoDup FIELDS.*1.
Proof. apply (bool_decide_unpack _). by vm_compute. Qed.

Lemma defaults_typed (name : string) (k : coercion) (d : cval) :
  assoc name FIELDS = Some (k, d) -> has_type k d.
Proof.
  intros H%assoc_Some_in. revert name k d H.
  assert (H : Forall (fun f => has_type f.2.1 f.2.2) FIELDS)
    by (unfold FIELDS, CONTRACT_FIELDS, EXTRA_FIELDS; repeat constructor; simpl; set_solver).
  intros name k d Hin. rewrite Forall_forall in H. apply (H _ Hin).
Qed.

#[local] Opaque FIELDS.

Lemma stage_one_type (f : coercion * cval) (v : pyval) (c : cval) :
  has_type f.1 f.2 -> stage_one f v = Ok c -> has_type f.1 c.
Proof. destruct v; simpl; intros Hd H; simplify_eq; try done; by apply coerce_type in H. Qed.

(** ** Starting up *)

Lemma init_fields_spec (environ : list (string * string)) (fs : list (string * (coercion * cval)))
    (acc c : values) :
  NoDup fs.*1 -> (forall name k d, (name, (k, d)) ∈ fs -> has_type k d) ->
  init_fields environ fs acc = Ok c ->
  forall name, match assoc name fs with
               | Some (k, _) => exists v, c !! name = Some v /\ has_type k v
               | None => c !! name = acc !! name
               end.
Proof.
  revert acc. induction fs as [|[n [k d]] fs IH]; intros acc Hn Ht H name; simpl in *.
  { by simplify_eq. }
  apply NoDup_cons in Hn as [Hn Hnd].
  assert (Hgo : forall v, has_type k v -> init_fields environ fs (<[n:=v]> acc) = Ok c ->
    match (if bool_decide (name = n) then Some (k, d) else assoc name fs) with
    | Some (k, _) => exists v, c !! name = Some v /\ has_type k v
    | None => c !! name = acc !! name
    end).
  { intros v Hv Hc. specialize (IH _ Hnd ltac:(set_solver) Hc name).
    case_bool_decide as E.
    - subst n. rewrite (proj2 (assoc_None name fs) Hn) in IH. exists v.
      by rewrite IH, lookup_insert_eq.
    - destruct (assoc name fs) as [[??]|]; [done|]. by rewrite IH, lookup_insert_ne. }
  assert (Hd : has_type k d) by (eapply Ht; left).
  destruct (assoc n environ) as [[|ch raw]|]; try (by apply (Hgo d)).
  destruct (coerce k (VStr (String ch raw))) as [v|] eqn:E; [|done].
  apply (Hgo v); [by apply coerce_type in E|done].
Qed.

Lemma init_well_typed (environ : list (string * string)) (c : values) :
  init environ = Ok c -> well_typed c.
Proof.
  unfold init. intros H name. pose proof (init_fields_spec environ FIELDS ∅ c fields_nodup) as S.
  specialize (S ltac:(intros n k d Hin; eapply defaults_typed; by apply assoc_in; [apply fields_nodup|])
                H name).
  destruct (assoc name FIELDS) as [[??]|]; [done|]. by rewrite S, lookup_empty.
Qed.

(** ** Applying a patch *)

Lemma stage_spec (patch : list (string * pyval)) (staged : list (string * cval)) :
  stage patch = Ok staged ->
  staged.*1 = filter (fun k => assoc k FIELDS <> None) patch.*1 /\
  (forall k c, (k, c) ∈ staged ->
     exists f v, (k, v) ∈ patch /\ assoc k FIELDS = Some f /\ stage_one f v = Ok c).
Proof.
  revert staged. induction patch as [|[k v] patch IH]; intros staged H; simpl in *.
  { simplify_eq. split; [done|]. set_solver. }
  destruct (assoc k FIELDS) as [f|] eqn:Ef.
  - destruct (stage_one f v) as [c|] eqn:Ec; [|done].
    destruct (stage patch) as [st|] eqn:Es; [|done]. simpl in H. simplify_eq.
    destruct (IH st eq_refl) as [Hk Hv]. split.
    + rewrite filter_cons, decide_True by (by rewrite Ef). simpl. f_equal. exact Hk.
    + intros k' c' [?|Hin]%elem_of_cons; simplify_eq.
      * exists f, v. set_solver.
      * destruct (Hv _ _ Hin) as (f' & v' & ? & ? & ?). exists f', v'. set_solver.
  - destruct (IH staged H) as [Hk Hv]. split.
    + rewrite filter_cons, decide_False by (rewrite Ef; naive_solver). done.
    + intros k' c' Hin. destruct (Hv _ _ Hin) as (f' & v' & ? & ? & ?). exists f', v'. set_solver.
Qed.

Lemma stage_error (patch : list (string * pyval)) (e : ValueError) :
  stage patch = Err e ->
  exists k v f, (k, v) ∈ patch /\ assoc k FIELDS = Some f /\ stage_one f v = Err e.
Proof.
  induction patch as [|[k v] patch IH]; simpl; [done|].
  destruct (assoc k FIELDS) as [f|] eqn:Ef.
  - destruct (stage_one f v) as [c|] eqn:Ec.
    + destruct (stage patch) as [st|] eqn:Es; simpl; [done|]. intros H.
      destruct (IH H) as (k' & v' & f' & ? & ? & ?). exists k', v', f'. set_solver.
    + intros [= <-]. exists k, v, f. set_solver.
  - intros H. destruct (IH H) as (k' & v' & f' & ? & ? & ?). exists k', v', f'. set_solver.
Qed.

(** The write loop, for staged keys that are distinct. *)
Definition changes (c : values) (staged : list (string * cval)) : list (string * cval) :=
  List.filter (fun kv => match c !! kv.1 with
                         | Some old => negb (cval_eqb old kv.2)
                         | None => true end) staged.

Lemma write_staged_spec (staged : list (string * cval)) (c : values) :
  NoDup staged.*1 ->
  exists c', write_staged staged c = (Ok (changes c staged), c') /\
    forall k, c' !! k = match assoc k staged with Some v => Some v | None => c !! k end.
Proof.
  revert c. induction staged as [|[k v] staged IH]; intros c Hn; simpl.
  { by exists c. }
  apply NoDup_cons in Hn as [Hk Hn].
  destruct (IH (<[k:=v]> c) Hn) as (c' & Hw & Hl).
  unfold mbind, ST_bind. rewrite Hw. exists c'. split.
  - unfold mret, ST_ret. do 2 f_equal. simpl.
    assert (E : changes (<[k:=v]> c) staged = changes c staged).
    { unfold changes. apply List.filter_ext_in. intros [k' v'] Hin%list_elem_of_In. simpl.
      rewrite lookup_insert_ne; [done|]. intros ->. apply Hk.
      by apply (list_elem_of_fmap_2 fst) in Hin. }
    rewrite E. by destruct (match c !! k with Some old => _ | None => _ end).
  - intros k'. rewrite Hl. case_bool_decide as E; [subst k'|].
    + rewrite (proj2 (assoc_None k staged) Hk). by rewrite lookup_insert_eq.
    + destruct (assoc k' staged); [done|]. by rewrite lookup_insert_ne.
Qed.

(** The value a patch stages for a name. *)
Definition patched (patch : list (string * pyval)) (name : string) : option (res ValueError cval) :=
  f ← assoc name FIELDS; v ← assoc name patch; Some (stage_one f v).

Lemma assoc_staged (patch : list (string * pyval)) (staged : list (string * cval)) (name : string) :
  NoDup patch.*1 -> stage patch = Ok staged ->
  match patched patch name with
  | Some r => exists v, r = Ok v /\ assoc name staged = Some v
  | None => assoc name staged = None
  end.
Proof.
  intros Hn Hs. destruct (stage_spec patch staged Hs) as [Hk Hv]. unfold patched.
  destruct (assoc name FIELDS) as [f|] eqn:Ef; simpl.
  - destruct (assoc name patch) as [v|] eqn:Ev; simpl.
    + assert (Hin : name ∈ staged.*1).
      { rewrite Hk, list_elem_of_filter, Ef. split; [done|].
        apply assoc_Some_in in Ev. by apply (list_elem_of_fmap_2 fst) in Ev. }
      destruct (assoc name staged) as [c|] eqn:Ec; [|by apply assoc_None in Ec].
      exists c. split; [|done]. apply assoc_Some_in in Ec.
      destruct (Hv _ _ Ec) as (f' & v' & Hin' & Hf' & Hc). apply assoc_in in Hin'; [|done].
      congruence.
    + apply assoc_None. rewrite Hk, list_elem_of_filter. intros [_ H].
      by apply assoc_None in Ev.
  - apply assoc_None. rewrite Hk, list_elem_of_filter. naive_solver.
Qed.

Lemma stage_nodup (patch : list (string * pyval)) (staged : list (string * cval)) :
  NoDup patch.*1 -> stage patch = Ok staged -> NoDup staged.*1.
Proof.
  intros Hn Hs. destruct (stage_spec patch staged Hs) as [-> _]. by apply NoDup_filter.
Qed.

(** The whole of [apply] on a patch with distinct keys. *)
Lemma apply_run (patch : list (string * pyval)) (c : values) :
  NoDup patch.*1 ->
  match stage patch with
  | Err e => apply patch c = (Err e, c)
  | Ok staged => exists c',
      apply patch c =
        (Ok (changes c staged, filter (fun k => assoc k FIELDS = None) patch.*1), c') /\
      forall k, c' !! k = match assoc k staged with Some v => Some v | None => c !! k end
  end.
Proof.
  intros Hn. unfold apply. destruct (stage patch) as [staged|e] eqn:Es; [|done].
  destruct (write_staged_spec staged c (stage_nodup patch staged Hn Es)) as (c' & Hw & Hl).
  exists c'. unfold mbind, ST_bind. by rewrite Hw.
Qed.

Lemma apply_well_typed (patch : list (string * pyval)) (c : values) :
  NoDup patch.*1 -> well_typed c -> well_typed (apply patch c).2.
Proof.
  intros Hn Hc. pose proof (apply_run patch c Hn) as H.
  destruct (stage patch) as [staged|e] eqn:Es; [|by rewrite H].
  destruct H as (c' & -> & Hl). intros name. simpl. specialize (Hc name).
  pose proof (assoc_staged patch staged name Hn Es) as Ha. unfold patched in Ha.
  rewrite Hl. destruct (assoc name FIELDS) as [[k d]|] eqn:Ef; simpl in Ha.
  - destruct (assoc name patch) as [v|]; simpl in Ha; [|by rewrite Ha].
    destruct Ha as (x & Hx & ->). exists x. split; [done|].
    apply (stage_one_type (k, d) v); [by eapply defaults_typed|done].
  - by rewrite Ha.
Qed.

(** ** Properties *)

(** C35: From any environment the process can start with, and after any sequence of
    patches, accepted or refused, every field holds a value of its own type
    (one of the allowed words for a choice) and no other key exists. *)
Theorem config_always_typed (environ : list (string * string)) (c0 : values)
    (patches : list (list (string * pyval))) :
  init environ = Ok c0 -> Forall (fun p => NoDup p.*1) patches ->
  well_typed (foldl (fun c p => (apply p c).2) c0 patches).
Proof.
  intros H Hp. apply init_well_typed in H. revert c0 H.
  induction Hp as [|p patches Hn Hp IH]; intros c0 H; simpl; [done|].
  by apply IH, apply_well_typed.
Qed.

(** C36: [apply] is all or nothing: when any known key has a bad value it raises and
    the configuration is untouched; otherwise every known key holds its
    coerced value (its default for a JSON null), every other field is as it
    was, the unknown keys are reported, and [applied] lists exactly the keys
    whose value changed. *)
Theorem apply_all_or_nothing (patch : list (string * pyval)) (c : values) :
  NoDup patch.*1 ->
  match apply patch c with
  | (Err e, c') =>
      c' = c /\
      exists k v f, (k, v) ∈ patch /\ assoc k FIELDS = Some f /\ stage_one f v = Err e
  | (Ok (applied, unknown), c') =>
      (forall k, match patched patch k with
                 | Some r => exists v, r = Ok v /\ c' !! k = Some v
                 | None => c' !! k = c !! k
                 end) /\
      (forall k, k ∈ unknown <-> k ∈ patch.*1 /\ assoc k FIELDS = None) /\
      (forall k v, (k, v) ∈ applied <->
         patched patch k = Some (Ok v) /\
         (forall old, c !! k = Some old -> cval_eqb old v = false))
  end.
Proof.
  intros Hn. pose proof (apply_run patch c Hn) as H.
  destruct (stage patch) as [staged|e] eqn:Es.
  2: { rewrite H. split; [done|]. by apply stage_error. }
  destruct H as (c' & -> & Hl).
  pose proof (fun k => assoc_staged patch staged k Hn Es) as Ha.
  split; [|split].
  - intros k. specialize (Ha k). rewrite Hl. destruct (patched patch k) as [r|].
    + destruct Ha as (v & -> & ->). by exists v.
    + by rewrite Ha.
  - intros k. rewrite list_elem_of_filter. tauto.
  - intros k v. unfold changes. rewrite list_elem_of_In, filter_In, <- list_elem_of_In. simpl.
    assert (Hp : (k, v) ∈ staged <-> patched patch k = Some (Ok v)).
    { specialize (Ha k). split.
      - intros Hin. apply assoc_in in Hin; [|by eapply stage_nodup].
        destruct (patched patch k); [|congruence]. destruct Ha as (v' & -> & ?). congruence.
      - intros E. rewrite E in Ha. destruct Ha as (v' & [= <-] & Hv). by apply assoc_Some_in. }
    rewrite Hp. destruct (c !! k) as [old|]; [|naive_solver].
    rewrite negb_true_iff. naive_solver.
Qed.

Lemma apply_all_or_nothing_witness :
  NoDup [("POOL_SIZE", VStr "8"); ("NOPE", VInt 1); ("SHED_MODE", VStr "static")].*1 /\
  match init [] with
  | Ok c0 =>
      (apply [("POOL_SIZE", VStr "8"); ("NOPE", VInt 1); ("SHED_MODE", VStr "static")] c0).1 =
      Ok ([("POOL_SIZE", CInt 8); ("SHED_MODE", CStr "static")], ["NOPE"])
  | Err _ => False
  end /\
  match apply [("POOL_SIZE", VStr "8"); ("SHED_MODE", VStr "fast")] ∅ with
  | (Err e, c') => c' = ∅
  | _ => False
  end.
Proof.
  split; [apply (bool_decide_unpack _); by vm_compute|]. split.
  { by vm_compute. }
  pose proof (apply_all_or_nothing [("POOL_SIZE", VStr "8"); ("SHED_MODE", VStr "fast")] ∅
                ltac:(apply (bool_decide_unpack _); by vm_compute)) as T.
  destruct (apply _ ∅) as [[[a u]|e] c'] eqn:E; [exfalso|exact (proj1 T)].
  assert (E2 : (apply [("POOL_SIZE", VStr "8"); ("SHED_MODE", VStr "fast")] ∅).1 =
    Err (BadChoice ["none"; "static"; "priority"; "adaptive"] "fast")) by by vm_compute.
  by rewrite E in E2.
Defined.

Definition started : values :=
  match init [("POOL_SIZE", "8"); ("HEDGE", "on")] with Ok c => c | Err _ => ∅ end.

Lemma config_always_typed_witness :
  init [("POOL_SIZE", "8"); ("HEDGE", "on")] = Ok started /\
  well_typed (foldl (fun c p => (apply p c).2) started [[("SHED_LIMIT", VStr "unset")]; []]).
Proof.
  assert (Hok : match init [("POOL_SIZE", "8"); ("HEDGE", "on")] with
                | Ok _ => true | Err _ => false end = true) by (vm_compute; reflexivity).
  assert (H : init [("POOL_SIZE", "8"); ("HEDGE", "on")] = Ok started)
    by (unfold started; by destruct (init _)).
  split; [exact H|].
  apply (config_always_typed _ started [[("SHED_LIMIT", VStr "unset")]; []] H).
  repeat constructor; apply (bool_decide_unpack _); by vm_compute.
Defined.

(** A number and its text mean the same, so a patch may send either:
    [{"POOL_SIZE": 8}] and [{"POOL_SIZE": "8"}] stage the same value, and the
    value reads back as the number. *)
Theorem numbers_and_text_agree (z : Z) :
  coerce KInt (VInt z) = Ok (CInt z) /\ coerce KInt (VStr (str_Z z)) = Ok (CInt z) /\
  coerce KOptInt (VInt z) = coerce KOptInt (VStr (str_Z z)).
Proof.
  split; [apply coerce_int|]. split; [|done].
  simpl. unfold _int. simpl. by rewrite strip_str_Z, parse_int_str.
Qed.
