(* ===== verification/LabMetrics.v ===== *)
(** * Failure lab: the counters

    Models the [Counters] object of src/05-failure/lab/app/metrics.py.  Every
    operation is one critical section of its lock.  The Prometheus collectors
    of that file only mirror these numbers and are not modelled. *)

From Stdlib Require Import ZArith Lia.
From stdpp Require Import base option list numbers strings gmap.
From S2P Require Import Prelude PyFloat PyWorld.

Open Scope Z_scope.

(** A gauge holds whatever number it was given. *)
Inductive number : Type :=
| NInt (z : Z)
| NFloat (x : float).

Module Counters.

Record t : Type := mk {
  c : gmap string Z;
  gauges : gmap string number;
  started : float;
}.

Definition NAMES : list string := [
  "received"; "completed"; "failed"; "shed"; "deadline_rejected"; "deadline_abandoned";
  "timeouts"; "retries"; "retry_denied"; "zombies"; "cache_hits"; "cache_misses";
  "db_queries"; "db_errors"; "hedges"; "hedge_wins"; "charges"; "conflicts";
  "fingerprint_rejects"].

Definition init (now : float) : t :=
  mk (list_to_map ((fun n => (n, 0)) <$> NAMES)) ∅ now.

(** [self._c.get(name, 0)]. *)
Definition read (name : string) (s : t) : Z := default 0 (c s !! name).

Definition inc_by (name : string) (n : Z) (s : t) : t :=
  mk (<[name := read name s + n]> (c s)) (gauges s) (started s).

(** [inc(name)] with the default [n = 1]. *)
Definition inc (name : string) (s : t) : t := inc_by name 1 s.

Definition gauge (name : string) (value : number) (s : t) : t :=
  mk (c s) (<[name := value]> (gauges s)) (started s).

Definition reset (now : float) (s : t) : t := mk ((fun _ => 0) <$> c s) ∅ now.

(** [snapshot]: gauges override counters of the same name; the uptime and the
    wall clock come last.  [round(x, 3)] and [round(x, 1)] are [round_to]. *)
Definition round_to (scale : positive) (x : float) : float :=
  match x with
  | Fin k => lit (Z.sgn k * div_half_even (Zpos scale * Z.abs k) unit_k) (Zpos scale)
  | _ => x
  end.

Definition snapshot (t1 t2 : float) (s : t) : gmap string number :=
  <["now_ms" := NFloat (round_to 10 (t2 * of_Z 1000)%F)]>
    (<["uptime_s" := NFloat (round_to 1000 (t1 - started s)%F)]>
       (gauges s ∪ (NInt <$> c s))).

(** ** Reading back *)

Lemma read_inc (name n : string) (s : t) :
  read n (inc name s) = if decide (name = n) then read n s + 1 else read n s.
Proof.
  unfold read, inc, inc_by. simpl. destruct (decide (name = n)) as [->|H].
  - by rewrite lookup_insert_eq.
  - by rewrite lookup_insert_ne.
Qed.

Lemma read_gauge (name n : string) (v : number) (s : t) : read n (gauge name v s) = read n s.
Proof. done. Qed.

Lemma read_reset (now : float) (n : string) (s : t) : read n (reset now s) = 0.
Proof. unfold read, reset. simpl. rewrite lookup_fmap. by destruct (c s !! n). Qed.

End Counters.

(** Evaluate the counters a handler leaves behind. *)
Create Rewrite HintDb counters.
#[export] Hint Rewrite Counters.read_inc Counters.read_gauge : counters.

Ltac counters :=
  autorewrite with counters;
  repeat match goal with
         | |- context [decide (?a = ?b)] =>
             first [rewrite (decide_True (P := a = b)) by reflexivity
                   |rewrite (decide_False (P := a = b)) by discriminate]
         end.
