(* ===== verification/TokenBucket.v ===== *)
(** * Token buckets

    The retry budget of src/05-failure/lab/app/retry.py and the hedge budget of
    src/05-failure/lab/app/fanout.py are the same bucket of float tokens with
    different capacities; this file holds its arithmetic.  A deposit is rounded,
    so what a bucket can hand out is bounded with the rounding counted. *)

From Stdlib Require Import ZArith Lia.
From stdpp Require Import base option list numbers.
From S2P Require Import Prelude PyFloat.

Open Scope Z_scope.

(** [min(self.capacity, self.tokens + ratio)]. *)
Definition bucket_add (capacity tokens ratio : float) : float :=
  fmin capacity (tokens + ratio)%F.

(** [if self.tokens >= 1.0: self.tokens -= 1.0; return True]. *)
Definition bucket_take (tokens : float) : bool * float :=
  if (of_Z 1 <=? tokens)%F then (true, (tokens - of_Z 1)%F) else (false, tokens).

(** The tokens stay between zero and the capacity [cap]. *)
Definition bucket_ok (cap : Z) (tokens : float) : Prop :=
  exists k, tokens = Fin k /\ wf (Fin k) /\ 0 <= k <= cap * unit_k.

(** The most a rounded deposit exceeds the exact one, in units: 2^-47. *)
Definition slop : Z := 2 ^ 1027.

(** ** Lemmas *)

Lemma rnd_slop (n : Z) : 0 <= n < 2 ^ 1081 -> rnd n 1 <= n + slop.
Proof.
  intros Hn. unfold rnd. rewrite !rnd_pos_eq. destruct (n <? 0) eqn:E; to_props; [lia|].
  rewrite Z.mul_1_l. set (e := scale n 1).
  assert (He : 0 <= e <= 1028).
  { unfold e, scale. rewrite Z.div_1_r. split; [lia|].
    destruct (Z.eq_dec n 0) as [->|]; [simpl; lia|].
    pose proof (Z.log2_lt_pow2 n 1081 ltac:(lia)). lia. }
  assert (Hp : 0 < 2 ^ e) by (apply Z.pow_pos_nonneg; lia).
  destruct (div_half_even_spec n (2 ^ e) Hp) as [H _].
  assert (2 ^ e <= 2 ^ 1028) by (apply Z.pow_le_mono_r; lia).
  assert (2 ^ 1028 = 2 * slop) by (unfold slop; reflexivity). nia.
Qed.

Lemma bucket_add_nan (cap tokens : float) : bucket_add cap tokens NaN = cap.
Proof. unfold bucket_add, fmin. by destruct tokens. Qed.

(** A deposit keeps the tokens in range whatever the ratio, [nan] included. *)
Lemma bucket_add_ok (cap : Z) (tokens ratio : float) :
  0 <= cap <= 2 ^ 53 -> bucket_ok cap tokens -> fltb (Fin 0) ratio = true \/ ratio = NaN ->
  bucket_ok cap (bucket_add (of_Z cap) tokens ratio).
Proof.
  intros Hc (t & -> & Hw & Ht) Hr. rewrite of_Z_small by lia.
  pose proof unit_k_pos as Hu.
  assert (Hcap : wf (Fin (cap * unit_k))).
  { split; [apply rep_int; lia|]. rewrite max_k_unit.
    assert (2 ^ 53 < 2 ^ 1024) by (apply Z.pow_lt_mono_r; lia). nia. }
  assert (Hself : bucket_ok cap (Fin (cap * unit_k))).
  { eexists. split; [done|]. split; [done|]. split; [apply Z.mul_nonneg_nonneg|]; lia. }
  destruct Hr as [Hr| ->]; [|by rewrite bucket_add_nan].
  unfold bucket_add, fmin.
  destruct (fltb (Fin t + ratio)%F (Fin (cap * unit_k))) eqn:E; [|done].
  assert (Hnn : fleb (Fin 0) (Fin t + ratio)%F = true).
  { apply fadd_nonneg; [rewrite fleb_Fin; apply Z.leb_le; lia|by apply fltb_fleb]. }
  pose proof (fadd_wf (Fin t) ratio) as Hwf.
  destruct (Fin t + ratio)%F as [z| | |]; try done.
  rewrite fleb_Fin in Hnn. simpl in E. to_props. exists z. split; [done|]. split; [done|]. lia.
Qed.

Lemma bucket_take_ok (cap : Z) (tokens : float) :
  cap <= 2 ^ 52 -> bucket_ok cap tokens -> bucket_ok cap (bucket_take tokens).2.
Proof.
  intros Hc (t & -> & Hw & Ht). unfold bucket_take. pose proof unit_k_pos.
  destruct (fleb (of_Z 1) (Fin t)) eqn:E; cbn [snd];
    [|exists t; split; [reflexivity|split; assumption]].
  assert (Hge : unit_k <= t).
  { rewrite of_Z_small in E by lia. rewrite fleb_Fin in E. to_props. lia. }
  pose proof (fsub_wf (Fin t) (of_Z 1)) as Hsw.
  rewrite fsub_one_exact in * by (assumption || nia). exists (t - unit_k).
  split; [reflexivity|]. split; [assumption|]. lia.
Qed.

(** What a take removes is exactly the token it grants. *)
Lemma bucket_take_exact (cap t : Z) :
  cap <= 2 ^ 52 -> wf (Fin t) -> 0 <= t <= cap * unit_k ->
  exists t', bucket_take (Fin t) = (unit_k <=? t, Fin t') /\
             t' = if unit_k <=? t then t - unit_k else t.
Proof.
  intros Hc Hw Ht. unfold bucket_take. pose proof unit_k_pos.
  rewrite of_Z_small by lia. rewrite fleb_Fin, Z.mul_1_l.
  destruct (unit_k <=? t) eqn:E; [|by eexists]. to_props.
  eexists. split; [|done]. f_equal.
  pose proof (fsub_one_exact t Hw) as Hs. rewrite of_Z_small in Hs by lia.
  rewrite Z.mul_1_l in Hs. apply Hs. nia.
Qed.

(** A deposit adds at most its ratio and the rounding. *)
Lemma bucket_add_bound (cap t r : Z) :
  0 <= cap <= 120 -> 0 <= t <= cap * unit_k -> 0 < r ->
  exists t', bucket_add (of_Z cap) (Fin t) (Fin r) = Fin t' /\ t' <= t + r + slop.
Proof.
  intros Hc Ht Hr. rewrite of_Z_small by lia. unfold bucket_add, fmin. simpl.
  pose proof unit_k_pos as Hu.
  assert (Hu81 : 2 ^ 1081 = 128 * unit_k) by (rewrite unit_k_eq; reflexivity).
  destruct (Z.le_gt_cases (2 ^ 1081) (t + r)) as [Hbig|Hsmall].
  - assert (E : fltb (fround (t + r) 1) (Fin (cap * unit_k)) = false).
    { apply fleb_not_fltb.
      assert (Hcap : rep (cap * unit_k)) by (apply rep_int; lia).
      rewrite <- (fround_exact (cap * unit_k) 1); [|lia|done|].
      - apply fround_mono; nia.
      - rewrite max_k_unit. assert (2 ^ 7 < 2 ^ 1024) by (apply Z.pow_lt_mono_r; lia). nia. }
    rewrite E. eexists. split; [done|]. unfold slop. nia.
  - assert (Hle : rnd (t + r) 1 <= t + r + slop) by (apply rnd_slop; lia).
    assert (H0 : 0 <= rnd (t + r) 1) by (apply (rnd_mono 0 1 (t + r) 1); lia).
    assert (Hm : rnd (t + r) 1 < max_k).
    { rewrite max_k_unit. assert (2 ^ 8 < 2 ^ 1024) by (apply Z.pow_lt_mono_r; lia).
      assert (slop < unit_k) by (rewrite unit_k_eq; unfold slop; apply Z.pow_lt_mono_r; lia).
      nia. }
    assert (Hf : fround (t + r) 1 = Fin (rnd (t + r) 1)).
    { rewrite fround_eq. unfold overflow.
      destruct (max_k <=? rnd (t + r) 1) eqn:E1; to_props; [lia|].
      destruct (rnd (t + r) 1 <=? - max_k) eqn:E2; to_props; [lia|]. reflexivity. }
    rewrite Hf. simpl. destruct (rnd (t + r) 1 <? cap * unit_k) eqn:E; to_props;
      eexists; (split; [reflexivity|]); lia.
Qed.

(** Both operations in units, on a bucket in range. *)
Lemma bucket_take_step (cap t : Z) :
  cap <= 2 ^ 52 -> wf (Fin t) -> 0 <= t <= cap * unit_k ->
  exists t', bucket_take (Fin t) = (unit_k <=? t, Fin t') /\ wf (Fin t') /\
    0 <= t' <= cap * unit_k /\ t' = if unit_k <=? t then t - unit_k else t.
Proof.
  intros Hc Hw Ht. destruct (bucket_take_exact cap t Hc Hw Ht) as (t' & E & Et).
  assert (Hok : bucket_ok cap (Fin t)) by (exists t; split; [reflexivity|split; assumption]).
  apply bucket_take_ok in Hok; [|exact Hc]. rewrite E in Hok.
  destruct Hok as (u & [= <-] & Hwu & Hru). exists t'.
  split; [exact E|]. split; [assumption|]. split; assumption.
Qed.

Lemma bucket_add_step (cap t r : Z) :
  0 <= cap <= 120 -> wf (Fin t) -> 0 <= t <= cap * unit_k -> 0 < r ->
  exists t', bucket_add (of_Z cap) (Fin t) (Fin r) = Fin t' /\ wf (Fin t') /\
    0 <= t' <= cap * unit_k /\ t' <= t + r + slop.
Proof.
  intros Hc Hw Ht Hr. destruct (bucket_add_bound cap t r Hc Ht Hr) as (t' & E & Hle).
  assert (Hok : bucket_ok cap (bucket_add (of_Z cap) (Fin t) (Fin r))).
  { apply bucket_add_ok; [lia| |].
    - exists t. split; [reflexivity|split; assumption].
    - left. simpl. apply Z.ltb_lt. exact Hr. }
  rewrite E in Hok. destruct Hok as (u & [= <-] & Hwu & Hru). exists t'.
  split; [exact E|]. split; [assumption|]. split; assumption.
Qed.

(** A ratio of [0.10], and a deposit of it in a bucket of 103 tokens, with [min]'s arguments
    in the order in which the simulators write them. *)
Definition tenth : float := lit 10 100.
Definition tenth_k : Z := match tenth with Fin k => k | _ => 0 end.

Lemma tenth_near : tenth = Fin tenth_k /\ 0 < tenth_k /\ 10 * tenth_k <= unit_k + 10 * 2 ^ 1021.
Proof.
  assert (E : tenth = fround (10 * unit_k) 100) by apply lit_eq.
  pose proof unit_k_pos as Hu.
  assert (Hs : 2 ^ 1021 * 2 ^ 53 = unit_k) by (rewrite unit_k_eq, <- Z.pow_add_r by lia; reflexivity).
  destruct (fround_near_at 0 (10 * unit_k) 100) as (k & Ek & Hk & Hb); [lia..|].
  change (1021 + 0) with 1021 in Hb. unfold tenth_k. rewrite E, Ek.
  split; [reflexivity|]. change (2 ^ 53) with 9007199254740992 in Hs.
  assert (0 < 2 ^ 1021) by (apply Z.pow_pos_nonneg; lia). lia.
Qed.

Lemma tenth_deposit (t : Z) :
  wf (Fin t) -> 0 <= t <= 103 * unit_k ->
  exists t', fmin (fadd (Fin t) tenth) (of_Z 103) = Fin t' /\ wf (Fin t') /\ 0 <= t' <= 103 * unit_k /\
    t' <= t + tenth_k + slop.
Proof.
  intros Hw Ht. destruct tenth_near as (Er & Hr & _).
  destruct (bucket_add_step 103 t tenth_k) as (t' & E & H); [lia|assumption..|].
  exists t'. split; [|exact H]. rewrite <- E. unfold bucket_add. rewrite Er.
  apply fmin_comm; [|apply of_Z_not_nan]. cbn [fadd]. apply fround_not_nan.
Qed.

Lemma bucket_ok_0 (cap : Z) : 0 <= cap -> bucket_ok cap (Fin 0).
Proof.
  intros H. exists 0. split; [done|]. split; [apply wf_0|]. pose proof unit_k_pos. nia.
Qed.

#[export] Hint Resolve bucket_add_ok bucket_take_ok bucket_ok_0 : py.
