(* ===== verification/LabDeadline.v ===== *)
(** * Failure lab: deadline propagation

    Models src/05-failure/lab/app/deadline.py and [do_work] of
    src/05-failure/lab/app/db.py.  Request headers are read through an arbitrary
    lookup function [hget] (the framework's header object); a reading of
    [now_ms()] is an argument. *)

From Stdlib Require Import ZArith Lia Ascii.
From stdpp Require Import base option list numbers strings pretty gmap.
From S2P Require Import Prelude PyFloat PyWorld PyText LabConfig LabMetrics.

Open Scope Z_scope.

(** ** Reading the configuration

    The getters read a field of a well-typed configuration (see
    [LabConfig.config_always_typed]); the other branch is never reached. *)

Definition cfg_int (name : string) (c : values) : Z :=
  match c !! name with Some (CInt z) => z | _ => 0 end.
Definition cfg_opt_int (name : string) (c : values) : option Z :=
  match c !! name with Some (CInt z) => Some z | _ => None end.
Definition cfg_float (name : string) (c : values) : float :=
  match c !! name with Some (CFloat x) => x | _ => Fin 0 end.
Definition cfg_bool (name : string) (c : values) : bool :=
  match c !! name with Some (CBool b) => b | _ => false end.
Definition cfg_str (name : string) (c : values) : string :=
  match c !! name with Some (CStr s) => s | _ => "" end.

(** ** Definitions *)

Definition OBSERVED_HEADER : string := "X-Observed-Deadline".

(** [int(x)] raises [ValueError] on a nan and [OverflowError] on an infinity. *)
Inductive int_error : Type := IntOfNan | IntOfInfinity.

Definition py_int (x : float) : res int_error Z :=
  match x with
  | Fin k => Ok (Z.quot k unit_k)
  | NaN => Err IntOfNan
  | _ => Err IntOfInfinity
  end.

(** [type(exc).__name__ + ": " + str(exc)]. *)
Definition int_error_text (e : int_error) : string :=
  match e with
  | IntOfNan => "ValueError: cannot convert float NaN to integer"
  | IntOfInfinity => "OverflowError: cannot convert float infinity to integer"
  end.

Definition now_ms (time : float) : float := (time * of_Z 1000)%F.

(** [a or b] on optional strings: the empty string is false. *)
Definition or_header (a b : option string) : option string :=
  match a with
  | Some (String _ _) => a
  | _ => match b with Some (String _ _) => b | _ => None end
  end.

Definition read_deadline (c : values) (hget : string -> option string) : option float :=
  raw ← or_header (hget (cfg_str "DEADLINE_HEADER" c)) (hget OBSERVED_HEADER);
  parse_float raw.

Definition remaining_ms (deadline : option float) (now : float) : option float :=
  d ← deadline; Some (d - now)%F.

Definition should_reject (c : values) (deadline : option float) (now : float) : bool :=
  if negb (cfg_bool "PROPAGATE_DEADLINE" c) then false
  else
    match remaining_ms deadline now with
    | Some lft => fltb_Z lft (cfg_int "DEADLINE_SLACK_MS" c)
    | None => false
    end.

(** [max(1, int(min(configured, left - slack)))]: [min] keeps the integer
    unless the float is smaller. *)
Definition outbound_timeout_ms (c : values) (deadline : option float) (now : float)
  : res int_error Z :=
  let configured := cfg_int "CLIENT_TIMEOUT_MS" c in
  if negb (cfg_bool "PROPAGATE_DEADLINE" c) then Ok configured
  else
    match remaining_ms deadline now with
    | None => Ok configured
    | Some lft =>
        let budget := (lft - of_Z (cfg_int "DEADLINE_SLACK_MS" c))%F in
        if fltb_Z budget configured
        then match py_int budget with Ok z => Ok (Z.max 1 z) | Err e => Err e end
        else Ok (Z.max 1 configured)
    end.

Definition statement_timeout_ms (c : values) (deadline : option float) (now : float)
  : res int_error (option Z) :=
  match cfg_opt_int "STATEMENT_TIMEOUT_MS" c with
  | Some explicit => Ok (Some explicit)
  | None =>
      if negb (cfg_bool "PROPAGATE_DEADLINE" c) then Ok None
      else
        match remaining_ms deadline now with
        | None => Ok None
        | Some lft =>
            match py_int (lft - of_Z (cfg_int "DEADLINE_SLACK_MS" c))%F with
            | Ok z => Ok (Some (Z.max 1 z))
            | Err e => Err e
            end
        end
  end.

Definition headers_for_next_hop (c : values) (deadline : option float)
    (incoming : string -> option string) : gmap string string :=
  let out :=
    match deadline with
    | Some d =>
        <[OBSERVED_HEADER := fmt0 d]> {[cfg_str "DEADLINE_HEADER" c := fmt0 d]}
    | None => ∅
    end in
  match incoming "X-Request-Id" with
  | Some (String _ _ as rid) => <["X-Request-Id" := rid]> out
  | _ => out
  end.

(** The result of [record_completion] and the counters after it. *)
Definition record_completion (deadline : option float) (did_work : bool) (now : float)
    (cnt : Counters.t) : bool * Counters.t :=
  if negb did_work then (false, cnt)
  else
    match remaining_ms deadline now with
    | Some lft => if (lft <=? Fin 0)%F then (true, Counters.inc "zombies" cnt) else (false, cnt)
    | None => (false, cnt)
    end.

(** ** The leaf's work

    What the pool and Postgres do is an input: whether a connection is checked
    out ([Err] is the text of the exception), how many are in use, and how the
    statements end.  [t0 .. t4] are the clock readings in order. *)

Record work_result : Type := mkWork {
  wait_ms : float;
  query_ms : float;
  in_use : Z;
  error : option string;
}.

Record pool_behaviour : Type := mkPool {
  checkout : res string Z;
  pool_in_use : Z;
  statements : option Z -> res string unit;
}.

Definition ABANDONED : string := "deadline_exceeded_after_pool_wait".

Definition do_work (c : values) (pool : pool_behaviour) (statement_timeout : option Z)
    (deadline : option float) (t0 t1 t_left t_stmt q0 q1 : float) (cnt : Counters.t)
  : work_result * Counters.t :=
  match checkout pool with
  | Err text =>
      (mkWork ((t1 - t0) * of_Z 1000)%F (Fin 0) (pool_in_use pool) (Some text),
       Counters.inc "db_errors" cnt)
  | Ok in_use =>
      let waited := ((t1 - t0) * of_Z 1000)%F in
      let run (timeout : option Z) :=
        match statements pool timeout with
        | Ok _ => (mkWork waited ((q1 - q0) * of_Z 1000)%F in_use None,
                   Counters.inc "db_queries" cnt)
        | Err text => (mkWork waited ((q1 - q0) * of_Z 1000)%F in_use (Some text),
                       Counters.inc "db_errors" cnt)
        end in
      match deadline with
      | Some _ =>
          if cfg_bool "PROPAGATE_DEADLINE" c then
            match remaining_ms deadline (now_ms t_left) with
            | Some l =>
                if (l <? of_Z (cfg_int "DEADLINE_SLACK_MS" c))%F
                then (mkWork waited (Fin 0) in_use (Some ABANDONED),
                      Counters.inc "deadline_abandoned" cnt)
                else
                  match statement_timeout_ms c deadline (now_ms t_stmt) with
                  | Ok timeout => run timeout
                  | Err e =>
                      (* the [int()] raised inside the outer [try] *)
                      (mkWork ((q0 - t0) * of_Z 1000)%F (Fin 0) (pool_in_use pool)
                 (Some (int_error_text e)),
                       Counters.inc "db_errors" cnt)
                  end
            | None => run statement_timeout
            end
          else run statement_timeout
      | None => run statement_timeout
      end
  end.

(** ** Lemmas *)

Lemma lower_digits (s : string) : all_chars is_digit s -> lower s = s.
Proof.
  induction s as [|c s IH]; simpl; [done|]. intros [Hc%digit_range Hs].
  rewrite IH by done. f_equal. unfold lower_char.
  destruct (65 <=? N_of_ascii c)%N eqn:E; [|done]. apply N.leb_le in E. lia.
Qed.

Lemma digits_not_word (s : string) (ws : list string) :
  all_chars is_digit s ->
  Forall (fun w => match w with String c _ => digit c = None | _ => False end) ws ->
  bool_decide (s ∈ ws) = false.
Proof.
  intros Hs Hws. apply bool_decide_eq_false. intros Hin.
  rewrite Forall_forall in Hws. specialize (Hws s Hin). destruct s as [|c s]; [done|].
  destruct Hs as [[d Hd] _]. congruence.
Qed.

Lemma digits_nan (s : string) : all_chars is_digit s -> bool_decide (s = "nan") = false.
Proof.
  intros Hs. apply bool_decide_eq_false. intros ->. by destruct Hs as [[d [=]] _].
Qed.

(** [float] of a printed natural number, with or without a minus sign. *)
Lemma parse_float_pretty (neg : bool) (x : N) :
  parse_float ((if neg then "-" else "") +:+ pretty x) =
    Some (of_Z (if neg then - Z.of_N x else Z.of_N x)).
Proof.
  pose proof (pretty_digits x) as Hd.
  assert (Hsp : all_chars (fun c => is_space c = false) (pretty x))
    by (eapply all_chars_impl; [apply digit_not_space|exact Hd]).
  unfold parse_float. rewrite strip_id by (destruct neg; simpl; auto).
  replace (signed _) with (if neg then -1 else 1, pretty x)
    by (destruct neg; simpl; [done|by rewrite signed_digits]).
  rewrite lower_digits, digits_not_word, digits_nan by (done || by repeat constructor).
  destruct (digits_pretty x) as [n ->].
  replace (S n + 0 =? 0)%nat with false by (by destruct n).
  simpl. unfold of_decimal. simpl. rewrite lit_1. do 2 f_equal. destruct neg; lia.
Qed.

(** The nearest whole number. *)
Definition nearest (k n : Z) : Prop := 2 * Z.abs (n * unit_k - k) <= unit_k.

Lemma round_nearest (k : Z) : exists n, f_round (Fin k) = Some n /\ nearest k n.
Proof.
  eexists. split; [reflexivity|]. unfold nearest. pose proof unit_k_pos.
  destruct (div_half_even_spec (Z.abs k) unit_k unit_k_pos) as [H' _].
  set (m := div_half_even (Z.abs k) unit_k) in *. clearbody m.
  destruct (Z.lt_trichotomy k 0) as [Hk|[->|Hk]].
  - rewrite Z.sgn_neg by lia. nia.
  - simpl in *. lia.
  - rewrite Z.sgn_pos by lia. nia.
Qed.

Lemma fmt0_reads_back (k n : Z) :
  f_round (Fin k) = Some n -> parse_float (fmt0 (Fin k)) = Some (of_Z n).
Proof.
  intros [= <-]. unfold fmt0.
  set (m := div_half_even (Z.abs k) unit_k).
  assert (Hm : 0 <= m).
  { unfold m. destruct (div_half_even_spec (Z.abs k) unit_k unit_k_pos) as [H _].
    pose proof unit_k_pos. nia. }
  destruct (k <? 0) eqn:E; to_props.
  - rewrite (parse_float_pretty true). do 2 f_equal. rewrite Z.sgn_neg; lia.
  - rewrite (parse_float_pretty false). do 2 f_equal. rewrite Z2N.id by done.
    destruct (decide (k = 0)) as [Hk|]; [|rewrite Z.sgn_pos; lia].
    subst k. unfold m. replace (Z.abs 0) with (0 * unit_k) by lia.
    rewrite div_half_even_exact by apply unit_k_pos. done.
Qed.

Lemma fmt0_nonempty (x : float) : exists c s, fmt0 x = String c s.
Proof.
  destruct x as [k| | |]; [|by do 2 eexists..]. unfold fmt0.
  destruct (pretty _) as [|c s] eqn:E.
  - exfalso. pose proof (digits_pretty (Z.to_N (div_half_even (Z.abs k) unit_k))) as [n Hn].
    by rewrite E in Hn.
  - destruct (k <? 0); by do 2 eexists.
Qed.

(** What the next hop reads when the headers reach it. *)
Definition next_hop (c : values) (incoming : string -> option string) (d : option float)
  : option float :=
  read_deadline c (fun h => headers_for_next_hop c d incoming !! h).

Lemma next_hop_reads (c : values) (incoming : string -> option string) (d : float) :
  cfg_str "DEADLINE_HEADER" c <> "X-Request-Id" ->
  next_hop c incoming (Some d) = parse_float (fmt0 d).
Proof.
  intros Hh. unfold next_hop, read_deadline.
  assert (E : headers_for_next_hop c (Some d) incoming !! cfg_str "DEADLINE_HEADER" c
              = Some (fmt0 d)).
  { unfold headers_for_next_hop.
    assert (H0 : (<[OBSERVED_HEADER := fmt0 d]>
        {[cfg_str "DEADLINE_HEADER" c := fmt0 d]} : gmap string string)
          !! cfg_str "DEADLINE_HEADER" c = Some (fmt0 d)).
    { destruct (decide (OBSERVED_HEADER = cfg_str "DEADLINE_HEADER" c)) as [->|Hne].
      - apply lookup_insert_eq.
      - rewrite lookup_insert_ne by done. apply lookup_singleton_eq. }
    destruct (incoming "X-Request-Id") as [[|a s]|]; [done| |done].
    by rewrite lookup_insert_ne. }
  rewrite E. destruct (fmt0_nonempty d) as (a & s & ->). done.
Qed.

(** The remaining budget the hop works with: [left - slack]. *)
Definition hop_budget (c : values) (d now : float) : float :=
  ((d - now) - of_Z (cfg_int "DEADLINE_SLACK_MS" c))%F.

Lemma quot_floor (k : Z) : 0 <= k -> Z.quot k unit_k * unit_k <= k.
Proof.
  intros Hk. pose proof unit_k_pos. rewrite Z.quot_div_nonneg by lia.
  pose proof (Z.mul_div_le k unit_k). lia.
Qed.

(** The integer [int()] makes of a budget below [m] is at most [m]. *)
Lemma py_int_below (k m : Z) : 0 <= m -> k < m * unit_k -> Z.quot k unit_k <= m.
Proof.
  intros Hm H. pose proof unit_k_pos. destruct (Z.le_gt_cases 0 k).
  - pose proof (quot_floor k ltac:(done)). nia.
  - transitivity 0; [|done]. rewrite <- (Z.opp_involutive k), Z.quot_opp_l by lia.
    pose proof (Z.quot_pos (- k) unit_k). lia.
Qed.

(** ** Properties *)

(** C37: However many hops a deadline crosses, it is rounded to a whole millisecond
    once and never moves again: from a finite deadline every later hop reads the
    nearest integer, at most half a millisecond away. *)
Theorem deadline_survives_hops (c : values) (incoming : nat -> string -> option string)
    (k : Z) (hops : nat) :
  cfg_str "DEADLINE_HEADER" c <> "X-Request-Id" -> Z.abs k < 2 ^ 53 * unit_k ->
  exists n, nearest k n /\
    fold_right (fun i d => next_hop c (incoming i) d) (Some (Fin k)) (seq 0 (S hops))
      = Some (Fin (n * unit_k)).
Proof.
  intros Hh Hk. destruct (round_nearest k) as (n & Hn & Hnear). exists n. split; [done|].
  assert (Hsmall : Z.abs n <= 2 ^ 53) by (unfold nearest in Hnear; pose proof unit_k_pos; nia).
  assert (Hfirst : forall i, next_hop c (incoming i) (Some (Fin k)) = Some (Fin (n * unit_k))).
  { intros i. by rewrite next_hop_reads, (fmt0_reads_back k n), of_Z_small. }
  assert (Hstay : forall i, next_hop c (incoming i) (Some (Fin (n * unit_k)))
                            = Some (Fin (n * unit_k))).
  { intros i. rewrite next_hop_reads by done. rewrite (fmt0_reads_back _ n).
    { by rewrite of_Z_small. }
    simpl. rewrite Z.abs_mul, (Z.abs_eq unit_k) by (pose proof unit_k_pos; lia).
    rewrite div_half_even_exact by apply unit_k_pos. f_equal.
    rewrite Z.sgn_mul, (Z.sgn_pos unit_k) by apply unit_k_pos.
    destruct n; simpl; lia. }
  generalize 0%nat. induction hops as [|hops IH]; intros b; [apply Hfirst|].
  cbn [seq fold_right] in *. rewrite IH. apply Hstay.
Qed.

Lemma deadline_survives_hops_witness :
  let c := {["DEADLINE_HEADER" := CStr "X-Deadline"]} : values in
  exists n, nearest (7 * unit_k) n /\
    fold_right (fun i d => next_hop c (fun _ => None) d) (Some (Fin (7 * unit_k))) (seq 0 3)
      = Some (Fin (n * unit_k)).
Proof.
  intros c. apply (deadline_survives_hops c (fun _ _ => None) (7 * unit_k) 2).
  - done.
  - rewrite Z.abs_mul, (Z.abs_eq unit_k) by (pose proof unit_k_pos; lia).
    pose proof unit_k_pos. lia.
Defined.

(** What a hop gives the next one.  Without propagation, or without a deadline,
    the configured timeout; with both, a whole number of milliseconds between 1
    and the configured timeout that fits in the remaining budget less the slack
    whenever that budget leaves a millisecond.  [int()] raises only on a budget
    of minus infinity, on which [should_reject] has already refused. *)
Theorem outbound_timeout_fits (c : values) (deadline : option float) (now : float) :
  let C := cfg_int "CLIENT_TIMEOUT_MS" c in
  0 <= C ->
  match outbound_timeout_ms c deadline now with
  | Ok z =>
      match deadline with
      | Some d =>
          if cfg_bool "PROPAGATE_DEADLINE" c then
            1 <= z <= Z.max 1 C /\
            (z = 1 \/ hop_budget c d now = NaN \/
             fleb (of_Z z) (hop_budget c d now) = true)
          else z = C
      | None => z = C
      end
  | Err e =>
      e = IntOfInfinity /\ cfg_bool "PROPAGATE_DEADLINE" c = true /\
      should_reject c deadline now = true
  end.
Proof.
  intros C HC. unfold outbound_timeout_ms. fold C.
  destruct (cfg_bool "PROPAGATE_DEADLINE" c) eqn:P; simpl; [|by destruct deadline].
  destruct deadline as [d|]; simpl; [|done].
  change ((d - now) - of_Z (cfg_int "DEADLINE_SLACK_MS" c))%F with (hop_budget c d now).
  assert (Hw : wf (hop_budget c d now)) by apply fsub_wf.
  destruct (fltb_Z (hop_budget c d now) C) eqn:E.
  - destruct (hop_budget c d now) as [k| | |] eqn:Hb; simpl in E; try done.
    + to_props. pose proof (py_int_below k C HC E). simpl. split; [lia|].
      destruct (Z.le_gt_cases (Z.quot k unit_k) 1) as [|Hgt]; [left; lia|].
      do 2 right. rewrite Z.max_r by lia. apply of_Z_below; [done|]. apply quot_floor.
      pose proof unit_k_pos. destruct (Z.le_gt_cases 0 k) as [|Hn]; [done|].
      pose proof (Z.quot_opp_l k unit_k). pose proof (Z.quot_pos (- k) unit_k). lia.
    + split; [done|]. split; [done|]. unfold should_reject. rewrite P. simpl.
      assert (Hl : wf (d - now)%F) by apply fsub_wf.
      pose proof (fsub_ninf_lt _ _ Hl (of_Z_wf _) Hb) as Hlt.
      destruct (fltb_Z (d - now)%F _) eqn:E2; [done|].
      apply fltb_Z_false in E2; [|done|by destruct (d - now)%F].
      apply fleb_not_fltb in E2. congruence.
  - split; [lia|]. destruct (Z.le_gt_cases C 1) as [|Hgt]; [left; lia|]. right.
    rewrite Z.max_r by lia.
    destruct (is_nan (hop_budget c d now)) eqn:Hnan; [left; by destruct (hop_budget c d now)|].
    right. by apply fltb_Z_false.
Qed.

Definition demo_config : values :=
  list_to_map [("DEADLINE_HEADER", CStr "X-Deadline"); ("PROPAGATE_DEADLINE", CBool true);
               ("CLIENT_TIMEOUT_MS", CInt 500); ("DEADLINE_SLACK_MS", CInt 20);
               ("STATEMENT_TIMEOUT_MS", CNone)].

Lemma outbound_timeout_fits_witness :
  outbound_timeout_ms demo_config (Some (of_Z 1300)) (of_Z 1000) = Ok 280 /\
  1 <= 280 <= 500 /\
  fleb (of_Z 280) (hop_budget demo_config (of_Z 1300) (of_Z 1000)) = true.
Proof.
  assert (E : outbound_timeout_ms demo_config (Some (of_Z 1300)) (of_Z 1000) = Ok 280)
    by (vm_compute; reflexivity).
  split; [exact E|].
  pose proof (outbound_timeout_fits demo_config (Some (of_Z 1300)) (of_Z 1000)
                ltac:(vm_compute; congruence)) as T.
  rewrite E in T. destruct T as (H1 & [H2|[H2|H2]]); [discriminate| |].
  - exfalso. assert (is_nan (hop_budget demo_config (of_Z 1300) (of_Z 1000)) = false) as Hn
      by (vm_compute; reflexivity). by rewrite H2 in Hn.
  - split; [|exact H2]. change (Z.max 1 (cfg_int "CLIENT_TIMEOUT_MS" demo_config)) with 500 in H1.
    exact H1.
Defined.

(** A caller that sends [nan] or [inf] as its deadline is not refused under
    propagation, although [read_deadline] drops every other malformed value: no
    reading of the clock rejects it, and the statement timeout derived from it
    raises, so the handler answers 500. *)
Theorem non_finite_deadline_raises (c : values) (hget : string -> option string)
    (raw : string) (d : float) (now : Z) :
  cfg_bool "PROPAGATE_DEADLINE" c = true -> cfg_opt_int "STATEMENT_TIMEOUT_MS" c = None ->
  hget (cfg_str "DEADLINE_HEADER" c) = Some raw ->
  (raw = "nan" /\ d = NaN) \/ (raw = "inf" /\ d = PInf) ->
  read_deadline c hget = Some d /\ should_reject c (Some d) (Fin now) = false /\
  exists e, statement_timeout_ms c (Some d) (Fin now) = Err e.
Proof.
  intros P S Hg Hd. unfold read_deadline, should_reject, statement_timeout_ms.
  rewrite Hg, P, S. simpl.
  destruct Hd as [[-> ->]|[-> ->]]; (split; [done|]); (split; [done|]);
    simpl; try destruct (of_Z (cfg_int "DEADLINE_SLACK_MS" c)); by eexists.
Qed.

Lemma non_finite_deadline_raises_witness :
  read_deadline demo_config (fun _ => Some "nan") = Some NaN /\
  should_reject demo_config (Some NaN) (Fin 0) = false /\
  exists e, statement_timeout_ms demo_config (Some NaN) (Fin 0) = Err e.
Proof.
  apply (non_finite_deadline_raises demo_config (fun _ => Some "nan") "nan" NaN 0);
    try reflexivity. by left.
Defined.

(** The counters [do_work] may move. *)
Definition work_counters : list string := ["db_queries"; "db_errors"; "deadline_abandoned"].

(** The budget left after the checkout is below the slack. *)
Definition wait_ate_budget (c : values) (deadline : option float) (tl : float) : Prop :=
  cfg_bool "PROPAGATE_DEADLINE" c = true /\
  exists l, remaining_ms deadline (now_ms tl) = Some l /\
            fltb l (of_Z (cfg_int "DEADLINE_SLACK_MS" c)) = true.

(** The three ways [do_work] ends. *)
Lemma do_work_cases (c : values) (pool : pool_behaviour) (st : option Z)
    (deadline : option float) (t0 t1 tl ts q0 q1 : float) (cnt : Counters.t) :
  let '(r, cnt') := do_work c pool st deadline t0 t1 tl ts q0 q1 cnt in
  let abandons := (exists u, checkout pool = Ok u) /\ wait_ate_budget c deadline tl in
  ((exists u, checkout pool = Ok u) /\ wait_ate_budget c deadline tl /\
     cnt' = Counters.inc "deadline_abandoned" cnt /\
     error r = Some ABANDONED /\ query_ms r = Fin 0) \/
  (~ abandons /\
     ((cnt' = Counters.inc "db_queries" cnt /\ error r = None) \/
      (cnt' = Counters.inc "db_errors" cnt /\ exists text, error r = Some text))).
Proof.
  unfold do_work. destruct (checkout pool) as [u|e] eqn:Hco; simpl.
  2:{ right. split; [intros [[? [=]] _]|]. right. split; [done|]. by eexists. }
  assert (Hrun : forall timeout,
    (~ wait_ate_budget c deadline tl) ->
    let '(r, cnt') :=
      match statements pool timeout with
      | Ok _ => (mkWork ((t1 - t0) * of_Z 1000)%F ((q1 - q0) * of_Z 1000)%F u None,
                 Counters.inc "db_queries" cnt)
      | Err text => (mkWork ((t1 - t0) * of_Z 1000)%F ((q1 - q0) * of_Z 1000)%F u (Some text),
                     Counters.inc "db_errors" cnt)
      end in
    ~ ((exists u0, Ok u = Ok u0 :> res string Z) /\ wait_ate_budget c deadline tl) /\
    ((cnt' = Counters.inc "db_queries" cnt /\ error r = None) \/
     (cnt' = Counters.inc "db_errors" cnt /\ exists text, error r = Some text))).
  { intros timeout Hn. destruct (statements pool timeout) as [?|text]; simpl;
      (split; [by intros [_ ?]|]); [by left|right; split; [done|by eexists]]. }
  assert (Hoff : deadline = None \/ cfg_bool "PROPAGATE_DEADLINE" c = false ->
                 ~ wait_ate_budget c deadline tl).
  { intros [->|P] (P' & l & Hl & _); [done|congruence]. }
  destruct deadline as [d|]; [|specialize (Hrun st (Hoff (or_introl eq_refl)));
    case_match; by right].
  destruct (cfg_bool "PROPAGATE_DEADLINE" c) eqn:P;
    [|specialize (Hrun st (Hoff (or_intror eq_refl))); case_match; by right].
  simpl. destruct (fltb _ _) eqn:Hlt.
  { left. split; [by eexists|]. split; [|done]. split; [done|]. by eexists. }
  assert (Hn : ~ wait_ate_budget c (Some d) tl) by (intros (_ & l & [= <-] & H); congruence).
  destruct (statement_timeout_ms c (Some d) (now_ms ts)) as [timeout|e].
  - specialize (Hrun timeout Hn). case_match; by right.
  - right. split; [by intros [_ ?]|]. right. split; [done|]. by eexists.
Qed.

(** Whatever the pool and Postgres do, [do_work] moves exactly one of its three
    counters, by one; it reports no error exactly when it counted a query; and
    it abandons exactly when a connection was checked out and the wait for it ate
    the budget, in which case no statement is sent: the result is the same for
    every behaviour of the statements. *)
Theorem do_work_accounts (c : values) (pool : pool_behaviour) (st : option Z)
    (deadline : option float) (t0 t1 tl ts q0 q1 : float) (cnt : Counters.t) :
  let '(r, cnt') := do_work c pool st deadline t0 t1 tl ts q0 q1 cnt in
  exists name, name ∈ work_counters /\
    (forall n, Counters.read n cnt' =
       if decide (name = n) then Counters.read n cnt + 1 else Counters.read n cnt) /\
    (error r = None <-> name = "db_queries") /\
    (name = "deadline_abandoned" <->
       (exists u, checkout pool = Ok u) /\ wait_ate_budget c deadline tl) /\
    (name = "deadline_abandoned" ->
       error r = Some ABANDONED /\ query_ms r = Fin 0 /\
       forall statements',
         do_work c (mkPool (checkout pool) (pool_in_use pool) statements') st deadline
           t0 t1 tl ts q0 q1 cnt = (r, cnt')).
Proof.
  destruct (do_work c pool st deadline t0 t1 tl ts q0 q1 cnt) as [r cnt'] eqn:E.
  pose proof (do_work_cases c pool st deadline t0 t1 tl ts q0 q1 cnt) as Hc. rewrite E in Hc.
  destruct Hc as [(Hco & Hate & -> & He & Hq)|(Hno & [(-> & Hr)|(-> & text & Hr)])].
  - exists "deadline_abandoned". split; [set_solver|]. split; [intros; apply Counters.read_inc|].
    split; [by rewrite He|]. split; [done|]. intros _. split; [done|]. split; [done|]. intros st'.
    destruct Hco as [u Hu]. destruct Hate as (P & l & Hl & Hlt).
    unfold do_work in *. simpl. rewrite Hu in *. destruct deadline as [d|]; [|done].
    by rewrite P, Hl, Hlt in *.
  - exists "db_queries". split; [set_solver|]. split; [intros; apply Counters.read_inc|].
    split; [by rewrite Hr|]. split; [|done]. split; [done|]. intros [? ?]. by destruct Hno.
  - exists "db_errors". split; [set_solver|]. split; [intros; apply Counters.read_inc|].
    split; [by rewrite Hr|]. split; [|done]. split; [done|]. intros [? ?]. by destruct Hno.
Qed.
