(* ===== verification/LabRetry.v ===== *)
(** * Failure lab: retries, backoff and the retry budget

    Models src/05-failure/lab/app/retry.py.  [with_retries] runs in a state that
    holds the process's tokens, its counters, its clocks and the rest [X] of the
    world.  The two [await]s of its loop, the attempt and the sleep, are
    arbitrary transformers of that whole state, so whatever the event loop runs
    meanwhile, other requests' withdrawals included, is covered. *)

From Stdlib Require Import ZArith Lia.
From stdpp Require Import base option list numbers strings gmap.
From S2P Require Import Prelude PyFloat PyWorld LabConfig LabMetrics TokenBucket LabDeadline.

Open Scope Z_scope.

(** ** Definitions *)

Module RetryBudget.

(** The state is [self.tokens]. *)
Definition init : float := Fin 0.
Definition capacity : Z := 100.

Definition ratio (c : values) : float := fdivc (cfg_float "RETRY_BUDGET_PCT" c) 100.

Definition deposit (c : values) (tokens : float) : float :=
  if (ratio c <=? Fin 0)%F then tokens
  else bucket_add (of_Z capacity) tokens (ratio c).

Definition withdraw (c : values) (tokens : float) (cnt : Counters.t)
  : bool * float * Counters.t :=
  if (cfg_float "RETRY_BUDGET_PCT" c <=? Fin 0)%F then (true, tokens, cnt)
  else
    match bucket_take tokens with
    | (true, tokens') => (true, tokens', cnt)
    | (false, tokens') => (false, tokens', Counters.inc "retry_denied" cnt)
    end.

Definition level (tokens : float) : float := round2 tokens.

End RetryBudget.

(** [float(RETRY_BASE_MS) * (2 ** max(0, attempt - 1))], drawn from under
    [full] jitter. *)
Definition backoff_base (c : values) (attempt : Z) : float :=
  (of_Z (cfg_int "RETRY_BASE_MS" c) * of_Z (2 ^ Z.max 0 (attempt - 1)))%F.

Definition backoff_ms (c : values) (attempt : Z) (w : World) : float * World :=
  if bool_decide (cfg_str "RETRY_JITTER" c = "full")
  then uniform (Fin 0) (backoff_base c attempt) w
  else (backoff_base c attempt, w).

(** What can leave [with_retries] as an exception. *)
Inductive lab_exn : Type :=
| IntError (e : int_error)
| AssertionError
| Raised (name : string).

Record RState (X : Type) : Type := mkR {
  tokens : float;
  cnt : Counters.t;
  world : World;
  ext : X;
}.
Arguments mkR {X} tokens cnt world ext.
Arguments tokens {X} r.
Arguments cnt {X} r.
Arguments world {X} r.
Arguments ext {X} r.

Section WithRetries.
Context {X T : Type} (c : values).

(** [budget.withdraw()], [budget.deposit()], [counters.inc] on the state. *)
Definition withdraw : ST (RState X) lab_exn bool := fun s =>
  let '(ok, t, k) := RetryBudget.withdraw c (tokens s) (cnt s) in
  (Ok ok, mkR t k (world s) (ext s)).

Definition deposit : ST (RState X) lab_exn unit :=
  modify (fun s => mkR (RetryBudget.deposit c (tokens s)) (cnt s) (world s) (ext s)).

Definition count (name : string) : ST (RState X) lab_exn unit :=
  modify (fun s => mkR (tokens s) (Counters.inc name (cnt s)) (world s) (ext s)).

Definition read_now : ST (RState X) lab_exn float := fun s =>
  let '(t, w) := read_clock (world s) in
  (Ok (now_ms t), mkR (tokens s) (cnt s) w (ext s)).

Definition draw_backoff (attempt : Z) : ST (RState X) lab_exn float := fun s =>
  let '(d, w) := backoff_ms c attempt (world s) in (Ok d, mkR (tokens s) (cnt s) w (ext s)).

(** [outbound_timeout_ms(deadline_ms)] with the clock reading it makes. *)
Definition timeout_for (deadline : option float) : ST (RState X) lab_exn Z :=
  now ← match deadline with
        | Some _ => if cfg_bool "PROPAGATE_DEADLINE" c then read_now else mret (Fin 0)
        | None => mret (Fin 0)
        end;
  match outbound_timeout_ms c deadline now with
  | Ok z => mret z
  | Err e => raise (IntError e)
  end.

(** [left is not None and PROPAGATE_DEADLINE and left <= delay * 1000.0]. *)
Definition too_late (deadline : option float) (delay : float) : ST (RState X) lab_exn bool :=
  match deadline with
  | None => mret false
  | Some _ =>
      now ← read_now;
      match remaining_ms deadline now with
      | Some l => mret (cfg_bool "PROPAGATE_DEADLINE" c && (l <=? delay * of_Z 1000)%F)
      | None => mret false
      end
  end.

(** [assert result is not None; return result]. *)
Definition give (result : option T) : ST (RState X) lab_exn T :=
  match result with Some r => mret r | None => raise AssertionError end.

Context (attempt_fn : Z -> float -> ST (RState X) lab_exn T).
Context (sleep : float -> ST (RState X) lab_exn unit).
Context (is_retryable : T -> bool).

(** The loop with [n] iterations left; [attempt] is the next one's number. *)
Fixpoint attempt_loop (n : nat) (attempt attempts : Z) (deadline : option float)
    (result : option T) : ST (RState X) lab_exn T :=
  match n with
  | O => give result
  | S n' =>
      allowed ← (if 1 <? attempt then withdraw else mret true);
      if negb (allowed : bool) then give result
      else
        _ ← (if 1 <? attempt then count "retries" else mret tt);
        timeout ← timeout_for deadline;
        r ← attempt_fn attempt (of_Z timeout);
        if negb (is_retryable r) then _ ← deposit; mret r
        else if attempt =? attempts then give (Some r)
        else
          d ← draw_backoff attempt;
          let delay := fdivc d 1000 in
          late ← too_late deadline delay;
          if (late : bool) then give (Some r)
          else _ ← sleep delay; attempt_loop n' (attempt + 1) attempts deadline (Some r)
  end.

Definition attempts_of : Z := Z.max 1 (cfg_int "RETRY_ATTEMPTS" c).

Definition with_retries (deadline : option float) : ST (RState X) lab_exn T :=
  attempt_loop (Z.to_nat attempts_of) 1 attempts_of deadline None.

End WithRetries.

(** ** A chain of hops

    The three hops of the lab, gateway, service_b and service_c, run the same
    handler: a hop calls the next one under [with_retries], and the last one
    does the work.  [hops] holds their configurations, outermost first; the leaf
    answers its [i]-th request with status [answer i]; [see n s] is the status
    hop [n] makes of an attempt the next hop answered with [s], a 504 when the
    call timed out.  An exception of the next hop's handler reaches this one as a
    500, as [run_handler] makes it. *)

(** [_retryable]: 5xx and timeouts. *)
Definition _retryable (status : Z) : bool := 500 <=? status.

Fixpoint chain_state (hops : list values) : Type :=
  match hops with
  | [] => nat
  | _ :: hops' => RState (chain_state hops')
  end.

Section Chain.
Context (answer : nat -> Z) (see : nat -> Z -> Z) (deadline : nat -> option float).

(** The requests the leaf has received. *)
Fixpoint leaf_calls {hops : list values} : chain_state hops -> nat :=
  match hops with
  | [] => fun n => n
  | _ :: hops' => fun s => @leaf_calls hops' (ext s)
  end.

Definition inner {X : Type} (call : ST X lab_exn Z) (seen : Z -> Z)
    (_ : Z) (_ : float) : ST (RState X) lab_exn Z := fun s =>
  let '(r, x) := call (ext s) in
  (Ok (seen (match r with Ok st => st | Err _ => 500 end)), mkR (tokens s) (cnt s) (world s) x).

Fixpoint chain (hops : list values) : ST (chain_state hops) lab_exn Z :=
  match hops with
  | [] => fun n => (Ok (answer n), S n)
  | c :: hops' =>
      with_retries c (inner (chain hops') (see (length hops')))
        (fun _ => mret tt) _retryable (deadline (length hops'))
  end.

End Chain.

(** ** Lemmas *)

Section Lemmas.
Context {X T : Type} (c : values).
Implicit Types s : RState X.

Lemma withdraw_frame (P : RState X -> Prop) :
  (forall s t k, P s -> P (mkR t k (world s) (ext s))) ->
  hoare P (withdraw c) (fun _ => P).
Proof.
  intros HP s H. unfold withdraw.
  destruct (RetryBudget.withdraw c (tokens s) (cnt s)) as [[ok t] k]. by apply HP.
Qed.

Lemma timeout_frame (P : RState X -> Prop) (d : option float) :
  (forall s w, P s -> P (mkR (tokens s) (cnt s) w (ext s))) ->
  hoare P (timeout_for c d) (fun _ => P).
Proof.
  intros HP s H. unfold timeout_for, mbind, ST_bind, read_now.
  destruct d as [d|], (cfg_bool "PROPAGATE_DEADLINE" c); simpl;
    destruct (outbound_timeout_ms _ _ _); simpl; auto.
Qed.

Lemma too_late_frame (P : RState X -> Prop) (d : option float) (delay : float) :
  (forall s w, P s -> P (mkR (tokens s) (cnt s) w (ext s))) ->
  hoare P (too_late c d delay) (fun _ => P).
Proof.
  intros HP s H. unfold too_late, mbind, ST_bind, read_now.
  destruct d as [d|]; simpl; auto.
Qed.

Lemma draw_frame (P : RState X -> Prop) (a : Z) :
  (forall s w, P s -> P (mkR (tokens s) (cnt s) w (ext s))) ->
  hoare P (draw_backoff c a) (fun _ => P).
Proof.
  intros HP s H. unfold draw_backoff.
  destruct (backoff_ms c a (world s)) as [d w]. by apply HP.
Qed.

Lemma count_frame (P : RState X -> Prop) (name : string) :
  (forall s k, P s -> P (mkR (tokens s) k (world s) (ext s))) ->
  hoare P (count name) (fun _ => P).
Proof. intros HP s H. simpl. auto. Qed.

Lemma give_frame (P Q : RState X -> Prop) (r : option T) :
  (forall s, P s -> Q s) -> hoare P (give r) (fun _ => Q).
Proof. intros HQ s H. destruct r; by apply HQ. Qed.

Context (attempt_fn : Z -> float -> ST (RState X) lab_exn T).
Context (sleep : float -> ST (RState X) lab_exn unit) (is_retryable : T -> bool).

(** Each iteration adds at most [k] to a measure of the rest of the world. *)
Lemma loop_measure (m : X -> nat) (k : nat) :
  (forall a t B, hoare (fun s => (m (ext s) <= B)%nat) (attempt_fn a t)
                   (fun _ s => (m (ext s) <= B + k)%nat)) ->
  (forall d B, hoare (fun s => (m (ext s) <= B)%nat) (sleep d)
                 (fun _ s => (m (ext s) <= B)%nat)) ->
  forall n a n' d r B,
    hoare (fun s => (m (ext s) <= B)%nat)
      (attempt_loop c attempt_fn sleep is_retryable n a n' d r)
      (fun _ s => (m (ext s) <= B + n * k)%nat).
Proof.
  intros Ha Hs. induction n as [|n IH]; intros a n' d r B; simpl.
  { apply give_frame. simpl; lia. }
  assert (Hg : forall r0 B', (B' <= B + (k + n * k))%nat ->
    hoare (fun s => (m (ext s) <= B')%nat) (give r0)
      (fun (_ : res lab_exn T) s => (m (ext s) <= B + (k + n * k))%nat)).
  { intros r0 B' HB. apply give_frame. simpl; lia. }
  apply hoare_frame_bind; [destruct (1 <? a); [by apply withdraw_frame|by apply hoare_ret]
                          |simpl; lia|].
  intros [|]; cbn [negb]; [|apply Hg; lia].
  apply hoare_frame_bind; [destruct (1 <? a); [by apply count_frame|by apply hoare_ret]
                          |simpl; lia|intros _].
  apply hoare_frame_bind; [by apply timeout_frame|simpl; lia|intros t].
  eapply hoare_bind with (R := fun _ s => (m (ext s) <= B + k)%nat).
  { eapply hoare_conseq; [apply (Ha a (of_Z t) B)|done|]. intros [?|?] s H; simpl in *; lia. }
  intros x. destruct (is_retryable x); cbn [negb].
  2:{ apply hoare_frame_bind; [by apply hoare_modify|simpl; lia|]. intros _.
      apply hoare_ret. lia. }
  destruct (a =? n'); [apply hoare_ret; lia|].
  apply hoare_frame_bind; [by apply draw_frame|simpl; lia|intros dl].
  apply hoare_frame_bind; [by apply too_late_frame|simpl; lia|intros [|]];
    [apply hoare_ret; lia|].
  apply hoare_frame_bind; [apply (Hs _ (B + k)%nat)|simpl; lia|intros _].
  eapply hoare_conseq; [apply (IH _ _ _ _ (B + k)%nat)|done|]. intros r0 s H. simpl in *. lia.
Qed.

(** With the budget off and no deadline to obey, a loop whose every attempt is
    retryable makes all its attempts. *)
Lemma loop_exact (m : X -> nat) (k : nat) :
  fleb (cfg_float "RETRY_BUDGET_PCT" c) (Fin 0) = true ->
  cfg_bool "PROPAGATE_DEADLINE" c = false ->
  (forall a t B, hoare (fun s => m (ext s) = B) (attempt_fn a t)
     (fun r s => exists x, r = Ok x /\ is_retryable x = true /\ m (ext s) = (B + k)%nat)) ->
  (forall d B, hoare (fun s => m (ext s) = B) (sleep d)
     (fun r s => r = Ok tt /\ m (ext s) = B)) ->
  forall n a n' d r B, (0 < n)%nat -> n' = a + Z.of_nat n - 1 ->
    hoare (fun s => m (ext s) = B) (attempt_loop c attempt_fn sleep is_retryable n a n' d r)
      (fun r s => exists x, r = Ok x /\ is_retryable x = true /\ m (ext s) = (B + n * k)%nat).
Proof.
  intros Hb Hp Ha Hs. induction n as [|n IH]; intros a n' d r B Hn ->; [lia|].
  cbn [attempt_loop]. apply hoare_bind with (R := fun ok s => ok = true /\ m (ext s) = B).
  { intros s H. destruct (1 <? a); [|done].
    unfold withdraw, RetryBudget.withdraw. by rewrite Hb. }
  intros ok. apply hoare_and_pure. intros ->. cbn [negb].
  apply hoare_bind with (R := fun _ s => m (ext s) = B).
  { destruct (1 <? a); [by apply hoare_modify|by apply hoare_ret]. }
  intros _. apply hoare_bind with (R := fun _ s => m (ext s) = B).
  { intros s H. unfold timeout_for, outbound_timeout_ms, mbind, ST_bind.
    rewrite Hp. by destruct d. }
  intros t. apply hoare_bind with (R := fun x s => is_retryable x = true /\ m (ext s) = (B + k)%nat).
  { intros s H. specialize (Ha a (of_Z t) B s H).
    destruct (attempt_fn a (of_Z t) s). by destruct Ha as (x & -> & ?). }
  intros x. apply hoare_and_pure. intros Hx. rewrite Hx. cbn [negb].
  destruct (a =? a + Z.of_nat (S n) - 1) eqn:E; to_props.
  { apply hoare_ret. intros s H. exists x. split; [done|]. split; [done|].
    assert (n = O) as -> by lia. lia. }
  apply hoare_bind with (R := fun _ s => m (ext s) = (B + k)%nat).
  { intros s H. unfold draw_backoff. by destruct (backoff_ms c a (world s)). }
  intros dl. apply hoare_bind with (R := fun late s => late = false /\ m (ext s) = (B + k)%nat).
  { intros s H. unfold too_late, mbind, ST_bind, read_now. by destruct d; simpl; rewrite ?Hp. }
  intros late. apply hoare_and_pure. intros ->.
  apply hoare_bind with (R := fun _ s => m (ext s) = (B + k)%nat).
  { intros s H. specialize (Hs (fdivc dl 1000) _ s H). destruct (sleep _ s). by destruct Hs as [-> ?]. }
  intros _. eapply hoare_conseq; [apply (IH _ _ _ _ (B + k)%nat); lia|done|].
  intros r0 s (y & ? & ? & Hy). exists y. split; [done|]. split; [done|]. simpl. lia.
Qed.

(** The tokens are in range, and calls and tokens together weigh at most [B]. *)
Definition funded (m : X -> nat) (B : Z) (s : RState X) : Prop :=
  exists t, tokens s = Fin t /\ wf (Fin t) /\ 0 <= t <= RetryBudget.capacity * unit_k /\
            Z.of_nat (m (ext s)) * unit_k + t <= B.

Lemma funded_mono (m : X -> nat) (B B' : Z) (s : RState X) :
  B <= B' -> funded m B s -> funded m B' s.
Proof.
  intros H (t & ? & ? & ? & ?). exists t. split; [assumption|]. split; [assumption|].
  split; [assumption|lia].
Qed.

Lemma withdraw_funded (m : X -> nat) (B : Z) :
  fleb (cfg_float "RETRY_BUDGET_PCT" c) (Fin 0) = false ->
  hoare (funded m B) (withdraw c)
    (fun r s => exists ok, r = Ok ok /\ funded m (if ok then B - unit_k else B) s).
Proof.
  intros Hp s (t & Ht & Hw & Hr & HB). unfold withdraw, RetryBudget.withdraw. rewrite Hp, Ht.
  destruct (bucket_take_step RetryBudget.capacity t)
    as (t' & E & Hw' & Hr' & Et); [unfold RetryBudget.capacity; lia|assumption..|].
  rewrite E. destruct (unit_k <=? t) eqn:El; eexists; (split; [reflexivity|]);
    exists t'; cbn [tokens ext]; (split; [reflexivity|]); (split; [assumption|]); lia.
Qed.

(** During an outage only the first attempt of a call weighs anything: the others
    are paid with tokens. *)
Lemma loop_funded (m : X -> nat) :
  fleb (cfg_float "RETRY_BUDGET_PCT" c) (Fin 0) = false ->
  (forall a t B, hoare (funded m B) (attempt_fn a t)
     (fun r s => funded m (B + unit_k) s /\ forall x, r = Ok x -> is_retryable x = true)) ->
  (forall d B, hoare (funded m B) (sleep d) (fun _ => funded m B)) ->
  forall n a n' d r B, 1 <= a ->
    hoare (funded m B) (attempt_loop c attempt_fn sleep is_retryable n a n' d r)
      (fun _ => funded m (if 1 <? a then B else B + unit_k)).
Proof.
  intros Hp Ha Hs. pose proof unit_k_pos as Hu.
  induction n as [|n IH]; intros a n' d r B H1; cbn [attempt_loop].
  { apply give_frame. intros s. apply funded_mono. destruct (1 <? a); lia. }
  set (Q := if 1 <? a then B else B + unit_k). set (B0 := if 1 <? a then B - unit_k else B).
  assert (HQ : B0 + unit_k = Q) by (unfold B0, Q; destruct (1 <? a); lia).
  apply hoare_bind with (R := fun ok : bool => funded m (if ok then B0 else Q)).
  { unfold B0, Q. destruct (1 <? a); [|by apply hoare_ret].
    eapply hoare_conseq; [apply (withdraw_funded m B Hp)|done|].
    intros r0 s (ok & -> & H). by destruct ok. }
  intros [|]; cbn [negb]; [|by apply give_frame].
  assert (Hle : forall s, funded m B0 s -> funded m Q s) by (intros s; apply funded_mono; lia).
  apply hoare_frame_bind; [destruct (1 <? a); [by apply hoare_modify|by apply hoare_ret]
                          |intros _; apply Hle|intros _].
  apply hoare_frame_bind; [by apply timeout_frame|intros _; apply Hle|intros t].
  apply hoare_bind with (R := fun x s => is_retryable x = true /\ funded m Q s).
  { eapply hoare_conseq; [apply (Ha a (of_Z t) B0)|done|]. rewrite HQ.
    intros [x|e] s [H Hx]; [split; [by apply Hx|]|]; done. }
  intros x. apply hoare_and_pure. intros ->. cbn [negb].
  destruct (a =? n'); [by apply hoare_ret|].
  apply hoare_frame_bind; [by apply draw_frame|done|intros dl].
  apply hoare_frame_bind; [by apply too_late_frame|done|intros [|]]; [by apply hoare_ret|].
  apply hoare_frame_bind; [apply (Hs _ Q)|done|intros _].
  specialize (IH (a + 1) n' d (Some x) Q ltac:(lia)).
  by replace (1 <? a + 1) with true in IH by (symmetry; apply Z.ltb_lt; lia).
Qed.
End Lemmas.

(** ** Properties *)

Inductive budget_op : Type := Deposit | Withdraw.

(** Run a sequence of budget operations; the number of retries granted. *)
Fixpoint budget_run (c : values) (ops : list budget_op) (t : float) (k : Counters.t)
  : nat * float * Counters.t :=
  match ops with
  | [] => (O, t, k)
  | Deposit :: ops' => budget_run c ops' (RetryBudget.deposit c t) k
  | Withdraw :: ops' =>
      let '(ok, t', k') := RetryBudget.withdraw c t k in
      let '(n, t'', k'') := budget_run c ops' t' k' in
      (if ok then S n else n, t'', k'')
  end.

Definition is_deposit (o : budget_op) : bool := match o with Deposit => true | _ => false end.
Definition deposits (ops : list budget_op) : Z := Z.of_nat (length (List.filter is_deposit ops)).

(** Retries add at most the configured share to the load: however deposits and
    withdrawals interleave, the tokens stay between 0 and 100, and the retries
    granted never exceed the tokens at the start plus [ratio] per deposit (with
    the rounding of a deposit, at most 2^-47, counted).  With no success to
    deposit, at most 100 retries are granted in all.  Every refusal is counted in
    [retry_denied]. *)
Theorem retry_budget_bounds_load (c : values) (ops : list budget_op) (t0 r : Z)
    (k : Counters.t) :
  fleb (cfg_float "RETRY_BUDGET_PCT" c) (Fin 0) = false ->
  RetryBudget.ratio c = Fin r -> 0 < r ->
  wf (Fin t0) -> 0 <= t0 <= RetryBudget.capacity * unit_k ->
  let '(granted, t', k') := budget_run c ops (Fin t0) k in
  bucket_ok RetryBudget.capacity t' /\
  Z.of_nat granted * unit_k <= t0 + deposits ops * (r + slop) /\
  Counters.read "retry_denied" k' =
    Counters.read "retry_denied" k + (Z.of_nat (length ops) - deposits ops - Z.of_nat granted).
Proof.
  intros Hp Hr Hr0 Hw Ht.
  enough (G : let '(granted, t', k') := budget_run c ops (Fin t0) k in
    exists u, t' = Fin u /\ wf (Fin u) /\ 0 <= u <= RetryBudget.capacity * unit_k /\
    Z.of_nat granted * unit_k + u <= t0 + deposits ops * (r + slop) /\
    Counters.read "retry_denied" k' =
      Counters.read "retry_denied" k +
        (Z.of_nat (length ops) - deposits ops - Z.of_nat granted)).
  { destruct (budget_run c ops (Fin t0) k) as [[g t'] k'].
    destruct G as (u & -> & Hwu & Hu & Hg & Hk). split; [|split; [lia|exact Hk]].
    exists u. split; [reflexivity|split; assumption]. }
  revert t0 k Hw Ht. unfold deposits.
  induction ops as [|[|] ops IH]; intros t0 k Hw Ht; cbn [budget_run List.filter is_deposit].
  - exists t0. split; [reflexivity|]. split; [assumption|]. split; [assumption|]. simpl. lia.
  - unfold RetryBudget.deposit. rewrite Hr.
    rewrite fleb_Fin. replace (r <=? 0) with false by (symmetry; apply Z.leb_gt; lia).
    destruct (bucket_add_step RetryBudget.capacity t0 r) as (t1 & E & Hw1 & Ht1 & Hle);
      [unfold RetryBudget.capacity; lia|assumption..|].
    rewrite E. specialize (IH t1 k Hw1 Ht1). destruct (budget_run c ops (Fin t1) k) as [[g t'] k'].
    destruct IH as (u & -> & Hwu & Hu & Hg & Hk). exists u.
    split; [reflexivity|]. split; [assumption|]. split; [assumption|].
    cbn [length]. split; [nia|]. rewrite Hk. lia.
  - unfold RetryBudget.withdraw. rewrite Hp.
    destruct (bucket_take_step RetryBudget.capacity t0) as (t1 & E & Hw1 & Ht1 & Et);
      [unfold RetryBudget.capacity; lia|assumption..|].
    rewrite E. destruct (unit_k <=? t0) eqn:El.
    + specialize (IH t1 k Hw1 Ht1). destruct (budget_run c ops (Fin t1) k) as [[g t'] k'].
      destruct IH as (u & -> & Hwu & Hu & Hg & Hk). exists u.
      split; [reflexivity|]. split; [assumption|]. split; [assumption|].
      cbn [length]. split; [lia|]. rewrite Hk. lia.
    + specialize (IH t1 (Counters.inc "retry_denied" k) Hw1 Ht1).
      destruct (budget_run c ops (Fin t1) _) as [[g t'] k'].
      destruct IH as (u & -> & Hwu & Hu & Hg & Hk). exists u.
      split; [reflexivity|]. split; [assumption|]. split; [assumption|].
      cbn [length]. split; [lia|]. rewrite Hk, Counters.read_inc, decide_True by reflexivity. lia.
Qed.

Definition budget_config : values :=
  list_to_map [("RETRY_BUDGET_PCT", CFloat (of_Z 50)); ("RETRY_ATTEMPTS", CInt 3);
               ("RETRY_JITTER", CStr "none"); ("RETRY_BASE_MS", CInt 50);
               ("PROPAGATE_DEADLINE", CBool false); ("CLIENT_TIMEOUT_MS", CInt 500)].

Lemma retry_budget_bounds_load_witness :
  let '(granted, t', k') :=
    budget_run budget_config [Deposit; Withdraw; Deposit; Withdraw; Withdraw] (Fin 0)
      (Counters.init (Fin 0)) in
  Z.of_nat granted * unit_k <= 2 * (2 ^ 1073 + slop).
Proof.
  pose proof (retry_budget_bounds_load budget_config
    [Deposit; Withdraw; Deposit; Withdraw; Withdraw] 0 (2 ^ 1073) (Counters.init (Fin 0))) as T.
  destruct (budget_run _ _ _ _) as [[g t'] k'].
  apply T; [vm_compute; reflexivity|vm_compute; reflexivity
           |lia|apply wf_0|unfold RetryBudget.capacity; pose proof unit_k_pos; lia].
Defined.

(** The product of the hops' attempts: what one request at the edge can become
    at the leaf. *)
Definition amplification (hops : list values) : nat :=
  foldr (fun c n => Z.to_nat (attempts_of c) * n)%nat 1%nat hops.

(** No budget and no deadline to obey. *)
Definition naive_hop (c : values) : Prop :=
  fleb (cfg_float "RETRY_BUDGET_PCT" c) (Fin 0) = true /\
  cfg_bool "PROPAGATE_DEADLINE" c = false.

Lemma chain_at_most (answer : nat -> Z) (see : nat -> Z -> Z) (deadline : nat -> option float)
    (hops : list values) (B : nat) :
  hoare (fun s => (@leaf_calls hops s <= B)%nat) (chain answer see deadline hops)
    (fun _ s => (@leaf_calls hops s <= B + amplification hops)%nat).
Proof.
  revert B. induction hops as [|c hops IH]; intros B.
  { intros s H. simpl in *. lia. }
  change (chain answer see deadline (c :: hops)) with
    (with_retries c (inner (chain answer see deadline hops) (see (length hops)))
       (fun _ => mret tt) _retryable (deadline (length hops))).
  eapply hoare_conseq;
    [apply (loop_measure c _ _ _ (@leaf_calls hops) (amplification hops)) with (B := B)|done|].
  - intros a t B' s H. unfold inner. specialize (IH B' (ext s) H).
    by destruct (chain answer see deadline hops (ext s)).
  - by intros d B' s H.
  - intros r s H. exact H.
Qed.

Lemma chain_exactly (answer : nat -> Z) (see : nat -> Z -> Z) (deadline : nat -> option float)
    (hops : list values) (B : nat) :
  (forall n, 500 <= answer n) -> (forall n st, 500 <= st -> 500 <= see n st) ->
  Forall naive_hop hops ->
  hoare (fun s => @leaf_calls hops s = B) (chain answer see deadline hops)
    (fun r s => exists st, r = Ok st /\ _retryable st = true /\
                           @leaf_calls hops s = (B + amplification hops)%nat).
Proof.
  intros Hans Hsee. revert B. induction hops as [|c hops IH]; intros B Hn.
  { intros s H. exists (answer s). simpl in *. split; [done|]. split; [|lia].
    apply Z.leb_le, Hans. }
  apply Forall_cons in Hn as [[Hb Hp] Hn].
  change (chain answer see deadline (c :: hops)) with
    (with_retries c (inner (chain answer see deadline hops) (see (length hops)))
       (fun _ => mret tt) _retryable (deadline (length hops))).
  eapply hoare_conseq;
    [apply (loop_exact c _ _ _ (@leaf_calls hops) (amplification hops) Hb Hp) with (B := B)|done|].
  - intros a t B' s H. unfold inner. specialize (IH B' Hn (ext s) H).
    destruct (chain answer see deadline hops (ext s)) as [r x].
    destruct IH as (st & -> & Hst & Hx). eexists. split; [done|]. split; [|done].
    apply Z.leb_le, Hsee. by apply Z.leb_le in Hst.
  - by intros d B' s H.
  - unfold attempts_of. lia.
  - unfold attempts_of. lia.
  - intros r s H. exact H.
Qed.

(** C8: Retries at every hop multiply.  One request at the edge of a chain makes the
    leaf serve at most the product of the hops' attempts, whatever the leaf
    answers, whatever the calls see and whatever the budgets hold; and exactly
    that many when the leaf keeps failing and no hop has a budget or a deadline to
    obey. *)
Theorem retry_amplification (answer : nat -> Z) (see : nat -> Z -> Z)
    (deadline : nat -> option float) (hops : list values) (s : chain_state hops) :
  let s' := (chain answer see deadline hops s).2 in
  (leaf_calls s' <= leaf_calls s + amplification hops)%nat /\
  ((forall n, 500 <= answer n) -> (forall n st, 500 <= st -> 500 <= see n st) ->
   Forall naive_hop hops ->
   leaf_calls s' = (leaf_calls s + amplification hops)%nat).
Proof.
  cbn zeta. split.
  - pose proof (chain_at_most answer see deadline hops (leaf_calls s) s (le_n _)) as H.
    by destruct (chain answer see deadline hops s).
  - intros Ha Hs Hn.
    pose proof (chain_exactly answer see deadline hops (leaf_calls s) Ha Hs Hn s eq_refl) as H.
    destruct (chain answer see deadline hops s). by destruct H as (? & _ & _ & ?).
Qed.

(** The documented storm: three hops of three attempts, 27 requests at the leaf. *)
Definition naive_config : values :=
  list_to_map [("RETRY_ATTEMPTS", CInt 3); ("RETRY_BUDGET_PCT", CFloat (Fin 0));
               ("RETRY_JITTER", CStr "none"); ("RETRY_BASE_MS", CInt 50);
               ("PROPAGATE_DEADLINE", CBool false); ("CLIENT_TIMEOUT_MS", CInt 500)].

Definition quiet_world : World := mkWorld (fun _ => Fin 0) 0 (fun _ => Fin 0) 0.

Definition edge_state : chain_state [naive_config; naive_config; naive_config] :=
  let k := Counters.init (Fin 0) in
  mkR (Fin 0) k quiet_world (mkR (Fin 0) k quiet_world (mkR (Fin 0) k quiet_world 0%nat)).

Lemma retry_amplification_witness :
  leaf_calls (chain (fun _ => 503) (fun _ st => st) (fun _ => None)
    [naive_config; naive_config; naive_config] edge_state).2 = 27%nat.
Proof.
  destruct (retry_amplification (fun _ => 503) (fun _ st => st) (fun _ => None)
    [naive_config; naive_config; naive_config] edge_state) as [_ H].
  rewrite H; [reflexivity|lia|intros; assumption|].
  repeat constructor; vm_compute; reflexivity.
Defined.

(** [n] calls one after the other. *)
Fixpoint calls_made {X T : Type} (n : nat) (call : ST (RState X) lab_exn T) (s : RState X)
  : RState X :=
  match n with O => s | S n' => calls_made n' call (call s).2 end.

(** Retries stop by themselves.  With a budget on, while every attempt fails, [n]
    calls make at most [n] attempts plus one for each token in the bucket, so at
    most [n + 100], however many attempts each of them is allowed. *)
Theorem outage_drains_budget {X T : Type} (c : values) (m : X -> nat)
    (attempt_fn : Z -> float -> ST (RState X) lab_exn T)
    (sleep : float -> ST (RState X) lab_exn unit) (is_retryable : T -> bool)
    (deadline : option float) (n : nat) (s : RState X) :
  fleb (cfg_float "RETRY_BUDGET_PCT" c) (Fin 0) = false ->
  (forall a t s0, let '(r, s1) := attempt_fn a t s0 in
     tokens s1 = tokens s0 /\ m (ext s1) = S (m (ext s0)) /\
     forall x, r = Ok x -> is_retryable x = true) ->
  (forall d s0, tokens (sleep d s0).2 = tokens s0 /\ m (ext (sleep d s0).2) = m (ext s0)) ->
  bucket_ok RetryBudget.capacity (tokens s) ->
  let s' := calls_made n (with_retries c attempt_fn sleep is_retryable deadline) s in
  bucket_ok RetryBudget.capacity (tokens s') /\
  (m (ext s') <= m (ext s) + n + 100)%nat.
Proof.
  intros Hp Ha Hs (t & Ht & Hw & Hr). pose proof unit_k_pos as Hu.
  enough (G : forall n s B, funded m B s ->
    funded m (B + Z.of_nat n * unit_k)
      (calls_made n (with_retries c attempt_fn sleep is_retryable deadline) s)).
  { destruct (G n s (Z.of_nat (m (ext s)) * unit_k + t)) as (t' & Ht' & Hw' & Hr' & HB).
    - exists t. split; [assumption|]. split; [assumption|]. split; [assumption|lia].
    - cbn zeta. split; [exists t'; split; [assumption|split; assumption]|].
      unfold RetryBudget.capacity in *. nia. }
  clear t Ht Hw Hr n s. induction n as [|n IH]; intros s B HB; cbn [calls_made].
  { replace (B + _) with B by lia. exact HB. }
  replace (B + Z.of_nat (S n) * unit_k) with (B + unit_k + Z.of_nat n * unit_k) by lia.
  apply IH.
  assert (H : hoare (funded m B) (with_retries c attempt_fn sleep is_retryable deadline)
                (fun _ => funded m (B + unit_k))).
  { apply (loop_funded c attempt_fn sleep is_retryable m Hp); [| |lia].
    - intros a t B' s0 (u & H1 & H2 & H3 & H4). specialize (Ha a t s0).
      destruct (attempt_fn a t s0) as [r s1]. destruct Ha as (E1 & E2 & E3).
      split; [|exact E3]. exists u. rewrite E1, E2.
      split; [assumption|]. split; [assumption|]. split; [assumption|lia].
    - intros d B' s0 (u & H1 & H2 & H3 & H4). specialize (Hs d s0).
      destruct (sleep d s0) as [r s1]. destruct Hs as [E1 E2]. simpl in E1, E2.
      exists u. rewrite E1, E2. split; [assumption|]. split; [assumption|]. split; assumption. }
  specialize (H s HB).
  by destruct (with_retries c attempt_fn sleep is_retryable deadline s).
Qed.

(** A dependency that is down: it counts the attempt and answers 503. *)
Definition down (_ : Z) (_ : float) : ST (RState nat) lab_exn Z := fun s =>
  (Ok 503, mkR (tokens s) (cnt s) (world s) (S (ext s))).

Lemma outage_drains_budget_witness :
  (ext (calls_made 50 (with_retries budget_config down (fun _ => mret tt) _retryable None)
     (mkR (Fin 0) (Counters.init (Fin 0)) quiet_world 0%nat)) <= 150)%nat.
Proof.
  apply (outage_drains_budget budget_config (fun n => n) down (fun _ => mret tt) _retryable None
           50 (mkR (Fin 0) (Counters.init (Fin 0)) quiet_world 0%nat)).
  - vm_compute; reflexivity.
  - intros a t s. cbn. split; [reflexivity|]. split; [reflexivity|]. intros x [= <-]. reflexivity.
  - intros d s. split; reflexivity.
  - apply bucket_ok_0. unfold RetryBudget.capacity. lia.
Defined.

(** Backoff doubles per attempt and jitter only shortens it: the delay of attempt
    [a] is between 0 and [RETRY_BASE_MS * 2^(a-1)], and equals that bound without
    jitter. *)
Theorem backoff_bounds (c : values) (a : Z) (w : World) :
  let b := cfg_int "RETRY_BASE_MS" c in
  fair_dice w -> 1 <= a <= 54 -> 0 <= b -> b * 2 ^ (a - 1) <= 2 ^ 53 ->
  let d := (backoff_ms c a w).1 in
  fleb (Fin 0) d = true /\ fleb d (of_Z (b * 2 ^ (a - 1))) = true /\
  (cfg_str "RETRY_JITTER" c <> "full" -> d = of_Z (b * 2 ^ (a - 1))).
Proof.
  intros b Hd Ha Hb Hmax. cbn zeta.
  assert (Hp : 1 <= 2 ^ (a - 1) <= 2 ^ 53).
  { split; [|apply Z.pow_le_mono_r; lia]. pose proof (Z.pow_pos_nonneg 2 (a - 1)). lia. }
  assert (E : backoff_base c a = of_Z (b * 2 ^ (a - 1))).
  { unfold backoff_base. rewrite Z.max_r by lia. fold b. apply of_Z_mul; nia. }
  assert (Hs : Z.abs (b * 2 ^ (a - 1)) <= 2 ^ 53) by nia.
  unfold backoff_ms. rewrite E, (of_Z_small _ Hs). pose proof unit_k_pos.
  case_bool_decide as Hj.
  - destruct (uniform_bounds (b * 2 ^ (a - 1) * unit_k) w Hd) as [H1 H2];
      [by apply of_Z_wf_small|nia|].
    split; [exact H1|]. split; [exact H2|]. done.
  - cbn [fst]. rewrite !fleb_Fin. split; [apply Z.leb_le; nia|].
    split; [apply Z.leb_le; lia|]. done.
Qed.

Lemma backoff_bounds_witness :
  (backoff_ms budget_config 3 quiet_world).1 = of_Z 200 /\
  fleb (backoff_ms budget_config 3 quiet_world).1 (of_Z (50 * 2 ^ (3 - 1))) = true.
Proof.
  destruct (backoff_bounds budget_config 3 quiet_world) as (H1 & H2 & H3).
  - intros n. exists 0. split; [reflexivity|]. pose proof unit_k_pos. lia.
  - lia.
  - vm_compute. discriminate.
  - vm_compute. discriminate.
  - split; [apply H3; vm_compute; discriminate|exact H2].
Defined.
