(* ===== verification/LabShed.v ===== *)
(** * Failure lab: admission control

    Models src/05-failure/lab/app/shed.py.  [Shedder.acquire] and [release]
    suspend at the [asyncio.Condition]; what one task does between two
    suspensions is one definition here, and [LabHandler] interleaves them. *)

From Stdlib Require Import ZArith Lia.
From stdpp Require Import base option list numbers strings gmap.
From S2P Require Import Prelude PyFloat PyWorld LabConfig LabMetrics LabDeadline.

Open Scope Z_scope.

(** ** Definitions *)

(** [TIER_FRACTION], and the index [min(max(tier, 0), 3)] into it. *)
Definition TIER_FRACTION : list float := [of_Z 1; lit 3 4; lit 1 2; lit 1 4].

Definition tier_fraction (tier : Z) : float :=
  default (Fin 0) (TIER_FRACTION !! Z.to_nat (Z.min (Z.max tier 0) 3)).

Module GradientLimit.

Record t : Type := mk {
  limit : float;
  rtt_noload : option float;
  samples : Z;
}.

Definition init : t := mk (of_Z 10) None 0.
Definition min_limit : float := of_Z 1.
Definition max_limit : float := of_Z 400.
Definition smoothing : float := lit 2 10.

(** [self.rtt_noload is None or rtt_s < self.rtt_noload]. *)
Definition floor_after (rtt_s : float) (g : t) : float :=
  match rtt_noload g with
  | None => rtt_s
  | Some n => if (rtt_s <? n)%F then rtt_s else n
  end.

(** [self.rtt_noload or rtt_s]: a zero is false. *)
Definition or_rtt (n rtt_s : float) : float :=
  if decide (n = Fin 0) then rtt_s else n.

Definition gradient (noload rtt_s : float) : float :=
  fmax (lit 1 2) (fmin (of_Z 1) (default NaN (fdiv noload rtt_s))).

Definition next_limit (limit gradient : float) : float :=
  let queue := fsqrt limit in
  let new_limit := (limit * gradient + queue)%F in
  fmax min_limit
    (fmin max_limit ((of_Z 1 - smoothing) * limit + smoothing * new_limit)%F).

Definition observe (rtt_s : float) (g : t) : t :=
  if (rtt_s <=? Fin 0)%F then g
  else
    let samples' := samples g + 1 in
    let n := floor_after rtt_s g in
    let noload := or_rtt n rtt_s in
    mk (next_limit (limit g) (gradient noload rtt_s))
       (Some (if samples' mod 1000 =? 0 then (n * lit 101 100)%F else n))
       samples'.

(** [max(1, int(self.limit))]; [int] raises on what is not finite. *)
Definition current (g : t) : option Z := z ← f_int (limit g); Some (Z.max 1 z).

End GradientLimit.

Module Shedder.

Record t : Type := mk {
  inflight : Z;
  gradient : GradientLimit.t;
}.

Definition init : t := mk 0 GradientLimit.init.

Definition pool_total (c : values) : Z := cfg_int "POOL_SIZE" c + cfg_int "MAX_OVERFLOW" c.

(** [limit()]: the outer option is the exception of [current], which
    [LabShed.gradient_in_range] excludes; the inner one is the [None] of mode
    [none]. *)
Definition limit (c : values) (s : t) : option (option Z) :=
  let mode := cfg_str "SHED_MODE" c in
  if bool_decide (mode = "none") then Some None
  else if bool_decide (mode = "adaptive") then l ← GradientLimit.current (gradient s); Some (Some l)
  else
    match cfg_opt_int "SHED_LIMIT" c with
    | None => Some (Some (pool_total c))
    | Some l => Some (Some l)
    end.

(** [max(1, int(limit * frac))]. *)
Definition share (limit tier : Z) : option Z :=
  z ← f_int (of_Z limit * tier_fraction tier)%F; Some (Z.max 1 z).

Definition allowance (c : values) (tier : Z) (s : t) : option (option Z) :=
  l ← limit c s;
  match l with
  | None => Some None
  | Some l =>
      if bool_decide (cfg_str "SHED_MODE" c = "priority")
      then a ← share l tier; Some (Some a)
      else Some (Some l)
  end.

Definition admit_one (s : t) : t := mk (inflight s + 1) (gradient s).

(** Where a task is in [acquire]. *)
Inductive waiter : Type :=
| Locked (tier : Z) (allowance : Z) (deadline : float)
| Sleeping (tier : Z) (deadline : float)
| In
| Out.

Definition wait_s (c : values) : float := fdivc (of_Z (cfg_int "SHED_WAIT_MS" c)) 1000.

(** Up to [async with self._cond]. *)
Definition acquire (c : values) (tier : Z) (t0 : float) (s : t) : option (waiter * t) :=
  a ← allowance c tier s;
  match a with
  | None => Some (In, admit_one s)
  | Some a => Some (Locked tier a (t0 + wait_s c)%F, s)
  end.

(** The head of the [while], holding the lock; [now] is the clock. *)
Definition check (tier allowance : Z) (deadline now : float) (s : t) (k : Counters.t)
  : waiter * t * Counters.t :=
  if allowance <=? inflight s then
    if ((deadline - now) <=? Fin 0)%F then (Out, s, Counters.inc "shed" k)
    else (Sleeping tier deadline, s, k)
  else (In, admit_one s, k).

(** [asyncio.TimeoutError] out of the wait. *)
Definition timeout (s : t) (k : Counters.t) : waiter * t * Counters.t :=
  (Out, s, Counters.inc "shed" k).

(** Notified: the allowance is read again, and the loop goes on. *)
Definition wake (c : values) (tier : Z) (deadline now : float) (s : t) (k : Counters.t)
  : option (waiter * t * Counters.t) :=
  a ← allowance c tier s;
  match a with
  | None => Some (In, admit_one s, k)
  | Some a => Some (check tier a deadline now s k)
  end.

(** [release], in its two parts: the observation, and the critical section. *)
Definition observe_rtt (c : values) (rtt_s : float) (s : t) : t :=
  if bool_decide (cfg_str "SHED_MODE" c = "adaptive")
  then mk (inflight s) (GradientLimit.observe rtt_s (gradient s)) else s.

Definition leave (s : t) : t := mk (Z.max 0 (inflight s - 1)) (gradient s).

End Shedder.

(** ** Lemmas *)

(** [max(1.0, min(400.0, x))] is a finite float between its bounds whatever [x]
    is, [nan] and the infinities included. *)
Definition in_range (x : float) : Prop :=
  exists k, x = Fin k /\ wf (Fin k) /\ unit_k <= k <= 400 * unit_k.

Lemma clamp_range (x : float) :
  wf x -> in_range (fmax GradientLimit.min_limit (fmin GradientLimit.max_limit x)).
Proof.
  unfold GradientLimit.min_limit, GradientLimit.max_limit, fmin, fmax. intros Hx.
  rewrite !of_Z_small by lia. pose proof unit_k_pos as Hu.
  assert (Hb : forall z, 1 <= z <= 400 -> in_range (Fin (z * unit_k))).
  { intros z Hz. exists (z * unit_k). split; [reflexivity|]. split; [apply of_Z_wf_small; lia|nia]. }
  destruct (fltb x (Fin (400 * unit_k))) eqn:E1.
  - destruct (fltb (Fin (1 * unit_k)) x) eqn:E2; [|apply Hb; lia].
    destruct x as [k| | |]; simpl in E1, E2; try discriminate. to_props.
    exists k. split; [reflexivity|]. split; [exact Hx|lia].
  - destruct (fltb (Fin (1 * unit_k)) (Fin (400 * unit_k))); apply Hb; lia.
Qed.

Lemma next_limit_range (l g : float) : in_range (GradientLimit.next_limit l g).
Proof. apply clamp_range, fadd_wf. Qed.

Lemma init_range : in_range (GradientLimit.limit GradientLimit.init).
Proof.
  exists (10 * unit_k). split; [apply of_Z_small; lia|]. split; [apply of_Z_wf_small; lia|].
  pose proof unit_k_pos. lia.
Qed.

Lemma observe_range (rtt : float) (g : GradientLimit.t) :
  in_range (GradientLimit.limit g) ->
  in_range (GradientLimit.limit (GradientLimit.observe rtt g)).
Proof.
  intros H. unfold GradientLimit.observe. destruct (fleb rtt (Fin 0)); [exact H|].
  cbn [GradientLimit.limit]. apply next_limit_range.
Qed.

Lemma current_range (g : GradientLimit.t) :
  in_range (GradientLimit.limit g) ->
  exists z, GradientLimit.current g = Some z /\ 1 <= z <= 400.
Proof.
  intros (k & E & _ & Hk). unfold GradientLimit.current. rewrite E. simpl.
  pose proof unit_k_pos. eexists. split; [reflexivity|].
  rewrite Z.quot_div_nonneg by lia. split; [lia|].
  apply Z.max_lub; [lia|]. apply Z.div_le_upper_bound; lia.
Qed.

(** The tier's fraction is a multiple of a quarter, so the product is exact. *)
Definition quarters (tier : Z) : Z := 4 - Z.min (Z.max tier 0) 3.

Lemma tier_fraction_quarters (tier : Z) :
  4 * match tier_fraction tier with Fin k => k | _ => 0 end = quarters tier * unit_k /\
  exists k, tier_fraction tier = Fin k.
Proof.
  unfold tier_fraction, quarters.
  assert (H : exists i : Z, Z.min (Z.max tier 0) 3 = i /\ (i = 0 \/ i = 1 \/ i = 2 \/ i = 3))
    by (eexists; split; [reflexivity|lia]).
  destruct H as (i & -> & [->|[->|[->| ->]]]); (split; [vm_compute; reflexivity|]);
    eexists; vm_compute; reflexivity.
Qed.

Lemma share_exact (l tier : Z) :
  0 <= l <= 2 ^ 50 -> Shedder.share l tier = Some (Z.max 1 (l * quarters tier / 4)).
Proof.
  intros Hl. unfold Shedder.share. rewrite of_Z_small by lia.
  destruct (tier_fraction_quarters tier) as [H4 [k Hk]]. rewrite Hk in H4 |- *. simpl.
  assert (Hq : 1 <= quarters tier <= 4) by (unfold quarters; lia).
  pose proof unit_k_pos as Hu.
  assert (Hu4 : unit_k = 4 * 2 ^ 1072) by (rewrite unit_k_eq; reflexivity).
  assert (Hk' : k = quarters tier * 2 ^ 1072) by nia.
  replace (l * unit_k * k) with (l * quarters tier * 2 ^ 1072 * unit_k) by (rewrite Hk'; ring).
  rewrite fround_exact; [|exact Hu|apply rep_mult; nia|].
  - simpl. do 2 f_equal. rewrite Z.quot_div_nonneg by nia. rewrite Hu4.
    rewrite Z.div_mul_cancel_r by lia. reflexivity.
  - rewrite max_k_unit, Hu4. assert (2 ^ 54 < 2 ^ 1024) by (apply Z.pow_lt_mono_r; lia). nia.
Qed.

(** *** The direction of the controller *)

#[local] Arguments fsqrt : simpl never.

Lemma eps_small : 2000000 * eps < unit_k /\ 0 < eps.
Proof. split; [|unfold eps; lia]. rewrite unit_k_eq. vm_compute. reflexivity. Qed.

(** The two weights: 0.2, and the rounded 1 - 0.2. *)
Lemma weights :
  exists a8 a2, (of_Z 1 - GradientLimit.smoothing)%F = Fin a8 /\
    GradientLimit.smoothing = Fin a2 /\
    4 * unit_k - eps <= 5 * a8 <= 4 * unit_k + eps /\ unit_k - eps <= 5 * a2 <= unit_k + eps.
Proof.
  assert (G : forall x y : float,
    match x, y with
    | Fin a8, Fin a2 =>
        (4 * unit_k - eps <=? 5 * a8) && (5 * a8 <=? 4 * unit_k + eps) &&
        ((unit_k - eps <=? 5 * a2) && (5 * a2 <=? unit_k + eps))
    | _, _ => false end = true ->
    exists a8 a2, x = Fin a8 /\ y = Fin a2 /\
      4 * unit_k - eps <= 5 * a8 <= 4 * unit_k + eps /\
      unit_k - eps <= 5 * a2 <= unit_k + eps).
  { intros [a8| | |] [a2| | |] H; try discriminate. to_props. exists a8, a2.
    split; [reflexivity|]. split; [reflexivity|]. lia. }
  apply G. vm_compute. reflexivity.
Qed.

Lemma scaled_bounds (a c e l m : Z) :
  c - e <= 5 * a <= c + e -> 0 <= l <= m -> 0 <= e ->
  c * l - e * m <= 5 * (a * l) <= c * l + e * m.
Proof. intros. nia. Qed.

Lemma times_unit (x y e : Z) :
  y - e <= x <= y + e ->
  y * unit_k - e * unit_k <= x * unit_k <= y * unit_k + e * unit_k.
Proof. intros. pose proof unit_k_pos. nia. Qed.

(** The smoothed value before clamping, within errors, for a gradient of
    [g2 / 2]: [0.8 l + 0.2 (g l + sqrt l)]. *)
Lemma smoothed (l g : Z) :
  unit_k <= l <= 400 * unit_k -> 0 <= g <= unit_k ->
  exists s r, ((of_Z 1 - GradientLimit.smoothing) * Fin l +
               GradientLimit.smoothing * (Fin l * Fin g + fsqrt (Fin l)))%F = Fin s /\
    0 <= r /\ r * r <= l * unit_k < (r + 1) * (r + 1) /\
    4 * l * unit_k + l * g + r * unit_k - 3000 * eps * unit_k <= 5 * s * unit_k
      <= 4 * l * unit_k + l * g + r * unit_k + 3000 * eps * unit_k.
Proof.
  intros Hl Hg. pose proof unit_k_pos as Hu. destruct eps_small as [He He0].
  destruct weights as (a8 & a2 & E8 & E2 & H8 & H2). rewrite E8, E2.
  assert (Hlg : 0 <= l * g <= 400 * unit_k * unit_k) by nia.
  destruct (fsqrt_near l ltac:(lia)) as (q & r & -> & Hr0 & Hr & Hq0 & Hq).
  assert (Hr20 : r <= 20 * unit_k).
  { destruct (Z.le_gt_cases r (20 * unit_k)); [assumption|exfalso]. nia. }
  cbn [fmul]. destruct (fround_near (l * g) unit_k Hu) as (n & -> & Hn0 & Hn); [nia|].
  assert (Hn1 : n <= 401 * unit_k) by nia.
  cbn [fadd]. destruct (fround_near (n + q) 1 ltac:(lia)) as (w & -> & Hw0 & Hw); [lia|].
  assert (Hw1 : w <= 430 * unit_k) by lia.
  assert (Ha8 : 0 <= a8 <= unit_k) by lia. assert (Ha2 : 0 <= a2 <= unit_k) by lia.
  cbn [fmul].
  destruct (fround_near (a8 * l) unit_k Hu) as (p1 & -> & Hp10 & Hp1); [nia|].
  destruct (fround_near (a2 * w) unit_k Hu) as (p2 & -> & Hp20 & Hp2); [nia|].
  assert (Hp11 : p1 <= 401 * unit_k) by nia. assert (Hp21 : p2 <= 431 * unit_k) by nia.
  cbn [fadd]. destruct (fround_near (p1 + p2) 1 ltac:(lia)) as (s & -> & Hs0 & Hs); [lia|].
  exists s, r. split; [reflexivity|]. split; [exact Hr0|]. split; [exact Hr|].
  pose proof (scaled_bounds a8 (4 * unit_k) eps l (400 * unit_k) ltac:(lia) ltac:(lia) ltac:(lia)).
  pose proof (scaled_bounds a2 unit_k eps w (430 * unit_k) ltac:(lia) ltac:(lia) ltac:(lia)).
  pose proof (times_unit s (p1 + p2) eps ltac:(lia)).
  pose proof (times_unit w (n + q) eps ltac:(lia)).
  pose proof (times_unit q r (1 + eps) ltac:(lia)).
  pose proof (Z.mul_le_mono_nonneg_r 1 eps unit_k ltac:(lia) ltac:(lia)).
  clear Hr Hq0 Hr20 He. lia.
Qed.

(** The clamp lets through what is in its range. *)
Lemma clamp_cases (s : Z) :
  fmax GradientLimit.min_limit (fmin GradientLimit.max_limit (Fin s)) =
    Fin (Z.max unit_k (Z.min (400 * unit_k) s)).
Proof.
  unfold GradientLimit.min_limit, GradientLimit.max_limit, fmin, fmax.
  rewrite !of_Z_small by lia. rewrite Z.mul_1_l. pose proof unit_k_pos. cbn [fltb].
  destruct (s <? 400 * unit_k) eqn:E1; cbn [fltb].
  - destruct (unit_k <? s) eqn:E2; to_props; f_equal; lia.
  - destruct (unit_k <? 400 * unit_k) eqn:E2; to_props; f_equal; lia.
Qed.

Lemma next_limit_eq (l g : Z) :
  unit_k <= l <= 400 * unit_k -> 0 <= g <= unit_k ->
  exists s r, GradientLimit.next_limit (Fin l) (Fin g) =
      Fin (Z.max unit_k (Z.min (400 * unit_k) s)) /\
    0 <= r /\ r * r <= l * unit_k < (r + 1) * (r + 1) /\
    4 * l * unit_k + l * g + r * unit_k - 3000 * eps * unit_k <= 5 * s * unit_k
      <= 4 * l * unit_k + l * g + r * unit_k + 3000 * eps * unit_k.
Proof.
  intros Hl Hg. destruct (smoothed l g Hl Hg) as (s & r & E & H).
  exists s, r. split; [|exact H]. unfold GradientLimit.next_limit. cbv zeta.
  rewrite E. apply clamp_cases.
Qed.

Lemma gradient_equal (n : Z) : 0 < n -> GradientLimit.gradient (Fin n) (Fin n) = Fin unit_k.
Proof.
  intros Hn. pose proof unit_k_pos as Hu. unfold GradientLimit.gradient, fdiv.
  destruct n as [|p|p]; try lia. cbn [Z.sgn Z.abs].
  replace (1 * Z.pos p * unit_k) with (unit_k * Z.pos p) by ring.
  assert (Hw : wf (Fin unit_k)) by (rewrite <- (Z.mul_1_l unit_k); apply of_Z_wf_small; lia).
  destruct Hw as [Hw1 Hw2]. rewrite fround_exact by assumption. simpl default.
  assert (G : forall h : float, fltb h (Fin unit_k) = true ->
    fmax h (fmin (of_Z 1) (Fin unit_k)) = Fin unit_k).
  { intros h Hh. unfold fmin. rewrite of_Z_small by lia. rewrite Z.mul_1_l. cbn [fltb].
    rewrite Z.ltb_irrefl. unfold fmax. by rewrite Hh. }
  apply G. vm_compute. reflexivity.
Qed.

Lemma below_both (z : Z) (h o x : float) :
  h = Fin z -> fltb h o = true -> fleb x h = true -> fmax h (fmin o x) = h.
Proof.
  intros -> Ho Hx. unfold fmin, fmax. destruct (fltb x o) eqn:E; [by rewrite fleb_not_fltb|].
  exfalso. destruct x as [k| | |], o as [k'| | |]; try discriminate.
  rewrite fleb_Fin in Hx. cbn [fltb] in *. to_props. lia.
Qed.

Lemma gradient_half (n r : Z) :
  0 < n -> 2 * n <= r -> GradientLimit.gradient (Fin n) (Fin r) = Fin (2 ^ 1073).
Proof.
  intros Hn Hr. pose proof unit_k_pos as Hu. unfold GradientLimit.gradient, fdiv.
  destruct r as [|p|p]; try lia. cbn [Z.sgn Z.abs].
  replace (1 * n * unit_k) with (n * unit_k) by ring. simpl default.
  assert (Hle : fleb (fround (n * unit_k) (Z.pos p)) (fround unit_k 2) = true).
  { apply fround_mono; [lia|lia|]. nia. }
  assert (Hh : fround unit_k 2 = Fin (2 ^ 1073)) by (vm_compute; reflexivity).
  rewrite Hh in Hle.
  rewrite (below_both (2 ^ 1073) (lit 1 2) (of_Z 1)); [vm_compute; reflexivity
    |vm_compute; reflexivity|vm_compute; reflexivity|].
  replace (lit 1 2) with (Fin (2 ^ 1073)) by (vm_compute; reflexivity). exact Hle.
Qed.

(** ** Properties *)

(** Whatever round-trip times it is fed, [nan] and infinities included, the
    controller's limit is a finite number between 1 and 400, so [current()] never
    raises and admits between 1 and 400 requests. *)
Theorem gradient_stays_in_range (rtts : list float) :
  let g := foldl (fun g rtt => GradientLimit.observe rtt g) GradientLimit.init rtts in
  in_range (GradientLimit.limit g) /\
  exists z, GradientLimit.current g = Some z /\ 1 <= z <= 400.
Proof.
  cbn zeta. assert (H : forall g, in_range (GradientLimit.limit g) ->
    in_range (GradientLimit.limit (foldl (fun g rtt => GradientLimit.observe rtt g) g rtts))).
  { induction rtts as [|rtt rtts IH]; intros g Hg; cbn [foldl]; [exact Hg|].
    apply IH, observe_range, Hg. }
  specialize (H _ init_range). split; [exact H|]. apply current_range, H.
Qed.

(** The controller probes upward without a queue and walks down under overload.
    A sample at the best latency seen raises the limit by at least a tenth, up to
    400; a sample at twice that latency or more lowers any limit of at least 5. *)
Theorem gradient_direction (g : GradientLimit.t) (l n r : Z) :
  GradientLimit.limit g = Fin l -> unit_k <= l <= 400 * unit_k ->
  GradientLimit.rtt_noload g = Some (Fin n) -> 0 < n ->
  (exists l', GradientLimit.limit (GradientLimit.observe (Fin n) g) = Fin l' /\
     Z.min (400 * unit_k * 10) (10 * l + unit_k) <= 10 * l') /\
  (2 * n <= r -> 5 * unit_k <= l ->
   exists l', GradientLimit.limit (GradientLimit.observe (Fin r) g) = Fin l' /\ l' < l).
Proof.
  intros El Hl En Hn. pose proof unit_k_pos as Hu. destruct eps_small as [He He0].
  assert (Hor : forall x, GradientLimit.or_rtt (Fin n) x = Fin n).
  { intros x. unfold GradientLimit.or_rtt. destruct (decide _) as [[= Hz]|]; [lia|reflexivity]. }
  unfold GradientLimit.observe, GradientLimit.floor_after. rewrite En, El.
  split.
  - rewrite fleb_Fin. destruct (n <=? 0) eqn:E; to_props; [lia|]. cbv zeta.
    cbn [GradientLimit.limit fltb]. rewrite Z.ltb_irrefl, Hor, gradient_equal by exact Hn.
    destruct (next_limit_eq l unit_k Hl ltac:(lia)) as (s & q & -> & Hq & Hqq & Hs & _).
    eexists. split; [reflexivity|].
    assert (Hqu : unit_k <= q + 1) by nia.
    pose proof (Z.mul_le_mono_nonneg_r (unit_k - 1) q unit_k ltac:(lia) ltac:(lia)).
    assert (5 * l + unit_k - 1 - 3000 * eps <= 5 * s) by nia. lia.
  - intros Hr H5. rewrite fleb_Fin. destruct (r <=? 0) eqn:E; to_props; [lia|]. cbv zeta.
    cbn [GradientLimit.limit fltb]. destruct (r <? n) eqn:E2; to_props; [lia|].
    rewrite Hor, gradient_half by assumption.
    assert (Hh : 2 * 2 ^ 1073 = unit_k) by (rewrite unit_k_eq; reflexivity).
    destruct (next_limit_eq l (2 ^ 1073) Hl ltac:(lia)) as (s & q & -> & Hq & Hqq & _ & Hs).
    eexists. split; [reflexivity|].
    assert (Hql : 100 * q <= 45 * l).
    { destruct (Z.le_gt_cases (100 * q) (45 * l)) as [|Hgt]; [assumption|exfalso].
      pose proof (Z.mul_lt_mono_nonneg (45 * l) (100 * q) (45 * l) (100 * q)
        ltac:(lia) ltac:(lia) ltac:(lia) ltac:(lia)). nia. }
    pose proof (Z.mul_le_mono_nonneg_r (100 * q) (45 * l) unit_k ltac:(lia) Hql).
    assert (s < l); [|lia].
    apply (Z.mul_lt_mono_pos_r (10 * unit_k)); [lia|]. nia.
Qed.

Lemma gradient_direction_witness :
  let g := GradientLimit.mk (Fin (100 * unit_k)) (Some (Fin unit_k)) 7 in
  exists l', GradientLimit.limit (GradientLimit.observe (Fin (3 * unit_k)) g) = Fin l' /\
    l' < 100 * unit_k.
Proof.
  intros g. pose proof unit_k_pos.
  apply (gradient_direction g (100 * unit_k) unit_k (3 * unit_k)).
  - reflexivity.
  - lia.
  - reflexivity.
  - assumption.
  - lia.
  - lia.
Defined.

(** Under [priority] tier 0 may use the whole limit and each tier below a quarter
    less, down to a quarter for tier 3 and beyond, rounded down, and never less
    than one; in the other modes the tier does not matter; in mode [none] there is
    no allowance at all. *)
Theorem allowance_per_tier (c : values) (tier l : Z) (s : Shedder.t) :
  0 <= l <= 2 ^ 50 -> Shedder.limit c s = Some (Some l) ->
  Shedder.allowance c tier s =
    Some (Some (if bool_decide (cfg_str "SHED_MODE" c = "priority")
                then Z.max 1 (l * (4 - Z.min (Z.max tier 0) 3) / 4) else l)) /\
  cfg_str "SHED_MODE" c <> "none".
Proof.
  intros Hl E. split.
  - unfold Shedder.allowance. rewrite E. simpl.
    case_bool_decide; [|done]. by rewrite (share_exact l tier Hl).
  - intros Hm. unfold Shedder.limit in E. by rewrite Hm in E.
Qed.

Definition priority_config : values :=
  list_to_map [("SHED_MODE", CStr "priority"); ("SHED_LIMIT", CInt 30);
               ("SHED_WAIT_MS", CInt 50)].

Lemma allowance_per_tier_witness :
  Shedder.allowance priority_config 3 Shedder.init = Some (Some 7) /\
  cfg_str "SHED_MODE" priority_config <> "none".
Proof.
  destruct (allowance_per_tier priority_config 3 30 Shedder.init) as [H1 H2].
  - lia.
  - reflexivity.
  - split; [exact H1|exact H2].
Defined.
