(* ===== verification/LabFaults.v ===== *)
(** * Failure lab: injected faults

    Models src/05-failure/lab/app/faults.py.  [apply] writes the fields one after
    the other, so a value [float()] rejects leaves the earlier ones written. *)

From Stdlib Require Import ZArith Lia.
From stdpp Require Import base option list numbers strings gmap.
From S2P Require Import Prelude PyFloat PyWorld PyText LabConfig.

Open Scope Z_scope.

(** ** Definitions *)

Module Faults.

Record t : Type := mk { error_pct : float; latency_ms : float; drop_pct : float }.

Definition init : t := mk (Fin 0) (Fin 0) (Fin 0).

(** [float(v)] of a JSON value. *)
Definition py_float (v : pyval) : res ValueError float :=
  match v with
  | VNone => Err (BadNumber "None")
  | VBool b => Ok (of_Z (if b then 1 else 0))
  | VInt z => Ok (of_Z z)
  | VStr t | VOther t => of_option (BadNumber t) (parse_float t)
  end.

(** [max(0.0, min(100.0, x))] and [max(0.0, x)]. *)
Definition percent (x : float) : float := fmax (Fin 0) (fmin (of_Z 100) x).
Definition at_least_0 (x : float) : float := fmax (Fin 0) x.

(** [if name in patch: ...]: the rest runs in the state the update left. *)
Definition patch_field (patch : gmap string pyval) (name : string) (f : float -> t -> t)
  : ST t ValueError unit :=
  match patch !! name with
  | None => mret tt
  | Some v =>
      match py_float v with
      | Ok x => modify (f x)
      | Err e => raise e
      end
  end.

Definition apply (patch : gmap string pyval) : ST t ValueError t :=
  _ ← patch_field patch "error_pct" (fun x s => mk (percent x) (latency_ms s) (drop_pct s));
  _ ← patch_field patch "latency_ms" (fun x s => mk (error_pct s) (at_least_0 x) (drop_pct s));
  _ ← patch_field patch "drop_pct" (fun x s => mk (error_pct s) (latency_ms s) (percent x));
  Prelude.get.

(** [pct > 0 and random.random() * 100.0 < pct]: no draw at zero. *)
Definition chance (pct : float) (w : World) : bool * World :=
  if (Fin 0 <? pct)%F then
    let '(r, w') := read_random w in ((r * of_Z 100 <? pct)%F, w')
  else (false, w).

Definition should_error (s : t) (w : World) : bool * World := chance (error_pct s) w.
Definition should_drop (s : t) (w : World) : bool * World := chance (drop_pct s) w.

(** The seconds [delay] sleeps, if it sleeps. *)
Definition delay (s : t) : option float :=
  if (Fin 0 <? latency_ms s)%F then Some (fdivc (latency_ms s) 1000) else None.

End Faults.

(** ** Lemmas *)

(** A percentage is a number between 0 and 100; a latency is not negative. *)
Definition pct_ok (x : float) : Prop := exists k, x = Fin k /\ 0 <= k <= 100 * unit_k.

Definition faults_ok (s : Faults.t) : Prop :=
  pct_ok (Faults.error_pct s) /\ pct_ok (Faults.drop_pct s) /\
  fleb (Fin 0) (Faults.latency_ms s) = true.

Lemma fltb_trans_le (a b c : float) : fleb a b = true -> fltb b c = true -> fltb a c = true.
Proof.
  destruct a as [x| | |], b as [y| | |], c as [z| | |]; rewrite ?fleb_Fin; try done.
  cbn [fltb]. intros H1 H2. to_props. apply Z.ltb_lt. lia.
Qed.

Lemma percent_ok (x : float) : pct_ok (Faults.percent x).
Proof.
  unfold Faults.percent, fmin, fmax. rewrite of_Z_small by lia. pose proof unit_k_pos as Hu.
  assert (H100 : pct_ok (Fin (100 * unit_k))) by (eexists; split; [reflexivity|lia]).
  assert (H0 : pct_ok (Fin 0)) by (eexists; split; [reflexivity|lia]).
  destruct (fltb x (Fin (100 * unit_k))) eqn:E1.
  - destruct (fltb (Fin 0) x) eqn:E2; [|exact H0].
    destruct x as [k| | |]; try discriminate. cbn [fltb] in *. to_props.
    exists k. split; [reflexivity|lia].
  - by destruct (fltb (Fin 0) (Fin (100 * unit_k))).
Qed.

Lemma at_least_0_ok (x : float) : fleb (Fin 0) (Faults.at_least_0 x) = true.
Proof.
  unfold Faults.at_least_0, fmax. destruct (fltb (Fin 0) x) eqn:E; [|reflexivity].
  by apply fltb_fleb.
Qed.

Lemma patch_field_ok (patch : gmap string pyval) (name : string)
    (f : float -> Faults.t -> Faults.t) :
  (forall x s, faults_ok s -> faults_ok (f x s)) ->
  hoare faults_ok (Faults.patch_field patch name f) (fun _ => faults_ok).
Proof.
  intros Hf. unfold Faults.patch_field. destruct (patch !! name); [|by apply hoare_ret].
  destruct (Faults.py_float p); [by apply hoare_modify; auto|by apply hoare_raise].
Qed.

Lemma apply_ok (patch : gmap string pyval) :
  hoare faults_ok (Faults.apply patch) (fun r s => faults_ok s /\ forall x, r = Ok x -> x = s).
Proof.
  unfold Faults.apply.
  assert (Herr : forall (e : ValueError) s, faults_ok s ->
    faults_ok s /\ forall x : Faults.t, Err e = Ok x -> x = s) by (intros; by split).
  repeat (apply hoare_frame_bind; [apply patch_field_ok|exact Herr|intros _]).
  - intros x s (H1 & H2 & H3). split; [apply percent_ok|by split].
  - intros x s (H1 & H2 & H3). split; [done|]. split; [done|apply at_least_0_ok].
  - intros x s (H1 & H2 & H3). split; [done|]. split; [apply percent_ok|done].
  - intros s H. split; [exact H|]. by intros x [= <-].
Qed.

(** ** Properties *)

(** After any patches, rejected ones included, both percentages are numbers
    between 0 and 100 and the latency is not negative; at 0 a fault never happens
    and no random number is drawn; at 100 it always happens, the draws of
    [random.random()] being the multiples of 2^-53 below one. *)
Theorem faults_stay_in_range (patches : list (gmap string pyval)) (w : World) :
  let s := foldl (fun s patch => (Faults.apply patch s).2) Faults.init patches in
  faults_ok s /\
  (Faults.error_pct s = Fin 0 -> Faults.should_error s w = (false, w)) /\
  (forall j, dice w (draws w) = Fin (j * 2 ^ 1021) -> 0 <= j < 2 ^ 53 ->
   Faults.error_pct s = of_Z 100 -> (Faults.should_error s w).1 = true).
Proof.
  cbn zeta. split; [|split].
  - assert (H : forall s, faults_ok s ->
      faults_ok (foldl (fun s patch => (Faults.apply patch s).2) s patches)).
    { induction patches as [|p ps IH]; intros s Hs; cbn [foldl]; [exact Hs|]. apply IH.
      pose proof (apply_ok p s Hs) as H. destruct (Faults.apply p s). by destruct H. }
    apply H. split; [|split]; [| |reflexivity]; exists 0; split; try reflexivity;
      pose proof unit_k_pos; lia.
  - intros E. unfold Faults.should_error, Faults.chance. by rewrite E.
  - intros j Hj Hr E. unfold Faults.should_error, Faults.chance, read_random.
    rewrite E, Hj, of_Z_small by lia. pose proof unit_k_pos as Hu. cbn [fltb].
    destruct (0 <? 100 * unit_k) eqn:E0; to_props; [|lia]. cbn [fst fmul].
    apply fltb_trans_le with (fround ((2 ^ 53 - 1) * 2 ^ 1021 * (100 * unit_k)) unit_k).
    + apply fround_mono; [exact Hu|exact Hu|]. nia.
    + vm_compute. reflexivity.
Qed.
