(* ===== verification/LabHandler.v ===== *)
(** * Failure lab: the request handler

    Models [run_handler] and [_respond] of src/05-failure/lab/app/main.py as a
    transition system over all the requests of one process.  A request is a task;
    between two suspensions (the admission lock, the condition, the work, the
    lock of [release]) the code runs alone, and each such stretch is one
    definition here and one rule of [step].  The work of an endpoint is an input:
    the outcome it returns or the exception it raises, and the counters it moves
    meanwhile.  [POST /admin/reset] may come between any two stretches.  Header values
    printed with a fraction ([X-Service-Ms] and the like) and the Prometheus collectors
    are left out. *)

From Stdlib Require Import ZArith Lia.
From stdpp Require Import base option list numbers strings gmap pretty.
From S2P Require Import Prelude PyFloat PyWorld PyText LabConfig LabMetrics LabDeadline.
From S2P Require Import LabShed LabFaults.

Open Scope Z_scope.

(** ** Definitions *)

Record response : Type := mkResponse {
  status : Z;
  label : string;
  headers : gmap string string;
}.

(** [Outcome]: what the work of an endpoint returns. *)
Record outcome : Type := mkOutcome {
  o_status : Z;
  o_headers : gmap string string;
}.

(** What a request waits to do in [finally]: answer what the error path already
    built, or go on with the outcome of its work. *)
Inductive pending : Type :=
| Answer (r : response)
| Outcome (o : outcome).

(** A request: in [acquire]; admitted; in its work; in [finally]; answered, with
    the status its work ended in, if it ended; left by an exception of [acquire], which
    nothing in [run_handler] catches. *)
Inductive task : Type :=
| Queued (tier : Z) (deadline : option float) (w : Shedder.waiter)
| Accepted (deadline : option float) (entry_inflight : Z)
| Running (deadline : option float) (entry_inflight : Z)
| Finishing (deadline : option float) (entry_inflight : Z) (p : pending)
| Replied (r : response) (ended : option Z)
| Escaped.

(** The process: its configuration, shedder, counters, faults and random draws,
    and the requests it has received, in order. *)
Record sys : Type := mkSys {
  cfg : values;
  shed : Shedder.t;
  cnt : Counters.t;
  faults : Faults.t;
  world : World;
  tasks : list task;
}.

(** What [_respond] reads from the pool and the retry budget. *)
Record env : Type := mkEnv { pool_in_use : Z; retry_tokens : float }.

Definition set_shed (sh : Shedder.t) (s : sys) : sys :=
  mkSys (cfg s) sh (cnt s) (faults s) (world s) (tasks s).
Definition set_cnt (k : Counters.t) (s : sys) : sys :=
  mkSys (cfg s) (shed s) k (faults s) (world s) (tasks s).
Definition set_world (w : World) (s : sys) : sys :=
  mkSys (cfg s) (shed s) (cnt s) (faults s) w (tasks s).
Definition count (name : string) (s : sys) : sys := set_cnt (Counters.inc name (cnt s)) s.

(** [_respond]: the gauges, and the headers over the common ones. *)
Definition _respond (e : env) (st : Z) (hs : gmap string string) (lbl : string) (s : sys)
  : response * sys :=
  let limit := match Shedder.limit (cfg s) (shed s) with Some (Some l) => l | _ => 0 end in
  let k := Counters.gauge "inflight" (NInt (Shedder.inflight (shed s))) (cnt s) in
  let k := Counters.gauge "pool_in_use" (NInt (Z.max 0 (pool_in_use e))) k in
  let k := Counters.gauge "pool_total" (NInt (Shedder.pool_total (cfg s))) k in
  let k := Counters.gauge "shed_limit" (NInt limit) k in
  let k := Counters.gauge "retry_tokens" (NFloat (round2 (retry_tokens e))) k in
  let base : gmap string string := list_to_map
    [("X-Inflight", str_Z (Shedder.inflight (shed s)));
     ("X-Pool-In-Use", str_Z (pool_in_use e));
     ("X-Pool-Total", str_Z (Shedder.pool_total (cfg s)));
     ("X-Role", cfg_str "ROLE" (cfg s))] in
  (mkResponse st lbl (hs ∪ base), set_cnt k s).

(** The shed reply, once the admission says no. *)
Definition reply_shed (e : env) (s : sys) : task * sys :=
  let '(r, s') := _respond e 503 {["X-Shed" := "1"; "Retry-After" := "1"]} "shed" s in
  (Replied r None, s').

(** The task after a decision of the shedder. *)
Definition after_admission (e : env) (tier : Z) (deadline : option float)
    (w : Shedder.waiter) (s : sys) : task * sys :=
  match w with
  | Shedder.In => (Accepted deadline (Shedder.inflight (shed s)), s)
  | Shedder.Out => reply_shed e s
  | _ => (Queued tier deadline w, s)
  end.

(** From the arrival to the admission lock: [t_mint], [t_reject] and [t0] are the
    clock readings of the gateway's deadline, of [should_reject] and of
    [acquire]. *)
Definition arrive (e : env) (hget : string -> option string) (tier : Z)
    (t_mint t_reject t0 : float) (s : sys) : task * sys :=
  let s := count "received" s in
  let deadline :=
    match read_deadline (cfg s) hget with
    | Some d => Some d
    | None =>
        if bool_decide (cfg_str "ROLE" (cfg s) = "gateway")
        then Some (now_ms t_mint + of_Z (cfg_int "CLIENT_TIMEOUT_MS" (cfg s)))%F
        else None
    end in
  if should_reject (cfg s) deadline (now_ms t_reject) then
    let '(r, s') := _respond e 504 ∅ "rejected" (count "deadline_rejected" s) in
    (Replied r None, s')
  else
    match Shedder.acquire (cfg s) tier t0 (shed s) with
    | Some (w, sh) => after_admission e tier deadline w (set_shed sh s)
    | None => (Escaped, s)
    end.

(** The lock is free: the loop's test. *)
Definition enter (e : env) (tier : Z) (deadline : option float) (allowance : Z)
    (until now : float) (s : sys) : task * sys :=
  let '(w, sh, k) := Shedder.check tier allowance until now (shed s) (cnt s) in
  after_admission e tier deadline w (set_cnt k (set_shed sh s)).

Definition time_out (e : env) (tier : Z) (deadline : option float) (s : sys) : task * sys :=
  let '(w, sh, k) := Shedder.timeout (shed s) (cnt s) in
  after_admission e tier deadline w (set_cnt k (set_shed sh s)).

Definition wake (e : env) (tier : Z) (deadline : option float) (until now : float) (s : sys)
  : task * sys :=
  match Shedder.wake (cfg s) tier until now (shed s) (cnt s) with
  | Some (w, sh, k) => after_admission e tier deadline w (set_cnt k (set_shed sh s))
  | None => (Escaped, s)
  end.

(** [release] up to its lock: the round trip is observed. *)
Definition observe (rtt : float) (s : sys) : sys :=
  set_shed (Shedder.observe_rtt (cfg s) rtt (shed s)) s.

(** Inside the [try]: the injected error, or the delay and the work. *)
Definition begin (e : env) (deadline : option float) (entry : Z) (rtt : float) (s : sys)
  : task * sys :=
  let '(err, w) := Faults.should_error (faults s) (world s) in
  let s := set_world w s in
  if err then
    let '(r, s') := _respond e 503 {["X-Fault" := "1"]} "fault" (count "failed" s) in
    (Finishing deadline entry (Answer r), observe rtt s')
  else (Running deadline entry, s).

(** The work ended: an exception is answered with a 500. *)
Definition end_work (e : env) (deadline : option float) (entry : Z)
    (result : res string outcome) (rtt : float) (s : sys) : task * sys :=
  match result with
  | Ok o => (Finishing deadline entry (Outcome o), observe rtt s)
  | Err _ =>
      let '(r, s') := _respond e 500 ∅ "error" (count "failed" s) in
      (Finishing deadline entry (Answer r), observe rtt s')
  end.

(** The rest: the slot is given back, the completion counted, the answer sent or
    dropped. *)
Definition finish (e : env) (deadline : option float) (entry : Z) (p : pending)
    (now : float) (s : sys) : task * sys :=
  let s := set_shed (Shedder.leave (shed s)) s in
  match p with
  | Answer r => (Replied r None, s)
  | Outcome o =>
      let '(zombie, k) := record_completion deadline (o_status o <? 400) now (cnt s) in
      let s := set_cnt k s in
      let s :=
        if o_status o <? 400 then count "completed" s
        else if 500 <=? o_status o then count "failed" s else s in
      let hs := <["X-Zombie" := if zombie : bool then "1" else "0"]>
                  (o_headers o ∪ {["X-Inflight" := str_Z entry]}) in
      let '(dropped, w) := Faults.should_drop (faults s) (world s) in
      let s := set_world w s in
      let '(r, s') :=
        if dropped : bool then _respond e 599 hs "dropped" s
        else _respond e (o_status o) hs
               (if (200 <=? o_status o) && (o_status o <? 300) then "ok" else "fail") s in
      (Replied r (Some (o_status o)), s')
  end.

(** The counters only the handler and the shedder move. *)
Definition handler_counters : list string :=
  ["received"; "completed"; "failed"; "shed"; "deadline_rejected"].

(** Put the task back. *)
Definition put (i : nat) (ts : task * sys) : sys :=
  let '(t, s) := ts in
  mkSys (cfg s) (shed s) (cnt s) (faults s) (world s) (<[i := t]> (tasks s)).

Definition add (ts : task * sys) : sys :=
  let '(t, s) := ts in
  mkSys (cfg s) (shed s) (cnt s) (faults s) (world s) (tasks s ++ [t]).

(** One stretch of one task.  A notified waiter and a timed out one are both
    possible from [Sleeping], whatever the condition did. *)
Inductive step : sys -> sys -> Prop :=
| step_arrive e hget tier t1 t2 t3 s : step s (add (arrive e hget tier t1 t2 t3 s))
| step_enter e i tier d a until now s :
    tasks s !! i = Some (Queued tier d (Shedder.Locked tier a until)) ->
    step s (put i (enter e tier d a until now s))
| step_time_out e i tier d until s :
    tasks s !! i = Some (Queued tier d (Shedder.Sleeping tier until)) ->
    step s (put i (time_out e tier d s))
| step_wake e i tier d until now s :
    tasks s !! i = Some (Queued tier d (Shedder.Sleeping tier until)) ->
    step s (put i (wake e tier d until now s))
| step_begin e i d entry rtt s :
    tasks s !! i = Some (Accepted d entry) -> step s (put i (begin e d entry rtt s))
| step_end_work e i d entry result rtt s :
    tasks s !! i = Some (Running d entry) -> step s (put i (end_work e d entry result rtt s))
| step_finish e i d entry p now s :
    tasks s !! i = Some (Finishing d entry p) -> step s (put i (finish e d entry p now s))
| step_work k s :
    (forall n, n ∈ handler_counters -> Counters.read n k = Counters.read n (cnt s)) ->
    step s (set_cnt k s).

(** The operator changes the configuration or the faults. *)
Inductive admin_step : sys -> sys -> Prop :=
| admin_config c s :
    admin_step s (mkSys c (shed s) (cnt s) (faults s) (world s) (tasks s))
| admin_faults patch s :
    admin_step s (mkSys (cfg s) (shed s) (cnt s) (Faults.apply patch (faults s)).2 (world s)
                    (tasks s)).

(** [POST /admin/reset] zeroes the counters, with requests in flight or without. *)
Definition post_reset (now : float) (s : sys) : sys := set_cnt (Counters.reset now (cnt s)) s.

Definition boot (c : values) (now : float) (w : World) : sys :=
  mkSys c Shedder.init (Counters.init now) Faults.init w [].

(** ** The books *)

(** The handler's counters a request has moved so far. *)
Definition earned (t : task) : list string :=
  match t with
  | Queued _ _ _ | Accepted _ _ | Running _ _ | Finishing _ _ (Outcome _) | Escaped => ["received"]
  | Finishing _ _ (Answer _) => ["received"; "failed"]
  | Replied r None =>
      if bool_decide (label r = "rejected") then ["received"; "deadline_rejected"]
      else if bool_decide (label r = "shed") then ["received"; "shed"]
      else ["received"; "failed"]
  | Replied _ (Some st) =>
      if st <? 400 then ["received"; "completed"]
      else if 500 <=? st then ["received"; "failed"] else ["received"]
  end.

Definition holds_slot (t : task) : bool :=
  match t with Accepted _ _ | Running _ _ | Finishing _ _ _ => true | _ => false end.

Definition client_error (t : task) : bool :=
  match t with Replied _ (Some st) => (400 <=? st) && (st <? 500) | _ => false end.

(** Still to be answered, and not yet counted as failed. *)
Definition in_progress (t : task) : bool :=
  match t with
  | Replied _ _ | Finishing _ _ (Answer _) | Escaped => false
  | _ => true
  end.

Definition escaped (t : task) : bool := match t with Escaped => true | _ => false end.

Definition indicator (b : bool) : Z := if b then 1 else 0.
Definition tally (p : task -> bool) (s : sys) : Z := zsum ((fun t => indicator (p t)) <$> tasks s).

Definition earns (n : string) (t : task) : bool := bool_decide (n ∈ earned t).

(** The labels of the answers [run_handler] gives without an outcome, and the
    statuses that go with them. *)
Definition reply_ok (r : response) (ended : option Z) : Prop :=
  match ended with
  | Some st => status r = st \/ (status r = 599 /\ label r = "dropped")
  | None =>
      (label r = "rejected" /\ status r = 504) \/ (label r = "shed" /\ status r = 503) \/
      (label r = "fault" /\ status r = 503) \/ (label r = "error" /\ status r = 500)
  end.

Definition task_ok (t : task) : Prop :=
  match t with
  | Replied r ended => reply_ok r ended
  | Finishing _ _ (Answer r) =>
      (label r = "fault" /\ status r = 503) \/ (label r = "error" /\ status r = 500)
  | _ => True
  end.

(** [t'] and [s'] come from [t] and [s] by one stretch: the counters the task has
    earned are the ones that moved, and the slot it holds is the one counted. *)
Definition books (t : option task) (s : sys) (t' : task) (s' : sys) : Prop :=
  tasks s' = tasks s /\ task_ok t' /\
  (forall n, n ∈ handler_counters ->
     Counters.read n (cnt s') =
       Counters.read n (cnt s) + indicator (earns n t') -
         match t with Some t => indicator (earns n t) | None => 0 end) /\
  Shedder.inflight (shed s') =
    Shedder.inflight (shed s) + indicator (holds_slot t') -
      match t with Some t => indicator (holds_slot t) | None => 0 end.

(** The counters have moved by what the requests have earned since [base]. *)
Definition inv (base s : sys) : Prop :=
  Forall task_ok (tasks s) /\
  (forall n, n ∈ handler_counters -> Counters.read n (cnt s) = tally (earns n) s - tally (earns n) base) /\
  Shedder.inflight (shed s) = tally holds_slot s.

Lemma inv_put (base : sys) (i : nat) (t t' : task) (s s' : sys) :
  inv base s -> tasks s !! i = Some t -> books (Some t) s t' s' -> inv base (put i (t', s')).
Proof.
  intros (Hok & Hc & Hi) Ht (Hts & Ht' & Hb & Hin). unfold inv, tally, put. simpl.
  rewrite Hts. split; [by apply Forall_insert|]. split.
  - intros n Hn. rewrite (zsum_insert _ _ _ _ t' Ht), Hb, Hc by done. unfold tally. simpl. lia.
  - rewrite (zsum_insert _ _ _ _ t' Ht), Hin, Hi. unfold tally. lia.
Qed.

Lemma inv_add (base : sys) (t' : task) (s s' : sys) :
  inv base s -> books None s t' s' -> inv base (add (t', s')).
Proof.
  intros (Hok & Hc & Hi) (Hts & Ht' & Hb & Hin). unfold inv, tally, add. simpl.
  rewrite Hts, fmap_app. split; [apply Forall_app; by repeat constructor|]. split.
  - intros n Hn. rewrite fmap_app, zsum_app, Hb, Hc by done. unfold tally. simpl. lia.
  - rewrite zsum_app, Hin, Hi. unfold tally. simpl. lia.
Qed.

Lemma respond_spec (e : env) (st : Z) (hs : gmap string string) (lbl : string) (s : sys) :
  let '(r, s') := _respond e st hs lbl s in
  status r = st /\ label r = lbl /\ tasks s' = tasks s /\ shed s' = shed s /\
  forall n, Counters.read n (cnt s') = Counters.read n (cnt s).
Proof. by unfold _respond. Qed.

(** Case analysis on the name of a handler counter, and evaluation of the closed
    indicators that leaves. *)
Ltac each_counter H :=
  unfold handler_counters in H;
  repeat (apply elem_of_cons in H as [->|H]); [..|by apply elem_of_nil in H].

Ltac eval_indicators :=
  repeat match goal with
         | |- context [indicator (bool_decide ?P)] =>
             let v := eval vm_compute in (indicator (bool_decide P)) in
             change (indicator (bool_decide P)) with v
         | H : context [indicator (bool_decide ?P)] |- _ =>
             let v := eval vm_compute in (indicator (bool_decide P)) in
             change (indicator (bool_decide P)) with v in H
         end.

Lemma admission_books (e : env) (tier : Z) (d : option float) (w : Shedder.waiter)
    (t : option task) (s s1 : sys) :
  tasks s1 = tasks s ->
  (forall n, n ∈ handler_counters ->
     Counters.read n (cnt s1) + match t with Some t => indicator (earns n t) | None => 0 end =
       Counters.read n (cnt s) + indicator (bool_decide (n = "received")) +
       match w with Shedder.Out => indicator (bool_decide (n = "shed")) | _ => 0 end) ->
  Shedder.inflight (shed s1) + match t with Some t => indicator (holds_slot t) | None => 0 end =
    Shedder.inflight (shed s) + match w with Shedder.In => 1 | _ => 0 end ->
  let '(t', s') := after_admission e tier d w s1 in books t s t' s'.
Proof.
  intros Ht Hc Hi. destruct w; cbn [after_admission].
  1,2,3: split; [exact Ht|]; split; [exact I|]; split; [|simpl; lia];
    intros n Hn; specialize (Hc n Hn); unfold earns at 1; cbn [earned]; each_counter Hn;
    eval_indicators; lia.
  unfold reply_shed.
  pose proof (respond_spec e 503 {["X-Shed" := "1"; "Retry-After" := "1"]} "shed" s1) as R.
  destruct (_respond e 503 _ "shed" s1) as [r s']. destruct R as (Hst & Hl & Ht' & Hs & Hk).
  split; [congruence|]. split; [cbn [task_ok reply_ok]; auto|]. split; [|rewrite Hs; simpl; lia].
  intros n Hn. specialize (Hc n Hn). rewrite Hk. unfold earns at 1. cbn [earned]. rewrite Hl.
  each_counter Hn; eval_indicators; lia.
Qed.

Lemma read_count (name n : string) (s : sys) :
  Counters.read n (cnt (count name s)) =
    Counters.read n (cnt s) + indicator (bool_decide (n = name)).
Proof.
  unfold count, set_cnt. simpl. rewrite Counters.read_inc. unfold indicator.
  destruct (decide (name = n)) as [->|H]; [by rewrite bool_decide_true|].
  rewrite bool_decide_false by done. lia.
Qed.

Lemma arrive_books (e : env) (hget : string -> option string) (tier : Z) (t1 t2 t3 : float)
    (s : sys) :
  let '(t', s') := arrive e hget tier t1 t2 t3 s in books None s t' s'.
Proof.
  unfold arrive. set (s1 := count "received" s).
  set (d := match read_deadline (cfg s1) hget with Some d => Some d | None => _ end).
  clearbody d. destruct (should_reject (cfg s1) d (now_ms t2)).
  - pose proof (respond_spec e 504 ∅ "rejected" (count "deadline_rejected" s1)) as R.
    destruct (_respond e 504 ∅ "rejected" _) as [r s2].
    destruct R as (Hst & Hl & Ht & Hs & Hk). split; [exact Ht|].
    split; [cbn [task_ok reply_ok]; auto|]. split; [|rewrite Hs; simpl; lia].
    intros n Hn. rewrite Hk, read_count. unfold s1. rewrite read_count. unfold earns.
    cbn [earned]. rewrite Hl. each_counter Hn; eval_indicators; lia.
  - unfold Shedder.acquire. destruct (Shedder.allowance (cfg s1) tier (shed s1)) as [[a|]|]; simpl.
    + apply (admission_books e tier d (Shedder.Locked tier a (t3 + Shedder.wait_s (cfg s))%F)
        None s (set_shed (shed s1) s1)); [done| |simpl; lia].
      intros n Hn. unfold set_shed. cbn [cnt]. unfold s1. rewrite read_count. cbn iota. lia.
    + apply (admission_books e tier d Shedder.In None s (set_shed (Shedder.admit_one (shed s1)) s1));
        [done| |simpl; lia].
      intros n Hn. unfold set_shed. cbn [cnt]. unfold s1. rewrite read_count. cbn iota. lia.
    + split; [done|]. split; [done|]. split; [|simpl; lia]. intros n Hn. unfold s1. rewrite read_count.
      unfold earns. cbn [earned]. each_counter Hn; eval_indicators; lia.
Qed.

(** A queued request after a decision. *)
Lemma decided_books (e : env) (tier : Z) (d : option float) (w0 w : Shedder.waiter)
    (sh : Shedder.t) (k : Counters.t) (s : sys) :
  (forall n, Counters.read n k = Counters.read n (cnt s) +
     match w with Shedder.Out => indicator (bool_decide (n = "shed")) | _ => 0 end) ->
  Shedder.inflight sh = Shedder.inflight (shed s) + match w with Shedder.In => 1 | _ => 0 end ->
  let '(t', s') := after_admission e tier d w (set_cnt k (set_shed sh s)) in
  books (Some (Queued tier d w0)) s t' s'.
Proof.
  intros Hk Hi. apply admission_books; [done| |simpl; lia].
  intros n Hn. cbn [cnt set_cnt set_shed]. rewrite Hk. unfold earns. cbn [earned].
  each_counter Hn; destruct w; eval_indicators; lia.
Qed.

Lemma read_inc_indicator (name n : string) (k : Counters.t) :
  Counters.read n (Counters.inc name k) =
    Counters.read n k + indicator (bool_decide (n = name)).
Proof.
  rewrite Counters.read_inc. unfold indicator.
  destruct (decide (name = n)) as [->|H]; [by rewrite bool_decide_true|].
  rewrite bool_decide_false by done. lia.
Qed.

Lemma check_effect (tier a : Z) (until now : float) (sh sh' : Shedder.t) (k k' : Counters.t)
    (w : Shedder.waiter) :
  Shedder.check tier a until now sh k = (w, sh', k') ->
  (forall n, Counters.read n k' = Counters.read n k +
     match w with Shedder.Out => indicator (bool_decide (n = "shed")) | _ => 0 end) /\
  Shedder.inflight sh' = Shedder.inflight sh + match w with Shedder.In => 1 | _ => 0 end.
Proof.
  unfold Shedder.check. destruct (a <=? Shedder.inflight sh); [destruct (fleb _ _)|];
    intros [= <- <- <-]; (split; [intros n; rewrite ?read_inc_indicator|simpl]); lia.
Qed.

Lemma enter_books (e : env) (tier : Z) (d : option float) (a : Z) (until now : float)
    (s : sys) (w0 : Shedder.waiter) :
  let '(t', s') := enter e tier d a until now s in books (Some (Queued tier d w0)) s t' s'.
Proof.
  unfold enter. destruct (Shedder.check _ _ _ _ _ _) as [[w sh] k] eqn:E.
  apply check_effect in E as [Hk Hi]. by apply decided_books.
Qed.

Lemma time_out_books (e : env) (tier : Z) (d : option float) (s : sys) (w0 : Shedder.waiter) :
  let '(t', s') := time_out e tier d s in books (Some (Queued tier d w0)) s t' s'.
Proof.
  unfold time_out, Shedder.timeout. apply decided_books; [|simpl; lia].
  intros n. apply read_inc_indicator.
Qed.

Lemma wake_books (e : env) (tier : Z) (d : option float) (until now : float) (s : sys)
    (w0 : Shedder.waiter) :
  let '(t', s') := wake e tier d until now s in books (Some (Queued tier d w0)) s t' s'.
Proof.
  unfold wake, Shedder.wake. destruct (Shedder.allowance _ _ _) as [[a|]|]; simpl.
  - destruct (Shedder.check _ _ _ _ _ _) as [[w sh] k] eqn:E. simpl.
    apply check_effect in E as [Hk Hi]. by apply decided_books.
  - apply (decided_books e tier d w0 Shedder.In (Shedder.admit_one (shed s)) (cnt s) s); [intros; lia|simpl; lia].
  - split; [done|]. split; [done|]. split; [|simpl; lia].
    intros n Hn. unfold earns. cbn [earned]. lia.
Qed.

Lemma observe_same (rtt : float) (s : sys) :
  tasks (observe rtt s) = tasks s /\ cnt (observe rtt s) = cnt s /\
  Shedder.inflight (shed (observe rtt s)) = Shedder.inflight (shed s).
Proof. unfold observe, Shedder.observe_rtt. by case_bool_decide. Qed.

(** An answer built on the error path, with one failure counted. *)
Lemma failed_books (e : env) (st : Z) (hs : gmap string string) (lbl : string)
    (d : option float) (entry : Z) (rtt : float) (t : task) (s s1 : sys) :
  (lbl = "fault" /\ st = 503) \/ (lbl = "error" /\ st = 500) ->
  earned t = ["received"] -> holds_slot t = true ->
  tasks s1 = tasks s -> shed s1 = shed s -> cnt s1 = cnt s ->
  let '(r, s') := _respond e st hs lbl (count "failed" s1) in
  books (Some t) s (Finishing d entry (Answer r)) (observe rtt s').
Proof.
  intros Hlbl He Hh Ht Hs Hc.
  pose proof (respond_spec e st hs lbl (count "failed" s1)) as R.
  destruct (_respond e st hs lbl _) as [r s']. destruct R as (Hst & Hl & Ht' & Hs' & Hk).
  destruct (observe_same rtt s') as (O1 & O2 & O3).
  split; [rewrite O1, Ht'; exact Ht|]. split; [cbn [task_ok]; by rewrite Hl, Hst|].
  split; [|rewrite O3, Hs', Hh; simpl; rewrite Hs; lia].
  intros n Hn. rewrite O2, Hk, read_count, Hc. unfold earns. rewrite He. cbn [earned].
  each_counter Hn; eval_indicators; lia.
Qed.

Lemma begin_books (e : env) (d : option float) (entry : Z) (rtt : float) (s : sys) :
  let '(t', s') := begin e d entry rtt s in books (Some (Accepted d entry)) s t' s'.
Proof.
  unfold begin. destruct (Faults.should_error (faults s) (world s)) as [[|] w].
  - pose proof (failed_books e 503 {["X-Fault" := "1"]} "fault" d entry rtt (Accepted d entry) s
      (set_world w s)) as F.
    destruct (_respond e 503 _ "fault" _) as [r s']. apply F; auto.
  - split; [done|]. split; [done|]. split; [|simpl; lia]. intros n Hn. unfold earns. cbn [earned cnt set_world]. lia.
Qed.

Lemma end_work_books (e : env) (d : option float) (entry : Z) (result : res string outcome)
    (rtt : float) (s : sys) :
  let '(t', s') := end_work e d entry result rtt s in books (Some (Running d entry)) s t' s'.
Proof.
  unfold end_work. destruct result as [o|exc].
  - destruct (observe_same rtt s) as (O1 & O2 & O3). split; [exact O1|]. split; [done|].
    split; [|rewrite O3; simpl; lia]. intros n Hn. rewrite O2. unfold earns. cbn [earned]. lia.
  - pose proof (failed_books e 500 ∅ "error" d entry rtt (Running d entry) s s) as F.
    destruct (_respond e 500 _ "error" _) as [r s']. apply F; auto.
Qed.

Lemma completion_same (d : option float) (b : bool) (now : float) (k : Counters.t) (n : string) :
  n ∈ handler_counters ->
  Counters.read n (record_completion d b now k).2 = Counters.read n k.
Proof.
  intros Hn. unfold record_completion. destruct b; simpl; [|done].
  destruct (remaining_ms d now) as [l|]; [|done]. destruct (fleb l (Fin 0)); [|done].
  simpl. rewrite read_inc_indicator. each_counter Hn; eval_indicators; lia.
Qed.

Lemma finish_books (e : env) (d : option float) (entry : Z) (p : pending) (now : float)
    (s : sys) :
  task_ok (Finishing d entry p) -> 1 <= Shedder.inflight (shed s) ->
  let '(t', s') := finish e d entry p now s in books (Some (Finishing d entry p)) s t' s'.
Proof.
  intros Hok Hi. unfold finish. destruct p as [r|o].
  - split; [done|]. simpl in Hok. split; [cbn [task_ok reply_ok]; tauto|]. split; [|simpl; lia].
    intros n Hn. unfold earns. cbn [earned cnt set_shed].
    destruct Hok as [[-> _]|[-> _]]; eval_indicators; lia.
  - pose proof (completion_same d (o_status o <? 400) now (cnt s)) as Hz.
    cbn [cnt set_shed]. destruct (record_completion _ _ _ _) as [z k]. cbn [snd] in Hz.
    set (s1 := set_cnt k (set_shed (Shedder.leave (shed s)) s)).
    set (s2 := if o_status o <? 400 then count "completed" s1
               else if 500 <=? o_status o then count "failed" s1 else s1).
    set (hs := <["X-Zombie" := _]> _). clearbody hs.
    assert (H2 : tasks s2 = tasks s /\ shed s2 = Shedder.leave (shed s) /\
      forall n, n ∈ handler_counters ->
        Counters.read n (cnt s2) = Counters.read n (cnt s) +
          indicator (bool_decide (n ∈ earned (Replied (mkResponse 0 "" ∅) (Some (o_status o))))) -
          indicator (bool_decide (n ∈ ["received"]))).
    { unfold s2. cbn [earned].
      destruct (o_status o <? 400); [|destruct (500 <=? o_status o)];
        (split; [done|]); (split; [done|]); intros n Hn; rewrite ?read_count;
        unfold s1; cbn [cnt set_cnt set_shed]; rewrite Hz by done;
        each_counter Hn; eval_indicators; lia. }
    destruct H2 as (Ht & Hs & Hc). clearbody s2. clear Hz s1.
    destruct (Faults.should_drop (faults s2) (world s2)) as [drop w].
    set (ans := if drop then _ else _).
    assert (Ha : let '(r, s') := ans in
      (status r = o_status o \/ status r = 599 /\ label r = "dropped") /\
      tasks s' = tasks s2 /\ shed s' = shed s2 /\
      forall n, Counters.read n (cnt s') = Counters.read n (cnt s2)).
    { unfold ans. destruct drop.
      - pose proof (respond_spec e 599 hs "dropped" (set_world w s2)) as R.
        destruct (_respond _ _ _ _ _). destruct R as (? & ? & ? & ? & ?). auto.
      - match goal with |- context [_respond ?a ?b ?c ?d ?x] =>
          pose proof (respond_spec a b c d x) as R; destruct (_respond a b c d x) end.
        destruct R as (? & ? & ? & ? & ?). auto. }
    clearbody ans. destruct ans as [r s']. destruct Ha as (Hr & Ht' & Hs' & Hk).
    split; [congruence|]. split; [exact Hr|]. split.
    + intros n Hn. rewrite Hk, Hc by done. unfold earns. cbn [earned]. lia.
    + rewrite Hs', Hs. simpl. lia.
Qed.

Lemma inv_boot (c : values) (now : float) (w : World) : inv (boot c now w) (boot c now w).
Proof.
  split; [by constructor|]. split; [|done]. intros n Hn. unfold tally. simpl.
  each_counter Hn; reflexivity.
Qed.

Lemma inv_reset (base s : sys) (now : float) : inv base s -> inv (post_reset now s) (post_reset now s).
Proof.
  intros (Hok & _ & Hi). split; [done|]. split; [|done]. intros n _. unfold post_reset. cbn [cnt set_cnt].
  rewrite Counters.read_reset. lia.
Qed.

Lemma inv_slot (base s : sys) (i : nat) (d : option float) (entry : Z) (p : pending) :
  inv base s -> tasks s !! i = Some (Finishing d entry p) -> 1 <= Shedder.inflight (shed s).
Proof.
  intros (_ & _ & ->) Ht. unfold tally.
  apply (zsum_ge (fun t => indicator (holds_slot t))) in Ht; [exact Ht|].
  intros []; simpl; lia.
Qed.

Lemma inv_step (base s s' : sys) : inv base s -> step s s' -> inv base s'.
Proof.
  intros H Hs. destruct Hs.
  - pose proof (arrive_books e hget tier t1 t2 t3 s) as B. destruct (arrive _ _ _ _ _ _ _). by apply (inv_add _ _ s).
  - pose proof (enter_books e tier d a until now s (Shedder.Locked tier a until)) as B.
    destruct (enter _ _ _ _ _ _ _). by eapply inv_put.
  - pose proof (time_out_books e tier d s (Shedder.Sleeping tier until)) as B.
    destruct (time_out _ _ _ _). by eapply inv_put.
  - pose proof (wake_books e tier d until now s (Shedder.Sleeping tier until)) as B.
    destruct (wake _ _ _ _ _ _). by eapply inv_put.
  - pose proof (begin_books e d entry rtt s) as B.
    destruct (begin _ _ _ _ _). by eapply inv_put.
  - pose proof (end_work_books e d entry result rtt s) as B.
    destruct (end_work _ _ _ _ _ _). by eapply inv_put.
  - assert (Hok : task_ok (Finishing d entry p)).
    { destruct H as (Hok & _). rewrite Forall_lookup in Hok. by eapply Hok. }
    pose proof (finish_books e d entry p now s Hok (inv_slot base s i d entry p H H0)) as B.
    destruct (finish _ _ _ _ _ _). by eapply inv_put.
  - destruct H as (Hok & Hc & Hi). split; [done|]. split; [|done].
    intros n Hn. unfold tally in *. simpl. rewrite H0 by done. by apply Hc.
Qed.

(** What a process can go through: its requests, the counters its work moves, and
    the operator's changes, in any order; and its counters being reset. *)
Definition busy_step (s s' : sys) : Prop := step s s' \/ admin_step s s'.
Definition any_step (s s' : sys) : Prop := busy_step s s' \/ exists now, s' = post_reset now s.

Lemma inv_busy (base s s' : sys) : inv base s -> rtc busy_step s s' -> inv base s'.
Proof.
  intros H R. induction R as [|x y z [Hs|Hs] _ IH]; [done|..]; apply IH.
  - by eapply inv_step.
  - by destruct Hs.
Qed.

(** Where a count begins: at the start of the process, or at a reset. *)
Definition clean (boot_ base : sys) : Prop :=
  base = boot_ \/ exists now s, rtc any_step boot_ s /\ base = post_reset now s.

Lemma since_clean (boot_ s : sys) : rtc any_step boot_ s -> exists base, clean boot_ base /\ rtc busy_step base s.
Proof.
  revert s. apply rtc_ind_r; [|intros s s' R [Hs|[now ->]] IH].
  - exists boot_. by split; [left|].
  - destruct IH as (base & Hb & Hr). exists base. split; [done|]. by eapply rtc_r.
  - exists (post_reset now s). split; [right; by exists now, s|done].
Qed.

Lemma inv_reachable (s s' : sys) : inv s s -> rtc any_step s s' -> exists base, inv base s'.
Proof.
  intros H. revert s'. apply rtc_ind_r; [by exists s|]. intros s1 s2 R [Hs|[now ->]] [base Hb].
  - exists base. eapply inv_busy; [done|]. by apply rtc_once.
  - eexists. by eapply inv_reset.
Qed.

Lemma clean_inv (c : values) (now : float) (w : World) (base : sys) : clean (boot c now w) base -> inv base base.
Proof.
  intros [->|(t & s & R & ->)]; [apply inv_boot|].
  destruct (inv_reachable _ _ (inv_boot c now w) R) as [b Hb]. by eapply inv_reset.
Qed.

(** ** Properties *)

Lemma tally_split (s : sys) :
  Forall task_ok (tasks s) ->
  tally (earns "received") s =
    tally (earns "deadline_rejected") s + tally (earns "shed") s + tally (earns "failed") s +
    tally (earns "completed") s + tally in_progress s + tally client_error s + tally escaped s.
Proof.
  unfold tally. intros Hok. induction (tasks s) as [|t l IH]; [done|].
  apply Forall_cons in Hok as [Ht Hl]. rewrite !zsum_fmap_cons, (IH Hl).
  enough (indicator (earns "received" t) =
    indicator (earns "deadline_rejected" t) + indicator (earns "shed" t) +
    indicator (earns "failed" t) + indicator (earns "completed" t) +
    indicator (in_progress t) + indicator (client_error t) + indicator (escaped t)) by lia.
  unfold earns, in_progress, client_error, escaped.
  destruct t as [| | |? ? [r|o]|r [st|]|]; cbn [earned]; try (eval_indicators; reflexivity).
  - rewrite (Z.leb_antisym st 400), (Z.ltb_antisym 500 st).
    destruct (st <? 400) eqn:E1, (500 <=? st) eqn:E2; to_props; try lia;
      eval_indicators; reflexivity.
  - cbn [task_ok reply_ok] in Ht.
    destruct Ht as [[-> _]|[[-> _]|[[-> _]|[-> _]]]]; eval_indicators; reflexivity.
Qed.

Lemma tally_received (s : sys) : tally (earns "received") s = Z.of_nat (length (tasks s)).
Proof.
  unfold tally. induction (tasks s) as [|t l IH]; [done|]. rewrite zsum_fmap_cons, IH.
  replace (indicator (earns "received" t)) with 1; [simpl; lia|].
  unfold earns. destruct t as [| | |? ? [r|o]|r [st|]|]; cbn [earned]; repeat case_match;
    eval_indicators; reflexivity.
Qed.

(** C4: The books balance.  Every state a process can reach, whatever its requests, its
    work and its operator do, comes without a reset from the start of the process or from
    its last reset; and since then each counter of the handler has counted the
    requests that earned it.  So the requests received are those rejected for their
    deadline, shed, failed and completed, and the growth of those in progress, of those
    answered with a 4xx and of those that an exception of [acquire] ended.  A reset
    forgets what the requests in flight have earned and not what they will: from the
    start of the process, where there are none, the numbers are absolute. *)
Theorem handler_books_balance (c : values) (now : float) (w : World) (s : sys) :
  let start := boot c now w in
  let grown p base := tally p s - tally p base in
  (rtc any_step start s -> exists base, clean start base /\ rtc busy_step base s) /\
  forall base, clean start base -> rtc busy_step base s ->
    (forall n, n ∈ handler_counters -> Counters.read n (cnt s) = grown (earns n) base) /\
    Counters.read "received" (cnt s) = Z.of_nat (length (tasks s)) - Z.of_nat (length (tasks base)) /\
    Counters.read "received" (cnt s) =
      Counters.read "deadline_rejected" (cnt s) + Counters.read "shed" (cnt s) +
      Counters.read "failed" (cnt s) + Counters.read "completed" (cnt s) +
      grown in_progress base + grown client_error base + grown escaped base /\
    (base = start -> forall p, grown p base = tally p s).
Proof.
  intros start grown. split; [apply since_clean|]. intros base Hb R. subst grown. cbn beta.
  pose proof (clean_inv _ _ _ _ Hb) as Hi. pose proof (proj1 Hi) as Hob.
  destruct (inv_busy _ _ _ Hi R) as (Hok & Hc & _). split; [exact Hc|].
  rewrite !Hc by (unfold handler_counters; set_solver). split; [by rewrite !tally_received|]. split.
  - rewrite (tally_split s Hok), (tally_split base Hob). lia.
  - intros -> p. change (tally p start) with 0. lia.
Qed.

(** Slots are neither lost nor made: the shedder's count is the number of requests
    between their admission and the end of their [finally], so it is zero as soon
    as every request has been answered. *)
Theorem slots_always_released (c : values) (now : float) (w : World) (s : sys) :
  rtc any_step (boot c now w) s ->
  Shedder.inflight (shed s) = tally holds_slot s /\ 0 <= Shedder.inflight (shed s) /\
  (Forall (fun t => exists r ended, t = Replied r ended) (tasks s) ->
   Shedder.inflight (shed s) = 0).
Proof.
  intros R. destruct (inv_reachable _ _ (inv_boot c now w) R) as (base & _ & _ & Hi).
  split; [exact Hi|]. rewrite Hi. unfold tally. split.
  { apply zsum_nonneg. intros t. destruct (holds_slot t); simpl; lia. }
  induction 1 as [|t l (r & ended & ->) _ IH]; [done|]. rewrite zsum_fmap_cons, IH. done.
Qed.

Definition open_config : values :=
  list_to_map [("SHED_MODE", CStr "none"); ("ROLE", CStr "app");
               ("PROPAGATE_DEADLINE", CBool false)].

Definition demo_env : env := mkEnv 0 (Fin 0).

(** A process that has served one request, with a 200. *)
Definition demo0 : sys :=
  boot open_config (Fin 0) (mkWorld (fun _ => Fin 0) 0 (fun _ => Fin 0) 0).
Definition demo1 : sys :=
  add (Accepted None 1, set_shed (Shedder.admit_one (shed demo0)) (count "received" demo0)).
Definition demo2 : sys := put 0 (begin demo_env None 1 (Fin 0) demo1).
Definition demo3 : sys :=
  put 0 (end_work demo_env None 1 (Ok (mkOutcome 200 ∅)) (Fin 0) demo2).
Definition demo_run : sys :=
  put 0 (finish demo_env None 1 (Outcome (mkOutcome 200 ∅)) (Fin 0) demo3).

Lemma demo_arrives :
  arrive demo_env (fun _ => None) 0 (Fin 0) (Fin 0) (Fin 0) demo0 =
    (Accepted None 1, set_shed (Shedder.admit_one (shed demo0)) (count "received" demo0)).
Proof.
  unfold arrive, should_reject.
  replace (read_deadline _ _) with (None : option float) by reflexivity.
  replace (bool_decide (cfg_str "ROLE" _ = _)) with false by reflexivity.
  replace (cfg_bool "PROPAGATE_DEADLINE" _) with false by reflexivity. cbn [negb].
  unfold Shedder.acquire.
  replace (Shedder.allowance _ _ _) with (Some (None : option Z)) by reflexivity. reflexivity.
Qed.

Lemma demo_step1 : step demo0 demo1.
Proof. unfold demo1. rewrite <- demo_arrives. apply step_arrive. Qed.

Lemma demo_reachable : rtc busy_step demo0 demo_run.
Proof.
  apply rtc_l with demo1; [left; exact demo_step1|].
  apply rtc_l with demo2; [left; exact (step_begin _ 0 _ _ _ demo1 eq_refl)|].
  apply rtc_l with demo3; [left; exact (step_end_work _ 0 _ _ _ _ demo2 eq_refl)|].
  apply rtc_once. left. exact (step_finish _ 0 _ _ _ _ demo3 eq_refl).
Qed.

(** A reset while the request is at work: it completes without having been received. *)
Definition demo4 : sys := post_reset (Fin 0) demo2.
Definition demo5 : sys := put 0 (end_work demo_env None 1 (Ok (mkOutcome 200 ∅)) (Fin 0) demo4).
Definition demo6 : sys := put 0 (finish demo_env None 1 (Outcome (mkOutcome 200 ∅)) (Fin 0) demo5).

Lemma demo_clean : clean demo0 demo4 /\ rtc busy_step demo4 demo6.
Proof.
  split.
  - right. exists (Fin 0), demo2. split; [|done].
    apply rtc_l with demo1; [left; left; exact demo_step1|].
    apply rtc_once. left. left. exact (step_begin _ 0 _ _ _ demo1 eq_refl).
  - apply rtc_l with demo5; [left; exact (step_end_work _ 0 _ _ _ _ demo4 eq_refl)|].
    apply rtc_once. left. exact (step_finish _ 0 _ _ _ _ demo5 eq_refl).
Qed.

Lemma completed_is_counted : "completed" ∈ handler_counters.
Proof. by apply list_elem_of_further, list_elem_of_here. Qed.

Lemma handler_books_balance_witness :
  (Counters.read "received" (cnt demo_run) = 1 /\
   Counters.read "completed" (cnt demo_run) = tally (earns "completed") demo_run) /\
  Counters.read "received" (cnt demo6) = 0 /\ Counters.read "completed" (cnt demo6) = 1.
Proof.
  pose proof (proj2 (handler_books_balance open_config (Fin 0) (mkWorld (fun _ => Fin 0) 0 (fun _ => Fin 0) 0) demo_run)) as H.
  destruct (H demo0 (or_introl eq_refl) demo_reachable) as (Hc & Hn & _ & Ha).
  pose proof (proj2 (handler_books_balance open_config (Fin 0) (mkWorld (fun _ => Fin 0) 0 (fun _ => Fin 0) 0) demo6)) as H6.
  destruct (H6 demo4 (proj1 demo_clean) (proj2 demo_clean)) as (Hc6 & Hn6 & _).
  split; split.
  - rewrite Hn. reflexivity.
  - rewrite <- (Ha eq_refl). apply Hc, completed_is_counted.
  - rewrite Hn6. reflexivity.
  - rewrite (Hc6 _ completed_is_counted). reflexivity.
Defined.

Lemma slots_always_released_witness : Shedder.inflight (shed demo_run) = 0.
Proof.
  assert (R : rtc any_step demo0 demo_run) by (eapply rtc_subrel; [|exact demo_reachable]; intros x y H; by left).
  destruct (slots_always_released _ _ _ _ R) as (_ & _ & H). apply H.
  repeat constructor. by do 2 eexists.
Defined.

(** ** The bound on the requests in flight *)

Definition configured_limit (c : values) : Z :=
  match cfg_opt_int "SHED_LIMIT" c with Some l => l | None => Shedder.pool_total c end.

Definition slot_bound (c : values) : Z :=
  let mode := cfg_str "SHED_MODE" c in
  if bool_decide (mode = "adaptive") then 400
  else if bool_decide (mode = "priority") then Z.max 1 (configured_limit c)
  else configured_limit c.

Section Bound.
Context (c : values).
Hypothesis sheds : cfg_str "SHED_MODE" c <> "none".
Hypothesis limit_ok : 0 <= configured_limit c <= 2 ^ 50.

Lemma bound_nonneg : 0 <= slot_bound c.
Proof. unfold slot_bound. repeat case_bool_decide; lia. Qed.

Lemma allowance_bound (tier : Z) (sh : Shedder.t) :
  in_range (GradientLimit.limit (Shedder.gradient sh)) ->
  exists a, Shedder.allowance c tier sh = Some (Some a) /\ a <= slot_bound c.
Proof.
  intros Hg. unfold Shedder.allowance, Shedder.limit, slot_bound.
  rewrite (bool_decide_eq_false_2 _ sheds).
  destruct (current_range _ Hg) as (z & Hz & Hr).
  destruct (bool_decide (cfg_str "SHED_MODE" c = "adaptive")) eqn:Ea.
  - rewrite Hz. simpl. apply bool_decide_eq_true in Ea. rewrite Ea. simpl. exists z.
    split; [reflexivity|lia].
  - assert (El : match cfg_opt_int "SHED_LIMIT" c with
                 | None => Some (Some (Shedder.pool_total c))
                 | Some l => Some (Some l) end = Some (Some (configured_limit c))).
    { unfold configured_limit. by destruct (cfg_opt_int "SHED_LIMIT" c). }
    rewrite El. simpl. destruct (bool_decide (cfg_str "SHED_MODE" c = "priority")).
    + rewrite (share_exact _ tier limit_ok). simpl. eexists. split; [reflexivity|].
      apply Z.max_le_compat_l. apply Z.div_le_upper_bound; [lia|]. unfold quarters. nia.
    + eexists. split; [reflexivity|lia].
Qed.

Definition waiting_ok (t : task) : Prop :=
  match t with Queued _ _ (Shedder.Locked _ a _) => a <= slot_bound c | _ => True end.

Definition bounded_shed (sh : Shedder.t) : Prop :=
  in_range (GradientLimit.limit (Shedder.gradient sh)) /\ 0 <= Shedder.inflight sh <= slot_bound c.

Definition bounded (s : sys) : Prop :=
  cfg s = c /\ bounded_shed (shed s) /\ Forall waiting_ok (tasks s).

(** One stretch from [s] keeps the bound. *)
Definition fits (s : sys) (ts : task * sys) : Prop :=
  cfg ts.2 = c /\ bounded_shed (shed ts.2) /\ waiting_ok ts.1 /\ tasks ts.2 = tasks s.

Lemma respond_fits (e : env) (st : Z) (hs : gmap string string) (lbl : string) (s s1 : sys)
    (f : response -> task) :
  (forall r, waiting_ok (f r)) -> cfg s1 = c -> bounded_shed (shed s1) -> tasks s1 = tasks s ->
  fits s (let '(r, s') := _respond e st hs lbl s1 in (f r, s')).
Proof. intros Hf Hc Hb Ht. unfold _respond. split; [done|]. split; [done|]. split; [apply Hf|done]. Qed.

Lemma admission_fits (e : env) (tier : Z) (d : option float) (w : Shedder.waiter)
    (s s1 : sys) :
  cfg s1 = c -> bounded_shed (shed s1) -> tasks s1 = tasks s ->
  (forall t a u, w = Shedder.Locked t a u -> a <= slot_bound c) ->
  fits s (after_admission e tier d w s1).
Proof.
  intros Hc Hb Ht Hw. destruct w; cbn [after_admission].
  1: split; [done|]; split; [done|]; split; [by eapply Hw|done].
  1,2: split; [done|]; split; [done|]; split; done.
  by apply respond_fits.
Qed.

Lemma check_bounded (tier a : Z) (u now : float) (sh sh' : Shedder.t) (k k' : Counters.t)
    (w : Shedder.waiter) :
  a <= slot_bound c -> bounded_shed sh -> Shedder.check tier a u now sh k = (w, sh', k') ->
  bounded_shed sh' /\ forall t b v, w = Shedder.Locked t b v -> b <= slot_bound c.
Proof.
  intros Ha (Hg & Hi) H. unfold Shedder.check in H.
  destruct (a <=? Shedder.inflight sh) eqn:E; [destruct (fleb _ _)|]; injection H as <- <- <-;
    (split; [|done]); split; try done.
  simpl. to_props. lia.
Qed.

Lemma observe_bounded (rtt : float) (s : sys) :
  cfg s = c -> bounded_shed (shed s) -> bounded_shed (shed (observe rtt s)).
Proof.
  intros Hc (Hg & Hi). unfold observe, Shedder.observe_rtt. case_bool_decide; [|done].
  split; [by apply observe_range|done].
Qed.

Lemma leave_bounded (sh : Shedder.t) : bounded_shed sh -> bounded_shed (Shedder.leave sh).
Proof. intros (Hg & Hi). split; [done|]. pose proof bound_nonneg. simpl. lia. Qed.

Lemma bounded_put (i : nat) (s : sys) (ts : task * sys) :
  bounded s -> fits s ts -> bounded (put i ts).
Proof.
  intros (_ & _ & Hf) (Hc & Hb & Hw & Ht). destruct ts as [t' s']. simpl in *.
  split; [done|]. split; [done|]. simpl. rewrite Ht. by apply Forall_insert.
Qed.

Lemma bounded_add (s : sys) (ts : task * sys) :
  bounded s -> fits s ts -> bounded (add ts).
Proof.
  intros (_ & _ & Hf) (Hc & Hb & Hw & Ht). destruct ts as [t' s']. simpl in *.
  split; [done|]. split; [done|]. simpl. rewrite Ht. apply Forall_app. by repeat constructor.
Qed.

Lemma arrive_fits (e : env) (hget : string -> option string) (tier : Z) (t1 t2 t3 : float)
    (s : sys) :
  bounded s -> fits s (arrive e hget tier t1 t2 t3 s).
Proof.
  intros (Hc & Hb & _). unfold arrive.
  set (d := match read_deadline _ hget with Some d => Some d | None => _ end). clearbody d.
  destruct (should_reject _ d (now_ms t2)).
  - by apply (respond_fits e 504 ∅ "rejected" s _ (fun r => Replied r None)).
  - unfold Shedder.acquire. cbn [cfg shed count set_cnt]. rewrite Hc.
    destruct (allowance_bound tier (shed s) (proj1 Hb)) as (a & -> & Ha). simpl.
    apply (admission_fits e tier d (Shedder.Locked tier a (t3 + Shedder.wait_s c)%F)); try done.
    by intros t b u [= _ -> _].
Qed.

Lemma decided_fits (e : env) (tier : Z) (d : option float) (a : Z) (u now : float) (s : sys) :
  bounded s -> a <= slot_bound c ->
  fits s (let '(w, sh, k) := Shedder.check tier a u now (shed s) (cnt s) in
          after_admission e tier d w (set_cnt k (set_shed sh s))).
Proof.
  intros (Hc & Hb & _) Ha. destruct (Shedder.check _ _ _ _ _ _) as [[w sh] k] eqn:E.
  destruct (check_bounded _ _ _ _ _ _ _ _ _ Ha Hb E) as [Hb' Hw]. by apply admission_fits.
Qed.

Lemma wake_fits (e : env) (tier : Z) (d : option float) (u now : float) (s : sys) :
  bounded s -> fits s (wake e tier d u now s).
Proof.
  intros H. pose proof H as (Hc & Hb & _). unfold wake, Shedder.wake. rewrite Hc.
  destruct (allowance_bound tier (shed s) (proj1 Hb)) as (a & -> & Ha). simpl.
  pose proof (decided_fits e tier d a u now s H Ha) as F.
  by destruct (Shedder.check _ _ _ _ _ _) as [[w sh] k].
Qed.

Lemma failed_fits (e : env) (st : Z) (hs : gmap string string) (lbl : string)
    (d : option float) (entry : Z) (rtt : float) (s s1 : sys) :
  cfg s1 = c -> bounded_shed (shed s1) -> tasks s1 = tasks s ->
  fits s (let '(r, s') := _respond e st hs lbl s1 in
          (Finishing d entry (Answer r), observe rtt s')).
Proof.
  intros Hc Hb Ht. unfold _respond. split; [done|]. split; [by apply observe_bounded|].
  by split.
Qed.

Lemma begin_fits (e : env) (d : option float) (entry : Z) (rtt : float) (s : sys) :
  bounded s -> fits s (begin e d entry rtt s).
Proof.
  intros (Hc & Hb & _). unfold begin. destruct (Faults.should_error _ _) as [[|] w].
  - by apply failed_fits.
  - by repeat split; try apply Hb.
Qed.

Lemma end_work_fits (e : env) (d : option float) (entry : Z) (result : res string outcome)
    (rtt : float) (s : sys) :
  bounded s -> fits s (end_work e d entry result rtt s).
Proof.
  intros (Hc & Hb & _). unfold end_work. destruct result; [|by apply failed_fits].
  split; [done|]. split; [by apply observe_bounded|done].
Qed.

Lemma finish_fits (e : env) (d : option float) (entry : Z) (p : pending) (now : float)
    (s : sys) :
  bounded s -> fits s (finish e d entry p now s).
Proof.
  intros (Hc & Hb & _). apply leave_bounded in Hb. unfold finish. destruct p as [r|o]; [done|].
  destruct (record_completion _ _ _ _) as [z k].
  set (s1 := set_cnt k (set_shed (Shedder.leave (shed s)) s)).
  set (s2 := if o_status o <? 400 then _ else _).
  assert (H2 : cfg s2 = c /\ bounded_shed (shed s2) /\ tasks s2 = tasks s)
    by (unfold s2; repeat case_match; done).
  clearbody s2. destruct H2 as (H1 & H2 & H3).
  destruct (Faults.should_drop _ _) as [[|] w];
    by apply (respond_fits _ _ _ _ s _ (fun r => Replied r (Some (o_status o)))).
Qed.

Lemma bounded_step (s s' : sys) : bounded s -> step s s' -> bounded s'.
Proof.
  intros H Hs. destruct Hs.
  - eapply bounded_add; [done|]. by apply arrive_fits.
  - eapply bounded_put; [done|]. apply decided_fits; [done|].
    destruct H as (_ & _ & Hf). rewrite Forall_lookup in Hf. by apply (Hf i _ H0).
  - eapply bounded_put; [done|]. destruct H as (Hc & Hb & _).
    unfold time_out, Shedder.timeout. by apply admission_fits.
  - eapply bounded_put; [done|]. by apply wake_fits.
  - eapply bounded_put; [done|]. by apply begin_fits.
  - eapply bounded_put; [done|]. by apply end_work_fits.
  - eapply bounded_put; [done|]. by apply finish_fits.
  - exact H.
Qed.

Lemma bounded_reachable (now : float) (w : World) (s : sys) :
  rtc step (boot c now w) s -> bounded s.
Proof.
  intros R. assert (H0 : bounded (boot c now w)).
  { split; [done|]. split; [|by constructor]. split; [apply init_range|].
    pose proof bound_nonneg. simpl. lia. }
  induction R as [|x y z Hs _ IH]; [done|]. by apply IH, (bounded_step x).
Qed.
End Bound.

(** Overload is refused, not absorbed.  While the configuration stands, no
    interleaving of requests puts more than the limit in flight: [SHED_LIMIT] (the
    pool's total when unset) in modes [static] and [priority] (at least one in the
    latter), 400 in [adaptive]; and the decision itself never raises. *)
Theorem inflight_bounded (c : values) (now : float) (w : World) (s : sys) :
  cfg_str "SHED_MODE" c <> "none" -> 0 <= configured_limit c <= 2 ^ 50 ->
  rtc step (boot c now w) s ->
  Shedder.inflight (shed s) <= slot_bound c /\
  forall tier, exists a, Shedder.allowance (cfg s) tier (shed s) = Some (Some a) /\
                         a <= slot_bound c.
Proof.
  intros Hm Hl R. destruct (bounded_reachable c Hm Hl now w s R) as (Hc & (Hg & Hi) & _).
  split; [lia|]. intros tier. rewrite Hc. by apply allowance_bound.
Qed.

Definition one_slot : values :=
  list_to_map [("SHED_MODE", CStr "static"); ("SHED_LIMIT", CInt 1)].

Lemma inflight_bounded_witness :
  Shedder.inflight (shed (boot one_slot (Fin 0) (world demo0))) <= 1.
Proof.
  destruct (inflight_bounded one_slot (Fin 0) (world demo0) (boot one_slot (Fin 0) (world demo0)))
    as [H _].
  - vm_compute. discriminate.
  - split; vm_compute; discriminate.
  - apply rtc_refl.
  - exact H.
Defined.

(** A request is answered with the status of its work, unless the response is
    dropped: then the client sees a 599, and the request counts as completed all
    the same when its work succeeded. *)
Theorem dropped_reply_counts_completed (e : env) (d : option float) (entry : Z)
    (o : outcome) (now : float) (s : sys) :
  o_status o < 400 ->
  let '(t, s') := finish e d entry (Outcome o) now s in
  Counters.read "completed" (cnt s') = Counters.read "completed" (cnt s) + 1 /\
  exists r, t = Replied r (Some (o_status o)) /\
    status r = if (Faults.should_drop (faults s) (world s)).1 then 599 else o_status o.
Proof.
  intros Ho. unfold finish.
  pose proof (completion_same d (o_status o <? 400) now (cnt s) "completed"
    ltac:(unfold handler_counters; set_solver)) as Hz.
  destruct (o_status o <? 400) eqn:E; to_props; [|lia].
  cbn [cnt set_shed] in *. destruct (record_completion _ _ _ _) as [z k]. cbn [snd] in Hz.
  cbn [faults world count set_cnt set_shed].
  destruct (Faults.should_drop (faults s) (world s)) as [[|] w]; cbn [fst];
    match goal with |- context [_respond ?a ?b ?c ?d ?x] =>
      pose proof (respond_spec a b c d x) as R; destruct (_respond a b c d x) as [r s'] end;
    destruct R as (Hst & _ & _ & _ & Hk); (split; [|by eexists]);
    rewrite Hk; cbn [cnt set_world set_cnt count]; rewrite read_inc_indicator; eval_indicators; lia.
Qed.

Lemma dropped_reply_counts_completed_witness :
  let s := mkSys open_config Shedder.init (Counters.init (Fin 0))
    (Faults.mk (Fin 0) (Fin 0) (of_Z 100)) (world demo0) [] in
  Counters.read "completed"
    (cnt (finish demo_env None 1 (Outcome (mkOutcome 200 ∅)) (Fin 0) s).2) = 1.
Proof.
  intros s.
  pose proof (dropped_reply_counts_completed demo_env None 1 (mkOutcome 200 ∅) (Fin 0) s
    ltac:(reflexivity)) as T.
  destruct (finish _ _ _ _ _ s) as [t s']. destruct T as [T _]. exact T.
Defined.
