(* ===== verification/LabIdempotency.v ===== *)
(** * Failure lab: idempotent payments

    Models src/05-failure/lab/app/idempotency.py.  Postgres is the interface
    [IdempotencyDB]: one operation per SQL statement the code sends, with the
    documented behaviour of that statement as its law ([INSERT .. ON CONFLICT ..
    DO UPDATE .. WHERE .. RETURNING], the serial column, [UPDATE .. WHERE]).  A
    transaction is one atomic change at its commit, and the requests interleave
    between transactions.  The body of a request is a type with the three things
    the code computes from it: its fingerprint, its amount and its currency.
    Database time is in microseconds. *)

From Stdlib Require Import ZArith Lia.
From stdpp Require Import base option list numbers strings gmap relations sets.
From S2P Require Import Prelude PyFloat.

Open Scope Z_scope.

(** ** Definitions *)

Record payload : Type := mkPayload { charge_id : Z; replayed : bool }.

#[export] Instance payload_eq_dec : EqDecision payload.
Proof. solve_decision. Defined.

Inductive key_state : Type := InProgress | Done.

(** A row of [idempotency_keys], and one of [charges]. *)
Record key_row : Type := mkKey {
  fp : string;
  state : key_state;
  stored : option payload;
  expires_at : Z;
}.

Record charge_row : Type := mkCharge {
  ch_id : Z;
  idem_key : string;
  amount_cents : Z;
  currency : string;
}.

(** The claim goes through when there is no row, or an expired one in progress. *)
Definition claimable (row : option key_row) (now : Z) : bool :=
  match row with
  | None => true
  | Some r => match state r with InProgress => expires_at r <? now | Done => false end
  end.

Definition claimed_row (row : option key_row) (f : string) (ttl now : Z) : key_row :=
  mkKey f InProgress (r ← row; stored r) (now + ttl * 1000000).

Definition published_row (p : payload) (r : key_row) : key_row :=
  mkKey (fp r) Done (Some p) (expires_at r).

Class IdempotencyDB (DB : Type) : Type := {
  keys_of : DB -> gmap string key_row;
  charges_of : DB -> list charge_row;
  empty_db : DB;
  claim : string -> string -> Z -> Z -> DB -> bool * DB;
  insert_charge : string -> Z -> string -> DB -> Z * DB;
  publish : string -> payload -> DB -> DB;
  find_charge : string -> DB -> option Z;
  truncate : DB -> DB;
  empty_spec : keys_of empty_db = ∅ /\ charges_of empty_db = [];
  claim_spec : forall k f ttl now db,
    (claim k f ttl now db).1 = claimable (keys_of db !! k) now /\
    keys_of (claim k f ttl now db).2 =
      (if claimable (keys_of db !! k) now
       then <[k := claimed_row (keys_of db !! k) f ttl now]> (keys_of db) else keys_of db) /\
    charges_of (claim k f ttl now db).2 = charges_of db;
  insert_spec : forall k a cur db,
    keys_of (insert_charge k a cur db).2 = keys_of db /\
    charges_of (insert_charge k a cur db).2 =
      charges_of db ++ [mkCharge (insert_charge k a cur db).1 k a cur] /\
    (insert_charge k a cur db).1 ∉ (ch_id <$> charges_of db);
  publish_spec : forall k p db,
    keys_of (publish k p db) = alter (published_row p) k (keys_of db) /\
    charges_of (publish k p db) = charges_of db;
  find_spec : forall k db,
    match find_charge k db with
    | Some id => exists r, r ∈ charges_of db /\ idem_key r = k /\ ch_id r = id
    | None => forall r, r ∈ charges_of db -> idem_key r <> k
    end;
  truncate_spec : forall db, keys_of (truncate db) = ∅ /\ charges_of (truncate db) = [];
}.

(** The answers, and their statuses. *)
Inductive reply : Type :=
| Charged (p : payload)
| Replayed (p : payload)
| Conflict
| KeyReused.

Definition status (r : reply) : Z :=
  match r with Charged _ => 201 | Replayed _ => 200 | Conflict => 409 | KeyReused => 422 end.

Section Idempotency.
Context {DB : Type} `{IdempotencyDB DB}.
Context {Body : Type} (fingerprint : Body -> string) (amount_of : Body -> Z)
  (currency_of : Body -> string).

(** [_insert_charge], inside a transaction. *)
Definition _insert_charge (key : string) (body : Body) (db : DB) : Z * DB :=
  insert_charge key (amount_of body) (currency_of body) db.

(** A request of [charge_correct] or of [charge_naive]: before its first
    statement; holding the claim it made, which expires at [until]; polling in
    [_replay] until a deadline of the process clock; past the naive [SELECT];
    answered; or gone with its process. *)
Inductive request : Type :=
| Start (key : string) (body : Body)
| Holding (key : string) (body : Body) (until : Z)
| Polling (key : string) (body : Body) (deadline : float)
| Unseen (key : string) (body : Body)
| Answered (key : string) (body : Body) (r : reply)
| Dead (key : string) (body : Body).

(** The first transaction of [charge_correct]: the claim. *)
Definition try_claim (ttl : Z) (wait_s mono : float) (key : string) (body : Body) (now : Z)
    (db : DB) : request * DB :=
  let '(mine, db') := claim key (fingerprint body) ttl now db in
  (if mine then Holding key body (now + ttl * 1000000)
   else Polling key body (mono + fmax (lit 5 100) wait_s)%F, db').

(** The second one: the work, the charge and the answer, in one commit. *)
Definition work_and_publish (key : string) (body : Body) (db : DB) : request * DB :=
  let '(id, db1) := _insert_charge key body db in
  let p := mkPayload id false in
  (Answered key body (Charged p), publish key p db1).

(** One round of the polling loop of [_replay]. *)
Definition poll (key : string) (body : Body) (deadline mono : float) (db : DB) : request :=
  match keys_of db !! key with
  | None => Answered key body Conflict
  | Some r =>
      if negb (bool_decide (fp r = fingerprint body)) then Answered key body KeyReused
      else
        match state r, stored r with
        | Done, Some p => Answered key body (Replayed (mkPayload (charge_id p) true))
        | _, _ => if (deadline <=? mono)%F then Answered key body Conflict
                  else Polling key body deadline
        end
  end.

(** [charge_naive]: the [SELECT], then the [INSERT]. *)
Definition naive_select (key : string) (body : Body) (db : DB) : request :=
  match find_charge key db with
  | Some id => Answered key body (Replayed (mkPayload id true))
  | None => Unseen key body
  end.

Definition naive_insert (key : string) (body : Body) (db : DB) : request * DB :=
  let '(id, db') := _insert_charge key body db in
  (Answered key body (Charged (mkPayload id false)), db').

(** [report] counts, on the database, what the experiment asserts: charges, keys,
    expired claims and distinct answers; [reset] truncates both tables. *)
Record report_t : Type := mkReport {
  charge_rows : nat;
  idempotency_keys : nat;
  orphaned_in_progress : nat;
  distinct_responses : nat;
}.

Definition orphaned (now : Z) (r : key_row) : bool :=
  match state r with InProgress => expires_at r <? now | Done => false end.

Definition done_response (r : key_row) : option payload :=
  match state r with Done => stored r | InProgress => None end.

Definition report (now : Z) (d : DB) : report_t :=
  let rows := (map_to_list (keys_of d)).*2 in
  mkReport (length (charges_of d)) (size (keys_of d))
    (length (List.filter (orphaned now) rows))
    (length (remove_dups (omap done_response rows))).

Definition reset (d : DB) : DB := truncate d.

(** The database, its clock, and the requests. *)
Record world : Type := mkWorld { db : DB; clock : Z; requests : list request }.

Definition update (i : nat) (rd : request * DB) (w : world) : world :=
  mkWorld rd.2 (clock w) (<[i := rd.1]> (requests w)).

(** One transaction, or one other event, in mode [correct]. *)
Inductive step (ttl : Z) (wait_s : float) : world -> world -> Prop :=
| step_arrive key body w :
    step ttl wait_s w (mkWorld (db w) (clock w) (requests w ++ [Start key body]))
| step_tick now w : clock w <= now -> step ttl wait_s w (mkWorld (db w) now (requests w))
| step_claim i key body mono w :
    requests w !! i = Some (Start key body) ->
    step ttl wait_s w (update i (try_claim ttl wait_s mono key body (clock w) (db w)) w)
| step_commit i key body until w :
    requests w !! i = Some (Holding key body until) ->
    step ttl wait_s w (update i (work_and_publish key body (db w)) w)
| step_poll i key body deadline mono w :
    requests w !! i = Some (Polling key body deadline) ->
    step ttl wait_s w (update i (poll key body deadline mono (db w), db w) w)
| step_crash i key body r w :
    requests w !! i = Some r ->
    (r = Start key body \/ (exists u, r = Holding key body u) \/ exists d, r = Polling key body d) ->
    step ttl wait_s w (update i (Dead key body, db w) w).

(** A run in which no holder outlives its claim: every commit comes before its
    claim expires. *)
Definition timely_step (ttl : Z) (wait_s : float) (w w' : world) : Prop :=
  step ttl wait_s w w' /\
  forall i key body until r,
    requests w !! i = Some (Holding key body until) ->
    requests w' !! i = Some (Answered key body r) -> clock w <= until.

(** In mode [naive]. *)
Inductive naive_step : world -> world -> Prop :=
| naive_arrive key body w :
    naive_step w (mkWorld (db w) (clock w) (requests w ++ [Start key body]))
| naive_selects i key body w :
    requests w !! i = Some (Start key body) ->
    naive_step w (update i (naive_select key body (db w), db w) w)
| naive_inserts i key body w :
    requests w !! i = Some (Unseen key body) ->
    naive_step w (update i (naive_insert key body (db w)) w).

Definition fresh : world := mkWorld empty_db 0 [].

(** The charges made under a key. *)
Definition charges_for (key : string) (d : DB) : list charge_row :=
  filter (fun r => idem_key r = key) (charges_of d).

(** ** Lemmas *)

Implicit Types w : world.

Lemma update_lookup (i j : nat) (rd : request * DB) (w : world) (r : request) :
  requests (update i rd w) !! j = Some r ->
  (j = i /\ r = rd.1) \/ (j <> i /\ requests w !! j = Some r).
Proof.
  simpl. intros Hj. apply list_lookup_insert_Some in Hj as [(-> & -> & _)|[? ?]];
    [by left|right; by split].
Qed.

Lemma charges_for_insert (k : string) (body : Body) (key : string) (d : DB) :
  charges_for k (_insert_charge key body d).2 =
    charges_for k d ++
      (if decide (key = k)
       then [mkCharge (_insert_charge key body d).1 key (amount_of body) (currency_of body)]
       else []).
Proof.
  unfold charges_for, _insert_charge.
  destruct (insert_spec key (amount_of body) (currency_of body) d) as (_ & -> & _).
  by rewrite filter_app.
Qed.

(** What the two tables look like when no holder outlives its claim: a key in
    progress has no charge; a finished one has exactly one, whose answer it
    stores. *)
Definition row_ok (k : string) (d : DB) : Prop :=
  match keys_of d !! k with
  | None => charges_for k d = []
  | Some r =>
      match state r with
      | InProgress => charges_for k d = []
      | Done => exists c, charges_for k d = [c] /\ stored r = Some (mkPayload (ch_id c) false)
      end
  end.

(** A live holder owns the row it claimed. *)
Definition owns (w : world) (key : string) (body : Body) (until : Z) : Prop :=
  exists r, keys_of (db w) !! key = Some r /\ state r = InProgress /\
            fp r = fingerprint body /\ expires_at r = until.

(** A successful answer is the stored one, for the same body. *)
Definition answer_ok (d : DB) (key : string) (body : Body) (p : payload) : Prop :=
  exists r p0, keys_of d !! key = Some r /\ state r = Done /\ fp r = fingerprint body /\
               stored r = Some p0 /\ charge_id p = charge_id p0.

Definition request_ok (w : world) (r : request) : Prop :=
  match r with
  | Holding key body until => clock w <= until -> owns w key body until
  | Answered key body (Charged p) | Answered key body (Replayed p) => answer_ok (db w) key body p
  | _ => True
  end.

Record inv (w : world) : Prop := {
  inv_rows : forall k, row_ok k (db w);
  inv_requests : forall i r, requests w !! i = Some r -> request_ok w r;
  inv_one : forall i j k b b' u u',
    requests w !! i = Some (Holding k b u) -> requests w !! j = Some (Holding k b' u') ->
    clock w <= u -> clock w <= u' -> i = j;
}.

Lemma inv_fresh : inv fresh.
Proof.
  destruct empty_spec as [Hk Hc]. split; [|done..].
  intros k. unfold row_ok, fresh. simpl. rewrite Hk, lookup_empty.
  unfold charges_for. by rewrite Hc.
Qed.

(** A change of the database that keeps the rows of other requests' answers. *)
Lemma answer_keep (d d' : DB) (key : string) (body : Body) (p : payload) :
  (forall k r, keys_of d !! k = Some r -> state r = Done -> keys_of d' !! k = Some r) ->
  answer_ok d key body p -> answer_ok d' key body p.
Proof. intros Hk (r & p0 & H1 & H2 & ?). exists r, p0. split; [by apply Hk|]. by split. Qed.

(** The claim and the commit, and what they do to the rows. *)
Lemma row_ok_other (k key : string) (d d' : DB) :
  k <> key -> keys_of d' !! k = keys_of d !! k -> charges_for k d' = charges_for k d ->
  row_ok k d -> row_ok k d'.
Proof. unfold row_ok. by intros _ -> ->. Qed.

Lemma try_claim_cases (ttl : Z) (wait_s mono : float) (key : string) (body : Body) (now : Z)
    (d : DB) :
  let '(r, d') := try_claim ttl wait_s mono key body now d in
  charges_of d' = charges_of d /\
  ((claimable (keys_of d !! key) now = true /\ r = Holding key body (now + ttl * 1000000) /\
    keys_of d' = <[key := claimed_row (keys_of d !! key) (fingerprint body) ttl now]> (keys_of d)) \/
   (claimable (keys_of d !! key) now = false /\ keys_of d' = keys_of d /\
    exists dl, r = Polling key body dl)).
Proof.
  unfold try_claim. destruct (claim_spec key (fingerprint body) ttl now d) as (H1 & H2 & H3).
  destruct (claim key (fingerprint body) ttl now d) as [mine d']. simpl in *.
  split; [done|]. rewrite <- H1 in H2 |- *. destruct mine; [left|right]; [done|].
  split; [done|]. split; [done|]. by eexists.
Qed.

Lemma work_cases (key : string) (body : Body) (d : DB) :
  let '(r, d') := work_and_publish key body d in
  exists c, r = Answered key body (Charged (mkPayload (ch_id c) false)) /\ idem_key c = key /\
    keys_of d' = alter (published_row (mkPayload (ch_id c) false)) key (keys_of d) /\
    forall k, charges_for k d' = charges_for k d ++ (if decide (key = k) then [c] else []).
Proof.
  unfold work_and_publish. pose proof (charges_for_insert) as Hf.
  destruct (insert_spec key (amount_of body) (currency_of body) d) as (Hk & Hc & _).
  specialize (Hf : forall k body key d, _).
  unfold _insert_charge in *.
  destruct (insert_charge key (amount_of body) (currency_of body) d) as [id d1] eqn:E. simpl in *.
  exists (mkCharge id key (amount_of body) (currency_of body)). simpl.
  destruct (publish_spec key (mkPayload id false) d1) as [Pk Pc].
  split; [done|]. split; [done|]. split; [by rewrite Pk, Hk|].
  intros k. unfold charges_for. rewrite Pc. specialize (Hf k body key d). rewrite E in Hf. exact Hf.
Qed.

(** A request that does not touch the database. *)
Lemma inv_reply (w : world) (i : nat) (r : request) :
  inv w -> request_ok w r -> (forall k b u, r <> Holding k b u) -> inv (update i (r, db w) w).
Proof.
  intros [H1 H2 H3] Hr Hn. split; [exact H1| |].
  - intros j r' Hj. apply update_lookup in Hj as [[-> ->]|[_ Hj]]; [exact Hr|]. by apply (H2 j).
  - intros j j' k b b' u u' Hj Hj'.
    apply update_lookup in Hj as [[_ Hj]|[_ Hj]]; [by destruct (Hn k b u)|].
    apply update_lookup in Hj' as [[_ Hj']|[_ Hj']]; [by destruct (Hn k b' u')|].
    by eapply H3.
Qed.

Lemma poll_ok (w : world) (key : string) (body : Body) (dl mono : float) :
  inv w -> request_ok w (poll key body dl mono (db w)) /\
  forall k b u, poll key body dl mono (db w) <> Holding k b u.
Proof.
  intros [H1 _ _]. specialize (H1 key). unfold poll, row_ok in *.
  destruct (keys_of (db w) !! key) as [r|] eqn:E; [|by split].
  case_bool_decide as Hf; simpl; [|by split].
  destruct (state r) eqn:Es.
  - destruct (fleb dl mono); by split.
  - destruct H1 as (c & _ & Hs). rewrite Hs. split; [|done].
    exists r, (mkPayload (ch_id c) false). by split_and!.
Qed.

Lemma inv_claim (ttl : Z) (wait_s mono : float) (w : world) (i : nat) (key : string)
    (body : Body) :
  inv w -> inv (update i (try_claim ttl wait_s mono key body (clock w) (db w)) w).
Proof.
  intros Hi. pose proof Hi as [H1 H2 H3].
  pose proof (try_claim_cases ttl wait_s mono key body (clock w) (db w)) as C.
  destruct (try_claim _ _ _ _ _ _ _) as [r d'].
  destruct C as (Hc & [(Hcl & -> & Hk)|(Hcl & Hk & dl & ->)]).
  2:{ split.
      - intros k. specialize (H1 k). unfold row_ok, charges_for in *. simpl. by rewrite Hk, Hc.
      - intros j r Hj. apply update_lookup in Hj as [[-> ->]|[_ Hj]]; [done|].
        specialize (H2 j r Hj). unfold request_ok, owns, answer_ok in *. simpl. by rewrite Hk.
      - intros j j' k b b' u u' Hj Hj'.
        apply update_lookup in Hj as [[_ [=]]|[_ Hj]].
        apply update_lookup in Hj' as [[_ [=]]|[_ Hj']]. by eapply H3. }
  assert (Hfree : forall j b u, requests w !! j = Some (Holding key b u) -> clock w <= u -> False).
  { intros j b u Hj Hu. destruct (H2 _ _ Hj Hu) as (r & Hr & Hs & _ & He).
    rewrite Hr in Hcl. simpl in Hcl. rewrite Hs in Hcl. to_props. lia. }
  assert (Hkeep : forall k r, keys_of (db w) !! k = Some r -> state r = Done ->
                  keys_of d' !! k = Some r).
  { intros k r Hr Hs. rewrite Hk. destruct (decide (k = key)) as [->|];
      [|by rewrite lookup_insert_ne]. rewrite Hr in Hcl. simpl in Hcl. by rewrite Hs in Hcl. }
  assert (Hrow : charges_for key (db w) = []).
  { specialize (H1 key). unfold row_ok in H1. destruct (keys_of (db w) !! key) as [r|]; [|done].
    simpl in Hcl. by destruct (state r). }
  split.
  - intros k. unfold row_ok, charges_for in *. simpl. rewrite Hk, Hc.
    destruct (decide (k = key)) as [->|Hne]; [by rewrite lookup_insert_eq|].
    rewrite lookup_insert_ne by done. apply H1.
  - intros j r Hj. apply update_lookup in Hj as [[-> ->]|[Hne Hj]].
    + intros _. exists (claimed_row (keys_of (db w) !! key) (fingerprint body) ttl (clock w)).
      simpl. rewrite Hk, lookup_insert_eq. by split_and!.
    + specialize (H2 j r Hj). destruct r as [| k b u| | |k b [p|p| |]|]; simpl in *; try done.
      * intros Hu. destruct (H2 Hu) as (r & Hr & ?). exists r. simpl.
        destruct (decide (k = key)) as [->|]; [by destruct (Hfree j b u Hj Hu)|].
        by rewrite Hk, lookup_insert_ne.
      * eapply answer_keep; [|exact H2]. exact Hkeep.
      * eapply answer_keep; [|exact H2]. exact Hkeep.
  - intros j j' k b b' u u' Hj Hj' Hu Hu'. simpl in Hu, Hu'.
    apply update_lookup in Hj as [[-> [= -> -> ->]]|[Hne Hj]];
      apply update_lookup in Hj' as [[-> Hj']|[Hne' Hj']]; try done.
    + by destruct (Hfree j' b' u' Hj' Hu').
    + injection Hj' as -> -> ->. by destruct (Hfree j b u Hj Hu).
    + by eapply H3.
Qed.

Lemma inv_commit (w : world) (i : nat) (key : string) (body : Body) (until : Z) :
  inv w -> requests w !! i = Some (Holding key body until) -> clock w <= until ->
  inv (update i (work_and_publish key body (db w)) w).
Proof.
  intros [H1 H2 H3] Hreq Hu. pose proof (H2 _ _ Hreq Hu) as (r0 & Hr0 & Hs0 & Hf0 & He0).
  pose proof (work_cases key body (db w)) as C.
  destruct (work_and_publish key body (db w)) as [r d'].
  destruct C as (c & -> & Hid & Hk & Hc).
  assert (Hrow : charges_for key (db w) = [])
    by (specialize (H1 key); unfold row_ok in H1; by rewrite Hr0, Hs0 in H1).
  assert (Hnew : keys_of d' !! key = Some (published_row (mkPayload (ch_id c) false) r0))
    by (by rewrite Hk, lookup_alter_eq, Hr0).
  assert (Hold : forall k, k <> key -> keys_of d' !! k = keys_of (db w) !! k)
    by (intros k Hne; rewrite Hk; by apply lookup_alter_ne).
  split.
  - intros k. specialize (H1 k). destruct (decide (k = key)) as [->|Hne].
    + unfold row_ok. simpl. rewrite Hnew. simpl. exists c. split; [|done].
      rewrite Hc, Hrow. by rewrite decide_True.
    + unfold row_ok in *. simpl. rewrite Hold, Hc, decide_False, app_nil_r by done. exact H1.
  - intros j r Hj. apply update_lookup in Hj as [[-> ->]|[Hne Hj]].
    + exists (published_row (mkPayload (ch_id c) false) r0), (mkPayload (ch_id c) false).
      simpl. by split_and!.
    + assert (Hkeep : forall k r, keys_of (db w) !! k = Some r -> state r = Done ->
                      keys_of d' !! k = Some r).
      { intros k r' Hr' Hs'. rewrite Hold; [done|]. intros ->. congruence. }
      specialize (H2 j r Hj). destruct r as [| k b u| | |k b [p|p| |]|]; simpl in *; try done.
      * intros Hu'. destruct (decide (k = key)) as [->|Hne'].
        -- destruct Hne. by eapply H3.
        -- destruct (H2 Hu') as (r & Hr & ?). exists r. simpl. by rewrite Hold.
      * by eapply answer_keep.
      * by eapply answer_keep.
  - intros j j' k b b' u u' Hj Hj'. simpl.
    apply update_lookup in Hj as [[_ [=]]|[_ Hj]].
    apply update_lookup in Hj' as [[_ [=]]|[_ Hj']]. by eapply H3.
Qed.

Lemma charges_inv_step (ttl : Z) (wait_s : float) (w w' : world) :
  inv w -> timely_step ttl wait_s w w' -> inv w'.
Proof.
  intros Hi [Hs Ht]. destruct Hs.
  - destruct Hi as [H1 H2 H3]. split; [exact H1| |].
    + intros j r Hj. simpl in Hj. apply lookup_app_Some in Hj as [Hj|[_ Hj]]; [by eapply H2|].
      apply list_lookup_singleton_Some in Hj as [_ <-]. done.
    + intros j j' k b b' u u' Hj Hj'. simpl in *.
      apply lookup_app_Some in Hj as [Hj|[_ Hj]];
        [|by apply list_lookup_singleton_Some in Hj as [_ [=]]].
      apply lookup_app_Some in Hj' as [Hj'|[_ Hj']];
        [|by apply list_lookup_singleton_Some in Hj' as [_ [=]]]. by eapply H3.
  - destruct Hi as [H1 H2 H3]. split; [exact H1| |].
    + intros j r Hj. specialize (H2 j r Hj). destruct r; simpl in *; try done.
      intros Hu. apply H2. lia.
    + intros j j' k b b' u u' Hj Hj' Hu Hu'. simpl in *. eapply H3; [done..| |]; lia.
  - by apply inv_claim.
  - apply inv_commit with until; [done..|].
    specialize (Ht i key body until).
    pose proof (work_cases key body (db w)) as C.
    destruct (work_and_publish key body (db w)) as [r d'] eqn:E.
    destruct C as (c & -> & _). eapply Ht; [done|]. simpl.
    apply list_lookup_insert_eq. by eapply lookup_lt_Some.
  - destruct (poll_ok w key body deadline mono Hi). by apply inv_reply.
  - by apply inv_reply.
Qed.

Lemma charges_inv_reachable (ttl : Z) (wait_s : float) (w : world) :
  rtc (timely_step ttl wait_s) fresh w -> inv w.
Proof.
  intros R. pose proof inv_fresh as H0. induction R as [|x y z Hs _ IH]; [done|].
  by apply IH, (charges_inv_step ttl wait_s x).
Qed.

(** ** Properties *)

(** The charge a successful answer names. *)
Definition charged_id (r : reply) : option Z :=
  match r with Charged p | Replayed p => Some (charge_id p) | _ => None end.

(** C1: Exactly one charge.  At every level of concurrency, with any crashes, and as
    long as no holder outlives its claim, a key has at most one charge; every
    successful answer for it names that charge; and all successful answers for it
    went to requests with the same body fingerprint. *)
Theorem charge_correct_exactly_once (ttl : Z) (wait_s : float) (w : world) (key : string) :
  rtc (timely_step ttl wait_s) fresh w ->
  (length (charges_for key (db w)) <= 1)%nat /\
  (forall i body r id,
     requests w !! i = Some (Answered key body r) -> charged_id r = Some id ->
     ch_id <$> charges_for key (db w) = [id]) /\
  (forall i j body body' r r',
     requests w !! i = Some (Answered key body r) ->
     requests w !! j = Some (Answered key body' r') ->
     is_Some (charged_id r) -> is_Some (charged_id r') -> fingerprint body = fingerprint body').
Proof.
  intros R. apply charges_inv_reachable in R as [H1 H2 _]. specialize (H1 key).
  assert (Ha : forall i body r id, requests w !! i = Some (Answered key body r) ->
    charged_id r = Some id -> exists row p0, keys_of (db w) !! key = Some row /\ state row = Done /\
      fp row = fingerprint body /\ stored row = Some p0 /\ id = charge_id p0).
  { intros i body r id Hi Hid. specialize (H2 i _ Hi). destruct r; simpl in *; simplify_eq;
      destruct H2 as (row & p0 & ? & ? & ? & ? & ?); by exists row, p0. }
  unfold row_ok in H1. split; [|split].
  - destruct (keys_of (db w) !! key) as [row|]; [|by rewrite H1; simpl; lia].
    destruct (state row); [by rewrite H1; simpl; lia|]. destruct H1 as (c & -> & _). simpl. lia.
  - intros i body r id Hi Hid. destruct (Ha i body r id Hi Hid) as (row & p0 & Hr & Hs & _ & Hp & ->).
    rewrite Hr, Hs in H1. destruct H1 as (c & -> & Hc). rewrite Hp in Hc. simplify_eq. done.
  - intros i j body body' r r' Hi Hj [id Hid] [id' Hid'].
    destruct (Ha _ _ _ _ Hi Hid) as (row & p0 & Hr & _ & Hf & _).
    destruct (Ha _ _ _ _ Hj Hid') as (row' & p0' & Hr' & _ & Hf' & _). congruence.
Qed.

(** A slow holder charges twice.  [UPDATE .. WHERE key = :k] does not ask who
    holds the claim, so a request that is still working when its claim expires is
    robbed of it by a retry, and both commit: from any state where no row has the
    key, four transactions and one pause longer than the TTL leave two charges. *)
Theorem slow_holder_charges_twice (ttl : Z) (wait_s : float) (key : string) (body : Body)
    (w : world) (i j : nat) :
  i <> j -> 0 <= ttl ->
  requests w !! i = Some (Start key body) -> requests w !! j = Some (Start key body) ->
  keys_of (db w) !! key = None -> charges_for key (db w) = [] ->
  exists w', rtc (step ttl wait_s) w w' /\ length (charges_for key (db w')) = 2%nat /\
    (exists p, requests w' !! i = Some (Answered key body (Charged p))) /\
    (exists p, requests w' !! j = Some (Answered key body (Charged p))).
Proof.
  intros Hij Httl Hi Hj Hk Hc.
  pose proof (try_claim_cases ttl wait_s (Fin 0) key body (clock w) (db w)) as C1.
  pose proof (step_claim ttl wait_s i key body (Fin 0) w Hi) as S1.
  destruct (try_claim _ _ _ _ _ (clock w) (db w)) as [r1 d1].
  rewrite Hk in C1. destruct C1 as (Hc1 & [(_ & -> & Hk1)|([=] & _)]).
  set (w1 := update i _ w) in S1. set (now := clock w + ttl * 1000000 + 1).
  assert (S2 : step ttl wait_s w1 (mkWorld (db w1) now (requests w1)))
    by (apply step_tick; unfold w1, now; simpl; lia).
  set (w2 := mkWorld (db w1) now (requests w1)) in S2.
  assert (Hj2 : requests w2 !! j = Some (Start key body))
    by (simpl; by rewrite list_lookup_insert_ne).
  pose proof (try_claim_cases ttl wait_s (Fin 0) key body now (db w2)) as C3.
  pose proof (step_claim ttl wait_s j key body (Fin 0) w2 Hj2) as S3.
  change (clock w2) with now in S3.
  destruct (try_claim _ _ _ _ _ now (db w2)) as [r3 d3].
  change (db w2) with d1 in C3. rewrite Hk1, lookup_insert_eq in C3.
  assert (Hst : claimable (Some (claimed_row None (fingerprint body) ttl (clock w))) now = true)
    by (simpl; apply Z.ltb_lt; unfold now; lia).
  rewrite Hst in C3. destruct C3 as (Hc3 & [(_ & -> & Hk3)|([=] & _)]).
  set (w3 := update j _ w2) in S3.
  assert (Hi3 : requests w3 !! i = Some (Holding key body (clock w + ttl * 1000000))).
  { simpl. rewrite list_lookup_insert_ne by done. apply list_lookup_insert_eq.
    by eapply lookup_lt_Some. }
  pose proof (work_cases key body d3) as C4. pose proof (step_commit ttl wait_s i _ _ _ w3 Hi3) as S4.
  change (db w3) with d3 in S4.
  destruct (work_and_publish key body d3) as [r4 d4]. destruct C4 as (c4 & -> & _ & _ & Hc4).
  set (w4 := update i _ w3) in S4.
  assert (Hj4 : requests w4 !! j = Some (Holding key body (now + ttl * 1000000))).
  { simpl. rewrite list_lookup_insert_ne by done. apply list_lookup_insert_eq.
    rewrite length_insert. by eapply lookup_lt_Some. }
  pose proof (work_cases key body d4) as C5. pose proof (step_commit ttl wait_s j _ _ _ w4 Hj4) as S5.
  change (db w4) with d4 in S5.
  destruct (work_and_publish key body d4) as [r5 d5]. destruct C5 as (c5 & -> & _ & _ & Hc5).
  exists (update j (Answered key body (Charged (mkPayload (ch_id c5) false)), d5) w4).
  split; [by do 5 (eapply rtc_l; [eassumption|])|]. split; [|split].
  - simpl. rewrite Hc5, Hc4, !decide_True by done.
    assert (charges_for key d3 = []) as -> by (unfold charges_for in *; by rewrite Hc3, Hc1).
    done.
  - eexists. simpl. rewrite list_lookup_insert_ne by done.
    apply list_lookup_insert_eq. rewrite !length_insert. by eapply lookup_lt_Some.
  - eexists. simpl. apply list_lookup_insert_eq. rewrite !length_insert. by eapply lookup_lt_Some.
Qed.

(** The naive race: any number of requests that run their [SELECT] before any of
    them runs its [INSERT] make as many charges. *)
Lemma naive_selects_all (key : string) (body : Body) (n : nat) (w : world) (done_ : nat) :
  find_charge key (db w) = None ->
  requests w = replicate done_ (Unseen key body) ++ replicate n (Start key body) ->
  rtc naive_step w (mkWorld (db w) (clock w) (replicate (done_ + n) (Unseen key body))).
Proof.
  intros Hf. destruct w as [d c rs]. simpl in *. revert done_ rs.
  induction n as [|n IH]; intros k rs ->.
  - rewrite app_nil_r, Nat.add_0_r. apply rtc_refl.
  - eapply rtc_l.
    + apply (naive_selects k key body). simpl.
      rewrite lookup_app_r, length_replicate, Nat.sub_diag by (rewrite length_replicate; lia). done.
    + unfold update, naive_select. simpl. rewrite Hf. simpl.
      replace (k + S n)%nat with (S k + n)%nat by lia. apply IH.
      rewrite insert_app_r_alt, length_replicate, Nat.sub_diag by (rewrite length_replicate; lia).
      change (replicate k (Unseen key body) ++ [Unseen key body] ++ replicate n (Start key body) =
        replicate (S k) (Unseen key body) ++ replicate n (Start key body)).
      by rewrite replicate_S_end, <- app_assoc.
Qed.

Lemma naive_inserts_all (key : string) (body : Body) (n : nat) (w : world) (rs : list request) :
  requests w = rs ++ replicate n (Unseen key body) ->
  exists w', rtc naive_step w w' /\
    length (charges_for key (db w')) = (length (charges_for key (db w)) + n)%nat /\
    requests w' = rs ++ drop (length rs) (requests w') /\
    Forall (fun r => exists p, r = Answered key body (Charged p)) (drop (length rs) (requests w')).
Proof.
  revert w rs. induction n as [|n IH]; intros w rs Hr.
  { exists w. split; [apply rtc_refl|]. split; [lia|]. rewrite Hr. simpl. rewrite app_nil_r.
    rewrite drop_all. by rewrite app_nil_r. }
  assert (Hi : requests w !! length rs = Some (Unseen key body)).
  { rewrite Hr, lookup_app_r, Nat.sub_diag by lia. done. }
  pose proof (naive_inserts (length rs) key body w Hi) as S1.
  pose proof (charges_for_insert key body key (db w)) as Hc. rewrite decide_True in Hc by done.
  unfold naive_insert in S1. destruct (_insert_charge key body (db w)) as [id d'].
  set (a := Answered key body (Charged (mkPayload id false))) in S1.
  destruct (IH (update (length rs) (a, d') w) (rs ++ [a])) as (w' & Hs & Hl & Hp & Hf).
  { simpl. rewrite Hr, insert_app_r_alt, Nat.sub_diag by lia. simpl. by rewrite <- app_assoc. }
  rewrite length_app in Hp, Hf. simpl in Hl, Hc. exists w'. split; [by eapply rtc_l|].
  split; [rewrite Hl, Hc, length_app; simpl; lia|].
  assert (Hd : drop (length rs) (requests w') = a :: drop (length rs + 1) (requests w')).
  { rewrite Hp at 1. rewrite <- app_assoc, drop_app_length. simpl. done. }
  rewrite Hd. split; [rewrite Hp at 1; by rewrite <- app_assoc|].
  constructor; [by eexists|exact Hf].
Qed.

(** The naive mode charges once per concurrent request: [n] requests with the same
    key can end in [n] charges, every one of them answered 201. *)
Theorem naive_charges_each (key : string) (body : Body) (d : DB) (n : nat) :
  charges_for key d = [] ->
  exists w', rtc naive_step (mkWorld d 0 (replicate n (Start key body))) w' /\
    length (charges_for key (db w')) = n /\
    Forall (fun r => exists p, r = Answered key body (Charged p)) (requests w').
Proof.
  intros Hc. assert (Hf : find_charge key d = None).
  { pose proof (find_spec key d) as Hs. destruct (find_charge key d) as [id|]; [|done].
    destruct Hs as (r & Hr & Hk & _). unfold charges_for in Hc.
    assert (r ∈ filter (fun r => idem_key r = key) (charges_of d)) as Hin
      by (by apply list_elem_of_filter). rewrite Hc in Hin. by apply elem_of_nil in Hin. }
  pose proof (naive_selects_all key body n (mkWorld d 0 (replicate n (Start key body))) 0 Hf
    ltac:(reflexivity)) as R1.
  destruct (naive_inserts_all key body n (mkWorld d 0 (replicate n (Unseen key body))) [])
    as (w' & R2 & Hl & _ & Hall); [reflexivity|].
  exists w'. split; [by etrans|]. split; [|exact Hall].
  rewrite Hl. simpl. by rewrite Hc.
Qed.

(** No claim blocks a key for ever.  In a state reached without an overrun, once
    the database clock has passed the expiry of the key's row, a new request
    either takes the claim over, or finds the finished answer at its first poll:
    a replay for the same body, a 422 for another. *)
Theorem orphan_never_blocks (ttl : Z) (wait_s mono dl : float) (w : world) (key : string)
    (body : Body) (row : key_row) :
  rtc (timely_step ttl wait_s) fresh w ->
  keys_of (db w) !! key = Some row -> expires_at row < clock w ->
  (exists u, (try_claim ttl wait_s mono key body (clock w) (db w)).1 = Holding key body u) \/
  (exists p, poll key body dl mono (db w) = Answered key body (Replayed p) /\
             fp row = fingerprint body) \/
  (poll key body dl mono (db w) = Answered key body KeyReused /\ fp row <> fingerprint body).
Proof.
  intros R Hr He. apply charges_inv_reachable in R as [H1 _ _]. specialize (H1 key).
  unfold row_ok in H1. rewrite Hr in H1.
  pose proof (try_claim_cases ttl wait_s mono key body (clock w) (db w)) as C.
  destruct (try_claim _ _ _ _ _ _ _) as [r d']. rewrite Hr in C. simpl in C.
  destruct (state row) eqn:Es.
  - left. replace (expires_at row <? clock w) with true in C by (symmetry; by apply Z.ltb_lt).
    destruct C as (_ & [(_ & -> & _)|([=] & _)]). by eexists.
  - right. unfold poll. rewrite Hr. case_bool_decide as Hf; simpl; [left|by right].
    destruct H1 as (c & _ & Hs). rewrite Es, Hs. by eexists.
Qed.
End Idempotency.

(** ** A database that meets the interface, for the witnesses *)

Record table_db : Type := mkTables {
  t_keys : gmap string key_row;
  t_charges : list charge_row;
}.

Definition next_id (d : table_db) : Z := 1 + foldr Z.max 0 (ch_id <$> t_charges d).

Lemma next_id_fresh (l : list Z) : 1 + foldr Z.max 0 l ∉ l.
Proof.
  assert (H : forall x, x ∈ l -> x <= foldr Z.max 0 l).
  { induction l as [|y l IH]; intros x Hx; [by apply elem_of_nil in Hx|].
    apply elem_of_cons in Hx as [->|Hx]; simpl; [lia|]. specialize (IH x Hx). lia. }
  intros Hin. specialize (H _ Hin). lia.
Qed.

#[export] Instance table_idempotency_db : IdempotencyDB table_db.
Proof.
  refine {|
    keys_of := t_keys;
    charges_of := t_charges;
    empty_db := mkTables ∅ [];
    claim := fun k f ttl now d =>
      if claimable (t_keys d !! k) now
      then (true, mkTables (<[k := claimed_row (t_keys d !! k) f ttl now]> (t_keys d)) (t_charges d))
      else (false, d);
    insert_charge := fun k a cur d =>
      (next_id d, mkTables (t_keys d) (t_charges d ++ [mkCharge (next_id d) k a cur]));
    publish := fun k p d => mkTables (alter (published_row p) k (t_keys d)) (t_charges d);
    find_charge := fun k d =>
      ch_id <$> head (filter (fun r => idem_key r = k) (t_charges d));
    truncate := fun _ => mkTables ∅ [];
  |}.
  - done.
  - intros k f ttl now d. by destruct (claimable _ _).
  - intros k a cur d. split; [done|]. split; [done|]. apply next_id_fresh.
  - done.
  - intros k d. destruct (filter _ (t_charges d)) as [|r l] eqn:E; simpl.
    + intros r Hr Hk. assert (Hin : r ∈ filter (fun r => idem_key r = k) (t_charges d))
        by (by apply list_elem_of_filter). rewrite E in Hin. by apply elem_of_nil in Hin.
    + assert (Hin : r ∈ filter (fun r => idem_key r = k) (t_charges d))
        by (rewrite E; by left). apply list_elem_of_filter in Hin as [Hk Hr]. by exists r.
  - done.
Defined.

(** *** Witnesses *)

Section Witnesses.
#[local] Abbreviation fpr := (fun b : string => b).
#[local] Abbreviation amt := (fun _ : string => 100).
#[local] Abbreviation cur := (fun _ : string => "usd").

(** One request that claimed, worked and answered. *)
Definition paid0 : world (DB := table_db) (Body := string) := fresh.
Definition paid1 := mkWorld (db paid0) (clock paid0) (requests paid0 ++ [Start "k" "body"]).
Definition paid2 := update 0 (try_claim fpr 60 (Fin 0) (Fin 0) "k" "body" 0 (db paid1)) paid1.
Definition paid3 := update 0 (work_and_publish amt cur "k" "body" (db paid2)) paid2.

Lemma paid_reachable : rtc (timely_step fpr amt cur 60 (Fin 0)) fresh paid3.
Proof.
  apply rtc_l with paid1; [split; [apply (step_arrive fpr amt cur)|by intros []]|].
  apply rtc_l with paid2.
  { split; [exact (step_claim fpr amt cur 60 (Fin 0) 0 "k" "body" (Fin 0) paid1 eq_refl)|].
    intros [|[]] key body u r H; discriminate H. }
  apply rtc_once. split.
  - exact (step_commit fpr amt cur 60 (Fin 0) 0 "k" "body" 60000000 paid2 eq_refl).
  - intros [|[]] key body u r H; try discriminate H.
    change (Some (Holding "k" "body" 60000000) = Some (Holding key body u)) in H.
    injection H as <- <- <-. intros _. vm_compute. discriminate.
Qed.
End Witnesses.

Lemma charge_correct_exactly_once_witness :
  (length (charges_for "k" (db paid3)) <= 1)%nat /\ ch_id <$> charges_for "k" (db paid3) = [1].
Proof.
  destruct (charge_correct_exactly_once (fun b => b) (fun _ => 100) (fun _ => "usd") 60 (Fin 0)
              paid3 "k" paid_reachable) as (H1 & H2 & _).
  split; [exact H1|]. by apply (H2 0%nat "body" (Charged (mkPayload 1 false))).
Defined.

Lemma slow_holder_charges_twice_witness :
  let w := mkWorld (empty_db : table_db) 0 [Start "k" "body"; Start "k" "body"] in
  exists w', rtc (step (fun b => b) (fun _ => 100) (fun _ => "usd") 60 (Fin 0)) w w' /\
    length (charges_for "k" (db w')) = 2%nat.
Proof.
  intros w.
  destruct (slow_holder_charges_twice (fun b => b) (fun _ => 100) (fun _ => "usd") 60 (Fin 0)
              "k" "body" w 0 1) as (w' & R & Hl & _); try done; try lia.
  by exists w'.
Defined.

Lemma naive_charges_each_witness :
  exists w', rtc (naive_step (fun _ : string => 100) (fun _ => "usd"))
      (mkWorld (empty_db : table_db) 0 (replicate 50 (Start "k" "body"))) w' /\
    length (charges_for "k" (db w')) = 50%nat.
Proof.
  destruct (naive_charges_each (fun _ : string => 100) (fun _ => "usd") "k" "body"
              (empty_db : table_db) 50) as (w' & R & Hl & _); [done|].
  by exists w'.
Defined.

Lemma orphan_never_blocks_witness :
  let w := mkWorld (db paid3) 60000001 (requests paid3) in
  rtc (timely_step (fun b => b) (fun _ => 100) (fun _ => "usd") 60 (Fin 0)) fresh w /\
  exists r, poll (fun b => b) "k" "body" (Fin 0) (Fin 0) (db w) = Answered "k" "body" r.
Proof.
  intros w.
  assert (R : rtc (timely_step (fun b => b) (fun _ => 100) (fun _ => "usd") 60 (Fin 0)) fresh w).
  { eapply rtc_r; [exact paid_reachable|]. split.
    - apply (step_tick (fun b => b) (fun _ => 100) (fun _ => "usd") 60 (Fin 0) 60000001 paid3).
      vm_compute. discriminate.
    - intros [|[]] key body u r H; discriminate H. }
  split; [exact R|].
  destruct (orphan_never_blocks (fun b => b) (fun _ => 100) (fun _ => "usd") 60 (Fin 0) (Fin 0)
    (Fin 0) w "k" "body" (mkKey "body" Done (Some (mkPayload 1 false)) 60000000) R)
    as [(u & Hu)|[(p & Hp & _)|[Hp _]]].
  - reflexivity.
  - reflexivity.
  - exfalso. by vm_compute in Hu.
  - by eexists.
  - by eexists.
Defined.
