(* ===== verification/Lease.v ===== *)
(** * Distributed lab: leases, epochs and fencing

    Models src/04-distributed/07-leader-election-split-brain-quorums-fencing/python/fencing_demo.py
    and src/04-distributed/docker/services/app/relay7.py.  The three tables of
    their DDL are a record of finite maps; each SQL statement of the source is
    one function on them, and is atomic, as both programs run on autocommit
    connections.  Between any two statements of a worker the others may run:
    [turn] (and [relay_turn]) executes one statement, and a schedule says who
    moves next, at which database clock reading, and whether the statement or
    its reply is lost.  The clock is an arbitrary input and may go backwards.
    Database times and intervals are in microseconds. *)

From Stdlib Require Import ZArith Lia Sorted.
From stdpp Require Import base option list numbers strings gmap sorting pretty.
From S2P Require Import Prelude PyFloat.

Open Scope Z_scope.

(** ** Definitions *)

(** The rows of [t7_leases], [t7_payouts] and [t7_payout_attempts]. *)
Record lease : Type := mkLease { holder : string; epoch : Z; expires_at : Z }.

Inductive payout_status : Type := Pending | Sent.

#[export] Instance payout_status_eq_dec : EqDecision payout_status.
Proof. solve_decision. Defined.

Record payout : Type := mkPayout {
  status : payout_status;
  fence : Z;
  sent_by : option string;
  sent_at : option Z;
}.

Record attempt : Type := mkAttempt {
  a_run : string;
  a_fencing : bool;
  a_worker : string;
  a_key : string;
  a_epoch : Z;
  rows_updated : Z;
  attempted_at : Z;
}.

Record tables : Type := mkTables {
  leases : gmap string lease;
  payouts : gmap (string * string) payout;
  attempts : list attempt;
}.

Definition set_lease (name : string) (l : lease) (d : tables) : tables :=
  mkTables (<[name := l]> (leases d)) (payouts d) (attempts d).

(** [INSERT .. ON CONFLICT (name) DO UPDATE .. WHERE expires_at < now() RETURNING
    epoch]: the lease if it is free or expired, under the next epoch. *)
Definition acquire (name who : string) (ttl now : Z) (d : tables) : option Z * tables :=
  match leases d !! name with
  | None => (Some 1, set_lease name (mkLease who 1 (now + ttl)) d)
  | Some l =>
      if expires_at l <? now
      then (Some (epoch l + 1), set_lease name (mkLease who (epoch l + 1) (now + ttl)) d)
      else (None, d)
  end.

(** [UPDATE t7_leases SET expires_at = ..]: [fencing_demo.renew] also asks that
    the lease has not expired, [relay7.acquire_or_renew] does not. *)
Definition extend (check_expiry : bool) (name who : string) (e ttl now : Z) (d : tables)
    : option Z * tables :=
  match leases d !! name with
  | Some l =>
      if bool_decide (holder l = who) && (epoch l =? e)
         && (negb check_expiry || (now <? expires_at l))
      then (Some (epoch l), set_lease name (mkLease who (epoch l) (now + ttl)) d)
      else (None, d)
  | None => (None, d)
  end.

Definition renew (name who : string) (e ttl now : Z) (d : tables) : bool * tables :=
  let '(r, d') := extend true name who e ttl now d in (bool_decide (r <> None), d').

(** [UPDATE t7_payouts SET status = 'sent', fence = .. WHERE .. AND <guard>]:
    the number of rows updated. *)
Definition pay (guard : Z -> bool) (run key who : string) (e now : Z) (d : tables) : Z * tables :=
  match payouts d !! (run, key) with
  | Some p =>
      if guard (fence p)
      then (1, mkTables (leases d)
                 (<[(run, key) := mkPayout Sent e (Some who) (Some now)]> (payouts d))
                 (attempts d))
      else (0, d)
  | None => (0, d)
  end.

(** The [UPDATE] of [fencing_demo.send_payout], and that of [relay7.do_payout]. *)
Definition send_payout (fencing : bool) (run key who : string) (e now : Z) (d : tables)
    : Z * tables :=
  pay (fun f => negb fencing || (f <? e)) run key who e now d.

Definition do_payout (fencing : bool) (run key who : string) (e now : Z) (d : tables)
    : Z * tables :=
  pay (fun f => negb fencing || (f <=? e)) run key who e now d.

(** The [INSERT INTO t7_payout_attempts] that follows either. *)
Definition record_attempt (fencing : bool) (run key who : string) (e rows now : Z) (d : tables)
    : tables :=
  mkTables (leases d) (payouts d)
    (attempts d ++ [mkAttempt run fencing who key e rows now]).

(** What a run shows: the log lines of [worker_loop], and each payout [UPDATE]
    with the number of rows it changed. *)
Inductive event : Type :=
| Took (who : string) (e : Z)
| Lost (who : string) (e : option Z)
| Paused (who : string)
| Paid (who key : string) (e rows : Z).

(** The epochs granted in a run, and those whose write to a key was accepted. *)
Definition grants (tr : list event) : list Z :=
  omap (fun ev => match ev with Took _ e => Some e | _ => None end) tr.

Definition accepted (key : string) (tr : list event) : list Z :=
  omap (fun ev => match ev with
                  | Paid _ k e rows => if bool_decide (k = key) && (0 <? rows) then Some e else None
                  | _ => None
                  end) tr.

(** *** [fencing_demo.worker_loop] *)

(** Where a worker is: at the top of the loop, before [renew], before the
    [SELECT] of pending payouts, before a payout of a batch, between its two
    statements, or done.  [replay] marks the batch of the code after the pause. *)
Inductive place : Type :=
| Top
| Renewing
| Selecting
| Sending (rest : list string) (replay : bool)
| Recording (key : string) (rows : Z) (rest : list string) (replay : bool)
| Finished.

Record worker : Type := mkWorker {
  who : string;
  pause_at : option float;
  at_ : place;
  held : option Z;
  paused : bool;
}.

Definition goto (p : place) (w : worker) : worker :=
  mkWorker (who w) (pause_at w) p (held w) (paused w).

Definition hold (h : option Z) (p : place) (w : worker) : worker :=
  mkWorker (who w) (pause_at w) p h (paused w).

(** What the environment decides in a turn: [stop.is_set()], the time since the
    worker started, and the database clock. *)
Record input : Type := mkInput { stop : bool; elapsed : float; now : Z }.

Definition pause_due (inp : input) (w : worker) : bool :=
  match pause_at w with
  | Some p => negb (paused w) && (p <=? elapsed inp)%F
  | None => false
  end.

Definition text_le (a b : string) : Prop := String.leb a b = true.
#[export] Instance text_le_dec a b : Decision (text_le a b) := decide (String.leb a b = true).

(** [SELECT payout_key .. WHERE run_id = .. AND status = 'pending' ORDER BY
    payout_key LIMIT 2]. *)
Definition pending (run : string) (d : tables) : list string :=
  take 2 (merge_sort text_le
    (omap (fun '((r, k), p) =>
             if bool_decide (r = run) && bool_decide (status p = Pending) then Some k else None)
       (map_to_list (payouts d)))).

Section WorkerLoop.
Context (run : string) (keys : list string) (ttl : Z) (fencing : bool).

Definition turn (inp : input) (w : worker) (d : tables) : option event * (worker * tables) :=
  match at_ w with
  | Finished => (None, (w, d))
  | Top =>
      if stop inp then (None, (goto Finished w, d))
      else if pause_due inp w
      then (Some (Paused (who w)),
            (mkWorker (who w) (pause_at w) (Sending keys true) (held w) true, d))
      else
        match held w with
        | Some _ => (None, (goto Renewing w, d))
        | None =>
            let '(r, d') := acquire "relay" (who w) ttl (now inp) d in
            match r with
            | Some e => (Some (Took (who w) e), (hold (Some e) Renewing w, d'))
            | None => (None, (w, d'))
            end
        end
  | Renewing =>
      let '(ok, d') := renew "relay" (who w) (default 0 (held w)) ttl (now inp) d in
      if ok then (None, (goto Selecting w, d'))
      else (Some (Lost (who w) (held w)), (hold None Top w, d'))
  | Selecting => (None, (goto (Sending (pending run d) false) w, d))
  | Sending [] replay => (None, (goto (if replay then Finished else Top) w, d))
  | Sending (key :: rest) replay =>
      let e := default 0 (held w) in
      let '(rows, d') := send_payout fencing run key (who w) e (now inp) d in
      (Some (Paid (who w) key e rows), (goto (Recording key rows rest replay) w, d'))
  | Recording key rows rest replay =>
      (None, (goto (if replay && (rows =? 0) then Finished else Sending rest replay) w,
              record_attempt fencing run key (who w) (default 0 (held w)) rows (now inp) d))
  end.
End WorkerLoop.

(** *** [relay7] *)

(** Where a relay is in its endless loop; [PayBatch n] has [n] payouts to go. *)
Inductive relay_place : Type :=
| LoopTop
| PayBatch (n : nat)
| RecordPayout (key : string) (rows : Z) (n : nat)
| Timer
| Renewal
| Takeover
| Election.

Record relay : Type := mkRelay {
  name_ : string;
  where_ : relay_place;
  my_epoch : option Z;
  next_i : Z;
  last_renew : float;
}.

(** A statement works; raises, with no effect; or takes effect and then the
    reply is lost, so that the client raises all the same. *)
Inductive fate : Type := Works | Raises | ReplyLost.

#[export] Instance fate_eq_dec : EqDecision fate.
Proof. solve_decision. Defined.

Record relay_input : Type := mkRelayInput { monotonic : float; db_now : Z; fate_of : fate }.

Definition jump (p : relay_place) (w : relay) : relay :=
  mkRelay (name_ w) p (my_epoch w) (next_i w) (last_renew w).

Definition elected (r : option Z) (p : relay_place) (w : relay) : relay :=
  mkRelay (name_ w) p r (next_i w) (last_renew w).

Definition took (who : string) (r : option Z) : option event := (Took who) <$> r.

Section Relay.
Context (RUN_ID : string) (TTL : Z) (RENEW : float) (KEYS : Z) (BATCH : nat) (FENCING : bool).

(** The key [f"k{(i % KEYS) + 1}"]. *)
Definition payout_key (i : Z) : string := "k" +:+ pretty ((i mod KEYS) + 1).

(** One statement of the loop, [next] computed from its reply.  When it raises,
    the handler goes back to the top of the loop with the variables as they were. *)
Definition statement {A} (f : fate) (exec : tables -> A * tables) (ev : A -> option event)
    (next : A -> relay) (w : relay) (d : tables) : option event * (relay * tables) :=
  match f with
  | Raises => (None, (jump LoopTop w, d))
  | Works => let '(a, d') := exec d in (ev a, (next a, d'))
  | ReplyLost => let '(a, d') := exec d in (ev a, (jump LoopTop w, d'))
  end.

Definition relay_turn (inp : relay_input) (w : relay) (d : tables)
    : option event * (relay * tables) :=
  match where_ w with
  | LoopTop =>
      (None, (jump (match my_epoch w with Some _ => PayBatch BATCH | None => Timer end) w, d))
  | PayBatch O => (None, (jump Timer w, d))
  | PayBatch (S n) =>
      let key := payout_key (next_i w) in
      let e := default 0 (my_epoch w) in
      statement (fate_of inp) (do_payout FENCING RUN_ID key (name_ w) e (db_now inp))
        (fun rows => Some (Paid (name_ w) key e rows))
        (fun rows => jump (RecordPayout key rows n) w) w d
  | RecordPayout key rows n =>
      statement (fate_of inp)
        (fun d => (tt, record_attempt FENCING RUN_ID key (name_ w) (default 0 (my_epoch w))
                         rows (db_now inp) d))
        (fun _ => None)
        (fun _ => mkRelay (name_ w) (PayBatch n) (my_epoch w) (next_i w + 1) (last_renew w)) w d
  | Timer =>
      if (RENEW <=? monotonic inp - last_renew w)%F
      then (None, (mkRelay (name_ w) (match my_epoch w with Some _ => Renewal | None => Election end)
                     (my_epoch w) (next_i w) (monotonic inp), d))
      else (None, (jump LoopTop w, d))
  | Renewal =>
      statement (fate_of inp)
        (extend false RUN_ID (name_ w) (default 0 (my_epoch w)) TTL (db_now inp))
        (fun _ => None)
        (fun r => match r with Some e => elected (Some e) LoopTop w | None => jump Takeover w end)
        w d
  | Takeover =>
      statement (fate_of inp) (acquire RUN_ID (name_ w) TTL (db_now inp)) (took (name_ w))
        (fun r => match r with
                  | Some e => elected (Some e) LoopTop w
                  | None => elected None Election w
                  end) w d
  | Election =>
      statement (fate_of inp) (acquire RUN_ID (name_ w) TTL (db_now inp)) (took (name_ w))
        (fun r => elected r LoopTop w) w d
  end.

(** [acquire_or_renew] as one call, its two statements in a row. *)
Definition acquire_or_renew (who : string) (mine : option Z) (now : Z) (d : tables)
    : option Z * tables :=
  match mine with
  | Some e =>
      match extend false RUN_ID who e TTL now d with
      | (Some e', d') => (Some e', d')
      | (None, d') => acquire RUN_ID who TTL now d'
      end
  | None => acquire RUN_ID who TTL now d
  end.
End Relay.

(** *** Workers side by side *)

(** A schedule is the list of the turns taken, each with the worker that takes
    it; [t] is the turn function of that worker. *)
Section Schedule.
Context {W I : Type} (t : I -> W -> tables -> option event * (W * tables)).

Record sys : Type := mkSys { db : tables; workers : list W }.

Definition one (i : nat) (inp : I) (s : sys) : option event * sys :=
  match workers s !! i with
  | None => (None, s)
  | Some w =>
      let '(ev, (w', d')) := t inp w (db s) in (ev, mkSys d' (<[i := w']> (workers s)))
  end.

Fixpoint run_schedule (sched : list (nat * I)) (s : sys) : list event * sys :=
  match sched with
  | [] => ([], s)
  | (i, inp) :: rest =>
      let '(ev, s1) := one i inp s in
      let '(tr, s2) := run_schedule rest s1 in
      (option_list ev ++ tr, s2)
  end.
End Schedule.
Arguments sys : clear implicits.
Arguments mkSys {W} _ _.

(** *** The queries of [fencing_demo.main] *)

Record numbers : Type := mkNumbers {
  n_attempts : nat;
  n_accepted : nat;
  n_rejected : nat;
  stale_attempts : nat;
  stale_rejected : nat;
  sent_twice : nat;
}.

Definition stale (l : list attempt) (a : attempt) : bool :=
  existsb (fun b => (a_epoch a <? a_epoch b) && (attempted_at b <? attempted_at a)) l.

Definition paid_again (l : list attempt) (a : attempt) : bool :=
  (0 <? rows_updated a) &&
  existsb (fun b => bool_decide (a_key b = a_key a) && (0 <? rows_updated b)
                    && (a_epoch a <? a_epoch b) && (attempted_at b <? attempted_at a)) l.

Definition the_numbers (run : string) (d : tables) : numbers :=
  let l := List.filter (fun a => bool_decide (a_run a = run)) (attempts d) in
  mkNumbers (length l)
    (length (List.filter (fun a => 0 <? rows_updated a) l))
    (length (List.filter (fun a => rows_updated a =? 0) l))
    (length (List.filter (stale l) l))
    (length (List.filter (fun a => stale l a && (rows_updated a =? 0)) l))
    (length (List.filter (paid_again l) l)).

(** ** Lemmas *)

(** The epoch of a lease, 0 before its first holder, and the fence of a payout. *)
Definition term (name : string) (d : tables) : Z := default 0 (epoch <$> leases d !! name).

Definition fence_at (run key : string) (d : tables) : Z :=
  default 0 (fence <$> payouts d !! (run, key)).

Definition same_fences (run : string) (d d' : tables) : Prop :=
  forall key, fence_at run key d' = fence_at run key d.

Lemma term_set (name : string) (l : lease) (d : tables) :
  term name (set_lease name l d) = epoch l.
Proof. unfold term, set_lease. cbn [leases]. by rewrite lookup_insert_eq. Qed.

Lemma acquire_cases (name who : string) (ttl now : Z) (d : tables) :
  let '(r, d') := acquire name who ttl now d in
  payouts d' = payouts d /\
  match r with Some e => e = term name d + 1 /\ term name d' = e | None => d' = d end.
Proof.
  unfold acquire. destruct (leases d !! name) as [l|] eqn:E.
  - destruct (expires_at l <? now); [|done].
    rewrite term_set. unfold term. by rewrite E.
  - rewrite term_set. unfold term. by rewrite E.
Qed.

Lemma extend_cases (c : bool) (name who : string) (e ttl now : Z) (d : tables) :
  let '(r, d') := extend c name who e ttl now d in
  payouts d' = payouts d /\ term name d' = term name d /\
  match r with Some e' => e' = e | None => d' = d end.
Proof.
  unfold extend. destruct (leases d !! name) as [l|] eqn:E; [|done].
  destruct (_ && _) eqn:B; [|done]. to_props.
  rewrite term_set. unfold term. rewrite E. split_and!; [done|done|]. simpl. lia.
Qed.

Lemma pay_cases (g : Z -> bool) (run key who : string) (e now : Z) (d : tables) :
  let '(rows, d') := pay g run key who e now d in
  leases d' = leases d /\
  ((rows = 0 /\ d' = d) \/
   (rows = 1 /\ g (fence_at run key d) = true /\ fence_at run key d' = e /\
    forall k, k <> key -> fence_at run k d' = fence_at run k d)).
Proof.
  unfold pay. destruct (payouts d !! (run, key)) as [p|] eqn:E; [|by auto].
  destruct (g (fence p)) eqn:G; [|by auto].
  split; [done|]. right. unfold fence_at. cbn [payouts].
  rewrite E, lookup_insert_eq. split_and!; [done|done|done|].
  intros k Hk. rewrite lookup_insert_ne by congruence. done.
Qed.

(** What one statement may do to the lease and the payouts: an epoch is granted
    only as the next one, and an accepted payout relates to the fence by [R]. *)
Definition follows (R : Z -> Z -> Prop) (name run : string) (ev : option event)
    (d d' : tables) : Prop :=
  match ev with
  | Some (Took _ e) => e = term name d + 1 /\ term name d' = e /\ same_fences run d d'
  | Some (Paid _ key e rows) =>
      term name d' = term name d /\
      ((rows = 0 /\ same_fences run d d') \/
       (rows = 1 /\ R (fence_at run key d) e /\ fence_at run key d' = e /\
        forall k, k <> key -> fence_at run k d' = fence_at run k d))
  | _ => term name d' = term name d /\ same_fences run d d'
  end.

Lemma same_payouts (run : string) (d d' : tables) :
  payouts d' = payouts d -> same_fences run d d'.
Proof. intros H key. unfold fence_at. by rewrite H. Qed.

Lemma follows_nothing (R : Z -> Z -> Prop) (name run : string) (d : tables) :
  follows R name run None d d.
Proof. done. Qed.

Lemma follows_acquire (R : Z -> Z -> Prop) (name run who : string) (ttl now : Z) (d : tables) :
  let '(r, d') := acquire name who ttl now d in follows R name run (took who r) d d'.
Proof.
  pose proof (acquire_cases name who ttl now d) as H.
  destruct (acquire name who ttl now d) as [[e|] d']; destruct H as [Hp H]; simpl.
  - destruct H. split_and!; [done|done|by apply same_payouts].
  - by subst.
Qed.

Lemma follows_extend (R : Z -> Z -> Prop) (c : bool) (name run who : string) (e ttl now : Z)
    (d : tables) :
  follows R name run None d (extend c name who e ttl now d).2.
Proof.
  pose proof (extend_cases c name who e ttl now d) as H.
  destruct (extend c name who e ttl now d) as [r d']; destruct H as (Hp & Ht & _); simpl.
  split; [done|by apply same_payouts].
Qed.

Lemma follows_pay (R : Z -> Z -> Prop) (g : Z -> bool) (name run key who : string) (e now : Z)
    (d : tables) :
  (forall f, g f = true -> R f e) ->
  let '(rows, d') := pay g run key who e now d in
  follows R name run (Some (Paid who key e rows)) d d'.
Proof.
  intros HR. pose proof (pay_cases g run key who e now d) as H.
  destruct (pay g run key who e now d) as [rows d']. destruct H as [Hl H]. simpl.
  split; [unfold term; by rewrite Hl|].
  destruct H as [(-> & ->)|(-> & Hg & Hf & Ho)]; [by left|right]. auto.
Qed.

(** *** Any program whose statements do only that *)

Section Elected.
Context {W I : Type} (t : I -> W -> tables -> option event * (W * tables)).
Context (R : Z -> Z -> Prop) (name run : string).
Context (name_of : W -> string) (belief : W -> option Z) (ok : W -> Prop).

(** What a worker believes it holds was granted to it. *)
Definition honest (inp : I) (w : W) (d : tables) : Prop :=
  let '(ev, (w', d')) := t inp w d in
  follows R name run ev d d' /\ name_of w' = name_of w /\ (ok w -> ok w') /\
  (forall e, ok w -> belief w' = Some e ->
     belief w = Some e \/ ev = Some (Took (name_of w) e)).

Hypothesis t_honest : forall inp w d, honest inp w d.

Lemma grants_app (l k : list event) : grants (l ++ k) = grants l ++ grants k.
Proof. apply omap_app. Qed.

Lemma one_grants (i : nat) (inp : I) (s : sys W) :
  let '(ev, s') := one t i inp s in follows R name run ev (db s) (db s').
Proof.
  unfold one. destruct (workers s !! i) as [w|]; [|apply follows_nothing].
  pose proof (t_honest inp w (db s)) as H. unfold honest in H.
  destruct (t inp w (db s)) as [ev [w' d']]. tauto.
Qed.

Lemma grants_consecutive (sched : list (nat * I)) (s : sys W) :
  let '(tr, s') := run_schedule t sched s in
  grants tr = seqZ (term name (db s) + 1) (term name (db s') - term name (db s)) /\
  term name (db s) <= term name (db s').
Proof.
  revert s. induction sched as [|[i inp] sched IH]; intros s; cbn [run_schedule].
  - by rewrite Z.sub_diag.
  - pose proof (one_grants i inp s) as H. destruct (one t i inp s) as [ev s1].
    specialize (IH s1). destruct (run_schedule t sched s1) as [tr s2].
    destruct IH as [IH Hle]. rewrite grants_app, IH.
    assert (grants (option_list ev) = [] /\ term name (db s1) = term name (db s) \/
            grants (option_list ev) = [term name (db s) + 1] /\
            term name (db s1) = term name (db s) + 1) as [[-> E]|[-> E]].
    { destruct ev as [[]|]; simpl in *; split_ands; auto. right. split; [by f_equal|lia]. }
    + rewrite E in *. split; [done|lia].
    + rewrite E in *. rewrite (seqZ_cons (term name (db s) + 1)) by lia. split; [|lia].
      simpl. repeat f_equal; lia.
Qed.

Lemma accepted_ordered (key : string) (sched : list (nat * I)) (s : sys W) :
  Transitive R ->
  let '(tr, s') := run_schedule t sched s in
  StronglySorted R (accepted key tr) /\
  Forall (R (fence_at run key (db s))) (accepted key tr).
Proof.
  intros HR. revert s. induction sched as [|[i inp] sched IH]; intros s; cbn [run_schedule].
  - split; constructor.
  - pose proof (one_grants i inp s) as H. destruct (one t i inp s) as [ev s1].
    specialize (IH s1). destruct (run_schedule t sched s1) as [tr s2]. destruct IH as [IH Hf].
    unfold accepted in *. rewrite omap_app.
    destruct ev as [[a e|a e|a|a k e rows]|]; simpl in *; destruct H as [H0 H];
      try (by rewrite (proj2 H key) in Hf); try (by rewrite (H key) in Hf).
    destruct H as [(-> & H)|(-> & Hlt & He & Ho)].
    { rewrite andb_false_r. simpl. by rewrite (H key) in Hf. }
    case_bool_decide as Hk; simpl.
    + subst k. rewrite He in Hf. split; [by constructor|]. constructor; [done|].
      eapply Forall_impl; [exact Hf|]. intros x. by apply HR.
    + by rewrite (Ho key) in Hf by congruence.
Qed.

Lemma beliefs_granted (sched : list (nat * I)) (s : sys W) (i : nat) (w' : W) (e : Z) :
  Forall ok (workers s) ->
  let '(tr, s') := run_schedule t sched s in
  workers s' !! i = Some w' -> belief w' = Some e ->
  Took (name_of w') e ∈ tr \/
  exists w, workers s !! i = Some w /\ belief w = Some e /\ name_of w = name_of w'.
Proof.
  revert s. induction sched as [|[j inp] sched IH]; intros s Hok; cbn [run_schedule].
  - intros Hw Hb. right. eauto.
  - unfold one. destruct (workers s !! j) as [w|] eqn:Hj.
    2:{ specialize (IH s Hok). by destruct (run_schedule t sched s). }
    pose proof (t_honest inp w (db s)) as H. unfold honest in H.
    destruct (t inp w (db s)) as [ev [w1 d1]]. destruct H as (_ & Hn & Ho & Hbel).
    pose proof (proj1 (Forall_lookup _ _) Hok j w Hj) as Hokw.
    specialize (IH (mkSys d1 (<[j := w1]> (workers s)))).
    destruct (run_schedule t sched _) as [tr s2].
    cbn [workers] in IH. intros Hw Hb.
    destruct IH as [IH|(w0 & Hw0 & Hb0 & Hn0)]; [by apply Forall_insert; auto|done|done| |].
    + left. set_solver.
    + apply list_lookup_insert_Some in Hw0 as [(-> & -> & _)|[Hne Hw0]]; [|right; by eauto].
      destruct (Hbel e Hokw Hb0) as [Hb1| ->].
      * right. exists w. split_and!; [done|done|congruence].
      * left. rewrite <- Hn0, Hn. set_solver.
Qed.

Lemma omap_NoDup_eq {A B} (f : A -> option B) (l : list A) (x y : A) (b : B) :
  NoDup (omap f l) -> x ∈ l -> y ∈ l -> f x = Some b -> f y = Some b -> x = y.
Proof.
  induction l as [|a l IH]; [set_solver|]. simpl. intros Hnd Hx Hy Ex Ey.
  assert (forall z, z ∈ l -> f z = Some b -> f a = Some b -> False) as Hno.
  { intros z Hz Ez Ea. rewrite Ea in Hnd. apply NoDup_cons in Hnd as [Hnd _]. apply Hnd.
    apply list_elem_of_omap. eauto. }
  apply elem_of_cons in Hx as [->|Hx]; apply elem_of_cons in Hy as [->|Hy];
    [done|by edestruct (Hno y)|by edestruct (Hno x)|].
  apply IH; auto. destruct (f a); [by apply NoDup_cons in Hnd as [_ ?]|done].
Qed.

Lemma one_leader_per_epoch (sched : list (nat * I)) (s : sys W) (i j : nat) (w1 w2 : W) (e : Z) :
  Forall ok (workers s) -> Forall (fun w => belief w = None) (workers s) ->
  workers (run_schedule t sched s).2 !! i = Some w1 ->
  workers (run_schedule t sched s).2 !! j = Some w2 ->
  belief w1 = Some e -> belief w2 = Some e -> name_of w1 = name_of w2.
Proof.
  intros Hok Hnone. pose proof (grants_consecutive sched s) as Hg.
  pose proof (fun k w => beliefs_granted sched s k w e Hok) as Hb.
  destruct (run_schedule t sched s) as [tr s']. destruct Hg as [Hg _]. cbn [snd].
  intros H1 H2 B1 B2.
  assert (forall k w, workers s' !! k = Some w -> belief w = Some e -> Took (name_of w) e ∈ tr)
    as Hb'.
  { intros k w Hk Hw. destruct (Hb k w Hk Hw) as [?|(w0 & Hw0 & Hb0 & _)]; [done|].
    pose proof (proj1 (Forall_lookup _ _) Hnone k w0 Hw0). simpl in *. congruence. }
  assert (NoDup (grants tr)) as Hnd by (rewrite Hg; apply NoDup_seqZ).
  assert (Took (name_of w1) e = Took (name_of w2) e) as [=]; [|done].
  eapply (omap_NoDup_eq _ tr); [exact Hnd|eauto..|reflexivity|reflexivity].
Qed.
End Elected.

(** *** The two programs *)

(** The guard of an accepted payout, with fencing on or off. *)
Definition fenced_by (fencing : bool) (R : Z -> Z -> Prop) : Z -> Z -> Prop :=
  if fencing then R else fun _ _ => True.

Lemma turn_honest (run : string) (keys : list string) (ttl : Z) (fencing : bool) (inp : input)
    (w : worker) (d : tables) :
  honest (turn run keys ttl fencing) (fenced_by fencing Z.lt) "relay" run who held
    (fun _ => True) inp w d.
Proof.
  unfold honest, turn. destruct (at_ w) as [| | |[|key rest] replay|key rows rest replay|].
  - destruct (stop inp); [by split_and!; auto|].
    destruct (pause_due inp w); [by split_and!; auto|].
    destruct (held w) as [e|] eqn:Hh; [by split_and!; [done..|]; cbn; rewrite Hh; auto|].
    pose proof (follows_acquire (fenced_by fencing Z.lt) "relay" run (who w) ttl (now inp) d) as H.
    destruct (acquire "relay" (who w) ttl (now inp) d) as [[e|] d'].
    + split_and!; [exact H|done|done|]. intros e' _ [= <-]. by right.
    + split_and!; [exact H|done|done|]. congruence.
  - pose proof (follows_extend (fenced_by fencing Z.lt) true "relay" run (who w)
                  (default 0 (held w)) ttl (now inp) d) as H.
    unfold renew. destruct (extend true "relay" (who w) (default 0 (held w)) ttl (now inp) d)
      as [[e|] d']; (split_and!; [exact H|done|done|by auto]).
  - by split_and!; auto.
  - by split_and!; auto.
  - pose proof (follows_pay (fenced_by fencing Z.lt) (fun f => negb fencing || (f <? default 0 (held w)))
                  "relay" run key (who w) (default 0 (held w)) (now inp) d) as H.
    unfold send_payout. destruct (pay _ run key (who w) _ (now inp) d) as [rows d'].
    split_and!; [|done|done|by auto]. apply H.
    intros f Hf. destruct fencing; simpl in *; [lia|done].
  - by split_and!; auto.
  - by split_and!; auto.
Qed.

(** A relay past the top of its loop with a batch or a renewal holds an epoch. *)
Definition relay_ok (w : relay) : Prop :=
  match where_ w with
  | PayBatch _ | RecordPayout _ _ _ | Renewal | Takeover => my_epoch w <> None
  | _ => True
  end.

Lemma statement_honest {A} (R : Z -> Z -> Prop) (name run : string) (f : fate)
    (exec : tables -> A * tables) (ev : A -> option event) (next : A -> relay) (w : relay)
    (d : tables) :
  follows R name run (ev (exec d).1) d (exec d).2 ->
  name_ (next (exec d).1) = name_ w ->
  (relay_ok w -> relay_ok (next (exec d).1)) ->
  (forall e, relay_ok w -> my_epoch (next (exec d).1) = Some e ->
     my_epoch w = Some e \/ ev (exec d).1 = Some (Took (name_ w) e)) ->
  let '(ev', (w', d')) := statement f exec ev next w d in
  follows R name run ev' d d' /\ name_ w' = name_ w /\ (relay_ok w -> relay_ok w') /\
  (forall e, relay_ok w -> my_epoch w' = Some e ->
     my_epoch w = Some e \/ ev' = Some (Took (name_ w) e)).
Proof.
  intros Hf Hn Ho Hb. unfold statement. destruct f.
  - destruct (exec d) as [a d']. by auto.
  - by split_and!; auto.
  - destruct (exec d) as [a d']. by split_and!; auto.
Qed.

Lemma acquire_honest (R : Z -> Z -> Prop) (name run : string) (f : fate) (ttl now : Z)
    (next : option Z -> relay) (w : relay) (d : tables) :
  (forall r, name_ (next r) = name_ w /\ relay_ok (next r) /\ my_epoch (next r) = r) ->
  let '(ev', (w', d')) := statement f (acquire name (name_ w) ttl now) (took (name_ w)) next w d in
  follows R name run ev' d d' /\ name_ w' = name_ w /\ (relay_ok w -> relay_ok w') /\
  (forall e, relay_ok w -> my_epoch w' = Some e ->
     my_epoch w = Some e \/ ev' = Some (Took (name_ w) e)).
Proof.
  intros Hn. apply statement_honest.
  - pose proof (follows_acquire R name run (name_ w) ttl now d) as H.
    by destruct (acquire name (name_ w) ttl now d).
  - apply Hn.
  - intros _. apply Hn.
  - intros e _ He. right. destruct (Hn (acquire name (name_ w) ttl now d).1) as (_ & _ & Hm).
    rewrite He in Hm. by rewrite <- Hm.
Qed.

Lemma relay_turn_honest (run : string) (ttl : Z) (rn : float) (keys : Z) (batch : nat)
    (fencing : bool) (inp : relay_input) (w : relay) (d : tables) :
  honest (relay_turn run ttl rn keys batch fencing) (fenced_by fencing Z.le) run run name_
    my_epoch relay_ok inp w d.
Proof.
  unfold honest, relay_turn. set (R := fenced_by fencing Z.le).
  destruct (where_ w) as [|[|n]|key rows n| | | |] eqn:Hw.
  - split_and!; [done|done| |by auto]. intros _. unfold relay_ok. cbn.
    by destruct (my_epoch w).
  - by split_and!; auto.
  - apply statement_honest; [|done| |by auto].
    + pose proof (follows_pay R (fun f => negb fencing || (f <=? default 0 (my_epoch w)))
                    run run (payout_key keys (next_i w)) (name_ w) (default 0 (my_epoch w))
                    (db_now inp) d) as H.
      unfold do_payout. destruct (pay _ _ _ _ _ _ d). apply H.
      intros f Hf. subst R. destruct fencing; simpl in *; [lia|done].
    + unfold relay_ok. by rewrite Hw.
  - apply statement_honest; [done|done| |by auto]. unfold relay_ok. by rewrite Hw.
  - destruct (fleb _ _); split_and!; try done; try (by auto).
    intros _. unfold relay_ok. cbn. by destruct (my_epoch w).
  - assert (relay_ok w -> exists e, my_epoch w = Some e) as He.
    { unfold relay_ok. rewrite Hw. destruct (my_epoch w); [eauto|done]. }
    pose proof (extend_cases false run (name_ w) (default 0 (my_epoch w)) ttl (db_now inp) d) as Hx.
    apply statement_honest.
    + apply follows_extend.
    + by destruct (extend _ _ _ _ _ _ _) as [[e|] d'].
    + intros Hok. destruct (He Hok) as [e Ee].
      destruct (extend _ _ _ _ _ _ _) as [[e'|] d']; [done|]. unfold relay_ok. cbn. by rewrite Ee.
    + intros e Hok. destruct (He Hok) as [e0 Ee]. rewrite Ee in *. cbn [default] in *.
      destruct (extend _ _ _ _ _ _ _) as [[e'|] d']; cbn; [|by rewrite Ee; auto].
      destruct Hx as (_ & _ & ->). by auto.
  - apply acquire_honest. by intros [e|].
  - apply acquire_honest. by intros [e|].
Qed.

(** ** Properties *)

(** A run of [fencing_demo]'s workers, from any tables. *)
Definition demo_run (run : string) (keys : list string) (ttl : Z) (fencing : bool)
    : list (nat * input) -> sys worker -> list event * sys worker :=
  run_schedule (turn run keys ttl fencing).

Definition relay_run (run : string) (ttl : Z) (rn : float) (n_keys : Z) (batch : nat)
    (fencing : bool) : list (nat * relay_input) -> sys relay -> list event * sys relay :=
  run_schedule (relay_turn run ttl rn n_keys batch fencing).

(** C5: In [fencing_demo], whatever the schedule and the clock, epochs are terms:
    the epochs granted are consecutive, no two workers hold the same one, and
    with fencing on each key is written under strictly increasing epochs. *)
Theorem fencing_demo_terms (run : string) (keys : list string) (ttl : Z) (fencing : bool)
    (sched : list (nat * input)) (s s' : sys worker) (tr : list event) :
  Forall (fun w => held w = None) (workers s) ->
  demo_run run keys ttl fencing sched s = (tr, s') ->
  grants tr = seqZ (term "relay" (db s) + 1) (term "relay" (db s') - term "relay" (db s)) /\
  (forall i j w1 w2 e, workers s' !! i = Some w1 -> workers s' !! j = Some w2 ->
     held w1 = Some e -> held w2 = Some e -> who w1 = who w2) /\
  (fencing = true -> forall key,
     StronglySorted Z.lt (fence_at run key (db s) :: accepted key tr)).
Proof.
  intros Hnone Hrun. pose proof (turn_honest run keys ttl fencing) as Ht. split_and!.
  - pose proof (grants_consecutive _ _ _ _ _ _ _ Ht sched s) as H.
    unfold demo_run in Hrun. rewrite Hrun in H. apply H.
  - intros i j w1 w2 e. pose proof (one_leader_per_epoch _ _ _ _ _ _ _ Ht sched s i j w1 w2 e) as H.
    unfold demo_run in Hrun. rewrite Hrun in H. apply H; [by apply Forall_true|done].
  - intros -> key. pose proof (accepted_ordered _ _ _ _ _ _ _ Ht key sched s _) as H.
    unfold demo_run in Hrun. rewrite Hrun in H. constructor; apply H.
Qed.

(** C10: The same of [relay7], whose statements may also raise or lose their
    reply; its guard lets the holder of an epoch write a key again. *)
Theorem relay_terms (run : string) (ttl : Z) (rn : float) (n_keys : Z) (batch : nat)
    (fencing : bool) (sched : list (nat * relay_input)) (s s' : sys relay) (tr : list event) :
  Forall (fun w => my_epoch w = None /\ where_ w = LoopTop) (workers s) ->
  relay_run run ttl rn n_keys batch fencing sched s = (tr, s') ->
  grants tr = seqZ (term run (db s) + 1) (term run (db s') - term run (db s)) /\
  (forall i j w1 w2 e, workers s' !! i = Some w1 -> workers s' !! j = Some w2 ->
     my_epoch w1 = Some e -> my_epoch w2 = Some e -> name_ w1 = name_ w2) /\
  (fencing = true -> forall key,
     StronglySorted Z.le (fence_at run key (db s) :: accepted key tr)).
Proof.
  intros Hstart Hrun. pose proof (relay_turn_honest run ttl rn n_keys batch fencing) as Ht.
  apply Forall_and in Hstart as [Hnone Htop]. split_and!.
  - pose proof (grants_consecutive _ _ _ _ _ _ _ Ht sched s) as H.
    unfold relay_run in Hrun. rewrite Hrun in H. apply H.
  - intros i j w1 w2 e. pose proof (one_leader_per_epoch _ _ _ _ _ _ _ Ht sched s i j w1 w2 e) as H.
    unfold relay_run in Hrun. rewrite Hrun in H. apply H; [|done].
    eapply Forall_impl; [exact Htop|]. intros w Hw. unfold relay_ok. simpl in Hw. by rewrite Hw.
  - intros -> key. pose proof (accepted_ordered _ _ _ _ _ _ _ Ht key sched s _) as H.
    unfold relay_run in Hrun. rewrite Hrun in H. constructor; apply H.
Qed.

(** *** Runs with a pause *)

(** Two workers of [fencing_demo] and one payout; [demo_pause] lets the first be
    elected at time 0 and pause, the second take over at time 10 and pay, and
    then wakes the first. *)
Definition demo_start : sys worker :=
  mkSys (mkTables ∅ {[ ("r", "k1") := mkPayout Pending 0 None None ]} [])
    [mkWorker "a" (Some (of_Z 2)) Top None false; mkWorker "b" None Top None false].

Definition at_time (i : nat) (el : Z) (db : Z) : nat * input := (i, mkInput false (of_Z el) db).

Definition demo_pause : list (nat * input) :=
  [at_time 0 0 0; at_time 0 0 0; at_time 1 0 10; at_time 1 0 10; at_time 1 0 10;
   at_time 1 0 10; at_time 1 0 11; at_time 0 6 12; at_time 0 6 12; at_time 0 6 13;
   at_time 0 6 13; at_time 0 6 13].

(** A leader paused past its lease: without fencing its write is accepted
    after the new leader's and the payout goes out twice; with fencing the same
    schedule rejects it and the stale worker stops. *)
Theorem paused_leader_pays_twice :
  (let '(tr, s) := demo_run "r" ["k1"] 5 false demo_pause demo_start in
   accepted "k1" tr = [2; 1] /\ fence_at "r" "k1" (db s) = 1 /\
   the_numbers "r" (db s) = mkNumbers 2 2 0 1 0 1) /\
  (let '(tr, s) := demo_run "r" ["k1"] 5 true demo_pause demo_start in
   accepted "k1" tr = [2] /\ fence_at "r" "k1" (db s) = 2 /\
   the_numbers "r" (db s) = mkNumbers 2 1 1 1 1 0 /\ at_ <$> workers s !! 0%nat = Some Finished).
Proof. vm_compute. by split_and!. Qed.

Lemma fencing_demo_terms_witness :
  Forall (fun w => held w = None) (workers demo_start) /\
  grants (demo_run "r" ["k1"] 5 true demo_pause demo_start).1 = [1; 2].
Proof.
  assert (Forall (fun w => held w = None) (workers demo_start)) as H by (by repeat constructor).
  split; [exact H|].
  destruct (fencing_demo_terms "r" ["k1"] 5 true demo_pause demo_start
              (demo_run "r" ["k1"] 5 true demo_pause demo_start).2
              (demo_run "r" ["k1"] 5 true demo_pause demo_start).1 H) as [Hg _];
    [apply surjective_pairing|].
  rewrite Hg. vm_compute. reflexivity.
Defined.

(** Two relays and one payout: the first pauses between its two statements. *)
Definition relays_start : sys relay :=
  mkSys (mkTables ∅ {[ ("r", "k1") := mkPayout Pending 0 None None ]} [])
    [mkRelay "a" LoopTop None 0 (of_Z 0); mkRelay "b" LoopTop None 0 (of_Z 0)].

Definition relay_at (i : nat) (mono db : Z) : nat * relay_input :=
  (i, mkRelayInput (of_Z mono) db Works).

Definition relays_pause : list (nat * relay_input) :=
  replicate 5 (relay_at 0 1 0) ++ replicate 5 (relay_at 1 10 10) ++ [relay_at 1 10 11]
    ++ [relay_at 0 16 17].

(** With fencing on, a pause between the [UPDATE] and the [INSERT] of an
    attempt makes the audit query count a duplicate payout where the resource
    accepted the writes in epoch order. *)
Theorem audit_counts_false_duplicate :
  let '(tr, s) := relay_run "r" 5 (of_Z 1) 1 1 true relays_pause relays_start in
  accepted "k1" tr = [1; 2] /\ sent_twice (the_numbers "r" (db s)) = 1%nat.
Proof. vm_compute. by split. Qed.

Lemma relay_terms_witness :
  Forall (fun w => my_epoch w = None /\ where_ w = LoopTop) (workers relays_start) /\
  grants (relay_run "r" 5 (of_Z 1) 1 1 true relays_pause relays_start).1 = [1; 2].
Proof.
  assert (Forall (fun w => my_epoch w = None /\ where_ w = LoopTop) (workers relays_start)) as H
    by (by repeat constructor).
  split; [exact H|].
  destruct (relay_terms "r" 5 (of_Z 1) 1 1 true relays_pause relays_start
              (relay_run "r" 5 (of_Z 1) 1 1 true relays_pause relays_start).2
              (relay_run "r" 5 (of_Z 1) 1 1 true relays_pause relays_start).1 H) as [Hg _];
    [apply surjective_pairing|].
  rewrite Hg. vm_compute. reflexivity.
Defined.

(** A relay that lost its lease and whose successor's lease has expired is
    elected again by the very call that should tell it it was deposed; one whose
    own lease expired untaken keeps its epoch, where [fencing_demo.renew] lets go. *)
Theorem deposed_relay_reelected (run who : string) (ttl e now : Z) (d : tables) (l : lease) :
  leases d !! run = Some l -> expires_at l < now ->
  (epoch l <> e ->
     acquire_or_renew run ttl who (Some e) now d =
     (Some (epoch l + 1), set_lease run (mkLease who (epoch l + 1) (now + ttl)) d)) /\
  (epoch l = e -> holder l = who ->
     (acquire_or_renew run ttl who (Some e) now d).1 = Some e /\
     renew run who e ttl now d = (false, d)).
Proof.
  intros Hl He. unfold acquire_or_renew, renew, extend, acquire. rewrite Hl.
  split.
  - intros Hne. rewrite (proj2 (Z.eqb_neq _ _) Hne), andb_false_r. simpl. rewrite Hl.
    by rewrite (proj2 (Z.ltb_lt _ _) He).
  - intros -> ->. rewrite Z.eqb_refl, bool_decide_eq_true_2 by done.
    by rewrite (proj2 (Z.ltb_ge now (expires_at l))) by lia.
Qed.

Lemma deposed_relay_reelected_witness :
  (acquire_or_renew "r" 5 "a" (Some 1) 9 (mkTables {[ "r" := mkLease "b" 2 8 ]} ∅ [])).1 = Some 3.
Proof.
  destruct (deposed_relay_reelected "r" "a" 5 1 9 (mkTables {[ "r" := mkLease "b" 2 8 ]} ∅ [])
              (mkLease "b" 2 8)) as [H _]; [reflexivity|reflexivity|].
  rewrite H; [reflexivity|discriminate].
Defined.
