(* ===== verification/PaymentKeys.v ===== *)
(** * Distributed lab: three idempotent payment handlers

    Models src/04-distributed/02-idempotency-keys-atomically/python/idempotency_race.py
    ([handle_a], [handle_b], [handle_c] and the counting queries of [main]) and
    src/04-distributed/docker/services/app/payments2.py ([payments] under its
    three values of [IMPL]); [program] says which of the two.  The state is what
    other sessions can see of Postgres at READ COMMITTED: the committed rows of
    the two tables, the sequence of [charges], the entries of the unique index
    that belong to open transactions (an [INSERT] of such a key waits), and the
    advisory locks.  A transaction's own rows show at its commit.  Each handler
    is one function that runs the next statement of a request, [None] when it has
    to wait; requests interleave between any two statements, and any statement
    may fail, which rolls the transaction back.  The JSON fingerprint of a body
    and [hashtext] are parameters. *)

From Stdlib Require Import ZArith Lia.
From stdpp Require Import base option list numbers strings pretty gmap relations.
From S2P Require Import Prelude.

Open Scope Z_scope.

(** ** Definitions *)

Inductive program : Type := Race | Service.
Inductive impl : Type := A | B | C.

#[export] Instance impl_eq_dec : EqDecision impl.
Proof. solve_decision. Defined.

(** The rows of [idempotency_keys], whose unique key is the tenant and the key,
    and of [charges]. *)
Inductive row_state : Type := InFlight | Succeeded | FailedPermanently.

#[export] Instance row_state_eq_dec : EqDecision row_state.
Proof. solve_decision. Defined.

Record key_row : Type := mkRow { fp : string; state : row_state; response : option Z }.

#[local] Abbreviation tkey := (string * string)%type.

Record charge : Type := mkCharge { ch_id : Z; ch_key : tkey; amount_cents : Z }.

Record tables : Type := mkTables {
  keys : gmap tkey key_row;
  charges : list charge;
  next_charge : Z;
  reserved : gmap tkey nat;
  locks : gmap Z nat;
}.

(** The end of request [i]'s transaction frees its index entries and its lock. *)
Definition release (i : nat) (d : tables) : tables :=
  mkTables (keys d) (charges d) (next_charge d)
    (filter (fun p => p.2 <> i) (reserved d)) (filter (fun p => p.2 <> i) (locks d)).

Definition reserve (i : nat) (k : tkey) (d : tables) : tables :=
  mkTables (keys d) (charges d) (next_charge d) (<[k := i]> (reserved d)) (locks d).

Definition lock (i : nat) (h : Z) (d : tables) : tables :=
  mkTables (keys d) (charges d) (next_charge d) (reserved d) (<[h := i]> (locks d)).

(** [nextval] of the sequence, taken at the [INSERT] and never given back. *)
Definition take_id (d : tables) : Z * tables :=
  (next_charge d, mkTables (keys d) (charges d) (next_charge d + 1) (reserved d) (locks d)).

Definition no_rows : tables := mkTables ∅ [] 1 ∅ ∅.

Definition put_row (k : tkey) (r : key_row) (d : tables) : tables :=
  mkTables (<[k := r]> (keys d)) (charges d) (next_charge d) (reserved d) (locks d).

Definition add_charge (c : charge) (d : tables) : tables :=
  mkTables (keys d) (charges d ++ [c]) (next_charge d) (reserved d) (locks d).

(** The answers, and their HTTP statuses in the two programs. *)
Inductive answer : Type :=
| Charged
| Replay (r : option Z)
| Mismatch
| Permanent
| InFlightRetry
| AfterCharging
| Failed.

Definition http_status (prog : program) (a : answer) : Z :=
  match a with
  | Charged => match prog with Race => 201 | Service => 200 end
  | Replay _ => 200
  | Mismatch => 422
  | Permanent => 409
  | InFlightRetry => match prog with Race => 409 | Service => 200 end
  | AfterCharging | Failed => 500
  end.

Section Handlers.
Context {Body : Type} (fingerprint : Body -> string) (amount_of : Body -> Z)
  (hashtext : string -> Z) (prog : program).

(** Where a request is: before its first statement; past the [SELECT] of A, and
    past its charge; past the [INSERT] of the key that won, and that lost; past
    the charge of its transaction; holding the lock of C, and past its [SELECT];
    answered. *)
Inductive place : Type :=
| Begin (k : tkey) (b : Body)
| Unseen (k : tkey) (b : Body)
| Moved (k : tkey) (b : Body)
| Won (k : tkey) (b : Body)
| Lost (k : tkey) (b : Body)
| Paying (k : tkey) (b : Body) (id : Z)
| Locked (k : tkey) (b : Body)
| Absent (k : tkey) (b : Body)
| Answered (k : tkey) (b : Body) (a : answer).

(** [handle_a] on autocommit: [SELECT], charge, then record the key. *)
Definition handle_a (p : place) (d : tables) : option (place * tables) :=
  match p with
  | Begin k b =>
      Some (match keys d !! k with Some _ => Answered k b (Replay None) | None => Unseen k b end, d)
  | Unseen k b =>
      let '(id, d1) := take_id d in
      Some (Moved k b, add_charge (mkCharge id k (amount_of b)) d1)
  | Moved k b =>
      match keys d !! k with
      | Some _ => Some (Answered k b AfterCharging, d)
      | None => Some (Answered k b Charged, put_row k (mkRow (fingerprint b) Succeeded None) d)
      end
  | _ => None
  end.

(** The [INSERT] of a key inside a transaction: it waits for an open transaction
    that has the same entry of the unique index. *)
Inductive inserted : Type := Inserted | Conflicts | Waits.

Definition insert_key (k : tkey) (d : tables) : inserted :=
  match keys d !! k, reserved d !! k with
  | Some _, _ => Conflicts
  | None, Some _ => Waits
  | None, None => Inserted
  end.

(** What the loser of B answers from the row it reads. *)
Definition loser_answer (r : option key_row) (b : Body) : answer :=
  match r with
  | None => match prog with Race => Failed | Service => InFlightRetry end
  | Some row =>
      if negb (bool_decide (fp row = fingerprint b)) then Mismatch
      else
        match state row with
        | Succeeded => Replay (response row)
        | FailedPermanently => match prog with Race => Permanent | Service => InFlightRetry end
        | InFlight => InFlightRetry
        end
  end.

(** The charge and the commit that B and C share; the script's B also stores the
    response. *)
Definition commit_row (m : impl) (b : Body) (id : Z) : key_row :=
  mkRow (fingerprint b) Succeeded
    (match m, prog with B, Race => Some id | _, _ => None end).

Definition pay_and_commit (m : impl) (i : nat) (p : place) (d : tables)
    : option (place * tables) :=
  match p with
  | Won k b => let '(id, d1) := take_id d in Some (Paying k b id, d1)
  | Paying k b id =>
      Some (Answered k b Charged,
            release i (add_charge (mkCharge id k (amount_of b)) (put_row k (commit_row m b id) d)))
  | _ => None
  end.

Definition handle_b (i : nat) (p : place) (d : tables) : option (place * tables) :=
  match p with
  | Begin k b =>
      match insert_key k d with
      | Inserted => Some (Won k b, reserve i k d)
      | Conflicts => Some (Lost k b, d)
      | Waits => None
      end
  | Lost k b => Some (Answered k b (loser_answer (keys d !! k) b), release i d)
  | _ => pay_and_commit B i p d
  end.

(** The text under the advisory lock, and the answer of C to an existing row: the
    script replays without a look at the fingerprint. *)
Definition lock_of (k : tkey) : Z :=
  hashtext (match prog with Race => k.1 +:+ ":" +:+ k.2 | Service => k.2 end).

Definition seen_answer (row : key_row) (b : Body) : answer :=
  match prog with
  | Race => Replay None
  | Service => if bool_decide (fp row = fingerprint b) then Replay None else Mismatch
  end.

Definition handle_c (i : nat) (p : place) (d : tables) : option (place * tables) :=
  match p with
  | Begin k b =>
      match locks d !! lock_of k with
      | None => Some (Locked k b, lock i (lock_of k) d)
      | Some _ => None
      end
  | Locked k b =>
      Some (match keys d !! k with
            | Some row => (Answered k b (seen_answer row b), release i d)
            | None => (Absent k b, d)
            end)
  | Absent k b =>
      match insert_key k d with
      | Inserted => Some (Won k b, reserve i k d)
      | Conflicts => Some (Answered k b Failed, release i d)
      | Waits => None
      end
  | _ => pay_and_commit C i p d
  end.

(** [HANDLERS[impl]], and [payments] under [IMPL]. *)
Definition handle (m : impl) (i : nat) (p : place) (d : tables) : option (place * tables) :=
  match m with A => handle_a p d | B => handle_b i p d | C => handle_c i p d end.

(** The system: the next statement of a request, or its failure, which rolls back
    and answers 500. *)
Record world : Type := mkWorld { db : tables; requests : list place }.

Definition turn (m : impl) (i : nat) (w : world) : option world :=
  p ← requests w !! i;
  '(p', d') ← handle m i p (db w);
  Some (mkWorld d' (<[i := p']> (requests w))).

Definition request_of (p : place) : tkey * Body :=
  match p with
  | Begin k b | Unseen k b | Moved k b | Won k b | Lost k b | Paying k b _ | Locked k b
  | Absent k b | Answered k b _ => (k, b)
  end.

Definition answered (p : place) : bool := match p with Answered _ _ _ => true | _ => false end.

Definition fail_now (i : nat) (p : place) (w : world) : world :=
  mkWorld (release i (db w))
    (<[i := Answered (request_of p).1 (request_of p).2 Failed]> (requests w)).

Inductive step (m : impl) : world -> world -> Prop :=
| step_arrive k b w : step m w (mkWorld (db w) (requests w ++ [Begin k b]))
| step_turn i w w' : turn m i w = Some w' -> step m w w'
| step_fail i p w :
    requests w !! i = Some p -> answered p = false -> step m w (fail_now i p w).

Definition start : world := mkWorld no_rows [].

(** The queries of [main]: keys charged more than once, and extra charge rows. *)
Definition charges_for (k : tkey) (d : tables) : list charge :=
  filter (fun c => ch_key c = k) (charges d).

Definition charged_keys (d : tables) : list tkey := remove_dups (ch_key <$> charges d).

Definition dup_rows (d : tables) : nat :=
  length (List.filter (fun k => (1 <? length (charges_for k d))%nat) (charged_keys d)).

Definition extra_charges (d : tables) : Z :=
  zsum ((fun k => Z.of_nat (length (charges_for k d)) - 1) <$> charged_keys d).

(** ** Lemmas *)

(** Whether a program and handler compare the stored fingerprint. *)
Definition checks_fp (m : impl) : bool :=
  match m, prog with B, _ => true | C, Service => true | _, _ => false end.

(** A key without a row was never charged; one with a row was charged once, and the
    row is that of the charged body. *)
Definition row_ok (m : impl) (k : tkey) (d : tables) : Prop :=
  match keys d !! k with
  | None => charges_for k d = []
  | Some r => exists id b, charges_for k d = [mkCharge id k (amount_of b)] /\ r = commit_row m b id
  end.

Definition answer_ok (m : impl) (k : tkey) (b : Body) (a : answer) (d : tables) : Prop :=
  match a with
  | Charged => exists id, keys d !! k = Some (commit_row m b id) /\
      charges_for k d = [mkCharge id k (amount_of b)]
  | Replay x => exists b0 id, keys d !! k = Some (commit_row m b0 id) /\
      (checks_fp m = true -> fingerprint b0 = fingerprint b) /\
      (x = None \/ x = response (commit_row m b0 id))
  | Mismatch => exists b0 id, keys d !! k = Some (commit_row m b0 id) /\
      fingerprint b0 <> fingerprint b
  | Permanent | InFlightRetry | AfterCharging => False
  | Failed => True
  end.

Definition place_ok (m : impl) (i : nat) (p : place) (d : tables) : Prop :=
  match p with
  | Begin _ _ => True
  | Unseen _ _ | Moved _ _ => False
  | Won k _ | Paying k _ _ =>
      reserved d !! k = Some i /\ keys d !! k = None /\ (m = C -> locks d !! lock_of k = Some i)
  | Lost k _ => m = B /\ is_Some (keys d !! k)
  | Locked k _ => m = C /\ locks d !! lock_of k = Some i
  | Absent k _ => m = C /\ locks d !! lock_of k = Some i /\ keys d !! k = None
  | Answered k b a => answer_ok m k b a d
  end.

(** Whom an entry of the index, or a lock, belongs to. *)
Definition has_key (p : place) (k : tkey) : Prop :=
  match p with Won k' _ | Paying k' _ _ => k' = k | _ => False end.

Definition has_lock (p : place) (h : Z) : Prop :=
  match p with
  | Locked k _ | Absent k _ | Won k _ | Paying k _ _ => lock_of k = h
  | _ => False
  end.

Record inv (m : impl) (w : world) : Prop := {
  inv_rows : forall k, row_ok m k (db w);
  inv_places : forall i p, requests w !! i = Some p -> place_ok m i p (db w);
  inv_reserved : forall k i, reserved (db w) !! k = Some i ->
    exists p, requests w !! i = Some p /\ has_key p k;
  inv_locks : forall h i, locks (db w) !! h = Some i ->
    m = C /\ exists p, requests w !! i = Some p /\ has_lock p h;
  inv_charged : forall i j k b b', requests w !! i = Some (Answered k b Charged) ->
    requests w !! j = Some (Answered k b' Charged) -> i = j;
}.

(** *** Steps of one request *)

(** Only entries of request [i] change. *)
Record only (i : nat) (d d' : tables) : Prop := {
  only_keys : keys d' = keys d;
  only_charges : charges d' = charges d;
  only_reserved : forall k j, j <> i -> reserved d' !! k = Some j <-> reserved d !! k = Some j;
  only_locks : forall h j, j <> i -> locks d' !! h = Some j <-> locks d !! h = Some j;
}.

Lemma only_refl (i : nat) (d : tables) : only i d d.
Proof. by split. Qed.

Lemma release_reserved (i j : nat) (k : tkey) (d : tables) :
  reserved (release i d) !! k = Some j <-> reserved d !! k = Some j /\ j <> i.
Proof. simpl. by rewrite map_lookup_filter_Some. Qed.

Lemma release_locks (i j : nat) (h : Z) (d : tables) :
  locks (release i d) !! h = Some j <-> locks d !! h = Some j /\ j <> i.
Proof. simpl. by rewrite map_lookup_filter_Some. Qed.

Lemma only_release (i : nat) (d : tables) : only i d (release i d).
Proof.
  split; [done|done| |]; intros k j Hj; [rewrite release_reserved|rewrite release_locks]; tauto.
Qed.

Lemma only_reserve (i : nat) (k : tkey) (d : tables) :
  reserved d !! k = None -> only i d (reserve i k d).
Proof.
  intros Hk. split; [done|done| |done]. intros k' j Hj. simpl. rewrite lookup_insert_Some.
  split; [by intros [[_ ?]|[_ ?]]|]. intros H. right. split; [congruence|done].
Qed.

Lemma only_lock (i : nat) (h : Z) (d : tables) : locks d !! h = None -> only i d (lock i h d).
Proof.
  intros Hh. split; [done|done|done|]. intros h' j Hj. simpl. rewrite lookup_insert_Some.
  split; [by intros [[_ ?]|[_ ?]]|]. intros H. right. split; [congruence|done].
Qed.

Lemma place_ok_other (m : impl) (i j : nat) (p : place) (d d' : tables) :
  only i d d' -> j <> i -> place_ok m j p d -> place_ok m j p d'.
Proof.
  intros [Hk Hc Hr Hl] Hj. destruct p; simpl; rewrite ?Hk; try done.
  - intros (H1 & H2 & H3). rewrite Hr by done. split_and!; [done|done|].
    intros Hm. rewrite Hl by done. auto.
  - intros (H1 & H2 & H3). rewrite Hr by done. split_and!; [done|done|].
    intros Hm. rewrite Hl by done. auto.
  - intros (H1 & H2). by rewrite Hl.
  - intros (H1 & H2). by rewrite Hl.
  - unfold answer_ok, charges_for. by rewrite Hk, Hc.
Qed.

Lemma insert_cases (i j : nat) (p q : place) (l : list place) :
  <[i := p]> l !! j = Some q -> (j = i /\ q = p) \/ (j <> i /\ l !! j = Some q).
Proof. intros H. apply list_lookup_insert_Some in H as [(-> & -> & _)|[? ?]]; auto. Qed.

(** Everything a request does but its commit. *)
Lemma inv_only (m : impl) (i : nat) (p p' : place) (w : world) (d' : tables) :
  inv m w -> requests w !! i = Some p -> only i (db w) d' -> place_ok m i p' d' ->
  (forall k, reserved d' !! k = Some i -> has_key p' k) ->
  (forall h, locks d' !! h = Some i -> m = C /\ has_lock p' h) ->
  (forall k b, p' <> Answered k b Charged) ->
  inv m (mkWorld d' (<[i := p']> (requests w))).
Proof.
  intros [I1 I2 I3 I4 I5] Hi Ho Hp Hk Hl Hn. pose proof Ho as [Ok Oc Or Ol].
  assert (Hin : <[i := p']> (requests w) !! i = Some p')
    by (apply list_lookup_insert_eq; by eapply lookup_lt_Some).
  split; cbn [db requests].
  - intros k. specialize (I1 k). unfold row_ok, charges_for in *. by rewrite Ok, Oc.
  - intros j q Hj. apply insert_cases in Hj as [[-> ->]|[Hne Hj]]; [done|].
    eapply place_ok_other; [exact Ho|done|]. by apply I2.
  - intros k j Hj. destruct (decide (j = i)) as [->|Hne]; [by eauto|].
    apply Or in Hj; [|done]. rewrite list_lookup_insert_ne by done. by apply I3.
  - intros h j Hj. destruct (decide (j = i)) as [->|Hne].
    { destruct (Hl h Hj). by eauto. }
    apply Ol in Hj; [|done]. rewrite list_lookup_insert_ne by done. by apply I4.
  - intros j j' k b b' Hj Hj'.
    apply insert_cases in Hj as [[-> Hj]|[_ Hj]]; [by destruct (Hn k b)|].
    apply insert_cases in Hj' as [[-> Hj']|[_ Hj']]; [by destruct (Hn k b')|]. by eapply I5.
Qed.

(** The entries a request owns are those of its place. *)
Lemma own_key (m : impl) (i : nat) (p : place) (w : world) (k : tkey) :
  inv m w -> requests w !! i = Some p -> reserved (db w) !! k = Some i -> has_key p k.
Proof. intros Hw Hi Hk. destruct (inv_reserved _ _ Hw k i Hk) as (q & Hq & ?). congruence. Qed.

Lemma own_lock (m : impl) (i : nat) (p : place) (w : world) (h : Z) :
  inv m w -> requests w !! i = Some p -> locks (db w) !! h = Some i -> m = C /\ has_lock p h.
Proof.
  intros Hw Hi Hh. destruct (inv_locks _ _ Hw h i Hh) as (Hm & q & Hq & ?).
  split; [done|congruence].
Qed.

(** The answer that ends a transaction. *)
Lemma inv_answer (m : impl) (i : nat) (p : place) (k : tkey) (b : Body) (a : answer) (w : world) :
  inv m w -> requests w !! i = Some p -> answer_ok m k b a (db w) -> a <> Charged ->
  inv m (mkWorld (release i (db w)) (<[i := Answered k b a]> (requests w))).
Proof.
  intros Hw Hi Ha Hn. eapply inv_only; [done|exact Hi|apply only_release| | | |congruence].
  - simpl. by destruct a.
  - intros k' Hk. by apply release_reserved in Hk as [_ ?].
  - intros h Hh. by apply release_locks in Hh as [_ ?].
Qed.

(** What the commit of request [i] changes: the row of [k], a charge for it, and the
    entries and locks of [i]. *)
Record commits (m : impl) (i : nat) (k : tkey) (b : Body) (id : Z) (d d' : tables) : Prop := {
  c_keys : keys d' = <[k := commit_row m b id]> (keys d);
  c_charges : forall k', charges_for k' d' =
    charges_for k' d ++ (if decide (k = k') then [mkCharge id k (amount_of b)] else []);
  c_reserved : forall k' j, reserved d' !! k' = Some j <-> reserved d !! k' = Some j /\ j <> i;
  c_locks : forall h j, locks d' !! h = Some j <-> locks d !! h = Some j /\ j <> i;
}.

Lemma release_commits (m : impl) (i : nat) (k : tkey) (b : Body) (id : Z) (d : tables) :
  commits m i k b id d
    (release i (add_charge (mkCharge id k (amount_of b)) (put_row k (commit_row m b id) d))).
Proof.
  split; [done| | |].
  - intros k'. unfold charges_for. simpl. by rewrite filter_app.
  - intros k' j. by rewrite release_reserved.
  - intros h j. by rewrite release_locks.
Qed.

(** Another request is still where it was. *)
Lemma commits_place (m : impl) (i j : nat) (k : tkey) (b : Body) (id : Z) (d d' : tables) (q : place) :
  commits m i k b id d d' -> reserved d !! k = Some i -> keys d !! k = None ->
  (m = C -> locks d !! lock_of k = Some i) -> j <> i -> place_ok m j q d -> place_ok m j q d'.
Proof.
  intros [Hrow Hch Hrr Hll] Hr Hk Hlk Hne Hq.
  assert (Hnew : forall k', k' <> k -> keys d' !! k' = keys d !! k')
    by (intros k' Hn; rewrite Hrow; by apply lookup_insert_ne).
  assert (Hres : forall k', reserved d !! k' = Some j -> reserved d' !! k' = Some j)
    by (intros k' ?; apply Hrr; by split).
  assert (Hloc : forall h, locks d !! h = Some j -> locks d' !! h = Some j)
    by (intros h ?; apply Hll; by split).
  destruct q as [| | |k' b'|k' b'|k' b' id'|k' b'|k' b'|k' b' a]; simpl place_ok in *; try done.
  - destruct Hq as (Q1 & Q2 & Q3). assert (k' <> k) by congruence. rewrite Hnew by done. by split_and!; auto.
  - destruct Hq as [Hm Q]. split; [done|]. rewrite Hrow.
    destruct (decide (k' = k)) as [->|]; [by rewrite lookup_insert_eq|by rewrite lookup_insert_ne].
  - destruct Hq as (Q1 & Q2 & Q3). assert (k' <> k) by congruence. rewrite Hnew by done. by split_and!; auto.
  - destruct Hq as [Hm Q]. by auto.
  - destruct Hq as (Hm & Q1 & Q2).
    assert (k' <> k) by (intros ->; specialize (Hlk Hm); congruence). rewrite Hnew by done. by split_and!; auto.
  - unfold answer_ok in *. rewrite Hch. destruct (decide (k = k')) as [<-|Hn].
    + destruct a; rewrite ?Hk in Hq; naive_solver.
    + by rewrite Hnew, app_nil_r by congruence.
Qed.

(** The commit. *)
Lemma inv_commit_row (m : impl) (i : nat) (k : tkey) (b : Body) (id : Z) (w : world) :
  inv m w -> requests w !! i = Some (Paying k b id) ->
  inv m (mkWorld (release i (add_charge (mkCharge id k (amount_of b))
                               (put_row k (commit_row m b id) (db w))))
           (<[i := Answered k b Charged]> (requests w))).
Proof.
  intros [I1 I2 I3 I4 I5] Hi. pose proof (I2 _ _ Hi) as (Hr & Hk & Hlk).
  pose proof (release_commits m i k b id (db w)) as Hc. pose proof Hc as [Hrow Hch Hrr Hll].
  set (d' := release i _) in *. clearbody d'.
  assert (H0 : charges_for k (db w) = []) by (specialize (I1 k); unfold row_ok in I1; by rewrite Hk in I1).
  split; cbn [db requests].
  - intros k'. specialize (I1 k'). unfold row_ok in *. rewrite Hch.
    destruct (decide (k = k')) as [<-|Hne].
    + rewrite H0, Hrow, lookup_insert_eq. by exists id, b.
    + by rewrite Hrow, lookup_insert_ne, app_nil_r.
  - intros j q Hj. apply insert_cases in Hj as [[-> ->]|[Hne Hj]].
    + simpl. rewrite Hrow, lookup_insert_eq, Hch, decide_True, H0 by done. by exists id.
    + eapply commits_place; eauto.
  - intros k' j Hj. apply Hrr in Hj as [Hj Hne].
    rewrite list_lookup_insert_ne by done. by apply I3.
  - intros h j Hj. apply Hll in Hj as [Hj Hne].
    rewrite list_lookup_insert_ne by done. by apply I4.
  - intros j j' k' b1 b2 Hj Hj'.
    assert (Hold : forall j0 b0, requests w !! j0 = Some (Answered k b0 Charged) -> False).
    { intros j0 b0 Hj0. destruct (I2 _ _ Hj0) as (id0 & H1 & _). congruence. }
    apply insert_cases in Hj as [[-> Hj]|[Hne Hj]]; apply insert_cases in Hj' as [[-> Hj']|[Hne' Hj']];
      [done| | |by eapply I5]; simplify_eq; exfalso; eauto.
Qed.

Lemma insert_key_cases (k : tkey) (d : tables) :
  match insert_key k d with
  | Inserted => keys d !! k = None /\ reserved d !! k = None
  | Conflicts => is_Some (keys d !! k)
  | Waits => keys d !! k = None /\ is_Some (reserved d !! k)
  end.
Proof.
  unfold insert_key. destruct (keys d !! k), (reserved d !! k); try done; by eauto.
Qed.

(** Taking the key, in B's first statement and in C's third. *)
Lemma inv_won (m : impl) (i : nat) (p : place) (k : tkey) (b : Body) (w : world) :
  inv m w -> requests w !! i = Some p -> (forall k', ~ has_key p k') ->
  keys (db w) !! k = None -> reserved (db w) !! k = None ->
  (m = C -> locks (db w) !! lock_of k = Some i /\ forall h, has_lock p h -> lock_of k = h) ->
  inv m (mkWorld (reserve i k (db w)) (<[i := Won k b]> (requests w))).
Proof.
  intros Hw Hi Hnk Hk Hr Hl.
  eapply inv_only; [done|exact Hi|by apply only_reserve| | | |congruence].
  - simpl. rewrite lookup_insert_eq. split_and!; [done|done|]. intros Hm. by apply Hl.
  - intros k' Hk'. simpl in Hk'. apply lookup_insert_Some in Hk' as [[<- _]|[_ Hk']]; [done|].
    by destruct (Hnk k' (own_key _ _ _ _ _ Hw Hi Hk')).
  - intros h Hh. destruct (own_lock _ _ _ _ _ Hw Hi Hh) as [Hm Hp]. split; [done|]. simpl.
    by apply Hl.
Qed.

Lemma inv_pay_and_commit (m : impl) (i : nat) (p p' : place) (w : world) (d' : tables) :
  inv m w -> requests w !! i = Some p -> pay_and_commit m i p (db w) = Some (p', d') ->
  inv m (mkWorld d' (<[i := p']> (requests w))).
Proof.
  intros Hw Hi Hp. destruct p; try done; simpl in Hp; injection Hp as <- <-.
  - eapply inv_only; [done|exact Hi|by split| | | |congruence].
    + exact (inv_places _ _ Hw _ _ Hi).
    + intros k' Hk'. exact (own_key _ _ _ _ _ Hw Hi Hk').
    + intros h Hh. exact (own_lock _ _ _ _ _ Hw Hi Hh).
  - by apply inv_commit_row.
Qed.

Lemma inv_b (i : nat) (p p' : place) (w : world) (d' : tables) :
  inv B w -> requests w !! i = Some p -> handle_b i p (db w) = Some (p', d') ->
  inv B (mkWorld d' (<[i := p']> (requests w))).
Proof.
  intros Hw Hi Hp. destruct p as [k b|k b|k b|k b|k b|k b id|k b|k b|k b a]; try done; simpl in Hp.
  - pose proof (insert_key_cases k (db w)) as Hc.
    destruct (insert_key k (db w)); try done; injection Hp as <- <-.
    + destruct Hc. apply inv_won with (Begin k b); try done. by intros k' [].
    + eapply inv_only; [done|exact Hi|apply only_refl|by split| | |congruence].
      * intros k' Hk'. by apply (own_key _ _ _ _ _ Hw Hi) in Hk'.
      * intros h Hh. by apply (own_lock _ _ _ _ _ Hw Hi) in Hh as [? _].
  - by eapply inv_pay_and_commit.
  - injection Hp as <- <-. destruct (inv_places _ _ Hw _ _ Hi) as [_ [r Hr]].
    pose proof (inv_rows _ _ Hw k) as Hrow. unfold row_ok in Hrow. rewrite Hr in *.
    destruct Hrow as (id & b0 & _ & ->). unfold loser_answer. simpl.
    case_bool_decide as Hf; (apply inv_answer with (Lost k b); [done|done| |done]); simpl;
      rewrite Hr; exists b0, id; split_and!; auto.
  - by eapply inv_pay_and_commit.
Qed.

Lemma inv_c (i : nat) (p p' : place) (w : world) (d' : tables) :
  inv C w -> requests w !! i = Some p -> handle_c i p (db w) = Some (p', d') ->
  inv C (mkWorld d' (<[i := p']> (requests w))).
Proof.
  intros Hw Hi Hp. pose proof (inv_places _ _ Hw _ _ Hi) as Hok.
  destruct p as [k b|k b|k b|k b|k b|k b id|k b|k b|k b a]; try done; simpl in Hp, Hok.
  - destruct (locks (db w) !! lock_of k) eqn:El; [done|]. injection Hp as <- <-.
    eapply inv_only; [done|exact Hi|by apply only_lock| | | |congruence].
    + simpl. by rewrite lookup_insert_eq.
    + intros k' Hk'. by apply (own_key _ _ _ _ _ Hw Hi) in Hk'.
    + intros h Hh. simpl in Hh. apply lookup_insert_Some in Hh as [[<- _]|[_ Hh]]; [done|].
      by apply (own_lock _ _ _ _ _ Hw Hi) in Hh as [_ ?].
  - by eapply inv_pay_and_commit.
  - by eapply inv_pay_and_commit.
  - destruct Hok as [_ Hl]. destruct (keys (db w) !! k) as [r|] eqn:Ek; injection Hp as <- <-.
    + pose proof (inv_rows _ _ Hw k) as Hrow. unfold row_ok in Hrow. rewrite Ek in Hrow.
      destruct Hrow as (id & b0 & _ & ->). unfold seen_answer. simpl.
      destruct prog eqn:Epr; [|case_bool_decide as Hf];
        (apply inv_answer with (Locked k b); [done|done| |done]); simpl;
        rewrite Ek; exists b0, id; split_and!; try done; try (by left); unfold checks_fp; by rewrite Epr.
    + eapply inv_only; [done|exact Hi|apply only_refl|by split_and!| | |congruence].
      * intros k' Hk'. by apply (own_key _ _ _ _ _ Hw Hi) in Hk'.
      * intros h Hh. by apply (own_lock _ _ _ _ _ Hw Hi) in Hh.
  - destruct Hok as (_ & Hl & Hk). pose proof (insert_key_cases k (db w)) as Hc.
    destruct (insert_key k (db w)); try done; injection Hp as <- <-.
    + destruct Hc. apply inv_won with (Absent k b); try done. by intros k' [].
    + rewrite Hk in Hc. by destruct Hc.
Qed.

Lemma inv_turn (m : impl) (i : nat) (w w' : world) :
  m <> A -> inv m w -> turn m i w = Some w' -> inv m w'.
Proof.
  intros Hm Hw. unfold turn. destruct (requests w !! i) as [p|] eqn:Hi; [|done]. simpl.
  destruct (handle m i p (db w)) as [[p' d']|] eqn:Hp; [|done]. simpl. intros [= <-].
  destruct m; [done|by eapply inv_b|by eapply inv_c].
Qed.

Lemma inv_start (m : impl) : inv m start.
Proof. by split. Qed.

Lemma payments_inv_step (m : impl) (w w' : world) : m <> A -> inv m w -> step m w w' -> inv m w'.
Proof.
  intros Hm Hw Hs. destruct Hs as [k b w|i w w' Ht|i p w Hi Ha].
  - destruct Hw as [I1 I2 I3 I4 I5].
    assert (Hkeep : forall j p, requests w !! j = Some p ->
      (requests w ++ [Begin k b]) !! j = Some p) by (intros; by apply lookup_app_l_Some).
    split; cbn [db requests]; [done| | | |].
    + intros j p Hj. apply lookup_app_Some in Hj as [Hj|[_ Hj]]; [by apply I2|].
      by apply list_lookup_singleton_Some in Hj as [_ <-].
    + intros k' j Hj. destruct (I3 k' j Hj) as (p & Hp & ?). by eauto.
    + intros h j Hj. destruct (I4 h j Hj) as (? & p & Hp & ?). by eauto.
    + intros j j' k' b1 b2 Hj Hj'.
      apply lookup_app_Some in Hj as [Hj|[_ Hj]];
        [|by apply list_lookup_singleton_Some in Hj as [_ [=]]].
      apply lookup_app_Some in Hj' as [Hj'|[_ Hj']];
        [|by apply list_lookup_singleton_Some in Hj' as [_ [=]]]. by eapply I5.
  - by eapply inv_turn.
  - by eapply inv_answer.
Qed.

Lemma payments_inv_reachable (m : impl) (w : world) :
  m <> A -> rtc (step m) start w -> inv m w.
Proof.
  intros Hm R. pose proof (inv_start m) as H0.
  induction R as [|x y z Hs _ IH]; [done|]. by apply IH, (payments_inv_step m x).
Qed.

(** *** Progress *)

(** Statements a request still has to run, at most. *)
Definition remaining (p : place) : nat :=
  match p with
  | Begin _ _ => 5
  | Locked _ _ => 4
  | Absent _ _ => 3
  | Won _ _ | Unseen _ _ => 2
  | Paying _ _ _ | Lost _ _ | Moved _ _ => 1
  | Answered _ _ _ => 0
  end.

Definition remaining_all (w : world) : nat := sum_list_with remaining (requests w).

Lemma handle_remaining (m : impl) (i : nat) (p p' : place) (d d' : tables) :
  handle m i p d = Some (p', d') -> (remaining p' < remaining p)%nat.
Proof.
  destruct m, p; simpl; unfold insert_key; intros H; repeat case_match; simplify_eq; simpl; lia.
Qed.

Lemma sum_list_insert {T} (f : T -> nat) (l : list T) (i : nat) (x y : T) :
  l !! i = Some x -> (sum_list_with f (<[i := y]> l) + f x = sum_list_with f l + f y)%nat.
Proof.
  revert i. induction l as [|a l IH]; intros [|i] H; simpl in *; try done.
  - injection H as ->. lia.
  - specialize (IH i H). lia.
Qed.

(** A request that has the key, or the lock, can go on. *)
Lemma has_key_turns (m : impl) (j : nat) (k : tkey) (w : world) :
  m <> A -> inv m w -> reserved (db w) !! k = Some j -> is_Some (turn m j w).
Proof.
  intros Hm Hw Hk. destruct (inv_reserved _ _ Hw k j Hk) as (p & Hp & Hq).
  unfold turn. rewrite Hp. by destruct p, m.
Qed.

Lemma has_lock_turns (j : nat) (h : Z) (w : world) :
  inv C w -> locks (db w) !! h = Some j -> exists j', is_Some (turn C j' w).
Proof.
  intros Hw Hh. destruct (inv_locks _ _ Hw h j Hh) as (_ & p & Hp & Hq).
  destruct p as [| | | | | |k b|k b|]; try done;
    try (by exists j; unfold turn; rewrite Hp).
  - exists j. unfold turn. rewrite Hp. simpl. by destruct (keys (db w) !! k).
  - pose proof (insert_key_cases k (db w)) as Hc.
    destruct (insert_key k (db w)) eqn:E; try (by exists j; unfold turn; rewrite Hp; simpl; rewrite E).
    destruct Hc as [_ [j' Hj']]. exists j'. by eapply has_key_turns.
Qed.

Lemma turn_possible (m : impl) (i : nat) (p : place) (w : world) :
  m <> A -> inv m w -> requests w !! i = Some p -> answered p = false ->
  exists j, is_Some (turn m j w).
Proof.
  intros Hm Hw Hi Ha. pose proof (inv_places _ _ Hw _ _ Hi) as Hok.
  destruct m; [done| |].
  - destruct p as [k b|k b|k b|k b|k b|k b id|k b|k b|k b a]; try done;
      try (by exists i; unfold turn; rewrite Hi); simpl in Hok; try (by destruct Hok).
    pose proof (insert_key_cases k (db w)) as Hc.
    destruct (insert_key k (db w)) eqn:E; try (by exists i; unfold turn; rewrite Hi; simpl; rewrite E).
    destruct Hc as [_ [j Hj]]. exists j. by eapply has_key_turns.
  - destruct p as [k b|k b|k b|k b|k b|k b id|k b|k b|k b a]; try done;
      try (by exists i; unfold turn; rewrite Hi); simpl in Hok; try (by destruct Hok).
    + destruct (locks (db w) !! lock_of k) as [j|] eqn:E.
      * by eapply has_lock_turns.
      * exists i. unfold turn. rewrite Hi. simpl. by rewrite E.
    + destruct Hok as [_ Hl]. by eapply has_lock_turns.
    + destruct Hok as (_ & Hl & _). by eapply has_lock_turns.
Qed.

(** ** Properties *)

(** C2: With the atomic insert (B) or the advisory lock (C), in every reachable
    state and for every key: at most one charge was committed, the counting
    queries find no duplicate, at most one request was told it charged, every
    request answered with success has its charge in the table, of a body with the
    same fingerprint where the handler compares fingerprints; a mismatch is only
    answered to a different body; and nobody is told to retry a key in flight. *)
Theorem key_charged_once (m : impl) (w : world) (k : tkey) :
  m <> A -> rtc (step m) start w ->
  (length (charges_for k (db w)) <= 1)%nat /\
  dup_rows (db w) = 0%nat /\ extra_charges (db w) = 0 /\
  (forall i j b b', requests w !! i = Some (Answered k b Charged) ->
     requests w !! j = Some (Answered k b' Charged) -> i = j) /\
  (forall i b a, requests w !! i = Some (Answered k b a) ->
     match a with
     | Charged => exists id, charges_for k (db w) = [mkCharge id k (amount_of b)]
     | Replay x => exists id b0, charges_for k (db w) = [mkCharge id k (amount_of b0)] /\
         (checks_fp m = true -> fingerprint b0 = fingerprint b) /\
         (forall id', x = Some id' -> id' = id)
     | Mismatch => exists id b0, charges_for k (db w) = [mkCharge id k (amount_of b0)] /\
         fingerprint b0 <> fingerprint b
     | Permanent | InFlightRetry | AfterCharging => False
     | Failed => True
     end).
Proof.
  intros Hm R. pose proof (payments_inv_reachable m w Hm R) as Hw.
  assert (Hlen : forall k', (length (charges_for k' (db w)) <= 1)%nat).
  { intros k'. pose proof (inv_rows _ _ Hw k') as H. unfold row_ok in H.
    destruct (keys (db w) !! k'); [|by rewrite H; simpl; lia].
    destruct H as (id & b & -> & _). simpl. lia. }
  split; [apply Hlen|]. split; [|split; [|split]].
  - unfold dup_rows. induction (charged_keys (db w)) as [|k' l IH]; [done|]. simpl.
    specialize (Hlen k'). by destruct (Nat.ltb_spec 1 (length (charges_for k' (db w)))); [lia|].
  - unfold extra_charges.
    assert (Hall : Forall (fun k' => length (charges_for k' (db w)) = 1%nat) (charged_keys (db w))).
    { apply Forall_forall. intros k' Hk'. unfold charged_keys in Hk'.
      rewrite elem_of_remove_dups in Hk'.
      apply list_elem_of_fmap in Hk' as (c & -> & Hc). specialize (Hlen (ch_key c)).
      assert (c ∈ charges_for (ch_key c) (db w)) as Hin by (by apply list_elem_of_filter).
      destruct (charges_for (ch_key c) (db w)); [by apply elem_of_nil in Hin|]. simpl in *. lia. }
    induction Hall as [|k' l Hk' _ IH]; [done|]. rewrite zsum_fmap_cons, Hk'. simpl. lia.
  - intros i j b b'. apply (inv_charged _ _ Hw).
  - intros i b a Hi. pose proof (inv_places _ _ Hw _ _ Hi) as Ha.
    pose proof (inv_rows _ _ Hw k) as Hrow. unfold row_ok in Hrow. simpl in Ha.
    destruct a; simpl in Ha; try done.
    + destruct Ha as (id & _ & Hc). by exists id.
    + destruct Ha as (b1 & id1 & Hk & Hf & Hx). rewrite Hk in Hrow.
      destruct Hrow as (id & b0 & Hc & He). exists id, b0. split; [exact Hc|].
      injection He as He Hs. split; [intros Hq; rewrite <- He; auto|].
      intros id' ->. destruct Hx as [[=]|Hx]. simpl in Hx. rewrite Hs in Hx.
      by destruct m, prog; simplify_eq.
    + destruct Ha as (b1 & id1 & Hk & Hf). rewrite Hk in Hrow.
      destruct Hrow as (id & b0 & Hc & He). exists id, b0. injection He as He _.
      split; [exact Hc|congruence].
Qed.

(** C25: No deadlock, and every request ends: each statement leaves its request
    fewer to run, and in a reachable state of B or C where nobody can move every
    request has been answered. *)
Theorem requests_all_answered (m : impl) (w : world) :
  m <> A -> rtc (step m) start w ->
  (forall i w', turn m i w = Some w' -> (remaining_all w' < remaining_all w)%nat) /\
  ((forall i, turn m i w = None) -> Forall (fun p => answered p = true) (requests w)).
Proof.
  intros Hm R. pose proof (payments_inv_reachable m w Hm R) as Hw. split.
  - intros i w'. unfold turn. destruct (requests w !! i) as [p|] eqn:Hi; [|done]. simpl.
    destruct (handle m i p (db w)) as [[p' d']|] eqn:Hp; [|done]. simpl. intros [= <-].
    apply handle_remaining in Hp. unfold remaining_all. simpl.
    pose proof (sum_list_insert remaining (requests w) i p p' Hi). lia.
  - intros Hn. apply Forall_lookup. intros i p Hi. destruct (answered p) eqn:Ha; [done|].
    destruct (turn_possible m i p w Hm Hw Hi Ha) as [j [w' Hj]]. rewrite Hn in Hj. done.
Qed.

(** Requests at the same place that take their turns one after the other. *)
Lemma turns_all (m : impl) (P : tables -> Prop) (p q : place) (f : tables -> tables)
    (n : nat) (pre : list place) (d : tables) :
  (forall i d', P d' -> handle m i p d' = Some (q, f d') /\ P (f d')) -> P d ->
  rtc (step m) (mkWorld d (pre ++ replicate n p))
    (mkWorld (Nat.iter n f d) (pre ++ replicate n q)).
Proof.
  intros Hf. revert pre d. induction n as [|n IH]; intros pre d Hd; [apply rtc_refl|].
  destruct (Hf (length pre) d Hd) as [Hp Hd'].
  eapply rtc_l; [apply (step_turn m (length pre))|].
  - unfold turn. cbn [requests db]. rewrite lookup_app_r, Nat.sub_diag by lia. simpl.
    rewrite Hp. simpl. rewrite insert_app_r_alt, Nat.sub_diag by lia. reflexivity.
  - rewrite Nat.iter_succ_r. specialize (IH (pre ++ [q]) (f d) Hd').
    rewrite <- !app_assoc in IH. exact IH.
Qed.

(** The charge of A, as a change of the tables. *)
Definition charge_now (k : tkey) (b : Body) (d : tables) : tables :=
  let '(id, d1) := take_id d in add_charge (mkCharge id k (amount_of b)) d1.

Lemma charge_now_iter (k : tkey) (b : Body) (n : nat) (d : tables) :
  let d' := Nat.iter n (charge_now k b) d in
  keys d' = keys d /\ length (charges_for k d') = (length (charges_for k d) + n)%nat /\
  (ch_key <$> charges d') = (ch_key <$> charges d) ++ replicate n k.
Proof.
  induction n as [|n IH]; cbn zeta in *; [by rewrite app_nil_r; auto with lia|].
  rewrite Nat.iter_succ. destruct IH as (IK & IL & IC).
  set (d' := Nat.iter n (charge_now k b) d) in *. split; [done|]. split.
  - unfold charges_for in *. simpl. rewrite filter_app, length_app, IL, filter_cons_True by done.
    simpl. lia.
  - simpl charges. rewrite fmap_app, IC, <- app_assoc. f_equal. by rewrite replicate_S_end.
Qed.

Lemma remove_dups_replicate (k : tkey) (n : nat) : remove_dups (replicate (S n) k) = [k].
Proof.
  induction n as [|n IH]; [done|].
  change (replicate (S (S n)) k) with (k :: replicate (S n) k). cbn [remove_dups].
  destruct (decide_rel elem_of k (replicate (S n) k)) as [_|H]; [exact IH|].
  destruct H. by left.
Qed.

(** The first to record the key. *)
Lemma records_first (k : tkey) (b : Body) (l : list place) (d : tables) :
  keys d !! k = None ->
  turn A 0 (mkWorld d (Moved k b :: l)) =
  Some (mkWorld (put_row k (mkRow (fingerprint b) Succeeded None) d) (Answered k b Charged :: l)).
Proof. intros Hk. unfold turn. simpl. by rewrite Hk. Qed.

(** Check-then-insert (A): [n] simultaneous requests with one key can end in
    [n] charges; one is told 201, the rest find the key taken after charging. *)
Theorem check_then_insert_charges_each (k : tkey) (b : Body) (n : nat) :
  exists w', rtc (step A) (mkWorld no_rows (replicate (S n) (Begin k b))) w' /\
    length (charges_for k (db w')) = S n /\ extra_charges (db w') = Z.of_nat n /\
    requests w' = Answered k b Charged :: replicate n (Answered k b AfterCharging).
Proof.
  set (d0 := no_rows). set (d1 := Nat.iter (S n) (charge_now k b) d0).
  set (d2 := put_row k (mkRow (fingerprint b) Succeeded None) d1).
  destruct (charge_now_iter k b (S n) d0) as (Hk & Hl & Hc). fold d1 in Hk, Hl, Hc.
  exists (mkWorld d2 (Answered k b Charged :: replicate n (Answered k b AfterCharging))).
  split; [|split; [|split; [|done]]].
  - etrans; [apply (turns_all A (fun d => keys d !! k = None) (Begin k b) (Unseen k b) id (S n) [] d0)|].
    { intros i d' Hd'. simpl. by rewrite Hd'. } { done. }
    assert (forall m, Nat.iter m id d0 = d0) as -> by (intros m; by induction m).
    etrans; [apply (turns_all A (fun _ => True) (Unseen k b) (Moved k b) (charge_now k b) (S n) [] d0)|].
    { done. } { done. }
    fold d1. cbn [app replicate].
    eapply rtc_l; [apply (step_turn A 0), records_first; by rewrite Hk|]. fold d2.
    assert (forall m, Nat.iter m id d2 = d2) as Hid by (intros m; by induction m).
    pose proof (turns_all A (fun d => is_Some (keys d !! k)) (Moved k b)
        (Answered k b AfterCharging) id n [Answered k b Charged] d2) as H.
    rewrite Hid in H. apply H.
    + intros i d' Hd'. simpl. by destruct Hd' as [r ->].
    + unfold d2. cbn [keys put_row]. by rewrite lookup_insert_eq.
  - exact Hl.
  - unfold extra_charges, charged_keys. cbn [db charges d2 put_row]. rewrite Hc.
    change (ch_key <$> charges d0) with (@nil tkey). rewrite app_nil_l, remove_dups_replicate.
    rewrite zsum_fmap_cons. unfold charges_for in Hl |- *. cbn [db charges d2 put_row] in *.
    rewrite Hl. simpl. lia.
Qed.
End Handlers.

(** ** Witnesses *)

Section Witnesses.
#[local] Abbreviation fpr := (fun b : Z => pretty b).
#[local] Abbreviation amt := (fun b : Z => b).
#[local] Abbreviation hash := (fun s : string => Z.of_nat (String.length s)).

Fixpoint turns (prog : program) (m : impl) (l : list nat) (w : world (Body := Z)) : option world :=
  match l with
  | [] => Some w
  | i :: l' => turn fpr amt hash prog m i w ≫= turns prog m l'
  end.

Lemma turns_rtc (prog : program) (m : impl) (l : list nat) (w w' : world) :
  turns prog m l w = Some w' -> rtc (step fpr amt hash prog m) w w'.
Proof.
  revert w. induction l as [|i l IH]; simpl; intros w H; [by simplify_eq|].
  destruct (turn _ _ _ _ _ _ w) as [w1|] eqn:E; [|done]. simpl in H.
  eapply rtc_l; [by eapply step_turn|by apply IH].
Qed.

(** Three requests with one key, the last with another body. *)
Definition three : world :=
  mkWorld no_rows [Begin ("t", "k") 5; Begin ("t", "k") 5; Begin ("t", "k") 7].

Lemma three_reachable (prog : program) (m : impl) : rtc (step fpr amt hash prog m) start three.
Proof.
  eapply rtc_l; [apply (step_arrive fpr amt hash prog m ("t", "k") 5)|].
  eapply rtc_l; [apply (step_arrive fpr amt hash prog m ("t", "k") 5)|].
  eapply rtc_l; [apply (step_arrive fpr amt hash prog m ("t", "k") 7)|]. apply rtc_refl.
Qed.

Definition race_b : world :=
  default three (turns Race B [0; 0; 0; 1; 1; 2; 2]%nat three).

Lemma race_b_reachable : rtc (step fpr amt hash Race B) start race_b.
Proof. etrans; [apply three_reachable|]. by apply (turns_rtc Race B [0; 0; 0; 1; 1; 2; 2]%nat). Qed.

Definition race_c : world :=
  default three (turns Race C [0; 0; 0; 0; 0; 2; 2; 1; 1]%nat three).

Lemma race_c_reachable : rtc (step fpr amt hash Race C) start race_c.
Proof.
  etrans; [apply three_reachable|]. by apply (turns_rtc Race C [0; 0; 0; 0; 0; 2; 2; 1; 1]%nat).
Qed.
End Witnesses.

(** The script's C replays the first answer to the different body as well. *)
Example race_b_statuses :
  map (fun p => match p with Answered _ _ a => http_status Race a | _ => 0 end) (requests race_b) =
    [201; 200; 422] /\
  map (fun p => match p with Answered _ _ a => http_status Race a | _ => 0 end) (requests race_c) =
    [201; 200; 200].
Proof. by vm_compute. Qed.

Lemma key_charged_once_witness :
  length (charges_for ("t", "k") (db race_b)) = 1%nat /\
  exists id b0, charges_for ("t", "k") (db race_b) = [mkCharge id ("t", "k") b0] /\
    pretty b0 <> pretty 7.
Proof.
  split; [reflexivity|].
  destruct (key_charged_once (fun b : Z => pretty b) (fun b => b)
              (fun s => Z.of_nat (String.length s)) Race B race_b ("t", "k"))
    as (_ & _ & _ & _ & H); [discriminate|exact race_b_reachable|].
  exact (H 2%nat 7 Mismatch eq_refl).
Defined.

Lemma requests_all_answered_witness :
  rtc (step (fun b : Z => pretty b) (fun b => b) (fun s => Z.of_nat (String.length s)) Race B)
    start race_b /\
  Forall (fun p => answered p = true) (requests race_b).
Proof.
  split; [exact race_b_reachable|].
  destruct (requests_all_answered (fun b : Z => pretty b) (fun b => b)
              (fun s => Z.of_nat (String.length s)) Race B race_b) as [_ H];
    [discriminate|exact race_b_reachable|].
  apply H. intros [|[|[|i]]]; reflexivity.
Defined.
