(* ===== verification/Outbox.v ===== *)
(** * Distributed lab: the transactional outbox and its relays

    Models src/04-distributed/docker/services/app/payments6.py ([payments] in its
    modes v0 and v1), src/04-distributed/docker/services/app/relay6.py ([relay_loop],
    [consume_loop]) and, under
    src/04-distributed/06-outbox-sagas-and-why-2pc-is-avoided/python, the writer and the two
    relays of hwm_skip.py and [publish_batch] of outbox_relay.py.  The programs
    run side by side over one database and one broker: [turn] runs the next
    statement of one process, and any process may fail at any statement, which
    rolls its transaction back.  The state is what other sessions see: committed
    rows, the two sequences (an id is taken at the [INSERT] and shows at the
    commit, so ids and commits can disagree), and the row locks of [FOR UPDATE].
    Timestamps, the payload's JSON and the run id are left out.  The broker is
    its log: a produced message may reach it or not, and is acknowledged only if
    it did; the consumer's offset moves on when it polls, as its automatic
    commit does. *)

From Stdlib Require Import ZArith Lia.
From stdpp Require Import base option list numbers strings gmap sorting relations.
From S2P Require Import Prelude.

Open Scope Z_scope.

(** ** Definitions *)

Inductive mode : Type := V0 | V1.

(** Who published a row of [t6_outbox], and the relay of a row of [t6_delivered]. *)
Inductive channel : Type := HighWaterMark | SkipLocked | Kafka.

#[export] Instance channel_eq_dec : EqDecision channel.
Proof. solve_decision. Defined.

Record row : Type := mkRow { aggregate_id : Z; published : option channel }.

(** [t6_charges], [t6_outbox], [t6_delivered], [t6_publish_failures] and
    [t6_consumer_effects], the sequences, the row locks, and the broker's log, where a
    message is the [outbox_id] of its payload, if it has one. *)
Record tables : Type := mkTables {
  charges : list Z;
  outbox : gmap Z row;
  delivered : list (channel * Z);
  failures : list Z;
  effects : list Z;
  next_charge : Z;
  next_outbox : Z;
  row_locks : gmap Z nat;
  log : list (option Z);
}.

Definition set_outbox (o : gmap Z row) (d : tables) : tables :=
  mkTables (charges d) o (delivered d) (failures d) (effects d) (next_charge d) (next_outbox d)
    (row_locks d) (log d).

Definition set_locks (l : gmap Z nat) (d : tables) : tables :=
  mkTables (charges d) (outbox d) (delivered d) (failures d) (effects d) (next_charge d)
    (next_outbox d) l (log d).

Definition deliver (c : channel) (ids : list Z) (d : tables) : tables :=
  mkTables (charges d) (outbox d) (delivered d ++ ((c,.) <$> ids)) (failures d) (effects d)
    (next_charge d) (next_outbox d) (row_locks d) (log d).

Definition add_charge (cid : Z) (d : tables) : tables :=
  mkTables (charges d ++ [cid]) (outbox d) (delivered d) (failures d) (effects d)
    (next_charge d) (next_outbox d) (row_locks d) (log d).

Definition take_charge_id (d : tables) : Z * tables :=
  (next_charge d,
   mkTables (charges d) (outbox d) (delivered d) (failures d) (effects d) (next_charge d + 1)
     (next_outbox d) (row_locks d) (log d)).

Definition take_outbox_id (d : tables) : Z * tables :=
  (next_outbox d,
   mkTables (charges d) (outbox d) (delivered d) (failures d) (effects d) (next_charge d)
     (next_outbox d + 1) (row_locks d) (log d)).

Definition add_failure (cid : Z) (d : tables) : tables :=
  mkTables (charges d) (outbox d) (delivered d) (failures d ++ [cid]) (effects d)
    (next_charge d) (next_outbox d) (row_locks d) (log d).

Definition append_log (ids : list (option Z)) (d : tables) : tables :=
  mkTables (charges d) (outbox d) (delivered d) (failures d) (effects d) (next_charge d)
    (next_outbox d) (row_locks d) (log d ++ ids).

(** [INSERT INTO t6_consumer_effects .. ON CONFLICT DO NOTHING]. *)
Definition add_effect (oid : Z) (d : tables) : tables :=
  if bool_decide (oid ∈ effects d) then d
  else mkTables (charges d) (outbox d) (delivered d) (failures d) (effects d ++ [oid])
         (next_charge d) (next_outbox d) (row_locks d) (log d).

(** The end of process [i]'s transaction. *)
Definition release (i : nat) (d : tables) : tables :=
  set_locks (filter (fun p => p.2 <> i) (row_locks d)) d.

(** [UPDATE t6_outbox SET published_at = .. WHERE id = ANY(..)]. *)
Definition mark_published (c : channel) (ids : list Z) (d : tables) : tables :=
  set_outbox
    (map_imap (fun oid r => Some (if bool_decide (oid ∈ ids) then mkRow (aggregate_id r) (Some c)
                                  else r)) (outbox d)) d.

(** [SELECT id .. WHERE published_at IS NULL ORDER BY id FOR UPDATE SKIP LOCKED
    LIMIT batch], which locks what it returns. *)
Definition unpublished (d : tables) : list Z :=
  merge_sort Z.le
    (omap (fun '(oid, r) => match published r with None => Some oid | Some _ => None end)
       (map_to_list (outbox d))).

Definition claimable (d : tables) : list Z :=
  List.filter (fun oid => match row_locks d !! oid with None => true | Some _ => false end)
    (unpublished d).

Definition lock_rows (i : nat) (ids : list Z) (d : tables) : tables :=
  set_locks (foldr (fun oid m => <[oid := i]> m) (row_locks d) ids) d.

Definition select_for_update (i batch : nat) (d : tables) : list Z * tables :=
  let rows := take batch (claimable d) in (rows, lock_rows i rows d).

(** [SELECT id .. WHERE id > last_seen ORDER BY id LIMIT batch]. *)
Definition select_after (last_seen : Z) (batch : nat) (d : tables) : list Z :=
  take batch (merge_sort Z.le
    (List.filter (fun oid => last_seen <? oid) ((map_to_list (outbox d)).*1))).

(** A payment: before its charge; past its charge; past its outbox row, the
    commit to come; in mode v0 past the committed charge, and past a publish
    without acknowledgement; answered with a status. *)
Inductive payment : Type :=
| Pay
| Charged (cid : Z)
| Enqueued (cid oid : Z)
| Publishing (cid : Z)
| Recording (cid : Z)
| Answered (code : Z) (cid : option Z).

(** A relay: idle; with rows locked, some published in the open transaction; or,
    for the broker's relay, with the acknowledged ones known. *)
Inductive relay : Type :=
| Idle
| Batch (todo done_ : list Z)
| Acked (sent : nat) (rows acked : list Z).

Inductive process : Type :=
| Payment (p : payment)
| SkipRelay (batch : nat) (count : Z) (r : relay)
| MarkRelay (batch : nat) (last_seen : Z) (todo : list Z)
| BrokerRelay (batch : nat) (r : relay)
| Consumer (offset : nat) (got : option (Z * bool))
| Stopped.

(** What the environment decides in a turn: for each message of a batch whether
    [produce] accepts it, whether it reaches the broker, and whether the report
    says so. *)
Record sending : Type := mkSending { accepted : bool; reached : bool; reported : bool }.

Definition on_broker (s : sending) : bool := accepted s && reached s.
Definition acknowledged (s : sending) : bool := on_broker s && reported s.

(** The loop over the batch stops at the first message [produce] refuses. *)
Fixpoint produce (rows : list Z) (outcome : list sending) : list (Z * sending) :=
  match rows, outcome with
  | oid :: rows', s :: outcome' => if accepted s then (oid, s) :: produce rows' outcome' else []
  | _, _ => []
  end.

Definition chosen (f : sending -> bool) (l : list (Z * sending)) : list Z :=
  omap (fun '(oid, s) => if f s then Some oid else None) l.

Section Processes.
Context (MODE : mode).

(** [payments], and the writer of hwm_skip.py, which is v1 in a loop. *)
Definition payment_turn (outcome : list sending) (p : payment) (d : tables)
    : option (payment * tables) :=
  match p with
  | Pay =>
      let '(cid, d1) := take_charge_id d in
      Some (match MODE with V1 => (Charged cid, d1) | V0 => (Publishing cid, add_charge cid d1) end)
  | Charged cid => let '(oid, d1) := take_outbox_id d in Some (Enqueued cid oid, d1)
  | Enqueued cid oid =>
      Some (Answered 200 (Some cid),
            add_charge cid (set_outbox (<[oid := mkRow cid None]> (outbox d)) d))
  | Publishing cid =>
      match outcome with
      | [] => None
      | s :: _ =>
          Some (if acknowledged s then Answered 200 (Some cid) else Recording cid,
                append_log (if on_broker s then [None] else []) d)
      end
  | Recording cid => Some (Answered 500 (Some cid), add_failure cid d)
  | Answered _ _ => None
  end.

(** [relay_skip_locked] and [publish_batch]: one transaction per pass. *)
Definition skip_turn (i batch : nat) (count : Z) (r : relay) (d : tables)
    : option (process * tables) :=
  match r with
  | Idle => let '(rows, d1) := select_for_update i batch d in
            Some (SkipRelay batch count (Batch rows []), d1)
  | Batch (oid :: todo) done_ => Some (SkipRelay batch count (Batch todo (done_ ++ [oid])), d)
  | Batch [] done_ =>
      Some (SkipRelay batch (count + Z.of_nat (length done_)) Idle,
            release i (mark_published SkipLocked done_ (deliver SkipLocked done_ d)))
  | Acked _ _ _ => None
  end.

(** [relay_high_water_mark], on autocommit. *)
Definition mark_turn (batch : nat) (last_seen : Z) (todo : list Z) (d : tables)
    : process * tables :=
  match todo with
  | [] => (MarkRelay batch last_seen (select_after last_seen batch d), d)
  | oid :: todo' => (MarkRelay batch (Z.max last_seen oid) todo', deliver HighWaterMark [oid] d)
  end.

(** [relay_loop]: claim, produce and flush, then mark what was acknowledged. *)
Definition broker_turn (i batch : nat) (outcome : list sending) (r : relay) (d : tables)
    : option (process * tables) :=
  match r with
  | Idle => let '(rows, d1) := select_for_update i batch d in
            Some (match rows with
                  | [] => (BrokerRelay batch Idle, release i d1)
                  | _ => (BrokerRelay batch (Batch rows []), d1)
                  end)
  | Batch rows _ =>
      let sent := produce rows outcome in
      Some (BrokerRelay batch (Acked (length sent) rows (chosen acknowledged sent)),
            append_log (Some <$> chosen on_broker sent) d)
  | Acked sent rows acked =>
      if bool_decide (length acked < sent)%nat && bool_decide (acked = [])
      then Some (BrokerRelay batch Idle, release i d)
      else Some (BrokerRelay batch Idle, release i (mark_published Kafka acked d))
  end.

(** [consume_loop]: poll, record the delivery, insert the effect. *)
Definition consumer_turn (offset : nat) (got : option (Z * bool)) (d : tables)
    : process * tables :=
  match got with
  | None => (match log d !! offset with
             | Some m => Consumer (S offset) (Some (default 0 m, false))
             | None => Consumer offset None
             end, d)
  | Some (oid, false) => (Consumer offset (Some (oid, true)), deliver Kafka [oid] d)
  | Some (oid, true) => (Consumer offset None, add_effect oid d)
  end.

Definition turn (outcome : list sending) (i : nat) (p : process) (d : tables)
    : option (process * tables) :=
  match p with
  | Payment p => '(p', d') ← payment_turn outcome p d; Some (Payment p', d')
  | SkipRelay batch count r => skip_turn i batch count r d
  | MarkRelay batch last_seen todo => Some (mark_turn batch last_seen todo d)
  | BrokerRelay batch r => broker_turn i batch outcome r d
  | Consumer offset got => Some (consumer_turn offset got d)
  | Stopped => None
  end.

(** A process whose statement raises: its transaction is rolled back.  The loops
    of relay6.py start over; the threads of the scripts end. *)
Definition after_failure (p : process) : process :=
  match p with
  | Payment (Answered code cid) => p
  | Payment _ => Payment (Answered 500 None)
  | SkipRelay _ _ _ | MarkRelay _ _ _ | Stopped => Stopped
  | BrokerRelay batch _ => BrokerRelay batch Idle
  | Consumer offset _ => Consumer offset None
  end.

Record world : Type := mkWorld { db : tables; processes : list process }.

Inductive step : world -> world -> Prop :=
| step_turn outcome i p p' d' w :
    processes w !! i = Some p -> turn outcome i p (db w) = Some (p', d') ->
    step w (mkWorld d' (<[i := p']> (processes w)))
| step_fail i p w :
    processes w !! i = Some p ->
    step w (mkWorld (release i (db w)) (<[i := after_failure p]> (processes w)))
| step_again i code cid w :
    processes w !! i = Some (Payment (Answered code cid)) ->
    step w (mkWorld (db w) (<[i := Payment Pay]> (processes w)))
| step_rewind i offset offset' got w :
    processes w !! i = Some (Consumer offset got) -> (offset' <= offset)%nat ->
    step w (mkWorld (db w) (<[i := Consumer offset' None]> (processes w))).

(** Programs just started, over empty tables. *)
Definition fresh_process (p : process) : bool :=
  match p with
  | Payment Pay | SkipRelay _ 0 Idle | MarkRelay _ 0 [] | BrokerRelay _ Idle
  | Consumer 0 None => true
  | _ => false
  end.

Definition no_rows : tables := mkTables [] ∅ [] [] [] 1 1 ∅ [].

Definition started (w : world) : Prop :=
  db w = no_rows /\ Forall (fun p => fresh_process p = true) (processes w).
End Processes.

(** ** Lemmas *)

(** *** Payments: the charges and the outbox rows *)

(** What a statement of another program leaves alone. *)
Record same_rows (d d' : tables) : Prop := {
  same_charges : charges d' = charges d;
  same_next_charge : next_charge d' = next_charge d;
  same_next_outbox : next_outbox d' = next_outbox d;
  same_aggregate : forall oid, aggregate_id <$> outbox d' !! oid = aggregate_id <$> outbox d !! oid;
}.

Lemma mark_lookup (c : channel) (ids : list Z) (d : tables) (oid : Z) :
  outbox (mark_published c ids d) !! oid =
  (fun r => if bool_decide (oid ∈ ids) then mkRow (aggregate_id r) (Some c) else r)
    <$> outbox d !! oid.
Proof. simpl. rewrite map_lookup_imap. by destruct (outbox d !! oid). Qed.

Lemma same_rows_mark (c : channel) (ids : list Z) (d d' : tables) :
  charges d' = charges d -> next_charge d' = next_charge d -> next_outbox d' = next_outbox d ->
  outbox d' = outbox (mark_published c ids d) -> same_rows d d'.
Proof.
  intros H1 H2 H3 H4. split; [done..|]. intros oid. rewrite H4, mark_lookup.
  destruct (outbox d !! oid) as [r|]; [|done]. simpl. by case_bool_decide.
Qed.

Lemma same_rows_refl (d : tables) : same_rows d d.
Proof. by split. Qed.

Definition is_payment (p : process) : bool := match p with Payment _ => true | _ => false end.

Lemma turn_same_rows (MODE : mode) (outcome : list sending) (i : nat) (p p' : process)
    (d d' : tables) :
  turn MODE outcome i p d = Some (p', d') ->
  (is_payment p = false -> same_rows d d') /\ is_payment p' = is_payment p.
Proof.
  destruct p as [p|batch count r|batch ls todo|batch r|offset got|]; simpl; [| | | | |done].
  - destruct (payment_turn _ _ _ _) as [[q d1]|]; simpl; [|done]. by intros [= <- <-].
  - destruct r as [|[|oid todo] done_|]; simpl; intros [= <- <-]; split; try done; intros _.
    by apply (same_rows_mark SkipLocked done_).
  - unfold mark_turn. destruct todo; intros [= <- <-]; by split.
  - destruct r as [|rows ?|sent rows acked]; simpl.
    + destruct (take _ _); intros [= <- <-]; by split.
    + intros [= <- <-]. by split.
    + destruct (_ && _); intros [= <- <-]; split; try done. intros _.
      by apply (same_rows_mark Kafka acked).
  - unfold consumer_turn. destruct got as [[oid []]|]; intros [= <- <-]; split; try done.
    + intros _. unfold add_effect. by case_bool_decide.
    + by destruct (log d !! offset).
Qed.

(** The ids a payment holds. *)
Definition open_charge (p : process) : option Z :=
  match p with Payment (Charged cid) | Payment (Enqueued cid _) => Some cid | _ => None end.

Definition open_row (p : process) : option Z :=
  match p with Payment (Enqueued _ oid) => Some oid | _ => None end.

Record books (w : world) : Prop := {
  books_pair : forall cid, cid ∈ charges (db w) <->
    exists oid, aggregate_id <$> outbox (db w) !! oid = Some cid;
  books_inj : forall o1 o2 cid, aggregate_id <$> outbox (db w) !! o1 = Some cid ->
    aggregate_id <$> outbox (db w) !! o2 = Some cid -> o1 = o2;
  books_once : NoDup (charges (db w));
  books_charge_ids : forall cid, cid ∈ charges (db w) -> cid < next_charge (db w);
  books_row_ids : forall oid, next_outbox (db w) <= oid -> outbox (db w) !! oid = None;
  books_open_charge : forall i p cid, processes w !! i = Some p -> open_charge p = Some cid ->
    cid < next_charge (db w) /\ cid ∉ charges (db w);
  books_open_row : forall i p oid, processes w !! i = Some p -> open_row p = Some oid ->
    oid < next_outbox (db w) /\ outbox (db w) !! oid = None;
  books_charges_differ : forall i j p q cid, processes w !! i = Some p ->
    processes w !! j = Some q -> open_charge p = Some cid -> open_charge q = Some cid -> i = j;
  books_rows_differ : forall i j p q oid, processes w !! i = Some p ->
    processes w !! j = Some q -> open_row p = Some oid -> open_row q = Some oid -> i = j;
  books_v1 : forall i cid, processes w !! i <> Some (Payment (Publishing cid)) /\
    processes w !! i <> Some (Payment (Recording cid));
}.

Lemma aggregate_None (d d' : tables) (oid : Z) :
  aggregate_id <$> outbox d' !! oid = aggregate_id <$> outbox d !! oid ->
  outbox d !! oid = None <-> outbox d' !! oid = None.
Proof. destruct (outbox d !! oid), (outbox d' !! oid); simpl; intros H; split; congruence. Qed.

Lemma insert_process (i j : nat) (p q : process) (l : list process) :
  <[i := p]> l !! j = Some q -> (j = i /\ q = p) \/ (j <> i /\ l !! j = Some q).
Proof. intros H. apply list_lookup_insert_Some in H as [(-> & -> & _)|[? ?]]; auto. Qed.

Lemma insert_not (i j : nat) (p q : process) (l : list process) :
  p <> q -> l !! j <> Some q -> <[i := p]> l !! j <> Some q.
Proof. intros Hp Hl H. apply insert_process in H as [[-> ->]|[_ H]]; congruence. Qed.

(** A process that comes to hold no ids, over the same rows. *)
Lemma books_frame (i : nat) (p' : process) (d' : tables) (w : world) :
  books w -> same_rows (db w) d' -> open_charge p' = None -> open_row p' = None ->
  (forall cid, p' <> Payment (Publishing cid) /\ p' <> Payment (Recording cid)) ->
  books (mkWorld d' (<[i := p']> (processes w))).
Proof.
  intros [B1 B2 B3 B4 B5 B6 B7 B8 B9 B10] [S1 S2 S3 S4] Hc Hr Hv.
  split; cbn [db processes]; rewrite ?S1, ?S2, ?S3.
  - intros cid. rewrite B1. by setoid_rewrite S4.
  - intros o1 o2 cid. rewrite !S4. apply B2.
  - done.
  - done.
  - intros oid Ho. apply (aggregate_None (db w)); auto.
  - intros j q cid Hj Hq. apply insert_process in Hj as [[-> ->]|[_ Hj]]; [congruence|eauto].
  - intros j q oid Hj Hq. apply insert_process in Hj as [[-> ->]|[_ Hj]]; [congruence|].
    destruct (B7 _ _ _ Hj Hq). split; [done|]. by apply (aggregate_None (db w)).
  - intros j k p q cid Hj Hk Hp Hq. apply insert_process in Hj as [[-> ->]|[_ Hj]]; [congruence|].
    apply insert_process in Hk as [[-> ->]|[_ Hk]]; [congruence|eauto].
  - intros j k p q oid Hj Hk Hp Hq. apply insert_process in Hj as [[-> ->]|[_ Hj]]; [congruence|].
    apply insert_process in Hk as [[-> ->]|[_ Hk]]; [congruence|eauto].
  - intros j cid. destruct (Hv cid), (B10 j cid). split; by apply insert_not.
Qed.

(** The steps of a payment in mode v1. *)
Lemma books_pay (i : nat) (w : world) :
  books w -> processes w !! i = Some (Payment Pay) ->
  books (mkWorld (take_charge_id (db w)).2
           (<[i := Payment (Charged (next_charge (db w)))]> (processes w))).
Proof.
  intros [B1 B2 B3 B4 B5 B6 B7 B8 B9 B10] Hi.
  split; cbn [db processes take_charge_id snd charges outbox next_charge next_outbox]; try done.
  - intros cid Hc. specialize (B4 cid Hc). lia.
  - intros j q cid Hj Hq. apply insert_process in Hj as [[-> ->]|[_ Hj]].
    + injection Hq as <-. split; [lia|]. intros Hc. specialize (B4 _ Hc). lia.
    + destruct (B6 _ _ _ Hj Hq). split; [lia|done].
  - intros j q oid Hj Hq. apply insert_process in Hj as [[-> ->]|[_ Hj]]; [done|eauto].
  - intros j k p q cid Hj Hk Hp Hq.
    apply insert_process in Hj as [[-> ->]|[_ Hj]]; apply insert_process in Hk as [[-> ->]|[_ Hk]];
      [done| | |by eauto].
    + injection Hp as <-. destruct (B6 _ _ _ Hk Hq). lia.
    + injection Hq as <-. destruct (B6 _ _ _ Hj Hp). lia.
  - intros j k p q oid Hj Hk Hp Hq.
    apply insert_process in Hj as [[-> ->]|[_ Hj]]; [done|].
    apply insert_process in Hk as [[-> ->]|[_ Hk]]; [done|eauto].
  - intros j cid. destruct (B10 j cid). split; by apply insert_not.
Qed.

Lemma books_enqueue (i : nat) (cid : Z) (w : world) :
  books w -> processes w !! i = Some (Payment (Charged cid)) ->
  books (mkWorld (take_outbox_id (db w)).2
           (<[i := Payment (Enqueued cid (next_outbox (db w)))]> (processes w))).
Proof.
  intros [B1 B2 B3 B4 B5 B6 B7 B8 B9 B10] Hi.
  split; cbn [db processes take_outbox_id snd charges outbox next_charge next_outbox]; try done.
  - intros oid Ho. apply B5. lia.
  - intros j q c Hj Hq. apply insert_process in Hj as [[-> ->]|[_ Hj]]; [|by eauto].
    injection Hq as <-. by apply (B6 i _ _ Hi).
  - intros j q oid Hj Hq. apply insert_process in Hj as [[-> ->]|[_ Hj]].
    + injection Hq as <-. split; [lia|]. by apply B5.
    + destruct (B7 _ _ _ Hj Hq). split; [lia|done].
  - intros j k p q c Hj Hk Hp Hq.
    apply insert_process in Hj as [[-> ->]|[_ Hj]]; apply insert_process in Hk as [[-> ->]|[_ Hk]];
      [done| | |by eauto].
    + apply (B8 _ _ _ _ c Hi Hk); [done|exact Hq].
    + apply (B8 _ _ _ _ c Hj Hi); [exact Hp|done].
  - intros j k p q oid Hj Hk Hp Hq.
    apply insert_process in Hj as [[-> ->]|[_ Hj]]; apply insert_process in Hk as [[-> ->]|[_ Hk]];
      [done| | |by eauto].
    + injection Hp as <-. destruct (B7 _ _ _ Hk Hq). lia.
    + injection Hq as <-. destruct (B7 _ _ _ Hj Hp). lia.
  - intros j c. destruct (B10 j c). split; by apply insert_not.
Qed.

Lemma books_commit (i : nat) (cid oid : Z) (w : world) :
  books w -> processes w !! i = Some (Payment (Enqueued cid oid)) ->
  books (mkWorld (add_charge cid (set_outbox (<[oid := mkRow cid None]> (outbox (db w))) (db w)))
           (<[i := Payment (Answered 200 (Some cid))]> (processes w))).
Proof.
  intros [B1 B2 B3 B4 B5 B6 B7 B8 B9 B10] Hi.
  destruct (B6 _ _ _ Hi eq_refl) as [Hc Hc']. destruct (B7 _ _ _ Hi eq_refl) as [Ho Ho'].
  assert (Hlook : forall o, aggregate_id <$> (<[oid := mkRow cid None]> (outbox (db w))) !! o =
    if decide (o = oid) then Some cid else aggregate_id <$> outbox (db w) !! o).
  { intros o. case_decide as Hd; [subst; by rewrite lookup_insert_eq|by rewrite lookup_insert_ne]. }
  split; cbn [db processes add_charge set_outbox charges outbox next_charge next_outbox].
  - intros c. rewrite elem_of_app, list_elem_of_singleton, B1. setoid_rewrite Hlook. split.
    + intros [[o H]| ->]; [|exists oid; by rewrite decide_True].
      exists o. rewrite decide_False; [done|]. intros ->. by rewrite Ho' in H.
    + intros [o H]. case_decide; [right; congruence|left; eauto].
  - intros o1 o2 c. rewrite !Hlook. repeat case_decide; subst; try done.
    + intros [= ->] Hx. destruct Hc'. apply B1. eauto.
    + intros Hx [= ->]. destruct Hc'. apply B1. eauto.
    + apply B2.
  - apply NoDup_app. split_and!; [done| |apply NoDup_singleton].
    intros c Hin H. apply list_elem_of_singleton in H. by subst.
  - intros c Hin. apply elem_of_app in Hin as [?|Hin]; [by apply B4|].
    apply list_elem_of_singleton in Hin. by subst.
  - intros o Hle. rewrite lookup_insert_ne by lia. by apply B5.
  - intros j q c Hj Hq. apply insert_process in Hj as [[-> ->]|[Hne Hj]]; [done|].
    destruct (B6 _ _ _ Hj Hq). split; [done|].
    rewrite elem_of_app, list_elem_of_singleton. intros [?| ->]; [done|].
    by apply Hne, (B8 _ _ _ _ cid Hj Hi).
  - intros j q o Hj Hq. apply insert_process in Hj as [[-> ->]|[Hne Hj]]; [done|].
    destruct (B7 _ _ _ Hj Hq). split; [done|]. rewrite lookup_insert_ne; [done|]. intros ->.
    by apply Hne, (B9 _ _ _ _ o Hj Hi).
  - intros j k p q c Hj Hk Hp Hq. apply insert_process in Hj as [[-> ->]|[_ Hj]]; [done|].
    apply insert_process in Hk as [[-> ->]|[_ Hk]]; [done|eauto].
  - intros j k p q o Hj Hk Hp Hq. apply insert_process in Hj as [[-> ->]|[_ Hj]]; [done|].
    apply insert_process in Hk as [[-> ->]|[_ Hk]]; [done|eauto].
  - intros j c. destruct (B10 j c). split; by apply insert_not.
Qed.

Lemma same_rows_release (i : nat) (d : tables) : same_rows d (release i d).
Proof. by split. Qed.

Lemma no_ids (p : process) :
  is_payment p = false -> open_charge p = None /\ open_row p = None /\
  forall cid, p <> Payment (Publishing cid) /\ p <> Payment (Recording cid).
Proof. by destruct p. Qed.

Lemma books_step (w w' : world) : books w -> step V1 w w' -> books w'.
Proof.
  intros Hw Hs. destruct Hs as [outcome i p p' d' w Hi Ht|i p w Hi|i code cid w Hi|i o o' got w Hi _].
  - destruct (turn_same_rows _ _ _ _ _ _ _ Ht) as [Hsame Hpay].
    destruct p as [p| | | | |];
      try (destruct (no_ids p') as (? & ? & ?); [done|]; apply books_frame; auto).
    destruct p as [|cid|cid oid|cid|cid|code cid]; simpl in Ht; try done; simplify_eq.
    + by apply books_pay.
    + by apply books_enqueue.
    + by apply books_commit.
    + by destruct (books_v1 _ Hw i cid).
    + by destruct (books_v1 _ Hw i cid).
  - apply books_frame; [done|apply same_rows_release| | |];
      destruct p as [[]| | | | |]; done.
  - by apply books_frame.
  - by apply books_frame.
Qed.

Lemma books_start (w : world) : started w -> books w.
Proof.
  intros [Hd Hp].
  assert (Hno : forall i p, processes w !! i = Some p -> fresh_process p = true)
    by (intros i p Hi; by apply (proj1 (Forall_lookup _ _) Hp i)).
  split; rewrite ?Hd; try done.
  - intros cid. simpl. split; [by intros ?%elem_of_nil|]. intros [o H]. by rewrite lookup_empty in H.
  - simpl. constructor.
  - by intros cid ?%elem_of_nil.
  - intros i p cid Hi Ho. specialize (Hno i p Hi). by destruct p as [[]| | | | |].
  - intros i p oid Hi Ho. specialize (Hno i p Hi). by destruct p as [[]| | | | |].
  - intros i j p q cid Hi _ Ho. specialize (Hno i p Hi). by destruct p as [[]| | | | |].
  - intros i j p q oid Hi _ Ho. specialize (Hno i p Hi). by destruct p as [[]| | | | |].
  - intros i cid. split; intros Hi; by specialize (Hno i _ Hi).
Qed.

Lemma books_reachable (w0 w : world) : started w0 -> rtc (step V1) w0 w -> books w.
Proof.
  intros H R. apply books_start in H. induction R as [|x y z Hs _ IH]; [done|].
  by apply IH, (books_step x).
Qed.

(** *** Relays: locks, deliveries and effects *)

(** The rows a relay has locked. *)
Definition holds (p : process) : list Z :=
  match p with
  | SkipRelay _ _ (Batch todo done_) => done_ ++ todo
  | BrokerRelay _ (Batch rows _) | BrokerRelay _ (Acked _ rows _) => rows
  | _ => []
  end.

Definition published_at (d : tables) (oid : Z) : option (option channel) :=
  published <$> outbox d !! oid.

Definition times (c : channel) (oid : Z) (d : tables) : nat :=
  length (filter (fun x => x = (c, oid)) (delivered d)).

(** A message of the log, and what a consumer reads from it, name a committed row. *)
Definition names_row (oid : Z) (d : tables) : Prop :=
  Some oid ∈ log d /\ is_Some (outbox d !! oid).

Record relays (w : world) : Prop := {
  relays_hold : forall i p oid, processes w !! i = Some p -> oid ∈ holds p ->
    row_locks (db w) !! oid = Some i /\ published_at (db w) oid = Some None;
  relays_once : forall i p, processes w !! i = Some p -> NoDup (holds p);
  relays_acked : forall i b n rows acked oid,
    processes w !! i = Some (BrokerRelay b (Acked n rows acked)) -> oid ∈ acked ->
    oid ∈ rows /\ names_row oid (db w);
  relays_count : forall oid, times SkipLocked oid (db w) =
    match published_at (db w) oid with Some (Some SkipLocked) => 1%nat | _ => 0%nat end;
  relays_kafka : forall oid, published_at (db w) oid = Some (Some Kafka) -> names_row oid (db w);
  relays_log : forall m, m ∈ log (db w) -> exists oid, m = Some oid /\ is_Some (outbox (db w) !! oid);
  relays_got : forall i offset oid b,
    processes w !! i = Some (Consumer offset (Some (oid, b))) -> names_row oid (db w);
  relays_effects : NoDup (effects (db w)) /\ forall oid, oid ∈ effects (db w) -> names_row oid (db w);
}.

Lemma names_row_mono (oid : Z) (d d' : tables) :
  (forall m, m ∈ log d -> m ∈ log d') ->
  (is_Some (outbox d !! oid) -> is_Some (outbox d' !! oid)) ->
  names_row oid d -> names_row oid d'.
Proof. intros Hl Ho [H1 H2]. split; auto. Qed.

(** What a step of process [i] may do: free or take locks that are its own or
    nobody's; publish rows it holds; deliver; append messages of committed rows to
    the log; insert effects once. *)
Record moves (i : nat) (p p' : process) (d d' : tables) : Prop := {
  moves_locks : forall oid j, j <> i -> row_locks d !! oid = Some j -> row_locks d' !! oid = Some j;
  moves_rows : forall oid, is_Some (outbox d !! oid) -> is_Some (outbox d' !! oid);
  moves_published : forall oid, published_at d' oid = published_at d oid \/
    (outbox d !! oid = None /\ published_at d' oid = Some None) \/
    (oid ∈ holds p /\ published_at d' oid <> None);
  moves_holds : forall oid, oid ∈ holds p' ->
    row_locks d' !! oid = Some i /\ published_at d' oid = Some None;
  moves_once : NoDup (holds p');
  moves_count : forall oid, times SkipLocked oid d' =
    match published_at d' oid with Some (Some SkipLocked) => 1%nat | _ => 0%nat end;
  moves_kafka : forall oid, published_at d' oid = Some (Some Kafka) -> names_row oid d';
  moves_keep : forall m, m ∈ log d -> m ∈ log d';
  moves_log : forall m, m ∈ log d' -> exists oid, m = Some oid /\ is_Some (outbox d' !! oid);
  moves_acked : forall b n rows acked oid, p' = BrokerRelay b (Acked n rows acked) ->
    oid ∈ acked -> oid ∈ rows /\ names_row oid d';
  moves_got : forall offset oid b, p' = Consumer offset (Some (oid, b)) -> names_row oid d';
  moves_effects : NoDup (effects d') /\ forall oid, oid ∈ effects d' -> names_row oid d';
}.

Lemma relays_frame (i : nat) (p p' : process) (d' : tables) (w : world) :
  relays w -> processes w !! i = Some p -> moves i p p' (db w) d' ->
  relays (mkWorld d' (<[i := p']> (processes w))).
Proof.
  intros [R1 R2 R3 R4 R5 R6 R7 R8] Hi [M1 M2 M3 M4 M5 M6 M7 M8 M9 M10 M11 M12].
  assert (Hmono : forall oid, names_row oid (db w) -> names_row oid d')
    by (intros oid; apply names_row_mono; auto).
  split; cbn [db processes]; try done.
  - intros j q oid Hj Hq. apply insert_process in Hj as [[-> ->]|[Hne Hj]]; [by apply M4|].
    destruct (R1 _ _ _ Hj Hq) as [Hl Hp]. split; [by apply M1|].
    destruct (M3 oid) as [->|[[Ho _]|[Hh _]]]; [done| |].
    + unfold published_at in Hp. by rewrite Ho in Hp.
    + destruct (R1 _ _ _ Hi Hh) as [Hl' _]. congruence.
  - intros j q Hj. apply insert_process in Hj as [[-> ->]|[_ Hj]]; [done|by eapply R2].
  - intros j b n rows acked oid Hj Ho. apply insert_process in Hj as [[-> Hj]|[_ Hj]].
    + by eapply M10.
    + destruct (R3 _ _ _ _ _ _ Hj Ho). auto.
  - intros j offset oid b Hj. apply insert_process in Hj as [[-> Hj]|[_ Hj]].
    + by eapply M11.
    + eauto.
Qed.

(** A step that leaves the outbox and the log alone. *)
Lemma moves_quiet (i : nat) (p p' : process) (w : world) (d' : tables) :
  relays w -> processes w !! i = Some p ->
  (forall oid j, j <> i -> row_locks (db w) !! oid = Some j -> row_locks d' !! oid = Some j) ->
  outbox d' = outbox (db w) -> log d' = log (db w) ->
  (forall oid, times SkipLocked oid d' = times SkipLocked oid (db w)) ->
  (forall oid, oid ∈ holds p' -> row_locks d' !! oid = Some i /\ published_at d' oid = Some None) ->
  NoDup (holds p') ->
  (forall b n rows acked, p' <> BrokerRelay b (Acked n rows acked)) ->
  (forall offset oid b, p' = Consumer offset (Some (oid, b)) -> names_row oid d') ->
  (NoDup (effects d') /\ forall oid, oid ∈ effects d' -> names_row oid d') ->
  moves i p p' (db w) d'.
Proof.
  intros [R1 R2 R3 R4 R5 R6 R7 R8] Hi Hl Ho Hlog Ht Hh Hn Ha Hg He.
  assert (Hpub : forall oid, published_at d' oid = published_at (db w) oid)
    by (intros; unfold published_at; by rewrite Ho).
  split; try done.
  - by rewrite Ho.
  - auto.
  - intros oid. rewrite Ht, Hpub. apply R4.
  - intros oid. rewrite Hpub. unfold names_row. rewrite Ho, Hlog. apply R5.
  - by rewrite Hlog.
  - intros m. rewrite Hlog, Ho. apply R6.
  - intros b n rows acked oid ->. by destruct (Ha b n rows acked).
Qed.

Lemma times_deliver (c : channel) (ids : list Z) (oid : Z) (d : tables) :
  c <> SkipLocked -> times SkipLocked oid (deliver c ids d) = times SkipLocked oid d.
Proof.
  intros Hc. unfold times. simpl. rewrite filter_app, length_app.
  assert (filter (fun x => x = (SkipLocked, oid)) ((c,.) <$> ids) = []) as ->; [|simpl; lia].
  induction ids as [|x ids IH]; [done|]. rewrite fmap_cons, filter_cons_False by congruence. done.
Qed.

Lemma times_deliver_skip (ids : list Z) (oid : Z) (d : tables) :
  NoDup ids ->
  times SkipLocked oid (deliver SkipLocked ids d) =
  (times SkipLocked oid d + if bool_decide (oid ∈ ids) then 1 else 0)%nat.
Proof.
  intros Hn. unfold times. simpl. rewrite filter_app, length_app. f_equal.
  induction Hn as [|x ids Hx _ IH]; [done|]. rewrite fmap_cons.
  destruct (decide (x = oid)) as [->|Hne].
  - rewrite filter_cons_True by done. simpl. rewrite IH, bool_decide_eq_false_2 by done.
    by rewrite bool_decide_eq_true_2 by (by left).
  - rewrite filter_cons_False by congruence. rewrite IH.
    by rewrite (bool_decide_ext (oid ∈ x :: ids) (oid ∈ ids)) by set_solver.
Qed.

Lemma release_lookup (i : nat) (d : tables) (oid : Z) (j : nat) :
  j <> i -> row_locks d !! oid = Some j -> row_locks (release i d) !! oid = Some j.
Proof. intros Hj H. simpl. rewrite map_lookup_filter_Some. by split. Qed.

(** The [SELECT .. FOR UPDATE SKIP LOCKED]. *)
Lemma lock_rows_lookup (i : nat) (ids : list Z) (d : tables) (oid : Z) :
  row_locks (lock_rows i ids d) !! oid =
  if bool_decide (oid ∈ ids) then Some i else row_locks d !! oid.
Proof.
  simpl. induction ids as [|x ids IH]; [done|]. simpl.
  destruct (decide (oid = x)) as [->|Hne].
  - rewrite lookup_insert_eq. by rewrite bool_decide_eq_true_2 by (by left).
  - rewrite lookup_insert_ne, IH by done.
    by rewrite (bool_decide_ext (oid ∈ x :: ids) (oid ∈ ids)) by set_solver.
Qed.

Lemma elem_of_unpublished (d : tables) (oid : Z) :
  oid ∈ unpublished d <-> published_at d oid = Some None.
Proof.
  unfold unpublished, published_at. rewrite merge_sort_Permutation, list_elem_of_omap. split.
  - intros ([o r] & Hin & Hp). apply elem_of_map_to_list in Hin.
    destruct (published r) eqn:E; simplify_eq. by rewrite Hin; simpl; rewrite E.
  - destruct (outbox d !! oid) as [r|] eqn:E; [|done]. simpl. intros [= Hp].
    exists (oid, r). rewrite elem_of_map_to_list. by rewrite Hp.
Qed.

Lemma NoDup_unpublished (d : tables) : NoDup (unpublished d).
Proof.
  unfold unpublished. rewrite merge_sort_Permutation.
  assert (Hn : NoDup ((map_to_list (outbox d)).*1)) by apply NoDup_fst_map_to_list.
  induction (map_to_list (outbox d)) as [|[o r] l IH]; [constructor|].
  apply NoDup_cons in Hn as [Ho Hn]. specialize (IH Hn). simpl.
  destruct (published r); [done|]. constructor; [|done].
  intros ([o' r'] & Hin & Hp)%list_elem_of_omap. destruct (published r'); simplify_eq.
  apply Ho. by apply (list_elem_of_fmap_2 fst) in Hin.
Qed.

Lemma elem_of_filter_bool {A} (f : A -> bool) (l : list A) (x : A) :
  x ∈ List.filter f l <-> x ∈ l /\ f x = true.
Proof. rewrite !list_elem_of_In. apply filter_In. Qed.

Lemma NoDup_filter_bool {A} (f : A -> bool) (l : list A) : NoDup l -> NoDup (List.filter f l).
Proof. rewrite !NoDup_ListNoDup. apply List.NoDup_filter. Qed.

Lemma elem_of_claimable (d : tables) (oid : Z) :
  oid ∈ claimable d <-> published_at d oid = Some None /\ row_locks d !! oid = None.
Proof.
  unfold claimable. rewrite elem_of_filter_bool, elem_of_unpublished.
  destruct (row_locks d !! oid); naive_solver.
Qed.

Lemma NoDup_claimable (d : tables) : NoDup (claimable d).
Proof. apply NoDup_filter_bool, NoDup_unpublished. Qed.

Lemma selected (batch : nat) (d : tables) (oid : Z) :
  oid ∈ take batch (claimable d) -> published_at d oid = Some None /\ row_locks d !! oid = None.
Proof. intros H. apply elem_of_claimable. by apply elem_of_take in H as (? & ? & ?); eauto using list_elem_of_lookup_2. Qed.

Lemma NoDup_take (n : nat) (l : list Z) : NoDup l -> NoDup (take n l).
Proof. intros H. eapply sublist_NoDup; [exact H|apply sublist_take]. Qed.

Lemma moves_select (i batch : nat) (p p' : process) (w : world) :
  relays w -> processes w !! i = Some p -> holds p = [] ->
  holds p' = take batch (claimable (db w)) ->
  (forall b n rows acked, p' <> BrokerRelay b (Acked n rows acked)) ->
  (forall offset oid b, p' <> Consumer offset (Some (oid, b))) ->
  moves i p p' (db w) (lock_rows i (take batch (claimable (db w))) (db w)).
Proof.
  intros Hw Hi Hp Hp' Ha Hc. apply moves_quiet; try done.
  - intros oid j Hj Hl. rewrite lock_rows_lookup. case_bool_decide as Hin; [|done].
    apply selected in Hin as [_ Hin]. congruence.
  - rewrite Hp'. intros oid Hin. rewrite lock_rows_lookup, bool_decide_eq_true_2 by done.
    split; [done|]. by apply selected in Hin as [? _].
  - rewrite Hp'. apply NoDup_take, NoDup_claimable.
  - intros offset oid b ->. by destruct (Hc offset oid b).
  - apply (relays_effects _ Hw).
Qed.

(** The commit of a relay that publishes rows it holds. *)
Lemma moves_publish (c : channel) (i : nat) (ids : list Z) (p p' : process) (w : world)
    (d1 : tables) :
  relays w -> processes w !! i = Some p -> (forall oid, oid ∈ ids -> oid ∈ holds p) ->
  holds p' = [] -> (forall b n rows acked, p' <> BrokerRelay b (Acked n rows acked)) ->
  (forall offset got, p' <> Consumer offset got) ->
  outbox d1 = outbox (db w) -> log d1 = log (db w) -> row_locks d1 = row_locks (db w) ->
  effects d1 = effects (db w) ->
  (forall oid, times SkipLocked oid d1 = (times SkipLocked oid (db w) +
     if bool_decide (oid ∈ ids) then match c with SkipLocked => 1 | _ => 0 end else 0)%nat) ->
  (c = Kafka -> forall oid, oid ∈ ids -> Some oid ∈ log (db w)) -> c <> HighWaterMark ->
  moves i p p' (db w) (release i (mark_published c ids d1)).
Proof.
  intros Hw Hi Hin Hp' Ha Hc Ho Hlog Hlk He Ht Hk Hm. pose proof Hw as [R1 R2 R3 R4 R5 R6 R7 R8].
  set (d' := release i _).
  assert (Hpub : forall oid, published_at d' oid =
    if bool_decide (oid ∈ ids) then Some (Some c) else published_at (db w) oid).
  { intros oid. unfold published_at, d'. change (outbox (release i ?x)) with (outbox x).
    rewrite mark_lookup, Ho. case_bool_decide as Hb.
    - destruct (R1 _ _ _ Hi (Hin _ Hb)) as [_ Hq]. unfold published_at in Hq.
      by destruct (outbox (db w) !! oid).
    - by destruct (outbox (db w) !! oid). }
  assert (Hrow : forall oid, is_Some (outbox d' !! oid) <-> is_Some (outbox (db w) !! oid)).
  { intros oid. unfold d'. change (outbox (release i ?x)) with (outbox x).
    rewrite mark_lookup, Ho. by rewrite fmap_is_Some. }
  assert (Hlog' : log d' = log (db w)) by done.
  assert (Hnames : forall oid, names_row oid (db w) -> names_row oid d').
  { intros oid [H1 H2]. split; [by rewrite Hlog'|by apply Hrow]. }
  split.
  - intros oid j Hj Hl. apply release_lookup; [done|]. simpl. by rewrite Hlk.
  - intros oid. apply Hrow.
  - intros oid. rewrite Hpub. case_bool_decide; [right; right; auto|by left].
  - rewrite Hp'. by intros oid ?%elem_of_nil.
  - rewrite Hp'. constructor.
  - intros oid. change (times SkipLocked oid d') with (times SkipLocked oid d1).
    rewrite Ht, Hpub, R4. case_bool_decide as Hb; [|by rewrite Nat.add_0_r].
    destruct (R1 _ _ _ Hi (Hin _ Hb)) as [_ ->]. by destruct c.
  - intros oid. rewrite Hpub. case_bool_decide as Hb; [|by auto]. intros [= ->].
    split; [by rewrite Hlog'; apply Hk|]. apply Hrow.
    destruct (R1 _ _ _ Hi (Hin _ Hb)) as [_ Hq]. unfold published_at in Hq.
    by destruct (outbox (db w) !! oid).
  - by rewrite Hlog'.
  - intros m. rewrite Hlog'. intros H. destruct (R6 m H) as (oid & -> & ?). exists oid.
    split; [done|]. by apply Hrow.
  - intros b n rows acked oid ->. by destruct (Ha b n rows acked).
  - intros offset oid b ->. by destruct (Hc offset (Some (oid, b))).
  - destruct R8 as [R8 R9]. change (effects d') with (effects d1). rewrite He. split; [done|]. auto.
Qed.

Lemma relays_skip (i batch : nat) (count : Z) (r : relay) (p' : process) (w : world)
    (d' : tables) :
  relays w -> processes w !! i = Some (SkipRelay batch count r) ->
  skip_turn i batch count r (db w) = Some (p', d') ->
  relays (mkWorld d' (<[i := p']> (processes w))).
Proof.
  intros Hw Hi Ht. apply relays_frame with (SkipRelay batch count r); [done|done|].
  destruct r as [|[|oid todo] done_|]; simpl in Ht; simplify_eq.
  - by apply moves_select.
  - apply moves_publish; try done.
    + intros oid Hin. simpl. by rewrite app_nil_r.
    + intros oid. apply times_deliver_skip.
      pose proof (relays_once _ Hw _ _ Hi) as Hn. simpl in Hn. by rewrite app_nil_r in Hn.
  - apply moves_quiet; try done.
    + simpl. intros o. rewrite <- app_assoc. exact (relays_hold _ Hw _ _ o Hi).
    + simpl. rewrite <- app_assoc. exact (relays_once _ Hw _ _ Hi).
    + apply (relays_effects _ Hw).
Qed.

Lemma relays_mark (i batch : nat) (ls : Z) (todo : list Z) (w : world) :
  relays w -> processes w !! i = Some (MarkRelay batch ls todo) ->
  relays (mkWorld (mark_turn batch ls todo (db w)).2
            (<[i := (mark_turn batch ls todo (db w)).1]> (processes w))).
Proof.
  intros Hw Hi. apply relays_frame with (MarkRelay batch ls todo); [done|done|].
  destruct todo as [|oid todo]; simpl.
  - apply moves_quiet; try done; [by intros oid ?%elem_of_nil|constructor|apply (relays_effects _ Hw)].
  - apply moves_quiet; try done.
    + intros o. by apply times_deliver.
    + by intros o ?%elem_of_nil.
    + constructor.
    + apply (relays_effects _ Hw).
Qed.

Lemma produce_sub (rows : list Z) (outcome : list sending) (f : sending -> bool) (oid : Z) :
  oid ∈ chosen f (produce rows outcome) -> oid ∈ rows.
Proof.
  revert outcome. induction rows as [|x rows IH]; intros [|s outcome]; simpl;
    try (by intros ?%elem_of_nil).
  destruct (accepted s); [|by intros ?%elem_of_nil]. unfold chosen. simpl.
  destruct (f s); [|by intros H; right; eapply IH].
  intros [->|H]%elem_of_cons; [by left|right; by eapply IH].
Qed.

Lemma chosen_acknowledged (l : list (Z * sending)) (oid : Z) :
  oid ∈ chosen acknowledged l -> oid ∈ chosen on_broker l.
Proof.
  unfold chosen. rewrite !list_elem_of_omap. intros ([o s] & Hin & Hs). exists (o, s).
  split; [done|]. unfold acknowledged in Hs. by destruct (on_broker s), (reported s).
Qed.

Lemma relays_broker (i batch : nat) (outcome : list sending) (r : relay) (p' : process)
    (w : world) (d' : tables) :
  relays w -> processes w !! i = Some (BrokerRelay batch r) ->
  broker_turn i batch outcome r (db w) = Some (p', d') ->
  relays (mkWorld d' (<[i := p']> (processes w))).
Proof.
  intros Hw Hi Ht. apply relays_frame with (BrokerRelay batch r); [done|done|].
  pose proof Hw as [R1 R2 R3 R4 R5 R6 R7 R8].
  destruct r as [|rows ?|sent rows acked]; simpl in Ht.
  - destruct (take batch (claimable (db w))) as [|oid rows] eqn:E; simplify_eq.
    + apply moves_quiet; try done; try (by intros o ?%elem_of_nil).
      * intros o j Hj Hl. by apply release_lookup.
      * constructor.
    + rewrite <- E. apply moves_select; try done.
  - simplify_eq.
    set (l := produce rows outcome).
    assert (Hrow : forall oid, oid ∈ rows -> is_Some (outbox (db w) !! oid)).
    { intros oid Ho. destruct (R1 i _ oid Hi Ho) as [_ Hp]. unfold published_at in Hp.
      by destruct (outbox (db w) !! oid). }
    assert (Hmono : forall oid, names_row oid (db w) ->
      names_row oid (append_log (Some <$> chosen on_broker l) (db w))).
    { intros oid. apply names_row_mono; [|done]. intros m Hm. simpl. set_solver. }
    split; try done.
    + auto.
    + intros oid. exact (R1 i _ oid Hi).
    + exact (R2 _ _ Hi).
    + intros oid Hk. apply Hmono, R5, Hk.
    + intros m Hm. simpl. set_solver.
    + intros m. simpl. rewrite elem_of_app. intros [Hm|(oid & -> & Hm)%list_elem_of_fmap].
      * by apply R6.
      * exists oid. split; [done|]. apply Hrow. by eapply produce_sub.
    + intros b n rows' acked oid [= <- <- <- <-] Ho.
      assert (oid ∈ rows) by (by eapply produce_sub). split; [done|]. split; [|by apply Hrow].
      simpl. apply elem_of_app. right. apply list_elem_of_fmap_2. by apply chosen_acknowledged.
    + destruct R8 as [R8 R9]. split; [done|]. intros oid Ho. apply Hmono, R9, Ho.
  - destruct (_ && _); simplify_eq.
    + apply moves_quiet; try done; try (by intros o ?%elem_of_nil).
      * intros o j Hj Hl. by apply release_lookup.
      * constructor.
    + apply moves_publish; try done.
      * intros oid Ho. by destruct (R3 _ _ _ _ _ _ Hi Ho).
      * intros oid. by case_bool_decide; rewrite Nat.add_0_r.
      * intros _ oid Ho. destruct (R3 _ _ _ _ _ _ Hi Ho) as [_ [? _]]. done.
Qed.

Lemma add_effect_same (oid : Z) (d : tables) :
  let d' := add_effect oid d in
  outbox d' = outbox d /\ log d' = log d /\ row_locks d' = row_locks d /\
  delivered d' = delivered d /\
  (effects d' = effects d \/ (oid ∉ effects d /\ effects d' = effects d ++ [oid])).
Proof. unfold add_effect. simpl. case_bool_decide; by split_and!; auto. Qed.

Lemma relays_consumer (i offset : nat) (got : option (Z * bool)) (w : world) :
  relays w -> processes w !! i = Some (Consumer offset got) ->
  relays (mkWorld (consumer_turn offset got (db w)).2
            (<[i := (consumer_turn offset got (db w)).1]> (processes w))).
Proof.
  intros Hw Hi. apply relays_frame with (Consumer offset got); [done|done|].
  pose proof Hw as [R1 R2 R3 R4 R5 R6 R7 [R8 R9]].
  destruct got as [[oid [|]]|]; simpl.
  - destruct (add_effect_same oid (db w)) as (E1 & E2 & E3 & E4 & E5).
    assert (Hn : forall o, names_row o (db w) -> names_row o (add_effect oid (db w)))
      by (intros o; unfold names_row; by rewrite E1, E2).
    apply moves_quiet; try done; try (by intros o ?%elem_of_nil).
    + by rewrite E3.
    + intros o. unfold times. by rewrite E4.
    + constructor.
    + destruct E5 as [->|[Hin ->]]; [by split; auto|]. split.
      * apply NoDup_app. split_and!; [done| |apply NoDup_singleton].
        intros o Ho Ho'. apply list_elem_of_singleton in Ho'. by subst.
      * intros o [Ho|Ho]%elem_of_app; [by apply Hn, R9|].
        apply list_elem_of_singleton in Ho as ->. apply Hn. exact (R7 _ _ _ _ Hi).
  - apply moves_quiet; try done; try (by intros o ?%elem_of_nil).
    + intros o. by apply times_deliver.
    + constructor.
    + intros offset' o b [= -> -> <-]. exact (R7 _ _ _ _ Hi).
  - destruct (log (db w) !! offset) as [m|] eqn:E;
      apply moves_quiet; try done; try (by intros o ?%elem_of_nil); try apply NoDup_nil_2.
    intros offset' o b [= <- <- <-]. apply list_elem_of_lookup_2 in E as Hm.
    destruct (R6 m Hm) as (oid & -> & Hs). by split.
Qed.

Lemma relays_payment (i : nat) (outcome : list sending) (p p' : payment) (w : world) (d' : tables) :
  books w -> relays w -> processes w !! i = Some (Payment p) ->
  payment_turn V1 outcome p (db w) = Some (p', d') ->
  relays (mkWorld d' (<[i := Payment p']> (processes w))).
Proof.
  intros Hb Hw Hi Ht. apply relays_frame with (Payment p); [done|done|].
  pose proof Hw as [R1 R2 R3 R4 R5 R6 R7 R8].
  destruct p as [|cid|cid oid|cid|cid|code cid]; simpl in Ht; try done; simplify_eq;
    try (by destruct (books_v1 _ Hb i cid));
    try (apply moves_quiet; try done; try (by intros o ?%elem_of_nil); constructor).
  destruct (books_open_row _ Hb _ _ _ Hi eq_refl) as [_ Hnone].
  set (d' := add_charge _ _).
  assert (Hout : outbox d' = <[oid := mkRow cid None]> (outbox (db w))) by done.
  assert (Hsome : forall o, is_Some (outbox (db w) !! o) -> is_Some (outbox d' !! o)).
  { intros o Ho. rewrite Hout. destruct (decide (o = oid)) as [->|];
      [by rewrite lookup_insert_eq|by rewrite lookup_insert_ne]. }
  assert (Hpub : forall o, published_at d' o =
    if decide (o = oid) then Some None else published_at (db w) o).
  { intros o. unfold published_at. rewrite Hout. case_decide as Hd;
      [subst; by rewrite lookup_insert_eq|by rewrite lookup_insert_ne]. }
  assert (Hnames : forall o, names_row o (db w) -> names_row o d')
    by (intros o [? ?]; split; [done|by apply Hsome]).
  split; try done.
  - intros o. rewrite Hpub. case_decide; [subst; auto|by left].
  - by intros o ?%elem_of_nil.
  - constructor.
  - intros o. rewrite Hpub. change (times SkipLocked o d') with (times SkipLocked o (db w)).
    rewrite R4. case_decide; [|done]. subst. unfold published_at. by rewrite Hnone.
  - intros o. rewrite Hpub. case_decide; [done|]. auto.
  - intros m Hm. destruct (R6 m Hm) as (o & -> & ?). eauto.
  - destruct R8 as [R8 R9]. split; [done|]. intros o Ho. by apply Hnames, R9.
Qed.

(** A rolled-back transaction. *)
Lemma relays_release (i : nat) (p p' : process) (w : world) :
  relays w -> processes w !! i = Some p -> holds p' = [] ->
  (forall b n rows acked, p' <> BrokerRelay b (Acked n rows acked)) ->
  (forall offset got, p' <> Consumer offset (Some got)) ->
  relays (mkWorld (release i (db w)) (<[i := p']> (processes w))).
Proof.
  intros Hw Hi Hp Ha Hc. apply relays_frame with p; [done|done|]. apply moves_quiet; try done.
  - intros o j Hj Hl. by apply release_lookup.
  - rewrite Hp. by intros o ?%elem_of_nil.
  - rewrite Hp. constructor.
  - intros offset oid b ->. by destruct (Hc offset (oid, b)).
  - apply (relays_effects _ Hw).
Qed.

Lemma relays_relabel (i : nat) (p p' : process) (w : world) :
  relays w -> processes w !! i = Some p -> holds p = [] -> holds p' = [] ->
  (forall b n rows acked, p' <> BrokerRelay b (Acked n rows acked)) ->
  (forall offset got, p' <> Consumer offset (Some got)) ->
  relays (mkWorld (db w) (<[i := p']> (processes w))).
Proof.
  intros Hw Hi Hp Hp' Ha Hc. apply relays_frame with p; [done|done|]. apply moves_quiet; try done.
  - rewrite Hp'. by intros o ?%elem_of_nil.
  - rewrite Hp'. constructor.
  - intros offset oid b ->. by destruct (Hc offset (oid, b)).
  - apply (relays_effects _ Hw).
Qed.

Lemma relays_step (w w' : world) : books w -> relays w -> step V1 w w' -> relays w'.
Proof.
  intros Hb Hw Hs. destruct Hs as [outcome i p p' d' w Hi Ht|i p w Hi|i code cid w Hi|i o o' got w Hi _].
  - destruct p as [p|batch count r|batch ls todo|batch r|offset got|]; simpl in Ht; [| | | | |done].
    + destruct (payment_turn V1 outcome p (db w)) as [[q d1]|] eqn:E; [|done].
      simpl in Ht. simplify_eq. by eapply relays_payment.
    + by eapply relays_skip.
    + injection Ht as Ht. pose proof (relays_mark i batch ls todo w Hw Hi) as H.
      by rewrite Ht in H.
    + by eapply relays_broker.
    + injection Ht as Ht. pose proof (relays_consumer i offset got w Hw Hi) as H.
      by rewrite Ht in H.
  - apply relays_release with p; [done|done|..]; destruct p as [[]| | | | |]; done.
  - by eapply relays_relabel.
  - by eapply relays_relabel.
Qed.

Lemma relays_start (w : world) : started w -> relays w.
Proof.
  intros [Hd Hp].
  assert (Hno : forall i p, processes w !! i = Some p -> fresh_process p = true)
    by (intros i p Hi; by apply (proj1 (Forall_lookup _ _) Hp i)).
  assert (Hh : forall i p, processes w !! i = Some p -> holds p = [] /\
    (forall b n rows acked, p <> BrokerRelay b (Acked n rows acked)) /\
    (forall offset got, p <> Consumer offset (Some got))).
  { intros i p Hi. specialize (Hno i p Hi).
    destruct p as [|? ? []|? ? []|? []|[] []|]; try done; by destruct count. }
  split; rewrite ?Hd.
  - intros i p oid Hi Ho. destruct (Hh i p Hi) as [-> _] in Ho. by apply elem_of_nil in Ho.
  - intros i p Hi. destruct (Hh i p Hi) as [-> _]. constructor.
  - intros i b n rows acked oid Hi. destruct (Hh i _ Hi) as (_ & H & _). by destruct (H b n rows acked).
  - done.
  - intros oid H. unfold published_at in H. simpl in H. by rewrite lookup_empty in H.
  - by intros m ?%elem_of_nil.
  - intros i offset oid b Hi. destruct (Hh i _ Hi) as (_ & _ & H). by destruct (H offset (oid, b)).
  - simpl. split; [constructor|]. by intros oid ?%elem_of_nil.
Qed.

Lemma relays_reachable (w0 w : world) : started w0 -> rtc (step V1) w0 w -> books w /\ relays w.
Proof.
  intros H R. assert (books w0 /\ relays w0) as H0 by (split; [by apply books_start|by apply relays_start]).
  clear H. induction R as [|x y z Hs _ IH]; [done|]. destruct H0.
  apply IH. split; [by apply (books_step x)|by apply (relays_step x)].
Qed.

(** *** A relay that runs alone *)

Definition skip_at (i batch : nat) (count : Z) (r : relay) (d : tables) (w : world) : world :=
  mkWorld d (<[i := SkipRelay batch count r]> (processes w)).

Lemma skip_publishes (i batch : nat) (count : Z) (todo done_ : list Z) (d : tables) (w : world) :
  (i < length (processes w))%nat ->
  rtc (step V1) (skip_at i batch count (Batch todo done_) d w)
    (skip_at i batch count (Batch [] (done_ ++ todo)) d w).
Proof.
  intros Hi. revert done_. induction todo as [|oid todo IH]; intros done_.
  - rewrite app_nil_r. apply rtc_refl.
  - eapply rtc_l.
    + apply (step_turn V1 [] i (SkipRelay batch count (Batch (oid :: todo) done_))); simpl.
      * by apply list_lookup_insert_eq.
      * reflexivity.
    + cbn [skip_at db processes]. rewrite list_insert_insert_eq.
      specialize (IH (done_ ++ [oid])). rewrite <- app_assoc in IH. exact IH.
Qed.

Definition pass_result (i batch : nat) (d : tables) : tables :=
  let ids := take batch (claimable d) in
  release i (mark_published SkipLocked ids (deliver SkipLocked ids (lock_rows i ids d))).

Lemma one_pass (i batch : nat) (count : Z) (w : world) :
  processes w !! i = Some (SkipRelay batch count Idle) ->
  exists count', rtc (step V1) w (skip_at i batch count' Idle (pass_result i batch (db w)) w).
Proof.
  intros Hi. assert (Hlt : (i < length (processes w))%nat) by (by eapply lookup_lt_Some).
  set (ids := take batch (claimable (db w))).
  exists (count + Z.of_nat (length ids)).
  eapply rtc_l; [by apply (step_turn V1 [] i (SkipRelay batch count Idle))|].
  change (mkWorld _ _) with (skip_at i batch count (Batch ids []) (lock_rows i ids (db w)) w).
  etrans; [by apply skip_publishes|]. apply rtc_once.
  pose proof (step_turn V1 [] i (SkipRelay batch count (Batch [] ids))
    (SkipRelay batch (count + Z.of_nat (length ids)) Idle) (pass_result i batch (db w))
    (skip_at i batch count (Batch [] ids) (lock_rows i ids (db w)) w)) as H.
  cbn [skip_at db processes] in H. rewrite list_insert_insert_eq in H. apply H.
  - by apply list_lookup_insert_eq.
  - reflexivity.
Qed.

Lemma pass_unpublished (i batch : nat) (d : tables) :
  (0 < batch)%nat -> row_locks d = ∅ -> unpublished d <> [] ->
  row_locks (pass_result i batch d) = ∅ /\
  (length (unpublished (pass_result i batch d)) < length (unpublished d))%nat.
Proof.
  intros Hb Hl Hu. unfold pass_result. set (ids := take batch (claimable d)).
  set (d' := release i _). split.
  - apply map_eq. intros oid. rewrite lookup_empty. apply eq_None_not_Some. intros [j Hj].
    apply map_lookup_filter_Some in Hj as [Hj Hne].
    change (row_locks (lock_rows i ids d) !! oid = Some j) in Hj.
    rewrite lock_rows_lookup, Hl, lookup_empty in Hj. by case_bool_decide; simplify_eq.
  - assert (Hcl : claimable d = unpublished d).
    { unfold claimable. rewrite Hl. generalize (unpublished d). intros l0.
      induction l0 as [|x l IH]; [done|]. simpl. rewrite lookup_empty. by f_equal. }
    assert (Hpub : forall oid, published_at d' oid =
      if bool_decide (oid ∈ ids) then (fun _ => Some SkipLocked) <$> published_at d oid
      else published_at d oid).
    { intros oid. unfold published_at, d'.
      change (outbox (release i ?x)) with (outbox x). rewrite mark_lookup.
      change (outbox (deliver _ _ (lock_rows i ids d))) with (outbox d).
      case_bool_decide; by destruct (outbox d !! oid). }
    assert (Hnd : NoDup (unpublished d' ++ ids)).
    { apply NoDup_app. split_and!; [apply NoDup_unpublished| |apply NoDup_take, NoDup_claimable].
      intros oid Ho Hin. apply elem_of_unpublished in Ho. rewrite Hpub in Ho.
      rewrite bool_decide_eq_true_2 in Ho by done. by destruct (published_at d oid). }
    assert (Hsub : unpublished d' ++ ids ⊆+ unpublished d).
    { apply NoDup_submseteq; [done|]. intros oid [Ho|Ho]%elem_of_app.
      - apply elem_of_unpublished in Ho. rewrite Hpub in Ho. apply elem_of_unpublished.
        case_bool_decide; [by destruct (published_at d oid)|done].
      - rewrite <- Hcl. by apply elem_of_take in Ho as (? & ? & ?); eauto using list_elem_of_lookup_2. }
    apply submseteq_length in Hsub. rewrite length_app in Hsub.
    assert (length ids = Nat.min batch (length (unpublished d))) as Hlen
      by (unfold ids; by rewrite length_take, Hcl).
    destruct (unpublished d); [done|]. simpl in *. lia.
Qed.

(** ** Properties *)

(** C3: The outbox.  In mode v1, under every interleaving and with failures at any
    statement: each committed charge has exactly one outbox row; a row was
    delivered by the SKIP LOCKED relays exactly once if they published it and
    never otherwise; a row marked published by the broker's relay has its message
    in the broker's log; no row is in two relays' hands; and the consumer's
    effects are of distinct committed rows, each at most once. *)
Theorem outbox_exactly_once (w0 w : world) :
  started w0 -> rtc (step V1) w0 w ->
  NoDup (charges (db w)) /\
  (forall cid, cid ∈ charges (db w) <->
     exists oid, (aggregate_id <$> outbox (db w) !! oid = Some cid) /\
       forall o, aggregate_id <$> outbox (db w) !! o = Some cid -> o = oid) /\
  (forall oid, times SkipLocked oid (db w) =
     match published_at (db w) oid with Some (Some SkipLocked) => 1%nat | _ => 0%nat end) /\
  (forall oid, published_at (db w) oid = Some (Some Kafka) -> Some oid ∈ log (db w)) /\
  (forall i j p q oid, processes w !! i = Some p -> processes w !! j = Some q ->
     oid ∈ holds p -> oid ∈ holds q -> i = j) /\
  NoDup (effects (db w)) /\
  (forall oid, oid ∈ effects (db w) -> is_Some (outbox (db w) !! oid) /\ Some oid ∈ log (db w)).
Proof.
  intros H0 R. destruct (relays_reachable w0 w H0 R) as [B W]. split_and!.
  - apply (books_once _ B).
  - intros cid. rewrite (books_pair _ B). split; [|naive_solver].
    intros [oid Ho]. exists oid. split; [done|]. intros o Ho'. by apply (books_inj _ B o oid cid).
  - apply (relays_count _ W).
  - intros oid Hk. by destruct (relays_kafka _ W oid Hk).
  - intros i j p q oid Hi Hj Hp Hq. destruct (relays_hold _ W _ _ _ Hi Hp) as [H1 _].
    destruct (relays_hold _ W _ _ _ Hj Hq) as [H2 _]. congruence.
  - apply (relays_effects _ W).
  - intros oid Ho. by destruct (proj2 (relays_effects _ W) oid Ho).
Qed.

(** C26: Nothing is lost.  Once no transaction is open, a SKIP LOCKED relay that runs
    alone publishes every committed row, whatever the order in which ids and
    commits came. *)
Theorem skip_locked_drains (i batch : nat) (count : Z) (w : world) :
  processes w !! i = Some (SkipRelay batch count Idle) -> (0 < batch)%nat ->
  row_locks (db w) = ∅ ->
  exists w', rtc (step V1) w w' /\ unpublished (db w') = [] /\ row_locks (db w') = ∅.
Proof.
  intros Hi Hb. remember (length (unpublished (db w))) as n eqn:Hn.
  revert w count Hi Hn. induction (lt_wf n) as [n _ IH]. intros w count Hi -> Hl.
  destruct (decide (unpublished (db w) = [])) as [Hu|Hu]; [exists w; split; [apply rtc_refl|done]|].
  destruct (pass_unpublished i batch (db w) Hb Hl Hu) as [Hl' Hlt].
  destruct (one_pass i batch count w Hi) as [count' R].
  set (w1 := skip_at i batch count' Idle _ w) in R.
  destruct (IH _ Hlt w1 count') as (w' & R' & H'); [|done|done|].
  - apply list_lookup_insert_eq. by eapply lookup_lt_Some.
  - exists w'. split; [by etrans|done].
Qed.

(** A row behind every mark, and not delivered by a mark relay. *)
Definition passed_over (oid : Z) (w : world) : Prop :=
  (forall j batch ls todo, processes w !! j = Some (MarkRelay batch ls todo) ->
     oid <= ls /\ oid ∉ todo) /\
  (HighWaterMark, oid) ∉ delivered (db w).

Lemma select_after_gt (ls : Z) (batch : nat) (d : tables) (oid : Z) :
  oid ∈ select_after ls batch d -> ls < oid.
Proof.
  unfold select_after. intros H. apply elem_of_take in H as (k & Hk & _).
  apply list_elem_of_lookup_2 in Hk. rewrite merge_sort_Permutation in Hk.
  apply elem_of_filter_bool in Hk as [_ Hk]. lia.
Qed.

(** A statement of another program delivers nothing under the mark relay's name. *)
Lemma turn_delivered (m : mode) (outcome : list sending) (i : nat) (p p' : process)
    (d d' : tables) (oid : Z) :
  turn m outcome i p d = Some (p', d') -> (forall b ls todo, p <> MarkRelay b ls todo) ->
  (HighWaterMark, oid) ∈ delivered d' -> (HighWaterMark, oid) ∈ delivered d.
Proof.
  intros Ht Hp. destruct p as [p|batch count r|batch ls todo|batch r|offset got|]; simpl in Ht.
  - destruct (payment_turn m outcome p d) as [[q d1]|] eqn:E; simpl in Ht; [|done]. simplify_eq.
    destruct p, m; simpl in E; repeat case_match; simplify_eq; auto.
  - destruct r as [|[|x todo] done_|]; simpl in Ht; simplify_eq; try done.
    simpl. rewrite elem_of_app. intros [?|Hin]; [done|]. apply list_elem_of_fmap in Hin as (x & Hx & ?).
    simplify_eq.
  - by destruct (Hp batch ls todo).
  - destruct r; simpl in Ht; repeat case_match; by simplify_eq.
  - injection Ht as Ht. destruct got as [[x [|]]|]; simpl in Ht; simplify_eq; [|simpl; set_solver|done].
    by destruct (add_effect_same x d) as (_ & _ & _ & -> & _).
  - done.
Qed.

Lemma turn_not_mark (m : mode) (outcome : list sending) (i : nat) (p p' : process) (d d' : tables) :
  turn m outcome i p d = Some (p', d') -> (forall b ls todo, p <> MarkRelay b ls todo) ->
  forall b ls todo, p' <> MarkRelay b ls todo.
Proof.
  intros Ht Hp b ls todo ->. destruct p as [p|? ? r|? ? ?|? r|? got|]; simpl in Ht; try done.
  - by destruct (payment_turn m outcome p d) as [[]|].
  - destruct r as [|[|? ?] ?|]; by simpl in Ht.
  - by destruct (Hp batch last_seen todo0).
  - destruct r; simpl in Ht; repeat case_match; by simplify_eq.
  - destruct got as [[? []]|]; simpl in Ht; try done. by destruct (log d !! offset).
Qed.

Lemma passed_over_step (m : mode) (oid : Z) (w w' : world) :
  passed_over oid w -> step m w w' -> passed_over oid w'.
Proof.
  intros [H1 H2] Hs. destruct Hs as [outcome i p p' d' w Hi Ht|i p w Hi|i code cid w Hi|i o o' got w Hi _].
  - destruct p as [p|batch count r|batch ls todo|batch r|offset got|].
    3:{ destruct (H1 _ _ _ _ Hi) as [Hls Hin]. simpl in Ht. injection Ht as Ht.
        destruct todo as [|x todo]; injection Ht as <- <-; split; cbn [db processes].
        - intros j b l t Hj. apply insert_process in Hj as [[-> Hj]|[_ Hj]]; [|by eapply H1].
          injection Hj as -> -> ->. split; [done|]. intros Ho%select_after_gt. lia.
        - done.
        - intros j b l t Hj. apply insert_process in Hj as [[-> Hj]|[_ Hj]]; [|by eapply H1].
          injection Hj as -> -> ->. split; [lia|set_solver].
        - simpl. set_solver. }
    all: split; cbn [db processes].
    all: try (intros Hd; apply H2; eapply turn_delivered; [exact Ht|done|exact Hd]).
    all: intros j b l t Hj; apply insert_process in Hj as [[-> Hj]|[_ Hj]]; [|by eapply H1].
    all: exfalso; eapply turn_not_mark; [exact Ht|done|by symmetry].
  - split; cbn [db processes]; [|done]. intros j b l t Hj.
    apply insert_process in Hj as [[-> Hj]|[_ Hj]]; [|by eapply H1]. by destruct p as [[]| | | | |].
  - split; cbn [db processes]; [|done]. intros j b l t Hj.
    apply insert_process in Hj as [[-> Hj]|[_ Hj]]; [done|by eapply H1].
  - split; cbn [db processes]; [|done]. intros j b l t Hj.
    apply insert_process in Hj as [[-> Hj]|[_ Hj]]; [done|by eapply H1].
Qed.

(** The high-water mark.  A row that becomes visible behind the mark is never
    delivered by the mark relay, whatever runs afterwards. *)
Theorem mark_skips_for_ever (m : mode) (oid : Z) (w w' : world) :
  passed_over oid w -> rtc (step m) w w' -> (HighWaterMark, oid) ∉ delivered (db w').
Proof. intros H R. induction R as [|x y z Hs _ IH]; [apply H|]. by eapply IH, passed_over_step. Qed.

(** *** The dual write *)

Record dual_inv (w : world) : Prop := {
  dual_outbox : outbox (db w) = ∅;
  dual_log : forall k, k ∈ log (db w) -> k = None;
  dual_effects : effects (db w) = [] \/ effects (db w) = [0];
  dual_got : forall i offset oid b,
    processes w !! i = Some (Consumer offset (Some (oid, b))) -> oid = 0;
  dual_payments : forall i cid oid, processes w !! i <> Some (Payment (Charged cid)) /\
    processes w !! i <> Some (Payment (Enqueued cid oid));
  dual_broker : forall i batch r, processes w !! i = Some (BrokerRelay batch r) -> r = Idle;
}.

Lemma claimable_nothing (d : tables) : outbox d = ∅ -> claimable d = [].
Proof.
  intros H. unfold claimable, unpublished. rewrite H, map_to_list_empty. simpl.
  by rewrite merge_sort_nil || reflexivity.
Qed.

(** A step that changes neither outbox, log nor effects. *)
Lemma dual_frame (i : nat) (p' : process) (d' : tables) (w : world) :
  dual_inv w -> outbox d' = outbox (db w) -> (forall k, k ∈ log d' -> k = None) ->
  (effects d' = [] \/ effects d' = [0]) ->
  (forall offset oid b, p' = Consumer offset (Some (oid, b)) -> oid = 0) ->
  (forall cid oid, p' <> Payment (Charged cid) /\ p' <> Payment (Enqueued cid oid)) ->
  (forall batch r, p' = BrokerRelay batch r -> r = Idle) ->
  dual_inv (mkWorld d' (<[i := p']> (processes w))).
Proof.
  intros [D1 D2 D3 D4 D5 D6] Ho Hl He Hg Hp Hb. split; cbn [db processes]; try done.
  - by rewrite Ho.
  - intros j offset oid b Hj. apply insert_process in Hj as [[-> Hj]|[_ Hj]]; eauto.
  - intros j cid oid. destruct (Hp cid oid), (D5 j cid oid). split; by apply insert_not.
  - intros j batch r Hj. apply insert_process in Hj as [[-> Hj]|[_ Hj]]; eauto.
Qed.

Lemma dual_step (w w' : world) : dual_inv w -> step V0 w w' -> dual_inv w'.
Proof.
  intros Hw Hs. pose proof Hw as [D1 D2 D3 D4 D5 D6].
  destruct Hs as [outcome i p p' d' w Hi Ht|i p w Hi|i code cid w Hi|i o o' got w Hi _].
  - destruct p as [p|batch count r|batch ls todo|batch r|offset got|]; simpl in Ht; [| | | | |done].
    + destruct p as [|cid|cid oid|cid|cid|code cid]; simpl in Ht; try done;
        try (by destruct (D5 i cid 0)); try (by destruct (D5 i cid oid)).
      * simplify_eq. by apply dual_frame.
      * destruct outcome as [|s outcome]; [done|]. simpl in Ht. simplify_eq. apply dual_frame; try done.
        -- simpl. intros k [Hk|Hk]%elem_of_app; [by apply D2|]. destruct (on_broker s); set_solver.
        -- by destruct (acknowledged s).
      * simplify_eq. by apply dual_frame.
    + destruct r as [|[|x todo] done_|]; simpl in Ht; simplify_eq; try by apply dual_frame.
      apply dual_frame; try done. simpl. by rewrite D1, map_imap_empty.
    + injection Ht as Ht. destruct todo; simpl in Ht; simplify_eq; by apply dual_frame.
    + rewrite (D6 _ _ _ Hi) in Ht. simpl in Ht.
      rewrite (claimable_nothing (db w) D1), take_nil in Ht. simplify_eq.
      apply dual_frame; try done. by intros b r' [= _ <-].
    + injection Ht as Ht. destruct got as [[x [|]]|]; simpl in Ht; simplify_eq.
      * destruct (add_effect_same x (db w)) as (E1 & E2 & _ & _ & E5).
        apply dual_frame; try done; [by rewrite E2|].
        rewrite (D4 _ _ _ _ Hi) in *.
        destruct E5 as [->|[Hn ->]]; [done|]. destruct D3 as [->|D3]; [by right|].
        rewrite D3 in Hn. set_solver.
      * apply dual_frame; try done. intros offset' oid b [= _ <- _]. by eapply D4.
      * destruct (log (db w) !! offset) as [k|] eqn:E; apply dual_frame; try done.
        intros offset' oid b [= _ <- _]. apply list_elem_of_lookup_2 in E. by rewrite (D2 _ E).
  - apply dual_frame; try done; destruct p as [[]| | | | |]; try done; by intros ? ? [= _ <-].
  - by apply dual_frame.
  - by apply dual_frame.
Qed.

Lemma dual_start (w : world) : started w -> dual_inv w.
Proof.
  intros [Hd Hp].
  assert (Hno : forall i p, processes w !! i = Some p -> fresh_process p = true)
    by (intros i p Hi; by apply (proj1 (Forall_lookup _ _) Hp i)).
  split; rewrite ?Hd; try done.
  - by intros k ?%elem_of_nil.
  - by left.
  - intros i offset oid b Hi. specialize (Hno _ _ Hi). by destruct offset.
  - intros i cid oid. split; intros Hi; by specialize (Hno _ _ Hi).
  - intros i batch r Hi. specialize (Hno _ _ Hi). by destruct r.
Qed.

(** In mode v0 the messages carry no outbox id and the consumer files every one
    under id 0, so whatever the number of charges and messages at most one effect
    is ever performed. *)
Theorem dual_write_effects_collapse (w0 w : world) :
  started w0 -> rtc (step V0) w0 w -> effects (db w) = [] \/ effects (db w) = [0].
Proof.
  intros H R. apply dual_start in H. induction R as [|x y z Hs _ IH]; [apply (dual_effects _ H)|].
  by apply IH, (dual_step x).
Qed.

(** The dual write.  Any payment of mode v0 can commit its charge and lose the
    event: nothing reaches the broker, the caller is told 500, and only the
    failure row remembers. *)
Theorem dual_write_loses_event (i : nat) (w : world) :
  processes w !! i = Some (Payment Pay) ->
  exists w', rtc (step V0) w w' /\ charges (db w') = charges (db w) ++ [next_charge (db w)] /\
    log (db w') = log (db w) /\ failures (db w') = failures (db w) ++ [next_charge (db w)] /\
    processes w' !! i = Some (Payment (Answered 500 (Some (next_charge (db w))))).
Proof.
  intros Hi. assert (Hlt : (i < length (processes w))%nat) by (by eapply lookup_lt_Some).
  set (cid := next_charge (db w)). set (lost := mkSending true false false).
  set (w1 := mkWorld (add_charge cid (take_charge_id (db w)).2)
               (<[i := Payment (Publishing cid)]> (processes w))).
  set (w2 := mkWorld (append_log [] (db w1)) (<[i := Payment (Recording cid)]> (processes w1))).
  set (w3 := mkWorld (add_failure cid (db w2))
               (<[i := Payment (Answered 500 (Some cid))]> (processes w2))).
  assert (S1 : step V0 w w1)
    by (by apply (step_turn V0 [] i (Payment Pay) (Payment (Publishing cid)) (db w1))).
  assert (S2 : step V0 w1 w2).
  { apply (step_turn V0 [lost] i (Payment (Publishing cid)) (Payment (Recording cid)) (db w2) w1);
      [by apply list_lookup_insert_eq|reflexivity]. }
  assert (S3 : step V0 w2 w3).
  { apply (step_turn V0 [] i (Payment (Recording cid)) (Payment (Answered 500 (Some cid))) (db w3) w2);
      [|reflexivity]. apply list_lookup_insert_eq. simpl. by rewrite length_insert. }
  exists w3. split_and!; try done.
  - by do 3 (eapply rtc_l; [eassumption|]).
  - simpl. by rewrite app_nil_r.
  - apply list_lookup_insert_eq. simpl. by rewrite !length_insert.
Qed.

(** ** Runs *)

(** A schedule of turns, each with its outcomes. *)
Fixpoint play (m : mode) (sched : list (nat * list sending)) (w : world) : world :=
  match sched with
  | [] => w
  | (i, outcome) :: rest =>
      match processes w !! i ≫= fun p => turn m outcome i p (db w) with
      | Some (p', d') => play m rest (mkWorld d' (<[i := p']> (processes w)))
      | None => w
      end
  end.

Lemma play_rtc (m : mode) (sched : list (nat * list sending)) (w : world) :
  rtc (step m) w (play m sched w).
Proof.
  revert w. induction sched as [|[i outcome] rest IH]; intros w; [apply rtc_refl|]. simpl.
  destruct (processes w !! i) as [p|] eqn:Hi; [|apply rtc_refl]. simpl.
  destruct (turn m outcome i p (db w)) as [[p' d']|] eqn:Ht; [|apply rtc_refl].
  eapply rtc_l; [by eapply step_turn|apply IH].
Qed.

(** Two writers, a mark relay and a SKIP LOCKED relay: the first writer takes
    outbox id 1 and holds it while the second commits id 2 and the mark relay
    reads; then it commits. *)
Definition inversion_start : world :=
  mkWorld no_rows [Payment Pay; Payment Pay; MarkRelay 20 0 []; SkipRelay 20 0 Idle].

Definition inversion_run : world :=
  play V1 ((fun i => (i, [])) <$> [0; 0; 1; 1; 1; 2; 2; 0]%nat) inversion_start.

Lemma inversion_started : started inversion_start.
Proof. split; [done|]. by repeat constructor. Qed.

Lemma outbox_exactly_once_witness :
  started inversion_start /\ charges (db inversion_run) = [2; 1] /\ NoDup (charges (db inversion_run)).
Proof.
  split; [exact inversion_started|]. split; [by vm_compute|].
  destruct (outbox_exactly_once inversion_start inversion_run) as [H _];
    [exact inversion_started|apply play_rtc|exact H].
Defined.

(** A whole pass of the SKIP LOCKED relay, after the first writer's commit. *)
Lemma skip_locked_drains_witness :
  exists w', rtc (step V1) inversion_run w' /\ unpublished (db w') = [].
Proof.
  destruct (skip_locked_drains 3 20 0 inversion_run) as (w' & R & Hu & _);
    [by vm_compute|lia|by vm_compute|]. by exists w'.
Defined.

(** Row 1 is committed behind the mark, and only the SKIP LOCKED relay can still
    deliver it. *)
Lemma mark_skips_for_ever_witness :
  is_Some (outbox (db inversion_run) !! 1) /\ unpublished (db inversion_run) = [1; 2] /\
  forall w', rtc (step V1) inversion_run w' -> (HighWaterMark, 1) ∉ delivered (db w').
Proof.
  split; [by vm_compute; eexists|]. split; [by vm_compute|].
  intros w' R. apply (mark_skips_for_ever V1 1 inversion_run w'); [|exact R].
  assert (processes inversion_run = [Payment (Answered 200 (Some 1)); Payment (Answered 200 (Some 2));
    MarkRelay 20 2 []; SkipRelay 20 0 Idle] /\ delivered (db inversion_run) = [(HighWaterMark, 2)])
    as [Hp Hd] by (by vm_compute).
  split; [|rewrite Hd; set_solver]. rewrite Hp.
  intros [|[|[|[|j]]]] batch ls todo H; try done. injection H as <- <- <-. split; [lia|set_solver].
Defined.

(** Two payments of mode v0 whose messages both arrive, and a consumer. *)
Definition dual_run_start : world := mkWorld no_rows [Payment Pay; Payment Pay; Consumer 0 None].

Definition ok : list sending := [mkSending true true true].

Definition dual_run : world :=
  play V0 [(0, []); (0, ok); (1, []); (1, ok); (2, []); (2, []); (2, []); (2, []); (2, []); (2, [])]%nat
    dual_run_start.

Lemma dual_write_effects_collapse_witness :
  length (log (db dual_run)) = 2%nat /\ length (delivered (db dual_run)) = 2%nat /\
  effects (db dual_run) = [0].
Proof.
  split; [by vm_compute|]. split; [by vm_compute|].
  destruct (dual_write_effects_collapse dual_run_start dual_run) as [H|H];
    [split; [done|by repeat constructor]|apply play_rtc| |exact H].
  exfalso. by vm_compute in H.
Defined.

Lemma dual_write_loses_event_witness :
  exists w', rtc (step V0) dual_run_start w' /\ charges (db w') = [1] /\ log (db w') = [].
Proof.
  destruct (dual_write_loses_event 0 dual_run_start) as (w' & R & Hc & Hl & _); [reflexivity|].
  exists w'. split; [exact R|]. split; [exact Hc|exact Hl].
Defined.

(** The consumer polls a message, fails before its inserts and polls again: the
    offset has moved, the event was published and acknowledged, and its effect is
    not there. *)
Example consumer_drops_event :
  let w := play V1 [(0, []); (0, []); (0, []); (1, []); (1, ok); (1, []); (2, [])]%nat
             (mkWorld no_rows [Payment Pay; BrokerRelay 50 Idle; Consumer 0 None]) in
  let w' := mkWorld (release 2 (db w)) (<[2%nat := after_failure (Consumer 1 (Some (1, false)))]>
              (processes w)) in
  published_at (db w') 1 = Some (Some Kafka) /\ log (db w') = [Some 1] /\
  processes w' !! 2%nat = Some (Consumer 1 None) /\ effects (db w') = [].
Proof. by vm_compute. Qed.
