(* ===== verification/Sessions.v ===== *)
(** * Distributed lab: session guarantees over lagging replicas

    Models src/04-distributed/04-consistency-models-and-replica-lag/python/session_guarantees.py
    ([Replica], [Cluster], [Checker] and the six scenarios) and the read and write
    handlers of src/04-distributed/docker/services/app/api4.py.  A replica applies
    a prefix of the primary's log; [replay] is the specification that its store
    refines.  Lag is a number of operations, never negative in the program.  The
    texts of the checker's violations are kept as the fields they print. *)

From Stdlib Require Import ZArith Lia Sorted.
From stdpp Require Import base option list numbers strings gmap.
From S2P Require Import Prelude PyFloat.

Open Scope Z_scope.

(** ** Definitions *)

#[local] Abbreviation entry := (Z * string * string)%type.

Module Replica.

Record t : Type := mk {
  name : string;
  lag : nat;
  applied : nat;
  store : gmap string string;
  lsn : Z;
}.

(** [Replica(name, lag=..)]. *)
Definition init (name : string) (lag : nat) : t := mk name lag 0 ∅ 0.

(** The loop of [catch_up]; the fuel is the distance to its target. *)
Fixpoint catch_loop (fuel target : nat) (log : list entry) (r : t) : t :=
  match fuel with
  | O => r
  | S fuel' =>
      if (applied r <? target)%nat then
        match log !! applied r with
        | Some (l, key, value) =>
            catch_loop fuel' target log
              (mk (name r) (lag r) (S (applied r)) (<[key := value]> (store r)) l)
        | None => r
        end
      else r
  end.

Definition catch_up (log : list entry) (r : t) : t :=
  let target := (length log - lag r)%nat in
  catch_loop (target - applied r) target log r.

Definition read (key : string) (r : t) : option string := store r !! key.

(** [r.lag = max(0, r.lag - 1)]. *)
Definition less_lag (r : t) : t := mk (name r) (lag r - 1) (applied r) (store r) (lsn r).
End Replica.

Module Cluster.

Record t : Type := mk {
  replicas : list Replica.t;
  log : list entry;
  primary : gmap string string;
  next_lsn : Z;
  primary_reads : Z;
  replica_reads : Z;
  poll_iterations : Z;
  fallbacks : Z;
}.

Definition init (rs : list Replica.t) : t := mk rs [] ∅ 1 0 0 0 0.

Definition write (key value : string) (c : t) : Z * t :=
  let l := next_lsn c in
  let log' := log c ++ [(l, key, value)] in
  (l, mk (Replica.catch_up log' <$> replicas c) log' (<[key := value]> (primary c)) (l + 1)
        (primary_reads c) (replica_reads c) (poll_iterations c) (fallbacks c)).

Definition read_primary (key : string) (c : t) : option string * t :=
  (primary c !! key,
   mk (replicas c) (log c) (primary c) (next_lsn c) (primary_reads c + 1) (replica_reads c)
     (poll_iterations c) (fallbacks c)).

(** [self.replicas[replica]] raises out of range: [None]. *)
Definition read_replica (i : nat) (key : string) (c : t) : option (option string * t) :=
  r ← replicas c !! i;
  Some (Replica.read key r,
        mk (replicas c) (log c) (primary c) (next_lsn c) (primary_reads c) (replica_reads c + 1)
          (poll_iterations c) (fallbacks c)).

Inductive source : Type := FromReplica (name : string) | FromPrimary.

Definition set_replica (i : nat) (r : Replica.t) (c : t) : t :=
  mk (<[i := r]> (replicas c)) (log c) (primary c) (next_lsn c) (primary_reads c)
    (replica_reads c) (poll_iterations c) (fallbacks c).

Definition count (dr dp df : Z) (c : t) : t :=
  mk (replicas c) (log c) (primary c) (next_lsn c) (primary_reads c) (replica_reads c + dr)
    (poll_iterations c + dp) (fallbacks c + df).

(** [read_lsn_token]: poll at most [polls] times, then the primary. *)
Fixpoint read_lsn_token (polls i : nat) (key : string) (token : Z) (c : t)
    : option ((option string * source) * t) :=
  match polls with
  | O =>
      let '(v, c') := read_primary key (count 0 0 1 c) in Some ((v, FromPrimary), c')
  | S polls' =>
      r ← replicas c !! i;
      let c1 := count 0 1 0 c in
      if token <=? Replica.lsn r
      then Some ((Replica.read key r, FromReplica (Replica.name r)), count 1 0 0 c1)
      else
        let r' := Replica.catch_up (log c1) (Replica.less_lag r) in
        read_lsn_token polls' i key token (set_replica i r' c1)
  end.
End Cluster.

Module Checker.

Inductive violation : Type :=
| ReadYourWrites (key wrote : string) (read : option string) (where_ : string)
| MonotonicReads (key : string) (seen idx : Z) (value : option string) (where_ : string).

Record t : Type := mk {
  violations : list violation;
  my_writes : gmap string string;
  version_order : list (string * string);
  last_seen_index : gmap string Z;
}.

Definition init : t := mk [] ∅ [] ∅.

Definition observe_write (key value : string) (mine : bool) (ck : t) : t :=
  mk (violations ck) (if mine then <[key := value]> (my_writes ck) else my_writes ck)
    (version_order ck ++ [(key, value)]) (last_seen_index ck).

(** The last position of this value, -1 when there is none. *)
Definition hits (key : string) (value : option string) (order : list (string * string)) : list Z :=
  omap (fun '(i, (k, v)) =>
          if bool_decide (k = key) && bool_decide (Some v = value) then Some (Z.of_nat i) else None)
    (imap (fun i kv => (i, kv)) order).

Definition _version_of (key : string) (value : option string) (ck : t) : Z :=
  default (-1) (last (hits key value (version_order ck))).

Definition observe_read (key : string) (value : option string) (where_ : string) (ck : t) : t :=
  let v1 :=
    match my_writes ck !! key with
    | Some w => if bool_decide (value = Some w) then [] else [ReadYourWrites key w value where_]
    | None => []
    end in
  let idx := _version_of key value ck in
  let v2 :=
    match last_seen_index ck !! key with
    | Some seen => if idx <? seen then [MonotonicReads key seen idx value where_] else []
    | None => []
    end in
  mk (violations ck ++ v1 ++ v2) (my_writes ck) (version_order ck)
    (<[key := Z.max idx (default (-1) (last_seen_index ck !! key))]> (last_seen_index ck)).

Definition report (ck : t) : bool := match violations ck with [] => true | _ => false end.
End Checker.

(** *** The scenarios, as what they print about *)

Section Scenarios.
Import Cluster.

Definition write_all (kvs : list (string * string)) (c : Cluster.t) : Cluster.t :=
  foldl (fun c '(k, v) => (Cluster.write k v c).2) c kvs.

Definition observe_all (mine : bool) (kvs : list (string * string)) (ck : Checker.t) : Checker.t :=
  foldl (fun ck '(k, v) => Checker.observe_write k v mine ck) ck kvs.

(** The violations of the broken and of the sticky half, and the reads of the
    latter on primary and replicas. *)
Definition scenario_read_your_writes : option (list Checker.violation * list Checker.violation * (Z * Z)) :=
  let kvs := [("profile:1", "name=old"); ("profile:1", "name=NEW")] in
  let c := write_all kvs (Cluster.init [Replica.init "standby" 2]) in
  let ck := Checker.observe_write "profile:1" "name=NEW" true Checker.init in
  '(value, _) ← Cluster.read_replica 0 "profile:1" c;
  let broken := Checker.observe_read "profile:1" value "replica" ck in
  let c2 := write_all kvs (Cluster.init [Replica.init "standby" 2]) in
  let '(v2, c2) := Cluster.read_primary "profile:1" c2 in
  let sticky := Checker.observe_read "profile:1" v2 "primary" ck in
  Some (Checker.violations broken, Checker.violations sticky, (primary_reads c2, replica_reads c2)).

Definition scenario_monotonic_reads : option (list Checker.violation) :=
  let kvs := [("post:9", "v1"); ("post:9", "v2"); ("post:9", "v3")] in
  let c := write_all kvs (Cluster.init [Replica.init "fast" 0; Replica.init "slow" 3]) in
  let ck := observe_all false kvs Checker.init in
  '(a, c) ← Cluster.read_replica 0 "post:9" c;
  '(b, c) ← Cluster.read_replica 1 "post:9" c;
  '(d, c) ← Cluster.read_replica 0 "post:9" c;
  Some (Checker.violations (Checker.observe_read "post:9" d "fast"
          (Checker.observe_read "post:9" b "slow" (Checker.observe_read "post:9" a "fast" ck)))).

(** [final != "B"]. *)
Definition scenario_monotonic_writes : option (option string * bool) :=
  let c := write_all [("cfg", "B"); ("cfg", "A")] (Cluster.init [Replica.init "standby" 0]) in
  '(final, _) ← Cluster.read_replica 0 "cfg" c;
  Some (final, negb (bool_decide (final = Some "B"%string))).

Definition scenario_writes_follow_reads : option (option string * option string * bool) :=
  let c := write_all [("comment:1", "is this on?"); ("reply:1", "yes -> comment:1")]
             (Cluster.init [Replica.init "replica-1" 2; Replica.init "replica-2" 0]) in
  '(comment, c) ← Cluster.read_replica 0 "comment:1" c;
  '(reply, c) ← Cluster.read_replica 1 "reply:1" c;
  Some (comment, reply, bool_decide (is_Some reply) && bool_decide (comment = None)).

(** A reader that sees a later write of the order and not an earlier one. *)
Definition prefix_ok (order : list string) (seen : string -> bool) : bool :=
  (fix go (gap : bool) (l : list string) : bool :=
     match l with
     | [] => true
     | key :: l' => if seen key then (if gap then false else go gap l') else go true l'
     end) false order.

Definition sees (obs : option string * option string) (key : string) : bool :=
  if bool_decide (key = "x"%string) then bool_decide (is_Some obs.1) else bool_decide (is_Some obs.2).

Definition scenario_long_fork : list string :=
  let endpoint1 := Replica.mk "endpoint-1" 0 0 {[ "y" := "1" ]} 0 in
  let endpoint2 := Replica.mk "endpoint-2" 0 0 {[ "x" := "1" ]} 0 in
  let r1 := (Replica.read "x" endpoint1, Replica.read "y" endpoint1) in
  let r2 := (Replica.read "x" endpoint2, Replica.read "y" endpoint2) in
  omap (fun '(name, order) =>
          if prefix_ok order (sees r1) && prefix_ok order (sees r2) then Some name else None)
    [("x then y", ["x"; "y"]); ("y then x", ["y"; "x"])]%string.

(** Value, polls, fallbacks and violations of the read of [scenario_lsn_token]. *)
Definition states : list (string * string) :=
  (fun s => ("order:7", s)) <$>
    ["state-0"; "state-1"; "state-2"; "state-3"; "state-4"; "state-5"; "state-6"; "state-7"]%string.

Definition scenario_lsn_token (lag : nat)
    : option (option string * (Z * Z) * list Checker.violation) :=
  let c := write_all states (Cluster.init [Replica.init "standby" lag]) in
  let '(token, c) := Cluster.write "order:7" "state-FINAL" c in
  let ck := Checker.observe_write "order:7" "state-FINAL" true Checker.init in
  '((value, _), c) ← Cluster.read_lsn_token 3 0 "order:7" token c;
  Some (value, (poll_iterations c, fallbacks c),
        Checker.violations (Checker.observe_read "order:7" value "where" ck)).
End Scenarios.

(** *** [api4]: one primary, one standby, sessions with a token *)

Module Api.

Inductive fix_ : Type := NoFix | Sticky | Lsn.

(** What [read] returns. *)
Record reading : Type := mkReading {
  value : option string;
  stale : bool;
  in_recovery : bool;
  polls : Z;
  fell_back : bool;
}.

(** A row of [rw_probe]. *)
Record probe : Type := mkProbe {
  entity_id : string;
  written_value : string;
  write_lsn : option nat;
  observed : reading;
}.

(** The primary's commits in order, how many of them the standby has replayed,
    [_sessions] (the token and the process clock of a session's last write), and
    the probe rows. *)
Record t : Type := mk {
  commits : list (string * string);
  replayed : nat;
  sessions : gmap string (nat * float);
  probes : list probe;
}.

Section Handlers.
Context (FIX : fix_) (STICKY_MS LSN_TIMEOUT_MS : Z).

(** The two statements of [write] and its assignment.  The pool is on autocommit, so the
    [INSERT] has committed before the flush position is read. *)
Definition commit (entity value : string) (s : t) : t :=
  mk (commits s ++ [(entity, value)]) (replayed s) (sessions s) (probes s).
Definition flush_lsn (s : t) : nat := length (commits s).
Definition record (session : string) (lsn : nat) (mono : float) (s : t) : t :=
  mk (commits s) (replayed s) (<[session := (lsn, mono)]> (sessions s)) (probes s).

(** [write]: the commit, then the flush position, which [others] may have moved by their
    commits, then the session's entry. *)
Definition write (entity value session : string) (others : list (string * string)) (mono : float)
    (s : t) : nat * t :=
  let s := commit entity value s in
  let s := foldl (fun s '(k, v) => commit k v s) s others in
  (flush_lsn s, record session (flush_lsn s) mono s).

(** One round of the poll: how far the standby had replayed, and the clock read
    after it. *)
Record poll_round : Type := mkRound { replay_lsn : nat; clock : float }.

(** The loop: [Some (polls, fell_back)] when it ended within the rounds given. *)
Fixpoint poll (wl : nat) (deadline : float) (rounds : list poll_round) (polls : Z)
    : option (Z * bool) :=
  match rounds with
  | [] => None
  | r :: rounds' =>
      if (wl <=? replay_lsn r)%nat then Some (polls + 1, false)
      else if (deadline <=? clock r)%F then Some (polls + 1, true)
      else poll wl deadline rounds' (polls + 1)
  end.

Definition value_at (l : list (string * string)) (entity : string) : option string :=
  (foldl (fun m '(k, v) => <[k := v]> m) (∅ : gmap string string) l) !! entity.

(** Where [read] goes: to the primary or not, after how many polls, and whether
    it fell back; [now] is the clock at the check and [rounds] are the polls. *)
Definition route (session : string) (sessions_then : gmap string (nat * float)) (now : float)
    (rounds : list poll_round) : option (bool * Z * bool) :=
  match FIX, sessions_then !! session with
  | Sticky, Some (_, wts) =>
      Some ((((now - wts) * of_Z 1000) <? of_Z STICKY_MS)%F, 0, false)
  | Lsn, Some (wl, _) =>
      match poll wl (now + lit LSN_TIMEOUT_MS 1000)%F rounds 0 with
      | Some (n, back) => Some (back, n, back)
      | None => None
      end
  | _, _ => Some (false, 0, false)
  end.

(** [read], the value read and the probe row inserted in state [s]. *)
Definition read (entity expect session : string) (sessions_then : gmap string (nat * float))
    (now : float) (rounds : list poll_round) (s : t) : option (reading * t) :=
  match route session sessions_then now rounds with
  | None => None
  | Some (use_primary, n, back) =>
      let val := if use_primary then value_at (commits s) entity
                 else value_at (take (replayed s) (commits s)) entity in
      let r := mkReading val (negb (bool_decide (val = Some expect))) (negb use_primary) n back in
      Some (r, mk (commits s) (replayed s) (sessions s)
                 (probes s ++ [mkProbe entity expect (fst <$> sessions_then !! session) r]))
  end.

(** What can happen around a session that sends one request at a time: commits and
    entries of others, its own next write, replay by the standby, probe rows. *)
Inductive later (session : string) (s : t) : t -> Prop :=
| later_commit entity value : later session s (commit entity value s)
| later_record other lsn mono : other <> session -> later session s (record other lsn mono s)
| later_write entity value others mono : later session s (write entity value session others mono s).2
| later_replay n : (replayed s <= n <= length (commits s))%nat -> later session s (mk (commits s) n (sessions s) (probes s))
| later_probe p : later session s (mk (commits s) (replayed s) (sessions s) (probes s ++ [p])).
End Handlers.
End Api.

(** ** Lemmas *)

(** The specification: a store is the replay of a prefix of the log. *)
Definition replay (log : list entry) : gmap string string :=
  foldl (fun m '(_, k, v) => <[k := v]> m) ∅ log.

Lemma replay_snoc (log : list entry) (l : Z) (k v : string) :
  replay (log ++ [(l, k, v)]) = <[k := v]> (replay log).
Proof. unfold replay. by rewrite foldl_snoc. Qed.

Lemma take_snoc {A} (l : list A) (n : nat) (x : A) :
  l !! n = Some x -> take (S n) l = take n l ++ [x].
Proof. apply take_S_r. Qed.

(** The log's numbers, and a replica that is exactly its lag behind. *)
Definition log_ok (log : list entry) : Prop :=
  forall i l k v, log !! i = Some (l, k, v) -> l = Z.of_nat (S i).

Record follows (log : list entry) (r : Replica.t) : Prop := {
  follows_applied : (Replica.applied r <= length log)%nat;
  follows_lsn : Replica.lsn r = Z.of_nat (Replica.applied r);
  follows_store : Replica.store r = replay (take (Replica.applied r) log);
}.

Lemma catch_loop_follows (fuel target : nat) (log : list entry) (r : Replica.t) :
  log_ok log -> (target <= length log)%nat -> follows log r ->
  (target - Replica.applied r <= fuel)%nat ->
  let r' := Replica.catch_loop fuel target log r in
  follows log r' /\ Replica.applied r' = Nat.max (Replica.applied r) target /\
  Replica.lag r' = Replica.lag r /\ Replica.name r' = Replica.name r.
Proof.
  intros Hlog Ht. revert r. induction fuel as [|fuel IH]; intros r Hr Hf; simpl.
  - split_and!; [done|lia|done|done].
  - destruct (Nat.ltb_spec (Replica.applied r) target); [|split_and!; [done|lia|done|done]].
    destruct (log !! Replica.applied r) as [[[l k] v]|] eqn:E.
    2:{ apply lookup_ge_None_1 in E. lia. }
    pose proof (Hlog _ _ _ _ E) as ->. destruct Hr as [H1 H2 H3].
    destruct (IH (Replica.mk (Replica.name r) (Replica.lag r) (S (Replica.applied r))
      (<[k := v]> (Replica.store r)) (Z.of_nat (S (Replica.applied r))))) as (I1 & I2 & I3 & I4).
    + split; simpl; [lia|done|]. by rewrite (take_snoc _ _ _ E), replay_snoc, H3.
    + simpl. lia.
    + simpl in *. split_and!; [done|lia|done|done].
Qed.

(** A replica of a cluster: exactly its lag behind. *)
Definition current (log : list entry) (r : Replica.t) : Prop :=
  follows log r /\ Replica.applied r = (length log - Replica.lag r)%nat.

Lemma catch_up_current (log : list entry) (r : Replica.t) :
  log_ok log -> follows log r -> (Replica.applied r <= length log - Replica.lag r)%nat ->
  let r' := Replica.catch_up log r in
  current log r' /\ Replica.lag r' = Replica.lag r /\ Replica.name r' = Replica.name r.
Proof.
  intros Hlog Hr Ha. unfold Replica.catch_up.
  destruct (catch_loop_follows (length log - Replica.lag r - Replica.applied r)
    (length log - Replica.lag r) log r Hlog) as (I1 & I2 & I3 & I4); [lia|done|lia|].
  simpl. split; [split; [done|rewrite I2, I3; lia]|done].
Qed.

Record cluster_ok (c : Cluster.t) : Prop := {
  ok_log : log_ok (Cluster.log c);
  ok_next : Cluster.next_lsn c = Z.of_nat (S (length (Cluster.log c)));
  ok_primary : Cluster.primary c = replay (Cluster.log c);
  ok_replicas : Forall (current (Cluster.log c)) (Cluster.replicas c);
}.

Lemma cluster_init_ok (rs : list (string * nat)) :
  cluster_ok (Cluster.init ((fun '(n, l) => Replica.init n l) <$> rs)).
Proof.
  split; simpl; try done.
  apply Forall_fmap, Forall_true. intros [n l]. by split; [split|].
Qed.

Lemma cluster_write_ok (key value : string) (c : Cluster.t) :
  cluster_ok c -> cluster_ok (Cluster.write key value c).2.
Proof.
  intros [O1 O2 O3 O4].
  assert (Hlog : log_ok (Cluster.log c ++ [(Cluster.next_lsn c, key, value)])).
  { intros i l k v Hi. apply lookup_app_Some in Hi as [Hi|[Hge Hi]]; [by eapply O1|].
    apply list_lookup_singleton_Some in Hi as [Hi [= <- _ _]]. rewrite O2. lia. }
  split; cbn [Cluster.write snd Cluster.log Cluster.next_lsn Cluster.primary Cluster.replicas].
  - exact Hlog.
  - rewrite O2, length_app. simpl. lia.
  - by rewrite replay_snoc, O3.
  - apply Forall_fmap. eapply Forall_impl; [exact O4|]. intros r [[F1 F2 F3] Ha].
    apply catch_up_current; [exact Hlog| |rewrite length_app; simpl; lia].
    split; [rewrite length_app; lia|done|]. by rewrite take_app_le.
Qed.

(** Reading with a token. *)
Lemma token_loop (polls i : nat) (key : string) (token : nat) (c : Cluster.t) (r : Replica.t) :
  cluster_ok c -> Cluster.replicas c !! i = Some r -> (0 < token <= length (Cluster.log c))%nat ->
  let k := (Replica.lag r - (length (Cluster.log c) - token))%nat in
  exists v src c', Cluster.read_lsn_token polls i key (Z.of_nat token) c = Some ((v, src), c') /\
    cluster_ok c' /\ Cluster.log c' = Cluster.log c /\
    (exists n, (token <= n <= length (Cluster.log c))%nat /\
               v = replay (take n (Cluster.log c)) !! key) /\
    Cluster.poll_iterations c' = Cluster.poll_iterations c + Z.of_nat (Nat.min polls (S k)) /\
    Cluster.fallbacks c' = Cluster.fallbacks c + (if (polls <=? k)%nat then 1 else 0).
Proof.
  revert c r. induction polls as [|polls IH]; intros c r Hc Hr Ht k.
  - eexists _, _, _. split; [reflexivity|]. pose proof Hc as [O1 O2 O3 O4]. split; [by split|].
    split; [done|]. split; [|simpl; split; lia].
    exists (length (Cluster.log c)). split; [lia|]. simpl. by rewrite O3, firstn_all.
  - pose proof (proj1 (Forall_lookup _ _) (ok_replicas _ Hc) i r Hr) as [[F1 F2 F3] Ha].
    cbn [Cluster.read_lsn_token]. rewrite Hr. cbn [mbind option_bind]. rewrite F2.
    destruct (Z.leb_spec (Z.of_nat token) (Z.of_nat (Replica.applied r))) as [Hle|Hgt].
    + assert (k = 0%nat) as -> by lia.
      eexists _, _, _. split; [reflexivity|]. pose proof Hc as [O1 O2 O3 O4].
      split; [by split|]. split; [done|]. split; [|split; [simpl; lia|simpl; lia]].
      exists (Replica.applied r). split; [lia|]. unfold Replica.read. by rewrite F3.
    + change (Cluster.log (Cluster.count 0 1 0 c)) with (Cluster.log c).
      set (r' := Replica.catch_up (Cluster.log c) (Replica.less_lag r)).
      destruct (catch_up_current (Cluster.log c) (Replica.less_lag r)) as (Hcur & Hlag & Hname);
        [apply Hc|by split|simpl; lia|]. fold r' in Hcur, Hlag. clearbody r'.
      destruct (IH (Cluster.set_replica i r' (Cluster.count 0 1 0 c)) r')
        as (v & src & c' & E & H1 & H2 & H3 & H4 & H5).
      * destruct Hc as [O1 O2 O3 O4]. split; try done. simpl. by apply Forall_insert.
      * simpl. apply list_lookup_insert_eq. by eapply lookup_lt_Some.
      * done.
      * exists v, src, c'. split; [exact E|]. split; [done|]. split; [done|]. split; [done|].
        cbn [Cluster.set_replica Cluster.count Cluster.log Cluster.poll_iterations
             Cluster.fallbacks] in H4, H5.
        rewrite Hlag in H4, H5. cbn [Replica.less_lag Replica.lag] in H4, H5.
        rewrite H4, H5. unfold k.
        assert (Replica.lag r - (length (Cluster.log c) - token) =
          S (Replica.lag r - 1 - (length (Cluster.log c) - token)))%nat as -> by lia.
        split; [lia|]. rewrite Z.add_0_r. reflexivity.
Qed.

(** *** The checker *)

Definition pairs (log : list entry) : list (string * string) := (fun '(_, k, v) => (k, v)) <$> log.

(** What a prefix shows of a key is its last write there. *)
Lemma replay_last (log : list entry) (key : string) :
  match replay log !! key with
  | Some v => exists i, pairs log !! i = Some (key, v) /\
                forall j w, (i < j)%nat -> pairs log !! j <> Some (key, w)
  | None => forall j w, pairs log !! j <> Some (key, w)
  end.
Proof.
  induction log as [|[[l k] v] log IH] using rev_ind; [unfold replay; simpl; by rewrite lookup_empty|].
  rewrite replay_snoc. unfold pairs. rewrite fmap_app. fold (pairs log).
  assert (Hlast : forall (p : string * string), (pairs log ++ [p]) !! length (pairs log) = Some p).
  { intros p. by rewrite lookup_app_r, Nat.sub_diag by lia. }
  destruct (decide (k = key)) as [->|Hne].
  - rewrite lookup_insert_eq. exists (length (pairs log)). split; [apply Hlast|].
    intros j w Hj H. apply lookup_lt_Some in H. rewrite length_app in H. simpl in H. lia.
  - rewrite lookup_insert_ne by done.
    assert (Hsame : forall j w, (pairs log ++ [(k, v)]) !! j = Some (key, w) ->
                    pairs log !! j = Some (key, w)).
    { intros j w H. apply lookup_app_Some in H as [H|[_ H]]; [done|].
      apply list_lookup_singleton_Some in H as [_ [= H _]]. done. }
    destruct (replay log !! key) as [w|].
    + destruct IH as (i & Hi & Hj). exists i. split; [by apply lookup_app_l_Some|].
      intros j w' Hlt H. by apply (Hj j w' Hlt), Hsame.
    + intros j w H. by apply (IH j w), Hsame.
Qed.

(** The index the checker gives to what a prefix of [n] writes shows. *)
Lemma elem_of_hits (key : string) (value : option string) (order : list (string * string)) (z : Z) :
  z ∈ Checker.hits key value order <->
  exists i v, z = Z.of_nat i /\ order !! i = Some (key, v) /\ value = Some v.
Proof.
  unfold Checker.hits. rewrite list_elem_of_omap. split.
  - intros ([i [k v]] & Hin & Hp). apply elem_of_lookup_imap_1 in Hin as (j & kv & [= -> <-] & Hj).
    case_bool_decide; simpl in Hp; [|done]. case_bool_decide; simpl in Hp; [|done].
    injection Hp as <-. subst. by eauto.
  - intros (i & v & -> & Hi & ->). exists (i, (key, v)). split.
    + apply elem_of_lookup_imap. eauto.
    + by rewrite !bool_decide_eq_true_2.
Qed.

Lemma last_elem {A} (l : list A) (x : A) : last l = Some x -> x ∈ l.
Proof. intros H. apply last_Some in H as [l' ->]. apply elem_of_app. right. by left. Qed.

(** The checker's index of the value read at a prefix of length [n]. *)
Definition index_at (log : list entry) (key : string) (n : nat) : Z :=
  default (-1) (last (Checker.hits key (replay (take n log) !! key) (pairs log))).

Lemma pairs_take (log : list entry) (n : nat) : pairs (take n log) = take n (pairs log).
Proof. apply fmap_take. Qed.

Lemma index_at_cases (log : list entry) (key : string) (n : nat) :
  NoDup (pairs log) ->
  (index_at log key n = -1 /\ replay (take n log) !! key = None) \/
  (exists i v, index_at log key n = Z.of_nat i /\ pairs (take n log) !! i = Some (key, v) /\
     forall j w, (i < j)%nat -> pairs (take n log) !! j <> Some (key, w)).
Proof.
  intros Hnd. unfold index_at. pose proof (replay_last (take n log) key) as Hlast.
  destruct (replay (take n log) !! key) as [v|] eqn:E.
  - right. destruct Hlast as (i & Hi & Hj). exists i, v. split; [|done].
    assert (Hin : Z.of_nat i ∈ Checker.hits key (Some v) (pairs log)).
    { apply elem_of_hits. exists i, v. split; [done|]. split; [|done].
      rewrite pairs_take in Hi. apply lookup_take_Some in Hi as [? _]. done. }
    destruct (last (Checker.hits key (Some v) (pairs log))) as [z|] eqn:El.
    + apply last_elem, elem_of_hits in El as (i' & v' & -> & Hi' & [= <-]). simpl. f_equal.
      rewrite pairs_take in Hi. apply lookup_take_Some in Hi as [Hi _].
      by eapply NoDup_lookup.
    + apply last_None in El. rewrite El in Hin. by apply elem_of_nil in Hin.
  - left. split; [|done].
    destruct (last (Checker.hits key None (pairs log))) as [z|] eqn:El; [|done].
    by apply last_elem, elem_of_hits in El as (i & v & _ & _ & [=]).
Qed.

Lemma index_at_mono (log : list entry) (key : string) (n m : nat) :
  NoDup (pairs log) -> (n <= m)%nat -> index_at log key n <= index_at log key m.
Proof.
  intros Hnd Hle. destruct (index_at_cases log key n Hnd) as [[-> _]|(i & v & -> & Hi & _)].
  - destruct (index_at_cases log key m Hnd) as [[-> _]|(j & w & -> & _)]; lia.
  - rewrite pairs_take in Hi. apply lookup_take_Some in Hi as [Hi Hlt].
    assert (Him : pairs (take m log) !! i = Some (key, v))
      by (rewrite pairs_take; apply lookup_take_Some; split; [done|lia]).
    destruct (index_at_cases log key m Hnd) as [[_ Hn]|(j & w & -> & _ & Hj)].
    + pose proof (replay_last (take m log) key) as Hlast. rewrite Hn in Hlast.
      by apply Hlast in Him.
    + destruct (decide (j < i)%nat) as [Hji|]; [by apply (Hj i v) in Him|lia].
Qed.

(** A session's reads of one key, each at a prefix of the log. *)
Definition read_prefixes (log : list entry) (key where_ : string) (ns : list nat)
    (ck : Checker.t) : Checker.t :=
  foldl (fun ck n => Checker.observe_read key (replay (take n log) !! key) where_ ck) ck ns.

(** ** Properties *)

(** Reading with a token.  On any cluster built by writes and reads, a read
    that carries the token of an earlier write returns the key's value after some
    prefix of the log that contains that write, within the poll budget; it costs
    one poll per operation the replica is behind the token plus one, and falls
    back to the primary exactly when the budget does not cover them. *)
Theorem lsn_token_fresh (polls i : nat) (key : string) (token : nat) (c : Cluster.t)
    (r : Replica.t) :
  cluster_ok c -> Cluster.replicas c !! i = Some r ->
  (0 < token <= length (Cluster.log c))%nat ->
  let behind := (Replica.lag r - (length (Cluster.log c) - token))%nat in
  exists v src c', Cluster.read_lsn_token polls i key (Z.of_nat token) c = Some ((v, src), c') /\
    cluster_ok c' /\ Cluster.log c' = Cluster.log c /\
    (exists n, (token <= n <= length (Cluster.log c))%nat /\
               v = replay (take n (Cluster.log c)) !! key) /\
    Cluster.poll_iterations c' = Cluster.poll_iterations c + Z.of_nat (Nat.min polls (S behind)) /\
    Cluster.fallbacks c' = Cluster.fallbacks c + (if (polls <=? behind)%nat then 1 else 0).
Proof. apply token_loop. Qed.

(** The checker is silent on a pinned session.  A session that has written
    nothing and whose reads of a key come from growing prefixes of one log, as
    those of one replica do, is reported no violation, provided no value of the
    log is written twice. *)
Theorem checker_pinned_silent (log : list entry) (key where_ : string) (ns : list nat)
    (ck : Checker.t) :
  NoDup (pairs log) -> Checker.version_order ck = pairs log ->
  Checker.my_writes ck !! key = None -> Checker.last_seen_index ck !! key = None ->
  StronglySorted le ns ->
  Checker.violations (read_prefixes log key where_ ns ck) = Checker.violations ck.
Proof.
  intros Hnd Ho Hm Hs Hsort.
  assert (Hseen : forall n, n ∈ ns -> match Checker.last_seen_index ck !! key with
                                      | Some z => z <= index_at log key n | None => True end)
    by (by rewrite Hs).
  clear Hs. revert ck Ho Hm Hseen. induction Hsort as [|n ns Hsort IH Hall]; [done|].
  intros ck Ho Hm Hseen. unfold read_prefixes. simpl.
  set (ck1 := Checker.observe_read _ _ _ _). fold (read_prefixes log key where_ ns ck1).
  assert (Hidx : Checker._version_of key (replay (take n log) !! key) ck = index_at log key n)
    by (unfold Checker._version_of; by rewrite Ho).
  rewrite IH.
  - unfold ck1. cbn [Checker.observe_read Checker.violations]. rewrite Hm, Hidx.
    specialize (Hseen n). destruct (Checker.last_seen_index ck !! key) as [z|].
    + rewrite (proj2 (Z.ltb_ge _ _)) by (apply Hseen; by left). by rewrite !app_nil_r.
    + by rewrite !app_nil_r.
  - exact Ho.
  - exact Hm.
  - intros m Hin. unfold ck1. cbn [Checker.observe_read Checker.last_seen_index].
    rewrite lookup_insert_eq, Hidx.
    assert (n <= m)%nat by (by apply (proj1 (Forall_forall _ _) Hall)).
    pose proof (index_at_mono log key n m Hnd H) as Hmono.
    specialize (Hseen n). destruct (Checker.last_seen_index ck !! key) as [z|]; simpl.
    + specialize (Hseen ltac:(by left)). lia.
    + destruct (index_at_cases log key n Hnd) as [[? _]|(i & v & ? & _)]; lia.
Qed.

(** The checker reports two things that are no violations: a session that reads
    a value another session wrote after its own, and a reader pinned to one replica
    of a log in which a value comes back. *)
Theorem checker_false_positives :
  (let ck := Checker.observe_write "k" "theirs" false
               (Checker.observe_write "k" "mine" true Checker.init) in
   let c := write_all [("k", "mine"); ("k", "theirs")] (Cluster.init []) in
   Checker.violations (Checker.observe_read "k" (Cluster.read_primary "k" c).1 "primary" ck) =
     [Checker.ReadYourWrites "k" "mine" (Some "theirs") "primary"]) /\
  (let log := [(1, "k", "on"); (2, "k", "off"); (3, "k", "on")]%string in
   Checker.violations (read_prefixes log "k" "replica" [1; 2]%nat
     (observe_all false (pairs log) Checker.init)) =
     [Checker.MonotonicReads "k" 2 1 (Some "off") "replica"]).
Proof. by vm_compute. Qed.

(** The scenarios show what they print: each breaks the guarantee it names and no
    other, sticky reads and the token repair it, and no serial order explains the
    fork. *)
Theorem scenarios_break_and_repair :
  scenario_read_your_writes =
    Some ([Checker.ReadYourWrites "profile:1" "name=NEW" None "replica"], [], (1, 0)) /\
  scenario_monotonic_reads = Some [Checker.MonotonicReads "post:9" 2 (-1) None "slow"] /\
  scenario_monotonic_writes = Some (Some "A"%string, true) /\
  scenario_writes_follow_reads = Some (None, Some "yes -> comment:1"%string, true) /\
  scenario_long_fork = [] /\
  scenario_lsn_token 1 = Some (Some "state-FINAL"%string, (2, 0), []) /\
  scenario_lsn_token 6 = Some (Some "state-FINAL"%string, (3, 1), []).
Proof. by vm_compute. Qed.

Section ApiRead.
Context (FIX : Api.fix_) (STICKY_MS LSN_TIMEOUT_MS : Z).

Lemma poll_ends (wl : nat) (deadline : float) (rounds : list Api.poll_round) (polls : Z) :
  match Api.poll wl deadline rounds polls with
  | Some (n, back) =>
      polls < n <= polls + Z.of_nat (length rounds) /\
      (back = false -> exists r, r ∈ rounds /\ (wl <= Api.replay_lsn r)%nat)
  | None => Forall (fun r => (Api.replay_lsn r < wl)%nat /\ fleb deadline (Api.clock r) = false) rounds
  end.
Proof.
  revert polls. induction rounds as [|r rounds IH]; intros polls; cbn [Api.poll]; [constructor|].
  destruct (Nat.leb_spec wl (Api.replay_lsn r)).
  - split; [simpl; lia|]. intros _. exists r. split; [by left|done].
  - destruct (fleb deadline (Api.clock r)) eqn:E.
    + split; [simpl; lia|done].
    + specialize (IH (polls + 1)). destruct (Api.poll wl deadline rounds (polls + 1)) as [[n back]|].
      * destruct IH as [Hn Hb]. split; [simpl; lia|]. intros H'. destruct (Hb H') as (r' & Hr' & ?).
        exists r'. split; [by right|done].
      * by constructor.
Qed.

(** What a prefix shows of an entity is its last commit there. *)
Lemma value_at_last (l : list (string * string)) (entity value : string) (p : nat) :
  l !! p = Some (entity, value) ->
  exists i v, (p <= i)%nat /\ l !! i = Some (entity, v) /\ Api.value_at l entity = Some v.
Proof.
  unfold Api.value_at. induction l as [|[k w] l IH] using rev_ind; [done|]. intros Hp. rewrite foldl_snoc.
  destruct (decide (k = entity)) as [->|Hne].
  - exists (length l), w. rewrite lookup_insert_eq. apply lookup_lt_Some in Hp. rewrite length_app in Hp. simpl in Hp.
    split; [lia|]. by rewrite list_lookup_middle.
  - rewrite lookup_insert_ne by done. apply lookup_app_Some in Hp as [Hp|[_ Hp]].
    + destruct (IH Hp) as (i & v & Hi & Hl & Hv). exists i, v. split_and!; [done|by apply lookup_app_l_Some|done].
    + apply list_lookup_singleton_Some in Hp as [_ [= -> _]]. done.
Qed.

(** A write at position [p] of the log, known to its session. *)
Record written (p : nat) (entity value session : string) (s : Api.t) : Prop := {
  wr_there : Api.commits s !! p = Some (entity, value);
  wr_token : exists lsn wts, Api.sessions s !! session = Some (lsn, wts) /\ (p < lsn <= length (Api.commits s))%nat;
  wr_replayed : (Api.replayed s <= length (Api.commits s))%nat;
}.

Lemma commits_of (l : list (string * string)) (s : Api.t) :
  foldl (fun s '(k, v) => Api.commit k v s) s l =
  Api.mk (Api.commits s ++ l) (Api.replayed s) (Api.sessions s) (Api.probes s).
Proof.
  revert s. induction l as [|[k v] l IH]; intros s; simpl; [by destruct s; rewrite app_nil_r|].
  rewrite IH. unfold Api.commit. simpl. by rewrite <- app_assoc.
Qed.

Lemma write_written (entity value session : string) (others : list (string * string)) (mono : float) (s : Api.t) :
  (Api.replayed s <= length (Api.commits s))%nat ->
  written (length (Api.commits s)) entity value session (Api.write entity value session others mono s).2.
Proof.
  intros Hr. unfold Api.write. rewrite commits_of. constructor; simpl; rewrite ?length_app; simpl; [| |lia].
  - rewrite <- app_assoc. by apply list_lookup_middle.
  - eexists _, _. rewrite lookup_insert_eq. split; [done|]. unfold Api.flush_lsn. simpl. rewrite !length_app. simpl. lia.
Qed.

Lemma written_step (p : nat) (entity value session : string) (s s' : Api.t) :
  written p entity value session s -> Api.later session s s' -> written p entity value session s'.
Proof.
  intros [Ht (lsn & wts & Hw & Hl) Hr] Hs.
  pose proof (lookup_lt_Some _ _ _ Ht). destruct Hs as [e v|other l mono Hne|e v others mono|n Hn|pr].
  - constructor; simpl; rewrite ?length_app; [by apply lookup_app_l_Some|eexists _, _; split; [done|lia]|lia].
  - constructor; simpl; [done|rewrite lookup_insert_ne by done; eauto 10|done].
  - unfold Api.write. rewrite commits_of. constructor; simpl; rewrite ?length_app; simpl; [| |lia].
    + by do 2 apply lookup_app_l_Some.
    + eexists _, _. rewrite lookup_insert_eq. split; [done|]. unfold Api.flush_lsn. simpl. rewrite !length_app. simpl. lia.
  - constructor; simpl; [done|eauto 10|lia].
  - constructor; simpl; [done|eauto 10|done].
Qed.

Lemma written_later (p : nat) (entity value session : string) (s s' : Api.t) :
  written p entity value session s -> rtc (Api.later session) s s' -> written p entity value session s'.
Proof. intros H R. induction R; [done|]. eauto using written_step. Qed.

(** C27: Read your writes through [api4].  A session writes; then anything happens around it,
    other sessions' commits, replay and its own later requests among them; then it reads the
    entity, the read spanning more of the same.  With FIX=lsn always, and with FIX=sticky
    while the window of its last write lasts, the value read is the session's own or one
    committed to the entity after it; so it is the session's own when nobody wrote the entity
    since.  With FIX=lsn the poll ends as soon as one clock reading is past the deadline. *)
Theorem api_reads_own_write (entity value expect session : string) (others : list (string * string))
    (mono now : float) (rounds : list Api.poll_round) (s0 s1 s : Api.t) :
  (Api.replayed s0 <= length (Api.commits s0))%nat ->
  rtc (Api.later session) (Api.write entity value session others mono s0).2 s1 -> rtc (Api.later session) s1 s ->
  Forall (fun r => (Api.replay_lsn r <= Api.replayed s)%nat) rounds ->
  (FIX = Api.Lsn \/ (FIX = Api.Sticky /\ forall lsn wts, Api.sessions s1 !! session = Some (lsn, wts) ->
                       (((now - wts) * of_Z 1000) <? of_Z STICKY_MS)%F = true)) ->
  match Api.read FIX STICKY_MS LSN_TIMEOUT_MS entity expect session (Api.sessions s1) now rounds s with
  | Some (r, s') =>
      (exists i v, (length (Api.commits s0) <= i)%nat /\ Api.commits s !! i = Some (entity, v) /\ Api.value r = Some v) /\
      ((forall i v, (length (Api.commits s0) < i)%nat -> Api.commits s !! i <> Some (entity, v)) -> Api.value r = Some value) /\
      (Api.fell_back r = true -> Api.in_recovery r = false) /\
      (Api.stale r = false <-> Api.value r = Some expect) /\
      Api.commits s' = Api.commits s
  | None => FIX = Api.Lsn /\
      Forall (fun r => fleb (now + lit LSN_TIMEOUT_MS 1000)%F (Api.clock r) = false) rounds
  end.
Proof.
  intros Hr0 R1 R2 Hrounds Hfix. set (p := length (Api.commits s0)).
  pose proof (written_later _ _ _ _ _ _ (write_written entity value session others mono s0 Hr0) R1) as W1. fold p in W1.
  destruct (written_later _ _ _ _ _ _ W1 R2) as [Ht _ Hrep]. destruct W1 as [_ (lsn & wts & Hs & Hlsn) _].
  assert (Hshow : forall m v, (p < m)%nat -> v = Api.value_at (take m (Api.commits s)) entity ->
    (exists i w, (p <= i)%nat /\ Api.commits s !! i = Some (entity, w) /\ v = Some w) /\
    ((forall i w, (p < i)%nat -> Api.commits s !! i <> Some (entity, w)) -> v = Some value)).
  { intros m v Hm ->. destruct (value_at_last (take m (Api.commits s)) entity value p) as (i & w & Hi & Hl & ->).
    { by rewrite lookup_take_lt. }
    apply lookup_take_Some in Hl as [Hl _]. split; [by exists i, w|]. intros Hno.
    destruct (decide (i = p)) as [->|Hne]; [congruence|]. by destruct (Hno i w ltac:(lia)). }
  assert (Hst : forall v, negb (bool_decide (v = Some expect)) = false <-> v = Some expect)
    by (intros v; by rewrite negb_false_iff, bool_decide_eq_true).
  pose proof (lookup_lt_Some _ _ _ Ht) as Hlt.
  assert (Hfull : forall v, v = Api.value_at (Api.commits s) entity -> v = Api.value_at (take (length (Api.commits s)) (Api.commits s)) entity)
    by (intros v ->; by rewrite firstn_all).
  unfold Api.read, Api.route. rewrite Hs. destruct Hfix as [->|[-> Hw]].
  - pose proof (poll_ends lsn (now + lit LSN_TIMEOUT_MS 1000)%F rounds 0) as Hp.
    destruct (Api.poll _ _ rounds 0) as [[k back]|]; [|split; [done|eapply Forall_impl; [exact Hp|]; by intros r [_ ?]]].
    destruct Hp as [_ Hp]. cbn [Api.value Api.fell_back Api.in_recovery Api.stale Api.commits].
    assert (Hv : exists m, (p < m)%nat /\ (if back then Api.value_at (Api.commits s) entity
        else Api.value_at (take (Api.replayed s) (Api.commits s)) entity) = Api.value_at (take m (Api.commits s)) entity).
    { destruct back; [exists (length (Api.commits s)); split; [done|by apply Hfull]|].
      destruct (Hp eq_refl) as (r & Hr & Hle). pose proof (proj1 (Forall_forall _ _) Hrounds r Hr) as Hr'. simpl in Hr'.
      exists (Api.replayed s). split; [lia|done]. }
    destruct Hv as (m & Hm & Hv). destruct (Hshow m _ Hm Hv) as [H1 H2].
    split_and!; [exact H1|exact H2|by intros ->|apply Hst|done].
  - rewrite (Hw _ _ Hs). cbn [Api.value Api.fell_back Api.in_recovery Api.stale Api.commits].
    destruct (Hshow _ _ Hlt (Hfull _ eq_refl)) as [H1 H2].
    split_and!; [exact H1|exact H2|done|apply Hst|done].
Qed.
End ApiRead.

(** ** Witnesses *)

Definition one_behind : Cluster.t :=
  write_all states (Cluster.init [Replica.init "standby" 1]).

Lemma one_behind_ok : cluster_ok one_behind.
Proof.
  unfold one_behind, states. cbn [fmap list_fmap write_all foldl].
  repeat apply cluster_write_ok. apply (cluster_init_ok [("standby"%string, 1%nat)]).
Qed.

Lemma lsn_token_fresh_witness :
  exists v src c', Cluster.read_lsn_token 3 0 "order:7" 8 one_behind = Some ((v, src), c') /\
    Cluster.poll_iterations c' = 2 /\ Cluster.fallbacks c' = 0.
Proof.
  destruct (lsn_token_fresh 3 0 "order:7" 8 one_behind
              (default (Replica.init "" 0) (Cluster.replicas one_behind !! 0%nat)))
    as (v & src & c' & E & _ & _ & _ & H1 & H2).
  - exact one_behind_ok.
  - reflexivity.
  - vm_compute. lia.
  - exists v, src, c'. split; [exact E|]. split; [rewrite H1; reflexivity|rewrite H2; reflexivity].
Defined.

Lemma checker_pinned_silent_witness :
  let log := [(1, "k", "a"); (2, "j", "x"); (3, "k", "b")]%string in
  Checker.violations (read_prefixes log "k" "replica" [0; 1; 2; 2; 3]%nat
    (observe_all false (pairs log) Checker.init)) = [].
Proof.
  apply (checker_pinned_silent _ "k" "replica" [0; 1; 2; 2; 3]%nat).
  - by apply (bool_decide_unpack _).
  - reflexivity.
  - reflexivity.
  - reflexivity.
  - repeat (constructor; [|repeat constructor; lia]). constructor.
Defined.

(** A write, another session's commit, and a standby that has replayed nothing at the first
    poll and the write at the second. *)
Lemma api_reads_own_write_witness :
  let s1 := (Api.write "e" "v" "me" [] (of_Z 0) (Api.mk [] 0 ∅ [])).2 in
  let s := Api.mk (Api.commits (Api.commit "f" "w" s1)) 1 (Api.sessions s1) [] in
  exists r s', Api.read Api.Lsn 1000 2000 "e" "v" "me" (Api.sessions s1) (of_Z 0)
                 [Api.mkRound 0 (of_Z 1); Api.mkRound 1 (of_Z 1)] s = Some (r, s') /\ Api.value r = Some "v"%string.
Proof.
  intros s1 s.
  pose proof (api_reads_own_write Api.Lsn 1000 2000 "e" "v" "v" "me" [] (of_Z 0) (of_Z 0)
    [Api.mkRound 0 (of_Z 1); Api.mkRound 1 (of_Z 1)] (Api.mk [] 0 ∅ []) s1 s) as H.
  destruct (Api.read _ _ _ _ _ _ _ _ _ s) as [[r s']|] eqn:E.
  - exists r, s'. split; [done|]. destruct H as (_ & Hv & _).
    + simpl. lia.
    + apply rtc_refl.
    + eapply rtc_l; [apply (Api.later_commit "me" s1 "f" "w")|]. apply rtc_once.
      apply (Api.later_replay "me" (Api.commit "f" "w" s1) 1). simpl. lia.
    + repeat constructor.
    + by left.
    + apply Hv. intros [|[|i]] v Hi E0; [simpl in Hi; lia|discriminate E0|discriminate E0].
  - exfalso. vm_compute in E. discriminate E.
Defined.

(** Two writes of one session at a time: the entry of the earlier commit is recorded last,
    and the session misses its second write. *)
Example parallel_writes_lose_the_token :
  let s := Api.record "anon" 1 (of_Z 0) (Api.record "anon" 2 (of_Z 0)
             (Api.commit "b" "2" (Api.commit "a" "1" (Api.mk [] 0 ∅ [])))) in
  (fun r => Api.value r.1) <$> Api.read Api.Lsn 1000 2000 "b" "2" "anon" (Api.sessions s) (of_Z 0)
    [Api.mkRound 1 (of_Z 0)] (Api.mk (Api.commits s) 1 (Api.sessions s) []) = Some None.
Proof. by vm_compute. Qed.
