(* ===== verification/LastWrite.v ===== *)
(** * Distributed lab: last write wins, three ways

    Models src/04-distributed/03-clocks-lie/python/lww_writers.py: the three writes ([write_v0] on a
    client's clock, [write_v1] on the database's, [write_v2] by compare-and-set),
    [_apply], [writer_loop] and the query of [main] that counts lost updates.
    Writers interleave between statements, and inside a write between the start of
    the statement, which fixes [now()] and the snapshot, and its turn on the row,
    for which it may wait.  Every turn carries a reading of the one real clock,
    which never goes back; a client's clock is that reading plus the writer's
    offset.  Times are in microseconds. *)

From Stdlib Require Import ZArith Lia.
From stdpp Require Import base option list numbers strings gmap.
From S2P Require Import Prelude.

Open Scope Z_scope.

(** ** Definitions *)

Inductive variant : Type := V0 | V1 | V2.

#[export] Instance variant_eq_dec : EqDecision variant.
Proof. solve_decision. Defined.

(** A row of [lww_items], and one of [lww_write_log]. *)
Record item : Type := mkItem {
  value : string;
  version : Z;
  updated_at : Z;
  writer : string;
  applied_db_ts : Z;
}.

Inductive outcome : Type := Applied | RejectedLww | RejectedCas.

#[export] Instance outcome_eq_dec : EqDecision outcome.
Proof. solve_decision. Defined.

Record log_row : Type := mkLog {
  l_key : string;
  l_writer : string;
  seq : Z;
  client_ts : Z;
  submitted_db_ts : Z;
  executed_db_ts : Z;
  winner_db_ts : option Z;
  l_outcome : outcome;
}.

Record tables : Type := mkTables { items : gmap string item; write_log : list log_row }.

(** What a write carries: its key, value and client time; and once its statement
    has begun, [now()] and the version its snapshot shows. *)
Record request : Type := mkRequest {
  r_key : string;
  r_value : string;
  r_client : Z;
  r_submitted : Z;
}.

Record started : Type := mkStarted { s_now : Z; s_version : option Z }.

(** The statement of each variant, when its turn on the row comes: the row is
    inserted, updated if the [WHERE] of the variant holds of the row that is there
    by then, or left alone. *)
Definition beats (v : variant) (r : request) (st : started) (old : item) : bool :=
  match v with
  | V0 => updated_at old <? r_client r
  | V1 => updated_at old <? s_now st
  | V2 => version old =? default (-1) (s_version st)
  end.

Definition stamp (v : variant) (r : request) (st : started) : Z :=
  match v with V0 => r_client r | V1 | V2 => s_now st end.

Definition write (v : variant) (who : string) (r : request) (st : started) (clock : Z)
    (d : tables) : bool * tables :=
  match items d !! r_key r with
  | None =>
      (true, mkTables (<[r_key r := mkItem (r_value r)
                 (match v with V2 => default 0 (s_version st) + 1 | _ => 0 end)
                 (stamp v r st) who clock]> (items d)) (write_log d))
  | Some old =>
      if beats v r st old
      then (true, mkTables (<[r_key r := mkItem (r_value r)
                     (match v with V2 => version old + 1 | _ => version old end)
                     (stamp v r st) who clock]> (items d)) (write_log d))
      else (false, d)
  end.

Definition rejection (v : variant) : outcome :=
  match v with V2 => RejectedCas | _ => RejectedLww end.

(** Where a writer is in its loop. *)
Inductive place : Type :=
| Ready
| Asked (submitted : Z)
| Submitting (r : request)
| Running (r : request) (st : started)
| Lost (r : request) (executed : Z)
| Logging (r : request) (executed : Z) (winner : option Z) (o : outcome).

Record worker : Type := mkWorker { name : string; offset : Z; next_seq : Z; at_ : place }.

Definition goto (p : place) (w : worker) : worker := mkWorker (name w) (offset w) (next_seq w) p.

(** An applied write, with the version its snapshot showed and the one it left. *)
Inductive event : Type := Wrote (key : string) (seen : option Z) (left : Z).

Section Writers.
Context (v : variant) (key_of : Z -> string) (value_of : string -> Z -> string).

(** One turn of [writer_loop] at a clock reading: read the database's clock, read
    the client's, begin the statement, take the row, and log; after a rejection
    [_apply] reads the winner first. *)
Definition turn (clock : Z) (w : worker) (d : tables) : option event * (worker * tables) :=
  match at_ w with
  | Ready => (None, (mkWorker (name w) (offset w) (next_seq w + 1) (Asked clock), d))
  | Asked submitted =>
      (None, (goto (Submitting (mkRequest (key_of (next_seq w - 1)) (value_of (name w) (next_seq w))
                                 (clock + offset w) submitted)) w, d))
  | Submitting r =>
      (None, (goto (Running r (mkStarted clock (version <$> items d !! r_key r))) w, d))
  | Running r st =>
      let '(applied, d') := write v (name w) r st clock d in
      if applied
      then (Some (Wrote (r_key r) (s_version st) (from_option version 0 (items d' !! r_key r))),
            (goto (Logging r clock None Applied) w, d'))
      else (None, (goto (Lost r clock) w, d'))
  | Lost r executed =>
      (None, (goto (Logging r executed (applied_db_ts <$> items d !! r_key r) (rejection v)) w, d))
  | Logging r executed winner o =>
      (None, (goto Ready w,
              mkTables (items d)
                (write_log d ++ [mkLog (r_key r) (name w) (next_seq w) (r_client r) (r_submitted r)
                                   executed winner o])))
  end.

Record world : Type := mkWorld { db : tables; workers : list worker; time : Z }.

(** A run: who moves, and how much later. *)
Fixpoint run (sched : list (nat * Z)) (w : world) : list event * world :=
  match sched with
  | [] => ([], w)
  | (i, delay) :: rest =>
      let now := time w + Z.max 0 delay in
      match workers w !! i with
      | None => run rest w
      | Some p =>
          let '(ev, (p', d')) := turn now p (db w) in
          let '(evs, w') := run rest (mkWorld d' (<[i := p']> (workers w)) now) in
          (option_list ev ++ evs, w')
      end
  end.
End Writers.

(** The query of [main]: rejected writes that were submitted after the winner had
    been applied, and those that overlapped it. *)
Definition is_lost (l : log_row) : bool :=
  match l_outcome l, winner_db_ts l with
  | RejectedLww, Some t => t <? submitted_db_ts l
  | _, _ => false
  end.

Definition is_concurrent (l : log_row) : bool :=
  match l_outcome l, winner_db_ts l with
  | RejectedLww, Some t => submitted_db_ts l <=? t
  | _, _ => false
  end.

Definition lost (d : tables) : nat := length (List.filter is_lost (write_log d)).
Definition concurrent (d : tables) : nat := length (List.filter is_concurrent (write_log d)).

Definition starting (w : world) : Prop :=
  items (db w) = ∅ /\ write_log (db w) = [] /\ Forall (fun p => at_ p = Ready) (workers w).

(** ** Lemmas *)

(** The clock a variant compares is the real one: the database's, or a client's
    without offset. *)
Definition one_clock (v : variant) (w : world) : Prop :=
  match v with V0 => Forall (fun p => offset p = 0) (workers w) | _ => True end.

(** A write is stamped no earlier than it was submitted, and the row it would
    lose to was then applied no earlier either. *)
Definition place_ok (v : variant) (now : Z) (d : tables) (p : place) : Prop :=
  match p with
  | Ready => True
  | Asked submitted => submitted <= now
  | Submitting r => r_submitted r <= now /\ (v = V0 -> r_submitted r <= r_client r <= now)
  | Running r st =>
      r_submitted r <= s_now st <= now /\ (v = V0 -> r_submitted r <= r_client r <= now)
  | Lost r _ => v <> V2 -> exists it, items d !! r_key r = Some it /\ r_submitted r <= applied_db_ts it
  | Logging r _ winner o => o = RejectedLww -> forall t, winner = Some t -> r_submitted r <= t
  end.

Record fair (v : variant) (w : world) : Prop := {
  fair_clock : one_clock v w;
  fair_items : forall k it, items (db w) !! k = Some it ->
    applied_db_ts it <= time w /\ (v <> V2 -> updated_at it <= applied_db_ts it);
  fair_places : Forall (fun p => place_ok v (time w) (db w) (at_ p)) (workers w);
  fair_log : Forall (fun l => is_lost l = false) (write_log (db w));
}.

(** Time passes and rows are only replaced by later ones. *)
Lemma place_ok_later (v : variant) (now now' : Z) (d d' : tables) (p : place) :
  now <= now' ->
  (forall k it, items d !! k = Some it ->
     exists it', items d' !! k = Some it' /\ applied_db_ts it <= applied_db_ts it') ->
  place_ok v now d p -> place_ok v now' d' p.
Proof.
  intros Hn Hd. destruct p as [|t|r|r st|r t|r t wi o]; simpl; try done; try lia.
  - intros [H1 H2]. split; [lia|]. intros Hv. specialize (H2 Hv). lia.
  - intros [H1 H2]. split; [lia|]. intros Hv. specialize (H2 Hv). lia.
  - intros H Hv. destruct (H Hv) as (it & Hi & Hs). destruct (Hd _ _ Hi) as (it' & Hi' & ?).
    exists it'. split; [done|lia].
Qed.

Lemma one_clock_insert (v : variant) (i : nat) (p p' : worker) (w : world) (d' : tables) (t : Z) :
  workers w !! i = Some p -> offset p' = offset p -> one_clock v w ->
  one_clock v (mkWorld d' (<[i := p']> (workers w)) t).
Proof.
  intros Hi Ho. unfold one_clock. destruct v; [|done|done]. intros H. simpl.
  apply Forall_insert; [done|]. rewrite Ho. by apply (proj1 (Forall_lookup _ _) H i p).
Qed.

Lemma turn_offset (v : variant) (ko : Z -> string) (vo : string -> Z -> string) (now : Z)
    (p : worker) (d : tables) :
  offset (turn v ko vo now p d).2.1 = offset p /\ name (turn v ko vo now p d).2.1 = name p.
Proof.
  unfold turn. destruct (at_ p); try done. destruct (write _ _ _ _ _ _) as [[] d']; done.
Qed.

(** The row taken: it is newer, and a rejection names a row no older than the
    request. *)
Lemma write_cases (v : variant) (who : string) (r : request) (st : started) (clock : Z)
    (d : tables) :
  let '(applied, d') := write v who r st clock d in
  write_log d' = write_log d /\
  if applied
  then exists it, items d' = <[r_key r := it]> (items d) /\ applied_db_ts it = clock /\
         updated_at it = stamp v r st
  else d' = d /\ exists old, items d !! r_key r = Some old /\ beats v r st old = false.
Proof.
  unfold write. destruct (items d !! r_key r) as [old|] eqn:E.
  - destruct (beats v r st old) eqn:B; simpl; (split; [done|]); eauto.
  - simpl. split; [done|]. eauto.
Qed.

(** What a worker's move has to show: that rows only get later, that they are
    stamped before they are applied, and its own place and log. *)
Lemma fair_move (v : variant) (i : nat) (now : Z) (p p' : worker) (w : world) (d' : tables) :
  fair v w -> workers w !! i = Some p -> offset p' = offset p -> time w <= now ->
  (forall k it, items (db w) !! k = Some it ->
     exists it', items d' !! k = Some it' /\ applied_db_ts it <= applied_db_ts it') ->
  (forall k it, items d' !! k = Some it ->
     applied_db_ts it <= now /\ (v <> V2 -> updated_at it <= applied_db_ts it)) ->
  place_ok v now d' (at_ p') -> Forall (fun l => is_lost l = false) (write_log d') ->
  fair v (mkWorld d' (<[i := p']> (workers w)) now).
Proof.
  intros [F1 F2 F3 F4] Hi Ho Hn H1 H2 H3 H4. split; try done; [by eapply one_clock_insert|].
  simpl. apply Forall_insert; [|done]. eapply Forall_impl; [exact F3|]. intros q. by apply place_ok_later.
Qed.

(** A move that leaves the rows alone. *)
Lemma fair_stay (v : variant) (i : nat) (now : Z) (p p' : worker) (w : world) (log : list log_row) :
  fair v w -> workers w !! i = Some p -> offset p' = offset p -> time w <= now ->
  let d' := mkTables (items (db w)) log in
  place_ok v now d' (at_ p') -> Forall (fun l => is_lost l = false) log ->
  fair v (mkWorld d' (<[i := p']> (workers w)) now).
Proof.
  intros Hw Hi Ho Hn d' Hp Hl. apply fair_move with p; try done.
  - intros k it Hk. exists it. split; [done|lia].
  - intros k it Hk. destruct (fair_items v w Hw k it Hk). split; [lia|done].
Qed.

(** The write itself. *)
Lemma fair_write (v : variant) (i : nat) (now : Z) (p : worker) (r : request) (st : started) (w : world) :
  fair v w -> workers w !! i = Some p -> time w <= now -> place_ok v (time w) (db w) (Running r st) ->
  let '(applied, d') := write v (name p) r st now (db w) in
  fair v (mkWorld d' (<[i := goto (if applied then Logging r now None Applied else Lost r now) p]> (workers w)) now).
Proof.
  intros Hw Hi Hn Hp. pose proof Hw as [_ F2 _ F4].
  pose proof (write_cases v (name p) r st now (db w)) as Hc.
  destruct (write v (name p) r st now (db w)) as [[] d1].
  - destruct Hc as (Hl & it & Hit & Ha & Hu). apply fair_move with p; try done; [..|by rewrite Hl].
    + intros k old Hk. rewrite Hit. destruct (decide (k = r_key r)) as [->|];
        [|rewrite lookup_insert_ne by done; exists old; split; [done|lia]].
      rewrite lookup_insert_eq. exists it. split; [done|]. destruct (F2 _ _ Hk). lia.
    + intros k it' Hk. rewrite Hit in Hk. apply lookup_insert_Some in Hk as [[<- <-]|[_ Hk]];
        [|destruct (F2 _ _ Hk); split; [lia|done]].
      rewrite Ha, Hu. split; [lia|]. intros Hv2. unfold stamp.
      destruct v; [destruct Hp as [_ Hp]; specialize (Hp eq_refl); lia|destruct Hp; lia|done].
  - destruct Hc as (_ & -> & old & Hold & Hb). destruct (db w) as [its log] eqn:Ed.
    rewrite <- Ed in F4 |- *. replace (db w) with (mkTables (items (db w)) (write_log (db w))) by (by destruct (db w)).
    apply fair_stay with p; try done. rewrite Ed. simpl. intros Hv. exists old. split; [done|].
    destruct (F2 _ _ Hold) as [_ Hu]. specialize (Hu Hv). unfold beats in Hb.
    destruct v; [destruct Hp as [_ Hp]; specialize (Hp eq_refl); to_props; lia|to_props; destruct Hp; lia|done].
Qed.

Lemma fair_turn (v : variant) (ko : Z -> string) (vo : string -> Z -> string) (i : nat) (now : Z)
    (p : worker) (w : world) :
  fair v w -> workers w !! i = Some p -> time w <= now ->
  let '(_, (p', d')) := turn v ko vo now p (db w) in
  fair v (mkWorld d' (<[i := p']> (workers w)) now).
Proof.
  intros Hw Hi Hn. pose proof Hw as [F1 F2 F3 F4].
  pose proof (proj1 (Forall_lookup _ _) F3 i p Hi) as Hp. simpl in Hp.
  assert (Hoff : v = V0 -> offset p = 0).
  { intros ->. exact (proj1 (Forall_lookup _ _) F1 i p Hi). }
  assert (Hstay : forall p' log, offset p' = offset p -> place_ok v now (db w) (at_ p') ->
    Forall (fun l => is_lost l = false) log ->
    fair v (mkWorld (mkTables (items (db w)) log) (<[i := p']> (workers w)) now)).
  { intros p' log Ho H1 H2. apply fair_stay with p; try done. }
  assert (Hdb : db w = mkTables (items (db w)) (write_log (db w))) by (by destruct (db w)).
  unfold turn. destruct (at_ p) as [|t|r|r st|r t|r t wi o]; simpl in Hp.
  - rewrite Hdb. apply Hstay; [done| |done]. simpl. lia.
  - rewrite Hdb. apply Hstay; [done| |done]. simpl. split; [lia|]. intros Hv. rewrite (Hoff Hv). lia.
  - rewrite Hdb. apply Hstay; [done| |done]. simpl. split; [lia|].
    intros Hv. destruct Hp as [_ Hp]. specialize (Hp Hv). lia.
  - pose proof (fair_write v i now p r st w Hw Hi Hn Hp) as H.
    by destruct (write v (name p) r st now (db w)) as [[] d1].
  - rewrite Hdb. apply Hstay; [done| |done]. simpl. intros Hv t' Ht'.
    destruct Hp as (it & Hit & Hs); [by destruct v|]. rewrite Hit in Ht'. by injection Ht' as <-.
  - apply Hstay; [done|done|]. apply Forall_app. split; [done|]. constructor; [|constructor].
    unfold is_lost. simpl. destruct o; [done| |done]. destruct wi as [t'|]; [|done].
    specialize (Hp eq_refl t' eq_refl). lia.
Qed.

Lemma fair_run (v : variant) (ko : Z -> string) (vo : string -> Z -> string)
    (sched : list (nat * Z)) (w : world) :
  fair v w -> fair v (run v ko vo sched w).2.
Proof.
  revert w. induction sched as [|[i delay] sched IH]; intros w Hw; [done|]. simpl.
  destruct (workers w !! i) as [p|] eqn:Hi; [|by apply IH].
  pose proof (fair_turn v ko vo i (time w + Z.max 0 delay) p w Hw Hi ltac:(lia)) as H.
  destruct (turn v ko vo _ p (db w)) as [ev [p' d']]. specialize (IH _ H).
  by destruct (run v ko vo sched _).
Qed.

Lemma no_lost (d : tables) : Forall (fun l => is_lost l = false) (write_log d) -> lost d = 0%nat.
Proof.
  unfold lost. induction 1 as [|l ls H _ IH]; [done|]. simpl. by rewrite H.
Qed.

(** *** Compare and set *)

(** The versions of a key an applied write saw and left. *)
Definition chain_of (key : string) (evs : list event) : list (option Z * Z) :=
  omap (fun '(Wrote k seen left_) => if bool_decide (k = key) then Some (seen, left_) else None) evs.

(** From version [n], [None] before the first write, each write saw the version
    the one before it left. *)
Fixpoint chained (n : option Z) (l : list (option Z * Z)) : Prop :=
  match l with
  | [] => True
  | (seen, left_) :: l' => seen = n /\ left_ = default 0 n + 1 /\ chained (Some left_) l'
  end.

Definition version_at (key : string) (d : tables) : option Z := version <$> items d !! key.

(** A snapshot is a version the key has had. *)
Definition snapshot_ok (d : tables) (p : place) : Prop :=
  match p with
  | Running r st => forall s, s_version st = Some s ->
      exists n, version_at (r_key r) d = Some n /\ s <= n
  | _ => True
  end.

Record counted (w : world) : Prop := {
  counted_pos : forall k n, version_at k (db w) = Some n -> 1 <= n;
  counted_places : Forall (fun p => snapshot_ok (db w) (at_ p)) (workers w);
}.

(** Versions only grow. *)
Lemma snapshot_later (d d' : tables) (p : place) :
  (forall k n, version_at k d = Some n -> exists n', version_at k d' = Some n' /\ n <= n') ->
  snapshot_ok d p -> snapshot_ok d' p.
Proof.
  intros Hd. destruct p; simpl; try done. intros H s Hs. destruct (H s Hs) as (n & Hn & Hle).
  destruct (Hd _ _ Hn) as (n' & Hn' & ?). exists n'. split; [done|lia].
Qed.

(** A write of v2 that applies: the row of its key goes one version up, the others
    stay. *)
Lemma counted_put (i : nat) (p' : worker) (now : Z) (k : string) (it : item) (log : list log_row) (w : world) :
  counted w -> version it = default 0 (version_at k (db w)) + 1 ->
  let d' := mkTables (<[k := it]> (items (db w))) log in
  snapshot_ok d' (at_ p') ->
  counted (mkWorld d' (<[i := p']> (workers w)) now) /\ version_at k d' = Some (version it) /\
  forall k', k' <> k -> version_at k' d' = version_at k' (db w).
Proof.
  intros [C1 C2] Hv d' Hp'.
  assert (Hk : version_at k d' = Some (version it)) by (unfold version_at, d'; simpl; by rewrite lookup_insert_eq).
  assert (Hother : forall k', k' <> k -> version_at k' d' = version_at k' (db w))
    by (intros k' Hne; unfold version_at, d'; simpl; by rewrite lookup_insert_ne).
  split_and!; [|done|done]. split; cbn [db workers].
  - intros k' n Hn. destruct (decide (k' = k)) as [->|Hne]; [|rewrite Hother in Hn by done; by eapply C1].
    rewrite Hk in Hn. injection Hn as <-. rewrite Hv.
    destruct (version_at k (db w)) as [m|] eqn:Em; simpl; [specialize (C1 k m Em)|]; lia.
  - apply Forall_insert; [|done]. eapply Forall_impl; [exact C2|]. intros q. apply snapshot_later.
    intros k' n Hn. destruct (decide (k' = k)) as [->|Hne]; [|exists n; rewrite Hother by done; split; [done|lia]].
    exists (version it). split; [done|]. rewrite Hv, Hn. simpl. lia.
Qed.

(** The turn of v2 on the row: either it applies over the version its snapshot
    showed, or nothing changes. *)
Lemma write_v2_cases (who : string) (r : request) (st : started) (now : Z) (w : world) :
  counted w -> snapshot_ok (db w) (Running r st) ->
  write V2 who r st now (db w) = (false, db w) \/
  exists it, s_version st = version_at (r_key r) (db w) /\
    version it = default 0 (version_at (r_key r) (db w)) + 1 /\
    write V2 who r st now (db w) = (true, mkTables (<[r_key r := it]> (items (db w))) (write_log (db w))).
Proof.
  intros [C1 _] Hp. unfold write. destruct (items (db w) !! r_key r) as [old|] eqn:E.
  - assert (Hv : version_at (r_key r) (db w) = Some (version old)) by (unfold version_at; by rewrite E).
    pose proof (C1 _ _ Hv) as Hpos. unfold beats.
    destruct (version old =? default (-1) (s_version st)) eqn:B; [right|by left].
    to_props. destruct (s_version st) as [s|]; simpl in B; [|lia]. subst s.
    eexists. rewrite Hv. split_and!; [done| |done]. done.
  - assert (Hv : version_at (r_key r) (db w) = None) by (unfold version_at; by rewrite E).
    right. destruct (s_version st) as [s|] eqn:Es.
    { destruct (Hp s Es) as (n & Hn & _). congruence. }
    eexists. rewrite Hv. split_and!; [done| |done]. done.
Qed.

(** A turn of v2 keeps the count, and its event says what became of the versions. *)
Lemma counted_turn (ko : Z -> string) (vo : string -> Z -> string) (i : nat) (now : Z)
    (p : worker) (w : world) :
  counted w -> workers w !! i = Some p ->
  let '(ev, (p', d')) := turn V2 ko vo now p (db w) in
  counted (mkWorld d' (<[i := p']> (workers w)) now) /\
  match ev with
  | Some (Wrote k seen left_) =>
      seen = version_at k (db w) /\ left_ = default 0 seen + 1 /\ version_at k d' = Some left_ /\
      forall k', k' <> k -> version_at k' d' = version_at k' (db w)
  | None => forall k, version_at k d' = version_at k (db w)
  end.
Proof.
  intros Hw Hi. pose proof Hw as [C1 C2]. pose proof (proj1 (Forall_lookup _ _) C2 i p Hi) as Hp. simpl in Hp.
  assert (Hsame : forall p', snapshot_ok (db w) (at_ p') ->
    counted (mkWorld (db w) (<[i := p']> (workers w)) now)).
  { intros p' Hp'. split; [exact C1|]. by apply Forall_insert. }
  unfold turn. destruct (at_ p) as [|t|r|r st|r t|r t wi o]; simpl in Hp;
    try (split; [by apply Hsame|done]).
  - split; [|done]. apply Hsame. simpl. intros s Hs. exists s. split; [exact Hs|lia].
  - destruct (write_v2_cases (name p) r st now w Hw Hp) as [-> | (it & Hs & Hv & ->)];
      [by split; [apply Hsame|]|].
    destruct (counted_put i (goto (Logging r now None Applied) p) now (r_key r) it (write_log (db w)) w Hw Hv I)
      as (Hc & Hk & Hother).
    cbn [items]. rewrite lookup_insert_eq. simpl from_option. rewrite Hs, Hv. split; [exact Hc|].
    split_and!; [done|done| |exact Hother]. rewrite Hk. by rewrite Hv.
  - split; [|done]. split; [exact C1|]. simpl. by apply Forall_insert.
Qed.

(** ** Properties *)

(** One clock loses nothing.  In every run of v1, and in every run of v0 whose
    writers' clocks have no offset, no write is rejected in favour of one that had
    been applied before it was submitted. *)
Theorem one_clock_loses_nothing (v : variant) (ko : Z -> string) (vo : string -> Z -> string)
    (sched : list (nat * Z)) (w : world) :
  starting w -> one_clock v w -> lost (db (run v ko vo sched w).2) = 0%nat.
Proof.
  intros (Hi & Hl & Hp) Hc. apply no_lost, fair_log with v, fair_run. split; [done| | |].
  - intros k it. by rewrite Hi, lookup_empty.
  - eapply Forall_impl; [exact Hp|]. intros p ->. done.
  - by rewrite Hl.
Qed.

(** Two writers of one key, the second's clock ahead: it writes at time 0, the
    first submits a microsecond later. *)
Definition skewed (offset_us : Z) : world :=
  mkWorld (mkTables ∅ []) [mkWorker "writer-a" 0 0 Ready; mkWorker "writer-b" offset_us 0 Ready] 0.

Definition skew_schedule : list (nat * Z) :=
  map (pair 1%nat) [0; 0; 0; 0; 0] ++ map (pair 0%nat) [1; 0; 0; 0; 0; 0].

(** For any positive offset of one writer's clock, v0 has a run in which the
    other writer submits a microsecond after the first write was applied, and is
    rejected: an update is lost.  The same run loses nothing in v1 and v2. *)
Theorem skewed_clock_loses_update (vo : string -> Z -> string) (offset_us : Z) :
  0 < offset_us ->
  lost (db (run V0 (fun _ => "k00"%string) vo skew_schedule (skewed offset_us)).2) = 1%nat /\
  lost (db (run V1 (fun _ => "k00"%string) vo skew_schedule (skewed offset_us)).2) = 0%nat /\
  lost (db (run V2 (fun _ => "k00"%string) vo skew_schedule (skewed offset_us)).2) = 0%nat.
Proof.
  intros Ho. destruct offset_us as [|[p|p|]|p]; try done; vm_compute; done.
Qed.

(** The versions [counted_turn] tracks, over a whole run. *)
Lemma chain_run (ko : Z -> string) (vo : string -> Z -> string) (key : string)
    (sched : list (nat * Z)) (w : world) :
  counted w -> chained (version_at key (db w)) (chain_of key (run V2 ko vo sched w).1).
Proof.
  revert w. induction sched as [|[i delay] sched IH]; intros w Hw; [done|]. simpl.
  destruct (workers w !! i) as [p|] eqn:Hi; [|by apply IH].
  pose proof (counted_turn ko vo i (time w + Z.max 0 delay) p w Hw Hi) as H.
  destruct (turn V2 ko vo _ p (db w)) as [ev [p' d']]. destruct H as [Hc Hev].
  specialize (IH _ Hc). simpl in IH.
  destruct (run V2 ko vo sched _) as [evs w'] eqn:E. simpl in IH |- *.
  destruct ev as [[k seen left_]|]; simpl; [|by rewrite <- (Hev key)].
  destruct Hev as (-> & -> & Hk & Hother). case_bool_decide as Hkey; simpl.
  - subst k. split_and!; [done|done|]. by rewrite <- Hk.
  - by rewrite <- (Hother key) by done.
Qed.

(** C20: Compare-and-set applies a write only over the version it read.  In every
    run of v2 the applied writes of a key form a chain: the first found no row,
    each later one saw exactly the version its predecessor left, and left the next
    one; so no applied write overwrote one it had not seen. *)
Theorem cas_never_overwrites_unseen (ko : Z -> string) (vo : string -> Z -> string)
    (key : string) (sched : list (nat * Z)) (w : world) :
  starting w -> chained None (chain_of key (run V2 ko vo sched w).1).
Proof.
  intros (Hi & Hl & Hp).
  assert (Hv : forall k, version_at k (db w) = None) by (intros k; unfold version_at; by rewrite Hi).
  rewrite <- (Hv key). apply chain_run. split; [intros k n; by rewrite Hv|].
  eapply Forall_impl; [exact Hp|]. by intros p ->.
Qed.

Lemma starting_skewed (offset_us : Z) : starting (skewed offset_us).
Proof. split_and!; [done|done|]. by repeat constructor. Qed.

Definition one_key (_ : Z) : string := "k00".
Definition plain_value (who : string) (_ : Z) : string := who.

Lemma one_clock_loses_nothing_witness :
  lost (db (run V1 one_key plain_value skew_schedule (skewed 250000)).2) = 0%nat /\
  lost (db (run V0 one_key plain_value skew_schedule (skewed 0)).2) = 0%nat.
Proof.
  split; apply one_clock_loses_nothing; try apply starting_skewed; [exact I|].
  by repeat constructor.
Defined.

Lemma skewed_clock_loses_update_witness :
  lost (db (run V0 (fun _ => "k00"%string) plain_value skew_schedule (skewed 250000)).2) = 1%nat.
Proof. apply (skewed_clock_loses_update plain_value 250000). lia. Defined.

Lemma cas_never_overwrites_unseen_witness :
  chained None (chain_of "k00" (run V2 one_key plain_value skew_schedule (skewed 0)).1) /\
  chain_of "k00" (run V2 one_key plain_value skew_schedule (skewed 0)).1 = [(None, 1); (Some 1, 2)].
Proof.
  split; [apply cas_never_overwrites_unseen, starting_skewed|vm_compute; reflexivity].
Defined.
