(* ===== verification/Ambiguous.v ===== *)
(** * Distributed lab: the ambiguous result

    A remote call has a third outcome: the caller does not know.  [Demo] models
    src/04-distributed/01-partial-failure-and-the-ambiguous-result/python/ambiguous_result.py:
    the ledger server of five faults, [classify], and a phase of the client with or
    without retries of ambiguous errors.  [Service] models the same experiment as
    two services, docker/services/app/payments1.py and ledger.py, with the queries
    of sql/topic1_reconcile.sql.

    The HTTP client is a library the sources call: what it makes of each way a
    server can behave is the interface [Transport], with its documented behaviour
    as laws.  In [Service] the network is an adversary that picks a [fate] for each
    attempt, and only two laws bind it. *)

From Stdlib Require Import ZArith Lia Ascii.
From stdpp Require Import base option list numbers strings sets.
From S2P Require Import Prelude PyText.

Open Scope Z_scope.

(** ** Definitions *)

(** The exceptions of httpx the code names, and any other. *)
Inductive error : Type :=
| PoolTimeout | ConnectError | ConnectTimeout | ReadTimeout | WriteTimeout
| RemoteProtocolError | ReadError
| OtherError (name : string).

#[export] Instance error_eq_dec : EqDecision error.
Proof. solve_decision. Defined.

(** [type(exc).__name__]. *)
Definition class_name (e : error) : string :=
  match e with
  | PoolTimeout => "PoolTimeout"
  | ConnectError => "ConnectError"
  | ConnectTimeout => "ConnectTimeout"
  | ReadTimeout => "ReadTimeout"
  | WriteTimeout => "WriteTimeout"
  | RemoteProtocolError => "RemoteProtocolError"
  | ReadError => "ReadError"
  | OtherError n => n
  end.

(** What a call of the client ends in. *)
Inductive answer : Type := Response (status : Z) | Raised (e : error).

(** [s.split(sep, max)] for a separator of one character. *)
Fixpoint partition (sep : ascii) (s : string) : option (string * string) :=
  match s with
  | EmptyString => None
  | String c s' =>
      if Ascii.eqb c sep then Some (EmptyString, s')
      else match partition sep s' with
           | Some (a, b) => Some (String c a, b)
           | None => None
           end
  end.

Fixpoint split (sep : ascii) (max : nat) (s : string) : list string :=
  match max with
  | O => [s]
  | S m => match partition sep s with None => [s] | Some (a, b) => a :: split sep m b end
  end.

Definition quote : string := String "034" EmptyString.
Definition crlf : string := String "013" (String "010" EmptyString).

Module Demo.

(** *** The ledger and its server *)

Definition commit (charge_id : string) (rows : list string) : list string := rows ++ [charge_id].

(** What the server does with a connection: reply, reply after [SLOW_RESPONSE],
    hold it open, reset it, or close it without a byte. *)
Inductive behaviour : Type :=
| Replies (bytes : string)
| RepliesLate (bytes : string)
| Holds
| Resets
| Closes.

Definition _reply (charge_id status : string) : string :=
  let body := "{" +:+ quote +:+ "charge_id" +:+ quote +:+ ":" +:+ quote +:+ charge_id +:+ quote +:+ "}" in
  "HTTP/1.1 " +:+ status +:+ crlf
  +:+ "Content-Type: application/json" +:+ crlf
  +:+ "Content-Length: " +:+ str_Z (Z.of_nat (String.length body)) +:+ crlf
  +:+ "Connection: close" +:+ crlf +:+ crlf
  +:+ body.

(** [request] is what [conn.recv] returned.  A request that does not unpack raises;
    the exception is swallowed and the connection closed, as for an empty one. *)
Definition _serve (request : string) (rows : list string) : list string * behaviour :=
  match split " " 2 request with
  | _ :: path :: _ =>
      match split "/" 3 path with
      | [_; _; mode; charge_id] =>
          if (mode =? "ok")%string then (commit charge_id rows, Replies (_reply charge_id "200 OK"))
          else if (mode =? "slow")%string
               then (commit charge_id rows, RepliesLate (_reply charge_id "200 OK"))
          else if (mode =? "hang")%string then (commit charge_id rows, Holds)
          else if (mode =? "reset")%string then (commit charge_id rows, Resets)
          else if (mode =? "crash_after_commit")%string then (commit charge_id rows, Closes)
          else (rows, Replies (_reply charge_id "400 Bad Request"))
      | _ => (rows, Closes)
      end
  | _ => (rows, Closes)
  end.

(** *** The client *)

Inductive verdict : Type := SUCCESS | SAFE | AMBIGUOUS.

#[export] Instance verdict_eq_dec : EqDecision verdict.
Proof. solve_decision. Defined.

Definition SAFE_TO_RETRY : list error := [ConnectError; ConnectTimeout].
Definition AMBIGUOUS_ERRORS : list error :=
  [ReadTimeout; WriteTimeout; RemoteProtocolError; ReadError; PoolTimeout].

Definition classify (e : error) : verdict * string :=
  if bool_decide (e = PoolTimeout) then (SAFE, "PoolTimeout"%string)
  else if bool_decide (e ∈ SAFE_TO_RETRY) then (SAFE, class_name e)
  else if bool_decide (e ∈ AMBIGUOUS_ERRORS) then (AMBIGUOUS, class_name e)
  else (AMBIGUOUS, class_name e).

Definition attempt (a : answer) : verdict * string :=
  match a with
  | Response code => (SUCCESS, str_Z code)
  | Raised e => classify e
  end.

Definition MODES : list string :=
  ["ok"; "slow"; "hang"; "reset"; "crash_after_commit"; "refused"]%string.

(** A path that goes over the wire as it is. *)
Definition plain (s : string) : Prop := all_chars (fun c => c <> " "%char) s.

(** The client library and the network between them and the server: the bytes a
    GET of a path arrives as, and what the caller sees of each behaviour. *)
Class Transport : Type := {
  wire : string -> string;
  sees : behaviour -> answer;
  nobody_listens : answer;
  wire_get : forall path, plain path -> exists rest, wire path = "GET " +:+ path +:+ " " +:+ rest;
  sees_reply : forall id, sees (Replies (_reply id "200 OK")) = Response 200;
  sees_late : forall bytes, sees (RepliesLate bytes) = Raised ReadTimeout;
  sees_silence : sees Holds = Raised ReadTimeout;
  sees_reset : sees Resets = Raised ReadError \/ sees Resets = Raised RemoteProtocolError;
  sees_close : sees Closes = Raised RemoteProtocolError \/ sees Closes = Raised ReadError;
  sees_refused : nobody_listens = Raised ConnectError;
}.

Section Client.
Context `{Transport} (REQUESTS_PER_MODE MAX_ATTEMPTS : nat) (retry_ambiguous : bool).

(** One GET, on the server's port or on the closed one. *)
Definition get_charge (mode charge_id : string) (rows : list string) : list string * answer :=
  if (mode =? "refused")%string then (rows, nobody_listens)
  else let '(rows', b) := _serve (wire ("/charge/" +:+ mode +:+ "/" +:+ charge_id)) rows in
       (rows', sees b).

(** [for _ in range(MAX_ATTEMPTS)]: the last verdict, the attempts made. *)
Fixpoint tries (n : nat) (mode charge_id : string) (last : option (verdict * string))
    (attempts : nat) (rows : list string) : option (verdict * string) * nat * list string :=
  match n with
  | O => (last, attempts, rows)
  | S n' =>
      let '(rows', a) := get_charge mode charge_id rows in
      let '(v, label) := attempt a in
      match v with
      | SUCCESS => (Some (v, label), S attempts, rows')
      | SAFE => tries n' mode charge_id (Some (v, label)) (S attempts) rows'
      | AMBIGUOUS =>
          if retry_ambiguous then tries n' mode charge_id (Some (v, label)) (S attempts) rows'
          else (Some (v, label), S attempts, rows')
      end
  end.

Definition charge_id_of (name mode : string) (i : nat) : string :=
  String.substring 0 2 name +:+ "-" +:+ mode +:+ "-" +:+ str_Z (Z.of_nat i).

(** The requests of one mode: the final verdicts, the attempts, the ledger. *)
Fixpoint mode_pass (idx : list nat) (name mode : string) (verdicts : list (verdict * string))
    (attempts : nat) (rows : list string) : list (verdict * string) * nat * list string :=
  match idx with
  | [] => (verdicts, attempts, rows)
  | i :: idx' =>
      let '(last, attempts', rows') := tries MAX_ATTEMPTS mode (charge_id_of name mode i) None attempts rows in
      mode_pass idx' name mode (verdicts ++ option_list last) attempts' rows'
  end.

Fixpoint modes_pass (modes : list string) (name : string) (rows : list string) :
    list (list (verdict * string) * nat) * list string :=
  match modes with
  | [] => ([], rows)
  | mode :: modes' =>
      let '(verdicts, attempts, rows') := mode_pass (seq 0 REQUESTS_PER_MODE) name mode [] 0 rows in
      let '(rest, rows'') := modes_pass modes' name rows' in
      ((verdicts, attempts) :: rest, rows'')
  end.

(** [sum(n - 1 for n in Counter(rows).values() if n > 1)]. *)
Definition count (k : string) (rows : list string) : nat := length (List.filter (String.eqb k) rows).
Definition duplicates (rows : list string) : nat :=
  sum_list ((fun k => count k rows - 1)%nat <$> remove_dups rows).

Definition is_ambiguous (v : verdict * string) : bool :=
  match v.1 with AMBIGUOUS => true | _ => false end.

(** [run_phase]: the duplicates, the unresolved, the rows, and the ledger after. *)
Definition run_phase (name : string) (ledger : list string) : (nat * nat * nat) * list string :=
  let '(per_mode, ledger') := modes_pass MODES name ledger in
  let rows := drop (length ledger) ledger' in
  ((duplicates rows,
    sum_list ((fun r => length (List.filter is_ambiguous r.1)) <$> per_mode),
    length rows), ledger').
End Client.
End Demo.

(** ** Lemmas *)

Lemma all_chars_app (p : ascii -> Prop) (s t : string) :
  all_chars p s -> all_chars p t -> all_chars p (s +:+ t).
Proof. induction s as [|c s IH]; simpl; [done|]. intros [Hc Hs] Ht. split; [done|by apply IH]. Qed.

Lemma partition_app (sep : ascii) (a b : string) :
  all_chars (fun c => c <> sep) a -> partition sep (a +:+ String sep b) = Some (a, b).
Proof.
  induction a as [|c a IH]; simpl; [by rewrite Ascii.eqb_refl|]. intros [Hc Ha].
  destruct (Ascii.eqb_spec c sep); [done|]. by rewrite (IH Ha).
Qed.

Lemma split_app (sep : ascii) (m : nat) (a b : string) :
  all_chars (fun c => c <> sep) a -> split sep (S m) (a +:+ String sep b) = a :: split sep m b.
Proof. intros Ha. cbn [split]. by rewrite partition_app. Qed.

Lemma str_append_inj (a b c : string) : a +:+ b = a +:+ c -> b = c.
Proof. induction a as [|x a IH]; [done|]. simpl. intros [= H]. by apply IH. Qed.

Lemma str_Z_inj (x y : Z) : str_Z x = str_Z y -> x = y.
Proof. intros H. apply (f_equal parse_int) in H. rewrite !parse_int_str in H. by injection H. Qed.

Module DemoFacts.
Import Demo.

(** One goal per mode. *)
Ltac each_mode H :=
  unfold MODES in H; repeat apply elem_of_cons in H as [->|H]; try (by apply elem_of_nil in H).

Lemma plain_str_nat (i : nat) : plain (str_Z (Z.of_nat i)).
Proof.
  unfold plain, str_Z. destruct (Z.ltb_spec (Z.of_nat i) 0); [lia|].
  eapply all_chars_impl; [|apply pretty_digits]. simpl. intros c Hc ->.
  apply digit_range in Hc. by vm_compute in Hc; destruct Hc.
Qed.

Lemma plain_charge_id (name mode : string) (i : nat) :
  plain (String.substring 0 2 name) -> mode ∈ MODES -> plain (charge_id_of name mode i).
Proof.
  intros Hn Hm. unfold charge_id_of. repeat apply all_chars_app; [exact Hn|by simpl|..|by simpl|apply plain_str_nat].
  each_mode Hm; by simpl.
Qed.

(** Different requests of a phase have different charge ids. *)
Lemma charge_id_inj (name m m' : string) (i i' : nat) :
  m ∈ MODES -> m' ∈ MODES -> charge_id_of name m i = charge_id_of name m' i' -> m = m' /\ i = i'.
Proof.
  intros Hm Hm' H. unfold charge_id_of in H. apply str_append_inj, (str_append_inj "-") in H.
  each_mode Hm; each_mode Hm'; try done; apply str_append_inj, (str_append_inj "-"), str_Z_inj in H;
    (split; [done|lia]).
Qed.

(** *** Duplicates *)

Lemma sum_bump (f g : string -> nat) (x : string) (ks : list string) :
  NoDup ks -> x ∈ ks -> f x = S (g x) -> (forall k, k <> x -> f k = g k) ->
  sum_list (f <$> ks) = S (sum_list (g <$> ks)).
Proof.
  intros Hnd Hin Hx Hother. induction Hnd as [|k ks Hk Hnd IH]; [by apply elem_of_nil in Hin|].
  csimpl. apply elem_of_cons in Hin as [<-|Hin].
  - rewrite Hx. assert (f <$> ks = g <$> ks) as ->; [|lia].
    apply list_fmap_ext. intros j y Hy. apply Hother. intros ->. by apply list_elem_of_lookup_2 in Hy.
  - rewrite (IH Hin), Hother; [lia|]. intros ->. done.
Qed.

Lemma count_pos (x : string) (l : list string) : x ∈ l -> (1 <= count x l)%nat.
Proof.
  unfold count. induction l as [|y l IH]; [by intros ?%elem_of_nil|]. intros H. simpl.
  apply elem_of_cons in H as [->|H]; [rewrite String.eqb_refl; simpl; lia|].
  specialize (IH H). destruct (x =? y)%string; simpl; lia.
Qed.

Lemma count_zero (x : string) (l : list string) : x ∉ l -> count x l = 0%nat.
Proof.
  unfold count. induction l as [|y l IH]; [done|]. intros H. apply not_elem_of_cons in H as [Hxy H].
  simpl. apply String.eqb_neq in Hxy. rewrite Hxy. by apply IH.
Qed.

Lemma count_cons (x k : string) (l : list string) :
  count k (x :: l) = (count k l + if (k =? x)%string then 1 else 0)%nat.
Proof. unfold count. simpl. destruct (k =? x)%string; simpl; lia. Qed.

Lemma duplicates_cons (x : string) (l : list string) :
  duplicates (x :: l) = (duplicates l + if bool_decide (x ∈ l) then 1 else 0)%nat.
Proof.
  unfold duplicates. csimpl. destruct (decide_rel elem_of x l) as [Hx|Hx].
  - rewrite bool_decide_eq_true_2 by done. rewrite (sum_bump _ (fun k => count k l - 1)%nat x); [lia|..].
    + apply NoDup_remove_dups.
    + by apply elem_of_remove_dups.
    + rewrite count_cons, String.eqb_refl. pose proof (count_pos x l Hx). lia.
    + intros k Hk. rewrite count_cons. apply String.eqb_neq in Hk. rewrite Hk. lia.
  - rewrite bool_decide_eq_false_2 by done. csimpl. rewrite count_cons, String.eqb_refl, count_zero by done.
    simpl. rewrite Nat.add_0_r. f_equal. apply list_fmap_ext. intros j k Hk. rewrite count_cons.
    assert (k <> x) as Hkx.
    { intros ->. apply Hx, elem_of_remove_dups. by eapply list_elem_of_lookup_2. }
    apply String.eqb_neq in Hkx. rewrite Hkx. lia.
Qed.

Lemma duplicates_block (n : nat) (x : string) (l : list string) :
  x ∉ l -> duplicates (replicate n x ++ l) = (n - 1 + duplicates l)%nat.
Proof.
  intros Hx. induction n as [|n IH]; [done|]. simpl. rewrite duplicates_cons, IH.
  destruct n as [|n]; simpl; [rewrite bool_decide_eq_false_2 by done; lia|].
  rewrite bool_decide_eq_true_2 by (by left). lia.
Qed.

(** Blocks of distinct keys. *)
Lemma duplicates_blocks {A} (key : A -> string) (k : A -> nat) (ps : list A) :
  NoDup (key <$> ps) ->
  duplicates (flat_map (fun p => replicate (k p) (key p)) ps) = sum_list ((fun p => k p - 1)%nat <$> ps).
Proof.
  induction ps as [|p ps IH]; [done|]. csimpl. intros [Hp Hnd]%NoDup_cons.
  rewrite duplicates_block, (IH Hnd); [done|]. intros Hin. apply Hp.
  apply list_elem_of_In, in_flat_map in Hin as (q & Hq & Hin). apply list_elem_of_fmap.
  apply list_elem_of_In, elem_of_replicate in Hin as [-> _].
  exists q. split; [done|by apply list_elem_of_In].
Qed.

(** Requests of several modes. *)
Lemma pairs_sum (f : string -> nat) (ms : list string) (l : list nat) :
  sum_list ((fun p => f p.1) <$> list_prod ms l) = sum_list ((fun m => length l * f m)%nat <$> ms).
Proof.
  induction ms as [|m ms IH]; [done|]. cbn [list_prod]. csimpl. rewrite fmap_app, sum_list_with_app, IH.
  f_equal. clear. induction l as [|i l IH]; [done|]. csimpl. rewrite IH. lia.
Qed.

Lemma pairs_length (f : string -> nat) (key : string * nat -> string) (ms : list string) (l : list nat) :
  length (flat_map (fun p => replicate (f p.1) (key p)) (list_prod ms l)) =
  sum_list ((fun m => length l * f m)%nat <$> ms).
Proof.
  rewrite <- pairs_sum. induction (list_prod ms l) as [|p ps IH]; [done|]. csimpl.
  by rewrite length_app, length_replicate, IH.
Qed.

Lemma NoDup_pairs (key : string * nat -> string) (ms : list string) (l : list nat) :
  (forall m m' i i', m ∈ ms -> m' ∈ ms -> key (m, i) = key (m', i') -> m = m' /\ i = i') ->
  NoDup ms -> NoDup l -> NoDup (key <$> list_prod ms l).
Proof.
  intros Hk Hms Hl. apply NoDup_fmap_2_strong.
  - intros [m i] [m' i'] H1%list_elem_of_In H2%list_elem_of_In Heq.
    apply in_prod_iff in H1 as [H1 _]. apply in_prod_iff in H2 as [H2 _].
    destruct (Hk m m' i i') as [-> ->]; try done; by apply list_elem_of_In.
  - clear Hk. induction Hms as [|m ms Hm _ IH]; [constructor|]. cbn [list_prod].
    apply NoDup_app. split_and!; [|intros [m' i]|exact IH].
    + by apply (NoDup_fmap_2 (pair m)).
    + intros (i' & [= -> ->] & _)%list_elem_of_fmap H%list_elem_of_In. apply in_prod_iff in H as [H _].
      by apply Hm, list_elem_of_In.
Qed.

(** *** A phase *)

Definition verdict_of (mode : string) : verdict :=
  if (mode =? "ok")%string then SUCCESS else if (mode =? "refused")%string then SAFE else AMBIGUOUS.

(** The rows a request of a mode leaves in at most [n] attempts. *)
Definition rows_of (retry : bool) (n : nat) (mode : string) : nat :=
  match verdict_of mode with
  | SUCCESS => 1
  | SAFE => 0
  | AMBIGUOUS => if retry then n else Nat.min n 1
  end.

Section Phase.
Context `{Transport} (R M : nat) (retry : bool).

Lemma serve_get (mode id : string) (rows : list string) :
  mode ∈ MODES -> plain id ->
  _serve (wire ("/charge/" +:+ mode +:+ "/" +:+ id)) rows =
    if (mode =? "ok")%string then (commit id rows, Replies (_reply id "200 OK"))
    else if (mode =? "slow")%string then (commit id rows, RepliesLate (_reply id "200 OK"))
    else if (mode =? "hang")%string then (commit id rows, Holds)
    else if (mode =? "reset")%string then (commit id rows, Resets)
    else if (mode =? "crash_after_commit")%string then (commit id rows, Closes)
    else (rows, Replies (_reply id "400 Bad Request")).
Proof.
  intros Hm Hid.
  assert (Hp : plain ("/charge/" +:+ mode +:+ "/" +:+ id)).
  { repeat apply all_chars_app; try done; try by simpl. each_mode Hm; by simpl. }
  destruct (wire_get _ Hp) as [rest ->]. unfold _serve.
  assert (split " " 2 ("GET " +:+ ("/charge/" +:+ mode +:+ "/" +:+ id) +:+ " " +:+ rest) =
    ["GET"; "/charge/" +:+ mode +:+ "/" +:+ id; rest]%string) as ->.
  { transitivity ("GET" :: split " " 1 (("/charge/" +:+ mode +:+ "/" +:+ id) +:+ String " " rest))%string;
      [by apply (split_app " " 1 "GET"); simpl|].
    by rewrite split_app. }
  each_mode Hm; reflexivity.
Qed.

(** One GET of a mode: what it adds to the ledger, and what the client makes of it. *)
Lemma get_charge_spec (mode id : string) :
  mode ∈ MODES -> plain id ->
  exists a label, attempt a = (verdict_of mode, label) /\
    forall rows, get_charge mode id rows = (rows ++ replicate (rows_of true 1 mode) id, a).
Proof.
  intros Hm Hid. unfold get_charge. setoid_rewrite (serve_get mode id) ; [|done..].
  assert (Hr : exists label, attempt (sees Resets) = (AMBIGUOUS, label))
    by (destruct sees_reset as [-> | ->]; eexists; reflexivity).
  assert (Hc : exists label, attempt (sees Closes) = (AMBIGUOUS, label))
    by (destruct sees_close as [-> | ->]; eexists; reflexivity).
  destruct Hr as [lr Hr], Hc as [lc Hc].
  each_mode Hm; simpl.
  - exists (Response 200), "200"%string. split; [reflexivity|]. intros rows. by rewrite sees_reply.
  - exists (Raised ReadTimeout), "ReadTimeout"%string. split; [reflexivity|]. intros rows. by rewrite sees_late.
  - exists (Raised ReadTimeout), "ReadTimeout"%string. split; [reflexivity|]. intros rows. by rewrite sees_silence.
  - by exists (sees Resets), lr.
  - by exists (sees Closes), lc.
  - exists (Raised ConnectError), "ConnectError"%string. split; [reflexivity|]. intros rows.
    by rewrite sees_refused, app_nil_r.
Qed.

Lemma tries_spec (mode id : string) (n att : nat) (last : option (verdict * string)) (rows : list string) :
  mode ∈ MODES -> plain id -> (0 < n)%nat ->
  exists label att', tries retry n mode id last att rows =
    (Some (verdict_of mode, label), att', rows ++ replicate (rows_of retry n mode) id).
Proof.
  intros Hm Hid. destruct (get_charge_spec mode id Hm Hid) as (a & label & Ha & Hg).
  revert last att rows. induction n as [|n IH]; intros last att rows Hn; [lia|]. cbn [tries].
  rewrite Hg, Ha. destruct (decide (n = 0%nat)) as [->|Hn0].
  - exists label, (S att). unfold rows_of. destruct (verdict_of mode), retry; reflexivity.
  - unfold rows_of in *. destruct (verdict_of mode) eqn:Ev; simpl.
    + eauto.
    + destruct (IH (Some (SAFE, label)) (S att) (rows ++ []) ltac:(lia)) as (l & a' & ->).
      rewrite !app_nil_r. eauto.
    + destruct retry; [|rewrite Nat.min_0_r; eauto].
      destruct (IH (Some (AMBIGUOUS, label)) (S att) (rows ++ [id]) ltac:(lia)) as (l & a' & ->).
      rewrite <- app_assoc. eauto.
Qed.

Lemma mode_pass_spec (idx : list nat) (name mode : string) (vs : list (verdict * string)) (att : nat)
    (rows : list string) :
  mode ∈ MODES -> plain (String.substring 0 2 name) -> (0 < M)%nat ->
  exists vs' att', mode_pass M retry idx name mode vs att rows =
      (vs ++ vs', att', rows ++ flat_map (fun i => replicate (rows_of retry M mode) (charge_id_of name mode i)) idx) /\
    length vs' = length idx /\ Forall (fun v => v.1 = verdict_of mode) vs'.
Proof.
  intros Hm Hn HM. revert vs att rows. induction idx as [|i idx IH]; intros vs att rows; cbn [mode_pass flat_map].
  - exists [], att. by rewrite !app_nil_r.
  - destruct (tries_spec mode (charge_id_of name mode i) M att None rows Hm
      (plain_charge_id name mode i Hn Hm) HM) as (label & att' & ->). simpl option_list.
    destruct (IH (vs ++ [(verdict_of mode, label)]) att'
      (rows ++ replicate (rows_of retry M mode) (charge_id_of name mode i))) as (vs' & att'' & -> & Hl & Hv).
    exists ((verdict_of mode, label) :: vs'), att''. rewrite <- !app_assoc.
    split_and!; [done|by simpl; rewrite Hl|by constructor].
Qed.

Lemma modes_pass_spec (modes : list string) (name : string) (rows : list string) :
  (forall m, m ∈ modes -> m ∈ MODES) -> plain (String.substring 0 2 name) -> (0 < M)%nat ->
  exists per, modes_pass R M retry modes name rows =
      (per, rows ++ flat_map (fun p => replicate (rows_of retry M p.1) (charge_id_of name p.1 p.2))
                      (list_prod modes (seq 0 R))) /\
    (fun r => length (List.filter is_ambiguous r.1)) <$> per =
    (fun m => match verdict_of m with AMBIGUOUS => R | _ => 0%nat end) <$> modes.
Proof.
  intros Hsub Hn HM. revert rows. induction modes as [|m modes IH]; intros rows; cbn [modes_pass list_prod].
  - exists []. by rewrite app_nil_r.
  - destruct (mode_pass_spec (seq 0 R) name m [] 0 rows) as (vs & att & -> & Hl & Hv);
      [apply Hsub; by left|done|done|].
    destruct (IH (fun m' H' => Hsub m' (list_elem_of_further _ _ _ H')) (rows ++ flat_map
      (fun i => replicate (rows_of retry M m) (charge_id_of name m i)) (seq 0 R))) as (per & -> & Hper).
    exists ((vs, att) :: per). split.
    + f_equal. rewrite flat_map_app, app_assoc. do 2 f_equal.
      clear. induction (seq 0 R) as [|i l IHl]; [done|]. simpl. by rewrite IHl.
    + csimpl. rewrite Hper. f_equal. rewrite length_seq in Hl. rewrite <- Hl. clear -Hv.
      induction Hv as [|v vs Hv _ IHv]; [by destruct (verdict_of m)|]. simpl. unfold is_ambiguous at 1.
      rewrite Hv. destruct (verdict_of m); simpl; lia.
Qed.
End Phase.
End DemoFacts.

(** *** The service *)

Module Service.

Inductive retry_policy : Type := RetryAny | RetrySafeOnly.

Inductive verdict : Type := success | safe | ambiguous.

#[export] Instance verdict_eq_dec : EqDecision verdict.
Proof. solve_decision. Defined.

Definition classify (e : error) : verdict * string :=
  match e with
  | ConnectError => (safe, "ConnectError")
  | ConnectTimeout => (safe, "ConnectTimeout")
  | ReadTimeout => (ambiguous, "ReadTimeout")
  | WriteTimeout => (ambiguous, "WriteTimeout")
  | PoolTimeout => (safe, "PoolTimeout")
  | RemoteProtocolError => (ambiguous, "RemoteProtocolError")
  | ReadError => (ambiguous, "ReadError")
  | OtherError n => (ambiguous, n)
  end%string.

(** Rows of [t1_charges] and [t1_client_attempts]. *)
Record charge_row : Type := mkCharge { request_id : string; toxic : string; amount_cents : Z }.

Record attempt_row : Type := mkAttempt {
  a_request : string;
  a_toxic : string;
  a_verdict : verdict;
  a_error : option string;
}.

Record tables : Type := mkTables { charges : list charge_row; client_attempts : list attempt_row }.

(** [charge] of the ledger, when its INSERT commits; [true]: it answers. *)
Definition charge (CRASH_AFTER_COMMIT : bool) (c : charge_row) (d : tables) : tables * bool :=
  (mkTables (charges d ++ [c]) (client_attempts d), negb CRASH_AFTER_COMMIT).

Definition record (rid tox : string) (v : verdict) (kind : option string) (d : tables) : tables :=
  mkTables (charges d) (client_attempts d ++ [mkAttempt rid tox v kind]).

(** What becomes of one attempt: whether the request reaches the ledger and its
    INSERT commits, what the client sees of it, and whether the two INSERTs of the
    attempt's record succeed or raise an error of the driver. *)
Record fate : Type := mkFate {
  commits : bool;
  sees : answer;
  records : option error;
  records_error : option error;
}.

Record pay_request : Type := mkPay { p_request : string; p_toxic : string }.

(** The reply of [pay]; [ServerError] when it raises. *)
Inductive reply : Type := Status (v : verdict) (kind : option string) | ServerError.

(** What the caller relies on.  [raise_for_status] raises on any status but a 2xx. *)
Class Client : Type := {
  raise_for_status : Z -> option error;
  status_2xx : forall s, 200 <= s < 300 -> raise_for_status s = None;
  status_other : forall s, ~ 200 <= s < 300 -> raise_for_status s = Some (OtherError "HTTPStatusError");
}.

Section Pay.
Context `{Client} (CRASH_AFTER_COMMIT : bool) (RETRY : retry_policy).

(** What [try] runs: the POST, [raise_for_status] and the record of a success. *)
Definition try_once (f : fate) (p : pay_request) (d : tables) : tables * option error :=
  let d1 := if commits f
            then (charge CRASH_AFTER_COMMIT (mkCharge (p_request p) (p_toxic p) 100) d).1
            else d in
  match sees f with
  | Raised e => (d1, Some e)
  | Response s =>
      match raise_for_status s with
      | Some e => (d1, Some e)
      | None =>
          match records f with
          | Some e => (d1, Some e)
          | None => (record (p_request p) (p_toxic p) success None d1, None)
          end
      end
  end.

(** The loop over [ATTEMPTS], one fate each. *)
Fixpoint pay_loop (fates : list fate) (p : pay_request) (last : option (verdict * string))
    (d : tables) : reply * tables :=
  match fates with
  | [] => (match last with
           | Some (v, kind) => Status v (Some kind)
           | None => Status ambiguous None
           end, d)
  | f :: rest =>
      match try_once f p d with
      | (d1, None) => (Status success None, d1)
      | (d1, Some e) =>
          let '(v, kind) := classify e in
          match records_error f with
          | Some _ => (ServerError, d1)
          | None =>
              let d2 := record (p_request p) (p_toxic p) v (Some kind) d1 in
              if match RETRY with RetrySafeOnly => bool_decide (v <> safe) | RetryAny => false end
              then (Status v (Some kind), d2)
              else pay_loop rest p (Some (v, kind)) d2
          end
      end
  end.

Definition pay (fates : list fate) (p : pay_request) (d : tables) : reply * tables :=
  pay_loop fates p None d.
End Pay.

(** *** Reconciliation *)

Definition client_saw_success (d : tables) (rid tox : string) : bool :=
  existsb (fun a => (a_request a =? rid)%string && (a_toxic a =? tox)%string &&
                    bool_decide (a_verdict a = success)) (client_attempts d).

Definition has_verdict (d : tables) (rid tox : string) : bool :=
  existsb (fun a => (a_request a =? rid)%string && (a_toxic a =? tox)%string) (client_attempts d).

(** Charges whose request the client knows, and no attempt of which it saw succeed. *)
Definition orphaned (d : tables) : list charge_row :=
  List.filter (fun c => has_verdict d (request_id c) (toxic c) &&
                        negb (client_saw_success d (request_id c) (toxic c))) (charges d).
End Service.

Module ServiceFacts.
Import Service.

(** A connection that was never made carried no request, a 2xx comes from [charge],
    and the driver of the database raises errors of its own. *)
Record honest (crash : bool) (f : fate) : Prop := {
  honest_safe : forall e, sees f = Raised e -> e ∈ [ConnectError; ConnectTimeout; PoolTimeout] ->
    commits f = false;
  honest_2xx : forall s, sees f = Response s -> 200 <= s < 300 -> commits f = true /\ crash = false;
  honest_driver : forall e, records f = Some e -> exists n, e = OtherError n;
}.

Section Pay.
Context `{Client} (crash : bool) (policy : retry_policy) (p : pay_request).

Definition the_charge : charge_row := mkCharge (p_request p) (p_toxic p) 100.

Lemma raise_ok (s : Z) : raise_for_status s = None -> 200 <= s < 300.
Proof.
  intros Hs. destruct (decide (200 <= s < 300)) as [|Hn]; [done|]. by rewrite status_other in Hs.
Qed.

Lemma classify_safe (e : error) :
  (classify e).1 = safe -> e ∈ [ConnectError; ConnectTimeout; PoolTimeout].
Proof. destruct e; simpl; intros; try done; set_solver. Qed.

(** One attempt adds at most the charge; it adds it when it succeeds, and does not
    when it fails safely. *)
Lemma try_once_spec (f : fate) (d : tables) :
  honest crash f ->
  exists k, charges (try_once crash f p d).1 = charges d ++ replicate k the_charge /\ (k <= 1)%nat /\
    match (try_once crash f p d).2 with
    | None => k = 1%nat /\ crash = false
    | Some e => (classify e).1 = safe -> k = 0%nat
    end /\
    match (try_once crash f p d).2 with
    | None => exists a, client_attempts (try_once crash f p d).1 = client_attempts d ++ [a] /\
                a = mkAttempt (p_request p) (p_toxic p) success None
    | Some _ => client_attempts (try_once crash f p d).1 = client_attempts d
    end /\
    match (try_once crash f p d).2 with Some e => (classify e).1 <> success | None => True end.
Proof.
  intros [Hs H2 Hd]. exists (if commits f then 1%nat else 0%nat).
  assert (Hcl : forall e, (classify e).1 <> success) by (by intros []).
  unfold try_once. set (d1 := if commits f then _ else _).
  assert (Hc : charges d1 = charges d ++ replicate (if commits f then 1 else 0)%nat the_charge)
    by (unfold d1; destruct (commits f); simpl; by rewrite ?app_nil_r).
  assert (Ha : client_attempts d1 = client_attempts d) by (unfold d1; by destruct (commits f)).
  assert (Hk : ((if commits f then 1 else 0) <= 1)%nat) by (destruct (commits f); lia).
  clearbody d1. destruct (sees f) as [s|e] eqn:Es; simpl.
  - destruct (raise_for_status s) as [e|] eqn:Er.
    + simpl. split_and!; try done. intros Hsafe. apply classify_safe in Hsafe.
      destruct (decide (200 <= s < 300)) as [Hr|Hr].
      * by rewrite status_2xx in Er.
      * rewrite status_other in Er by done. injection Er as <-. set_solver.
    + destruct (H2 s eq_refl (raise_ok s Er)) as [Hcm Hcr]. rewrite Hcm in *.
      destruct (records f) as [e|] eqn:Erec; simpl.
      * destruct (Hd e eq_refl) as [n ->]. by split_and!.
      * rewrite Ha. split_and!; try done. by eexists.
  - split_and!; try done. intros Hsafe. by rewrite (Hs e eq_refl (classify_safe e Hsafe)).
Qed.

Lemma pay_loop_spec (fates : list fate) (last : option (verdict * string)) (d : tables) :
  Forall (honest crash) fates ->
  (forall v kind, last = Some (v, kind) -> v <> success) ->
  let '(r, d') := pay_loop crash policy fates p last d in
  exists k, charges d' = charges d ++ replicate k the_charge /\ (k <= length fates)%nat /\
    (forall kind, r = Status success kind -> (1 <= k)%nat /\ crash = false) /\
    (policy = RetrySafeOnly -> match last with Some (v, _) => v = safe | None => True end ->
       (k <= 1)%nat /\ forall kind, r = Status safe kind -> k = 0%nat).
Proof.
  revert last d. induction fates as [|f rest IH]; intros last d Hf Hl; cbn [pay_loop].
  - exists 0%nat. rewrite app_nil_r. split_and!; try done; [|intros _ _; split; [lia|done]].
    intros kind Hr. destruct last as [[v kind']|]; [|done]. injection Hr as -> <-.
    by destruct (Hl _ _ eq_refl).
  - apply Forall_cons in Hf as [Hh Hf].
    destruct (try_once_spec f d Hh) as (k & Hc & Hk & Hres & _ & Hns).
    destruct (try_once crash f p d) as [d1 [e|]] eqn:Et; simpl in *.
    + destruct (classify e) as [v kind] eqn:Ecl. simpl in Hres, Hns.
      destruct (records_error f) as [e'|].
      { exists k. split_and!; try done; lia. }
      set (d2 := record _ _ _ _ _). assert (Hc2 : charges d2 = charges d1) by done. clearbody d2.
      destruct (match policy with RetryAny => _ | RetrySafeOnly => _ end) eqn:Eb.
      { exists k. rewrite Hc2. split_and!; try done; try lia.
        - intros kind' Hr. by injection Hr as -> _.
        - intros -> _. split; [done|]. intros kind' Hr. injection Hr as -> _. by apply Hres. }
      specialize (IH (Some (v, kind)) d2 Hf). specialize (IH ltac:(intros ? ? [= <- <-]; done)).
      destruct (pay_loop crash policy rest p (Some (v, kind)) d2) as [r d'].
      destruct IH as (k' & Hc' & Hk' & Hsucc & Hsafe).
      exists (k + k')%nat. rewrite Hc', Hc2, Hc, <- app_assoc, replicate_add.
      split_and!; try done; [lia| |].
      * intros kind' Hr. destruct (Hsucc kind' Hr). split; [lia|done].
      * intros -> _. apply bool_decide_eq_false in Eb. assert (v = safe) as -> by (by apply dec_stable).
        rewrite (Hres eq_refl). destruct (Hsafe eq_refl eq_refl). done.
    + exists k. destruct Hres as [-> ->]. split_and!; try done; try lia.
Qed.

(** Under [any], each attempt that commits and is cut off adds a charge. *)
Lemma any_cut (n : nat) (e : error) :
  classify e = (ambiguous, class_name e) -> forall last d, exists d',
  pay_loop crash RetryAny (replicate (S n) (mkFate true (Raised e) None None)) p last d =
    (Status ambiguous (Some (class_name e)), d') /\
  charges d' = charges d ++ replicate (S n) the_charge.
Proof.
  intros Hcl. set (cut := mkFate _ _ _ _).
  assert (Hcut : forall d, try_once crash cut p d =
    (mkTables (charges d ++ [the_charge]) (client_attempts d), Some e)) by done.
  assert (Hrec : records_error cut = None) by done. clearbody cut.
  induction n as [|n IH]; intros last d; rewrite replicate_S; cbn [pay_loop]; rewrite Hcut, Hcl, Hrec.
  - by eexists.
  - edestruct IH as (d' & -> & Hc). exists d'. split; [done|]. rewrite Hc. simpl.
    by rewrite <- app_assoc.
Qed.

(** The tables before a request has succeeded: only its charges, only its failures. *)
Record unanswered (d : tables) : Prop := {
  only_charge : Forall (fun c => c = the_charge) (charges d);
  only_failures : Forall (fun a => a_request a = p_request p /\ a_toxic a = p_toxic p /\
                                   a_verdict a <> success) (client_attempts d);
  first_try : client_attempts d = [] -> charges d = [];
}.

Lemma orphaned_all (d : tables) :
  Forall (fun c => c = the_charge) (charges d) -> has_verdict d (p_request p) (p_toxic p) = true ->
  client_saw_success d (p_request p) (p_toxic p) = false -> orphaned d = charges d.
Proof.
  intros Hc Hv Hs. unfold orphaned. assert (E : forall f, (forall c, c = the_charge -> f c = true) ->
    List.filter f (charges d) = charges d).
  { intros f Hf. induction Hc as [|c l -> _ IH]; [done|]. simpl. by rewrite (Hf the_charge eq_refl), IH. }
  apply E. intros c ->. simpl. by rewrite Hv, Hs.
Qed.

Lemma orphaned_none (d : tables) :
  Forall (fun c => c = the_charge) (charges d) ->
  client_saw_success d (p_request p) (p_toxic p) = true -> orphaned d = [].
Proof.
  intros Hc Hs. unfold orphaned. induction Hc as [|c l -> _ IH]; [done|]. simpl.
  by rewrite Hs, andb_false_r.
Qed.

Lemma saw_nothing (d : tables) :
  unanswered d -> client_saw_success d (p_request p) (p_toxic p) = false.
Proof.
  intros [_ Hf _]. unfold client_saw_success. induction Hf as [|a l (Hr & Ht & Hv) _ IH]; [done|].
  simpl. by rewrite Hr, Ht, !String.eqb_refl, bool_decide_eq_false_2, IH.
Qed.

Lemma known_request (d : tables) :
  unanswered d -> client_attempts d <> [] -> has_verdict d (p_request p) (p_toxic p) = true.
Proof.
  intros [_ Hf _]. unfold has_verdict. destruct Hf as [|a l (Hr & Ht & Hv) _]; [done|]. intros _.
  simpl. by rewrite Hr, Ht, !String.eqb_refl.
Qed.

(** With nothing recorded there is nothing to reconcile. *)
Lemma orphaned_unanswered (d : tables) : unanswered d -> orphaned d = charges d.
Proof.
  intros Hd. destruct (client_attempts d) as [|a l] eqn:E.
  - unfold orphaned. by rewrite (first_try d Hd E).
  - apply orphaned_all; [apply Hd|apply known_request; [done|by rewrite E]|by apply saw_nothing].
Qed.

Lemma unanswered_record (v : verdict) (kind : string) (d d1 : tables) (k : nat) :
  unanswered d -> charges d1 = charges d ++ replicate k the_charge ->
  client_attempts d1 = client_attempts d -> v <> success ->
  unanswered (record (p_request p) (p_toxic p) v (Some kind) d1).
Proof.
  intros [H1 H2 H3] Hc Ha Hv. split; simpl.
  - rewrite Hc. apply Forall_app. split; [done|]. apply Forall_forall. by intros c [-> _]%elem_of_replicate.
  - rewrite Ha. apply Forall_app. split; [done|]. repeat constructor. done.
  - by intros []%app_eq_nil.
Qed.

Lemma pay_loop_orphans (fates : list fate) (last : option (verdict * string)) (d : tables) :
  Forall (honest crash) fates -> unanswered d ->
  (forall v kind, last = Some (v, kind) -> v <> success) ->
  let '(r, d') := pay_loop crash policy fates p last d in
  match r with
  | ServerError => True
  | Status success _ => orphaned d' = []
  | Status _ _ => orphaned d' = charges d'
  end.
Proof.
  revert last d. induction fates as [|f rest IH]; intros last d Hf Hd Hl; cbn [pay_loop].
  - pose proof (orphaned_unanswered d Hd) as Ho. destruct last as [[[] kind]|]; try done.
    by destruct (Hl _ _ eq_refl).
  - apply Forall_cons in Hf as [Hh Hf].
    destruct (try_once_spec f d Hh) as (k & Hc & _ & _ & Ha & Hns).
    destruct (try_once crash f p d) as [d1 [e|]] eqn:Et; simpl in *.
    + destruct (classify e) as [v kind] eqn:Ecl. simpl in Hns.
      destruct (records_error f); [done|].
      pose proof (unanswered_record v kind d d1 k Hd Hc Ha Hns) as Hd2.
      destruct (match policy with RetryAny => _ | RetrySafeOnly => _ end).
      * pose proof (orphaned_unanswered _ Hd2). by destruct v.
      * apply IH; [done|done|]. by intros ? ? [= <- <-].
    + destruct Ha as (a & Ha & ->). apply orphaned_none.
      * rewrite Hc. apply Forall_app. split; [apply Hd|]. apply Forall_forall.
        by intros c [-> _]%elem_of_replicate.
      * unfold client_saw_success. rewrite Ha, existsb_app. simpl. rewrite !String.eqb_refl. simpl.
        by rewrite orb_true_r.
Qed.
End Pay.
End ServiceFacts.

(** ** Properties *)

Module Theorems.
Import Service ServiceFacts.

(** C9: Retrying only what is safe charges at most once.  Whatever the network,
    the ledger and the records of the attempts do, a call of [pay] under
    [safe-only] adds at most one charge, one exactly when it reports success, none
    when it reports a safe error.  Under [any] it adds at most one per attempt.
    With [CRASH_AFTER_COMMIT] no call reports success. *)
Theorem safe_only_charges_once `{Service.Client} (crash : bool) (policy : retry_policy)
    (fates : list fate) (p : pay_request) (d : tables) :
  Forall (honest crash) fates ->
  let '(r, d') := pay crash policy fates p d in
  exists k, charges d' = charges d ++ replicate k (the_charge p) /\ (k <= length fates)%nat /\
    (forall kind, r = Status success kind -> (1 <= k)%nat /\ crash = false) /\
    (policy = RetrySafeOnly -> (k <= 1)%nat /\ forall kind, r = Status safe kind -> k = 0%nat).
Proof.
  intros Hf. pose proof (pay_loop_spec crash policy p fates None d Hf ltac:(done)) as H1.
  unfold pay. destruct (pay_loop _ _ _ _ _ _) as [r d']. destruct H1 as (k & H1 & H2 & H3 & H4).
  exists k. split_and!; try done. intros Hp. by apply H4.
Qed.

(** The reconciliation finds every ambiguity.  After a call of [pay] on empty
    tables that returns a status, the orphaned charges are none if it reported
    success and all of the committed charges otherwise, duplicates included. *)
Theorem orphans_are_the_unreported `{Service.Client} (crash : bool) (policy : retry_policy)
    (fates : list fate) (p : pay_request) :
  Forall (honest crash) fates ->
  let '(r, d') := pay crash policy fates p (mkTables [] []) in
  match r with
  | ServerError => True
  | Status success _ => orphaned d' = []
  | Status _ _ => orphaned d' = charges d'
  end.
Proof. intros Hf. apply pay_loop_orphans; [done| |done]. by split. Qed.

(** A crash after the commit is ambiguous every time.  If each attempt commits
    and is then cut off, [any] charges once per attempt and reports ambiguity, and
    [safe-only] charges once and reports the same. *)
Theorem crash_charges_every_attempt `{Service.Client} (n : nat) (e : error) (p : pay_request) (d : tables) :
  e ∈ [ReadTimeout; RemoteProtocolError; ReadError] ->
  let cut := mkFate true (Raised e) None None in
  let any := pay true RetryAny (replicate (S n) cut) p d in
  let only := pay true RetrySafeOnly (replicate (S n) cut) p d in
  any.1 = Status ambiguous (Some (class_name e)) /\ only.1 = any.1 /\
  charges any.2 = charges d ++ replicate (S n) (the_charge p) /\
  charges only.2 = charges d ++ [the_charge p].
Proof.
  intros He cut any only.
  assert (Hcl : classify e = (ambiguous, class_name e)) by (destruct e; set_solver).
  destruct (any_cut true p n e Hcl None d) as (d' & Ha & Hc).
  assert (any = (Status ambiguous (Some (class_name e)), d')) as -> by exact Ha.
  unfold only, pay, cut. simpl. unfold try_once. simpl. rewrite Hcl. done.
Qed.

(** A charge that is known to have succeeded is retried.  [record] of a success
    runs inside the [try]: if it fails, the handler classifies the database's error
    as ambiguous; [any] posts again and charges twice, and [safe-only] reports
    ambiguity for a charge whose reply was a 200. *)
Theorem failed_record_retries_success `{Service.Client} (n : string) (p : pay_request) (d : tables) :
  let unrecorded := mkFate true (Response 200) (Some (OtherError n)) None in
  let fine := mkFate true (Response 200) None None in
  let any := pay false RetryAny [unrecorded; fine] p d in
  let only := pay false RetrySafeOnly [unrecorded; fine] p d in
  any.1 = Status success None /\ charges any.2 = charges d ++ [the_charge p; the_charge p] /\
  only.1 = Status ambiguous (Some n) /\ charges only.2 = charges d ++ [the_charge p].
Proof.
  intros unrecorded fine any only. unfold any, only, pay, unrecorded, fine. simpl. unfold try_once. simpl.
  rewrite status_2xx by lia. simpl. by rewrite <- app_assoc.
Qed.

Import Demo DemoFacts.

(** What a phase measures.  With any number of requests a mode and any positive
    number of attempts [M], from any ledger: a phase that retries everything leaves
    [4 R (M - 1)] duplicate charges, a phase that retries only safe errors leaves
    none; both leave [4 R] ambiguous outcomes unresolved. *)
Theorem phase_outcome `{Transport} (R M : nat) (retry : bool) (name : string) (ledger : list string) :
  plain (String.substring 0 2 name) -> (0 < M)%nat ->
  (run_phase R M retry name ledger).1 =
    ((if retry then 4 * R * (M - 1) else 0)%nat, (4 * R)%nat, (R + 4 * R * if retry then M else 1)%nat).
Proof.
  intros Hn HM. unfold run_phase.
  destruct (modes_pass_spec R M retry MODES name ledger (fun m H => H) Hn HM) as (per & -> & ->).
  rewrite drop_app_length. cbn [fst]. rewrite (duplicates_blocks
    (fun p => charge_id_of name p.1 p.2) (fun p => rows_of retry M p.1)).
  - f_equal; [f_equal|].
    + rewrite (pairs_sum (fun m => rows_of retry M m - 1)%nat), length_seq. destruct retry; unfold MODES, rows_of; simpl; lia.
    + rewrite (pairs_length (rows_of retry M) (fun p => charge_id_of name p.1 p.2)), length_seq. destruct retry; unfold MODES, rows_of; simpl; lia.
  - apply (NoDup_pairs (fun p => charge_id_of name p.1 p.2));
      [intros m m' i i' Hm Hm'; by apply charge_id_inj| |apply NoDup_seq].
    apply (bool_decide_unpack (NoDup MODES)). by vm_compute.
Qed.

(** *** Witnesses *)

(** A client as httpx documents itself. *)
Definition raise_other (s : Z) : option error :=
  if bool_decide (200 <= s < 300) then None else Some (OtherError "HTTPStatusError").

Lemma raise_other_2xx (s : Z) : 200 <= s < 300 -> raise_other s = None.
Proof. intros Hs. unfold raise_other. by rewrite bool_decide_eq_true_2. Qed.

Lemma raise_other_not (s : Z) :
  ~ 200 <= s < 300 -> raise_other s = Some (OtherError "HTTPStatusError").
Proof. intros Hs. unfold raise_other. by rewrite bool_decide_eq_false_2. Qed.

Definition httpx : Service.Client := Service.Build_Client raise_other raise_other_2xx raise_other_not.

Definition local_wire (path : string) : string := "GET " +:+ path +:+ " HTTP/1.1".

Definition local_sees (b : behaviour) : answer :=
  match b with
  | Replies _ => Response 200
  | RepliesLate _ | Holds => Raised ReadTimeout
  | Resets => Raised ReadError
  | Closes => Raised RemoteProtocolError
  end.

Lemma local_wire_get (path : string) :
  plain path -> exists rest, local_wire path = "GET " +:+ path +:+ " " +:+ rest.
Proof. intros _. by exists "HTTP/1.1". Qed.

Definition local_sockets : Transport :=
  Build_Transport local_wire local_sees (Raised ConnectError) local_wire_get
    (fun _ => eq_refl) (fun _ => eq_refl) eq_refl (or_introl eq_refl) (or_introl eq_refl) eq_refl.

Definition example_pay : pay_request := mkPay "r1" "latency".

(** A lost reply, after a refused connection. *)
Definition example_fates : list fate :=
  [mkFate false (Raised ConnectError) None None; mkFate true (Raised ReadTimeout) None None;
   mkFate true (Response 200) None None].

Lemma example_honest : Forall (honest false) example_fates.
Proof.
  unfold example_fates. rewrite !Forall_cons. split_and!; [split|split|split|constructor]; simpl;
    intros x Hx; simplify_eq; try done.
  all: intros; repeat match goal with H : _ ∈ _ :: _ |- _ => apply elem_of_cons in H as [?|H] end; try done.
  all: by match goal with H : _ ∈ [] |- _ => apply elem_of_nil in H end.
Qed.

Lemma safe_only_charges_once_witness :
  (exists k, charges (@pay httpx false RetrySafeOnly example_fates example_pay (mkTables [] [])).2 =
     replicate k (the_charge example_pay) /\ (k <= 1)%nat) /\
  length (charges (@pay httpx false RetryAny example_fates example_pay (mkTables [] [])).2) = 2%nat.
Proof.
  split; [|vm_compute; reflexivity].
  pose proof (@safe_only_charges_once httpx false RetrySafeOnly example_fates example_pay (mkTables [] [])
    example_honest) as H.
  rewrite (surjective_pairing (pay _ _ _ _ _)) in H.
  destruct H as (k & H1 & _ & _ & H2). exists k. split; [exact H1|apply H2; reflexivity].
Defined.

Lemma orphans_are_the_unreported_witness :
  orphaned (@pay httpx false RetrySafeOnly example_fates example_pay (mkTables [] [])).2 =
  [the_charge example_pay].
Proof.
  pose proof (@orphans_are_the_unreported httpx false RetrySafeOnly example_fates example_pay example_honest) as H.
  vm_compute in H. exact H.
Defined.

Lemma crash_charges_every_attempt_witness :
  length (charges (@pay httpx true RetryAny (replicate 3 (mkFate true (Raised ReadError) None None))
    example_pay (mkTables [] [])).2) = 3%nat.
Proof.
  destruct (@crash_charges_every_attempt httpx 2 ReadError example_pay (mkTables [] [])) as (_ & _ & H & _).
  - right. right. left.
  - by rewrite H.
Defined.

Lemma phase_outcome_witness :
  (@run_phase local_sockets 4 3 true "phase 1" []).1 = (32, 16, 52)%nat /\
  (@run_phase local_sockets 4 3 false "phase 2" []).1 = (0, 16, 20)%nat.
Proof.
  split; [apply (@phase_outcome local_sockets 4 3 true)|apply (@phase_outcome local_sockets 4 3 false)];
    try lia; repeat split; discriminate.
Defined.
End Theorems.
