(* ===== verification/Orders.v ===== *)
(** * The craft lab's orders API

    Models src/08-craft/lab/api/app: models.py ([order], [database]), db.py
    ([get_session]), the listing as one deep module (deep/orders.py, [Deep]) and as
    four shallow layers (shallow/, [Shallow]), repositories/orders.py, and the
    routers customers.py, orders_crud.py, orders_duplicated.py and
    orders_shared.py.

    A handler runs in [ST session exn]: every statement it sends consumes a [turn]
    of its environment, which says what other sessions did to the database
    meanwhile and whether the statement succeeds, fails, or takes effect and then
    fails.  Exceptions are those of [AppErrors]; the database's are known by class
    name.  [created_at] is a number; its rendering is a parameter.  The ids, limits and
    offsets of paths and queries fit their columns; what a body carries need not. *)

From Stdlib Require Import ZArith Lia.
From stdpp Require Import base option list numbers strings pretty gmap sorting.
From S2P Require Import Prelude PyFloat PyWorld PyText AppErrors.

Open Scope Z_scope.

(** ** Definitions *)

Record order : Type := mkOrder {
  id : Z;
  customer_id : option Z;
  status : string;
  total_cents : Z;
  created_at : Z;
}.

#[export] Instance order_eq_dec : EqDecision order.
Proof. solve_decision. Defined.

(** [orders] is in the order a scan without ORDER BY returns them. *)
Record database : Type := mkDatabase {
  customers : gmap Z string;
  orders : list order;
  next_id : Z;
  now : Z;
}.

(** *** Sessions *)

Inductive fate : Type := Fine | Refuses (e : exn) | Loses (e : exn).

Record turn : Type := mkTurn { meanwhile : database -> database; fate_of : fate }.

Definition quiet : turn := mkTurn (fun d => d) Fine.
Definition refused (e : exn) : turn := mkTurn (fun d => d) (Refuses e).

Record session : Type := mkSession { db : database; env : list turn }.

#[local] Abbreviation M := (ST session exn).

(** A statement: its result and its effect on the database, or an exception of its
    own.  Past the end of [env] nothing interferes. *)
Definition statement {A} (run : database -> res exn A * database) : M A := fun s =>
  let t := default quiet (head (env s)) in
  let d := meanwhile t (db s) in
  let rest := tail (env s) in
  match fate_of t with
  | Fine => let '(r, d') := run d in (r, mkSession d' rest)
  | Refuses e => (Err e, mkSession d rest)
  | Loses e => (Err e, mkSession (run d).2 rest)
  end.

Definition read {A} (f : database -> A) : M A := statement (fun d => (Ok (f d), d)).

(** *** Queries

    [select(Order)] and the clauses the code chains onto it. *)

Record select : Type := mkSelect {
  where_ : list (order -> bool);
  newest_first : bool;
  limit_ : option Z;
  offset_ : Z;
}.

Definition select_order : select := mkSelect [] false None 0.
Definition where_and (p : order -> bool) (q : select) : select :=
  mkSelect (where_ q ++ [p]) (newest_first q) (limit_ q) (offset_ q).
Definition order_by_newest (q : select) : select := mkSelect (where_ q) true (limit_ q) (offset_ q).
Definition with_limit (n : Z) (q : select) : select := mkSelect (where_ q) (newest_first q) (Some n) (offset_ q).
Definition with_offset (n : Z) (q : select) : select := mkSelect (where_ q) (newest_first q) (limit_ q) n.

(** [created_at DESC, id DESC]. *)
Definition newer (a b : order) : Prop :=
  created_at b < created_at a \/ (created_at b = created_at a /\ id b <= id a).

#[export] Instance newer_dec : RelDecision newer.
Proof. unfold newer. intros a b. apply _. Defined.

Definition run_select (q : select) (d : database) : list order :=
  let rows := List.filter (fun o => forallb (fun p => p o) (where_ q)) (orders d) in
  let rows := if newest_first q then merge_sort newer rows else rows in
  let rows := drop (Z.to_nat (offset_ q)) rows in
  match limit_ q with Some n => take (Z.to_nat n) rows | None => rows end.

Definition execute (q : select) : M (list order) := read (run_select q).

(** [select(func.count()).select_from(query.subquery())]. *)
Definition count_of (q : select) : M Z := read (fun d => Z.of_nat (length (run_select q d))).

Definition is_of (c : Z) (o : order) : bool := bool_decide (customer_id o = Some c).
Definition has_status (s : string) (o : order) : bool := (status o =? s)%string.

(** [select(Customer.id).where(Customer.id == c)], then [scalar_one_or_none]. *)
Definition find_customer (c : Z) : M (option Z) :=
  read (fun d => match customers d !! c with Some _ => Some c | None => None end).

Definition str_message (before : string) (z : Z) (after : string) : string :=
  before +:+ str_Z z +:+ after.

Definition customer_not_found (c : Z) : exn :=
  App (Plain NotFound (str_message "customer " c " not found") [("customer_id", JInt c)]).

(** *** HTTP *)

(** The fields of a response model, in its order. *)
Abbreviation fields := (list (string * json)).

Inductive body : Type :=
| OneBody (f : fields)
| PageBody (items : list fields) (total : Z)
| ListBody (items : list fields)
| ErrorBody (b : gmap string json) (headers : gmap string string)
| ValidationBody
| ServerErrorBody
| NoBody.

Record http : Type := mkHttp { h_status : Z; h_body : body }.

(** What a handler's result becomes: the response it built, the one translation of
    the taxonomy, or the framework's 500. *)
Definition respond (ok_status : Z) (r : res exn body) : http :=
  match r with
  | Ok b => mkHttp ok_status b
  | Err (App e) =>
      match app_error_handler e with
      | Some resp => mkHttp (r_status resp) (ErrorBody (r_body resp) (r_headers resp))
      | None => mkHttp 500 ServerErrorBody
      end
  | Err _ => mkHttp 500 ServerErrorBody
  end.

(** [get_session]: [SET LOCAL statement_timeout] first when one is configured. *)
Definition get_session {A} (statement_timeout_ms : option Z) (handler : M A) : M A :=
  match statement_timeout_ms with
  | Some _ => read (fun _ => tt) ≫= fun _ => handler
  | None => handler
  end.

(** A request: the session, the handler, the response. *)
Definition serve (statement_timeout_ms : option Z) (ok_status : Z) (handler : M body)
    (d : database) (turns : list turn) : http * database :=
  let '(r, s) := get_session statement_timeout_ms handler (mkSession d turns) in
  (respond ok_status r, db s).

(** [Query(ge=lo, le=hi)]: the framework answers 422 before the handler runs. *)
Definition validated (ok : bool) (h : http * database) (d : database) : http * database :=
  if ok then h else (mkHttp 422 ValidationBody, d).

Section Api.
Context (iso : Z -> string) (statement_timeout_ms : option Z).

(** The wire shape of both listings. *)
Definition order_fields (i : Z) (st : string) (total at_ : Z) : fields :=
  [("id", JInt i); ("status", JStr st); ("total_cents", JInt total); ("created_at", JStr (iso at_))].

(** *** The listing, deep *)

Record OrderView : Type := mkView { v_id : Z; v_status : string; v_total : Z; v_at : Z }.
Record OrderPage : Type := mkPage { items : list OrderView; total : Z }.

Definition _order_query (c : Z) : select := where_and (is_of c) select_order.

Definition _require_customer (c : Z) : M unit :=
  found ← find_customer c;
  match found with
  | None => raise (customer_not_found c)
  | Some _ => mret tt
  end.

Definition customer_order_page (c lim off : Z) : M OrderPage :=
  _require_customer c ≫= fun _ =>
  let base := _order_query c in
  rows ← execute (with_offset off (with_limit lim (order_by_newest base)));
  n ← count_of base;
  mret (mkPage (map (fun o => mkView (id o) (status o) (total_cents o) (created_at o)) rows) n).

Definition deep_customer_orders (c lim off : Z) (d : database) (turns : list turn) : http * database :=
  validated ((1 <=? lim) && (lim <=? 200) && (0 <=? off))
    (serve statement_timeout_ms 200
      (page ← customer_order_page c lim off;
       mret (PageBody (map (fun i => order_fields (v_id i) (v_status i) (v_total i) (v_at i)) (items page))
               (total page))) d turns) d.

(** *** The listing, shallow: dao, repository, service, router *)

Record OrderRow : Type := mkRow {
  row_id : Z; row_customer : option Z; row_status : string; row_total : Z; row_at : Z }.

Definition select_orders (c lim off : Z) : M (list OrderRow) :=
  rows ← execute (with_offset off (with_limit lim (order_by_newest (where_and (is_of c) select_order))));
  mret (map (fun o => mkRow (id o) (customer_id o) (status o) (total_cents o) (created_at o)) rows).

Definition select_order_count (c : Z) : M Z :=
  read (fun d => Z.of_nat (length (List.filter (is_of c) (orders d)))).

Record OrderRecord : Type := mkRecord {
  rec_id : Z; rec_customer : option Z; rec_status : string; rec_total : Z; rec_at : Z }.

Definition from_row (r : OrderRow) : OrderRecord :=
  mkRecord (row_id r) (row_customer r) (row_status r) (row_total r) (row_at r).

Definition fetch_orders (c lim off : Z) : M (list OrderRecord) :=
  rows ← select_orders c lim off; mret (map from_row rows).

Definition count_orders (c : Z) : M Z := select_order_count c.

Record OrderListing : Type := mkListing { l_id : Z; l_status : string; l_total : Z; l_at : Z }.
Record ListingPage : Type := mkListingPage { l_items : list OrderListing; l_count : Z }.

Definition list_customer_orders (c lim off : Z) : M ListingPage :=
  exists_ ← find_customer c;
  match exists_ with
  | None => raise (customer_not_found c)
  | Some _ =>
      records ← fetch_orders c lim off;
      n ← count_orders c;
      mret (mkListingPage (map (fun r => mkListing (rec_id r) (rec_status r) (rec_total r) (rec_at r)) records) n)
  end.

Definition shallow_customer_orders (c lim off : Z) (d : database) (turns : list turn) : http * database :=
  validated ((1 <=? lim) && (lim <=? 200) && (0 <=? off))
    (serve statement_timeout_ms 200
      (page ← list_customer_orders c lim off;
       mret (PageBody (map (fun i => order_fields (l_id i) (l_status i) (l_total i) (l_at i)) (l_items page))
               (l_count page))) d turns) d.

(** *** repositories/orders.py and routers/customers.py *)

Inductive error_mode : Type := Swallow | NoHandling | Correct.

(** The driver's exceptions, by the class SQLAlchemy wraps them in. *)
Definition OperationalError : exn := Bug "OperationalError".
Definition IntegrityError : exn := Bug "IntegrityError".
Definition DataError : exn := Bug "DataError".

Definition is_operational (e : exn) : bool :=
  match e with Bug n => (n =? "OperationalError")%string | _ => false end.

(** [list(result.scalars())]: building the objects, which may raise. *)
Definition scalars (rows : list order) : M (list order) := read (fun _ => rows).

Definition filtered (c : Z) (st : option string) : select :=
  let stmt := where_and (is_of c) select_order in
  match st with Some s => where_and (has_status s) stmt | None => stmt end.

Definition orders_for_customer (mode : error_mode) (c : Z) (st : option string) (lim : Z)
    (before : option Z) : M (list order) :=
  let stmt := filtered c st in
  let stmt := match before with Some t => where_and (fun o => created_at o <? t) stmt | None => stmt end in
  let stmt := with_limit lim (order_by_newest stmt) in
  match mode with
  | Swallow => try_with (execute stmt ≫= scalars) (fun _ => mret [])
  | NoHandling => execute stmt ≫= scalars
  | Correct =>
      result ← try_with (execute stmt)
        (fun e => if is_operational e
                  then raise (App (Unavailable "orders database unreachable" (Fin unit_k)))
                  else raise e);
      scalars result
  end.

Definition count_orders_for_customer (c : Z) (st : option string) : M Z :=
  count_of (filtered c st).

Definition recent_orders (c lim : Z) : M (list order) :=
  rows ← execute (with_limit lim (where_and (is_of c) select_order));
  mret (List.filter (fun o => negb (has_status "cancelled" o)) rows).

Definition recent_orders_fixed (c lim : Z) : M (list order) :=
  execute (with_limit lim (order_by_newest
    (where_and (fun o => negb (has_status "cancelled" o)) (where_and (is_of c) select_order)))).

Definition order_out (o : order) : fields :=
  [("id", JInt (id o)); ("status", JStr (status o)); ("total_cents", JInt (total_cents o))].

Definition customer_orders (mode : error_mode) (c : Z) (st : option string) (lim : Z)
    (d : database) (turns : list turn) : http * database :=
  validated ((1 <=? lim) && (lim <=? 200))
    (serve statement_timeout_ms 200
      (os ← orders_for_customer mode c st lim None;
       n ← count_orders_for_customer c st;
       mret (PageBody (map order_out os) n)) d turns) d.

Definition customer_recent_orders (c lim : Z) (d : database) (turns : list turn) : http * database :=
  validated ((1 <=? lim) && (lim <=? 100))
    (serve statement_timeout_ms 200
      (found ← find_customer c;
       match found with
       | None => raise (App (Plain NotFound (str_message "customer " c " not found") []))
       | Some _ => os ← recent_orders c lim; mret (ListBody (map order_out os))
       end) d turns) d.

(** *** routers/orders_crud.py *)

(** [nextval] of the sequence of [orders.id], which no rollback gives back. *)
Definition take_id (d : database) : database := mkDatabase (customers d) (orders d) (next_id d + 1) (now d).

(** What [total_cents], a [BIGINT], and [customer_id], an [INTEGER] like the key it refers
    to, can hold. *)
Definition fits (width z : Z) : bool := (- 2 ^ (width - 1) <=? z) && (z <? 2 ^ (width - 1)).

(** [session.add(order); session.commit()]: the driver does not send a number its column
    cannot hold; the INSERT takes an id, and then checks the foreign key. *)
Definition insert_order (c : option Z) (st : string) (cents : Z) : M Z :=
  statement (fun d =>
    if negb (fits 64 cents && match c with Some k => fits 32 k | None => true end) then (Err DataError, d)
    else if match c with Some k => bool_decide (is_Some (customers d !! k)) | None => true end
    then (Ok (next_id d),
          mkDatabase (customers d) (orders d ++ [mkOrder (next_id d) c st cents (now d)])
            (next_id d + 1) (now d))
    else (Err IntegrityError, take_id d)).

(** [session.refresh(order)]: the row again, unless it is gone. *)
Definition refresh (i : Z) : M order :=
  found ← read (fun d => List.find (fun o => id o =? i) (orders d));
  match found with
  | Some o => mret o
  | None => raise (Bug "InvalidRequestError")
  end.

Definition negative_total : exn := App (Plain Invalid "total_cents must be >= 0" []).

Definition create_order (c : option Z) (cents : Z) (d : database) (turns : list turn) : http * database :=
  serve statement_timeout_ms 201
    (if cents <? 0 then raise negative_total
     else i ← insert_order c "pending" cents;
          o ← refresh i;
          mret (OneBody (order_out o))) d turns.

Definition get_order (i : Z) (d : database) (turns : list turn) : http * database :=
  serve statement_timeout_ms 200
    (found ← read (fun d => List.find (fun o => id o =? i) (orders d));
     match found with
     | None => raise (App (Plain NotFound (str_message "order " i " not found") [("order_id", JInt i)]))
     | Some o => mret (OneBody (order_out o))
     end) d turns.

(** The DELETE and its COMMIT, which takes effect as one. *)
Definition delete_row (i : Z) : M unit :=
  statement (fun d =>
    (Ok tt, mkDatabase (customers d) (List.filter (fun o => negb (id o =? i)) (orders d)) (next_id d) (now d))).

Definition delete_order (i : Z) (d : database) (turns : list turn) : http * database :=
  serve statement_timeout_ms 204 (delete_row i ≫= fun _ => mret NoBody) d turns.

(** *** routers/orders_duplicated.py and orders_shared.py *)

Definition missing_customer (kind : string) : exn :=
  App (Plain Invalid ("customer_id is required for " +:+ kind) []).

Definition dup_create_order (c : option Z) (cents : Z) : M body :=
  if cents <? 0 then raise negative_total
  else match c with
  | None => raise (missing_customer "an order")
  | Some _ =>
      i ← insert_order c "pending" cents;
      o ← refresh i;
      mret (OneBody (order_out o))
  end.

Definition dup_create_draft (c : option Z) (cents : Z) : M body :=
  if cents <? 0 then raise negative_total
  else match c with
  | None => raise (missing_customer "a draft")
  | Some _ =>
      i ← insert_order c "draft" cents;
      o ← refresh i;
      mret (OneBody (order_out o))
  end.

Definition _create (c : option Z) (cents : Z) (st : string) : M body :=
  if cents <? 0 then raise negative_total
  else match c with
  | None => raise (missing_customer ("a " +:+ st))
  | Some _ =>
      i ← insert_order c st cents;
      o ← refresh i;
      mret (OneBody (order_out o))
  end.

Definition shared_create_order (c : option Z) (cents : Z) : M body := _create c cents "pending".
Definition shared_create_draft (c : option Z) (cents : Z) : M body := _create c cents "draft".
End Api.

(** ** Lemmas *)

Lemma statement_ext {A} (run run' : database -> res exn A * database) (s : session) :
  (forall d, run d = run' d) -> statement run s = statement run' s.
Proof. intros H. unfold statement. by rewrite H. Qed.

Lemma read_ext {A} (f g : database -> A) (s : session) : (forall d, f d = g d) -> read f s = read g s.
Proof. intros H. apply statement_ext. intros d. by rewrite H. Qed.

(** Nothing interferes past the end of the environment. *)
Lemma read_quiet {A} (f : database -> A) (d : database) :
  read f (mkSession d []) = (Ok (f d), mkSession d []).
Proof. done. Qed.

Lemma forallb_is_of (c : Z) (l : list order) :
  List.filter (fun o => forallb (fun p => p o) [is_of c]) l = List.filter (is_of c) l.
Proof. apply filter_ext. intros o. simpl. by rewrite andb_true_r. Qed.

(** A request with its configured first statement. *)
Lemma serve_ext (tmo : option Z) (ok : Z) (h h' : M body) (d : database) (ts : list turn) :
  (forall s, h s = h' s) -> serve tmo ok h d ts = serve tmo ok h' d ts.
Proof.
  intros H. unfold serve, get_session. destruct tmo as [t|]; [|by rewrite H].
  unfold mbind, ST_bind. destruct (read _ _) as [[] s]; [|done]. by rewrite H.
Qed.

Lemma serve_quiet (tmo : option Z) (ok : Z) (h : M body) (d : database) :
  serve tmo ok h d [] = (let '(r, s) := h (mkSession d []) in (respond ok r, db s)).
Proof. unfold serve, get_session. by destruct tmo. Qed.

#[export] Instance newer_total : Total newer.
Proof. intros a b. unfold newer. lia. Qed.

#[export] Instance newer_trans : Transitive newer.
Proof. intros a b c. unfold newer. lia. Qed.

(** The orders of a customer, newest first. *)
Definition listing (c : Z) (d : database) : list order :=
  merge_sort newer (List.filter (is_of c) (orders d)).

(** *** Both shapes of the listing, one statement at a time *)

Lemma count_query (c : Z) (s : session) : count_of (_order_query c) s = count_orders c s.
Proof.
  unfold count_of, count_orders, select_order_count. apply read_ext. intros d. unfold run_select. simpl.
  by rewrite drop_0, (filter_ext _ (is_of c)) by (intros o; by rewrite andb_true_r).
Qed.

Lemma shapes_agree (iso : Z -> string) (c lim off : Z) (s : session) :
  (page ← list_customer_orders c lim off;
   mret (PageBody (map (fun i => order_fields iso (l_id i) (l_status i) (l_total i) (l_at i)) (l_items page))
     (l_count page))) s =
  (page ← customer_order_page c lim off;
   mret (PageBody (map (fun i => order_fields iso (v_id i) (v_status i) (v_total i) (v_at i)) (items page))
     (total page))) s.
Proof.
  unfold list_customer_orders, customer_order_page, _require_customer, fetch_orders, select_orders,
    mbind, ST_bind, mret, ST_ret, raise.
  destruct (find_customer c s) as [[[k|]|e] s1]; [|done|done].
  change (where_and (is_of c) select_order) with (_order_query c).
  destruct (execute _ s1) as [[rows|e] s2]; [|done]. rewrite count_query.
  destruct (count_orders c s2) as [[n|e] s3]; [|done]. simpl. by rewrite !map_map.
Qed.

(** ** Properties *)

(** C19: The deep and the shallow listing are one function.  For any arguments,
    database, configuration and behaviour of the database between and during the
    statements, [GET /shallow/customers/{id}/orders] and [GET /deep/...] give the
    same response and leave the same database. *)
Theorem shallow_deep_agree (iso : Z -> string) (tmo : option Z) (c lim off : Z) (d : database)
    (turns : list turn) :
  shallow_customer_orders iso tmo c lim off d turns = deep_customer_orders iso tmo c lim off d turns.
Proof.
  unfold shallow_customer_orders, deep_customer_orders. f_equal. apply serve_ext. intros s.
  apply shapes_agree.
Qed.

(** The pages of the listing tile it, and its total counts it.  With nothing
    else writing: an unknown customer is a 404; for a customer there is one
    listing, its orders newest first, of which every page in range is the slice its
    offset and limit ask for, and whose length every page reports as the total. *)
Theorem listing_pages (iso : Z -> string) (tmo : option Z) (c : Z) (d : database) :
  (customers d !! c = None -> forall lim off, 1 <= lim <= 200 -> 0 <= off ->
     h_status (deep_customer_orders iso tmo c lim off d []).1 = 404) /\
  (is_Some (customers d !! c) -> exists l,
     l ≡ₚ List.filter (is_of c) (orders d) /\ StronglySorted newer l /\
     forall lim off, 1 <= lim <= 200 -> 0 <= off ->
       deep_customer_orders iso tmo c lim off d [] =
         (mkHttp 200 (PageBody
            (map (fun o => order_fields iso (id o) (status o) (total_cents o) (created_at o))
               (take (Z.to_nat lim) (drop (Z.to_nat off) l)))
            (Z.of_nat (length l))), d)).
Proof.
  assert (Hv : forall lim off, 1 <= lim <= 200 -> 0 <= off ->
    (1 <=? lim) && (lim <=? 200) && (0 <=? off) = true).
  { intros lim off H1 H2. rewrite !andb_true_iff, !Z.leb_le. lia. }
  split.
  - intros Hc lim off H1 H2. unfold deep_customer_orders. rewrite (Hv lim off H1 H2). simpl.
    rewrite serve_quiet. unfold customer_order_page, _require_customer, find_customer, mbind, ST_bind.
    rewrite read_quiet, Hc. done.
  - intros [k Hc]. exists (listing c d). split_and!; [apply merge_sort_Permutation| |].
    { apply (StronglySorted_merge_sort newer). }
    intros lim off H1 H2. unfold deep_customer_orders. rewrite (Hv lim off H1 H2). simpl.
    rewrite serve_quiet. unfold customer_order_page, _require_customer, find_customer, execute, count_of,
      mbind, ST_bind. rewrite read_quiet, Hc. cbn -[read run_select].
    rewrite read_quiet. cbn -[read run_select]. rewrite read_quiet. cbn -[run_select].
    unfold run_select. cbn -[merge_sort forallb Z.to_nat]. rewrite map_map, drop_0, !forallb_is_of.
    unfold listing. by rewrite (Permutation_length (merge_sort_Permutation newer _)).
Qed.

(** *** What an outage looks like *)

(** The parts of [customer_orders] with nothing else writing. *)
Lemma execute_fates (f : database -> list order) (d : database) (t : turn) (ts : list turn) :
  meanwhile t d = d -> read f (mkSession d (t :: ts)) =
    (match fate_of t with Fine => Ok (f d) | Refuses e | Loses e => Err e end, mkSession d ts).
Proof. intros Ht. unfold read, statement. simpl. rewrite Ht. by destruct (fate_of t). Qed.

(** Three ways to fail.  When the first statement of [GET /customers/{id}/orders]
    is refused by an [OperationalError] and nothing else goes wrong, [swallow]
    answers 200 with no items beside the true total, [none] 500, and [correct] 503
    with a [Retry-After] of one second.  When every statement is refused, the
    database being cut, [swallow] too answers 500, for the count is not guarded; and
    a count that fails alone is a 500 in every mode. *)
Theorem outage_by_mode (mode : error_mode) (c : Z) (st : option string) (lim : Z) (d : database) :
  1 <= lim <= 200 ->
  let blip := [refused OperationalError] in
  let cut := [refused OperationalError; refused OperationalError; refused OperationalError] in
  let late := [quiet; quiet; refused OperationalError] in
  let call turns := customer_orders None mode c st lim d turns in
  (match mode with
   | Swallow => call blip = (mkHttp 200 (PageBody [] (Z.of_nat (length (run_select (filtered c st) d)))), d) /\
                h_status (call cut).1 = 500
   | NoHandling => h_status (call blip).1 = 500 /\ h_status (call cut).1 = 500
   | Correct => (exists b hs, call blip = (mkHttp 503 (ErrorBody b hs), d) /\
                   hs !! "Retry-After" = Some "1"%string) /\ h_status (call cut).1 = 503
   end) /\ h_status (call late).1 = 500.
Proof.
  intros Hl blip cut late call. subst call. unfold customer_orders.
  assert ((1 <=? lim) && (lim <=? 200) = true) as ->.
  { rewrite andb_true_iff, !Z.leb_le. lia. }
  destruct mode; cbn -[run_select filtered]; split_and!; try done; [].
  eexists _, _. split; [reflexivity|]. vm_compute. done.
Qed.

(** *** The most recent orders *)

Definition live (c : Z) (o : order) : bool := is_of c o && negb (has_status "cancelled" o).

(** *** The integrity of the tables *)

Record wf (d : database) : Prop := {
  wf_ids : NoDup (id <$> orders d);
  wf_next : Forall (fun o => id o < next_id d) (orders d);
  wf_customers : Forall (fun o => forall c, customer_id o = Some c -> is_Some (customers d !! c)) (orders d);
  wf_totals : Forall (fun o => 0 <= total_cents o) (orders d);
}.

Lemma same_id (d : database) (a b : order) :
  wf d -> a ∈ orders d -> b ∈ orders d -> id a = id b -> a = b.
Proof.
  intros [H _ _ _] Ha Hb Hid. apply list_elem_of_lookup in Ha as [i Hi], Hb as [j Hj].
  assert (i = j) as ->.
  { eapply NoDup_lookup; [exact H|..]; rewrite list_lookup_fmap; [by rewrite Hi|].
    rewrite Hj. simpl. by rewrite Hid. }
  congruence.
Qed.

Lemma merge_sort_sorted (d : database) (l : list order) :
  wf d -> (forall o, o ∈ l -> o ∈ orders d) -> StronglySorted newer l -> merge_sort newer l = l.
Proof.
  intros Hd Hsub Hl. apply (StronglySorted_unique_strong newer).
  - intros a b Ha Hb [H1|[H1 H1']] [H2|[H2 H2']]; try lia.
    rewrite merge_sort_Permutation in Ha.
    apply (same_id d); [done|by apply Hsub|by apply Hsub|lia].
  - apply (StronglySorted_merge_sort newer).
  - done.
  - apply merge_sort_Permutation.
Qed.

Definition with_order (o : order) (d : database) : database :=
  mkDatabase (customers d) (orders d ++ [o]) (next_id d + 1) (now d).

Definition without (i : Z) (d : database) : database :=
  mkDatabase (customers d) (List.filter (fun o => negb (id o =? i)) (orders d)) (next_id d) (now d).

Lemma wf_insert (d : database) (c : option Z) (st : string) (cents : Z) :
  wf d -> 0 <= cents -> (forall k, c = Some k -> is_Some (customers d !! k)) ->
  wf (with_order (mkOrder (next_id d) c st cents (now d)) d).
Proof.
  intros [H1 H2 H3 H4] H0 Hc. split; simpl.
  - rewrite fmap_app. apply NoDup_app. split_and!; [done| |by apply NoDup_singleton].
    intros i Hi Hn. simpl in Hn. apply list_elem_of_singleton in Hn. apply list_elem_of_fmap in Hi as (o & -> & Ho).
    rewrite Forall_forall in H2. specialize (H2 o Ho). simpl in H2. lia.
  - apply Forall_app. split; [|constructor; [simpl; lia|constructor]].
    eapply Forall_impl; [exact H2|]. simpl. lia.
  - apply Forall_app. split; [done|]. constructor; [exact Hc|constructor].
  - apply Forall_app. split; [done|]. constructor; [exact H0|constructor].
Qed.

Lemma wf_delete (d : database) (i : Z) : wf d -> wf (without i d).
Proof.
  intros [H1 H2 H3 H4].
  split; simpl.
  - eapply sublist_NoDup; [exact H1|]. apply filter_fmap_sublist.
  - by apply Forall_list_filter.
  - by apply Forall_list_filter.
  - by apply Forall_list_filter.
Qed.

Lemma wf_take_id (d : database) : wf d -> wf (take_id d).
Proof. intros [H1 H2 H3 H4]. split; try done. eapply Forall_impl; [exact H2|]. simpl. lia. Qed.

(** *** What a handler does to the rows *)

(** What one statement of a handler did, and the rows it touched. *)
Inductive change : Type :=
| Nothing
| TakesId
| Inserts (c : option Z) (st : string) (cents : Z)
| Deletes (i : Z).

Definition known (c : option Z) (d : database) : Prop := forall k, c = Some k -> is_Some (customers d !! k).

Definition own (ch : change) (d : database) : database :=
  match ch with
  | Nothing => d
  | TakesId => take_id d
  | Inserts c st cents => with_order (mkOrder (next_id d) c st cents (now d)) d
  | Deletes i => without i d
  end.

Definition rows (chs : list change) : list change :=
  List.filter (fun ch => match ch with Nothing | TakesId => false | _ => true end) chs.

(** A run of statements: each after what the others did meanwhile; and the id it gave out. *)
Fixpoint replay (ts : list turn) (chs : list change) (d : database) : database :=
  match chs with
  | [] => d
  | ch :: chs => replay (tail ts) chs (own ch (meanwhile (default quiet (head ts)) d))
  end.

Fixpoint id_given (ts : list turn) (chs : list change) (d : database) : option Z :=
  match chs with
  | [] => None
  | ch :: chs =>
      let d := meanwhile (default quiet (head ts)) d in
      match ch with Inserts _ _ _ => Some (next_id d) | _ => id_given (tail ts) chs (own ch d) end
  end.

(** Every INSERT met its customer. *)
Fixpoint meets (ts : list turn) (chs : list change) (d : database) : Prop :=
  match chs with
  | [] => True
  | ch :: chs =>
      let d := meanwhile (default quiet (head ts)) d in
      match ch with Inserts c _ _ => known c d | _ => True end /\ meets (tail ts) chs (own ch d)
  end.

(** The result [r] and the database [d'] come from [d] by at most one change of the rows,
    the one that is wanted, and by exactly that one when the handler returns. *)
Definition writes (want : change) (ts : list turn) (d : database) (r : res exn body) (d' : database) : Prop :=
  exists chs, d' = replay ts chs d /\ meets ts chs d /\ (rows chs = [] \/ rows chs = [want]) /\
    forall b, r = Ok b -> rows chs = [want] /\
      match want with
      | Inserts _ _ _ => exists o, b = OneBody (order_out o) /\ o ∈ orders d' /\ id_given ts chs d = Some (id o)
      | _ => b = NoBody
      end.

Lemma find_order (i : Z) (l : list order) (o : order) :
  List.find (fun o => id o =? i) l = Some o -> o ∈ l /\ id o = i.
Proof. intros H. apply List.find_some in H as [Hin Hi]. split; [by apply list_elem_of_In|by apply Z.eqb_eq]. Qed.

Lemma insert_writes (c : option Z) (st : string) (cents : Z) (ts : list turn) (d : database) :
  let '(r, s) := (i ← insert_order c st cents; o ← refresh i; mret (OneBody (order_out o))) (mkSession d ts) in
  writes (Inserts c st cents) ts d r (db s).
Proof.
  unfold insert_order, refresh, read, statement, mbind, ST_bind, mret, ST_ret, raise. cbn [env db].
  set (d1 := meanwhile (default quiet (head ts)) d).
  set (bad := negb _). set (ok := match c with Some k => _ | None => true end).
  assert (Hk : ok = true -> known c d1).
  { unfold ok. intros H k ->. by apply bool_decide_eq_true in H. }
  assert (Hone : forall chs d', chs = [Nothing] /\ d' = d1 \/ chs = [TakesId] /\ d' = take_id d1 \/
      chs = [Inserts c st cents] /\ ok = true /\ d' = own (Inserts c st cents) d1 ->
    forall e, writes (Inserts c st cents) ts d (Err e) d').
  { intros chs d' H e. exists chs. unfold replay, meets. fold d1.
    destruct H as [[-> ->]|[[-> ->]|(-> & Ho & ->)]]; split_and!; auto; done. }
  destruct (fate_of _); [|by eapply Hone; left|].
  2: { destruct bad; [by eapply Hone; left|]. destruct ok; [by eapply Hone; right; right|by eapply Hone; right; left]. }
  destruct bad; [by eapply Hone; left|]. destruct ok eqn:Eo; [|by eapply Hone; right; left].
  cbn [env db]. set (d2 := meanwhile (default quiet (head (tail ts))) (with_order (mkOrder (next_id d1) c st cents (now d1)) d1)).
  change (mkDatabase _ _ _ _) with (with_order (mkOrder (next_id d1) c st cents (now d1)) d1). fold d2.
  assert (Htwo : forall r, (forall b, r = Ok b -> exists o, b = OneBody (order_out o) /\ o ∈ orders d2 /\ id o = next_id d1) ->
    writes (Inserts c st cents) ts d r d2).
  { intros r Hr. exists [Inserts c st cents; Nothing]. unfold replay, meets, id_given. fold d1. split_and!; auto.
    intros b Hb. split; [done|]. destruct (Hr b Hb) as (o & -> & Ho & <-). by exists o. }
  destruct (fate_of _); [|by apply Htwo..].
  destruct (List.find _ _) as [o|] eqn:Ef; [|by apply Htwo].
  apply find_order in Ef as [Ho Hi]. apply Htwo. intros b [= <-]. by exists o.
Qed.

Lemma delete_writes (i : Z) (ts : list turn) (d : database) :
  let '(r, s) := (delete_row i ≫= fun _ => mret NoBody) (mkSession d ts) in writes (Deletes i) ts d r (db s).
Proof.
  unfold delete_row, statement, mbind, ST_bind, mret, ST_ret. cbn [env db]. destruct (fate_of _); cbn [db snd].
  - exists [Deletes i]. split_and!; auto; [done|]. by intros b [= <-].
  - exists [Nothing]. split_and!; auto; done.
  - exists [Deletes i]. split_and!; auto; done.
Qed.

(** A handler that refuses before its first statement. *)
Lemma raise_writes (want : change) (e : exn) (ts : list turn) (d : database) :
  let '(r, s) := raise (A := body) e (mkSession d ts) in writes want ts d r (db s).
Proof. exists []. split_and!; auto; done. Qed.

(** A whole request: [get_session], the handler, the status. *)
Lemma serve_writes (want : change) (tmo : option Z) (ok : Z) (h : M body) (d : database) (ts : list turn) :
  ok < 400 -> (forall ts d, let '(r, s) := h (mkSession d ts) in writes want ts d r (db s)) ->
  let '(resp, d') := serve tmo ok h d ts in
  exists r, resp = respond ok r /\ writes want ts d r d' /\ (h_status resp = ok -> exists b, r = Ok b /\ h_body resp = b).
Proof.
  intros Hlt Hh. assert (Hr : forall r, h_status (respond ok r) = ok -> exists b, r = Ok b /\ h_body (respond ok r) = b).
  { intros [b|[e| |]]; simpl; [by exists b| |lia|lia].
    unfold app_error_handler. destruct e as [[] ? ?|? x]; simpl; try lia. destruct (retry_after_header x); simpl; lia. }
  unfold serve, get_session. destruct tmo as [t|].
  - unfold read, statement, mbind, ST_bind. cbn [env db]. set (d1 := meanwhile (default quiet (head ts)) d).
    assert (Hfirst : forall e, writes want ts d (Err e) d1).
    { intros e. exists [Nothing]. split_and!; auto; done. }
    destruct (fate_of _) as [|e|e]; [|exists (Err e); by split_and!; [|apply Hfirst|apply Hr]..].
    specialize (Hh (tail ts) d1). destruct (h _) as [r s]. destruct Hh as (chs & H1 & H2 & H3 & H4).
    exists r. split; [done|]. split; [|apply Hr]. by exists (Nothing :: chs).
  - specialize (Hh ts d). destruct (h _) as [r s]. exists r. by split_and!; [| |apply Hr].
Qed.

(** What other sessions do preserves the tables' integrity. *)
Definition fair_turns (ts : list turn) : Prop := Forall (fun t => forall d, wf d -> wf (meanwhile t d)) ts.

Lemma writes_wf (want : change) (ts : list turn) (d d' : database) (r : res exn body) :
  writes want ts d r d' -> match want with Inserts _ _ cents => 0 <= cents | _ => True end ->
  fair_turns ts -> wf d -> wf d'.
Proof.
  intros (chs & -> & Hm & Hrows & _) Hw. assert (Hall : Forall (fun ch => match ch with Inserts _ _ cents => 0 <= cents | _ => True end) chs).
  { apply Forall_forall. intros ch Hch. destruct ch as [| |c st cents|i]; try done.
    assert (Hin : Inserts c st cents ∈ rows chs) by (apply list_elem_of_In, filter_In; split; [by apply list_elem_of_In|done]).
    destruct Hrows as [E|E]; rewrite E in Hin; [by apply not_elem_of_nil in Hin|].
    apply list_elem_of_singleton in Hin as <-. exact Hw. }
  clear Hrows. revert ts d Hm. induction Hall as [|ch chs Hch _ IH]; intros ts d Hm Hts Hd; [done|].
  cbn [replay meets] in *. destruct Hm as [Hk Hm]. apply IH; [done|unfold fair_turns in *; by destruct Hts|].
  assert (Hd1 : wf (meanwhile (default quiet (head ts)) d)) by (destruct Hts; [done|]; simpl; auto).
  destruct ch; [done|by apply wf_take_id|by apply wf_insert|by apply wf_delete].
Qed.

(** The handlers that create an order, with the status they give it and whether they ask
    for a customer. *)
Definition creators (tmo c : option Z) (cents : Z) : list ((database -> list turn -> http * database) * (string * bool)) :=
  [(create_order tmo c cents, ("pending", false));
   (serve tmo 201 (dup_create_order c cents), ("pending", true));
   (serve tmo 201 (dup_create_draft c cents), ("draft", true));
   (serve tmo 201 (shared_create_order c cents), ("pending", true));
   (serve tmo 201 (shared_create_draft c cents), ("draft", true))]%string.

Definition refuses (required : bool) (c : option Z) (cents : Z) : bool :=
  (cents <? 0) || (required && match c with None => true | Some _ => false end).

(** Each of them refuses a request, or inserts and reads back. *)
Lemma creators_shape (tmo c : option Z) (cents : Z) :
  Forall (fun '(h, (st, required)) =>
    exists e, h = serve tmo 201 (if refuses required c cents then raise (App (Plain Invalid e []))
                                 else i ← insert_order c st cents; o ← refresh i; mret (OneBody (order_out o))))
    (creators tmo c cents).
Proof.
  unfold creators, refuses, create_order, dup_create_order, dup_create_draft, shared_create_order, shared_create_draft, _create, negative_total, missing_customer.
  repeat (apply Forall_cons_2; [destruct (cents <? 0), c; cbn [orb andb]; first [by exists EmptyString|by eexists]|]). apply Forall_nil_2.
Qed.

(** Other sessions and failing statements changed no row of the handler's. *)
Definition leaves (ts : list turn) (d d' : database) : Prop := exists chs, d' = replay ts chs d /\ rows chs = [].

Lemma writes_nothing (ts : list turn) (d d' : database) (r : res exn body) : writes Nothing ts d r d' -> leaves ts d d'.
Proof.
  intros (chs & -> & _ & [H|H] & _); exists chs; [done|].
  assert (Hin : Nothing ∈ rows chs) by (rewrite H; by left).
  apply list_elem_of_In, filter_In in Hin as [_ [=]].
Qed.

(** The columns fit, and the customer exists. *)
Definition storable (d : database) (c : option Z) (cents : Z) : bool :=
  fits 64 cents && match c with Some k => fits 32 k && bool_decide (is_Some (customers d !! k)) | None => true end.

(** What a request is answered with nothing else writing. *)
Definition answer_to (d : database) (required : bool) (c : option Z) (cents : Z) : Z :=
  if refuses required c cents then 422 else if storable d c cents then 201 else 500.

(** With nothing else writing, the INSERT of a row that can be stored. *)
Lemma run_insert (c : option Z) (st : string) (cents : Z) (d : database) :
  insert_order c st cents (mkSession d []) =
  (if storable d c cents
   then (Ok (next_id d), mkSession (with_order (mkOrder (next_id d) c st cents (now d)) d) [])
   else if fits 64 cents && match c with Some k => fits 32 k | None => true end
   then (Err IntegrityError, mkSession (take_id d) []) else (Err DataError, mkSession d [])).
Proof.
  unfold insert_order, statement, storable. cbn -[fits]. destruct (fits 64 cents); [|done].
  destruct c as [k|]; [|done]. destruct (fits 32 k); [|done]. simpl. by destruct (bool_decide _).
Qed.

Lemma find_fresh (d : database) (o : order) :
  wf d -> id o = next_id d -> List.find (fun x => id x =? next_id d) (orders d ++ [o]) = Some o.
Proof.
  intros [_ H _ _] Ho. induction H as [|x l Hx _ IH]; simpl; [by rewrite Ho, Z.eqb_refl|].
  destruct (Z.eqb_spec (id x) (next_id d)); [lia|exact IH].
Qed.

Lemma quiet_status (tmo c : option Z) (cents : Z) (d : database) (e : string) (required : bool) (st : string) :
  wf d ->
  h_status (serve tmo 201 (if refuses required c cents then raise (App (Plain Invalid e []))
                           else i ← insert_order c st cents; o ← refresh i; mret (OneBody (order_out o))) d []).1 =
  answer_to d required c cents.
Proof.
  intros Hd. rewrite serve_quiet. unfold answer_to. destruct (refuses required c cents); [done|].
  unfold refresh, mbind, ST_bind. rewrite run_insert. destruct (storable d c cents); [|by destruct (_ && _)].
  rewrite read_quiet. cbn [orders with_order]. by rewrite (find_fresh d (mkOrder (next_id d) c st cents (now d)) Hd eq_refl).
Qed.

(** C18: What the writing handlers write.  Whatever other sessions do between its
    statements and however those fail, a handler that creates an order changes no row but
    to insert at most one, with its customer, its status and its total; a 201 says that it
    did, and shows that row by the id it was given; a request it refuses, for a negative
    total or a missing customer where one is required, inserts nothing.  A delete deletes at
    most the row it was asked for, and has when it answers 204.  So ids stay unique and
    below the next one, customers exist and totals are not negative, whatever sessions that
    keep this do meanwhile.  With nothing else writing, the answer is 422, 201 or 500 as the
    request is refused, has a known customer or none, or an unknown one; and 204. *)
Theorem handlers_write_one_row (tmo c : option Z) (cents i : Z) (d : database) (ts : list turn) :
  Forall (fun '(h, (st, required)) =>
    let '(resp, d') := h d ts in
    (exists r, resp = respond 201 r /\ writes (Inserts c st cents) ts d r d' /\
       (h_status resp = 201 -> exists b, r = Ok b /\ h_body resp = b)) /\
    (refuses required c cents = true -> leaves ts d d') /\
    (wf d -> fair_turns ts -> wf d') /\
    (ts = [] -> wf d -> h_status resp = answer_to d required c cents))
    (creators tmo c cents) /\
  (let '(resp, d') := delete_order tmo i d ts in
   (exists r, resp = respond 204 r /\ writes (Deletes i) ts d r d' /\
      (h_status resp = 204 -> exists b, r = Ok b /\ h_body resp = b)) /\
   (wf d -> fair_turns ts -> wf d') /\ (ts = [] -> h_status resp = 204)).
Proof.
  split.
  - eapply Forall_impl; [apply creators_shape|]. intros [h [st required]] [e ->].
    pose proof (quiet_status tmo c cents d e required st) as Hq.
    set (body := if refuses required c cents then _ else _) in *.
    assert (Hb : forall ts d, let '(r, s) := body (mkSession d ts) in writes (Inserts c st cents) ts d r (db s)).
    { intros ts' d'. unfold body. destruct (refuses _ _ _); [apply raise_writes|apply insert_writes]. }
    pose proof (serve_writes (Inserts c st cents) tmo 201 body d ts ltac:(lia) Hb) as H.
    assert (Hn : refuses required c cents = true ->
      let '(_, d') := serve tmo 201 body d ts in exists r, writes Nothing ts d r d').
    { intros E. unfold body in *. rewrite E in *.
      pose proof (serve_writes Nothing tmo 201 (raise (App (Plain Invalid e []))) d ts ltac:(lia) (fun ts d => raise_writes Nothing _ ts d)) as H0.
      revert H0. destruct (serve tmo 201 (raise _) d ts) as [resp d']. intros (r & _ & H0 & _). by exists r. }
    destruct (serve tmo 201 body d ts) as [resp d'] eqn:Es. destruct H as (r & Hr & Hw & Hs). split_and!.
    + by exists r.
    + intros E. destruct (Hn E) as [r' H']. by eapply writes_nothing.
    + intros Hd Hts. destruct (refuses required c cents) eqn:E.
      * destruct (Hn eq_refl) as [r' H']. by eapply writes_wf.
      * eapply writes_wf; [exact Hw| |done..]. simpl. unfold refuses in E. apply orb_false_iff in E as [E _]. lia.
    + intros -> Hd. rewrite <- (Hq Hd), Es. done.
  - pose proof (serve_writes (Deletes i) tmo 204 _ d ts ltac:(lia) (delete_writes i)) as H.
    unfold delete_order. destruct (serve _ _ _ _ _) as [resp d'] eqn:Es. destruct H as (r & Hr & Hw & Hs). split_and!.
    + by exists r.
    + intros Hd Hts. by eapply writes_wf.
    + intros ->. rewrite serve_quiet in Es. by injection Es as <- <-.
Qed.

(** The two ways to read the recent orders, with nothing else writing. *)
Lemma run_recent (c lim : Z) (d : database) :
  recent_orders c lim (mkSession d []) =
    (Ok (List.filter (fun o => negb (has_status "cancelled" o))
           (take (Z.to_nat lim) (List.filter (is_of c) (orders d)))), mkSession d []).
Proof.
  unfold recent_orders, execute, mbind, ST_bind. rewrite read_quiet. cbn -[forallb Z.to_nat].
  by rewrite drop_0, forallb_is_of.
Qed.

Lemma run_recent_fixed (c lim : Z) (d : database) :
  recent_orders_fixed c lim (mkSession d []) =
    (Ok (take (Z.to_nat lim) (merge_sort newer (List.filter (live c) (orders d)))), mkSession d []).
Proof.
  unfold recent_orders_fixed, execute. rewrite read_quiet. cbn -[forallb merge_sort Z.to_nat].
  rewrite drop_0. do 4 f_equal. apply filter_ext. intros o. simpl. unfold live. by rewrite andb_true_r.
Qed.

(** What a mock cannot see.  With nothing else writing, [recent_orders] never
    returns more orders than [recent_orders_fixed], and only orders that qualify;
    on a table whose scan order is already newest first and which holds no cancelled
    order of the customer, which is what a fixture holds, the two agree. *)
Theorem recent_orders_seen_through_a_mock (c lim : Z) (d : database) :
  wf d ->
  exists rs fs,
    recent_orders c lim (mkSession d []) = (Ok rs, mkSession d []) /\
    recent_orders_fixed c lim (mkSession d []) = (Ok fs, mkSession d []) /\
    length fs = Nat.min (Z.to_nat lim) (length (List.filter (live c) (orders d))) /\
    (length rs <= length fs)%nat /\ (forall o, o ∈ rs -> o ∈ orders d /\ live c o = true) /\
    (StronglySorted newer (List.filter (is_of c) (orders d)) ->
     (forall o, o ∈ orders d -> is_of c o = true -> has_status "cancelled" o = false) -> rs = fs).
Proof.
  intros Hd. eexists _, _. split; [apply run_recent|]. split; [apply run_recent_fixed|].
  set (q := fun o => negb (has_status "cancelled" o)).
  assert (Hlive : List.filter (live c) (orders d) = List.filter q (List.filter (is_of c) (orders d)))
    by (by rewrite filter_filter_andb).
  assert (Hlen : length (merge_sort newer (List.filter (live c) (orders d))) =
    length (List.filter (live c) (orders d))) by apply (Permutation_length (merge_sort_Permutation newer _)).
  split_and!.
  - by rewrite length_take, Hlen.
  - etransitivity; [apply filter_take_le|]. rewrite <- Hlive, !length_take. lia.
  - intros o Ho. apply list_elem_of_In, filter_In in Ho as [Ho Hq].
    apply list_elem_of_In, elem_of_take in Ho as (i & Ho & _).
    apply list_elem_of_lookup_2, list_elem_of_In, filter_In in Ho as [Ho Hc].
    split; [by apply list_elem_of_In|]. unfold live. rewrite Hc. exact Hq.
  - intros Hs Hc.
    assert (Hall : forall o, o ∈ List.filter (is_of c) (orders d) -> o ∈ orders d /\ q o = true).
    { intros o Ho. apply list_elem_of_In, filter_In in Ho as [Ho Hi]. apply list_elem_of_In in Ho.
      split; [done|]. unfold q. by rewrite (Hc o Ho Hi). }
    assert (Heq : List.filter (live c) (orders d) = List.filter (is_of c) (orders d)).
    { rewrite Hlive. apply filter_all_true, Forall_forall. intros o Ho. by apply Hall. }
    rewrite Heq, (merge_sort_sorted d); [|done|intros o Ho; by apply Hall|done].
    apply filter_all_true, Forall_forall. intros o (i & Ho & _)%elem_of_take.
    by apply Hall, list_elem_of_lookup_2 with i.
Qed.

(** *** Create, read, delete *)

Lemma find_deleted (i : Z) (l : list order) :
  List.find (fun x => id x =? i) (List.filter (fun o => negb (id o =? i)) l) = None.
Proof.
  induction l as [|o l IH]; [done|]. simpl. destruct (id o =? i) eqn:E; simpl; [exact IH|]. by rewrite E.
Qed.

Lemma filter_fresh (d : database) (o : order) :
  wf d -> id o = next_id d -> List.filter (fun x => negb (id x =? next_id d)) (orders d ++ [o]) = orders d.
Proof.
  intros [_ H _ _] Ho. rewrite List.filter_app. simpl. rewrite Ho, Z.eqb_refl. simpl. rewrite app_nil_r.
  apply filter_all_true, Forall_forall. intros x Hx. rewrite Forall_forall in H. specialize (H x Hx). simpl in H.
  apply negb_true_iff, Z.eqb_neq. lia.
Qed.

Lemma run_create (tmo : option Z) (c : option Z) (cents : Z) (d : database) :
  wf d -> 0 <= cents -> storable d c cents = true ->
  let o := mkOrder (next_id d) c "pending" cents (now d) in
  create_order tmo c cents d [] = (mkHttp 201 (OneBody (order_out o)), with_order o d).
Proof.
  intros Hd H0 Hc o. unfold create_order. rewrite serve_quiet.
  assert ((cents <? 0) = false) as -> by (apply Z.ltb_ge; lia).
  unfold refresh, mbind, ST_bind. rewrite run_insert, Hc.
  rewrite read_quiet. cbn [orders with_order]. fold o. by rewrite (find_fresh d o Hd eq_refl).
Qed.

Lemma run_get (tmo : option Z) (i : Z) (d : database) :
  get_order tmo i d [] =
    (match List.find (fun o => id o =? i) (orders d) with
     | Some o => mkHttp 200 (OneBody (order_out o))
     | None => respond 200 (Err (App (Plain NotFound (str_message "order " i " not found") [("order_id", JInt i)])))
     end, d).
Proof.
  unfold get_order. rewrite serve_quiet. unfold mbind, ST_bind. rewrite read_quiet.
  by destruct (List.find _ _).
Qed.

Lemma run_delete (tmo : option Z) (i : Z) (d : database) :
  delete_order tmo i d [] = (mkHttp 204 NoBody, without i d).
Proof. unfold delete_order. by rewrite serve_quiet. Qed.

(** Create, read, delete, delete again.  With nothing else writing, an order of
    a known customer, or of none, with a total of at least zero and columns that fit is created as
    pending with a fresh id; reading it gives back what creating it answered;
    deleting it answers 204, leaves the orders that were there before, makes it a
    404, and answers 204 again without effect.  A negative total is a 422 and
    writes nothing; an unknown customer is a 500, which inserts nothing but uses up an id; a
    total that does not fit is a 500 that writes nothing. *)
Theorem create_read_delete (tmo : option Z) (c : option Z) (cents : Z) (d : database) :
  wf d ->
  (0 <= cents -> storable d c cents = true ->
   let o := mkOrder (next_id d) c "pending" cents (now d) in
   let '(r1, d1) := create_order tmo c cents d [] in
   let '(r2, d2) := delete_order tmo (next_id d) d1 [] in
   r1 = mkHttp 201 (OneBody (order_out o)) /\ orders d1 = orders d ++ [o] /\
   get_order tmo (next_id d) d1 [] = (mkHttp 200 (OneBody (order_out o)), d1) /\
   r2 = mkHttp 204 NoBody /\ orders d2 = orders d /\
   h_status (get_order tmo (next_id d) d2 []).1 = 404 /\
   delete_order tmo (next_id d) d2 [] = (mkHttp 204 NoBody, d2)) /\
  (cents < 0 -> h_status (create_order tmo c cents d []).1 = 422 /\ (create_order tmo c cents d []).2 = d) /\
  (0 <= cents < 2 ^ 63 -> forall k, c = Some k -> fits 32 k = true -> customers d !! k = None ->
   create_order tmo c cents d [] = (mkHttp 500 ServerErrorBody, take_id d)) /\
  (2 ^ 63 <= cents -> create_order tmo c cents d [] = (mkHttp 500 ServerErrorBody, d)).
Proof.
  intros Hd. split_and!.
  - intros H0 Hc o. rewrite (run_create tmo c cents d Hd H0 Hc). fold o. rewrite run_delete, !run_get.
    pose proof (filter_fresh d o Hd eq_refl) as Hf. unfold with_order, without. simpl.
    rewrite (find_fresh d o Hd eq_refl), Hf. split_and!; try done.
    + rewrite <- Hf, find_deleted. done.
    + rewrite run_delete. unfold without. simpl. do 2 f_equal.
      rewrite <- Hf at 1. by rewrite filter_idemp, Hf.
  - intros H0. unfold create_order. rewrite serve_quiet. by assert ((cents <? 0) = true) as -> by (by apply Z.ltb_lt).
  - intros H0 k -> Hb Hk. unfold create_order. rewrite serve_quiet.
    assert ((cents <? 0) = false) as -> by (apply Z.ltb_ge; lia).
    unfold mbind, ST_bind. rewrite run_insert. unfold storable. rewrite Hb, Hk, bool_decide_eq_false_2 by (by intros []).
    assert (fits 64 cents = true) as -> by (apply andb_true_iff; rewrite Z.leb_le, Z.ltb_lt; lia). done.
  - intros H0. unfold create_order. rewrite serve_quiet.
    assert ((cents <? 0) = false) as -> by (apply Z.ltb_ge; lia).
    unfold mbind, ST_bind. rewrite run_insert. unfold storable.
    assert (fits 64 cents = false) as -> by (apply andb_false_iff; rewrite Z.ltb_ge; by right). done.
Qed.

(** The two arms differ in one message.  From any session, [create_draft] of the
    duplicated arm and of the shared one are the same; so are the two
    [create_order]s, but for an order without customer, which both refuse as
    [Invalid] without touching the database, one for "an order", the other for "a
    pending". *)
Theorem dup_shared_agree (c : option Z) (cents : Z) (s : session) :
  dup_create_draft c cents s = shared_create_draft c cents s /\
  (0 <= cents -> c = None ->
     dup_create_order c cents s = (Err (missing_customer "an order"), s) /\
     shared_create_order c cents s = (Err (missing_customer "a pending"), s)) /\
  (cents < 0 \/ is_Some c -> dup_create_order c cents s = shared_create_order c cents s).
Proof.
  unfold dup_create_draft, shared_create_draft, dup_create_order, shared_create_order, _create.
  split_and!; [done| |].
  - intros H ->. by assert ((cents <? 0) = false) as -> by (apply Z.ltb_ge; lia).
  - intros [H|[k ->]]; [by assert ((cents <? 0) = true) as -> by (by apply Z.ltb_lt)|done].
Qed.

(** *** Witnesses *)

(** A scan order that is not newest first, and a cancelled order. *)
Definition shop : database :=
  mkDatabase {[1 := "ada"; 2 := "bob"]}
    [mkOrder 1 (Some 1) "cancelled" 100 10; mkOrder 2 (Some 1) "pending" 200 20;
     mkOrder 3 (Some 2) "pending" 300 30; mkOrder 4 (Some 1) "pending" 400 30; mkOrder 5 None "draft" 0 40] 6 50.

Lemma wf_shop : wf shop.
Proof.
  split.
  - apply (bool_decide_unpack (NoDup (id <$> orders shop))). by vm_compute.
  - by repeat constructor.
  - repeat constructor; simpl; intros k [=]; subst; by eexists.
  - by repeat constructor.
Qed.

Lemma listing_pages_witness :
  h_status (deep_customer_orders str_Z None 9 10 0 shop []).1 = 404 /\
  exists l, l ≡ₚ List.filter (is_of 1) (orders shop) /\
    deep_customer_orders str_Z None 1 2 1 shop [] =
      (mkHttp 200 (PageBody
         (map (fun o => order_fields str_Z (id o) (status o) (total_cents o) (created_at o))
            (take 2 (drop 1 l))) (Z.of_nat (length l))), shop).
Proof.
  split; [apply (proj1 (listing_pages str_Z None 9 shop)); [reflexivity|lia|lia]|].
  destruct (proj2 (listing_pages str_Z None 1 shop)) as (l & Hp & _ & Hl); [by eexists|].
  exists l. split; [exact Hp|]. apply (Hl 2 1); lia.
Defined.

Lemma outage_by_mode_witness :
  customer_orders None Swallow 1 None 50 shop [refused OperationalError] =
    (mkHttp 200 (PageBody [] 3), shop).
Proof. destruct (outage_by_mode Swallow 1 None 50 shop ltac:(lia)) as [[H _] _]. rewrite H. reflexivity. Defined.

(** Another session deletes the last order while the INSERT waits; its total is refused. *)
Definition busy : list turn := [mkTurn (without 5) Fine].

Lemma wf_busy : fair_turns busy.
Proof. constructor; [|constructor]. intros d Hd. by apply wf_delete. Qed.

Lemma handlers_write_one_row_witness :
  (exists chs, (create_order None (Some 2) 700 shop busy).2 = replay busy chs shop /\
     (rows chs = [] \/ rows chs = [Inserts (Some 2) "pending" 700])) /\
  wf (create_order None (Some 2) 700 shop busy).2 /\
  map id (orders (create_order None (Some 2) 700 shop busy).2) = [1; 2; 3; 4; 6] /\
  map id (orders (delete_order None 2 shop busy).2) = [1; 3; 4] /\
  h_status (serve None 201 (shared_create_draft None 700) shop []).1 = 422.
Proof.
  destruct (handlers_write_one_row None (Some 2) 700 2 shop busy) as [H _].
  apply Forall_cons_1 in H as [H _].
  rewrite (surjective_pairing (create_order _ _ _ _ _)) in H.
  destruct H as ((r & _ & (chs & Hd & _ & Hrows & _) & _) & _ & Hwf & _).
  split_and!; [by exists chs|exact (Hwf wf_shop wf_busy)|reflexivity..].
Defined.

Lemma recent_orders_seen_through_a_mock_witness :
  exists rs fs,
    recent_orders 1 2 (mkSession shop []) = (Ok rs, mkSession shop []) /\
    recent_orders_fixed 1 2 (mkSession shop []) = (Ok fs, mkSession shop []) /\
    map id rs = [2] /\ map id fs = [4; 2] /\ (length rs <= length fs)%nat.
Proof.
  destruct (recent_orders_seen_through_a_mock 1 2 shop wf_shop) as (rs & fs & H1 & H2 & _ & H3 & _).
  exists rs, fs. split_and!; [exact H1|exact H2| | |exact H3].
  - vm_compute in H1. injection H1 as <-. reflexivity.
  - vm_compute in H2. injection H2 as <-. reflexivity.
Defined.

Lemma create_read_delete_witness :
  h_status (create_order None (Some 1) 700 shop []).1 = 201 /\
  h_status (create_order None (Some 1) (-1) shop []).1 = 422 /\
  h_status (create_order None (Some 9) 700 shop []).1 = 500 /\
  h_status (create_order None (Some 1) (2 ^ 63) shop []).1 = 500.
Proof.
  split_and!.
  - pose proof (proj1 (create_read_delete None (Some 1) 700 shop wf_shop) ltac:(lia) eq_refl) as H.
    rewrite (surjective_pairing (create_order _ _ _ _ _)) in H.
    rewrite (surjective_pairing (delete_order _ _ _ _)) in H. rewrite (proj1 H). reflexivity.
  - apply (create_read_delete None (Some 1) (-1) shop wf_shop). lia.
  - destruct (create_read_delete None (Some 9) 700 shop wf_shop) as (_ & _ & H & _).
    rewrite (H ltac:(lia) 9 eq_refl eq_refl eq_refl). reflexivity.
  - destruct (create_read_delete None (Some 1) (2 ^ 63) shop wf_shop) as (_ & _ & _ & H).
    rewrite (H ltac:(lia)). reflexivity.
Defined.

Lemma dup_shared_agree_witness :
  dup_create_order (Some 1) 5 (mkSession shop []) = shared_create_order (Some 1) 5 (mkSession shop []) /\
  shared_create_order None 5 (mkSession shop []) = (Err (missing_customer "a pending"), mkSession shop []).
Proof.
  split; [apply dup_shared_agree; right; by eexists|].
  apply (dup_shared_agree None 5 (mkSession shop [])); [lia|reflexivity].
Defined.
