(* ===== verification/OrderKeys.v ===== *)
(** * The craft lab's idempotency keys

    Models src/08-craft/lab/api/app/services/idempotency.py: [create_order_with_key],
    which charges in one transaction and records the key in the next,
    [create_order_with_key_fixed], which does both in one, and [counts].  Callers
    interleave at their transactions; a caller may fail at any of them, or never be
    scheduled again, which is a crash.  A transaction's writes take effect when it
    commits: the unique key makes the database hold back a second writer of a key
    until the first has committed and then refuse it, so of two only one commits. *)

From Stdlib Require Import ZArith Lia.
From stdpp Require Import base option list numbers strings gmap.
From S2P Require Import Prelude.

Open Scope Z_scope.

(** ** Definitions *)

Record order_row : Type := mkOrder { o_id : Z; o_customer : Z; o_status : string; o_total : Z }.
Record charge_row : Type := mkCharge { c_order : Z; c_amount : Z }.

(** [keys] is the table of [IdempotencyKey], by its primary key. *)
Record tables : Type := mkTables {
  orders : list order_row;
  charges : list charge_row;
  keys : gmap string Z;
  next_order : Z;
}.

Definition no_rows : tables := mkTables [] [] ∅ 1.

Record request : Type := mkRequest { key : string; customer_id : Z; amount_cents : Z }.

Inductive outcome : Type := Returned (order_id : Z) | IntegrityError | Failed.

(** Where a caller is: before its read, after a read that found no key, after the
    charge is committed, or finished. *)
Inductive place : Type := Start | Missed | Charged (order_id : Z) | Done (o : outcome).

(** The transaction that writes the order and its charge. *)
Definition pay (r : request) (d : tables) : tables :=
  mkTables (orders d ++ [mkOrder (next_order d) (customer_id r) "pending" (amount_cents r)])
    (charges d ++ [mkCharge (next_order d) (amount_cents r)]) (keys d) (next_order d + 1).

Definition record_key (k : string) (order_id : Z) (d : tables) : tables :=
  mkTables (orders d) (charges d) (<[k := order_id]> (keys d)) (next_order d).

(** A statement of a caller.  [fails]: the database refuses this transaction. *)
Definition create_order_with_key (r : request) (p : place) (fails : bool) (d : tables) : place * tables :=
  match p with
  | Done o => (Done o, d)
  | _ =>
      if fails then (Done Failed, d)
      else match p with
      | Start => (match keys d !! key r with Some i => Done (Returned i) | None => Missed end, d)
      | Missed => (Charged (next_order d), pay r d)
      | Charged i =>
          match keys d !! key r with
          | Some _ => (Done IntegrityError, d)
          | None => (Done (Returned i), record_key (key r) i d)
          end
      | Done o => (Done o, d)
      end
  end.

Definition create_order_with_key_fixed (r : request) (p : place) (fails : bool) (d : tables) : place * tables :=
  match p with
  | Done o => (Done o, d)
  | _ =>
      if fails then (Done Failed, d)
      else match p with
      | Start => (match keys d !! key r with Some i => Done (Returned i) | None => Missed end, d)
      | Missed =>
          match keys d !! key r with
          | Some _ => (Done IntegrityError, mkTables (orders d) (charges d) (keys d) (next_order d + 1))
          | None => (Done (Returned (next_order d)), record_key (key r) (next_order d) (pay r d))
          end
      | Charged i => (Done (Returned i), d)
      | Done o => (Done o, d)
      end
  end.

(** [(charge rows, distinct idempotency keys)]. *)
Definition counts (d : tables) : nat * nat := (length (charges d), size (keys d)).

Abbreviation service := (request -> place -> bool -> tables -> place * tables).

Record world : Type := mkWorld { db : tables; callers : list (request * place) }.

Definition start (rs : list request) : world := mkWorld no_rows (map (fun r => (r, Start)) rs).

Definition step (f : service) (m : nat * bool) (w : world) : world :=
  match callers w !! m.1 with
  | None => w
  | Some (r, p) =>
      let '(p', d') := f r p m.2 (db w) in
      mkWorld d' (<[m.1 := (r, p')]> (callers w))
  end.

Definition run (f : service) (sched : list (nat * bool)) (w : world) : world := fold_left (fun w m => step f m w) sched w.

(** ** Lemmas *)

(** What the fixed service keeps: one charge for each key, that of its order. *)
Record consistent (w : world) : Prop := {
  con_counts : (counts (db w)).1 = (counts (db w)).2;
  con_charge : forall k i, keys (db w) !! k = Some i ->
    exists a, mkCharge i a ∈ charges (db w) /\ i < next_order (db w);
  con_once : NoDup (c_order <$> charges (db w));
  con_below : Forall (fun c => c_order c < next_order (db w)) (charges (db w));
  con_places : Forall (fun rp => match rp.2 with
    | Done (Returned i) => keys (db w) !! key rp.1 = Some i
    | Charged _ => False
    | _ => True end) (callers w);
}.

Lemma consistent_step (m : nat * bool) (w : world) :
  consistent w -> consistent (step create_order_with_key_fixed m w).
Proof.
  intros Hw. pose proof Hw as [C1 C2 C3 C4 C5]. unfold step.
  destruct (callers w !! m.1) as [[r p]|] eqn:Hi; [|done].
  pose proof (proj1 (Forall_lookup _ _) C5 _ _ Hi) as Hp. simpl in Hp.
  (* Steps that leave the tables alone. *)
  assert (Hsame : forall p', match p' with
      | Done (Returned i) => keys (db w) !! key r = Some i | Charged _ => False | _ => True end ->
    consistent (mkWorld (db w) (<[m.1 := (r, p')]> (callers w)))).
  { intros p' Hp'. split; try done. by apply Forall_insert. }
  unfold create_order_with_key_fixed. destruct p as [| |i|o]; [..|by apply Hsame].
  - destruct m.2; [by apply Hsame|]. destruct (keys (db w) !! key r) eqn:E; by apply Hsame.
  - destruct m.2; [by apply Hsame|]. destruct (keys (db w) !! key r) as [i|] eqn:E.
    + split; simpl; try done.
      * intros k j Hk. destruct (C2 k j Hk) as (a & ? & ?). exists a. split; [done|lia].
      * eapply Forall_impl; [exact C4|]. simpl. lia.
      * by apply Forall_insert.
    + unfold counts in C1. simpl in C1. split; simpl.
      * rewrite length_app, map_size_insert_None by done. simpl. lia.
      * intros k j Hk. apply lookup_insert_Some in Hk as [[<- <-]|[_ Hk]].
        -- exists (amount_cents r). split; [apply elem_of_app; right; by left|lia].
        -- destruct (C2 k j Hk) as (a & Ha & ?). exists a. split; [apply elem_of_app; by left|lia].
      * rewrite fmap_app. apply NoDup_app. split_and!; [done| |by apply NoDup_singleton].
        intros j Hj Hn. simpl in Hn. apply list_elem_of_singleton in Hn as ->.
        apply list_elem_of_fmap in Hj as (c & Hc & Hin). rewrite Forall_forall in C4.
        specialize (C4 c Hin). simpl in C4. lia.
      * apply Forall_app. split; [|constructor; [simpl; lia|constructor]].
        eapply Forall_impl; [exact C4|]. simpl. lia.
      * apply Forall_insert; [|simpl; by rewrite lookup_insert_eq].
        eapply Forall_impl; [exact C5|]. intros [r' [| |i|[i| |]]]; simpl; try done.
        intros Hk. rewrite lookup_insert_ne; [done|]. intros Heq. rewrite Heq in E. congruence.
  - done.
Qed.

Lemma consistent_run (sched : list (nat * bool)) (w : world) :
  consistent w -> consistent (run create_order_with_key_fixed sched w).
Proof. revert w. induction sched as [|m l IH]; intros w Hw; [done|]. by apply IH, consistent_step. Qed.

Lemma consistent_start (rs : list request) : consistent (start rs).
Proof.
  split; simpl; try done; [apply NoDup_nil_2|]. induction rs as [|r rs IH]; by constructor.
Qed.

(** *** One caller at a time *)

Definition one_by_one (idx : list nat) : list (nat * bool) :=
  flat_map (fun i => [(i, false); (i, false); (i, false)]) idx.

Lemma run_app (f : service) (s1 s2 : list (nat * bool)) (w : world) :
  run f (s1 ++ s2) w = run f s2 (run f s1 w).
Proof. apply fold_left_app. Qed.

(** A step of caller [i], whose place is known. *)
Lemma step_at (f : service) (i : nat) (b : bool) (w : world) (r : request) (p : place) :
  callers w !! i = Some (r, p) ->
  step f (i, b) w = mkWorld (f r p b (db w)).2 (<[i := (r, (f r p b (db w)).1)]> (callers w)).
Proof. intros H. unfold step. cbn [fst snd]. rewrite H. by destruct (f r p b (db w)). Qed.

Lemma step_nobody (f : service) (i : nat) (b : bool) (w : world) : callers w !! i = None -> step f (i, b) w = w.
Proof. intros H. unfold step. cbn [fst]. by rewrite H. Qed.

(** A caller that runs alone from its start does the same in both services. *)
Lemma alone_agree (i : nat) (w : world) :
  (forall r p, callers w !! i = Some (r, p) -> p = Start) ->
  run create_order_with_key (one_by_one [i]) w = run create_order_with_key_fixed (one_by_one [i]) w /\
  forall j, j <> i -> callers (run create_order_with_key (one_by_one [i]) w) !! j = callers w !! j.
Proof.
  intros Hs. unfold run. cbn [one_by_one flat_map app fold_left].
  destruct (callers w !! i) as [[r p]|] eqn:Hi; [|by rewrite !(step_nobody _ i false w Hi)].
  rewrite (Hs r p eq_refl) in Hi.
  assert (Hl : (i < length (callers w))%nat) by (by apply lookup_lt_Some in Hi).
  assert (Hat : forall d rp, callers (mkWorld d (<[i := rp]> (callers w))) !! i = Some rp)
    by (intros; simpl; by rewrite list_lookup_insert_eq).
  rewrite !(step_at _ i false w r Start Hi). cbn [create_order_with_key create_order_with_key_fixed].
  destruct (keys (db w) !! key r) as [k|] eqn:E; cbn [fst snd].
  - rewrite !(step_at _ i false _ r (Done (Returned k)) (Hat _ _)). simpl. rewrite !list_insert_insert_eq.
    rewrite !(step_at _ i false _ r (Done (Returned k)) (Hat _ _)). simpl. rewrite !list_insert_insert_eq.
    split; [done|]. intros j Hj. by rewrite list_lookup_insert_ne.
  - rewrite !(step_at _ i false _ r Missed (Hat _ _)). simpl. rewrite E, !list_insert_insert_eq. simpl.
    rewrite (step_at create_order_with_key i false _ r (Charged (next_order (db w))) (Hat _ _)).
    rewrite (step_at create_order_with_key_fixed i false _ r (Done (Returned (next_order (db w)))) (Hat _ _)).
    simpl. rewrite E, !list_insert_insert_eq. simpl.
    split; [done|]. intros j Hj. by rewrite list_lookup_insert_ne.
Qed.

Lemma one_by_one_agree (k n : nat) (w : world) :
  (forall j r p, (k <= j)%nat -> callers w !! j = Some (r, p) -> p = Start) ->
  run create_order_with_key (one_by_one (seq k n)) w = run create_order_with_key_fixed (one_by_one (seq k n)) w.
Proof.
  revert k w. induction n as [|n IH]; intros k w Hw; [done|]. cbn [seq].
  change (one_by_one (k :: seq (S k) n)) with (one_by_one [k] ++ one_by_one (seq (S k) n)).
  rewrite !run_app. destruct (alone_agree k w) as [Ha Hj]; [intros r p; by apply Hw|].
  rewrite <- Ha. apply IH. intros j r p Hle. rewrite Hj by lia. apply Hw. lia.
Qed.

(** *** A stage of callers of one request, each taking the same kind of step *)

Definition callers_at (r : request) (pl : nat -> place) (n : nat) : list (request * place) :=
  map (fun j => (r, pl j)) (seq 0 n).

Lemma callers_at_insert (r : request) (pl pl' : nat -> place) (k n : nat) :
  <[k := (r, pl' k)]> (callers_at r (fun j => if (j <? k)%nat then pl' j else pl j) n) =
  callers_at r (fun j => if (j <? S k)%nat then pl' j else pl j) n.
Proof.
  apply list_eq. intros j. unfold callers_at.
  change (@map nat (request * place)) with (@fmap list _ nat (request * place)).
  destruct (decide (k = j)) as [<-|Hne].
  - destruct (decide (k < n)%nat) as [Hlt|Hge].
    + rewrite list_lookup_insert_eq by (by rewrite length_fmap, length_seq).
      rewrite list_lookup_fmap, lookup_seq_lt by done. simpl. by destruct (Nat.ltb_spec k (S k)); [|lia].
    + rewrite list_insert_ge by (rewrite length_fmap, length_seq; lia).
      by rewrite !list_lookup_fmap, !lookup_seq_ge by lia.
  - rewrite list_lookup_insert_ne by done. rewrite !list_lookup_fmap.
    destruct (seq 0 n !! j) as [x|] eqn:E; [|done]. apply lookup_seq in E as [-> _]. simpl.
    do 2 f_equal. destruct (Nat.ltb_spec j k), (Nat.ltb_spec j (S k)); try done; lia.
Qed.

Lemma stage (f : service) (r : request) (pl pl' : nat -> place) (D : nat -> tables) (n : nat) :
  (forall j, (j < n)%nat -> f r (pl j) false (D j) = (pl' j, D (S j))) ->
  run f (map (fun i => (i, false)) (seq 0 n)) (mkWorld (D 0%nat) (callers_at r pl n)) =
  mkWorld (D n) (callers_at r pl' n).
Proof.
  intros Hf.
  assert (H : forall m k, (k + m = n)%nat ->
    run f (map (fun i => (i, false)) (seq k m))
      (mkWorld (D k) (callers_at r (fun j => if (j <? k)%nat then pl' j else pl j) n)) =
    mkWorld (D n) (callers_at r pl' n)).
  { induction m as [|m IH]; intros k Hk; simpl.
    - rewrite Nat.add_0_r in Hk. subst k. f_equal. unfold callers_at. apply map_ext_in. intros j Hj.
      apply in_seq in Hj. destruct (Nat.ltb_spec j n); [done|lia].
    - unfold run. cbn [fold_left]. fold (run f).
      rewrite (step_at f k false _ r (pl k)).
      + cbn [db]. rewrite Hf by lia. cbn [fst snd callers]. rewrite callers_at_insert. apply IH. lia.
      + unfold callers_at. cbn [callers].
        change (@map nat (request * place)) with (@fmap list _ nat (request * place)).
        rewrite list_lookup_fmap, lookup_seq_lt by lia. simpl. by destruct (Nat.ltb_spec k k); [lia|]. }
  rewrite <- (H n 0%nat eq_refl). by do 2 f_equal.
Qed.

(** The tables after [n] callers of [r] have charged. *)
Definition charged (r : request) (n : nat) : tables := Nat.iter n (pay r) no_rows.

Lemma charged_next (r : request) (n : nat) : next_order (charged r n) = 1 + Z.of_nat n.
Proof. induction n as [|n IH]; [done|]. simpl. fold (charged r n). lia. Qed.

Lemma charged_counts (r : request) (n : nat) : length (charges (charged r n)) = n /\ keys (charged r n) = ∅.
Proof.
  induction n as [|n [IH1 IH2]]; [done|]. simpl. fold (charged r n). rewrite length_app, IH1, IH2.
  split; [simpl; lia|done].
Qed.

(** ** Properties *)

(** C16: One transaction charges a key once.  From empty tables, whatever callers
    there are, however their transactions interleave and whichever of them fail or
    stop, the fixed service has exactly as many charges as keys, no order charged
    twice, a charge behind every recorded key, and callers of one key that return
    an order return the same one. *)
Theorem fixed_charges_once (rs : list request) (sched : list (nat * bool)) :
  let w := run create_order_with_key_fixed sched (start rs) in
  (counts (db w)).1 = (counts (db w)).2 /\ NoDup (c_order <$> charges (db w)) /\
  (forall k i, keys (db w) !! k = Some i -> exists a, mkCharge i a ∈ charges (db w)) /\
  forall i j ri rj a b,
    callers w !! i = Some (ri, Done (Returned a)) -> callers w !! j = Some (rj, Done (Returned b)) ->
    key ri = key rj -> a = b.
Proof.
  intros w. destruct (consistent_run sched (start rs) (consistent_start rs)) as [C1 C2 C3 C4 C5].
  fold w in C1, C2, C3, C4, C5. split_and!; [done|done| |].
  - intros k i Hk. destruct (C2 k i Hk) as (a & ? & _). by exists a.
  - intros i j ri rj a b Hi Hj Hk. rewrite Forall_lookup in C5.
    apply C5 in Hi, Hj. simpl in Hi, Hj. rewrite Hk in Hi. congruence.
Qed.

(** One at a time, the planted bug does not show.  If every caller runs to its
    end before the next one starts and nothing fails, the two services reach the
    same tables and give the same answers. *)
Theorem sequential_callers_agree (rs : list request) :
  let sched := one_by_one (seq 0 (length rs)) in
  run create_order_with_key sched (start rs) = run create_order_with_key_fixed sched (start rs).
Proof.
  intros sched. apply one_by_one_agree. intros j r p _ Hj. unfold start in Hj. simpl in Hj.
  change (@map request (request * place)) with (@fmap list _ request (request * place)) in Hj.
  rewrite list_lookup_fmap in Hj. destruct (rs !! j); [|done]. by injection Hj as _ <-.
Qed.

(** The window between the two transactions charges every retry.  [n] callers of
    one request that all read before any of them commits leave [n] charges to one
    key; the first to record it returns, and the others are refused with an
    [IntegrityError] after they have charged. *)
Theorem window_charges_each (r : request) (n : nat) :
  let all := map (fun i => (i, false)) (seq 0 (S n)) in
  let w := run create_order_with_key (all ++ all ++ all) (start (replicate (S n) r)) in
  counts (db w) = (S n, 1%nat) /\
  callers w = (r, Done (Returned 1)) :: replicate n (r, Done IntegrityError).
Proof.
  intros all w. subst w. rewrite !run_app.
  assert (Hs : start (replicate (S n) r) = mkWorld no_rows (callers_at r (fun _ => Start) (S n))).
  { unfold start, callers_at. f_equal. generalize (S n), 0%nat. intros m.
    induction m as [|m IH]; intros k; [done|]. simpl. by rewrite (IH (S k)). }
  pose proof (stage create_order_with_key r (fun _ => Start) (fun _ => Missed) (fun _ => no_rows) (S n)) as H1.
  unfold all. rewrite Hs, H1 by done. clear H1.
  pose proof (stage create_order_with_key r (fun _ => Missed) (fun j => Charged (1 + Z.of_nat j)) (charged r) (S n)) as H2.
  change (mkWorld no_rows) with (mkWorld (charged r 0)). rewrite H2 by (intros j _; simpl; by rewrite charged_next).
  pose proof (stage create_order_with_key r (fun j => Charged (1 + Z.of_nat j))
    (fun j => Done (match j with O => Returned 1 | _ => IntegrityError end))
    (fun j => match j with O => charged r (S n) | _ => record_key (key r) 1 (charged r (S n)) end) (S n)) as H3.
  destruct (charged_counts r (S n)) as [Hc Hk]. rewrite H3; clear H2 H3.
  - unfold counts. cbn [db callers record_key charges keys]. rewrite Hc, Hk, insert_empty, map_size_singleton. split; [done|].
    unfold callers_at. simpl. f_equal. generalize 0%nat. clear.
    induction n as [|n IH]; intros k; [done|]. simpl. by rewrite IH.
  - intros [|j] _; cbn [create_order_with_key].
    + by rewrite Hk.
    + cbn [record_key keys]. by rewrite lookup_insert_eq.
Qed.

(** A retry of a caller that crashed between its transactions. *)
Example crash_in_the_window :
  let r := mkRequest "k1" 7 500 in
  counts (db (run create_order_with_key [(0, false); (0, false); (1, false); (1, false); (1, false)]%nat
    (start [r; r]))) = (2, 1)%nat.
Proof. reflexivity. Qed.

Lemma fixed_charges_once_witness :
  let r := mkRequest "k1" 7 500 in
  let w := run create_order_with_key_fixed
    [(0, false); (1, false); (0, false); (1, false); (2, false)]%nat (start [r; r; r]) in
  callers w = [(r, Done (Returned 1)); (r, Done IntegrityError); (r, Done (Returned 1))] /\
  (counts (db w)).1 = (counts (db w)).2.
Proof.
  intros r w. split; [vm_compute; reflexivity|].
  apply (fixed_charges_once [r; r; r] [(0, false); (1, false); (0, false); (1, false); (2, false)]%nat).
Defined.
