(* ===== verification/LabFanout.v ===== *)
(** * Failure lab: fan-out, hedging and the cache

    Models src/05-failure/lab/app/fanout.py (the hedge budget, the window of backend
    latencies and its quantile, the hedge threshold, the backends' addresses and
    [hedged_call]), the fan-out of [fanout] in main.py, and cache.py.

    A [hedged_call] is a coroutine over shared state: a definition covers what it
    does between two of its awaits, and an [event] is what wakes it.  A copy of the
    call that ends observes its latency; one that is cancelled does not.  What the
    name service and the cache answer, and how a copy ends, are inputs. *)

From Stdlib Require Import ZArith Lia Sorting.Sorted.
From stdpp Require Import base option list numbers strings gmap sorting.
From S2P Require Import Prelude PyFloat PyWorld PyText LabConfig LabMetrics TokenBucket LabDeadline.

Open Scope Z_scope.

(** ** Definitions *)

Module HedgeBudget.

Definition capacity : Z := 50.
Definition init : float := Fin 0.
Definition pct (c : values) : float := fdivc (cfg_float "HEDGE_BUDGET_PCT" c) 100.
Definition deposit (c : values) (tokens : float) : float := bucket_add (of_Z capacity) tokens (pct c).
Definition withdraw (tokens : float) : bool * float := bucket_take tokens.

End HedgeBudget.

Module BackendLatency.

Definition _size : nat := 2000.

Definition observe (seconds : float) (samples : list float) : list float :=
  let q := samples ++ [seconds] in drop (length q - _size) q.

(** [int(q * n)] raises on no finite product; [q] is a constant of the caller. *)
Definition quantile (q : float) (samples : list float) : option float :=
  if (length samples <? 50)%nat then None
  else
    i ← f_int (q * of_Z (Z.of_nat (length samples)))%F;
    sorted_floats samples !! Z.to_nat (Z.min (Z.of_nat (length samples) - 1) i).

End BackendLatency.

Definition hedge_after_seconds (c : values) (samples : list float) : option float :=
  match cfg_opt_int "HEDGE_AFTER_MS" c with
  | Some ms => Some (fdivc (of_Z ms) 1000)
  | None => BackendLatency.quantile (lit 95 100) samples
  end.

(** *** Addresses *)

(** [_resolved]: when, and what. *)
Definition resolved : Type := float * list string.

(** [sorted({...})] of what the name service returned. *)
Definition str_le (a b : string) : Prop := String.leb a b = true.

#[export] Instance str_le_dec : RelDecision str_le.
Proof. intros a b. unfold str_le. apply _. Defined.

Definition sorted_set (l : list string) : list string := merge_sort str_le (remove_dups l).

(** [time.time() - age > 10.0 or not cached]. *)
Definition is_stale (t1 : float) (r : resolved) : bool :=
  fltb (of_Z 10) (fsub t1 r.1) || match r.2 with [] => true | _ => false end.

(** [infos]: the addresses [getaddrinfo] returned, [None] for an [OSError]; [t1] and
    [t2] the two readings of the clock. *)
Definition resolve (infos : option (list string)) (t1 t2 : float) (r : resolved) : resolved :=
  if is_stale t1 r then (t2, match infos with Some l => sorted_set l | None => [] end) else r.

(** [f"{cached[i % len(cached)]}:{port}" for i in range(k)], or the name itself. *)
Definition spread (host port : string) (k : nat) (cached : list string) : list string :=
  match cached with
  | [] => replicate k (host +:+ ":" +:+ port)
  | _ => omap (fun i => (fun a => a +:+ ":" +:+ port) <$> cached !! (i mod length cached)%nat) (seq 0 k)
  end.

Definition backend_addresses (c : values) (k : Z) (infos : option (list string)) (t1 t2 : float)
    (r : resolved) : list string * resolved :=
  let r' := resolve infos t1 t2 r in
  (spread (cfg_str "BACKEND_HOST" c) (str_Z (cfg_int "BACKEND_PORT" c)) (Z.to_nat k) r'.2, r').

(** *** A hedged call *)

Record shared : Type := mkShared {
  tokens : float;
  samples : list float;
  cnt : Counters.t;
}.

Definition deposit (c : values) (s : shared) : shared :=
  mkShared (HedgeBudget.deposit c (tokens s)) (samples s) (cnt s).
Definition count (name : string) (s : shared) : shared :=
  mkShared (tokens s) (samples s) (Counters.inc name (cnt s)).

Section Hedge.
Context {R E : Type}.

(** How a copy of the call ends, and how long it took. *)
Inductive copy_end : Type := Returned (r : R) (elapsed : float) | Raised (e : E).

Inductive place : Type :=
| Plain
| Waiting
| Denied
| Both
| Finished (out : R + E) (hedged : bool).

Inductive event : Type :=
| FirstEnds (e : copy_end)
| ThresholdPasses
| SecondEnds (e : copy_end)
| BothEnd (first second : copy_end) (second_wins : bool).

(** The copy's own last statement. *)
Definition ends (e : copy_end) (s : shared) : shared :=
  match e with
  | Returned _ elapsed => mkShared (tokens s) (BackendLatency.observe elapsed (samples s)) (cnt s)
  | Raised _ => s
  end.

Definition result (e : copy_end) : R + E :=
  match e with Returned r _ => inl r | Raised e => inr e end.

(** Up to the first await. *)
Definition begin_call (c : values) (s : shared) : place :=
  match hedge_after_seconds c (samples s) with
  | Some _ => if cfg_bool "HEDGE" c then Waiting else Plain
  | None => Plain
  end.

(** The threshold has passed: a second copy, if the budget allows one. *)
Definition pass_threshold (c : values) (s : shared) : place * shared :=
  let took := HedgeBudget.withdraw (tokens s) in
  let s' := mkShared took.2 (samples s) (cnt s) in
  if took.1 then (Both, count "hedges" s') else (Denied, deposit c s').

(** What the call does when it wakes; an event that cannot wake it changes nothing. *)
Definition wake (c : values) (p : place) (ev : event) (s : shared) : place * shared :=
  match p, ev with
  | Plain, FirstEnds e => (Finished (result e) false, ends e s)
  | Waiting, FirstEnds e => (Finished (result e) false, deposit c (ends e s))
  | Waiting, ThresholdPasses => pass_threshold c s
  | Denied, FirstEnds e => (Finished (result e) false, ends e s)
  | Both, FirstEnds e => (Finished (result e) true, deposit c (ends e s))
  | Both, SecondEnds e => (Finished (result e) true, deposit c (count "hedge_wins" (ends e s)))
  | Both, BothEnd e1 e2 second_wins =>
      let s := ends e2 (ends e1 s) in
      if second_wins
      then (Finished (result e2) true, deposit c (count "hedge_wins" s))
      else (Finished (result e1) true, deposit c s)
  | _, _ => (p, s)
  end.

(** The calls of a process: one begins, or one wakes. *)
Record world : Type := mkWorld { sh : shared; calls : list place }.

Inductive move : Type := Begins | Wakes (i : nat) (ev : event).

Definition step (c : values) (m : move) (w : world) : world :=
  match m with
  | Begins => mkWorld (sh w) (calls w ++ [begin_call c (sh w)])
  | Wakes i ev =>
      match calls w !! i with
      | None => w
      | Some p => let '(p', s') := wake c p ev (sh w) in mkWorld s' (<[i := p']> (calls w))
      end
  end.

Definition run (ms : list (values * move)) (w : world) : world :=
  fold_left (fun w cm => step cm.1 cm.2 w) ms w.
End Hedge.

Arguments place : clear implicits.
Arguments world : clear implicits.
Arguments move : clear implicits.

Definition fresh {R E} (now : float) : world R E :=
  mkWorld (mkShared HedgeBudget.init [] (Counters.init now)) [].

(** *** The fan-out *)

(** What [gather] gives for a backend: a result with its status and time, or an
    exception. *)
Inductive backend_result : Type := Reply (status : Z) (elapsed_ms : float) (hedged : bool) | Exception_.

Record fanout_outcome : Type := mkFanout {
  f_status : Z; f_k : nat; f_failed : nat; f_slowest : float; f_hedged : bool }.

Definition fanout (results : list backend_result) : fanout_outcome :=
  let '(slowest, failed, hedged_any) :=
    fold_left (fun acc item =>
      let '(slowest, failed, hedged_any) := acc in
      match item with
      | Exception_ => (slowest, S failed, hedged_any)
      | Reply st ms h => (fmax slowest ms, if 400 <=? st then S failed else failed, hedged_any || h)
      end) results (Fin 0, 0%nat, false) in
  mkFanout (if (failed =? 0)%nat then 200 else 503) (length results) failed slowest hedged_any.

(** *** cache.py *)

Inductive redis_reply : Type := Value (v : string) | Nothing | RedisRaises.

Definition cache_get (r : redis_reply) (k : Counters.t) : option string * Counters.t :=
  match r with
  | RedisRaises => (None, Counters.inc "cache_misses" k)
  | Nothing => (None, Counters.inc "cache_misses" k)
  | Value v => (Some v, Counters.inc "cache_hits" k)
  end.

(** [hits / total * 100.0] of the snapshot's counters. *)
Definition hit_rate (k : Counters.t) : float :=
  let hits := Counters.read "cache_hits" k in
  let misses := Counters.read "cache_misses" k in
  let total := hits + misses in
  if total =? 0 then Fin 0 else (lit hits (total) * of_Z 100)%F.

(** ** Lemmas *)

(** *** Hedges and the budget *)

Definition is_hedged {R E} (p : place R E) : bool :=
  match p with Both | Finished _ true => true | _ => false end.

(** Past its deposit, or past the point where it makes one. *)
Definition is_settled {R E} (p : place R E) : bool :=
  match p with Denied | Finished _ _ => true | _ => false end.

Definition is_won {R E} (p : place R E) : bool := match p with Finished _ true => true | _ => false end.

Definition tally {R E} (f : place R E -> bool) (w : world R E) : Z := countb f (calls w).

(** The budget after a step: the tokens in range, and what was handed out paid for
    by what was put in. *)
Definition paid (r t : Z) (s s' : shared) (hedges deposits : Z) : Prop :=
  exists t', tokens s' = Fin t' /\ wf (Fin t') /\ 0 <= t' <= HedgeBudget.capacity * unit_k /\
    hedges * unit_k + t' <= t + deposits * (r + slop) /\
    Counters.read "hedges" (cnt s') = Counters.read "hedges" (cnt s) + hedges.

Lemma deposit_paid (c : values) (s : shared) (t r : Z) :
  HedgeBudget.pct c = Fin r -> 0 < r ->
  tokens s = Fin t -> wf (Fin t) -> 0 <= t <= HedgeBudget.capacity * unit_k ->
  paid r t s (deposit c s) 0 1.
Proof.
  intros Hr Hr0 Ht Hw Hb. unfold paid, deposit, HedgeBudget.deposit. cbn [tokens cnt]. rewrite Ht, Hr.
  destruct (bucket_add_step HedgeBudget.capacity t r) as (t1 & E & Hw1 & Hb1 & Hle);
    [unfold HedgeBudget.capacity; lia|assumption..|].
  exists t1. split; [exact E|]. split; [exact Hw1|]. split; [exact Hb1|]. lia.
Qed.

Lemma paid_cnt (r t : Z) (s s1 s2 : shared) (h n : Z) :
  paid r t s1 s2 h n -> tokens s1 = tokens s ->
  Counters.read "hedges" (cnt s1) = Counters.read "hedges" (cnt s) -> paid r t s s2 h n.
Proof.
  intros (t' & E & Hw & Hb & Hp & Hc) _ Hs. exists t'. rewrite <- Hs.
  split; [exact E|]. split; [exact Hw|]. split; [exact Hb|]. split; [exact Hp|exact Hc].
Qed.

Lemma paid_same (r t : Z) (s s' : shared) (n : Z) :
  0 < r -> 0 <= n -> tokens s = Fin t -> wf (Fin t) -> 0 <= t <= HedgeBudget.capacity * unit_k ->
  tokens s' = tokens s -> Counters.read "hedges" (cnt s') = Counters.read "hedges" (cnt s) ->
  paid r t s s' 0 n.
Proof.
  intros Hr Hn Ht Hw Hb E Hc. exists t. rewrite E. split; [exact Ht|]. split; [exact Hw|]. split; [exact Hb|].
  assert (0 < slop) by (unfold slop; apply Z.pow_pos_nonneg; lia). split; [nia|lia].
Qed.

Section Calls.
Context {R E : Type}.

Lemma ends_same (e : @copy_end R E) (s : shared) : tokens (ends e s) = tokens s /\ cnt (ends e s) = cnt s.
Proof. by destruct e. Qed.

(** A step of one call. *)
Lemma wake_paid (c : values) (p : place R E) (ev : event) (s : shared) (t r : Z) :
  HedgeBudget.pct c = Fin r -> 0 < r ->
  tokens s = Fin t -> wf (Fin t) -> 0 <= t <= HedgeBudget.capacity * unit_k ->
  paid r t s (wake c p ev s).2 (bit (is_hedged (wake c p ev s).1) - bit (is_hedged p))
    (bit (is_settled (wake c p ev s).1) - bit (is_settled p)).
Proof.
  intros Hr Hr0 Ht Hw Hb.
  assert (Hstay : forall s' n, 0 <= n -> tokens s' = tokens s ->
    Counters.read "hedges" (cnt s') = Counters.read "hedges" (cnt s) -> paid r t s s' 0 n).
  { intros s' n Hn H1 H2. apply paid_same; assumption. }
  assert (Hdep : forall s1, tokens s1 = tokens s ->
    Counters.read "hedges" (cnt s1) = Counters.read "hedges" (cnt s) -> paid r t s (deposit c s1) 0 1).
  { intros s1 H1 H2. eapply paid_cnt; [|exact H1|exact H2]. apply deposit_paid; congruence. }
  assert (Hwin : forall s1, Counters.read "hedges" (cnt (count "hedge_wins" s1)) = Counters.read "hedges" (cnt s1)).
  { intros s1. unfold count. cbn [cnt]. rewrite Counters.read_inc, decide_False by discriminate. reflexivity. }
  destruct p as [| | | |o [|]], ev as [e|  |e|e1 e2 b]; cbn [wake fst snd is_hedged is_settled bit];
    try match goal with |- paid r t s s _ _ => apply Hstay; [lia|reflexivity|reflexivity] end.
  - destruct (ends_same e s) as [H1 H2]. apply Hstay; [lia|exact H1|by rewrite H2].
  - destruct (ends_same e s) as [H1 H2]. apply Hdep; [exact H1|by rewrite H2].
  - unfold pass_threshold, HedgeBudget.withdraw. rewrite Ht.
    destruct (bucket_take_step HedgeBudget.capacity t) as (t1 & Et & Hw1 & Hb1 & Eq);
      [unfold HedgeBudget.capacity; lia|assumption..|].
    rewrite Et. cbn [fst snd]. destruct (unit_k <=? t) eqn:Eu; cbn [fst snd is_hedged is_settled bit].
    + exists t1. cbn [count tokens cnt]. split; [reflexivity|]. split; [exact Hw1|]. split; [exact Hb1|].
      split; [lia|]. rewrite Counters.read_inc, decide_True by reflexivity. lia.
    + apply (Hdep (mkShared (Fin t1) (samples s) (cnt s))); [|reflexivity].
      cbn [tokens]. rewrite Ht, Eq. reflexivity.
  - destruct (ends_same e s) as [H1 H2]. apply Hstay; [lia|exact H1|by rewrite H2].
  - destruct (ends_same e s) as [H1 H2]. apply Hdep; [exact H1|by rewrite H2].
  - destruct (ends_same e s) as [H1 H2]. apply Hdep; [exact H1|by rewrite Hwin, H2].
  - destruct (ends_same e1 s) as [H1 H2], (ends_same e2 (ends e1 s)) as [H3 H4].
    destruct b; cbn [fst snd is_hedged is_settled bit]; (apply Hdep; [by rewrite <- H1, <- H3|]).
    + by rewrite Hwin, H4, H2.
    + by rewrite H4, H2.
Qed.
End Calls.

(** The wins a step counts are wins of hedged calls. *)
Lemma wake_wins {R E} (c : values) (p : place R E) (ev : event) (s : shared) :
  Counters.read "hedge_wins" (cnt (wake c p ev s).2) - Counters.read "hedge_wins" (cnt s) <=
    bit (is_won (wake c p ev s).1) - bit (is_won p).
Proof.
  assert (Hh : forall t l k, Counters.read "hedge_wins" (cnt (count "hedges" (mkShared t l k))) =
    Counters.read "hedge_wins" k).
  { intros t l k. unfold count. cbn [cnt]. rewrite Counters.read_inc, decide_False by discriminate. reflexivity. }
  assert (Hw : forall s1, Counters.read "hedge_wins" (cnt (count "hedge_wins" s1)) =
    Counters.read "hedge_wins" (cnt s1) + 1).
  { intros s1. unfold count. cbn [cnt]. rewrite Counters.read_inc, decide_True by reflexivity. lia. }
  assert (He : forall (e : @copy_end R E) s1, cnt (ends e s1) = cnt s1) by (intros [] ?; reflexivity).
  assert (Hd : forall s1, cnt (deposit c s1) = cnt s1) by reflexivity.
  destruct p as [| | | |o [|]], ev as [e|  |e|e1 e2 []]; cbn [wake fst snd is_won bit];
    rewrite ?Hd, ?He, ?Hw, ?He; try lia.
  unfold pass_threshold. destruct (HedgeBudget.withdraw (tokens s)) as [[|] t]; cbn [fst snd is_won bit];
    rewrite ?Hh, ?Hd; cbn [cnt]; lia.
Qed.

(** What a wake does to the tally of a call's property. *)
Lemma tally_wake {R E} (f : place R E -> bool) (w : world R E) (i : nat) (p p' : place R E) (s : shared) :
  calls w !! i = Some p -> tally f (mkWorld s (<[i := p']> (calls w))) = tally f w + (bit (f p') - bit (f p)).
Proof. intros H. unfold tally. cbn [calls]. exact (countb_insert _ _ _ _ _ H). Qed.

Lemma tally_begin {R E} (f : place R E -> bool) (w : world R E) (c : values) (s : shared) :
  (forall q, q = Plain \/ q = Waiting -> f q = false) ->
  tally f (mkWorld s (calls w ++ [begin_call c (sh w)])) = tally f w.
Proof.
  intros H. unfold tally. cbn [calls]. rewrite countb_snoc, H; [cbn [bit]; lia|].
  unfold begin_call. destruct (hedge_after_seconds c _); [|by left]. destruct (cfg_bool _ _); [by right|by left].
Qed.

(** The books of a process, with [r] the share of a deposit. *)
Record books {R E} (r : Z) (w : world R E) : Prop := {
  books_tokens : exists t, tokens (sh w) = Fin t /\ wf (Fin t) /\ 0 <= t <= HedgeBudget.capacity * unit_k /\
    tally is_hedged w * unit_k + t <= tally is_settled w * (r + slop);
  books_hedges : Counters.read "hedges" (cnt (sh w)) = tally is_hedged w;
  books_wins : Counters.read "hedge_wins" (cnt (sh w)) <= tally is_won w }.

Lemma hedge_books_fresh {R E} (r : Z) (now : float) : books r (@fresh R E now).
Proof.
  split; [|vm_compute; reflexivity|vm_compute; discriminate].
  exists 0. split; [reflexivity|]. split; [exact wf_0|].
  split; [split; [lia|apply Z.leb_le; vm_compute; reflexivity]|]. unfold tally. cbn. lia.
Qed.

Lemma hedge_books_step {R E} (c : values) (m : move R E) (w : world R E) (r : Z) :
  HedgeBudget.pct c = Fin r -> 0 < r -> books r w -> books r (step c m w).
Proof.
  intros Hr Hr0 [(t & Ht & Hw & Hb & Hp) Hh Hi]. destruct m as [|i ev]; cbn [step].
  - assert (forall f : place R E -> bool, (forall q, q = Plain \/ q = Waiting -> f q = false) ->
      tally f (mkWorld (sh w) (calls w ++ [begin_call c (sh w)])) = tally f w) as Hk
      by (intros f Hf; apply tally_begin; exact Hf).
    split; cbn [sh]; rewrite ?Hk by (by intros ? [-> | ->]); [|exact Hh|exact Hi].
    exists t. exact (conj Ht (conj Hw (conj Hb Hp))).
  - destruct (calls w !! i) as [p|] eqn:Ei; [|split; eauto].
    destruct (wake_paid c p ev (sh w) t r Hr Hr0 Ht Hw Hb) as (t' & Ht' & Hw' & Hb' & Hp' & Hh').
    pose proof (wake_wins c p ev (sh w)) as Hi'.
    destruct (wake c p ev (sh w)) as [p' s']. cbn [fst snd] in *.
    split; cbn [sh]; rewrite ?(tally_wake _ _ _ _ _ _ Ei); [|lia|lia].
    exists t'.
    split; [exact Ht'|]. split; [exact Hw'|]. split; [exact Hb'|]. lia.
Qed.

Lemma hedge_books_run {R E} (ms : list (values * move R E)) (w : world R E) (r : Z) :
  Forall (fun cm => HedgeBudget.pct cm.1 = Fin r) ms -> 0 < r -> books r w -> books r (run ms w).
Proof.
  intros H Hr. revert w. unfold run. induction H as [|cm ms Hc Hms IH]; intros w Hw; [done|].
  simpl. apply IH. by apply hedge_books_step.
Qed.

(** *** The window and its quantile *)

Definition observed (ds : list float) : list float := fold_left (fun s d => BackendLatency.observe d s) ds [].

Lemma observed_window (ds : list float) : observed ds = drop (length ds - BackendLatency._size) ds.
Proof.
  unfold observed. induction ds as [|d ds IH] using rev_ind; [done|].
  rewrite fold_left_app, IH. cbn [fold_left]. unfold BackendLatency.observe.
  rewrite !length_app, length_drop. cbn [length].
  rewrite (drop_app_le _ [d] (length ds + 1 - _)) by (unfold BackendLatency._size; lia).
  rewrite drop_app_le by (rewrite length_drop; unfold BackendLatency._size; lia).
  rewrite drop_drop. f_equal. f_equal. unfold BackendLatency._size. lia.
Qed.

(** *** Addresses *)

Lemma append_inj_l (s a b : string) : a +:+ s = b +:+ s -> a = b.
Proof.
  intros H. assert (L : String.length a = String.length b).
  { assert (E : forall c, String.length (c +:+ s) = (String.length c + String.length s)%nat)
      by (induction c as [|x c IH]; simpl; [done|by rewrite IH]).
    apply (f_equal String.length) in H. rewrite !E in H. lia. }
  revert b H L. induction a as [|x a IH]; intros [|y b] H L; simpl in *; try lia; [done|].
  injection H as -> H. f_equal. apply IH; [exact H|lia].
Qed.

Lemma sorted_set_nodup (l : list string) : NoDup (sorted_set l).
Proof. unfold sorted_set. rewrite merge_sort_Permutation. apply NoDup_remove_dups. Qed.

Lemma sorted_set_elem (l : list string) (a : string) : a ∈ sorted_set l <-> a ∈ l.
Proof. unfold sorted_set. rewrite merge_sort_Permutation. apply elem_of_remove_dups. Qed.

(** The address of the [i]th backend. *)
Lemma spread_lookup (host port : string) (k : nat) (cached : list string) (i : nat) :
  (i < k)%nat -> cached <> [] ->
  exists a, cached !! (i mod length cached)%nat = Some a /\ spread host port k cached !! i = Some (a +:+ ":" +:+ port).
Proof.
  intros Hi Hc. assert (Hl : (length cached <> 0)%nat) by (by destruct cached).
  assert (Hall : forall j, is_Some (cached !! (j mod length cached)%nat))
    by (intros j; apply lookup_lt_is_Some; by apply Nat.mod_upper_bound).
  destruct (Hall i) as [a Ha]. exists a. split; [exact Ha|].
  assert (E : forall n m, (i < m)%nat -> omap (fun i => (fun a => a +:+ ":" +:+ port) <$> cached !! (i mod length cached)%nat)
      (seq n m) !! i = (fun a => a +:+ ":" +:+ port) <$> cached !! ((n + i) mod length cached)%nat).
  { clear Hi Ha. induction i as [|i IH]; intros n [|m] Hm; try lia; cbn [seq]; destruct (Hall n) as [b Hb];
      csimpl; rewrite Hb; csimpl.
    - by rewrite Nat.add_0_r, Hb.
    - rewrite IH by lia. do 3 f_equal. lia. }
  destruct cached as [|b cached]; [done|]. cbn [spread]. rewrite E by exact Hi. simpl (0 + i)%nat. by rewrite Ha.
Qed.

Lemma spread_length (host port : string) (k : nat) (cached : list string) : length (spread host port k cached) = k.
Proof.
  destruct (decide (cached = [])) as [->|Hc]; [apply length_replicate|].
  assert (Hl : (length cached <> 0)%nat) by (by destruct cached).
  destruct cached as [|b l]; [done|]. cbn [spread]. set (cached := b :: l) in *. clearbody cached.
  assert (E : forall n m, length (omap (fun i => (fun a => a +:+ ":" +:+ port) <$> cached !! (i mod length cached)%nat)
      (seq n m)) = m).
  { intros n m. revert n. induction m as [|m IH]; intros n; [done|]. cbn [seq].
    destruct (lookup_lt_is_Some_2 cached (n mod length cached)) as [a Ha]; [by apply Nat.mod_upper_bound|].
    csimpl. rewrite Ha. csimpl. by rewrite IH. }
  apply E.
Qed.

(** Whether an answer counts as failed, and the time it reports. *)
Definition did_fail (r : backend_result) : bool :=
  match r with Exception_ => true | Reply st _ _ => 400 <=? st end.
Definition elapsed_of (r : backend_result) : option float :=
  match r with Exception_ => None | Reply _ ms _ => Some ms end.

(** *** The answers of a fan-out *)

Lemma fold_fmax_spec (l : list float) (m : float) :
  is_nan m = false ->
  let s := fold_left fmax l m in
  is_nan s = false /\ (s = m \/ s ∈ l) /\ fleb m s = true /\
  (forall x, x ∈ l -> is_nan x = false -> fleb x s = true).
Proof.
  revert m. induction l as [|y l IH]; intros m Hm; cbn [fold_left].
  { split; [exact Hm|]. split; [by left|]. split; [by apply fleb_refl|]. intros x H. inversion H. }
  assert (Hf : is_nan (fmax m y) = false) by (eapply fleb_nan_r, fmax_ge_l; exact Hm).
  destruct (IH (fmax m y) Hf) as (H1 & H2 & H3 & H4). split; [exact H1|]. split; [|split].
  - destruct H2 as [->|H2]; [|right; by right]. unfold fmax. destruct (fltb m y); [right; by left|by left].
  - eapply fleb_trans; [by apply fmax_ge_l|exact H3].
  - intros x [->|Hx]%elem_of_cons Hn; [|by apply H4]. eapply fleb_trans; [|exact H3]. unfold fmax.
    destruct (fltb m y) eqn:E; [by apply fleb_refl|by apply fleb_total].
Qed.

Lemma fanout_fold (l : list backend_result) (m : float) (n : nat) (h : bool) :
  exists h', fold_left (fun acc item =>
    let '(slowest, failed, hedged_any) := acc in
    match item with
    | Exception_ => (slowest, S failed, hedged_any)
    | Reply st ms h => (fmax slowest ms, if 400 <=? st then S failed else failed, hedged_any || h)
    end) l (m, n, h) =
  (fold_left fmax (omap elapsed_of l) m, (n + length (List.filter did_fail l))%nat, h').
Proof.
  revert m n h. induction l as [|[st ms hd|] l IH]; intros m n h; cbn [fold_left List.filter did_fail].
  - exists h. by rewrite Nat.add_0_r.
  - destruct (IH (fmax m ms) (if 400 <=? st then S n else n) (h || hd)) as [h' ->]. exists h'.
    change (omap elapsed_of (Reply st ms hd :: l)) with (ms :: omap elapsed_of l). cbn [fold_left].
    do 2 f_equal. destruct (400 <=? st); cbn [length]; lia.
  - destruct (IH m (S n) h) as [h' ->]. exists h'.
    change (omap elapsed_of (Exception_ :: l)) with (omap elapsed_of l). do 2 f_equal. cbn [length]. lia.
Qed.

(** ** Properties *)

(** Hedging is capped: over any interleaving of any number of hedged calls, however
    their copies end, the tokens stay between 0 and 50, the [hedges] counter is the
    number of calls that issued a second copy, each of them was paid for by
    HEDGE_BUDGET_PCT of the calls that have settled (a deposit's rounding, at most
    2^-47, counted), and [hedge_wins] never exceeds [hedges].  So the load is at most
    [1 + pct] copies per call. *)
Theorem hedges_within_budget {R E} (ms : list (values * move R E)) (now : float) (r : Z) :
  Forall (fun cm => HedgeBudget.pct cm.1 = Fin r) ms -> 0 < r ->
  let w := run ms (fresh now) in
  let hedges := Counters.read "hedges" (cnt (sh w)) in
  let copies := Z.of_nat (length (calls w)) + hedges in
  bucket_ok HedgeBudget.capacity (tokens (sh w)) /\
  hedges = tally is_hedged w /\
  hedges * unit_k <= tally is_settled w * (r + slop) /\
  copies * unit_k <= Z.of_nat (length (calls w)) * (unit_k + r + slop) /\
  Counters.read "hedge_wins" (cnt (sh w)) <= hedges.
Proof.
  intros Hc Hr w hedges copies.
  destruct (hedge_books_run ms (fresh now) r Hc Hr (hedge_books_fresh r now)) as [(t & Ht & Hw & Hb & Hp) Hh Hi].
  fold w in Ht, Hb, Hp, Hh, Hi. subst hedges copies. rewrite Hh.
  assert (Hs : 0 < slop) by (unfold slop; apply Z.pow_pos_nonneg; lia).
  pose proof (countb_length is_settled (calls w)) as Hn. fold (tally is_settled w) in Hn.
  assert (Hwon : tally is_won w <= tally is_hedged w)
    by (apply countb_le; intros [| | | |? []]; done).
  split; [exists t; exact (conj Ht (conj Hw Hb))|]. split; [done|].
  split; [lia|]. split; [nia|lia].
Qed.

Definition half_hedged : values :=
  list_to_map [("HEDGE", CBool true); ("HEDGE_AFTER_MS", CInt 10); ("HEDGE_BUDGET_PCT", CFloat (of_Z 50))].

(** Two calls answer in time and pay for the third's second copy, which wins. *)
Definition three_calls : list (values * move string string) :=
  (half_hedged,.) <$> [Begins; Begins; Begins;
    Wakes 0 (FirstEnds (Returned "a" (Fin 0))); Wakes 1 (FirstEnds (Raised "b"));
    Wakes 2 ThresholdPasses; Wakes 2 (SecondEnds (Returned "c" (Fin 0)))].

Lemma hedges_within_budget_witness :
  let w := run three_calls (fresh (Fin 0)) in
  Counters.read "hedges" (cnt (sh w)) = 1 /\
  calls w = [Finished (inl "a") false; Finished (inr "b") false; Finished (inl "c") true] /\
  Counters.read "hedge_wins" (cnt (sh w)) <= 1 /\
  1 * unit_k <= tally is_settled w * (2 ^ 1073 + slop).
Proof.
  pose proof (hedges_within_budget three_calls (Fin 0) (2 ^ 1073)
    ltac:(apply Forall_fmap, Forall_forall; intros m _; vm_compute; reflexivity) ltac:(lia)) as T.
  assert (E : Counters.read "hedges" (cnt (sh (run three_calls (fresh (Fin 0))))) = 1) by (vm_compute; reflexivity).
  cbn zeta in *. rewrite E in T. destruct T as (_ & _ & H & _ & H').
  split; [exact E|]. split; [vm_compute; reflexivity|]. split; [exact H'|exact H].
Defined.

(** The measured threshold is the 95th percentile of the last 2000 latencies: with
    fewer than 50 observed there is none and no call hedges; otherwise it is one of
    the latencies in the window, at most 95% of which are below it and at most 5%
    above, so at most one call in twenty would have outlived it. *)
Theorem hedge_threshold_is_p95 (c : values) (ds : list float) :
  cfg_opt_int "HEDGE_AFTER_MS" c = None -> Forall (fun d => is_nan d = false) ds ->
  let window := drop (length ds - 2000) ds in
  match hedge_after_seconds c (observed ds) with
  | None =>
      (length ds < 50)%nat /\
      forall t k, @begin_call string string c (mkShared t (observed ds) k) = Plain
  | Some x =>
      (50 <= length ds)%nat /\ x ∈ window /\
      (20 * length (List.filter (fun y => fltb y x) window) <= 19 * length window)%nat /\
      (20 * length (List.filter (fun y => fltb x y) window) <= length window)%nat
  end.
Proof.
  intros Hc Hd window. assert (Hw : observed ds = window) by apply observed_window.
  assert (Hn : Forall (fun d => is_nan d = false) window) by (by apply Forall_drop).
  assert (Hl : length window = Nat.min (length ds) 2000) by (subst window; rewrite length_drop; lia).
  unfold begin_call. cbn [samples]. rewrite Hw. unfold hedge_after_seconds. rewrite Hc. unfold BackendLatency.quantile.
  destruct (Nat.ltb_spec (length window) 50) as [Hs|Hs]; [split; [lia|done]|].
  destruct (rank_95 (length window)) as (i & Ei & Hi & Hr); [lia|]. rewrite Ei. cbn [mbind option_bind].
  assert (Hx : is_Some (sorted_floats window !! Z.to_nat (Z.min (Z.of_nat (length window) - 1) i)))
    by (apply lookup_lt_is_Some; rewrite sorted_floats_length; lia).
  destruct Hx as [x Hx]. rewrite Hx. split; [lia|]. by apply (p95_splits window i x).
Qed.

Lemma hedge_threshold_is_p95_witness :
  hedge_after_seconds ∅ (observed (of_Z ∘ Z.of_nat <$> seq 1 60)) = Some (of_Z 58) /\
  (20 * length (List.filter (fun y => fltb (of_Z 58) y) (of_Z ∘ Z.of_nat <$> seq 1 60)) <= 60)%nat.
Proof.
  assert (E : hedge_after_seconds ∅ (observed (of_Z ∘ Z.of_nat <$> seq 1 60)) = Some (of_Z 58))
    by (vm_compute; reflexivity).
  pose proof (hedge_threshold_is_p95 ∅ (of_Z ∘ Z.of_nat <$> seq 1 60) eq_refl) as T.
  rewrite E in T. split; [exact E|]. apply T.
  apply Forall_fmap, Forall_forall. intros n _. apply of_Z_not_nan.
Defined.

(** [backend_addresses] gives one address per backend, each of them an address the
    name service returned, and no two the same as long as it returned enough; the
    answer is kept for ten seconds.  A refresh that fails discards the addresses still
    known, and every copy goes to the name itself. *)
Theorem backend_addresses_spread (c : values) (k : Z) (infos : option (list string)) (t1 t2 : float) (r : resolved) :
  let '(addresses, r') := backend_addresses c k infos t1 t2 r in
  let suffix := ":" +:+ str_Z (cfg_int "BACKEND_PORT" c) in
  length addresses = Z.to_nat k /\
  (is_stale t1 r = false -> r' = r) /\
  (is_stale t1 r = true -> r'.1 = t2 /\ NoDup r'.2 /\ forall a, a ∈ r'.2 <-> exists l, infos = Some l /\ a ∈ l) /\
  (r'.2 = [] -> addresses = replicate (Z.to_nat k) (cfg_str "BACKEND_HOST" c +:+ suffix)) /\
  (r'.2 <> [] -> forall i, (i < Z.to_nat k)%nat -> exists a, addresses !! i = Some (a +:+ suffix) /\ a ∈ r'.2) /\
  (NoDup r'.2 -> (Z.to_nat k <= length r'.2)%nat -> NoDup addresses).
Proof.
  unfold backend_addresses. set (r' := resolve infos t1 t2 r). set (port := str_Z _). set (host := cfg_str _ _).
  assert (Hget : r'.2 <> [] -> forall i, (i < Z.to_nat k)%nat ->
    exists a, spread host port (Z.to_nat k) r'.2 !! i = Some (a +:+ ":" +:+ port) /\
      r'.2 !! (i mod length r'.2)%nat = Some a).
  { intros Hr i Hi. destruct (spread_lookup host port _ _ i Hi Hr) as (a & Ha & Hs). exists a. split; [exact Hs|exact Ha]. }
  split; [apply spread_length|]. split; [unfold r', resolve; intros ->; reflexivity|]. split; [|split; [|split]].
  - unfold r', resolve. intros ->. split; [reflexivity|]. destruct infos as [l|]; simpl.
    + split; [apply sorted_set_nodup|]. intros a. rewrite sorted_set_elem. naive_solver.
    + split; [constructor|]. intros a. split; [intros H; inversion H|naive_solver].
  - by intros ->.
  - intros Hr i Hi. destruct (Hget Hr i Hi) as (a & Ha & Hs). exists a. split; [exact Ha|].
    by eapply list_elem_of_lookup_2.
  - clearbody host port r'. intros Hn Hk. apply NoDup_alt. intros i j x Hi Hj.
    pose proof (lookup_lt_Some _ _ _ Hi) as Li. pose proof (lookup_lt_Some _ _ _ Hj) as Lj.
    rewrite spread_length in Li, Lj.
    assert (Hr : r'.2 <> []) by (destruct r'.2; simpl in *; [lia|done]).
    destruct (Hget Hr i Li) as (a & Ha & Hsa), (Hget Hr j Lj) as (b & Hb & Hsb).
    rewrite Nat.mod_small in Hsa, Hsb by lia.
    rewrite Ha in Hi. rewrite Hb, <- Hi in Hj. injection Hj as Hj. apply append_inj_l in Hj as ->.
    exact (NoDup_lookup _ _ _ _ Hn Hsa Hsb).
Qed.

Lemma backend_addresses_spread_witness :
  let '(addresses, r') :=
    backend_addresses (list_to_map [("BACKEND_HOST", CStr "backend"); ("BACKEND_PORT", CInt 8000)])
      2 (Some ["10.0.0.3"; "10.0.0.2"; "10.0.0.3"]) (of_Z 20) (of_Z 21) (Fin 0, ["10.0.0.9"]) in
  addresses = ["10.0.0.2:8000"; "10.0.0.3:8000"] /\ NoDup addresses.
Proof.
  pose proof (backend_addresses_spread (list_to_map [("BACKEND_HOST", CStr "backend"); ("BACKEND_PORT", CInt 8000)])
      2 (Some ["10.0.0.3"; "10.0.0.2"; "10.0.0.3"]) (of_Z 20) (of_Z 21) (Fin 0, ["10.0.0.9"])) as T.
  assert (E : backend_addresses (list_to_map [("BACKEND_HOST", CStr "backend"); ("BACKEND_PORT", CInt 8000)])
      2 (Some ["10.0.0.3"; "10.0.0.2"; "10.0.0.3"]) (of_Z 20) (of_Z 21) (Fin 0, ["10.0.0.9"]) =
    (["10.0.0.2:8000"; "10.0.0.3:8000"], (of_Z 21, ["10.0.0.2"; "10.0.0.3"]))) by (vm_compute; reflexivity).
  rewrite E in *. split; [reflexivity|]. destruct T as (_ & _ & _ & _ & _ & T).
  apply T; [apply (bool_decide_unpack _); vm_compute; exact I|simpl; lia].
Defined.

(** The request answers 200 when every backend did, and 503 otherwise with the number
    that failed; the time it reports is the largest of the backends' (0 when none
    answered), whatever the order of the answers. *)
Theorem fanout_reports (results : list backend_result) :
  let o := fanout results in
  let times := omap elapsed_of results in
  f_k o = length results /\ f_failed o = length (List.filter did_fail results) /\
  f_status o = (if bool_decide (Forall (fun r => did_fail r = false) results) then 200 else 503) /\
  (f_slowest o = Fin 0 \/ f_slowest o ∈ times) /\
  (forall x, x ∈ times -> is_nan x = false -> fleb x (f_slowest o) = true).
Proof.
  unfold fanout. destruct (fanout_fold results (Fin 0) 0 false) as [h' ->]. cbn [f_k f_failed f_status f_slowest].
  destruct (fold_fmax_spec (omap elapsed_of results) (Fin 0) eq_refl) as (_ & H1 & _ & H2).
  split; [done|]. split; [done|]. split; [|exact (conj H1 H2)]. cbn [Nat.add].
  destruct (bool_decide_reflect (Forall (fun r => did_fail r = false) results)) as [Hf|Hf];
    destruct (Nat.eqb_spec (length (List.filter did_fail results)) 0) as [E|E]; try done; exfalso.
  - apply E. by rewrite List_filter_none.
  - apply Hf. apply nil_length_inv in E. clear -E.
    induction results as [|r l IH]; [constructor|]. cbn [List.filter] in E.
    destruct (did_fail r) eqn:Er; [done|]. constructor; [exact Er|by apply IH].
Qed.
