(* ===== verification/Metastable.v ===== *)
(** * Failure layer: the metastable cache

    Models src/05-failure/04-metastable-failure/python/metastable.py: a cache in front
    of a database with six connections, clients that retry three times, and the four
    escapes.

    A request is a coroutine; a definition covers what it does between two awaits, and
    an [event] says who runs next, at what reading of the clock.  [wait_for] runs the
    handler inside its caller, as Python 3.12 does, and cancels it when the timeout
    passes.  The keys drawn, the arrival times and the order in which waiters are woken
    are inputs; so theorems hold for every load and every duration of a query. *)

From Stdlib Require Import ZArith Lia.
From stdpp Require Import base option list numbers gmap sets.
From S2P Require Import Prelude PyFloat TokenBucket.

Open Scope Z_scope.

(** ** Definitions *)

Definition OFFERED_RPS : float := of_Z 180.
Definition KEYS : Z := 400.
Definition POOL_SIZE : Z := 6.
Definition CLIENT_TIMEOUT : float := lit 500 1000.
Definition ATTEMPTS : nat := 3.
Definition ESCAPE_AT : float := of_Z 16.
Definition SHED_LIMIT : Z := 8.
Definition BUDGET_RATIO : float := lit 10 100.
Definition RAMP_BACK_SECONDS : positive := 8.
Definition DROP_SECONDS : float := of_Z 5.

Module Cache.

Record t : Type := mk { present : gset Z; hits : Z; misses : Z }.

Definition init : t := mk (list_to_set (seqZ 0 KEYS)) 0 0.
Definition get (key : Z) (c : t) : bool * t :=
  if bool_decide (key ∈ present c)
  then (true, mk (present c) (hits c + 1) (misses c))
  else (false, mk (present c) (hits c) (misses c + 1)).
Definition put (key : Z) (c : t) : t := mk ({[key]} ∪ present c) (hits c) (misses c).
Definition flushall (c : t) : t := mk ∅ (hits c) (misses c).

(** [picks]: what [rng.choice] draws from the keys present at each turn. *)
Definition evict (picks : list Z) (c : t) : t :=
  fold_left (fun c k => mk (present c ∖ {[k]}) (hits c) (misses c)) picks c.

(** The counts of a report are started again. *)
Definition report (c : t) : t := mk (present c) 0 0.

End Cache.

(** [asyncio.Semaphore]: a value and the coroutines that wait; it is locked while its
    value is zero or somebody waits. *)
Module Database.

Record t : Type := mk { value : Z; waiters : Z; in_use : Z }.

Definition init : t := mk POOL_SIZE 0 0.
Definition locked (d : t) : bool := (value d =? 0) || (0 <? waiters d).
Definition take (d : t) : t := mk (value d - 1) (waiters d) (in_use d + 1).
Definition wait (d : t) : t := mk (value d) (waiters d + 1) (in_use d).
(** The waiter leaves the queue, with a connection or without. *)
Definition granted (d : t) : t := mk (value d - 1) (waiters d - 1) (in_use d + 1).
Definition leave (d : t) : t := mk (value d) (waiters d - 1) (in_use d).
Definition release (d : t) : t := mk (value d + 1) (waiters d) (in_use d - 1).

End Database.

Module RetryBudget.

Definition init : float := of_Z 3.
Definition deposit (tokens : float) : float := fmin (tokens + BUDGET_RATIO)%F (of_Z 103).
Definition withdraw (tokens : float) : bool * float := bucket_take tokens.

End RetryBudget.

Record metrics : Type := mkMetrics {
  goodput : Z; thruput_attempts : Z; retries : Z; failed : Z; shed : Z }.

Definition add_goodput (m : metrics) : metrics :=
  mkMetrics (goodput m + 1) (thruput_attempts m) (retries m) (failed m) (shed m).
Definition add_attempt (m : metrics) : metrics :=
  mkMetrics (goodput m) (thruput_attempts m + 1) (retries m) (failed m) (shed m).
Definition add_retry (m : metrics) : metrics :=
  mkMetrics (goodput m) (thruput_attempts m) (retries m + 1) (failed m) (shed m).
Definition add_failed (m : metrics) : metrics :=
  mkMetrics (goodput m) (thruput_attempts m) (retries m) (failed m + 1) (shed m).
Definition add_shed (m : metrics) : metrics :=
  mkMetrics (goodput m) (thruput_attempts m) (retries m) (failed m) (shed m + 1).

(** The server and what it shares. *)
Record server : Type := mkServer {
  cache : Cache.t;
  db : Database.t;
  m : metrics;
  inflight : Z;
  budget : option float;
  shed_limit : option Z;
}.

Definition set_cache (c : Cache.t) (s : server) : server :=
  mkServer c (db s) (m s) (inflight s) (budget s) (shed_limit s).
Definition set_db (d : Database.t) (s : server) : server :=
  mkServer (cache s) d (m s) (inflight s) (budget s) (shed_limit s).
Definition count (f : metrics -> metrics) (s : server) : server :=
  mkServer (cache s) (db s) (f (m s)) (inflight s) (budget s) (shed_limit s).
Definition add_inflight (n : Z) (s : server) : server :=
  mkServer (cache s) (db s) (m s) (inflight s + n) (budget s) (shed_limit s).
Definition set_budget (b : option float) (s : server) : server :=
  mkServer (cache s) (db s) (m s) (inflight s) b (shed_limit s).
Definition set_shed (l : option Z) (s : server) : server :=
  mkServer (cache s) (db s) (m s) (inflight s) (budget s) l.

(** Where a request is: in the sleep of a hit, in the queue of the pool, in its query,
    or at its end; with its key, the deadline of the attempt and the attempts still to go. *)
Inductive place : Type :=
| Hit (key : Z) (deadline : float) (rest : nat)
| Waiting (key : Z) (deadline : float) (rest : nat)
| Querying (key : Z) (deadline : float) (rest : nat)
| Answered
| GaveUp
| Cancelled.

(** [Server.handle] up to its first await; [None] when it refuses. *)
Definition handle (key : Z) (deadline : float) (rest : nat) (s : server) : option place * server :=
  if match shed_limit s with Some l => l <=? inflight s | None => false end
  then (None, count add_shed s)
  else
    let s := add_inflight 1 s in
    let '(hit, c) := Cache.get key (cache s) in
    let s := set_cache c s in
    if hit then (Some (Hit key deadline rest), s)
    else if Database.locked (db s)
    then (Some (Waiting key deadline rest), set_db (Database.wait (db s)) s)
    else (Some (Querying key deadline rest), set_db (Database.take (db s)) s).

(** A retry: the budget permits it, and it is counted. *)
Definition retry (s : server) : option server :=
  match budget s with
  | None => Some (count add_retry s)
  | Some t =>
      let took := RetryBudget.withdraw t in
      if took.1 then Some (count add_retry (set_budget (Some took.2) s)) else None
  end.

(** The loop of [client_request] with [rest] attempts to go, up to an await;
    [now] gives the clock at each attempt. *)
Fixpoint attempts (key : Z) (now : nat -> float) (rest : nat) (s : server) : place * server :=
  match rest with
  | O => (GaveUp, count add_failed s)
  | S rest' =>
      match (if (rest =? ATTEMPTS)%nat then Some s else retry s) with
      | None => (GaveUp, count add_failed s)
      | Some s =>
          match handle key (now rest + CLIENT_TIMEOUT)%F rest' s with
          | (Some p, s) => (p, s)
          | (None, s) => attempts key now rest' (count add_attempt s)
          end
      end
  end.

Definition client_request (key : Z) (now : nat -> float) (s : server) : place * server :=
  attempts key now ATTEMPTS s.

(** The answer of an attempt reaches the client. *)
Definition answer (key : Z) (now : nat -> float) (rest : nat) (ok : bool) (s : server) : place * server :=
  let s := count add_attempt s in
  if ok
  then (Answered, let s := count add_goodput s in set_budget (RetryBudget.deposit <$> budget s) s)
  else attempts key now rest s.

(** [except TimeoutError] after [wait_for] has cancelled the handler. *)
Definition abandon (key : Z) (now : nat -> float) (rest : nat) (s : server) : place * server :=
  attempts key now rest (count add_attempt (add_inflight (-1) s)).

Inductive wake : Type :=
| Granted
| Ends (at_ : float) (now : nat -> float)
| TimesOut (now : nat -> float).

Definition resume (p : place) (e : wake) (s : server) : place * server :=
  match p, e with
  | Hit key deadline rest, Ends t now => answer key now rest (t <=? deadline)%F (add_inflight (-1) s)
  | Hit key _ rest, TimesOut now => abandon key now rest s
  | Waiting key deadline rest, Granted =>
      if 0 <? Database.value (db s)
      then (Querying key deadline rest, set_db (Database.granted (db s)) s)
      else (p, s)
  | Waiting key _ rest, TimesOut now => abandon key now rest (set_db (Database.leave (db s)) s)
  | Querying key deadline rest, Ends t now =>
      let s := set_db (Database.release (db s)) s in
      let in_time := (t <=? deadline)%F in
      let s := if in_time then set_cache (Cache.put key (cache s)) s else s in
      answer key now rest in_time (add_inflight (-1) s)
  | Querying key _ rest, TimesOut now => abandon key now rest (set_db (Database.release (db s)) s)
  | _, _ => (p, s)
  end.

(** The harness: it starts requests, and pulls the trigger and the escapes. *)
Inductive event : Type :=
| Arrives (key : Z) (now : nat -> float)
| Wakes (i : nat) (e : wake)
| Flushall
| Evicts (picks : list Z)
| Reports
| EscapeB
| EscapeC
| EscapeD.

Record world : Type := mkWorld { srv : server; tasks : list place }.

(** [task.cancel()]: it unwinds against the objects the restart has dropped. *)
Definition cancel (p : place) : place :=
  match p with Answered | GaveUp => p | _ => Cancelled end.

Definition step (e : event) (w : world) : world :=
  let s := srv w in
  match e with
  | Arrives key now => let '(p, s') := client_request key now s in mkWorld s' (tasks w ++ [p])
  | Wakes i e =>
      match tasks w !! i with
      | None => w
      | Some p => let '(p', s') := resume p e s in mkWorld s' (<[i := p']> (tasks w))
      end
  | Flushall => mkWorld (set_cache (Cache.flushall (cache s)) s) (tasks w)
  | Evicts picks => mkWorld (set_cache (Cache.evict picks (cache s)) s) (tasks w)
  | Reports => mkWorld (set_cache (Cache.report (cache s)) s) (tasks w)
  | EscapeB => mkWorld (set_budget (Some RetryBudget.init) s) (tasks w)
  | EscapeC => mkWorld (set_shed (Some SHED_LIMIT) s) (tasks w)
  | EscapeD => mkWorld (mkServer (cache s) Database.init (m s) 0 None None) (cancel <$> tasks w)
  end.

Definition run (es : list event) (w : world) : world := fold_left (fun w e => step e w) es w.

Definition start : world :=
  mkWorld (mkServer Cache.init Database.init (mkMetrics 0 0 0 0 0) 0 None None) [].

(** [offered_rate]; [a] is [escape == "a"]. *)
Definition offered_rate (t : float) (a : bool) : float :=
  if negb a || fltb t ESCAPE_AT then OFFERED_RPS
  else
    let since := fsub t ESCAPE_AT in
    if fltb since DROP_SECONDS then Fin 0
    else (OFFERED_RPS * fmin (of_Z 1) (fdivc (since - DROP_SECONDS)%F RAMP_BACK_SECONDS))%F.

(** ** Lemmas *)

(** *** The books *)

Definition is_active (p : place) : bool := match p with Hit _ _ _ | Waiting _ _ _ | Querying _ _ _ => true | _ => false end.
Definition is_hit (p : place) : bool := match p with Hit _ _ _ => true | _ => false end.
Definition is_waiting (p : place) : bool := match p with Waiting _ _ _ => true | _ => false end.
Definition is_querying (p : place) : bool := match p with Querying _ _ _ => true | _ => false end.
Definition is_answered (p : place) : bool := match p with Answered => true | _ => false end.
Definition gave_up (p : place) : bool := match p with GaveUp => true | _ => false end.
Definition is_cancelled (p : place) : bool := match p with Cancelled => true | _ => false end.

(** The retries a request may have made. *)
Definition rest_of (p : place) : nat := match p with Hit _ _ n | Waiting _ _ n | Querying _ _ n => n | _ => 0 end.
Definition weight (p : place) : Z := 2 - Z.of_nat (rest_of p).

(** The server's books with the requests [l], and one more between two attempts: the
    attempts it has begun and not yet accounted for, and the retries it may have made. *)
Record ledger (l : list place) (begun slack : Z) (s : server) : Prop := {
  l_inflight : inflight s = countb is_active l;
  l_in_use : Database.in_use (db s) = countb is_querying l;
  l_waiters : Database.waiters (db s) = countb is_waiting l;
  l_pool : Database.value (db s) + Database.in_use (db s) = POOL_SIZE;
  l_value : 0 <= Database.value (db s);
  l_goodput : goodput (m s) = countb is_answered l;
  l_failed : failed (m s) = countb gave_up l;
  l_attempts : Z.of_nat (length l) + begun + retries (m s) =
    thruput_attempts (m s) + countb is_active l + countb is_cancelled l;
  l_rest : Forall (fun p => (rest_of p < ATTEMPTS)%nat) l;
  l_retries : 0 <= retries (m s) <= zsum (weight <$> l) + slack }.

Definition books (l : list place) (s : server) : Prop := ledger l 0 0 s.

Lemma weight_cons (p : place) (l : list place) :
  zsum (weight <$> p :: l) = 2 - Z.of_nat (rest_of p) + zsum (weight <$> l).
Proof. done. Qed.

#[local] Arguments zsum : simpl never.
#[local] Arguments countb : simpl never.

#[local] Ltac ledger_lia :=
  rewrite ?countb_cons, ?weight_cons, ?Forall_cons in *; cbn in *; constructor;
  rewrite ?countb_cons, ?weight_cons, ?Forall_cons; cbn; unfold POOL_SIZE, ATTEMPTS in *;
  repeat match goal with H : _ /\ _ |- _ => destruct H end; try lia; repeat split; (lia || assumption).

Lemma ledger_permute (l k : list place) (b r : Z) (s : server) : l ≡ₚ k -> ledger l b r s -> ledger k b r s.
Proof.
  intros H [].
  assert (C : forall f, countb f l = countb f k).
  { intros f. clear -H. induction H as [|x l k _ IH|x y l|l k j _ IH1 _ IH2]; rewrite ?countb_cons; lia. }
  assert (Wt : zsum (weight <$> l) = zsum (weight <$> k)).
  { clear -H. induction H as [|x l k _ IH|x y l|l k j _ IH1 _ IH2]; rewrite ?zsum_fmap_cons; lia. }
  constructor; rewrite <- ?C, <- ?Wt, <- ?(Permutation_length H); [done..|by rewrite <- H|done].
Qed.

#[export] Instance ledger_perm : Proper ((≡ₚ) ==> eq ==> eq ==> eq ==> iff) ledger.
Proof. intros l k H b ? <- r ? <- s ? <-. split; by apply ledger_permute. Qed.

(** Between two attempts with [n] to go. *)
Definition between (n : nat) (l : list place) (s : server) : Prop :=
  if (n =? ATTEMPTS)%nat then ledger l 0 0 s else (n < ATTEMPTS)%nat /\ ledger l 1 (2 - Z.of_nat n) s.

Lemma handle_books (key : Z) (deadline : float) (n : nat) (l : list place) (s : server) :
  (n < ATTEMPTS)%nat -> ledger l 0 (2 - Z.of_nat n) s ->
  match handle key deadline n s with
  | (Some p, s') => books (p :: l) s'
  | (None, s') => ledger l 0 (2 - Z.of_nat n) s'
  end.
Proof.
  intros Hn []. unfold handle. destruct (match shed_limit s with Some b => b <=? inflight s | None => false end);
    [by constructor|].
  destruct (Cache.get _ _) as [[|] c]; [unfold books; ledger_lia|].
  unfold Database.locked. cbn [db add_inflight set_cache].
  destruct (Z.eqb_spec (Database.value (db s)) 0); [unfold books; ledger_lia|].
  destruct (0 <? Database.waiters (db s)); cbn [orb]; unfold books; ledger_lia.
Qed.

Lemma retry_books (l : list place) (n : nat) (s s' : server) :
  ledger l 1 (2 - Z.of_nat (S n)) s -> retry s = Some s' -> ledger l 0 (2 - Z.of_nat n) s'.
Proof.
  intros [] H. unfold retry in H. destruct (budget s) as [t|]; [destruct (RetryBudget.withdraw t) as [[|] t']|];
    cbn [fst snd] in H; try discriminate; injection H as <-; ledger_lia.
Qed.

Lemma attempts_books (key : Z) (now : nat -> float) (n : nat) (l : list place) (s : server) :
  between n l s -> let '(p, s') := attempts key now n s in books (p :: l) s'.
Proof.
  revert s. induction n as [|n IH]; intros s H.
  { destruct H as [_ []]. unfold books. ledger_lia. }
  cbn [attempts]. unfold between in H.
  assert (Hstep : forall s1, (n < ATTEMPTS)%nat -> ledger l 0 (2 - Z.of_nat n) s1 ->
    let '(p, s') := match handle key (now (S n) + CLIENT_TIMEOUT)%F n s1 with
      | (Some p, s2) => (p, s2)
      | (None, s2) => attempts key now n (count add_attempt s2)
      end in books (p :: l) s').
  { intros s1 Hn H1. apply (handle_books key (now (S n) + CLIENT_TIMEOUT)%F) in H1; [|exact Hn].
    destruct (handle _ _ _ _) as [[p|] s2]; [exact H1|]. apply IH. unfold between.
    rewrite (proj2 (Nat.eqb_neq _ _)) by lia. split; [exact Hn|]. destruct H1. ledger_lia. }
  destruct (Nat.eqb_spec (S n) ATTEMPTS) as [E|E].
  - apply Hstep; [lia|]. injection E as ->. exact H.
  - destruct H as [Hn H]. destruct (retry s) as [s1|] eqn:Er.
    + apply Hstep; [lia|]. by eapply retry_books.
    + destruct H. unfold ATTEMPTS, books in *. ledger_lia.
Qed.

Lemma answer_books (key : Z) (now : nat -> float) (n : nat) (ok : bool) (l : list place) (s : server) :
  (n < ATTEMPTS)%nat -> ledger l 0 (2 - Z.of_nat n) s ->
  let '(p, s') := answer key now n ok s in books (p :: l) s'.
Proof.
  intros Hn H. unfold answer. destruct ok; cbn zeta.
  - generalize (RetryBudget.deposit <$> budget (count add_goodput (count add_attempt s))). intros b.
    destruct H. unfold books, ATTEMPTS in *. ledger_lia.
  - apply attempts_books. unfold between. rewrite (proj2 (Nat.eqb_neq _ _)) by lia.
    split; [exact Hn|]. destruct H. ledger_lia.
Qed.

Lemma abandon_books (key : Z) (now : nat -> float) (n : nat) (l : list place) (s : server) :
  (n < ATTEMPTS)%nat -> ledger l 0 (2 - Z.of_nat n) (add_inflight (-1) s) ->
  let '(p, s') := abandon key now n s in books (p :: l) s'.
Proof.
  intros Hn H. apply attempts_books. unfold between. rewrite (proj2 (Nat.eqb_neq _ _)) by lia.
  split; [exact Hn|]. destruct H. ledger_lia.
Qed.

Lemma resume_books (p : place) (e : wake) (l : list place) (s : server) :
  books (p :: l) s -> let '(p', s') := resume p e s in books (p' :: l) s'.
Proof.
  intros H. destruct p as [k d n|k d n|k d n| | |], e as [|t now|now]; cbn [resume]; try exact H;
    pose proof (Forall_inv (l_rest _ _ _ _ H)) as Hn; cbn [rest_of] in Hn.
  - apply answer_books; [exact Hn|]. destruct H. ledger_lia.
  - apply abandon_books; [exact Hn|]. destruct H. ledger_lia.
  - destruct (Z.ltb_spec 0 (Database.value (db s))); [|exact H]. destruct H. unfold books. ledger_lia.
  - apply abandon_books; [exact Hn|]. destruct H. ledger_lia.
  - apply answer_books; [exact Hn|]. destruct H. destruct (t <=? d)%F; ledger_lia.
  - apply abandon_books; [exact Hn|]. destruct H. ledger_lia.
Qed.

Lemma cancel_books (l : list place) (s : server) :
  books l s -> books (cancel <$> l) (mkServer (cache s) Database.init (m s) 0 None None).
Proof.
  assert (C : forall f g, (forall p, f (cancel p) = g p) -> countb f (cancel <$> l) = countb g l).
  { intros f g Hf. induction l as [|p k IH]; [done|]. csimpl. rewrite !countb_cons, IH, Hf. done. }
  assert (Z0 : countb (fun _ : place => false) l = 0) by (clear; induction l as [|p l IH]; [done|]; by rewrite countb_cons, IH).
  intros []. constructor; cbn; try done; rewrite ?length_fmap.
  - rewrite (C _ (fun _ => false)) by (by intros []). done.
  - rewrite (C _ (fun _ => false)) by (by intros []). done.
  - rewrite (C _ (fun _ => false)) by (by intros []). done.
  - rewrite (C _ is_answered) by (by intros []). done.
  - rewrite (C _ gave_up) by (by intros []). done.
  - rewrite (C is_active (fun _ => false)) by (by intros []).
    rewrite (C is_cancelled (fun p => is_active p || is_cancelled p)) by (by intros []).
    assert (A : countb (fun p => is_active p || is_cancelled p) l = countb is_active l + countb is_cancelled l).
    { clear. induction l as [|p l IH]; [done|]. rewrite !countb_cons, IH. destruct p; cbn; lia. }
    lia.
  - apply Forall_fmap, Forall_forall. intros [] _; unfold ATTEMPTS; cbn; lia.
  - assert (Wt : zsum (weight <$> l) <= zsum (weight <$> (cancel <$> l))).
    { clear. induction l as [|p l IH]; [done|]. change (cancel <$> p :: l) with (cancel p :: (cancel <$> l)).
      rewrite !weight_cons. destruct p; cbn; lia. }
    lia.
Qed.

Lemma step_books (e : event) (w : world) : books (tasks w) (srv w) -> books (tasks (step e w)) (srv (step e w)).
Proof.
  intros H. destruct e as [key now|i e| | | | | |]; cbn [step].
  - assert (Hb : between ATTEMPTS (tasks w) (srv w)) by exact H.
    apply (attempts_books key now) in Hb. unfold client_request.
    destruct (attempts _ _ _ _) as [p s']. cbn [tasks srv]. unfold books in *.
    by rewrite <- Permutation_cons_append.
  - destruct (tasks w !! i) as [p|] eqn:Ei; [|exact H].
    assert (Hp : books (p :: delete i (tasks w)) (srv w)) by (unfold books; by rewrite <- delete_Permutation).
    apply (resume_books p e) in Hp. destruct (resume p e (srv w)) as [p' s']. cbn [tasks srv]. unfold books in *.
    by rewrite (insert_delete_perm _ _ _ _ Ei).
  - destruct H. by constructor.
  - destruct H. by constructor.
  - destruct H. by constructor.
  - destruct H. by constructor.
  - destruct H. by constructor.
  - by apply cancel_books.
Qed.

Lemma run_books (es : list event) (w : world) :
  books (tasks w) (srv w) -> books (tasks (run es w)) (srv (run es w)).
Proof.
  revert w. unfold run. induction es as [|e es IH]; intros w H; [done|]. cbn [fold_left]. by apply IH, step_books.
Qed.

Lemma start_books : books (tasks start) (srv start).
Proof. by constructor. Qed.

Lemma countb_split (l : list place) :
  countb is_answered l + countb gave_up l + countb is_active l + countb is_cancelled l = Z.of_nat (length l).
Proof.
  induction l as [|p l IH]; [done|]. rewrite !countb_cons. cbn [length].
  destruct p; cbn [is_answered gave_up is_active is_cancelled bit]; lia.
Qed.

Lemma weights_le (l : list place) : zsum (weight <$> l) <= 2 * Z.of_nat (length l).
Proof. induction l as [|p l IH]; [done|]. rewrite weight_cons. cbn [length]. lia. Qed.

(** *** The cache *)

(** The key that an event writes into the cache: that of a query which ends before its
    caller's deadline. *)
Definition fill (e : event) (w : world) : list Z :=
  match e with
  | Wakes i (Ends t _) =>
      match tasks w !! i with
      | Some (Querying key deadline _) => if (t <=? deadline)%F then [key] else []
      | _ => []
      end
  | _ => []
  end.

Fixpoint fills (es : list event) (w : world) : list Z :=
  match es with
  | [] => []
  | e :: es => fill e w ++ fills es (step e w)
  end.

(** What the attempts of a request leave alone. *)
Record quiet (s s' : server) : Prop := {
  q_present : Cache.present (cache s') = Cache.present (cache s);
  q_goodput : goodput (m s') = goodput (m s) }.

Lemma quiet_trans (s1 s2 s3 : server) : quiet s1 s2 -> quiet s2 s3 -> quiet s1 s3.
Proof. intros [] []. split; congruence. Qed.

Lemma get_present (key : Z) (c : Cache.t) : Cache.present (Cache.get key c).2 = Cache.present c.
Proof. unfold Cache.get. by destruct (bool_decide _). Qed.

Lemma get_miss (key : Z) (c : Cache.t) : Cache.present c = ∅ -> (Cache.get key c).1 = false.
Proof. intros E. unfold Cache.get. rewrite E, bool_decide_false; [done|set_solver]. Qed.

Lemma handle_quiet (key : Z) (deadline : float) (n : nat) (s : server) :
  quiet s (handle key deadline n s).2 /\
  (Cache.present (cache s) = ∅ -> forall p, (handle key deadline n s).1 = Some p -> is_hit p = false) /\
  forall p, (handle key deadline n s).1 = Some p -> is_active p = true.
Proof.
  unfold handle. destruct (match shed_limit s with Some b => b <=? inflight s | None => false end);
    [by repeat split|].
  pose proof (get_present key (cache (add_inflight 1 s))) as Hp.
  pose proof (get_miss key (cache (add_inflight 1 s))) as Hm.
  destruct (Cache.get _ _) as [hit c]. cbn [fst snd] in *. destruct hit; [|destruct (Database.locked _)];
    cbn [fst snd]; (split; [by split|]); (split; [intros E p [= <-]|intros p [= <-]]); try done.
  by discriminate (Hm E).
Qed.

Lemma retry_quiet (s s' : server) : retry s = Some s' -> quiet s s'.
Proof.
  unfold retry. destruct (budget s) as [t|]; [destruct (RetryBudget.withdraw t) as [[|] t']|];
    cbn [fst snd]; intros [= <-]; by split.
Qed.

Lemma attempts_quiet (key : Z) (now : nat -> float) (n : nat) (s : server) :
  quiet s (attempts key now n s).2 /\
  (Cache.present (cache s) = ∅ -> is_hit (attempts key now n s).1 = false) /\
  is_answered (attempts key now n s).1 = false.
Proof.
  revert s. induction n as [|n IH]; intros s; [by repeat split|]. cbn [attempts].
  assert (Hgo : forall s1, quiet s s1 ->
    let r := match handle key (now (S n) + CLIENT_TIMEOUT)%F n s1 with
      | (Some p, s2) => (p, s2)
      | (None, s2) => attempts key now n (count add_attempt s2)
      end in
    quiet s r.2 /\ (Cache.present (cache s) = ∅ -> is_hit r.1 = false) /\ is_answered r.1 = false).
  { intros s1 H1. destruct (handle_quiet key (now (S n) + CLIENT_TIMEOUT)%F n s1) as (Hq & Hh & Ha).
    destruct (handle _ _ _ _) as [[p|] s2]; cbn [fst snd] in *.
    - split; [by eapply quiet_trans|]. split; [|by specialize (Ha p eq_refl); destruct p].
      intros E. apply Hh; [|done]. by rewrite (q_present _ _ H1).
    - destruct (IH (count add_attempt s2)) as (Hq' & Hh' & Ha').
      assert (Hs : quiet s (count add_attempt s2)) by (eapply quiet_trans; [exact H1|by destruct Hq]).
      split; [by eapply quiet_trans|]. split; [|exact Ha']. intros E. apply Hh'. by rewrite (q_present _ _ Hs). }
  destruct (S n =? ATTEMPTS)%nat; [by apply Hgo|].
  destruct (retry s) as [s1|] eqn:Er; [by apply Hgo, retry_quiet|by repeat split].
Qed.

Definition filled (p : place) (e : wake) : list Z :=
  match p, e with
  | Querying key deadline _, Ends t _ => if (t <=? deadline)%F then [key] else []
  | _, _ => []
  end.

(** What a step does to the cache and the answers. *)
Record refills (ks : list Z) (hits0 hits1 : Z) (s s' : server) : Prop := {
  r_present : Cache.present (cache s') ⊆ Cache.present (cache s) ∪ list_to_set ks;
  r_counted : goodput (m s) + Z.of_nat (length ks) <= goodput (m s');
  r_empty : Cache.present (cache s) = ∅ -> ks = [] -> goodput (m s') + hits1 <= goodput (m s) + hits0 }.

(** A client that goes on to its next attempt. *)
Lemma retry_refills (key : Z) (now : nat -> float) (n : nat) (s0 s : server) (h : Z) :
  quiet s0 s -> 0 <= h ->
  refills [] h (bit (is_hit (attempts key now n s).1)) s0 (attempts key now n s).2.
Proof.
  intros H0 Hh. destruct (attempts_quiet key now n s) as (Hq & He & _). pose proof (quiet_trans _ _ _ H0 Hq) as [Hp Hg].
  split; [set_solver|simpl; lia|]. intros E _. rewrite He by (by rewrite (q_present _ _ H0)). cbn [bit]. lia.
Qed.

Lemma resume_refills (p : place) (e : wake) (s : server) :
  refills (filled p e) (bit (is_hit p)) (bit (is_hit (resume p e s).1)) s (resume p e s).2.
Proof.
  assert (Hsame : forall q, refills [] (bit (is_hit q)) (bit (is_hit q)) s s)
    by (intros q; split; [set_solver|simpl; lia|intros; lia]).
  destruct p as [k d n|k d n|k d n| | |], e as [|t now|now]; cbn [resume filled]; try apply Hsame.
  - unfold answer. destruct (t <=? d)%F; [|apply retry_refills; [by split|cbn; lia]].
    split; cbn; [set_solver|lia|intros; lia].
  - apply retry_refills; [by split|cbn; lia].
  - destruct (0 <? Database.value (db s)); [|apply Hsame].
    split; [set_solver|simpl; lia|intros; simpl; lia].
  - apply retry_refills; [by split|cbn; lia].
  - unfold answer. destruct (t <=? d)%F; [|apply retry_refills; [by split|cbn; lia]].
    split; cbn; [set_solver|lia|discriminate].
  - apply retry_refills; [by split|cbn; lia].
Qed.

Lemma evict_subset (picks : list Z) (c : Cache.t) : Cache.present (Cache.evict picks c) ⊆ Cache.present c.
Proof.
  revert c. unfold Cache.evict. induction picks as [|k ks IH]; intros c; [done|]. cbn [fold_left].
  etransitivity; [apply IH|]. cbn [Cache.present]. set_solver.
Qed.

Lemma step_refills (e : event) (w : world) :
  refills (fill e w) (countb is_hit (tasks w)) (countb is_hit (tasks (step e w))) (srv w) (srv (step e w)).
Proof.
  destruct e as [key now|i e| |picks| | | |]; cbn [step fill].
  - unfold client_request. assert (H0 : 0 <= countb is_hit (tasks w)) by apply countb_nonneg.
    destruct (retry_refills key now ATTEMPTS (srv w) (srv w) 0) as [H1 H2 H3]; [done|lia|].
    destruct (attempts _ _ _ _) as [p s']. cbn [fst snd tasks srv] in *. split; [done|done|].
    rewrite countb_snoc. intros E Ek. specialize (H3 E Ek). lia.
  - pose proof (resume_refills) as Hr. destruct (tasks w !! i) as [p|] eqn:Ei; [|destruct e; (split; [set_solver|simpl; lia|lia])].
    specialize (Hr p e (srv w)).
    assert (Ef : match e with Ends t _ => match p with
      | Querying key deadline _ => if (t <=? deadline)%F then [key] else [] | _ => [] end | _ => [] end = filled p e)
      by (by destruct p, e).
    rewrite Ef. destruct (resume p e (srv w)) as [p' s']. cbn [fst snd tasks srv] in *.
    destruct Hr as [H1 H2 H3]. split; [done|done|]. rewrite (countb_insert _ _ _ _ _ Ei).
    intros E Ek. specialize (H3 E Ek). lia.
  - split; cbn; [set_solver|lia|intros; lia].
  - split; cbn [srv cache set_cache]; [pose proof (evict_subset picks (cache (srv w))); set_solver|simpl; lia|intros; simpl; lia].
  - split; cbn; [set_solver|lia|intros; lia].
  - split; cbn [srv]; [cbn; set_solver|simpl; lia|intros; simpl; lia].
  - split; cbn [srv]; [cbn; set_solver|simpl; lia|intros; simpl; lia].
  - split; cbn [srv]; [cbn; set_solver|simpl; lia|].
    intros _ _. cbn [tasks m]. assert (H : countb is_hit (cancel <$> tasks w) = 0).
    { induction (tasks w) as [|p l IH]; [done|]. change (cancel <$> p :: l) with (cancel p :: (cancel <$> l)).
      rewrite countb_cons, IH. by destruct p. }
    rewrite H. pose proof (countb_nonneg is_hit (tasks w)). lia.
Qed.

Lemma goodput_grows (es : list event) (w : world) : goodput (m (srv w)) <= goodput (m (srv (run es w))).
Proof.
  revert w. unfold run. induction es as [|e es IH]; intros w; [done|]. cbn [fold_left].
  pose proof (r_counted _ _ _ _ _ (step_refills e w)). specialize (IH (step e w)). lia.
Qed.

(** *** The retry budget *)

(** The tokens [t]: what has been retried since was in the bucket, or was deposited by
    an answer. *)
Definition holds (s : server) (t : Z) : Prop :=
  budget s = Some (Fin t) /\ wf (Fin t) /\ 0 <= t <= 103 * unit_k.

Definition affords (s s' : server) : Prop :=
  forall t, holds s t -> exists t', holds s' t' /\
    (retries (m s') - retries (m s)) * unit_k + t' <= t + (goodput (m s') - goodput (m s)) * (tenth_k + slop).

Lemma affords_trans (s1 s2 s3 : server) : affords s1 s2 -> affords s2 s3 -> affords s1 s3.
Proof.
  intros H1 H2 t Ht. destruct (H1 t Ht) as (t' & Ht' & Hp). destruct (H2 t' Ht') as (t'' & Ht'' & Hp').
  exists t''. split; [exact Ht''|]. lia.
Qed.

Lemma affords_same (s s' : server) :
  budget s' = budget s -> retries (m s') = retries (m s) -> goodput (m s') = goodput (m s) -> affords s s'.
Proof. intros Hb Hr Hg t (H & Hw). exists t. rewrite Hr, Hg. split; [split; [congruence|exact Hw]|lia]. Qed.

Lemma retry_affords (s : server) : affords s (default s (retry s)).
Proof.
  intros t Ht. pose proof Ht as (Hb & Hw & Hr). unfold retry, RetryBudget.withdraw. rewrite Hb.
  destruct (bucket_take_step 103 t) as (t' & E & Hw' & Hr' & Et); [lia|assumption..|].
  rewrite E. cbn [fst snd]. destruct (unit_k <=? t) eqn:El; cbn [default].
  - exists t'. split; [exact (conj eq_refl (conj Hw' Hr'))|]. cbn. lia.
  - exists t. split; [exact Ht|]. lia.
Qed.

Lemma answered_affords (s : server) :
  affords s (set_budget (RetryBudget.deposit <$> budget s) (count add_goodput s)).
Proof.
  intros t (Hb & Hw & Hr). destruct (tenth_deposit t Hw Hr) as (t' & E & Hw' & Hr' & Hle).
  change (RetryBudget.deposit (Fin t) = Fin t') in E. exists t'.
  split; [split; [cbn [budget set_budget]; rewrite Hb; cbn [fmap option_fmap option_map]; by rewrite E|by split]|].
  cbn [m set_budget count add_goodput retries goodput]. lia.
Qed.

Lemma handle_affords (key : Z) (deadline : float) (n : nat) (s : server) : affords s (handle key deadline n s).2.
Proof.
  unfold handle. destruct (match shed_limit s with Some b => b <=? inflight s | None => false end);
    [by apply affords_same|].
  destruct (Cache.get _ _) as [[|] c]; [by apply affords_same|]. destruct (Database.locked _); by apply affords_same.
Qed.

Lemma attempts_affords (key : Z) (now : nat -> float) (n : nat) (s : server) : affords s (attempts key now n s).2.
Proof.
  revert s. induction n as [|n IH]; intros s; [by apply affords_same|]. cbn [attempts].
  assert (Hgo : forall s1, affords s s1 ->
    affords s (match handle key (now (S n) + CLIENT_TIMEOUT)%F n s1 with
      | (Some p, s2) => (p, s2)
      | (None, s2) => attempts key now n (count add_attempt s2)
      end).2).
  { intros s1 H1. pose proof (handle_affords key (now (S n) + CLIENT_TIMEOUT)%F n s1) as Hh.
    destruct (handle _ _ _ _) as [[p|] s2]; cbn [snd] in *; [by eapply affords_trans|].
    eapply affords_trans; [by eapply affords_trans|]. eapply affords_trans; [|apply IH]. by apply affords_same. }
  destruct (S n =? ATTEMPTS)%nat; [apply Hgo; by apply affords_same|].
  pose proof (retry_affords s) as Hr. destruct (retry s) as [s1|]; [by apply Hgo|by apply affords_same].
Qed.

Lemma resume_affords (p : place) (e : wake) (s : server) : affords s (resume p e s).2.
Proof.
  assert (Ha : forall key now n s1, affords s s1 -> affords s (attempts key now n s1).2)
    by (intros; eapply affords_trans; [eassumption|apply attempts_affords]).
  assert (Hok : forall s1, affords s s1 ->
    affords s (set_budget (RetryBudget.deposit <$> budget s1) (count add_goodput s1)))
    by (intros s1 H1; eapply affords_trans; [exact H1|apply answered_affords]).
  destruct p as [k d n|k d n|k d n| | |], e as [|t now|now]; cbn [resume]; try by apply affords_same.
  - unfold answer. destruct (t <=? d)%F; [cbn [snd]; apply (Hok (count add_attempt _))|apply Ha]; by apply affords_same.
  - apply Ha. by apply affords_same.
  - destruct (0 <? Database.value (db s)); by apply affords_same.
  - apply Ha. by apply affords_same.
  - unfold answer. destruct (t <=? d)%F; [cbn [snd]; apply (Hok (count add_attempt _))|apply Ha]; by apply affords_same.
  - apply Ha. by apply affords_same.
Qed.

(** The events that leave the budget in place. *)
Definition keeps_budget (e : event) : bool := match e with EscapeB | EscapeD => false | _ => true end.

Lemma step_affords (e : event) (w : world) : keeps_budget e = true -> affords (srv w) (srv (step e w)).
Proof.
  intros He. destruct e as [key now|i e| | | | | |]; try done; cbn [step]; try by apply affords_same.
  - unfold client_request. pose proof (attempts_affords key now ATTEMPTS (srv w)).
    by destruct (attempts _ _ _ _).
  - destruct (tasks w !! i) as [p|]; [|by apply affords_same]. pose proof (resume_affords p e (srv w)).
    by destruct (resume _ _ _).
Qed.

Lemma run_affords (es : list event) (w : world) :
  Forall (fun e => keeps_budget e = true) es -> affords (srv w) (srv (run es w)).
Proof.
  intros H. revert w. unfold run. induction H as [|e es He Hes IH]; intros w; [by apply affords_same|].
  cbn [fold_left]. eapply affords_trans; [by apply step_affords|apply IH].
Qed.

(** *** Shedding *)

Lemma attempts_sheds (key : Z) (now : nat -> float) (n : nat) (b : Z) (s : server) :
  shed_limit s = Some b ->
  shed_limit (attempts key now n s).2 = Some b /\
  inflight (attempts key now n s).2 <= Z.max b (inflight s) /\
  (b <= inflight s -> inflight (attempts key now n s).2 = inflight s /\
    db (attempts key now n s).2 = db s /\ is_active (attempts key now n s).1 = false).
Proof.
  revert s. induction n as [|n IH]; intros s Hb; [cbn; repeat split; [done|lia]|]. cbn [attempts].
  assert (Hgo : forall s1, shed_limit s1 = Some b -> inflight s1 = inflight s -> db s1 = db s ->
    let r := match handle key (now (S n) + CLIENT_TIMEOUT)%F n s1 with
      | (Some p, s2) => (p, s2)
      | (None, s2) => attempts key now n (count add_attempt s2)
      end in
    shed_limit r.2 = Some b /\ inflight r.2 <= Z.max b (inflight s) /\
    (b <= inflight s -> inflight r.2 = inflight s /\ db r.2 = db s /\ is_active r.1 = false)).
  { intros s1 Hs Hi Hd. unfold handle. rewrite Hs, Hi. destruct (Z.leb_spec b (inflight s)) as [Hle|Hlt].
    - destruct (IH (count add_attempt (count add_shed s1)) Hs) as (H1 & H2 & H3).
      change (inflight (count add_attempt (count add_shed s1))) with (inflight s1) in *.
      change (db (count add_attempt (count add_shed s1))) with (db s1) in *. rewrite Hi in *. rewrite <- Hd. auto.
    - destruct (Cache.get _ _) as [[|] c]; [|destruct (Database.locked _)]; cbn; rewrite Hi;
        (split; [done|]; split; [lia|lia]). }
  destruct (S n =? ATTEMPTS)%nat; [by apply Hgo|].
  destruct (retry s) as [s1|] eqn:Er; [|cbn; repeat split; [done|lia]].
  unfold retry in Er. destruct (budget s) as [t|]; [destruct (RetryBudget.withdraw t) as [[|] t']|];
    cbn [fst snd] in Er; try discriminate; injection Er as <-; by apply Hgo.
Qed.

Lemma resume_sheds (p : place) (e : wake) (b : Z) (s : server) :
  shed_limit s = Some b ->
  shed_limit (resume p e s).2 = Some b /\ inflight (resume p e s).2 <= Z.max b (inflight s).
Proof.
  intros Hb.
  assert (Ha : forall key now n s1, shed_limit s1 = Some b -> inflight s1 = inflight s + -1 ->
    shed_limit (attempts key now n s1).2 = Some b /\ inflight (attempts key now n s1).2 <= Z.max b (inflight s)).
  { intros key now n s1 H1 H2. destruct (attempts_sheds key now n b s1 H1) as (H3 & H4 & _). split; [done|lia]. }
  destruct p as [k d n|k d n|k d n| | |], e as [|t now|now]; cbn [resume]; try (split; [done|cbn; lia]).
  - unfold answer. destruct (t <=? d)%F; [split; [done|cbn; lia]|by apply Ha].
  - by apply Ha.
  - destruct (0 <? Database.value (db s)); (split; [done|cbn; lia]).
  - by apply Ha.
  - unfold answer. destruct (t <=? d)%F; [split; [done|cbn; lia]|by apply Ha].
  - by apply Ha.
Qed.

Definition keeps_shedding (e : event) : bool := match e with EscapeC | EscapeD => false | _ => true end.

Lemma run_sheds (es : list event) (b : Z) (w : world) :
  Forall (fun e => keeps_shedding e = true) es -> shed_limit (srv w) = Some b ->
  shed_limit (srv (run es w)) = Some b /\ inflight (srv (run es w)) <= Z.max b (inflight (srv w)).
Proof.
  intros H. revert w. unfold run. induction H as [|e es He Hes IH]; intros w Hb; [split; [done|simpl; lia]|].
  cbn [fold_left].
  assert (Hs : shed_limit (srv (step e w)) = Some b /\ inflight (srv (step e w)) <= Z.max b (inflight (srv w))).
  { destruct e as [key now|i e| | | | | |]; try done; cbn [step]; try (split; [done|cbn; lia]).
    - unfold client_request. destruct (attempts_sheds key now ATTEMPTS b (srv w) Hb) as (H1 & H2 & _).
      by destruct (attempts _ _ _ _).
    - destruct (tasks w !! i) as [p|]; [|split; [done|lia]]. pose proof (resume_sheds p e b (srv w) Hb).
      by destruct (resume _ _ _). }
  destruct Hs as [Hs Hi]. destruct (IH _ Hs) as [H1 H2]. split; [exact H1|lia].
Qed.

(** ** Properties *)

(** C40: The process keeps its books under every load, timing, trigger and escape: the
    requests in flight are the gauge [inflight], the connections in use are those of
    queries whose callers still wait (an abandoned query gives its connection back at
    once), they and the free ones are the six of the pool; every request is answered,
    given up, cancelled or in flight; every attempt begun is counted once in
    [thruput_attempts] or still running; and a request makes at most three. *)
Theorem metastable_books (es : list event) :
  let w := run es start in
  let s := srv w in
  let l := tasks w in
  let requests := Z.of_nat (length l) in
  inflight s = countb is_active l /\
  Database.in_use (db s) = countb is_querying l /\
  Database.in_use (db s) + Database.value (db s) = 6 /\ 0 <= Database.in_use (db s) <= 6 /\
  goodput (m s) + failed (m s) + countb is_active l + countb is_cancelled l = requests /\
  requests + retries (m s) = thruput_attempts (m s) + countb is_active l + countb is_cancelled l /\
  thruput_attempts (m s) <= 3 * requests /\
  0 <= retries (m s) <= 2 * requests.
Proof.
  intros w s l requests. destruct (run_books es start start_books) as [H1 H2 _ H4 H5 H6 H7 H8 _ H10].
  fold w in H1, H2, H4, H5, H6, H7, H8, H10. fold s in H1, H2, H4, H5, H6, H7, H8, H10.
  fold l in H1, H2, H6, H7, H8, H10. subst requests. unfold POOL_SIZE in H4.
  pose proof (countb_split l). pose proof (weights_le l). pose proof (countb_nonneg is_querying l).
  pose proof (countb_nonneg is_active l). pose proof (countb_nonneg is_cancelled l).
  repeat split; lia.
Qed.

(** The sustaining effect: whatever the load, the timing, the trigger and the escapes,
    the cache gains no key but those of queries that ended before their caller's
    deadline, and each of these is an answer delivered.  So once the cache is empty and
    no query ends in time, no key comes back and no answer is delivered beyond the hits
    already being served, for as long as that lasts: dropping the load, capping the
    retries, shedding or restarting do not bring it back by themselves. *)
Theorem cache_refills_only_in_time (es : list event) (w : world) :
  let w' := run es w in
  Cache.present (cache (srv w')) ⊆ Cache.present (cache (srv w)) ∪ list_to_set (fills es w) /\
  goodput (m (srv w)) + Z.of_nat (length (fills es w)) <= goodput (m (srv w')) /\
  (Cache.present (cache (srv w)) = ∅ -> fills es w = [] ->
   Cache.present (cache (srv w')) = ∅ /\
   goodput (m (srv w')) + countb is_hit (tasks w') <= goodput (m (srv w)) + countb is_hit (tasks w)).
Proof.
  cbn zeta. revert w. induction es as [|e es IH]; intros w; [simpl; split; [set_solver|]; split; [lia|intros; split; [done|lia]]|].
  cbn [run fold_left fills]. destruct (step_refills e w) as [H1 H2 H3].
  destruct (IH (step e w)) as (G1 & G2 & G3). fold (run es (step e w)).
  rewrite list_to_set_app_L, length_app.
  split; [etransitivity; [exact G1|]; rewrite (assoc_L (∪)); by apply union_mono_r|]. split; [lia|].
  intros E [Ef Es]%app_eq_nil. specialize (H3 E Ef). rewrite E, Ef in H1.
  destruct G3 as [G3 G4]; [set_solver|exact Es|]. split; [exact G3|lia].
Qed.

(** A flush, and a client whose three queries all outlast their deadlines. *)
Definition flushed : world := step Flushall start.
Definition outage : list event :=
  let clock : nat -> float := fun n => of_Z (3 - Z.of_nat n) in
  [Arrives 1 clock; Wakes 0 (TimesOut clock); Wakes 0 (TimesOut clock); Wakes 0 (TimesOut clock)].

Lemma cache_refills_only_in_time_witness :
  fills outage flushed = [] /\ Cache.present (cache (srv (run outage flushed))) = ∅ /\
  failed (m (srv (run outage flushed))) = 1 /\
  goodput (m (srv (run outage flushed))) + countb is_hit (tasks (run outage flushed)) <= 0.
Proof.
  assert (E : fills outage flushed = []) by (vm_compute; reflexivity).
  assert (Ee : Cache.present (cache (srv flushed)) = ∅) by (vm_compute; reflexivity).
  assert (G : goodput (m (srv flushed)) + countb is_hit (tasks flushed) = 0) by (vm_compute; reflexivity).
  destruct (cache_refills_only_in_time outage flushed) as (_ & _ & T).
  destruct (T Ee E) as [T1 T2]. rewrite G in T2.
  split; [exact E|]. split; [exact T1|]. split; [vm_compute; reflexivity|exact T2].
Defined.

(** Escapes (b) and (c): from the moment the budget is enabled, retries are at most
    three and a tenth of the answers delivered since; and from the moment shedding is
    enabled, the requests in flight never exceed eight, or what they were if that was
    more. *)
Theorem escapes_bound_the_load (es : list event) (w : world) :
  (Forall (fun e => keeps_budget e = true) es -> goodput (m (srv (run es (step EscapeB w)))) - goodput (m (srv w)) <= 2 ^ 40 ->
   10 * (retries (m (srv (run es (step EscapeB w)))) - retries (m (srv w))) <=
     30 + (goodput (m (srv (run es (step EscapeB w)))) - goodput (m (srv w)))) /\
  (Forall (fun e => keeps_shedding e = true) es ->
   inflight (srv (run es (step EscapeC w))) <= Z.max SHED_LIMIT (inflight (srv w))).
Proof.
  split.
  - intros He Hg. pose proof unit_k_pos as Hu.
    assert (Hs : slop * 2 ^ 47 = unit_k) by (rewrite unit_k_eq; unfold slop; rewrite <- Z.pow_add_r by lia; reflexivity).
    assert (Hx : 2 ^ 1021 * 64 = slop) by (unfold slop; change 64 with (2 ^ 6); rewrite <- Z.pow_add_r by lia; reflexivity).
    destruct tenth_near as (_ & _ & Hr). pose proof (goodput_grows es (step EscapeB w)) as Hm.
    destruct (run_affords es (step EscapeB w) He (3 * unit_k)) as (t & (_ & _ & Ht) & Hp).
    { split; [cbn [step srv set_budget budget]; unfold RetryBudget.init; rewrite of_Z_small by lia; reflexivity|].
      split; [apply of_Z_wf_small; lia|lia]. }
    set (a := retries (m (srv (run es (step EscapeB w))))) in *.
    set (g := goodput (m (srv (run es (step EscapeB w))))) in *.
    change (retries (m (srv (step EscapeB w)))) with (retries (m (srv w))) in Hp.
    change (goodput (m (srv (step EscapeB w)))) with (goodput (m (srv w))) in Hp, Hm.
    set (a0 := retries (m (srv w))) in *. set (g0 := goodput (m (srv w))) in *. clearbody a g a0 g0.
    change (2 ^ 40) with 1099511627776 in Hg. change (2 ^ 47) with 140737488355328 in Hs.
    generalize dependent slop. generalize dependent tenth_k. intros rk Hr sl Hs Hx Hp.
    set (x := 2 ^ 1021) in *. clearbody x. generalize dependent unit_k. intros u Hu Ht Hs Hr Hp.
    assert (Hd : (g - g0) * (650 * x) <= 1099511627776 * (650 * x)) by (apply Z.mul_le_mono_nonneg_r; lia).
    assert (Hl : 10 * ((a - a0) * u) < (30 + (g - g0) + 1) * u).
    { assert (H10 : (g - g0) * (10 * (rk + sl)) <= (g - g0) * (u + 650 * x)) by (apply Z.mul_le_mono_nonneg_l; lia). lia. }
    assert (10 * (a - a0) < 30 + (g - g0) + 1) by (apply (Z.mul_lt_mono_pos_r u); lia). lia.
  - intros He. by apply (run_sheds es SHED_LIMIT (step EscapeC w)).
Qed.

Lemma escapes_bound_the_load_witness :
  retries (m (srv (run outage (step EscapeB flushed)))) = 2 /\ 10 * 2 <= 30 /\
  inflight (srv (run outage (step EscapeC flushed))) <= 8.
Proof.
  destruct (escapes_bound_the_load outage flushed) as [Hb Hc].
  assert (Er : retries (m (srv (run outage (step EscapeB flushed)))) = 2) by (vm_compute; reflexivity).
  assert (E0 : retries (m (srv flushed)) = 0) by (vm_compute; reflexivity).
  assert (Eg : goodput (m (srv (run outage (step EscapeB flushed)))) - goodput (m (srv flushed)) = 0)
    by (vm_compute; reflexivity).
  assert (Ei : inflight (srv flushed) = 0) by (vm_compute; reflexivity).
  rewrite Er, E0, Eg in Hb. rewrite Ei in Hc. split; [exact Er|].
  split; [exact (Hb ltac:(by repeat constructor) ltac:(lia))|exact (Hc ltac:(by repeat constructor))].
Defined.

(** The load offered is never negative and never above the constant one. *)
Lemma offered_rate_bounds (t : Z) (a : bool) :
  fleb (Fin 0) (offered_rate (Fin t) a) = true /\ fleb (offered_rate (Fin t) a) OFFERED_RPS = true.
Proof.
  assert (Hw : wf (Fin (180 * unit_k))) by (apply of_Z_wf_small; lia). pose proof unit_k_pos as Hu.
  assert (E : OFFERED_RPS = Fin (180 * unit_k)) by (apply of_Z_small; lia).
  unfold offered_rate. rewrite E. destruct (negb a || fltb (Fin t) ESCAPE_AT) eqn:Ea.
  { rewrite !fleb_Fin. split; lia. }
  cbn zeta. set (since := fsub (Fin t) ESCAPE_AT).
  destruct (fltb since DROP_SECONDS) eqn:Ed; [rewrite !fleb_Fin; split; lia|].
  assert (H0 : fleb (Fin 0) (fdivc (since - DROP_SECONDS)%F RAMP_BACK_SECONDS) = true).
  { assert (Hn : is_nan since = false) by (unfold since, ESCAPE_AT; rewrite of_Z_small by lia; apply fround_not_nan).
    unfold DROP_SECONDS in *. rewrite of_Z_small in * by lia. clearbody since.
    destruct since as [x| | |]; [|reflexivity|discriminate Ed|discriminate Hn]. cbn [fltb] in Ed. apply Z.ltb_ge in Ed.
    pose proof (fsub_nonneg _ _ Ed) as Hs. destruct (fsub (Fin x) (Fin (5 * unit_k))) as [y| | |]; [|reflexivity|exact Hs|exact Hs].
    rewrite fleb_Fin in Hs. cbn [fdivc]. rewrite <- (fround_exact 0 1) by (try lia; try apply rep_0; pose proof max_k_pos; lia).
    apply fround_mono; lia. }
  assert (Hr : exists r, fmin (of_Z 1) (fdivc (since - DROP_SECONDS)%F RAMP_BACK_SECONDS) = Fin r /\ 0 <= r <= unit_k).
  { rewrite (of_Z_small 1) by lia. destruct (fdivc _ _) as [y| | |]; [| |discriminate H0|discriminate H0]; unfold fmin; cbn [fltb].
    - rewrite fleb_Fin in H0. destruct (Z.ltb_spec y (1 * unit_k)); eexists; (split; [reflexivity|lia]).
    - eexists; (split; [reflexivity|lia]). }
  destruct Hr as (r & -> & Hr). destruct (fmul_fraction (180 * unit_k) r Hw) as [H1 H2]; [lia|lia|].
  split; [exact H1|exact H2].
Qed.
