(* ===== verification/PyAsync.v ===== *)
(** * The standard library's [asyncio]

    Semaphores, and coroutines as trees.  A coroutine runs until its next [await] with
    nothing else running; what it does on the way is a sequence of actions on the state of
    the program, with readings of the clock and random draws in between.  Coroutines with
    bounded loops are finite trees, so they are an inductive type and a function that runs
    one is structural. *)

From Stdlib Require Import ZArith Lia.
From stdpp Require Import base option list numbers.
From S2P Require Import Prelude PyFloat.

Open Scope Z_scope.

(** ** Definitions *)

(** [asyncio.Semaphore]: its value and how many wait; it is locked while its value is
    zero or somebody waits. *)
Module Semaphore.

Record t : Type := mk { value : Z; waiters : Z }.

Definition init (n : Z) : t := mk n 0.
Definition locked (s : t) : bool := (value s =? 0) || (0 <? waiters s).
Definition take (s : t) : t := mk (value s - 1) (waiters s).
Definition wait (s : t) : t := mk (value s) (waiters s + 1).
Definition granted (s : t) : t := mk (value s - 1) (waiters s - 1).
Definition leave (s : t) : t := mk (value s) (waiters s - 1).
Definition release (s : t) : t := mk (value s + 1) (waiters s).

End Semaphore.

(** How an [await] ends: it is over, or the timer of the enclosing [wait_for] number [h] has
    expired. *)
Inductive signal : Type := Resumes | Expires (h : nat).

(** [W]: the state of the program; [A]: its actions; [R]: what the coroutine returns or
    raises.  The continuation of an action is given the state before it; an [await] says
    when the event loop may end it, and how. *)
Inductive proc (W A R : Type) : Type :=
| Ret (r : R)
| Clock (k : float -> proc W A R)
| Uniform (lo hi : float) (k : float -> proc W A R)
| Do (a : A) (k : W -> proc W A R)
| Await (may : W -> signal -> bool) (k : signal -> proc W A R).
Arguments Ret {W A R}.
Arguments Clock {W A R}.
Arguments Uniform {W A R}.
Arguments Do {W A R}.
Arguments Await {W A R}.

#[export] Instance proc_ret {W A} : MRet (proc W A) := fun R r => Ret r.

Fixpoint proc_bind {W A R T} (k : R -> proc W A T) (p : proc W A R) : proc W A T :=
  match p with
  | Ret r => k r
  | Clock f => Clock (fun t => proc_bind k (f t))
  | Uniform lo hi f => Uniform lo hi (fun x => proc_bind k (f x))
  | Do a f => Do a (fun w => proc_bind k (f w))
  | Await g f => Await g (fun s => proc_bind k (f s))
  end.

#[export] Instance proc_mbind {W A} : MBind (proc W A) := fun R T k p => proc_bind k p.

Section advance.
Context {W A S R : Type} (exec : A -> W -> W).

(** Run to the next [await], or to the end; [o]: what the clock and [random] give on the
    way, in order.  Also the actions, last first. *)
Fixpoint advance (p : proc W A R) (w : W) (o : list float) (tr : list A) : proc W A R * W * list A :=
  match p with
  | Ret _ | Await _ _ => (p, w, tr)
  | Clock k | Uniform _ _ k => advance (k (hd NaN o)) w (tl o) tr
  | Do a k => advance (k w) (exec a w) o (a :: tr)
  end.

(** The event loop resumes a coroutine. *)
Definition wake (p : proc W A R) (s : signal) (w : W) (o : list float) (tr : list A) : proc W A R * W * list A :=
  match p with Await may k => if may w s then advance (k s) w o tr else (p, w, tr) | _ => (p, w, tr) end.

End advance.

(** An [await] inside [d] nested [wait_for]s: the timer of any of them can expire, and it is
    over when [ready]. *)
Definition await_in {W A R} (d : nat) (ready : W -> bool) (k : option nat -> proc W A R) : proc W A R :=
  Await (fun w s => match s with Resumes => ready w | Expires h => (h <? d)%nat end)
    (fun s => k (match s with Resumes => None | Expires h => Some h end)).

(** ** Lemmas *)

(** [bounded ok exec measure n Q p]: resumed with signals in [ok], what [p] does adds at most
    [n] to the measure of the state; when it returns [r] with [k] of that left, [Q k r]. *)
Section bounded.
Context {W A : Type} (ok : signal -> Prop) (exec : A -> W -> W) (measure : W -> Z).

Fixpoint bounded {R} (n : Z) (Q : Z -> R -> Prop) (p : proc W A R) : Prop :=
  match p with
  | Ret r => 0 <= n /\ Q n r
  | Clock k | Uniform _ _ k => forall x, bounded n Q (k x)
  | Do a k => forall w, bounded (n - (measure (exec a w) - measure w)) Q (k w)
  | Await may k => 0 <= n /\ forall w s, ok s -> may w s = true -> bounded n Q (k s)
  end.

(** More to spend is more that is left. *)
Lemma bounded_frame {R} (n m : Z) (Q Q' : Z -> R -> Prop) (p : proc W A R) :
  0 <= m -> (forall k r, 0 <= k -> Q k r -> Q' (k + m) r) -> bounded n Q p -> bounded (n + m) Q' p.
Proof.
  intros Hm HQ. revert n. induction p as [r|k IH|lo hi k IH|a k IH|g k IH]; intros n; cbn.
  - intros [? ?]. split; [lia|by apply HQ].
  - intros H x. by apply IH.
  - intros H x. by apply IH.
  - intros H w. replace (n + m - _) with (n - (measure (exec a w) - measure w) + m) by lia. by apply IH.
  - intros [H0 H]. split; [lia|]. intros w s Hs Hg. by apply IH, (H w).
Qed.

Lemma bounded_post {R} (n : Z) (Q Q' : Z -> R -> Prop) (p : proc W A R) :
  (forall k r, 0 <= k -> Q k r -> Q' k r) -> bounded n Q p -> bounded n Q' p.
Proof.
  intros HQ H. replace n with (n + 0) by lia. apply (bounded_frame n 0 Q); [lia| |exact H].
  intros k r Hk Hr. rewrite Z.add_0_r. by apply HQ.
Qed.

Lemma bounded_bind {R T} (n : Z) (Q : Z -> R -> Prop) (Q' : Z -> T -> Prop) (p : proc W A R) (k : R -> proc W A T) :
  bounded n Q p -> (forall m r, 0 <= m -> Q m r -> bounded m Q' (k r)) -> bounded n Q' (p ≫= k).
Proof.
  intros Hp Hk. revert n Hp. induction p as [r|f IH|lo hi f IH|a f IH|g f IH]; intros n Hp; cbn in *.
  - destruct Hp as [H0 Hr]. by apply Hk.
  - intros x. by apply IH.
  - intros x. by apply IH.
  - intros w. by apply IH.
  - destruct Hp as [H0 H]. split; [lia|]. intros w s Hs Hg. by apply IH, (H w).
Qed.

Lemma await_in_bounded {R} (n : Z) (Q : Z -> R -> Prop) (d : nat) (ready : W -> bool) (k : option nat -> proc W A R) :
  0 <= n -> bounded n Q (k None) -> (forall h, ok (Expires h) -> (h < d)%nat -> bounded n Q (k (Some h))) ->
  bounded n Q (await_in d ready k).
Proof. intros Hn H0 H1. split; [exact Hn|]. intros w [|h] Hs Hg; [exact H0|]. apply H1; [exact Hs|by apply Nat.ltb_lt]. Qed.

(** What [advance] does is in the bound, and it stops with something left. *)
Lemma bounded_advance {R} (n : Z) (Q : Z -> R -> Prop) (p : proc W A R) (w : W) (o : list float) (tr : list A) :
  bounded n Q p ->
  let '(p', w', _) := advance exec p w o tr in
  0 <= n - (measure w' - measure w) /\ bounded (n - (measure w' - measure w)) Q p'.
Proof.
  revert n w o tr. induction p as [r|f IH|lo hi f IH|a f IH|g f IH]; intros n w o tr Hp; cbn [advance].
  - replace (n - _) with n by lia. split; [by destruct Hp|exact Hp].
  - apply IH, Hp.
  - apply IH, Hp.
  - specialize (IH w (n - (measure (exec a w) - measure w)) (exec a w) o (a :: tr) (Hp w)).
    destruct (advance exec (f w) (exec a w) o (a :: tr)) as [[p' w'] tr'].
    replace (n - (measure w' - measure w)) with (n - (measure (exec a w) - measure w) - (measure w' - measure (exec a w))) by lia.
    exact IH.
  - replace (n - _) with n by lia. split; [by destruct Hp|exact Hp].
Qed.

Lemma bounded_wake {R} (n : Z) (Q : Z -> R -> Prop)
    (p : proc W A R) (s : signal) (w : W) (o : list float) (tr : list A) :
  ok s -> 0 <= n -> bounded n Q p ->
  let '(p', w', _) := wake exec p s w o tr in
  0 <= n - (measure w' - measure w) /\ bounded (n - (measure w' - measure w)) Q p'.
Proof.
  intros Hs Hn Hp. assert (Hsame : 0 <= n - (measure w - measure w) /\ bounded (n - (measure w - measure w)) Q p).
  { replace (n - _) with n by lia. by split. }
  destruct p as [r|f|lo hi f|a f|g f]; try exact Hsame. cbn [wake]. destruct (g w s) eqn:Hg; [|exact Hsame].
  apply bounded_advance. destruct Hp as [_ Hp]. by apply (Hp w).
Qed.

(** A task that may still add to the measure, and all tasks together: what they have added and
    may still add is at most [n] for each. *)
Definition may_add {R} (m : Z) (p : proc W A R) : Prop := 0 <= m /\ bounded m (fun _ _ => True) p.

Definition all_bounded {R} (n : Z) (w : W) (ps : list (proc W A R)) : Prop :=
  exists ns, Forall2 may_add ns ps /\ measure w + zsum ns <= n * Z.of_nat (length ps).

Lemma all_bounded_spawn {R} (n : Z) (w w' : W) (ps : list (proc W A R)) (p : proc W A R) :
  0 <= n -> measure w' <= measure w -> bounded n (fun _ _ => True) p -> all_bounded n w ps -> all_bounded n w' (ps ++ [p]).
Proof.
  intros Hn Hw Hp (ns & Hns & Hsum). exists (ns ++ [n]). split; [apply Forall2_app; [exact Hns|by repeat constructor]|].
  rewrite zsum_app, length_app. unfold zsum in *. simpl. lia.
Qed.

Lemma all_bounded_wake {R} (n : Z) (w : W) (ps : list (proc W A R)) (i : nat) (p : proc W A R) (s : signal)
    (o : list float) (tr : list A) :
  ok s -> ps !! i = Some p -> all_bounded n w ps ->
  let '(p', w', _) := wake exec p s w o tr in all_bounded n w' (<[i := p']> ps).
Proof.
  intros Hs Ei (ns & Hns & Hsum). destruct (Forall2_lookup_r _ _ _ _ _ Hns Ei) as (m & Em & Hm0 & Hm).
  pose proof (bounded_wake m (fun _ _ => True) p s w o tr Hs Hm0 Hm) as Hb.
  destruct (wake exec p s w o tr) as [[p' w'] tr']. exists (<[i := m - (measure w' - measure w)]> ns).
  split; [by apply Forall2_insert|]. rewrite length_insert.
  pose proof (zsum_insert (fun x => x) ns i m (m - (measure w' - measure w)) Em) as Hz. rewrite !list_fmap_id in Hz. lia.
Qed.

Lemma all_bounded_other {R} (n : Z) (w w' : W) (ps : list (proc W A R)) :
  measure w' <= measure w -> all_bounded n w ps -> all_bounded n w' ps.
Proof. intros Hw (ns & Hns & Hsum). exists ns. split; [exact Hns|lia]. Qed.

Lemma all_bounded_measure {R} (n : Z) (w : W) (ps : list (proc W A R)) :
  all_bounded n w ps -> measure w <= n * Z.of_nat (length ps).
Proof.
  intros (ns & Hns & Hsum). assert (0 <= zsum ns); [|lia]. clear Hsum.
  induction Hns as [|m p ns ps [Hm _] _ IH]; [done|]. unfold zsum in *. cbn. lia.
Qed.

End bounded.

(** What every action keeps, [advance] keeps. *)
Lemma advance_invariant {W A R} (exec : A -> W -> W) (P : W -> list A -> Prop) :
  (forall a w tr, P w tr -> P (exec a w) (a :: tr)) ->
  forall (p : proc W A R) w o tr, P w tr -> let '(_, w', tr') := advance exec p w o tr in P w' tr'.
Proof.
  intros HP p. induction p as [r|f IH|lo hi f IH|a f IH|g f IH]; intros w o tr H; cbn [advance]; try done.
  - by apply IH.
  - by apply IH.
  - by apply IH, HP.
Qed.

Lemma wake_invariant {W A R} (exec : A -> W -> W) (P : W -> list A -> Prop) :
  (forall a w tr, P w tr -> P (exec a w) (a :: tr)) ->
  forall (p : proc W A R) s w o tr, P w tr -> let '(_, w', tr') := wake exec p s w o tr in P w' tr'.
Proof.
  intros HP p s w o tr H. destruct p as [r|f|lo hi f|a f|g f]; try done. cbn [wake]. destruct (g w s); [|done].
  by apply advance_invariant.
Qed.
