(* ===== verification/Shedder.v ===== *)
(** * Failure layer: admission control and bulkheads

    Models src/05-failure/05-load-shedding-backpressure-and-bulkheads/python/shedder.py:
    the backend's pools, the gradient limit, the admission policies and the server that
    composes them.

    A request is a coroutine; a definition covers what it does between two awaits, and an
    [event] says who runs next, at what reading of the clock.  The arrivals, their tiers,
    the service times and the order in which waiters are woken are inputs. *)

From Stdlib Require Import ZArith Lia.
From stdpp Require Import base option list numbers.
From S2P Require Import Prelude PyFloat PyWorld PyAsync.

Open Scope Z_scope.

(** ** Definitions *)

Definition WORKERS : Z := 8.
Definition SLO_S : float := lit 500 1000.
Definition SHED_LIMIT : Z := 12.
Definition TIER3_LIMIT : Z := 10.
Definition ADAPT_MIN : float := of_Z 2.
Definition ADAPT_MAX : float := of_Z 64.
Definition ADAPT_START : float := of_Z 10.
Definition ADAPT_WINDOW_S : float := lit 25 100.
Definition ADAPT_SMOOTHING : float := lit 2 10.
Definition MIN_RTT_RESET_S : float := of_Z 5.
Definition BULKHEAD_CHECKOUT_WORKERS : Z := 6.
Definition BULKHEAD_REPORT_WORKERS : Z := 2.

Module Backend.

Record t : Type := mk { sem : Semaphore.t; in_use : Z; queued : Z }.

Definition init (workers : Z) : t := mk (Semaphore.init workers) 0 0.

(** [call] up to its first await: a connection at once, or a place in the queue. *)
Definition call (b : t) : bool * t :=
  if Semaphore.locked (sem b)
  then (false, mk (Semaphore.wait (sem b)) (in_use b) (queued b + 1))
  else (true, mk (Semaphore.take (sem b)) (in_use b + 1) (queued b)).
Definition granted (b : t) : t := mk (Semaphore.granted (sem b)) (in_use b + 1) (queued b - 1).

(** The inner [finally] returns: the end of the sleep and a cancellation during it are
    the same. *)
Definition finish (b : t) : t := mk (Semaphore.release (sem b)) (in_use b - 1) (queued b).
(** A cancellation in the queue: [queued] is lowered only by a coroutine that gets in. *)
Definition cancelled (b : t) : t := mk (Semaphore.leave (sem b)) (in_use b) (queued b).

End Backend.

Module GradientLimit.

(** [min_rtt]: [None] while it is the object [math.inf]. *)
Record t : Type := mk {
  limit : float;
  min_rtt : option float;
  samples : list float;
  last_update : float;
  last_reset : float;
}.

Definition init : t := mk ADAPT_START None [] (Fin 0) (Fin 0).

Definition observe (rtt : float) (g : t) : t :=
  mk (limit g) (min_rtt g) (samples g ++ [rtt]) (last_update g) (last_reset g).

Definition window_min (x : float) (l : list float) : float := fold_left fmin l x.
Definition median (l : list float) : float := default NaN (sorted_floats l !! (length l / 2)%nat).

(** The new minimum, and when it was last taken afresh. *)
Definition rebase (now wmin : float) (g : t) : float * float :=
  match min_rtt g with
  | Some r => if (MIN_RTT_RESET_S <=? now - last_reset g)%F then (wmin, now) else (fmin r wmin, last_reset g)
  | None => (wmin, now)
  end.

Definition gradient (rtt med : float) : float :=
  fmax (lit 5 10) (fmin (of_Z 1) (default NaN (fdiv rtt (fmax med (lit 1 1000000))))).

Definition next_limit (l grad : float) : float :=
  let target := (l * grad + fsqrt l)%F in
  fmax ADAPT_MIN (fmin ADAPT_MAX (l * (of_Z 1 - ADAPT_SMOOTHING) + ADAPT_SMOOTHING * target)%F).

Definition update (now : float) (g : t) : t :=
  if fltb (fsub now (last_update g)) ADAPT_WINDOW_S then g
  else
    match samples g with
    | [] => mk (limit g) (min_rtt g) [] now (last_reset g)
    | x :: l =>
        let r := rebase now (window_min x l) g in
        mk (next_limit (limit g) (gradient r.1 (median (x :: l)))) (Some r.1) [] now r.2
    end.

End GradientLimit.

(** The policies; the server of a bulkhead runs without admission control. *)
Inductive mode : Type := none | static | priority | adaptive | bulkhead_shared | bulkhead_split.

Definition admission_mode (md : mode) : mode :=
  match md with bulkhead_shared | bulkhead_split => none | _ => md end.

Record admission : Type := mkAdmission { sem : Semaphore.t; inflight : Z; limiter : GradientLimit.t }.

Record metrics : Type := mkMetrics {
  offered : Z; accepted : Z; rejected : Z; goodput : Z; tier0_offered : Z; tier0_goodput : Z;
  latencies : list float; lat_tier0 : list float; reject_cost : list float }.

Record server : Type := mkServer {
  adm : admission; checkout_backend : Backend.t; report_backend : Backend.t; m : metrics }.

(** One request: its tier, which endpoint, and the clock at the start of [handle] and at
    that of its admission. *)
Record request : Type := mkRequest { tier : Z; is_report : bool; t0 : float; admit_t0 : float }.

Inductive place : Type :=
| Deciding (r : request)
| Queued (r : request)
| InService (r : request)
| Rejected (r : request)
| Served (r : request)
| Dropped (r : request)
| Forgotten (r : request).

(** [inflight >= limit] between an int and a float. *)
Definition reached (n : Z) (limit : float) : bool :=
  match limit with Fin k => k <=? n * unit_k | NInf => true | _ => false end.

Inductive decision : Type := Admit | Refuse | Wait.

Definition uses_sem (md : mode) (r : request) : bool :=
  match admission_mode md with
  | none | adaptive => false
  | priority => negb (0 <? tier r)
  | _ => true
  end.

(** [Admission]'s operation up to its first await. *)
Definition try_admit (md : mode) (r : request) (a : admission) : decision * admission :=
  let enter := mkAdmission (sem a) (inflight a + 1) (limiter a) in
  match admission_mode md with
  | none => (Admit, enter)
  | adaptive => if reached (inflight a) (GradientLimit.limit (limiter a)) then (Refuse, a) else (Admit, enter)
  | _ =>
      if negb (uses_sem md r) then if TIER3_LIMIT <=? inflight a then (Refuse, a) else (Admit, enter)
      else if Semaphore.locked (sem a) then (Wait, mkAdmission (Semaphore.wait (sem a)) (inflight a) (limiter a))
      else (Admit, mkAdmission (Semaphore.take (sem a)) (inflight a + 1) (limiter a))
  end.

Definition release (md : mode) (r : request) (a : admission) : admission :=
  mkAdmission (if uses_sem md r then Semaphore.release (sem a) else sem a) (inflight a - 1) (limiter a).

Definition set_adm (a : admission) (s : server) : server :=
  mkServer a (checkout_backend s) (report_backend s) (m s).
Definition on_metrics (f : metrics -> metrics) (s : server) : server :=
  mkServer (adm s) (checkout_backend s) (report_backend s) (f (m s)).

(** Only [bulkhead_split] has a pool for the reports. *)
Definition own_pool (md : mode) (r : request) : bool :=
  match md with bulkhead_split => is_report r | _ => false end.
Definition backend (md : mode) (r : request) (s : server) : Backend.t :=
  if own_pool md r then report_backend s else checkout_backend s.
Definition set_backend (md : mode) (r : request) (b : Backend.t) (s : server) : server :=
  if own_pool md r then mkServer (adm s) (checkout_backend s) b (m s)
  else mkServer (adm s) b (report_backend s) (m s).

Definition is_tier0 (r : request) : bool := tier r =? 0.

Definition offer (r : request) (k : metrics) : metrics :=
  mkMetrics (offered k + 1) (accepted k) (rejected k) (goodput k)
    (tier0_offered k + if is_tier0 r then 1 else 0) (tier0_goodput k) (latencies k) (lat_tier0 k) (reject_cost k).
Definition reject (cost : float) (k : metrics) : metrics :=
  mkMetrics (offered k) (accepted k) (rejected k + 1) (goodput k) (tier0_offered k) (tier0_goodput k)
    (latencies k) (lat_tier0 k) (reject_cost k ++ [cost]).
Definition accept (k : metrics) : metrics :=
  mkMetrics (offered k) (accepted k + 1) (rejected k) (goodput k) (tier0_offered k) (tier0_goodput k)
    (latencies k) (lat_tier0 k) (reject_cost k).
Definition serve (r : request) (latency : float) (k : metrics) : metrics :=
  let good := (latency <=? SLO_S)%F in
  mkMetrics (offered k) (accepted k) (rejected k) (goodput k + if good then 1 else 0) (tier0_offered k)
    (tier0_goodput k + if good && is_tier0 r then 1 else 0) (latencies k ++ [latency])
    (if is_tier0 r then lat_tier0 k ++ [latency] else lat_tier0 k) (reject_cost k).

(** An admitted request goes to its backend. *)
Definition to_backend (md : mode) (r : request) (s : server) : place * server :=
  let s := on_metrics accept s in
  let '(now_in, b) := Backend.call (backend md r s) in
  (if now_in then InService r else Queued r, set_backend md r b s).

(** [Server.handle] up to its first await. *)
Definition handle (md : mode) (r : request) (now : float) (s : server) : place * server :=
  let s := on_metrics (offer r) s in
  match try_admit md r (adm s) with
  | (Admit, a) => to_backend md r (set_adm a s)
  | (Refuse, a) => (Rejected r, on_metrics (reject (now - admit_t0 r)%F) (set_adm a s))
  | (Wait, a) => (Deciding r, set_adm a s)
  end.

(** From the end of the call on. *)
Definition served (md : mode) (r : request) (now : float) (s : server) : place * server :=
  let s := set_backend md r (Backend.finish (backend md r s)) s in
  let latency := (now - t0 r)%F in
  let a := release md r (adm s) in
  let a := match admission_mode md with
           | adaptive => mkAdmission (sem a) (inflight a) (GradientLimit.observe latency (limiter a))
           | _ => a end in
  (Served r, on_metrics (serve r latency) (set_adm a s)).

Inductive wakeup : Type := Granted | Ends (now : float) | TimesOut (now : float) | Cancel (now : float).

Definition resume (md : mode) (p : place) (e : wakeup) (s : server) : place * server :=
  match p, e with
  | Deciding r, Granted =>
      let a := adm s in
      if 0 <? Semaphore.value (sem a)
      then to_backend md r (set_adm (mkAdmission (Semaphore.granted (sem a)) (inflight a + 1) (limiter a)) s)
      else (p, s)
  | Deciding r, TimesOut now =>
      let a := adm s in
      (Rejected r, on_metrics (reject (now - admit_t0 r)%F)
        (set_adm (mkAdmission (Semaphore.leave (sem a)) (inflight a) (limiter a)) s))
  | Deciding r, Cancel _ =>
      let a := adm s in (Dropped r, set_adm (mkAdmission (Semaphore.leave (sem a)) (inflight a) (limiter a)) s)
  | Queued r, Granted =>
      let b := backend md r s in
      if 0 <? Semaphore.value (Backend.sem b) then (InService r, set_backend md r (Backend.granted b) s) else (p, s)
  | Queued r, Cancel _ =>
      let s := set_backend md r (Backend.cancelled (backend md r s)) s in
      (Forgotten r, set_adm (release md r (adm s)) s)
  | InService r, Ends now => served md r now s
  | InService r, Cancel now => served md r now s
  | _, _ => (p, s)
  end.

Inductive event : Type :=
| Arrives (r : request) (now : float)
| Wakes (i : nat) (e : wakeup)
| Updates (now : float).

Record world : Type := mkWorld { srv : server; tasks : list place }.

Definition step (md : mode) (e : event) (w : world) : world :=
  match e with
  | Arrives r now => let '(p, s) := handle md r now (srv w) in mkWorld s (tasks w ++ [p])
  | Wakes i e =>
      match tasks w !! i with
      | None => w
      | Some p => let '(p', s) := resume md p e (srv w) in mkWorld s (<[i := p']> (tasks w))
      end
  | Updates now =>
      let a := adm (srv w) in
      match admission_mode md with
      | adaptive => mkWorld (set_adm (mkAdmission (sem a) (inflight a) (GradientLimit.update now (limiter a))) (srv w)) (tasks w)
      | _ => w
      end
  end.

Definition run (md : mode) (es : list event) (w : world) : world := fold_left (fun w e => step md e w) es w.

Definition start (md : mode) : world :=
  let split := match md with bulkhead_split => true | _ => false end in
  mkWorld (mkServer (mkAdmission (Semaphore.init SHED_LIMIT) 0 GradientLimit.init)
      (Backend.init (if split then BULKHEAD_CHECKOUT_WORKERS else WORKERS))
      (Backend.init BULKHEAD_REPORT_WORKERS) (mkMetrics 0 0 0 0 0 0 [] [] [])) [].

(** [percentile]; [math.ceil] raises on no finite product, and [q] is a constant of the
    caller. *)
Definition percentile (values : list float) (q : float) : float :=
  match values with
  | [] => Fin 0
  | _ =>
      let n := Z.of_nat (length values) in
      match f_ceil (q * of_Z n)%F with
      | Some i => default NaN (sorted_floats values !! Z.to_nat (Z.min (n - 1) (Z.max 0 (i - 1))))
      | None => NaN
      end
  end.

(** ** Lemmas *)

(** *** The gradient limit *)

(** Whatever the latencies, nan and infinities included. *)
Definition in_range (l : float) : Prop := exists k, l = Fin k /\ 2 * unit_k <= k <= 64 * unit_k.

Lemma shed_next_limit_range (l grad : float) : in_range (GradientLimit.next_limit l grad).
Proof.
  unfold GradientLimit.next_limit. cbn zeta.
  generalize (l * (of_Z 1 - ADAPT_SMOOTHING) + ADAPT_SMOOTHING * (l * grad + fsqrt l))%F. intros x.
  unfold ADAPT_MIN, ADAPT_MAX, in_range. rewrite !of_Z_small by lia. pose proof unit_k_pos as Hu.
  assert (H : exists y, fmin (Fin (64 * unit_k)) x = y /\ (y = NInf \/ exists k, y = Fin k /\ k <= 64 * unit_k)).
  { eexists. split; [reflexivity|]. unfold fmin. destruct x as [k| | |]; cbn [fltb]; [|right|by left|right].
    - destruct (Z.ltb_spec k (64 * unit_k)); right; eexists; (split; [reflexivity|lia]).
    - eexists; (split; [reflexivity|lia]).
    - eexists; (split; [reflexivity|lia]). }
  destruct H as (y & -> & [->|(k & -> & Hk)]); unfold fmax; cbn [fltb].
  - eexists; (split; [reflexivity|lia]).
  - destruct (Z.ltb_spec (2 * unit_k) k); eexists; (split; [reflexivity|lia]).
Qed.

Lemma update_range (now : float) (g : GradientLimit.t) :
  in_range (GradientLimit.limit g) -> in_range (GradientLimit.limit (GradientLimit.update now g)).
Proof.
  intros H. unfold GradientLimit.update. destruct (fltb _ _); [exact H|].
  destruct (GradientLimit.samples g); cbn [GradientLimit.limit]; [exact H|].
  generalize (GradientLimit.limit g). intros x. generalize (GradientLimit.gradient (GradientLimit.rebase now
    (GradientLimit.window_min f l) g).1 (GradientLimit.median (f :: l))). intros y. exact (shed_next_limit_range x y).
Qed.

Lemma shed_init_range : in_range (GradientLimit.limit GradientLimit.init).
Proof.
  exists (10 * unit_k). pose proof unit_k_pos. split; [cbn [GradientLimit.limit GradientLimit.init]; apply of_Z_small; lia|lia].
Qed.

Lemma reached_below (n : Z) (l : float) : in_range l -> reached n l = false -> n < 64.
Proof. intros (k & -> & Hk) H. unfold reached in H. pose proof unit_k_pos. apply Z.leb_gt in H. nia. Qed.

(** *** The books *)

Definition request_of (p : place) : request :=
  match p with
  | Deciding r | Queued r | InService r | Rejected r | Served r | Dropped r | Forgotten r => r
  end.
Definition is_deciding (p : place) : bool := match p with Deciding _ => true | _ => false end.
Definition is_queued (p : place) : bool := match p with Queued _ => true | _ => false end.
Definition in_service (p : place) : bool := match p with InService _ => true | _ => false end.
Definition is_inside (p : place) : bool := is_queued p || in_service p.
Definition is_rejected (p : place) : bool := match p with Rejected _ => true | _ => false end.
Definition is_served (p : place) : bool := match p with Served _ => true | _ => false end.
Definition is_dropped (p : place) : bool := match p with Dropped _ => true | _ => false end.
Definition is_forgotten (p : place) : bool := match p with Forgotten _ => true | _ => false end.
Definition via_sem (md : mode) (p : place) : bool := uses_sem md (request_of p).
(** Those of the pool [own]: of the reports' own, or of the other. *)
Definition of_pool (md : mode) (own : bool) (f : place -> bool) (p : place) : bool :=
  f p && eqb own (own_pool md (request_of p)).

(** A pool of [workers] with its requests. *)
Record pool_books (md : mode) (own : bool) (workers : Z) (l : list place) (b : Backend.t) : Prop := {
  p_in_use : Backend.in_use b = countb (of_pool md own in_service) l;
  p_value : 0 <= Semaphore.value (Backend.sem b);
  p_sum : Semaphore.value (Backend.sem b) + Backend.in_use b = workers;
  p_waiters : Semaphore.waiters (Backend.sem b) = countb (of_pool md own is_queued) l;
  p_queued : Backend.queued b =
    countb (of_pool md own is_queued) l + countb (of_pool md own is_forgotten) l }.

Record adm_books (md : mode) (l : list place) (a : admission) : Prop := {
  a_inflight : inflight a = countb is_inside l;
  a_value : 0 <= Semaphore.value (sem a);
  a_sem : Semaphore.value (sem a) + countb (fun p => is_inside p && via_sem md p) l = SHED_LIMIT;
  a_waiters : Semaphore.waiters (sem a) = countb is_deciding l;
  a_deciding : Forall (fun p => is_deciding p = true -> via_sem md p = true) l;
  a_tier3 : md = priority -> countb (fun p => is_inside p && negb (via_sem md p)) l <= TIER3_LIMIT;
  a_limit : in_range (GradientLimit.limit (limiter a));
  a_adaptive : md = adaptive -> inflight a <= 64 }.

Record metric_books (l : list place) (k : metrics) : Prop := {
  m_offered : offered k = Z.of_nat (length l);
  m_accepted : accepted k = countb is_inside l + countb is_served l + countb is_forgotten l;
  m_rejected : rejected k = countb is_rejected l;
  m_served : Z.of_nat (length (latencies k)) = countb is_served l;
  m_costs : Z.of_nat (length (reject_cost k)) = rejected k;
  m_goodput : 0 <= tier0_goodput k <= goodput k /\ goodput k <= countb is_served l;
  m_tier0 : tier0_offered k = countb (fun p => is_tier0 (request_of p)) l }.

Definition checkout_workers (md : mode) : Z :=
  match md with bulkhead_split => BULKHEAD_CHECKOUT_WORKERS | _ => WORKERS end.

Record books (md : mode) (l : list place) (s : server) : Prop := {
  b_adm : adm_books md l (adm s);
  b_checkout : pool_books md false (checkout_workers md) l (checkout_backend s);
  b_report : pool_books md true BULKHEAD_REPORT_WORKERS l (report_backend s);
  b_metrics : metric_books l (m s) }.

#[export] Instance books_perm (md : mode) : Proper ((≡ₚ) ==> eq ==> iff) (books md).
Proof.
  assert (P : forall own n l k b, l ≡ₚ k -> pool_books md own n l b -> pool_books md own n k b)
    by (intros own n l k b H []; constructor; by rewrite <- ?H).
  assert (A : forall l k a, l ≡ₚ k -> adm_books md l a -> adm_books md k a)
    by (intros l k a H []; constructor; by rewrite <- ?H).
  assert (M : forall l k a, l ≡ₚ k -> metric_books l a -> metric_books k a)
    by (intros l k a H []; constructor; rewrite <- ?H; done).
  intros l k H s ? <-. split; intros []; constructor; eauto using Permutation_sym.
Qed.

#[local] Arguments countb : simpl never.
#[local] Arguments uses_sem : simpl never.
#[local] Arguments own_pool : simpl never.
#[local] Arguments in_range : simpl never.

(** Opens the books, and closes those of the next state. *)
#[local] Ltac open_books :=
  repeat match goal with
  | H : books _ _ _ |- _ => destruct H
  | H : adm_books _ _ _ |- _ => destruct H
  | H : pool_books _ _ _ _ _ |- _ => destruct H
  | H : metric_books _ _ |- _ => destruct H
  | H : _ /\ _ |- _ => destruct H
  end;
  rewrite ?countb_cons, ?List.Forall_cons_iff in *; unfold of_pool, via_sem in *;
  cbn [bit andb negb orb is_queued in_service is_inside is_deciding is_rejected is_served is_dropped is_forgotten
       request_of length] in *;
  repeat match goal with H : _ /\ _ |- _ => destruct H end.

(** A bound that only one policy has. *)
#[local] Ltac mode_lia :=
  let E := fresh in intros E; repeat match goal with H : _ = _ -> _ |- _ => specialize (H E) end; lia.

#[local] Ltac close_books :=
  rewrite ?countb_cons, ?List.Forall_cons_iff; unfold of_pool, via_sem;
  cbn -[SHED_LIMIT TIER3_LIMIT Z.add Z.sub Z.of_nat];
  rewrite ?length_app; cbn -[SHED_LIMIT TIER3_LIMIT Z.add Z.sub Z.of_nat];
  first [lia | intros ->; lia | repeat split; (lia || done || assumption)].

Lemma try_admit_books (md : mode) (r : request) (l : list place) (a : admission) :
  adm_books md l a ->
  match try_admit md r a with
  | (Admit, a') => forall p, request_of p = r -> is_inside p = true -> is_deciding p = false -> adm_books md (p :: l) a'
  | (Refuse, a') => adm_books md (Rejected r :: l) a'
  | (Wait, a') => adm_books md (Deciding r :: l) a'
  end.
Proof.
  intros H.
  assert (Hr : adm_books md (Rejected r :: l) a) by (open_books; constructor; close_books).
  assert (Hin : uses_sem md r = false -> (md = priority -> inflight a < TIER3_LIMIT) ->
    (md = adaptive -> inflight a < 64) ->
    forall p, request_of p = r -> is_inside p = true -> is_deciding p = false ->
    adm_books md (p :: l) (mkAdmission (sem a) (inflight a + 1) (limiter a))).
  { intros Hu Ht Ha p Hp Hi Hd.
    assert (Hle : countb (fun p => is_inside p && negb (via_sem md p)) l <= countb is_inside l)
      by (apply countb_le; intros q; by destruct (is_inside q)).
    open_books. constructor; rewrite ?countb_cons, ?List.Forall_cons_iff; cbn [sem inflight limiter]; unfold via_sem in *;
      rewrite ?Hp, ?Hi, ?Hd, ?Hu; cbn [bit andb negb]; try lia; try done.
    - intros E. specialize (Ht E). unfold TIER3_LIMIT in *. lia.
    - intros E. specialize (Ha E). lia. }
  assert (Hsem : uses_sem md r = true ->
    match (if Semaphore.locked (sem a) then (Wait, mkAdmission (Semaphore.wait (sem a)) (inflight a) (limiter a))
      else (Admit, mkAdmission (Semaphore.take (sem a)) (inflight a + 1) (limiter a))) with
    | (Admit, a') => forall p, request_of p = r -> is_inside p = true -> is_deciding p = false -> adm_books md (p :: l) a'
    | (Refuse, a') => adm_books md (Rejected r :: l) a'
    | (Wait, a') => adm_books md (Deciding r :: l) a'
    end).
  { intros Hu. unfold Semaphore.locked. destruct (Z.eqb_spec (Semaphore.value (sem a)) 0) as [E|E]; cbn [orb].
    - open_books. constructor; rewrite ?Hu; close_books.
    - destruct (0 <? Semaphore.waiters (sem a)); [open_books; constructor; rewrite ?Hu; close_books|].
      intros p Hp Hi Hd. open_books.
      constructor; rewrite ?countb_cons, ?List.Forall_cons_iff; cbn [sem inflight limiter Semaphore.value Semaphore.take Semaphore.waiters];
        unfold via_sem in *; rewrite ?Hp, ?Hi, ?Hd, ?Hu; cbn [bit andb negb]; try lia; try done.
      intros ->. discriminate Hu. }
  destruct md; cbn [try_admit admission_mode].
  - intros p. apply Hin; done.
  - apply Hsem. done.
  - destruct (uses_sem priority r) eqn:Eu; cbn [negb]; [by apply Hsem|].
    destruct (Z.leb_spec TIER3_LIMIT (inflight a)); [exact Hr|]. intros p. by apply Hin.
  - destruct (reached _ _) eqn:E; [exact Hr|]. intros p. apply Hin; [done|done|]. intros _.
    eapply reached_below; [|exact E]. by destruct H.
  - intros p. apply Hin; done.
  - intros p. apply Hin; done.
Qed.

(** *** A pool *)

Lemma pool_skip (md : mode) (own : bool) (n : Z) (p : place) (l : list place) (b : Backend.t) :
  of_pool md own (fun p => is_inside p || is_forgotten p) p = false ->
  pool_books md own n l b <-> pool_books md own n (p :: l) b.
Proof.
  intros H.
  assert (E : forall f, (forall q, f q = true -> is_inside q || is_forgotten q = true) ->
    countb (of_pool md own f) (p :: l) = countb (of_pool md own f) l).
  { intros f Hf. rewrite countb_cons. unfold of_pool in *. specialize (Hf p).
    destruct (eqb own (own_pool md (request_of p))); [|by rewrite andb_false_r].
    rewrite andb_true_r in *. destruct (f p); [by rewrite Hf in H|done]. }
  split; intros []; constructor; rewrite ?E in *; try done; by intros [].
Qed.

(** Moving a request within its pool. *)
Lemma pool_call (md : mode) (n : Z) (r : request) (l : list place) (b : Backend.t) :
  pool_books md (own_pool md r) n l b ->
  pool_books md (own_pool md r) n ((if (Backend.call b).1 then InService r else Queued r) :: l) (Backend.call b).2.
Proof.
  intros H. unfold Backend.call, Semaphore.locked.
  destruct (Z.eqb_spec (Semaphore.value (Backend.sem b)) 0); cbn [orb];
    [|destruct (0 <? Semaphore.waiters (Backend.sem b))]; cbn [fst snd]; open_books; constructor;
    rewrite ?countb_cons; unfold of_pool; cbn; rewrite ?eqb_reflx; cbn; lia.
Qed.

Lemma pool_granted (md : mode) (n : Z) (r : request) (l : list place) (b : Backend.t) :
  0 < Semaphore.value (Backend.sem b) -> pool_books md (own_pool md r) n (Queued r :: l) b ->
  pool_books md (own_pool md r) n (InService r :: l) (Backend.granted b).
Proof.
  intros Hv H. open_books. rewrite eqb_reflx in *. cbn in *.
  constructor; rewrite ?countb_cons; unfold of_pool; cbn; rewrite ?eqb_reflx; cbn; lia.
Qed.

Lemma pool_finish (md : mode) (n : Z) (r : request) (l : list place) (b : Backend.t) :
  pool_books md (own_pool md r) n (InService r :: l) b ->
  pool_books md (own_pool md r) n (Served r :: l) (Backend.finish b).
Proof.
  intros H. open_books. rewrite eqb_reflx in *. cbn in *.
  constructor; rewrite ?countb_cons; unfold of_pool; cbn; rewrite ?eqb_reflx; cbn; lia.
Qed.

Lemma pool_cancelled (md : mode) (n : Z) (r : request) (l : list place) (b : Backend.t) :
  pool_books md (own_pool md r) n (Queued r :: l) b ->
  pool_books md (own_pool md r) n (Forgotten r :: l) (Backend.cancelled b).
Proof.
  intros H. open_books. rewrite eqb_reflx in *. cbn in *.
  constructor; rewrite ?countb_cons; unfold of_pool; cbn; rewrite ?eqb_reflx; cbn; lia.
Qed.

Definition workers (md : mode) (own : bool) : Z := if own then BULKHEAD_REPORT_WORKERS else checkout_workers md.

Definition pools (md : mode) (l : list place) (s : server) : Prop :=
  pool_books md false (workers md false) l (checkout_backend s) /\
  pool_books md true (workers md true) l (report_backend s).

Lemma pools_backend (md : mode) (r : request) (l : list place) (s : server) :
  pools md l s -> pool_books md (own_pool md r) (workers md (own_pool md r)) l (backend md r s).
Proof. intros [H1 H2]. unfold backend. by destruct (own_pool md r). Qed.

(** A request [p] that moves within its pool. *)
Lemma pools_move (md : mode) (r : request) (p p' : place) (l : list place) (s : server) (b : Backend.t) :
  request_of p = r -> request_of p' = r -> pools md (p :: l) s ->
  pool_books md (own_pool md r) (workers md (own_pool md r)) (p' :: l) b ->
  pools md (p' :: l) (set_backend md r b s).
Proof.
  intros Hp Hp' [H1 H2] Hb. unfold set_backend, pools.
  assert (Hskip : forall own n c, own <> own_pool md r -> pool_books md own n (p :: l) c -> pool_books md own n (p' :: l) c).
  { intros own n c Ho Hc. apply pool_skip; [unfold of_pool; rewrite Hp'|apply pool_skip in Hc; [exact Hc|unfold of_pool; rewrite Hp]];
      (destruct own, (own_pool md r); [done| | |done]; apply andb_false_r). }
  destruct (own_pool md r) eqn:Eo; cbn [checkout_backend report_backend]; (split; [|]);
    first [exact Hb | apply Hskip; [done|assumption]].
Qed.

(** A request that leaves or has never been in a pool. *)
Lemma pools_skip (md : mode) (p : place) (l : list place) (s : server) :
  is_inside p = false -> is_forgotten p = false -> pools md l s <-> pools md (p :: l) s.
Proof.
  intros Hi Hf. assert (H : forall own, of_pool md own (fun p => is_inside p || is_forgotten p) p = false)
    by (intros own; unfold of_pool; by rewrite Hi, Hf).
  unfold pools. by rewrite <- !pool_skip.
Qed.

Lemma books_split (md : mode) (l : list place) (s : server) :
  books md l s <-> adm_books md l (adm s) /\ pools md l s /\ metric_books l (m s).
Proof. split; [intros []; done|intros (? & [] & ?); by constructor]. Qed.

(** *** A step *)

Lemma to_backend_books (md : mode) (r : request) (q : place) (l : list place) (s : server) :
  request_of q = r -> is_inside q = false -> is_forgotten q = false ->
  (forall p, request_of p = r -> is_inside p = true -> is_deciding p = false -> adm_books md (p :: l) (adm s)) ->
  pools md l s ->
  (forall p, request_of p = r -> is_inside p = true -> metric_books (p :: l) (accept (m s))) ->
  let '(p, s') := to_backend md r s in books md (p :: l) s'.
Proof.
  intros Hq Hi Hf Ha Hp Hm. unfold to_backend.
  pose proof (pools_backend md r l s Hp) as Hb. apply pool_call in Hb.
  change (backend md r (on_metrics accept s)) with (backend md r s).
  destruct (Backend.call (backend md r s)) as [now_in b]. cbn [fst snd] in Hb.
  assert (Hr : request_of (if now_in then InService r else Queued r) = r) by (by destruct now_in).
  assert (Hin : is_inside (if now_in then InService r else Queued r) = true) by (by destruct now_in).
  assert (Hd : is_deciding (if now_in then InService r else Queued r) = false) by (by destruct now_in).
  apply books_split. split; [|split].
  - assert (E : adm (set_backend md r b (on_metrics accept s)) = adm s) by (unfold set_backend; by destruct (own_pool md r)).
    rewrite E. by apply Ha.
  - apply (pools_move md r q _ l); [done|done| |exact Hb]. exact (proj1 (pools_skip md q l s Hi Hf) Hp).
  - assert (E : m (set_backend md r b (on_metrics accept s)) = accept (m s))
      by (unfold set_backend; by destruct (own_pool md r)).
    rewrite E. by apply Hm.
Qed.

Lemma offer_metrics (r : request) (l : list place) (s : server) :
  metric_books l (m s) ->
  (forall p, request_of p = r -> is_inside p = true -> metric_books (p :: l) (accept (offer r (m s)))) /\
  (forall c, metric_books (Rejected r :: l) (reject c (offer r (m s)))) /\
  metric_books (Deciding r :: l) (offer r (m s)).
Proof.
  intros H. split; [|split].
  - intros [] Hp Hi; cbn in Hp, Hi; try done; subst; open_books; constructor;
      rewrite ?countb_cons; cbn -[Z.add Z.of_nat]; unfold bit; lia.
  - intros c. open_books; constructor; rewrite ?countb_cons; cbn -[Z.add Z.of_nat]; unfold bit; rewrite ?length_app; cbn -[Z.add Z.of_nat]; lia.
  - open_books; constructor; rewrite ?countb_cons; cbn -[Z.add Z.of_nat]; unfold bit; lia.
Qed.

Lemma shed_handle_books (md : mode) (r : request) (now : float) (l : list place) (s : server) :
  books md l s -> let '(p, s') := handle md r now s in books md (p :: l) s'.
Proof.
  intros (Ha & Hp & Hm)%books_split. unfold handle. destruct (offer_metrics r l s Hm) as (M1 & M2 & M3).
  apply (try_admit_books md r) in Ha. change (adm (on_metrics (offer r) s)) with (adm s).
  destruct (try_admit md r (adm s)) as [[| |] a].
  - apply (to_backend_books md r (Deciding r)); try done.
  - apply books_split. split; [exact Ha|]. split; [exact (proj1 (pools_skip md (Rejected r) l s eq_refl eq_refl) Hp)|apply M2].
  - apply books_split. split; [exact Ha|]. split; [exact (proj1 (pools_skip md (Deciding r) l s eq_refl eq_refl) Hp)|exact M3].
Qed.

(** Who leaves the decision. *)
Lemma deciding_adm (md : mode) (r : request) (l : list place) (a : admission) :
  adm_books md (Deciding r :: l) a ->
  (0 < Semaphore.value (sem a) -> forall p, request_of p = r -> is_inside p = true -> is_deciding p = false ->
    adm_books md (p :: l) (mkAdmission (Semaphore.granted (sem a)) (inflight a + 1) (limiter a))) /\
  (forall p, request_of p = r -> is_inside p = false -> is_deciding p = false ->
    adm_books md (p :: l) (mkAdmission (Semaphore.leave (sem a)) (inflight a) (limiter a))).
Proof.
  intros H. assert (Hu : uses_sem md r = true) by (open_books; auto).
  split.
  - intros Hv p Hp Hi Hd. open_books. rewrite ?Hu in *. cbn [bit andb negb] in *.
    constructor; rewrite ?countb_cons, ?List.Forall_cons_iff;
      cbn [sem inflight limiter Semaphore.value Semaphore.granted Semaphore.waiters];
      unfold via_sem; rewrite ?Hp, ?Hi, ?Hd, ?Hu; cbn [bit andb negb]; try lia; try done.
    intros ->. discriminate Hu.
  - intros p Hp Hi Hd. open_books. rewrite ?Hu in *. cbn [bit andb negb] in *.
    constructor; rewrite ?countb_cons, ?List.Forall_cons_iff;
      cbn [sem inflight limiter Semaphore.value Semaphore.leave Semaphore.waiters];
      unfold via_sem; rewrite ?Hp, ?Hi, ?Hd, ?Hu; cbn [bit andb negb]; try lia; try mode_lia; done.
Qed.

(** Who leaves the server. *)
Lemma release_adm (md : mode) (p p' : place) (l : list place) (a : admission) :
  is_inside p = true -> is_deciding p = false -> request_of p' = request_of p -> is_inside p' = false -> is_deciding p' = false ->
  adm_books md (p :: l) a -> adm_books md (p' :: l) (release md (request_of p) a).
Proof.
  intros Hi Hd Hr Hi' Hd' H. unfold release. open_books. rewrite ?Hi, ?Hd in *.
  destruct (uses_sem md (request_of p)) eqn:Hu; rewrite ?Hu in *; cbn [bit andb negb] in *;
    constructor; rewrite ?countb_cons, ?List.Forall_cons_iff;
    cbn [sem inflight limiter Semaphore.value Semaphore.release Semaphore.waiters];
    unfold via_sem; rewrite ?Hr, ?Hi', ?Hd', ?Hu; cbn [bit andb negb]; try lia; try mode_lia; done.
Qed.

(** Within the server. *)
Lemma inside_adm (md : mode) (p p' : place) (l : list place) (a : admission) :
  is_inside p = true -> is_deciding p = false -> request_of p' = request_of p -> is_inside p' = true -> is_deciding p' = false ->
  adm_books md (p :: l) a -> adm_books md (p' :: l) a.
Proof.
  intros Hi Hd Hr Hi' Hd' H. open_books. rewrite ?Hi, ?Hd in *.
  constructor; rewrite ?countb_cons, ?List.Forall_cons_iff; unfold via_sem; rewrite ?Hr, ?Hi', ?Hd';
    cbn [bit andb negb] in *; try lia; try mode_lia; done.
Qed.

Lemma adm_set_backend (md : mode) (r : request) (b : Backend.t) (s : server) :
  adm (set_backend md r b s) = adm s /\ m (set_backend md r b s) = m s.
Proof. unfold set_backend. by destruct (own_pool md r). Qed.

Lemma observe_adm (md : mode) (l : list place) (a : admission) (x : float) :
  adm_books md l a ->
  adm_books md l (match admission_mode md with
    | adaptive => mkAdmission (sem a) (inflight a) (GradientLimit.observe x (limiter a))
    | _ => a end).
Proof. intros H. destruct (admission_mode md); try exact H. open_books. by constructor. Qed.

Lemma pools_set_adm (md : mode) (l : list place) (a : admission) (f : metrics -> metrics) (s : server) :
  pools md l (on_metrics f (set_adm a s)) <-> pools md l s.
Proof. done. Qed.

Lemma served_books (md : mode) (r : request) (now : float) (l : list place) (s : server) :
  books md (InService r :: l) s -> let '(p, s') := served md r now s in books md (p :: l) s'.
Proof.
  intros (Ha & Hp & Hm)%books_split. unfold served.
  pose proof (pools_backend md r _ s Hp) as Hb. apply pool_finish in Hb.
  pose proof (pools_move md r (InService r) (Served r) l s _ eq_refl eq_refl Hp Hb) as Hp'.
  destruct (adm_set_backend md r (Backend.finish (backend md r s)) s) as [Ea Em].
  apply books_split. rewrite pools_set_adm. cbn [adm m on_metrics set_adm]. rewrite Ea, Em.
  split; [|split; [exact Hp'|]].
  - generalize (now - t0 r)%F. intros x. apply observe_adm.
    by apply (release_adm md (InService r) (Served r)).
  - generalize (now - t0 r)%F. intros x. open_books. constructor; rewrite ?countb_cons; unfold serve;
      cbn -[Z.add Z.of_nat fleb SLO_S]; rewrite ?length_app; cbn -[Z.add Z.of_nat fleb SLO_S]; unfold bit in *;
      destruct (fleb x SLO_S), (is_tier0 r) eqn:Et; rewrite ?Et in *; cbn [andb]; lia.
Qed.

Lemma shed_resume_books (md : mode) (p : place) (e : wakeup) (l : list place) (s : server) :
  books md (p :: l) s -> let '(p', s') := resume md p e s in books md (p' :: l) s'.
Proof.
  intros H. pose proof H as (Ha & Hp & Hm)%books_split.
  destruct p as [r|r|r|r|r|r|r], e as [|now|now|now]; cbn [resume]; try exact H; try by apply served_books.
  - destruct (Z.ltb_spec 0 (Semaphore.value (sem (adm s)))) as [Hv|Hv]; [|exact H].
    destruct (deciding_adm md r l (adm s) Ha) as [Hin _].
    apply (to_backend_books md r (Deciding r)); [done|done|done|by apply Hin| |].
    + exact (proj2 (pools_skip md (Deciding r) l s eq_refl eq_refl) Hp).
    + intros [] Hr Hi; cbn in Hr, Hi; try done; subst; clear - Hm; cbn [m set_adm]; open_books; constructor;
        rewrite ?countb_cons; cbn -[Z.add Z.of_nat]; unfold bit in *; lia.
  - destruct (deciding_adm md r l (adm s) Ha) as [_ Hout]. apply books_split. rewrite pools_set_adm.
    split; [by apply Hout|]. split.
    + exact (proj1 (pools_skip md (Rejected r) l s eq_refl eq_refl) (proj2 (pools_skip md (Deciding r) l s eq_refl eq_refl) Hp)).
    + generalize (now - admit_t0 r)%F. intros x. clear - Hm. cbn [m on_metrics set_adm]. open_books. constructor;
        rewrite ?countb_cons; cbn -[Z.add Z.of_nat]; unfold bit in *; rewrite ?length_app; cbn -[Z.add Z.of_nat]; lia.
  - destruct (deciding_adm md r l (adm s) Ha) as [_ Hout]. apply books_split.
    split; [by apply Hout|]. split.
    + exact (proj1 (pools_skip md (Dropped r) l s eq_refl eq_refl) (proj2 (pools_skip md (Deciding r) l s eq_refl eq_refl) Hp)).
    + clear - Hm. cbn [m set_adm]. open_books. constructor; rewrite ?countb_cons; cbn -[Z.add Z.of_nat]; unfold bit in *; lia.
  - destruct (Z.ltb_spec 0 (Semaphore.value (Backend.sem (backend md r s)))) as [Hv|Hv]; [|exact H].
    pose proof (pools_backend md r _ s Hp) as Hb. apply (pool_granted _ _ _ _ _ Hv) in Hb.
    pose proof (pools_move md r (Queued r) (InService r) l s _ eq_refl eq_refl Hp Hb) as Hp'.
    destruct (adm_set_backend md r (Backend.granted (backend md r s)) s) as [Ea Em].
    apply books_split. rewrite Ea, Em. split; [by apply (inside_adm md (Queued r))|]. split; [exact Hp'|].
    clear - Hm. open_books. constructor; rewrite ?countb_cons; cbn -[Z.add Z.of_nat]; unfold bit in *; lia.
  - pose proof (pools_backend md r _ s Hp) as Hb. apply pool_cancelled in Hb.
    pose proof (pools_move md r (Queued r) (Forgotten r) l s _ eq_refl eq_refl Hp Hb) as Hp'.
    destruct (adm_set_backend md r (Backend.cancelled (backend md r s)) s) as [Ea Em].
    apply books_split. cbn [adm set_adm m]. rewrite Ea, Em. split; [by apply (release_adm md (Queued r) (Forgotten r))|].
    split; [exact Hp'|].
    clear - Hm. open_books. constructor; rewrite ?countb_cons; cbn -[Z.add Z.of_nat]; unfold bit in *; lia.
Qed.

Lemma shed_step_books (md : mode) (e : event) (w : world) :
  books md (tasks w) (srv w) -> books md (tasks (step md e w)) (srv (step md e w)).
Proof.
  intros H. destruct e as [r now|i e|now]; cbn [step].
  - apply (shed_handle_books md r now) in H. destruct (handle md r now (srv w)) as [p s]. cbn [tasks srv].
    by rewrite <- Permutation_cons_append.
  - destruct (tasks w !! i) as [p|] eqn:Ei; [|exact H].
    assert (Hp : books md (p :: delete i (tasks w)) (srv w)) by (by rewrite <- delete_Permutation).
    apply (shed_resume_books md p e) in Hp. destruct (resume md p e (srv w)) as [p' s]. cbn [tasks srv].
    by rewrite (insert_delete_perm _ _ _ _ Ei).
  - destruct (admission_mode md); try exact H. cbn [tasks srv]. destruct H as [Ha Hc Hr Hm].
    constructor; [|exact Hc|exact Hr|exact Hm]. cbn [adm set_adm]. destruct Ha. constructor; try done.
    cbn [limiter]. by apply update_range.
Qed.

Lemma shed_run_books (md : mode) (es : list event) (w : world) :
  books md (tasks w) (srv w) -> books md (tasks (run md es w)) (srv (run md es w)).
Proof.
  revert w. unfold run. induction es as [|e es IH]; intros w H; [done|]. cbn [fold_left]. by apply IH, shed_step_books.
Qed.

Lemma shed_start_books (md : mode) : books md (tasks (start md)) (srv (start md)).
Proof.
  constructor; [constructor|constructor; destruct md; vm_compute; done|constructor; vm_compute; done|
    constructor; vm_compute; repeat split; done]; cbn [adm srv start tasks sem limiter inflight]; try done.
  exact shed_init_range.
Qed.

Lemma reached_books (md : mode) (es : list event) :
  books md (tasks (run md es (start md))) (srv (run md es (start md))).
Proof. apply shed_run_books, shed_start_books. Qed.

(** [n] requests of a tier arrive. *)
Definition arrivals (n : nat) (r : request) : list event := replicate n (Arrives r (Fin 0)).

Lemma countb_places (l : list place) :
  countb is_deciding l + countb is_inside l + countb is_rejected l + countb is_served l + countb is_dropped l +
  countb is_forgotten l = Z.of_nat (length l).
Proof.
  induction l as [|p l IH]; [done|]. rewrite !countb_cons. cbn [length]. destruct p; cbn -[Z.add Z.of_nat]; lia.
Qed.

Lemma countb_via (md : mode) (l : list place) :
  countb (fun p => is_inside p && via_sem md p) l + countb (fun p => is_inside p && negb (via_sem md p)) l =
  countb is_inside l.
Proof.
  induction l as [|p l IH]; [done|]. rewrite !countb_cons. unfold bit in *. destruct (is_inside p), (via_sem md p); cbn [andb negb]; lia.
Qed.

Lemma countb_all (f g : place -> bool) (l : list place) : (forall p, f p = g p) -> countb f l = countb g l.
Proof. intros H. induction l as [|p l IH]; [done|]. by rewrite !countb_cons, IH, H. Qed.

Lemma none_admits (n : nat) (r : request) (w : world) :
  inflight (adm (srv (run none (arrivals n r) w))) = inflight (adm (srv w)) + Z.of_nat n.
Proof.
  revert w. unfold run, arrivals. induction n as [|n IH]; intros w; [cbn; lia|]. cbn [replicate fold_left].
  rewrite IH. cbn [step].
  assert (E : inflight (adm (srv (step none (Arrives r (Fin 0)) w))) = inflight (adm (srv w)) + 1).
  { cbn [step]. unfold handle, to_backend. cbn [try_admit admission_mode].
    destruct (Backend.call _) as [[|] b]; cbn [srv]; rewrite (proj1 (adm_set_backend _ _ _ _)); done. }
  cbn [step] in E. rewrite E. lia.
Qed.

Lemma percentile_rank (values : list float) (p : Z) :
  values <> [] -> 0 <= p <= 100 -> Z.of_nat (length values) <= 100000 ->
  exists i x, sorted_floats values !! i = Some x /\ percentile values (lit p 100) = x /\
    100 * Z.of_nat i <= p * Z.of_nat (length values) /\
    (100 - p) * Z.of_nat (length values) >= 100 * (Z.of_nat (length values) - Z.of_nat i - 1).
Proof.
  intros Hv Hp Hn. destruct (rank_ceil p (length values) Hp Hn) as (c & Ec & Hc & Hr).
  assert (Hl : (0 < length values)%nat) by (destruct values; simpl; [done|lia]).
  set (i := Z.to_nat (Z.min (Z.of_nat (length values) - 1) (Z.max 0 (c - 1)))).
  destruct (lookup_lt_is_Some_2 (sorted_floats values) i) as [x Hx]; [rewrite sorted_floats_length; lia|].
  exists i, x. split; [exact Hx|]. split; [|subst i; nia].
  unfold percentile. destruct values as [|v vs]; [done|]. rewrite Ec. fold i. by rewrite Hx.
Qed.

(** ** Properties *)

(** C7: The server keeps its books under every policy, load and schedule: every request
    offered is accepted, rejected, waiting for the decision or cancelled there; an
    accepted one is inside, served, or cancelled in the queue; [inflight] and each pool's
    [in_use] count those inside and in service, and never exceed the pool; and goodput
    counts only requests served.  The gauge [queued] keeps counting a request that was
    cancelled in the queue. *)
Theorem shedder_books (md : mode) (es : list event) :
  let w := run md es (start md) in
  let l := tasks w in
  let k := m (srv w) in
  let inside own f := countb (of_pool md own f) l in
  offered k = Z.of_nat (length l) /\
  offered k = accepted k + rejected k + countb is_deciding l + countb is_dropped l /\
  accepted k = countb is_inside l + Z.of_nat (length (latencies k)) + countb is_forgotten l /\
  inflight (adm (srv w)) = countb is_inside l /\
  0 <= tier0_goodput k <= goodput k /\ goodput k <= Z.of_nat (length (latencies k)) /\
  (let c := checkout_backend (srv w) in
   Backend.in_use c = inside false in_service /\ 0 <= Backend.in_use c <= checkout_workers md /\
   Backend.queued c = inside false is_queued + inside false is_forgotten) /\
  (let c := report_backend (srv w) in
   Backend.in_use c = inside true in_service /\ 0 <= Backend.in_use c <= BULKHEAD_REPORT_WORKERS /\
   Backend.queued c = inside true is_queued + inside true is_forgotten).
Proof.
  cbn zeta. destruct (reached_books md es) as [[A1 _ _ _ _ _ _ _] [C1 C2 C3 _ C5] [R1 R2 R3 _ R5] [M1 M2 M3 M4 M5 M6 _]].
  pose proof (countb_places (tasks (run md es (start md)))).
  pose proof (countb_nonneg (of_pool md false in_service) (tasks (run md es (start md)))).
  pose proof (countb_nonneg (of_pool md true in_service) (tasks (run md es (start md)))).
  repeat split; lia.
Qed.

(** What bounds the requests in flight under each policy: 12 with the static limit; 64
    with the adaptive one, whose limit stays between 2 and 64 whatever the latencies;
    with priorities 12 of tier 0 and 10 of the others, since these take no permit: 22 in
    flight are reached; and nothing without admission control. *)
Theorem admission_limits :
  (forall md es,
    let w := run md es (start md) in
    let inflight := inflight (adm (srv w)) in
    match md with
    | static => inflight <= SHED_LIMIT
    | priority =>
        countb (fun p => is_inside p && via_sem md p) (tasks w) <= SHED_LIMIT /\
        countb (fun p => is_inside p && negb (via_sem md p)) (tasks w) <= TIER3_LIMIT /\ inflight <= 22
    | adaptive => inflight <= 64 /\ in_range (GradientLimit.limit (limiter (adm (srv w))))
    | _ => True
    end) /\
  (exists es, inflight (adm (srv (run priority es (start priority)))) = 22) /\
  (forall n, exists es, inflight (adm (srv (run none es (start none)))) = Z.of_nat n).
Proof.
  split; [|split].
  - intros md es w. destruct (reached_books md es) as [[A1 A2 A3 _ _ A6 A7 A8] _ _ _]. fold w in A1, A2, A3, A6, A7, A8.
    pose proof (countb_via md (tasks w)) as Hv. cbn zeta. unfold SHED_LIMIT, TIER3_LIMIT in *.
    destruct md; try done.
    + rewrite A1. rewrite (countb_all _ (fun p => is_inside p && via_sem static p)) by (intros p; by rewrite andb_true_r). lia.
    + specialize (A6 eq_refl). lia.
    + exact (conj (A8 eq_refl) A7).
  - exists (arrivals 10 (mkRequest 3 false (Fin 0) (Fin 0)) ++ arrivals 12 (mkRequest 0 false (Fin 0) (Fin 0))). vm_compute. reflexivity.
  - intros n. exists (arrivals n (mkRequest 0 false (Fin 0) (Fin 0))). rewrite none_admits. done.
Qed.

(** Bulkheads: with the pool split, reports never hold more than two connections and
    checkouts never more than six, and an arriving checkout queues only behind another
    checkout or when six checkouts are in service.  With one shared pool, reports alone
    can hold all eight connections and keep a checkout waiting. *)
Theorem bulkhead_isolates_checkout :
  (forall es r now,
    let w := run bulkhead_split es (start bulkhead_split) in
    let inside own f := countb (of_pool bulkhead_split own f) (tasks w) in
    inside true in_service <= BULKHEAD_REPORT_WORKERS /\
    inside false in_service <= BULKHEAD_CHECKOUT_WORKERS /\
    (is_report r = false -> (handle bulkhead_split r now (srv w)).1 = Queued r ->
     0 < inside false is_queued \/ inside false in_service = BULKHEAD_CHECKOUT_WORKERS)) /\
  (exists es, let w := run bulkhead_shared es (start bulkhead_shared) in
    countb (fun p => in_service p && is_report (request_of p)) (tasks w) = WORKERS /\
    countb (fun p => is_queued p && negb (is_report (request_of p))) (tasks w) = 1).
Proof.
  split.
  - intros es r now. cbn zeta.
    destruct (reached_books bulkhead_split es) as [_ [C1 C2 C3 C4 _] [R1 R2 R3 _ _] _].
    set (w := run bulkhead_split es (start bulkhead_split)) in *. cbn [checkout_workers] in C3.
    split; [lia|]. split; [lia|]. intros Hr Hq. unfold handle, to_backend in Hq.
    cbn [try_admit admission_mode] in Hq. unfold backend, own_pool in Hq. rewrite Hr in Hq.
    change (checkout_backend (on_metrics accept _)) with (checkout_backend (srv w)) in Hq.
    unfold Backend.call, Semaphore.locked in Hq.
    destruct (Z.eqb_spec (Semaphore.value (Backend.sem (checkout_backend (srv w)))) 0) as [E|E]; [right; lia|].
    destruct (Z.ltb_spec 0 (Semaphore.waiters (Backend.sem (checkout_backend (srv w))))) as [W|W]; [left; lia|].
    discriminate Hq.
  - exists (arrivals 8 (mkRequest 3 true (Fin 0) (Fin 0)) ++ arrivals 1 (mkRequest 0 false (Fin 0) (Fin 0))). vm_compute. done.
Qed.

(** [percentile(values, p / 100)] is the nearest-rank percentile: one of the values, with
    at most [p] percent of them below and at most [100 - p] percent above. *)
Theorem percentile_splits (values : list float) (p : Z) :
  values <> [] -> Forall (fun y => is_nan y = false) values -> 0 <= p <= 100 -> Z.of_nat (length values) <= 100000 ->
  let x := percentile values (lit p 100) in
  x ∈ values /\
  100 * Z.of_nat (length (List.filter (fun y => fltb y x) values)) <= p * Z.of_nat (length values) /\
  100 * Z.of_nat (length (List.filter (fun y => fltb x y) values)) <= (100 - p) * Z.of_nat (length values).
Proof.
  intros Hv Hn Hp Hl. destruct (percentile_rank values p Hv Hp Hl) as (i & x & Hx & -> & Hb & Ha).
  destruct (sorted_splits values i x Hn Hx) as (H1 & H2 & H3). cbn zeta. split; [exact H1|]. split; lia.
Qed.

Lemma percentile_splits_witness :
  percentile (of_Z <$> [30; 10; 20; 40]) (lit 50 100) = of_Z 20 /\ of_Z 20 ∈ of_Z <$> [30; 10; 20; 40].
Proof.
  assert (E : percentile (of_Z <$> [30; 10; 20; 40]) (lit 50 100) = of_Z 20) by (vm_compute; reflexivity).
  split; [exact E|]. rewrite <- E at 1. apply (percentile_splits (of_Z <$> [30; 10; 20; 40]) 50).
  - discriminate.
  - apply Forall_fmap, Forall_forall. intros z _. apply of_Z_not_nan.
  - lia.
  - rewrite length_fmap. simpl. lia.
Defined.
