(* ===== verification/Gateway.v ===== *)
(** * Edge lab: the gateway

    Models src/10-edge/lab/gateway/app.py: the handler [generate], the generator [stream]
    that serves one response, and the mirror to the shadow model.

    The generator is driven from outside: a definition covers what it does between two
    points at which it is suspended, an await or a yield, and a [signal] says how it goes
    on.  What the HTTP library answers or raises, when the client disconnects, and when a
    generator is closed are inputs. *)

From Stdlib Require Import ZArith Lia.
From stdpp Require Import base option list numbers.
From S2P Require Import Prelude.

Open Scope Z_scope.

(** ** Definitions *)

Inductive outcome : Type := ok | client_disconnect | upstream_error.

Definition outcome_eqb (a b : outcome) : bool :=
  match a, b with
  | ok, ok | client_disconnect, client_disconnect | upstream_error, upstream_error => true
  | _, _ => false
  end.

(** The Prometheus counters and the gauge; of a histogram, how many observations. *)
Record metrics : Type := mkMetrics {
  REQUESTS : outcome -> Z;
  TTFT : Z;
  TOTAL_LATENCY : Z;
  INFLIGHT : Z;
  CANCELLED : Z;
  PROMPT_TOKENS : Z;
}.

Record shadow_metrics : Type := mkShadow { s_ok : Z; s_http_error : Z; s_error : Z }.

Definition inc_request (o : outcome) (k : metrics) : metrics :=
  mkMetrics (fun o' => REQUESTS k o' + if outcome_eqb o' o then 1 else 0) (TTFT k) (TOTAL_LATENCY k)
    (INFLIGHT k) (CANCELLED k) (PROMPT_TOKENS k).
Definition observe_ttft (k : metrics) : metrics :=
  mkMetrics (REQUESTS k) (TTFT k + 1) (TOTAL_LATENCY k) (INFLIGHT k) (CANCELLED k) (PROMPT_TOKENS k).
Definition observe_latency (k : metrics) : metrics :=
  mkMetrics (REQUESTS k) (TTFT k) (TOTAL_LATENCY k + 1) (INFLIGHT k) (CANCELLED k) (PROMPT_TOKENS k).
Definition add_inflight (n : Z) (k : metrics) : metrics :=
  mkMetrics (REQUESTS k) (TTFT k) (TOTAL_LATENCY k) (INFLIGHT k + n) (CANCELLED k) (PROMPT_TOKENS k).
Definition inc_cancelled (k : metrics) : metrics :=
  mkMetrics (REQUESTS k) (TTFT k) (TOTAL_LATENCY k) (INFLIGHT k) (CANCELLED k + 1) (PROMPT_TOKENS k).
Definition add_tokens (n : Z) (k : metrics) : metrics :=
  mkMetrics (REQUESTS k) (TTFT k) (TOTAL_LATENCY k) (INFLIGHT k) (CANCELLED k) (PROMPT_TOKENS k + n).

Inductive exn : Type := CancelledError | HTTPError | GeneratorExit | OtherError.

(** How the body of the [async with] was left. *)
Inductive exit : Type := Returns | Raises (e : exn).

(** Where a generator is suspended: not started, in the [await] that opens the upstream
    response, at [yield b""], waiting for a chunk, for [is_disconnected], at
    [yield chunk], or in the [await] that closes the response. *)
Inductive place : Type :=
| Created
| Opening
| YieldedError
| Reading (seen : bool)
| Asking (seen : bool)
| Yielded (seen : bool)
| Closing (x : exit) (o : outcome)
| Finished (o : outcome)
| NeverRan.

(** The [finally] clause. *)
Definition finish (o : outcome) (k : metrics) : place * metrics :=
  (Finished o, observe_latency (inc_request o (add_inflight (-1) k))).

(** The [except] clauses, with the outcome so far. *)
Definition leave (x : exit) (o : outcome) (k : metrics) : place * metrics :=
  match x with
  | Raises CancelledError => finish client_disconnect (inc_cancelled k)
  | Raises HTTPError => finish upstream_error k
  | Raises _ | Returns => finish o k
  end.

(** What resumes a generator: an [await] that ends or raises, [anext()] or [aclose()]. *)
Inductive signal : Type :=
| Next
| Status (status_code : Z)
| Chunk
| EndOfStream
| Disconnected (b : bool)
| Closed
| Throws (e : exn).

(** [aclose()] of a generator that has not started runs none of it. *)
Definition resume (p : place) (s : signal) (k : metrics) : place * metrics :=
  match p, s with
  | Created, Next => (Opening, k)
  | Created, Throws GeneratorExit => (NeverRan, k)
  | Opening, Status st => if 400 <=? st then (YieldedError, k) else (Reading false, k)
  | Opening, Throws e => leave (Raises e) ok k
  | YieldedError, Next => (Closing Returns upstream_error, k)
  | YieldedError, Throws GeneratorExit => (Closing (Raises GeneratorExit) upstream_error, k)
  | Reading seen, Chunk => (Asking true, if seen then k else observe_ttft k)
  | Reading _, EndOfStream => (Closing Returns ok, k)
  | Reading _, Throws e => (Closing (Raises e) ok, k)
  | Asking seen, Disconnected b =>
      if b then (Closing Returns client_disconnect, inc_cancelled k) else (Yielded seen, k)
  | Asking _, Throws e => (Closing (Raises e) ok, k)
  | Yielded seen, Next => (Reading seen, k)
  | Yielded _, Throws GeneratorExit => (Closing (Raises GeneratorExit) ok, k)
  | Closing x o, Closed => leave x o k
  | Closing _ o, Throws e => leave (Raises e) o k
  | _, _ => (p, k)
  end.

Record world : Type := mkWorld {
  m : metrics;
  streams : list place;
  shadow : shadow_metrics;
  mirrors : Z;
}.

(** What a mirrored request comes to; the task is not awaited. *)
Inductive mirror_end : Type := Answered (status_code : Z) | Raised.

Definition _mirror_to_shadow (e : mirror_end) (s : shadow_metrics) : shadow_metrics :=
  match e with
  | Answered st =>
      if st <? 400 then mkShadow (s_ok s + 1) (s_http_error s) (s_error s)
      else mkShadow (s_ok s) (s_http_error s + 1) (s_error s)
  | Raised => mkShadow (s_ok s) (s_http_error s) (s_error s + 1)
  end.

(** [generate]: [tokens] is [None] when the body cannot be read, and the handler raises. *)
Definition generate (SHADOW_TARGET : bool) (tokens : option Z) (w : world) : world :=
  match tokens with
  | None => w
  | Some n =>
      mkWorld (add_inflight 1 (add_tokens n (m w))) (streams w ++ [Created]) (shadow w)
        (mirrors w + if SHADOW_TARGET then 1 else 0)
  end.

Inductive event : Type :=
| Request_ (tokens : option Z)
| Resumes (i : nat) (s : signal)
| Mirrored (e : mirror_end).

Definition step (SHADOW_TARGET : bool) (e : event) (w : world) : world :=
  match e with
  | Request_ tokens => generate SHADOW_TARGET tokens w
  | Resumes i s =>
      match streams w !! i with
      | None => w
      | Some p => let '(p', k) := resume p s (m w) in mkWorld k (<[i := p']> (streams w)) (shadow w) (mirrors w)
      end
  | Mirrored e =>
      if 0 <? mirrors w then mkWorld (m w) (streams w) (_mirror_to_shadow e (shadow w)) (mirrors w - 1) else w
  end.

Definition run (SHADOW_TARGET : bool) (es : list event) (w : world) : world :=
  fold_left (fun w e => step SHADOW_TARGET e w) es w.

Definition start : world := mkWorld (mkMetrics (fun _ => 0) 0 0 0 0 0) [] (mkShadow 0 0 0) 0.

(** ** Lemmas *)

Definition is_live (p : place) : bool := match p with Finished _ | NeverRan => false | _ => true end.
Definition never_ran (p : place) : bool := match p with NeverRan => true | _ => false end.
Definition finished (p : place) : bool := match p with Finished _ => true | _ => false end.
Definition finished_with (o : outcome) (p : place) : bool :=
  match p with Finished o' => outcome_eqb o' o | _ => false end.
(** A disconnect has been noticed, and nothing has happened since that hides it. *)
Definition noticed (p : place) : bool :=
  match p with Closing _ client_disconnect | Finished client_disconnect => true | _ => false end.
Definition past_first (p : place) : bool :=
  match p with Reading s | Asking s | Yielded s => s | Closing _ _ | Finished _ => true | _ => false end.

Record books (l : list place) (k : metrics) : Prop := {
  b_inflight : INFLIGHT k = countb is_live l + countb never_ran l;
  b_ok : REQUESTS k ok = countb (finished_with ok) l;
  b_disconnect : REQUESTS k client_disconnect = countb (finished_with client_disconnect) l;
  b_error : REQUESTS k upstream_error = countb (finished_with upstream_error) l;
  b_latency : TOTAL_LATENCY k = countb finished l;
  b_cancelled : countb noticed l <= CANCELLED k;
  b_ttft : TTFT k <= countb past_first l }.

#[export] Instance books_perm : Proper ((≡ₚ) ==> eq ==> iff) books.
Proof.
  assert (P : forall l k j, l ≡ₚ k -> books l j -> books k j)
    by (intros l k j H []; constructor; intros; by rewrite <- H).
  intros l k H j ? <-. split; apply P; by rewrite H.
Qed.

#[local] Arguments countb : simpl never.
#[local] Arguments bit : simpl nomatch.

#[local] Ltac books_lia :=
  repeat match goal with H : books _ _ |- _ => destruct H end;
  rewrite ?countb_cons in *; cbv beta iota; constructor; rewrite ?countb_cons; cbn in *; lia.

(** The end of a generator. *)
Lemma gw_finish_books (o : outcome) (p : place) (l : list place) (k : metrics) :
  is_live p = true -> (o = client_disconnect -> bit (noticed p) = 1) ->
  books (p :: l) k -> let '(p', k') := finish o k in books (p' :: l) k'.
Proof.
  intros Hl Ho H. assert (Hn : never_ran p = false /\ finished p = false /\ forall o, finished_with o p = false)
    by (by destruct p). destruct Hn as (Hn & Hf & Hw).
  assert (0 <= bit (past_first p) <= 1) by (unfold bit; destruct (past_first p); lia).
  assert (0 <= bit (noticed p)) by (unfold bit; destruct (noticed p); lia).
  destruct H; rewrite ?countb_cons in *; rewrite ?Hl, ?Hn, ?Hf, ?Hw in *;
    constructor; rewrite ?countb_cons; destruct o; cbn in *; try specialize (Ho eq_refl); lia.
Qed.

Lemma leave_books (x : exit) (o : outcome) (p : place) (l : list place) (k : metrics) :
  is_live p = true -> (o = client_disconnect -> bit (noticed p) = 1) ->
  books (p :: l) k -> let '(p', k') := leave x o k in books (p' :: l) k'.
Proof.
  intros Hl Ho H. unfold leave. destruct x as [|[| | |]]; try by apply (gw_finish_books o p).
  - assert (Hc : books (Closing Returns client_disconnect :: l) (inc_cancelled k)).
    { assert (0 <= bit (past_first p) <= 1) by (unfold bit; destruct (past_first p); lia).
      assert (0 <= bit (noticed p)) by (unfold bit; destruct (noticed p); lia).
      assert (Hn : never_ran p = false /\ finished p = false /\ forall o, finished_with o p = false)
        by (by destruct p). destruct Hn as (Hn & Hf & Hw).
      destruct H; rewrite ?countb_cons in *; rewrite ?Hl, ?Hn, ?Hf, ?Hw in *;
        constructor; rewrite ?countb_cons; cbn in *; lia. }
    by apply (gw_finish_books client_disconnect (Closing Returns client_disconnect)).
  - by apply (gw_finish_books upstream_error p).
Qed.

Lemma gw_resume_books (p : place) (s : signal) (l : list place) (k : metrics) :
  books (p :: l) k -> let '(p', k') := resume p s k in books (p' :: l) k'.
Proof.
  intros H. destruct p as [| | |seen|seen|seen|x o|o|], s as [|st| | |b| |e]; cbn [resume]; try exact H;
    [books_lia|destruct e; try exact H; books_lia|destruct (400 <=? st); books_lia| | | | | | | | | | | |].
  - by apply (leave_books (Raises e) ok Opening).
  - books_lia.
  - destruct e; try exact H. books_lia.
  - destruct seen; books_lia.
  - destruct seen; books_lia.
  - destruct seen; books_lia.
  - destruct b; destruct seen; books_lia.
  - destruct seen; books_lia.
  - destruct seen; books_lia.
  - destruct e; try exact H. destruct seen; books_lia.
  - apply (leave_books x o (Closing x o)); [done|by intros ->|exact H].
  - apply (leave_books (Raises e) o (Closing x o)); [done|by intros ->|exact H].
Qed.

Lemma gw_step_books (target : bool) (e : event) (w : world) :
  books (streams w) (m w) -> books (streams (step target e w)) (m (step target e w)).
Proof.
  intros H. destruct e as [[n|]|i s|e]; cbn [step generate]; try exact H.
  - cbn [streams m]. rewrite <- Permutation_cons_append. destruct H; constructor; rewrite ?countb_cons; cbn in *; lia.
  - destruct (streams w !! i) as [p|] eqn:Ei; [|exact H].
    assert (Hp : books (p :: delete i (streams w)) (m w)) by (by rewrite <- delete_Permutation).
    apply (gw_resume_books p s) in Hp. destruct (resume p s (m w)) as [p' k]. cbn [streams m].
    by rewrite (insert_delete_perm _ _ _ _ Ei).
  - by destruct (0 <? mirrors w).
Qed.

Lemma gw_run_books (target : bool) (es : list event) (w : world) :
  books (streams w) (m w) -> books (streams (run target es w)) (m (run target es w)).
Proof.
  revert w. unfold run. induction es as [|e es IH]; intros w H; [done|]. cbn [fold_left]. by apply IH, gw_step_books.
Qed.

(** What the primary path keeps. *)
Definition primary (w : world) : metrics * list place := (m w, streams w).

Lemma step_primary (t1 t2 : bool) (e : event) (w1 w2 : world) :
  primary w1 = primary w2 -> primary (step t1 e w1) = primary (step t2 e w2).
Proof.
  destruct w1 as [k1 l1 s1 n1], w2 as [k2 l2 s2 n2]. intros [= <- <-].
  destruct e as [[n|]|i s|e]; cbn [step generate streams m mirrors]; try done.
  - destruct (l1 !! i) as [p|]; [|done]. by destruct (resume p s k1).
  - by destruct (0 <? n1), (0 <? n2).
Qed.

Definition is_primary (e : event) : bool := match e with Mirrored _ => false | _ => true end.

Lemma countb_finished (l : list place) :
  countb (finished_with ok) l + countb (finished_with client_disconnect) l + countb (finished_with upstream_error) l =
  countb finished l.
Proof. induction l as [|p l IH]; [done|]. rewrite !countb_cons. destruct p as [| | | | | | |[]|]; cbn in *; lia. Qed.

(** ** Properties *)

(** C23: However requests, chunks, disconnects, errors and closings interleave, the gauge is
    the number of generators that are running or have never been run to their [finally]:
    a generator closed before its first [anext] keeps its unit for ever.  Every other
    one is counted exactly once, under one outcome; a first token at most once; and a
    [client_disconnect] never without a [CANCELLED], so that the two cannot diverge the
    way the metric is meant to show. *)
Theorem gateway_books (target : bool) (es : list event) :
  let w := run target es start in
  let k := m w in
  let l := streams w in
  INFLIGHT k = countb is_live l + countb never_ran l /\
  REQUESTS k ok + REQUESTS k client_disconnect + REQUESTS k upstream_error = countb finished l /\
  TOTAL_LATENCY k = countb finished l /\
  REQUESTS k client_disconnect <= CANCELLED k /\
  TTFT k <= Z.of_nat (length l).
Proof.
  cbn zeta. assert (H0 : books (streams start) (m start)) by (by constructor).
  destruct (gw_run_books target es start H0) as [HI Ho Hd He HL HC HT].
  pose proof (countb_finished (streams (run target es start))).
  pose proof (countb_length past_first (streams (run target es start))).
  assert (countb (finished_with client_disconnect) (streams (run target es start)) <=
    countb noticed (streams (run target es start))) by (apply countb_le; by intros [| | | | | | |[]|]).
  repeat split; lia.
Qed.

(** A shadow never affects the primary path: its metrics and its generators are those of
    the same run without a shadow target, whatever the mirrored requests come to and
    whenever they do. *)
Theorem shadow_never_affects_primary (es : list event) :
  primary (run true es start) = primary (run false (List.filter is_primary es) start).
Proof.
  assert (G : forall es w1 w2, primary w1 = primary w2 ->
    primary (run true es w1) = primary (run false (List.filter is_primary es) w2)).
  { clear es. induction es as [|e es IH]; intros w1 w2 H; [exact H|].
    assert (Hs : is_primary e = false -> primary (step true e w1) = primary w1)
      by (destruct e; try done; cbn [step]; by destruct (0 <? mirrors w1)).
    cbn [run fold_left List.filter]. fold (run true es (step true e w1)). destruct (is_primary e) eqn:E.
    - cbn [fold_left]. apply IH. by apply step_primary.
    - apply IH. by rewrite Hs. }
  by apply G.
Qed.

(** A client that leaves before the stream starts, and one that leaves at a yield. *)
Lemma gateway_leak_and_mislabel :
  INFLIGHT (m (run false [Request_ (Some 1); Resumes 0 (Throws GeneratorExit)] start)) = 1 /\
  REQUESTS (m (run false [Request_ (Some 1); Resumes 0 Next; Resumes 0 (Status 200); Resumes 0 Chunk;
    Resumes 0 (Disconnected false); Resumes 0 (Throws GeneratorExit); Resumes 0 Closed] start)) ok = 1.
Proof. by vm_compute. Qed.
