(* ===== verification/Queueing.v ===== *)
(** * Edge layer: the pool and Little's law

    Models [drive] of src/10-edge/03-littles-law-and-tail-compounding/python/pool_queueing.py:
    open-loop arrivals against a pool of [slots], with the integral of the number in the
    system that [track] keeps.

    A request is a coroutine; an [event] says who runs next, with the readings of the
    clock it makes, counted in ticks, so that sums of durations are exact.  When requests
    arrive, how long a service takes and who is woken next are inputs. *)

From Stdlib Require Import ZArith Lia.
From stdpp Require Import base option list numbers.
From S2P Require Import Prelude.

Open Scope Z_scope.

(** ** Definitions *)

Record sample : Type := mkSample { acquire : Z; service : Z; total : Z }.

(** The fields of [Run] that [drive] changes, with its closure's [in_system] and
    [last_change], and the semaphore. *)
Record state : Type := mkState {
  samples : list sample;
  issued : Z;
  completed : Z;
  completed_in_window : Z;
  area : Z;
  wall : Z;
  in_system : Z;
  last_change : Z;
  pool : Z;
  waiters : Z;
}.

(** Integrate the number in the system over time. *)
Definition track (delta now : Z) (s : state) : state :=
  mkState (samples s) (issued s) (completed s) (completed_in_window s)
    (area s + in_system s * (now - last_change s)) (wall s) (in_system s + delta) now (pool s) (waiters s).

Definition issue (s : state) : state :=
  mkState (samples s) (issued s + 1) (completed s) (completed_in_window s) (area s) (wall s) (in_system s)
    (last_change s) (pool s) (waiters s).
Definition set_pool (p n : Z) (s : state) : state :=
  mkState (samples s) (issued s) (completed s) (completed_in_window s) (area s) (wall s) (in_system s)
    (last_change s) p n.
Definition complete (x : sample) (s : state) : state :=
  mkState (samples s ++ [x]) (issued s) (completed s + 1) (completed_in_window s) (area s) (wall s) (in_system s)
    (last_change s) (pool s) (waiters s).
Definition close_window (w : Z) (s : state) : state :=
  mkState (samples s) (issued s) (completed s) (completed s) (area s) w (in_system s) (last_change s)
    (pool s) (waiters s).

(** A request, with the readings it has made; [Done] keeps those of its two [track]s. *)
Inductive place : Type :=
| Issued
| Waiting (t_in arrived : Z)
| Serving (t_in arrived acquired : Z)
| Done (t_in t_out : Z) (x : sample)
| Dropped (t_in : Z).

Inductive event : Type :=
| Issues
| Begins (i : nat) (t_in arrived acquired : Z)
| Granted (i : nat) (acquired : Z)
| Ends (i : nat) (done_ t_out : Z)
| Cancels (i : nat)
| Closes (now : Z)
| Tracks (now : Z).

Record world : Type := mkWorld { run : state; tasks : list place }.

(** [one_request] from one await to the next. *)
Definition begin_ (t_in arrived acquired : Z) (s : state) : place * state :=
  let s := track 1 t_in s in
  if (pool s =? 0) || (0 <? waiters s)
  then (Waiting t_in arrived, set_pool (pool s) (waiters s + 1) s)
  else (Serving t_in arrived acquired, set_pool (pool s - 1) (waiters s) s).

Definition end_ (t_in arrived acquired done_ t_out : Z) (s : state) : place * state :=
  let x := mkSample (acquired - arrived) (done_ - acquired) (done_ - arrived) in
  let s := set_pool (pool s + 1) (waiters s) s in
  (Done t_in t_out x, complete x (track (-1) t_out s)).

(** A cancelled request leaves without its [track(-1)]. *)
Definition cancel (p : place) (s : state) : place * state :=
  match p with
  | Waiting t_in _ => (Dropped t_in, set_pool (pool s) (waiters s - 1) s)
  | Serving t_in _ _ => (Dropped t_in, set_pool (pool s + 1) (waiters s) s)
  | _ => (p, s)
  end.

Definition resume (p : place) (e : event) (s : state) : place * state :=
  match p, e with
  | Issued, Begins _ t_in arrived acquired => begin_ t_in arrived acquired s
  | Waiting t_in arrived, Granted _ acquired =>
      if 0 <? pool s then (Serving t_in arrived acquired, set_pool (pool s - 1) (waiters s - 1) s) else (p, s)
  | Serving t_in arrived acquired, Ends _ d t_out => end_ t_in arrived acquired d t_out s
  | p, Cancels _ => cancel p s
  | p, _ => (p, s)
  end.

Definition target (e : event) : option nat :=
  match e with Begins i _ _ _ | Granted i _ | Ends i _ _ | Cancels i => Some i | _ => None end.

(** [t0]: the reading [start]. *)
Definition step (t0 : Z) (e : event) (w : world) : world :=
  match target e with
  | Some i =>
      match tasks w !! i with
      | None => w
      | Some p => let '(p', s) := resume p e (run w) in mkWorld s (<[i := p']> (tasks w))
      end
  | None =>
      match e with
      | Issues => mkWorld (issue (run w)) (tasks w ++ [Issued])
      | Closes now => mkWorld (close_window (now - t0) (run w)) (tasks w)
      | Tracks now => mkWorld (track 0 now (run w)) (tasks w)
      | _ => w
      end
  end.

Definition start (slots t0 : Z) : world := mkWorld (mkState [] 0 0 0 0 0 0 t0 slots 0) [].

Definition drive (slots t0 : Z) (es : list event) : world := fold_left (fun w e => step t0 e w) es (start slots t0).

(** ** Lemmas *)

(** The readings of an event, in order. *)
Definition readings (e : event) : list Z :=
  match e with
  | Begins _ a b c => [a; b; c]
  | Granted _ a => [a]
  | Ends _ a b => [a; b]
  | Closes a | Tracks a => [a]
  | Issues | Cancels _ => []
  end.

(** The clock never goes back: from [t] on, through [ts]. *)
Fixpoint ascends (t : Z) (ts : list Z) : Prop :=
  match ts with [] => True | u :: ts => t <= u /\ ascends u ts end.

Definition in_it (p : place) : bool := match p with Waiting _ _ | Serving _ _ _ | Dropped _ => true | _ => false end.
Definition serving (p : place) : bool := match p with Serving _ _ _ => true | _ => false end.
Definition waiting (p : place) : bool := match p with Waiting _ _ => true | _ => false end.
Definition is_done (p : place) : bool := match p with Done _ _ _ => true | _ => false end.

(** How long a request has been in the system at [now], and in service. *)
Definition sojourn (now : Z) (p : place) : Z :=
  match p with
  | Issued => 0
  | Waiting t _ | Serving t _ _ | Dropped t => now - t
  | Done t_in t_out _ => t_out - t_in
  end.
Definition served_for (now : Z) (p : place) : Z :=
  match p with Serving _ _ acquired => now - acquired | Done _ _ x => service x | _ => 0 end.

Definition done_service (p : place) : Z := match p with Done _ _ x => service x | _ => 0 end.

Lemma zsum_fmap_snoc {A} (f : A -> Z) (l : list A) (x : A) : zsum (f <$> l ++ [x]) = zsum (f <$> l) + f x.
Proof. rewrite fmap_app, zsum_app. simpl. lia. Qed.

#[local] Arguments zsum : simpl never.
#[local] Arguments countb : simpl never.

Lemma sojourn_later (now now' : Z) (l : list place) :
  zsum (sojourn now' <$> l) = zsum (sojourn now <$> l) + countb in_it l * (now' - now).
Proof.
  induction l as [|p l IH]; [unfold countb, zsum; simpl; lia|]. rewrite !zsum_fmap_cons, countb_cons, IH. destruct p; cbn [sojourn in_it bit]; lia.
Qed.

Lemma served_later (now now' : Z) (l : list place) :
  zsum (served_for now' <$> l) = zsum (served_for now <$> l) + countb serving l * (now' - now).
Proof.
  induction l as [|p l IH]; [unfold countb, zsum; simpl; lia|]. rewrite !zsum_fmap_cons, countb_cons, IH.
  destruct p; cbn [served_for serving bit]; lia.
Qed.

(** The books, at the reading [clock]. *)
Record books (slots : Z) (l : list place) (s : state) : Prop := {
  b_in_system : in_system s = countb in_it l;
  b_area : area s = zsum (sojourn (last_change s) <$> l);
  b_issued : issued s = Z.of_nat (length l);
  b_completed : completed s = countb is_done l;
  b_samples : Z.of_nat (length (samples s)) = completed s;
  b_service : zsum (service <$> samples s) = zsum (done_service <$> l);
  b_pool : pool s + countb serving l = slots;
  b_value : 0 <= pool s;
  b_waiters : waiters s = countb waiting l }.

Lemma books_track (slots delta now : Z) (l : list place) (s : state) :
  books slots l s -> area (track delta now s) = zsum (sojourn now <$> l).
Proof. intros []. cbn [area track]. rewrite (sojourn_later (last_change s) now). lia. Qed.

#[local] Ltac replaced Ei :=
  rewrite ?(zsum_insert _ _ _ _ _ Ei), ?(countb_insert _ _ _ _ _ Ei), ?length_insert; cbn in *; lia.

Lemma pool_resume_books (slots : Z) (l : list place) (i : nat) (p : place) (e : event) (s : state) :
  l !! i = Some p -> books slots l s ->
  let '(p', s') := resume p e s in books slots (<[i := p']> l) s'.
Proof.
  intros Ei H. assert (Hsame : books slots (<[i := p]> l) s) by (by rewrite list_insert_id).
  destruct p as [|t a|t a b|t u x|t], e as [|j t_in ar ac|j ac|j d u'|j|n|n]; cbn [resume cancel]; try exact Hsame.
  - unfold begin_. pose proof (books_track slots 1 t_in l s H) as Ht. destruct H. cbn [pool waiters track].
    destruct (Z.eqb_spec (pool s) 0) as [E|E]; cbn [orb]; [|destruct (0 <? waiters s)];
      constructor; cbn [in_system area issued completed samples pool waiters last_change track set_pool] in *;
      rewrite ?Ht; replaced Ei.
  - destruct (Z.ltb_spec 0 (pool s)); [|exact Hsame]. destruct H.
    constructor; cbn [in_system area issued completed samples pool waiters last_change set_pool] in *; replaced Ei.
  - destruct H. constructor; cbn [in_system area issued completed samples pool waiters last_change set_pool] in *; replaced Ei.
  - unfold end_. pose proof (books_track slots (-1) u' l s H) as Ht. destruct H.
    constructor; cbn [in_system area issued completed samples pool waiters last_change track set_pool complete] in *;
      rewrite ?zsum_fmap_snoc, ?length_app; rewrite ?Ht; replaced Ei.
  - destruct H. constructor; cbn [in_system area issued completed samples pool waiters last_change set_pool] in *; replaced Ei.
Qed.

Lemma pool_step_books (slots t0 : Z) (e : event) (w : world) :
  books slots (tasks w) (run w) -> books slots (tasks (step t0 e w)) (run (step t0 e w)).
Proof.
  intros H. unfold step. destruct (target e) as [i|] eqn:Et.
  - destruct (tasks w !! i) as [p|] eqn:Ei; [|exact H]. pose proof (pool_resume_books slots _ i p e _ Ei H) as Hr.
    by destruct (resume p e (run w)).
  - destruct e as [| | | | |n|n]; try discriminate Et; cbn [tasks run].
    + destruct H; constructor; cbn in *; rewrite ?countb_snoc, ?zsum_fmap_snoc, ?length_app; cbn; lia.
    + destruct H. by constructor.
    + pose proof (books_track slots 0 n _ _ H) as Ht. destruct H. constructor; cbn [track in_system last_change] in *; try done.
      lia.
Qed.

Lemma drive_books (slots t0 : Z) (es : list event) :
  0 <= slots -> books slots (tasks (drive slots t0 es)) (run (drive slots t0 es)).
Proof.
  intros Hs. assert (H0 : books slots (tasks (start slots t0)) (run (start slots t0)))
    by (constructor; cbn; unfold countb, zsum; simpl; lia).
  unfold drive. revert H0. generalize (start slots t0). induction es as [|e es IH]; intros w H0; [done|].
  cbn [fold_left]. by apply IH, pool_step_books.
Qed.

(** *** Busy time *)

(** Nobody has been served since a later reading than [t]. *)
Definition since (t : Z) (p : place) : Prop := match p with Serving _ _ acquired => acquired <= t | _ => True end.

(** At the reading [t], the pool has served at most its slots for the whole time. *)
Record within (slots t0 t : Z) (w : world) : Prop := {
  w_books : books slots (tasks w) (run w);
  w_since : Forall (since t) (tasks w);
  w_busy : zsum (served_for t <$> tasks w) <= slots * (t - t0) }.

Lemma within_later (slots t0 t t' : Z) (w : world) : t <= t' -> within slots t0 t w -> within slots t0 t' w.
Proof.
  intros Ht [H Hs Hb]. split; [exact H| |].
  - apply (list.Forall_impl (since t)); [exact Hs|]. intros []; cbn; lia.
  - rewrite (served_later t t').
    assert (countb serving (tasks w) * (t' - t) <= slots * (t' - t)).
    { apply Z.mul_le_mono_nonneg_r; [lia|]. destruct H. lia. }
    lia.
Qed.

(** The reading of the clock after an event. *)
Definition clock_after (t : Z) (e : event) : Z := default t (list.last (readings e)).

Lemma clock_after_le (t : Z) (e : event) : ascends t (readings e) -> t <= clock_after t e.
Proof. destruct e; cbn; lia. Qed.

Lemma resume_within (p : place) (e : event) (s : state) (t : Z) :
  ascends t (readings e) -> since t p ->
  served_for (clock_after t e) (resume p e s).1 <= served_for (clock_after t e) p /\
  since (clock_after t e) (resume p e s).1.
Proof.
  intros Ha Hs. destruct p as [|u a|u a b|u x z|u], e as [|j t_in ar ac|j ac|j d u'|j|n|n];
    cbn [readings ascends] in Ha; unfold clock_after; cbn [readings last default]; cbn [resume cancel since] in *;
    try (cbn; lia).
  - unfold begin_. destruct (_ || _); cbn; lia.
  - destruct (0 <? pool s); cbn; lia.
Qed.

Lemma step_within (slots t0 t : Z) (e : event) (w : world) :
  ascends t (readings e) -> within slots t0 t w -> within slots t0 (clock_after t e) (step t0 e w).
Proof.
  intros Ha H. pose proof (within_later _ _ _ _ _ (clock_after_le _ _ Ha) H) as [Hb Hs Hv].
  assert (Hstep : books slots (tasks (step t0 e w)) (run (step t0 e w))) by (apply pool_step_books; by destruct H).
  revert Hstep. unfold step. destruct (target e) as [i|] eqn:Et; intros Hstep.
  - destruct (tasks w !! i) as [p|] eqn:Ei; [|by split].
    destruct (resume_within p e (run w) t Ha) as [H1 H2].
    { destruct H as [_ Hs0 _]. rewrite Forall_lookup in Hs0. by apply (Hs0 i). }
    destruct (resume p e (run w)) as [p' s]. cbn [fst snd tasks run] in *. split; [exact Hstep| |].
    + by apply Forall_insert.
    + cbn [tasks]. rewrite (zsum_insert _ _ _ _ _ Ei). lia.
  - destruct e as [| | | | |n|n]; try discriminate Et; cbn [tasks run] in *; (split; [exact Hstep| |]); cbn [tasks]; try done.
    + apply Forall_app. split; [exact Hs|]. by repeat constructor.
    + rewrite zsum_fmap_snoc. cbn [served_for]. lia.
Qed.

Lemma done_service_le (t : Z) (l : list place) :
  Forall (since t) l -> zsum (done_service <$> l) <= zsum (served_for t <$> l).
Proof.
  induction 1 as [|p l Hp _ IH]; [unfold zsum; simpl; lia|]. rewrite !zsum_fmap_cons. destruct p; cbn in *; lia.
Qed.

Lemma service_total (W : Z) (l : list sample) :
  Forall (fun x => W <= service x) l -> Z.of_nat (length l) * W <= zsum (service <$> l).
Proof.
  induction 1 as [|x l Hx _ IH]; [unfold zsum; simpl; lia|]. rewrite zsum_fmap_cons. cbn [length]. lia.
Qed.

(** The readings of a whole run, in order. *)
Definition all_readings (es : list event) : list Z := concat (readings <$> es).

Lemma ascends_app (t : Z) (ts us : list Z) :
  ascends t (ts ++ us) <-> ascends t ts /\ ascends (default t (list.last ts)) us.
Proof.
  revert t. induction ts as [|u ts IH]; intros t; [simpl; tauto|]. cbn [app ascends]. rewrite IH.
  rewrite last_cons. destruct (list.last ts); simpl; tauto.
Qed.

Lemma run_within (slots t0 : Z) (es : list event) (t : Z) (w : world) :
  ascends t (all_readings es) -> within slots t0 t w ->
  exists t', t' = default t (list.last (all_readings es)) /\ within slots t0 t' (fold_left (fun w e => step t0 e w) es w).
Proof.
  revert t w. induction es as [|e es IH]; intros t w Ha H; [by exists t|].
  unfold all_readings in *. cbn [fmap list_fmap concat] in *. apply ascends_app in Ha as [Ha Hb].
  destruct (IH (clock_after t e) (step t0 e w)) as (t' & -> & Hw); [exact Hb|by apply step_within|].
  eexists. split; [reflexivity|]. cbn [fold_left]. rewrite last_app.
  unfold clock_after in *. destruct (list.last (concat _)); [exact Hw|]. by destruct (list.last (readings e)).
Qed.

(** ** Properties *)

(** C31: Little's law, as an identity: the area that [track] integrates is the sum of the times
    that the requests have spent in the system, those still in it counted up to the last
    [track]; so when all have left, [L] times the elapsed time is the number of requests
    times [W], whatever the arrivals, the services and the order of the queue.  A request
    that is cancelled never leaves the count. *)
Theorem littles_law (slots t0 : Z) (es : list event) :
  0 <= slots ->
  let s := run (drive slots t0 es) in
  let l := tasks (drive slots t0 es) in
  area s = zsum (sojourn (last_change s) <$> l) /\
  in_system s = countb in_it l /\ issued s = Z.of_nat (length l) /\
  completed s = countb is_done l /\ Z.of_nat (length (samples s)) = completed s.
Proof. intros Hs. cbn zeta. destruct (drive_books slots t0 es Hs). done. Qed.

(** Two requests on one slot: 5 ticks each, the second waits 3. *)
Definition two_requests : list event :=
  [Issues; Begins 0 0 0 0; Issues; Begins 1 2 2 2; Ends 0 5 5; Granted 1 5; Ends 1 10 10].

Lemma littles_law_witness :
  area (run (drive 1 0 two_requests)) = 13 /\
  13 = zsum (sojourn 10 <$> tasks (drive 1 0 two_requests)) /\ sojourn 10 <$> tasks (drive 1 0 two_requests) = [5; 8].
Proof.
  destruct (littles_law 1 0 two_requests ltac:(lia)) as (H & _).
  assert (E : area (run (drive 1 0 two_requests)) = 13) by (vm_compute; reflexivity).
  rewrite E in H. split; [exact E|]. split; [exact H|vm_compute; reflexivity].
Defined.

(** The wall: if no service is shorter than [W], a pool of [c] slots completes at most
    [c / W] requests per unit of time, whatever the load; no more than [c] are served at a
    time; and a request waits only while all slots are taken, or others wait. *)
Theorem pool_is_the_wall (slots t0 W : Z) (es : list event) :
  0 <= slots -> ascends t0 (all_readings es) ->
  let s := run (drive slots t0 es) in
  let l := tasks (drive slots t0 es) in
  let elapsed := default t0 (list.last (all_readings es)) - t0 in
  Forall (fun x => W <= service x) (samples s) ->
  completed s * W <= slots * elapsed /\
  0 <= countb serving l <= slots /\
  (forall t_in arrived acquired, (begin_ t_in arrived acquired s).1 = Waiting t_in arrived ->
    countb serving l = slots \/ 0 < countb waiting l).
Proof.
  intros Hs Ha. cbn zeta. intros HW.
  destruct (run_within slots t0 es t0 (start slots t0) Ha) as (t' & -> & Hw).
  { split; [constructor; cbn; unfold countb, zsum; simpl; lia|constructor|cbn; unfold zsum; simpl; lia]. }
  fold (drive slots t0 es) in Hw. destruct Hw as [Hb Hsi Hv]. destruct Hb as [_ _ _ _ Hn Hsv Hp Hv0 Hwt].
  pose proof (done_service_le _ _ Hsi) as Hle. pose proof (service_total W _ HW) as Htot.
  pose proof (countb_nonneg serving (tasks (drive slots t0 es))). split; [lia|]. split; [lia|].
  intros t_in arrived acquired. unfold begin_. cbn [pool waiters track].
  destruct (Z.eqb_spec (pool (run (drive slots t0 es))) 0); [lia|]. cbn [orb].
  destruct (Z.ltb_spec 0 (waiters (run (drive slots t0 es)))); cbn; [lia|discriminate].
Qed.

Lemma pool_is_the_wall_witness :
  completed (run (drive 1 0 two_requests)) * 5 <= 1 * (10 - 0) /\ completed (run (drive 1 0 two_requests)) = 2.
Proof.
  split; [|vm_compute; reflexivity].
  refine (proj1 (pool_is_the_wall 1 0 5 two_requests ltac:(lia) _ _)).
  - cbn. lia.
  - vm_compute. repeat constructor; discriminate.
Defined.
