(* ===== verification/Cardinality.v ===== *)
(** * Observability layer: a counter with a cardinality limit

    Models [Counter] of src/06-observability/04-cardinality/python/cardinality_overflow.py:
    what is recorded under which attribute set, which sets survive, and what a query that
    names a label can still see. *)

From Stdlib Require Import ZArith Lia String.
From stdpp Require Import sorting base option list gmap sets strings numbers.
From S2P Require Import Prelude.

Open Scope Z_scope.

(** ** Definitions *)

(** The value of an attribute; a [bool] is an [int]. *)
Inductive value : Type := VStr (s : string) | VInt (z : Z).

#[export] Instance value_eq_dec : EqDecision value.
Proof. solve_decision. Defined.

#[export] Program Instance value_countable : Countable value :=
  inj_countable' (fun v => match v with VStr s => inl s | VInt z => inr z end)
    (fun x => match x with inl s => VStr s | inr z => VInt z end) _.
Next Obligation. by intros []. Qed.

(** The keyword arguments of a call, whose names are distinct. *)
Definition attributes : Type := list (string * value).
Definition key : Type := list (string * value).

Definition name_le (a b : string * value) : Prop := String.leb a.1 b.1 = true.

#[export] Instance name_le_dec : RelDecision name_le.
Proof. intros a b. unfold name_le. apply _. Defined.

(** [tuple(sorted(attributes.items()))]. *)
Definition key_of (a : attributes) : key := merge_sort name_le a.

Definition DEFAULT_CARDINALITY_LIMIT : Z := 2000.

Module Counter.

Definition OVERFLOW : key := [("otel.metric.overflow", VInt 1)].

Record t : Type := mk {
  limit : option Z;
  series : gmap key Z;
  overflowed_measurements : Z;
  rejected_attribute_sets : gset key;
}.

Definition init (limit : option Z) : t := mk limit ∅ 0 ∅.

(** [not self.limit]. *)
Definition unlimited (c : t) : bool := match limit c with None => true | Some l => l =? 0 end.

(** One slot is kept for the overflow series itself. *)
Definition room (c : t) : bool :=
  unlimited c || match limit c with None => true | Some l => Z.of_nat (size (series c)) <? l - 1 end.

Definition add (v : Z) (a : attributes) (c : t) : t :=
  let k := key_of a in
  match series c !! k with
  | Some x => mk (limit c) (<[k := x + v]> (series c)) (overflowed_measurements c) (rejected_attribute_sets c)
  | None =>
      if room c
      then mk (limit c) (<[k := v]> (series c)) (overflowed_measurements c) (rejected_attribute_sets c)
      else mk (limit c) (<[OVERFLOW := default 0 (series c !! OVERFLOW) + v]> (series c))
             (overflowed_measurements c + v) ({[k]} ∪ rejected_attribute_sets c)
  end.

(** [sum(self.series.values())]. *)
Definition total (c : t) : Z := zsum ((map_to_list (series c)).*2).

(** [dict(key).get(label)]. *)
Definition label_of (label : string) (k : key) : option value := (list_to_map k : gmap string value) !! label.

Definition sum_by (label : string) (c : t) : gmap value Z :=
  foldr (fun p out =>
           match label_of label p.1 with
           | None => out
           | Some a => <[a := default 0 (out !! a) + p.2]> out
           end) ∅ (map_to_list (series c)).

Definition active_series (c : t) : Z := Z.of_nat (size (series c)).

(** The calls of [add], in order. *)
Definition run (limit : option Z) (ms : list (Z * attributes)) : t :=
  fold_left (fun c m => add m.1 m.2 c) ms (init limit).

End Counter.

Import Counter.

(** ** Reference *)

(** The attribute sets of a run, each once, by first appearance. *)
Definition see (acc : list key) (k : key) : list key := if decide (k ∈ acc) then acc else acc ++ [k].
Definition first_seen (ms : list (Z * attributes)) : list key := fold_left (fun acc m => see acc (key_of m.2)) ms [].

(** How many sets have a series of their own, at most. *)
Definition slots (limit : option Z) : option nat :=
  match limit with None => None | Some l => if l =? 0 then None else Some (Z.to_nat (l - 1)) end.
Definition cut (n : option nat) (l : list key) : list key := match n with None => l | Some n => take n l end.
Definition survivors (limit : option Z) (ms : list (Z * attributes)) : list key := cut (slots limit) (first_seen ms).

Definition recorded (p : key -> bool) (ms : list (Z * attributes)) : Z :=
  zsum ((fun m => if p (key_of m.2) then m.1 else 0) <$> ms).
Definition is_key (k k' : key) : bool := bool_decide (k' = k).
Definition outside (l : list key) (k : key) : bool := bool_decide (k ∉ l).

Definition spilled (limit : option Z) (ms : list (Z * attributes)) : bool :=
  (length (survivors limit ms) <? length (first_seen ms))%nat.

Definition rows (l : list key) (ms : list (Z * attributes)) : list (key * Z) :=
  (fun k => (k, recorded (is_key k) ms)) <$> l.

(** The series that a run leaves: each survivor with its own sum, and the rest under
    [OVERFLOW]. *)
Definition spec (limit : option Z) (ms : list (Z * attributes)) : gmap key Z :=
  let l := survivors limit ms in
  let m : gmap key Z := list_to_map (rows l ms) in
  if spilled limit ms then <[OVERFLOW := recorded (outside l) ms]> m else m.

(** No caller uses the overflow set as its own. *)
Definition proper (ms : list (Z * attributes)) : Prop := Forall (fun m => key_of m.2 <> OVERFLOW) ms.

(** ** Lemmas *)

Lemma first_seen_snoc (ms : list (Z * attributes)) (m : Z * attributes) :
  first_seen (ms ++ [m]) = see (first_seen ms) (key_of m.2).
Proof. unfold first_seen. by rewrite fold_left_app. Qed.

Lemma first_seen_elem (ms : list (Z * attributes)) (k : key) : k ∈ first_seen ms <-> k ∈ (fun m => key_of m.2) <$> ms.
Proof.
  induction ms as [|m ms IH] using rev_ind; [done|]. rewrite first_seen_snoc, fmap_app. unfold see.
  case_decide; set_solver.
Qed.

Lemma first_seen_nodup (ms : list (Z * attributes)) : NoDup (first_seen ms).
Proof.
  induction ms as [|m ms IH] using rev_ind; [constructor|]. rewrite first_seen_snoc. unfold see.
  case_decide; [done|]. apply list.NoDup_app. split; [done|]. split; [set_solver|apply NoDup_singleton].
Qed.

Lemma recorded_snoc (p : key -> bool) (ms : list (Z * attributes)) (m : Z * attributes) :
  recorded p (ms ++ [m]) = recorded p ms + if p (key_of m.2) then m.1 else 0.
Proof. unfold recorded. rewrite fmap_app, zsum_app. simpl. lia. Qed.

Lemma recorded_none (p : key -> bool) (ms : list (Z * attributes)) :
  (forall k, k ∈ first_seen ms -> p k = false) -> recorded p ms = 0.
Proof.
  intros H. unfold recorded. assert (Ha : forall m, m ∈ ms -> p (key_of m.2) = false).
  { intros m Hm. apply H, first_seen_elem, list_elem_of_fmap. by exists m. }
  clear H. induction ms as [|m ms IH]; [done|]. cbn [fmap list_fmap]. cbn [zsum foldr]. fold (zsum ((fun m => if p (key_of m.2) then m.1 else 0) <$> ms)).
  rewrite IH, Ha by set_solver. lia.
Qed.

Lemma cut_nodup (n : option nat) (l : list key) : NoDup l -> NoDup (cut n l).
Proof. destruct n; [|done]. intros H. eapply sublist_NoDup; [exact H|apply sublist_take]. Qed.

Lemma cut_sub (n : option nat) (l : list key) (k : key) : k ∈ cut n l -> k ∈ l.
Proof. destruct n; [|done]. apply subseteq_take. Qed.

Lemma rows_lookup (l : list key) (ms : list (Z * attributes)) (k : key) :
  (list_to_map (rows l ms) : gmap key Z) !! k = if decide (k ∈ l) then Some (recorded (is_key k) ms) else None.
Proof.
  unfold rows. induction l as [|k' l IH]; [done|]. csimpl. destruct (decide (k' = k)) as [->|Hk].
  - rewrite lookup_insert_eq, decide_True by set_solver. done.
  - rewrite lookup_insert_ne, IH by done. destruct (decide (k ∈ l)), (decide (k ∈ k' :: l)); set_solver.
Qed.

Lemma overflow_not_seen (ms : list (Z * attributes)) : proper ms -> OVERFLOW ∉ first_seen ms.
Proof.
  intros Hp Hin. apply first_seen_elem, list_elem_of_fmap in Hin as (m & E & Hm).
  unfold proper in Hp. rewrite list.Forall_forall in Hp. by apply (Hp m).
Qed.

Lemma survivors_sub (limit : option Z) (ms : list (Z * attributes)) (k : key) : k ∈ survivors limit ms -> k ∈ first_seen ms.
Proof. apply cut_sub. Qed.

Lemma spec_lookup (limit : option Z) (ms : list (Z * attributes)) (k : key) :
  proper ms ->
  spec limit ms !! k =
    if decide (k ∈ survivors limit ms) then Some (recorded (is_key k) ms)
    else if decide (k = OVERFLOW) then if spilled limit ms then Some (recorded (outside (survivors limit ms)) ms) else None
    else None.
Proof.
  intros Hp. unfold spec. pose proof (overflow_not_seen ms Hp) as Ho.
  destruct (spilled limit ms); [destruct (decide (k = OVERFLOW)) as [->|Hk]|].
  - rewrite lookup_insert_eq, decide_False; [done|]. intros H. by apply Ho, (survivors_sub limit).
  - rewrite lookup_insert_ne by done. apply rows_lookup.
  - rewrite rows_lookup. by repeat case_decide.
Qed.

Lemma spec_size (limit : option Z) (ms : list (Z * attributes)) :
  proper ms -> size (spec limit ms) = (length (survivors limit ms) + if spilled limit ms then 1 else 0)%nat.
Proof.
  intros Hp. assert (Hr : size (list_to_map (rows (survivors limit ms) ms) : gmap key Z) = length (survivors limit ms)).
  { unfold rows. rewrite map_size_list_to_map, length_fmap; [done|]. rewrite <- list_fmap_compose. cbn.
    rewrite list_fmap_id. apply cut_nodup, first_seen_nodup. }
  unfold spec. destruct (spilled limit ms); [|lia]. rewrite map_size_insert_None; [lia|].
  rewrite rows_lookup, decide_False; [done|]. intros H. by apply (overflow_not_seen ms Hp), (survivors_sub limit).
Qed.

Lemma slots_room (c : t) : Counter.room c = match slots (Counter.limit c) with None => true | Some n => (size (series c) <? n)%nat end.
Proof.
  unfold Counter.room, unlimited, slots. destruct (Counter.limit c) as [l|]; [|done]. destruct (Z.eqb_spec l 0); [done|].
  cbn [orb]. destruct (Z.ltb_spec (Z.of_nat (size (series c))) (l - 1)), (Nat.ltb_spec (size (series c)) (Z.to_nat (l - 1))); lia || done.
Qed.

(** A measurement of a set that has a series. *)
Lemma survivors_known (limit : option Z) (ms : list (Z * attributes)) (m : Z * attributes) :
  key_of m.2 ∈ first_seen ms ->
  survivors limit (ms ++ [m]) = survivors limit ms /\ spilled limit (ms ++ [m]) = spilled limit ms.
Proof.
  intros H. unfold spilled, survivors. rewrite first_seen_snoc. unfold see. by rewrite decide_True.
Qed.

(** One of a new set: it gets a series if there is a slot. *)
Lemma survivors_new (limit : option Z) (ms : list (Z * attributes)) (m : Z * attributes) :
  key_of m.2 ∉ first_seen ms ->
  if match slots limit with None => true | Some n => (length (first_seen ms) <? n)%nat end
  then survivors limit (ms ++ [m]) = survivors limit ms ++ [key_of m.2] /\
       spilled limit (ms ++ [m]) = false /\ survivors limit ms = first_seen ms
  else survivors limit (ms ++ [m]) = survivors limit ms /\ spilled limit (ms ++ [m]) = true.
Proof.
  intros H. unfold spilled, survivors. rewrite first_seen_snoc. unfold see. rewrite decide_False by done.
  destruct (slots limit) as [n|]; cbn [cut]; [|by rewrite length_app, Nat.ltb_irrefl].
  destruct (Nat.ltb_spec (length (first_seen ms)) n).
  - rewrite (take_ge (first_seen ms ++ _)), (take_ge (first_seen ms)) by (rewrite ?length_app; simpl; lia).
    by rewrite Nat.ltb_irrefl.
  - rewrite take_app_le by lia. split; [done|]. rewrite length_take, length_app. simpl. apply Nat.ltb_lt. lia.
Qed.

(** What a measurement adds to the sums. *)
Lemma recorded_other (k : key) (ms : list (Z * attributes)) (m : Z * attributes) :
  key_of m.2 <> k -> recorded (is_key k) (ms ++ [m]) = recorded (is_key k) ms.
Proof. intros H. rewrite recorded_snoc. unfold is_key. rewrite bool_decide_false by done. lia. Qed.

Lemma recorded_same (ms : list (Z * attributes)) (m : Z * attributes) :
  recorded (is_key (key_of m.2)) (ms ++ [m]) = recorded (is_key (key_of m.2)) ms + m.1.
Proof. rewrite recorded_snoc. unfold is_key. by rewrite bool_decide_true. Qed.

Lemma recorded_in (l : list key) (ms : list (Z * attributes)) (m : Z * attributes) :
  key_of m.2 ∈ l -> recorded (outside l) (ms ++ [m]) = recorded (outside l) ms.
Proof. intros H. rewrite recorded_snoc. unfold outside. rewrite bool_decide_false by auto. lia. Qed.

Lemma recorded_out (l : list key) (ms : list (Z * attributes)) (m : Z * attributes) :
  key_of m.2 ∉ l -> recorded (outside l) (ms ++ [m]) = recorded (outside l) ms + m.1.
Proof. intros H. rewrite recorded_snoc. unfold outside. by rewrite bool_decide_true. Qed.

Lemma proper_snoc (ms : list (Z * attributes)) (m : Z * attributes) :
  proper (ms ++ [m]) <-> proper ms /\ key_of m.2 <> OVERFLOW.
Proof. unfold proper. rewrite Forall_app, list.Forall_singleton. done. Qed.

(** One call of [add], of the three kinds. *)
Lemma spec_known (limit : option Z) (ms : list (Z * attributes)) (m : Z * attributes) :
  proper (ms ++ [m]) -> key_of m.2 ∈ survivors limit ms ->
  spec limit (ms ++ [m]) = <[key_of m.2 := recorded (is_key (key_of m.2)) ms + m.1]> (spec limit ms).
Proof.
  intros Hp Hk. pose proof (proj1 (proper_snoc _ _) Hp) as [Hp0 Ho].
  destruct (survivors_known limit ms m) as [Es Ep]; [by apply (survivors_sub limit)|].
  apply map_eq. intros k. rewrite spec_lookup, Es, Ep, recorded_in by done. destruct (decide (key_of m.2 = k)) as [<-|Hne].
  - by rewrite lookup_insert_eq, decide_True, recorded_same.
  - by rewrite lookup_insert_ne, spec_lookup, recorded_other.
Qed.

Lemma spec_room (limit : option Z) (ms : list (Z * attributes)) (m : Z * attributes) :
  proper (ms ++ [m]) -> key_of m.2 ∉ first_seen ms ->
  match slots limit with None => true | Some n => (length (first_seen ms) <? n)%nat end = true ->
  spec limit (ms ++ [m]) = <[key_of m.2 := m.1]> (spec limit ms).
Proof.
  intros Hp Hk Hr. pose proof (proj1 (proper_snoc _ _) Hp) as [Hp0 Ho].
  pose proof (survivors_new limit ms m Hk) as H. rewrite Hr in H. destruct H as (Es & Ep & Ef).
  assert (Ep0 : spilled limit ms = false) by (unfold spilled; rewrite Ef; apply Nat.ltb_irrefl).
  apply map_eq. intros k. rewrite spec_lookup, Es, Ep by done. destruct (decide (key_of m.2 = k)) as [<-|Hne].
  - rewrite lookup_insert_eq, decide_True by set_solver. rewrite recorded_same, recorded_none; [done|].
    intros k Hin. unfold is_key. apply bool_decide_false. by intros ->.
  - rewrite lookup_insert_ne, spec_lookup, recorded_other, Ep0 by done.
    destruct (decide (k ∈ survivors limit ms)) as [Hin|Hin].
    + by rewrite decide_True by (apply elem_of_app; by left).
    + rewrite decide_False; [done|]. intros [?|E%list_elem_of_singleton]%elem_of_app; [done|]. by apply Hne.
Qed.

Lemma spec_full (limit : option Z) (ms : list (Z * attributes)) (m : Z * attributes) :
  proper (ms ++ [m]) -> key_of m.2 ∉ survivors limit ms ->
  survivors limit (ms ++ [m]) = survivors limit ms -> spilled limit (ms ++ [m]) = true ->
  spec limit (ms ++ [m]) = <[OVERFLOW := default 0 (spec limit ms !! OVERFLOW) + m.1]> (spec limit ms).
Proof.
  intros Hp Hk Es Ep. pose proof (proj1 (proper_snoc _ _) Hp) as [Hp0 Ho].
  assert (Hno : OVERFLOW ∉ survivors limit ms) by (intros H; by apply (overflow_not_seen ms Hp0), (survivors_sub limit)).
  apply map_eq. intros k. rewrite !spec_lookup, Es, Ep, recorded_out by done. destruct (decide (k = OVERFLOW)) as [->|Hne].
  - rewrite lookup_insert_eq, !decide_False by done. destruct (spilled limit ms) eqn:E; [done|].
    cbn. rewrite recorded_none; [done|]. intros k Hin. apply bool_decide_false. intros Hn. apply Hn.
    unfold spilled in E. apply Nat.ltb_ge in E. unfold survivors in *.
    destruct (slots limit) as [n|]; cbn [cut] in *; [|done]. rewrite length_take in E. by rewrite take_ge by lia.
  - rewrite lookup_insert_ne, spec_lookup by done. rewrite (decide_False (P := k = OVERFLOW)) by done.
    destruct (decide (k ∈ survivors limit ms)); [|done]. rewrite recorded_other; [done|]. by intros <-.
Qed.

Record agrees (limit : option Z) (ms : list (Z * attributes)) (c : t) : Prop := {
  a_limit : Counter.limit c = limit;
  a_series : series c = spec limit ms;
  a_overflowed : overflowed_measurements c = recorded (outside (survivors limit ms)) ms;
  a_rejected : forall k, k ∈ rejected_attribute_sets c <-> k ∈ first_seen ms /\ k ∉ survivors limit ms }.

(** While there is a slot, every set has one. *)
Lemma room_new (limit : option Z) (ms : list (Z * attributes)) (m : Z * attributes) (c : t) :
  agrees limit ms c -> proper ms -> key_of m.2 ∉ survivors limit ms -> Counter.room c = true ->
  key_of m.2 ∉ first_seen ms /\ match slots limit with None => true | Some n => (length (first_seen ms) <? n)%nat end = true.
Proof.
  intros [El Es _ _] Hp Hk Hr. rewrite slots_room, El, Es, spec_size in Hr by done. unfold survivors in *.
  destruct (slots limit) as [n|]; cbn [cut] in *; [|done]. apply Nat.ltb_lt in Hr. rewrite length_take in Hr.
  rewrite take_ge in Hk by lia. split; [done|]. apply Nat.ltb_lt. lia.
Qed.

Lemma full_new (limit : option Z) (ms : list (Z * attributes)) (m : Z * attributes) (c : t) :
  agrees limit ms c -> proper ms -> key_of m.2 ∉ survivors limit ms -> Counter.room c = false ->
  survivors limit (ms ++ [m]) = survivors limit ms /\ spilled limit (ms ++ [m]) = true.
Proof.
  intros [El Es _ _] Hp Hk Hr. rewrite slots_room, El, Es, spec_size in Hr by done.
  destruct (decide (key_of m.2 ∈ first_seen ms)) as [Hin|Hin].
  - destruct (survivors_known limit ms m Hin) as [-> ->]. split; [done|]. unfold spilled, survivors in *.
    destruct (slots limit) as [n|]; cbn [cut] in *; [|done]. apply Nat.ltb_lt. rewrite length_take.
    destruct (Nat.lt_ge_cases n (length (first_seen ms))); [lia|]. by rewrite take_ge in Hk by lia.
  - pose proof (survivors_new limit ms m Hin) as H. unfold spilled, survivors in Hr.
    destruct (slots limit) as [n|]; [|done]. destruct (Nat.ltb_spec (length (first_seen ms)) n) as [Hlt|]; [|exact H].
    cbn [cut] in Hr. rewrite take_ge, Nat.ltb_irrefl in Hr by lia. apply Nat.ltb_ge in Hr. lia.
Qed.

Lemma counter_add_agrees (limit : option Z) (ms : list (Z * attributes)) (m : Z * attributes) (c : t) :
  proper (ms ++ [m]) -> agrees limit ms c -> agrees limit (ms ++ [m]) (add m.1 m.2 c).
Proof.
  intros Hp Ha. pose proof (proj1 (proper_snoc _ _) Hp) as [Hp0 Ho]. pose proof Ha as [El Es Eo Er].
  unfold add. destruct (decide (key_of m.2 ∈ survivors limit ms)) as [Hin|Hin].
  - rewrite Es, spec_lookup, decide_True by done. destruct (survivors_known limit ms m) as [Es' _]; [by apply (survivors_sub limit)|].
    split; cbn.
    + done.
    + by rewrite spec_known.
    + by rewrite Es', recorded_in.
    + intros k. rewrite Er, Es', first_seen_snoc. unfold see.
      rewrite decide_True by (by apply (survivors_sub limit)). done.
  - assert (En : series c !! key_of m.2 = None) by (by rewrite Es, spec_lookup, !decide_False).
    rewrite En. destruct (Counter.room c) eqn:Hr.
    + destruct (room_new limit ms m c Ha Hp0 Hin Hr) as [Hk Hc]. pose proof (survivors_new limit ms m Hk) as H.
      rewrite Hc in H. destruct H as (Es' & Ep & Ef).
      assert (E0 : recorded (outside (survivors limit ms)) ms = 0).
      { apply recorded_none. intros k H. apply bool_decide_false. rewrite Ef. auto. }
      split; cbn; [done| | |].
      * by rewrite spec_room, Es.
      * rewrite Eo, E0, Es', recorded_none; [done|]. intros k H. apply bool_decide_false. rewrite first_seen_snoc in H.
        unfold see in H. rewrite decide_False in H by done. rewrite Ef. auto.
      * intros k. rewrite Er, Es', Ef, first_seen_snoc. unfold see. rewrite decide_False by done. set_solver.
    + destruct (full_new limit ms m c Ha Hp0 Hin Hr) as [Es' Ep]. split; cbn; [done| | |].
      * by rewrite spec_full, Es.
      * by rewrite Es', recorded_out, Eo.
      * intros k. rewrite elem_of_union, elem_of_singleton, Er, Es', first_seen_snoc. unfold see.
        case_decide; set_solver.
Qed.

Lemma run_agrees (limit : option Z) (ms : list (Z * attributes)) : proper ms -> agrees limit ms (run limit ms).
Proof.
  induction ms as [|m ms IH] using rev_ind; intros Hp.
  - assert (E0 : forall n, cut n [] = []) by (intros []; [apply take_nil|done]).
    assert (Es : survivors limit [] = []) by (unfold survivors; apply E0).
    split; [done| |by rewrite Es|].
    + unfold spec, spilled. by rewrite Es.
    + intros k. rewrite Es. set_solver.
  - unfold run. rewrite fold_left_app. cbn [fold_left]. apply counter_add_agrees; [done|]. apply IH. by apply (proper_snoc ms m) in Hp as [? _].
Qed.

Lemma add_total (v : Z) (a : attributes) (c : t) : total (add v a c) = total c + v.
Proof.
  change (map_sum (series (add v a c)) = map_sum (series c) + v). unfold add.
  destruct (series c !! key_of a) as [x|] eqn:Hk; [|destruct (Counter.room c)]; cbn [series].
  - pose proof (map_sum_add (series c) (key_of a) v) as H. by rewrite Hk in H.
  - by apply map_sum_insert_None.
  - apply map_sum_add.
Qed.

Definition carries (label : string) (k : key) : bool := bool_decide (is_Some (label_of label k)).

Lemma sum_by_total (label : string) (c : t) :
  map_sum (sum_by label c) = zsum ((fun p => if carries label p.1 then p.2 else 0) <$> map_to_list (series c)).
Proof.
  unfold sum_by. induction (map_to_list (series c)) as [|[k v] l IH]; [done|]. cbn [foldr fmap list_fmap].
  unfold carries at 1. cbn [fst snd zsum foldr]. destruct (label_of label k) as [a|] eqn:E.
  - rewrite bool_decide_true by done. rewrite map_sum_add, IH. unfold zsum. lia.
  - rewrite bool_decide_false by (intros [? ?]; congruence). rewrite IH. unfold zsum. lia.
Qed.

Lemma visible_all (label : string) (l : list (key * Z)) :
  (forall p, p ∈ l -> carries label p.1 = true) -> zsum ((fun p => if carries label p.1 then p.2 else 0) <$> l) = zsum (l.*2).
Proof.
  induction l as [|p l IH]; intros H; [done|]. cbn. unfold zsum in *. rewrite IH, H by set_solver. done.
Qed.

Lemma visible_map (label : string) (m : gmap key Z) :
  (forall k v, m !! k = Some v -> k <> OVERFLOW -> carries label k = true) -> m !! OVERFLOW = None ->
  zsum ((fun p => if carries label p.1 then p.2 else 0) <$> map_to_list m) = map_sum m.
Proof.
  intros Hc Hn. apply visible_all. intros [k v] Hk%elem_of_map_to_list. apply (Hc k v Hk). intros ->. congruence.
Qed.

(** The overflow series is not seen by a query that names a label. *)
Lemma visible_insert (label : string) (m : gmap key Z) (v : Z) :
  label_of label OVERFLOW = None -> m !! OVERFLOW = None ->
  zsum ((fun p => if carries label p.1 then p.2 else 0) <$> map_to_list (<[OVERFLOW := v]> m)) =
  zsum ((fun p => if carries label p.1 then p.2 else 0) <$> map_to_list m).
Proof.
  intros Ho Hn. rewrite (zsum_perm _ ((fun p => if carries label p.1 then p.2 else 0) <$> (OVERFLOW, v) :: map_to_list m))
    by (by apply fmap_Permutation, map_to_list_insert).
  rewrite zsum_fmap_cons. unfold carries at 1. cbn [fst]. rewrite Ho, bool_decide_false; [lia|]. by intros [? ?].
Qed.

Lemma not_spilled (limit : option Z) (ms : list (Z * attributes)) (k : key) :
  spilled limit ms = false -> k ∈ first_seen ms -> k ∈ survivors limit ms.
Proof.
  unfold spilled, survivors. intros E Hk. apply Nat.ltb_ge in E. destruct (slots limit) as [n|]; cbn [cut] in *; [|done].
  rewrite length_take in E. by rewrite take_ge by lia.
Qed.

(** Every set of a run but the overflow set carries the label. *)
Lemma spec_carries (label : string) (limit : option Z) (ms : list (Z * attributes)) (k : key) (v : Z) :
  proper ms -> Forall (fun m => carries label (key_of m.2) = true) ms ->
  spec limit ms !! k = Some v -> k <> OVERFLOW -> carries label k = true.
Proof.
  intros Hp Hl. rewrite spec_lookup by done. intros Hk Hne. rewrite (decide_False (P := k = OVERFLOW)) in Hk by done.
  destruct (decide (k ∈ survivors limit ms)) as [Hin|]; [|done]. apply survivors_sub, first_seen_elem, list_elem_of_fmap in Hin as (m & -> & Hm).
  rewrite list.Forall_forall in Hl. by apply Hl.
Qed.

(** ** Properties *)

(** C22: Which series a run leaves, and what is in them: with a limit of [l], the first [l - 1]
    attribute sets that were seen each have their own exact sum, and everything recorded
    under any other set is one number under the overflow set, which never becomes
    visible again however much it grows; the rejected sets are the others, and what was
    counted as overflowed is that number. *)
Theorem first_seen_wins (limit : option Z) (ms : list (Z * attributes)) :
  proper ms ->
  let c := run limit ms in
  series c = spec limit ms /\
  overflowed_measurements c = recorded (outside (survivors limit ms)) ms /\
  (forall k, k ∈ rejected_attribute_sets c <-> k ∈ first_seen ms /\ k ∉ survivors limit ms) /\
  (forall l, limit = Some l -> 0 < l -> active_series c <= l).
Proof.
  intros Hp. cbn zeta. pose proof (run_agrees limit ms Hp) as [_ Es Eo Er]. split_and!; [done|done|done|].
  intros l -> Hl. unfold active_series. rewrite Es, spec_size by done. unfold spilled, survivors, slots.
  destruct (Z.eqb_spec l 0); [lia|]. cbn [cut]. rewrite length_take. destruct (Nat.ltb_spec (Z.to_nat (l - 1) `min` length (first_seen ms)) (length (first_seen ms))); lia.
Qed.

Definition order (id : string) : attributes := [("route", VStr "/orders"); ("customer_id", VStr id)].

Lemma first_seen_wins_witness :
  active_series (run (Some 2) [(1, order "a"); (1, order "b"); (5, order "b"); (1, order "a")]) <= 2 /\
  map_to_list (series (run (Some 2) [(1, order "a"); (1, order "b"); (5, order "b"); (1, order "a")])) =
    [(OVERFLOW, 6); (key_of (order "a"), 2)].
Proof.
  split; [|vm_compute; reflexivity].
  refine (proj2 (proj2 (proj2 (first_seen_wins (Some 2) _ _))) 2 eq_refl ltac:(lia)).
  repeat constructor; intros E; discriminate E.
Defined.

(** The totals stay right and the breakdowns do not: the sum over all series is all that was
    recorded, whatever the limit; the sum of a breakdown by a label that every measurement
    carries is less by exactly what overflowed. *)
Theorem breakdown_gap (label : string) (limit : option Z) (ms : list (Z * attributes)) :
  let c := run limit ms in
  total c = zsum (ms.*1) /\
  (label_of label OVERFLOW = None -> proper ms -> Forall (fun m => carries label (key_of m.2) = true) ms ->
    map_sum (sum_by label c) = total c - overflowed_measurements c).
Proof.
  cbn zeta. split.
  - unfold run. cut (total (init limit) = 0); [|done].
    assert (H : forall c, total (fold_left (fun c m => add m.1 m.2 c) ms c) = total c + zsum (ms.*1)); [|intros E; rewrite H, E; done].
    induction ms as [|m ms IH]; intros c; cbn; [unfold zsum; simpl; lia|]. rewrite IH, add_total. unfold zsum. lia.
  - intros Ho Hp Hl. rewrite sum_by_total. change (total (run limit ms)) with (map_sum (series (run limit ms))).
    destruct (run_agrees limit ms Hp) as [_ Es Eo _]. rewrite Es, Eo.
    pose proof (spec_carries label limit ms) as Hc. pose proof (spec_lookup limit ms OVERFLOW Hp) as Hn.
    rewrite decide_False, decide_True in Hn
      by (try done; intros H; by apply (overflow_not_seen ms Hp), (survivors_sub limit)).
    revert Hc Hn. unfold spec. destruct (spilled limit ms) eqn:E; intros Hc Hn.
    + set (m := list_to_map _) in *. assert (Hm : m !! OVERFLOW = None).
      { unfold m. rewrite rows_lookup, decide_False; [done|].
        intros H. by apply (overflow_not_seen ms Hp), (survivors_sub limit). }
      rewrite visible_insert, map_sum_insert_None by done. rewrite visible_map; [lia| |done].
      intros k v Hk Hne. apply (Hc k v Hp Hl); [|done]. by rewrite lookup_insert_ne.
    + rewrite visible_map; [|by intros k v Hk; apply (Hc k v Hp Hl)|done].
      rewrite recorded_none; [lia|]. intros k Hk. apply bool_decide_false. intros H. apply H. by apply not_spilled.
Qed.

Lemma breakdown_gap_witness :
  map_sum (sum_by "customer_id" (run (Some 2) [(1, order "a"); (5, order "b")])) =
    total (run (Some 2) [(1, order "a"); (5, order "b")]) - 5.
Proof.
  refine (proj2 (breakdown_gap "customer_id" (Some 2) [(1, order "a"); (5, order "b")]) eq_refl _ _).
  - repeat constructor; intros E; discriminate E.
  - repeat constructor.
Defined.
