(* ===== verification/PyHash.v ===== *)
(** * The standard library's [hashlib] and [base64]

    What the security layer uses of them: SHA-256 on a list of bytes, the URL-safe base64
    encoding, and the decoder of [binascii] in its default, lenient mode.  A string is the
    list of its bytes, in UTF-8. *)

From Stdlib Require Import ZArith Lia Ascii String.
From stdpp Require Import base option list numbers strings.
From S2P Require Import Prelude.

Open Scope Z_scope.

(** ** Definitions *)

Definition byte_of (c : ascii) : Z := Z.of_nat (nat_of_ascii c).
Definition char_of (b : Z) : ascii := ascii_of_nat (Z.to_nat b).

(** [s.encode()] and [b.decode()]. *)
Fixpoint encode_str (s : string) : list Z :=
  match s with EmptyString => [] | String c s => byte_of c :: encode_str s end.
Fixpoint decode_str (b : list Z) : string :=
  match b with [] => EmptyString | x :: b => String (char_of x) (decode_str b) end.

(** *** SHA-256 *)

Module Sha256.

Definition word (x : Z) : Z := Z.land x 4294967295.
Definition rotr (n x : Z) : Z := Z.lor (Z.shiftr x n) (word (Z.shiftl x (32 - n))).

Definition big0 (x : Z) : Z := Z.lxor (rotr 2 x) (Z.lxor (rotr 13 x) (rotr 22 x)).
Definition big1 (x : Z) : Z := Z.lxor (rotr 6 x) (Z.lxor (rotr 11 x) (rotr 25 x)).
Definition small0 (x : Z) : Z := Z.lxor (rotr 7 x) (Z.lxor (rotr 18 x) (Z.shiftr x 3)).
Definition small1 (x : Z) : Z := Z.lxor (rotr 17 x) (Z.lxor (rotr 19 x) (Z.shiftr x 10)).
Definition ch (x y z : Z) : Z := Z.lxor (Z.land x y) (Z.land (Z.lxor x 4294967295) z).
Definition maj (x y z : Z) : Z := Z.lxor (Z.land x y) (Z.lxor (Z.land x z) (Z.land y z)).

Definition H0 : list Z :=
  [1779033703; 3144134277; 1013904242; 2773480762; 1359893119; 2600822924; 528734635; 1541459225].

Definition K : list Z :=
  [1116352408; 1899447441; 3049323471; 3921009573; 961987163; 1508970993; 2453635748; 2870763221;
   3624381080; 310598401; 607225278; 1426881987; 1925078388; 2162078206; 2614888103; 3248222580;
   3835390401; 4022224774; 264347078; 604807628; 770255983; 1249150122; 1555081692; 1996064986;
   2554220882; 2821834349; 2952996808; 3210313671; 3336571891; 3584528711; 113926993; 338241895;
   666307205; 773529912; 1294757372; 1396182291; 1695183700; 1986661051; 2177026350; 2456956037;
   2730485921; 2820302411; 3259730800; 3345764771; 3516065817; 3600352804; 4094571909; 275423344;
   430227734; 506948616; 659060556; 883997877; 958139571; 1322822218; 1537002063; 1747873779;
   1955562222; 2024104815; 2227730452; 2361852424; 2428436474; 2756734187; 3204031479; 3329325298].

(** The words of the message schedule, last first. *)
Fixpoint schedule (n : nat) (w : list Z) : list Z :=
  match n with
  | O => w
  | S n => schedule n (word (small1 (nth 1 w 0) + nth 6 w 0 + small0 (nth 14 w 0) + nth 15 w 0) :: w)
  end.

Definition round (v : list Z) (kw : Z * Z) : list Z :=
  match v with
  | [a; b; c; d; e; f; g; h] =>
      let t1 := h + big1 e + ch e f g + kw.1 + kw.2 in
      [word (t1 + big0 a + maj a b c); a; b; c; word (d + t1); e; f; g]
  | v => v
  end.

Definition block (h w : list Z) : list Z :=
  zip_with (fun x y => word (x + y)) h (fold_left round (zip K (rev (schedule 48 (rev w)))) h).

Fixpoint be (n : nat) (x : Z) : list Z :=
  match n with O => [] | S n => be n (x / 256) ++ [x mod 256] end.

(** The words of a message, four bytes each. *)
Fixpoint words (b : list Z) : list Z :=
  match b with
  | x :: y :: z :: t :: b => (x * 16777216 + y * 65536 + z * 256 + t) :: words b
  | _ => []
  end.

Definition pad (m : list Z) : list Z :=
  let n := Z.of_nat (List.length m) in
  m ++ [128] ++ replicate (Z.to_nat ((55 - n) mod 64)) 0 ++ be 8 (n * 8).

Fixpoint blocks (fuel : nat) (h w : list Z) : list Z :=
  match fuel, w with
  | S fuel, _ :: _ => blocks fuel (block h (take 16 w)) (drop 16 w)
  | _, _ => h
  end.

Definition digest (m : list Z) : list Z :=
  let w := words (pad m) in List.concat (map (be 4) (blocks (List.length w) H0 w)).

End Sha256.

(** *** Base64 *)

Definition alphabet : list Z := encode_str "ABCDEFGHIJKLMNOPQRSTUVWXYZabcdefghijklmnopqrstuvwxyz0123456789-_".
Definition pad_char : Z := 61.

Definition sym (i : Z) : Z := nth (Z.to_nat i) alphabet 0.

(** [urlsafe_b64encode]. *)
Fixpoint urlsafe_b64encode (b : list Z) : list Z :=
  match b with
  | x :: y :: z :: b =>
      sym (x / 4) :: sym (x mod 4 * 16 + y / 16) :: sym (y mod 16 * 4 + z / 64) :: sym (z mod 64) :: urlsafe_b64encode b
  | [x; y] => [sym (x / 4); sym (x mod 4 * 16 + y / 16); sym (y mod 16 * 4); pad_char]
  | [x] => [sym (x / 4); sym (x mod 4 * 16); pad_char; pad_char]
  | [] => []
  end.

(** [b.rstrip(b"=")]. *)
Definition rstrip_pad (b : list Z) : list Z :=
  foldr (fun x l => match l with [] => if x =? pad_char then [] else [x] | _ => x :: l end) [] b.

(** The value of a symbol, after [urlsafe_b64decode] has put [+] and [/] for [-] and [_]. *)
Definition val (c : Z) : option Z :=
  if (65 <=? c) && (c <=? 90) then Some (c - 65)
  else if (97 <=? c) && (c <=? 122) then Some (c - 71)
  else if (48 <=? c) && (c <=? 57) then Some (c + 4)
  else if (c =? 45) || (c =? 43) then Some 62
  else if (c =? 95) || (c =? 47) then Some 63
  else None.

(** [binascii.a2b_base64]: [quad] symbols of a group are read, [left] is what is left of
    them; bytes that are not symbols are skipped; the padding that ends a group ends the
    input.  [None] is [binascii.Error]. *)
Fixpoint a2b (quad pads left : Z) (b : list Z) : option (list Z) :=
  match b with
  | [] => if quad =? 0 then Some [] else None
  | c :: b =>
      if c =? pad_char then
        if 2 <=? quad then if 4 <=? quad + (pads + 1) then Some [] else a2b quad (pads + 1) left b
        else a2b quad pads left b
      else match val c with
      | None => a2b quad pads left b
      | Some v =>
          if quad =? 0 then a2b 1 0 v b
          else if quad =? 1 then cons (left * 4 + v / 16) <$> a2b 2 0 (v mod 16) b
          else if quad =? 2 then cons (left * 16 + v / 4) <$> a2b 3 0 (v mod 4) b
          else cons (left * 64 + v) <$> a2b 0 0 0 b
      end
  end.

Definition urlsafe_b64decode (b : list Z) : option (list Z) := a2b 0 0 0 b.

(** ** Lemmas *)

Definition is_byte (x : Z) : Prop := 0 <= x < 256.

(** The published digest of [abc]. *)
Example sha256_abc :
  Sha256.digest (encode_str "abc") =
  [186; 120; 22; 191; 143; 1; 207; 234; 65; 65; 64; 222; 93; 174; 34; 35;
   176; 3; 97; 163; 150; 23; 122; 156; 180; 16; 255; 97; 242; 0; 21; 173].
Proof. vm_compute. reflexivity. Qed.

Lemma be_bytes (n : nat) (x : Z) : Forall is_byte (Sha256.be n x).
Proof.
  revert x. induction n as [|n IH]; intros x; [constructor|]. apply Forall_app. split; [apply IH|].
  repeat constructor; apply Z.mod_pos_bound; lia.
Qed.

Lemma digest_bytes (m : list Z) : Forall is_byte (Sha256.digest m).
Proof. unfold Sha256.digest. induction (Sha256.blocks _ _ _) as [|x l IH]; [constructor|]. apply Forall_app. split; [apply be_bytes|exact IH]. Qed.

(** *** Base64, there and back *)

Lemma sym_val (i : Z) : 0 <= i < 64 -> val (sym i) = Some i /\ (sym i =? pad_char) = false.
Proof.
  intros Hi. assert (H : forallb (fun n => let i := Z.of_nat n in
    match val (sym i) with Some j => j =? i | None => false end && negb (sym i =? pad_char)) (seq 0 64) = true)
    by (vm_compute; reflexivity).
  rewrite forallb_forall in H. specialize (H (Z.to_nat i)). rewrite in_seq in H. specialize (H ltac:(lia)).
  cbn zeta in H. rewrite Z2Nat.id in H by lia. apply andb_true_iff in H as [H1 H2].
  destruct (val (sym i)) as [j|]; [|discriminate]. apply Z.eqb_eq in H1 as ->. split; [done|]. by destruct (sym i =? pad_char).
Qed.

#[local] Arguments sym : simpl never.
#[local] Ltac Zify.zify_post_hook ::= Z.to_euclidean_division_equations.

Fixpoint bare (b : list Z) : list Z :=
  match b with
  | x :: y :: z :: b =>
      sym (x / 4) :: sym (x mod 4 * 16 + y / 16) :: sym (y mod 16 * 4 + z / 64) :: sym (z mod 64) :: bare b
  | [x; y] => [sym (x / 4); sym (x mod 4 * 16 + y / 16); sym (y mod 16 * 4)]
  | [x] => [sym (x / 4); sym (x mod 4 * 16)]
  | [] => []
  end.

Lemma list_ind3 {A} (P : list A -> Prop) :
  P [] -> (forall x, P [x]) -> (forall x y, P [x; y]) -> (forall x y z l, P l -> P (x :: y :: z :: l)) -> forall l, P l.
Proof.
  intros H0 H1 H2 H3. fix IH 1. intros [|x [|y [|z l]]]; [exact H0|apply H1|apply H2|]. apply H3, IH.
Qed.

Lemma encode_bare (b : list Z) : exists n, urlsafe_b64encode b = bare b ++ replicate n pad_char.
Proof.
  induction b as [|x|x y|x y z b [n IH]] using list_ind3; [by exists 0%nat|by exists 2%nat|by exists 1%nat|].
  exists n. cbn. by rewrite IH.
Qed.

#[local] Ltac bytes :=
  repeat match goal with
  | H : Forall is_byte (_ :: _) |- _ => apply List.Forall_cons_iff in H as [? H]
  end; unfold is_byte in *.

Lemma bare_symbols (b : list Z) : Forall is_byte b -> Forall (fun c => (c =? pad_char) = false) (bare b).
Proof.
  induction b as [|x|x y|x y z b IH] using list_ind3; intros H; bytes; cbn; repeat constructor;
    try (apply sym_val; lia). apply IH, H.
Qed.

Lemma rstrip_symbols (l : list Z) (n : nat) :
  Forall (fun c => (c =? pad_char) = false) l -> rstrip_pad (l ++ replicate n pad_char) = l.
Proof.
  induction 1 as [|c l Hc Hl IH].
  - induction n as [|n IH]; [done|]. cbn in *. unfold rstrip_pad in IH. by rewrite IH.
  - cbn in *. unfold rstrip_pad in IH. rewrite IH. destruct l; [by rewrite Hc|done].
Qed.

Lemma rstrip_encode (b : list Z) : Forall is_byte b -> rstrip_pad (urlsafe_b64encode b) = bare b.
Proof. intros H. destruct (encode_bare b) as [n ->]. by apply rstrip_symbols, bare_symbols. Qed.

Lemma a2b_sym (quad pads left i : Z) (b : list Z) :
  0 <= i < 64 ->
  a2b quad pads left (sym i :: b) =
    if quad =? 0 then a2b 1 0 i b
    else if quad =? 1 then cons (left * 4 + i / 16) <$> a2b 2 0 (i mod 16) b
    else if quad =? 2 then cons (left * 16 + i / 4) <$> a2b 3 0 (i mod 4) b
    else cons (left * 64 + i) <$> a2b 0 0 0 b.
Proof. intros Hi. cbn [a2b]. destruct (sym_val i Hi) as [-> ->]. done. Qed.

(** The padding that completes the groups of [l]. *)
Definition repad (l : list Z) : list Z := l ++ replicate (Z.to_nat (- Z.of_nat (List.length l) mod 4)) pad_char.

Lemma repad_group (c d e f : Z) (l : list Z) : repad (c :: d :: e :: f :: l) = c :: d :: e :: f :: repad l.
Proof.
  unfold repad. cbn [List.length app]. do 5 f_equal. f_equal. f_equal.
  replace (- Z.of_nat (S (S (S (S (List.length l)))))) with (- Z.of_nat (List.length l) + -1 * 4) by lia.
  by rewrite Z_mod_plus_full.
Qed.

(** A byte is put together from its two parts. *)
Lemma join_sixteen (x r : Z) : 0 <= r < 16 -> x / 4 * 4 + (x mod 4 * 16 + r) / 16 = x.
Proof. intros. lia. Qed.
Lemma join_four (y q r : Z) : 0 <= r < 4 -> 0 <= y < 256 -> (q * 16 + y / 16) mod 16 * 16 + (y mod 16 * 4 + r) / 4 = y.
Proof. intros. lia. Qed.
Lemma join_one (z q : Z) : 0 <= z < 256 -> (q * 4 + z / 64) mod 4 * 64 + z mod 64 = z.
Proof. intros. lia. Qed.

Lemma a2b_repad (b : list Z) : Forall is_byte b -> a2b 0 0 0 (repad (bare b)) = Some b.
Proof.
  induction b as [|x|x y|x y z b IH] using list_ind3; intros H; bytes; [done| | |].
  - unfold repad. cbn [bare List.length app]. rewrite a2b_sym by lia. cbn [Z.eqb]. rewrite a2b_sym by lia.
    cbn [Z.eqb Pos.eqb]. pose proof (join_sixteen x 0 ltac:(lia)) as E. rewrite Z.add_0_r in E. by rewrite E.
  - unfold repad. cbn [bare List.length app]. rewrite a2b_sym by lia. cbn [Z.eqb]. rewrite a2b_sym by lia. cbn [Z.eqb Pos.eqb].
    rewrite a2b_sym by lia. cbn [Z.eqb Pos.eqb]. pose proof (join_four y (x mod 4) 0 ltac:(lia) ltac:(lia)) as E.
    rewrite Z.add_0_r in E. by rewrite E, join_sixteen by lia.
  - cbn [bare]. rewrite repad_group. rewrite a2b_sym by lia. cbn [Z.eqb]. rewrite a2b_sym by lia. cbn [Z.eqb Pos.eqb].
    rewrite a2b_sym by lia. cbn [Z.eqb Pos.eqb]. rewrite a2b_sym by lia. cbn [Z.eqb Pos.eqb].
    by rewrite IH, join_sixteen, join_four, join_one by (exact H || lia).
Qed.

(** [urlsafe_b64encode(b).rstrip(b"=")] loses nothing: with the padding put back it decodes. *)
Lemma b64_round_trip (b : list Z) :
  Forall is_byte b -> urlsafe_b64decode (repad (rstrip_pad (urlsafe_b64encode b))) = Some b.
Proof. intros H. rewrite rstrip_encode by exact H. by apply a2b_repad. Qed.

Lemma encode_bytes (s : string) : Forall is_byte (encode_str s).
Proof.
  induction s as [|c s IH]; constructor; [|exact IH]. unfold is_byte, byte_of. pose proof (nat_ascii_bounded c). lia.
Qed.

Lemma decode_encode (s : string) : decode_str (encode_str s) = s.
Proof.
  induction s as [|c s IH]; [done|]. cbn. unfold char_of, byte_of. by rewrite IH, Nat2Z.id, ascii_nat_embedding.
Qed.

Lemma encode_decode (b : list Z) : Forall is_byte b -> encode_str (decode_str b) = b.
Proof.
  induction 1 as [|x b Hx _ IH]; [done|]. cbn. unfold char_of, byte_of. unfold is_byte in Hx.
  rewrite IH, nat_ascii_embedding by lia. f_equal. lia.
Qed.
