(* ===== verification/Pkce.v ===== *)
(** * Security layer: authorization codes and PKCE

    Models src/07-security/05-oauth2-oidc-and-pkce/python/pkce_flow.py: [b64url], [s256], the
    [AuthServer], and the scenarios that [main] plays against it.

    What [secrets] draws is an argument. *)

From Stdlib Require Import ZArith Lia String.
From stdpp Require Import base option list gmap sets strings numbers.
From S2P Require Import Prelude PyHash.

Open Scope Z_scope.

(** ** Definitions *)

Definition b64url (b : list Z) : string := decode_str (rstrip_pad (urlsafe_b64encode b)).
Definition s256 (verifier : string) : string := b64url (Sha256.digest (encode_str verifier)).

(** A string, or [None], in a condition. *)
Definition truthy (s : option string) : bool := match s with Some s => negb (String.eqb s "") | None => false end.

Module AuthServer.

Record code : Type := mkCode {
  challenge : option string;
  method : string;
  redirect_uri : string;
  issued_at : Z;
  used : bool;
}.

Record config : Type := mkConfig {
  pkce_mode : string;
  code_ttl : Z;
  single_use : bool;
  redirect_match : string;
}.

Record t : Type := mk { codes : gmap string code; now : Z }.

Definition registered_redirect : string := "https://app.test/cb".

Definition init : t := mk ∅ 0.

Definition authorize (drawn uri state : string) (challenge : option string) (method : string) (a : t) : (string * string) * t :=
  ((drawn, state), mk (<[drawn := mkCode challenge method uri (now a) false]> (codes a)) (now a)).

(** [None]: [None.startswith], an [AttributeError]. *)
Definition _redirect_ok (c : config) (registered : string) (presented : option string) : option bool :=
  if String.eqb (redirect_match c) "exact" then Some (match presented with Some p => String.eqb p registered | None => false end)
  else String.prefix registered <$> presented.

Inductive answer : Type := Answer (status : Z) (token : option string) | AttributeError.

Definition refuse : answer := Answer 400 None.

Definition set_used (k : code) : code := mkCode (challenge k) (method k) (redirect_uri k) (issued_at k) true.

(** Whether the mode asks for a verifier. *)
Definition demands (c : config) (k : code) : bool :=
  String.eqb (pkce_mode c) "required" || (String.eqb (pkce_mode c) "optional" && truthy (challenge k)).

Definition verified (k : code) (verifier : option string) : bool :=
  match verifier with
  | Some v =>
      truthy verifier &&
      match challenge k with
      | Some expected => String.eqb (if String.eqb (method k) "S256" then s256 v else v) expected
      | None => false
      end
  | None => false
  end.

Definition token (c : config) (hex presented : string) (verifier redirect : option string) (a : t) : answer * t :=
  match codes a !! presented with
  | None => (refuse, a)
  | Some k =>
      if code_ttl c <? now a - issued_at k then (refuse, a)
      else if used k && single_use c then (refuse, a)
      else match _redirect_ok c registered_redirect redirect with
      | None => (AttributeError, a)
      | Some false => (refuse, a)
      | Some true =>
          if demands c k && negb (verified k verifier) then (refuse, a)
          else (Answer 200 (Some ("access-token-" +:+ hex)), mk (<[presented := set_used k]> (codes a)) (now a))
      end
  end.

(** [1 if tok else 0]. *)
Definition issued (r : answer) : Z := match r with Answer _ t => if truthy t then 1 else 0 | AttributeError => 0 end.

End AuthServer.
Import AuthServer.

(** *** The scenarios *)

Section scenarios.
(** The drawn code, the drawn parts of two tokens, the verifier. *)
Context (drawn hex hex' verifier : string).

Definition cb : string := "https://app.test/cb".
Definition cfg (mode : string) : config := mkConfig mode 60 true "exact".

Definition happy (c : config) : Z :=
  let '((code, _), a) := authorize drawn cb "xyz" (Some (s256 verifier)) "S256" init in
  issued (token c hex code (Some verifier) (Some cb) a).1.

Definition replay_no_verifier (c : config) : Z :=
  let '((code, _), a) := authorize drawn cb "xyz" (Some (s256 verifier)) "S256" init in
  issued (token c hex code None (Some cb) a).1.

Definition replay_wrong_verifier (other : string) (c : config) : Z :=
  let '((code, _), a) := authorize drawn cb "xyz" (Some (s256 verifier)) "S256" init in
  issued (token c hex code (Some other) (Some cb) a).1.

Definition replay_no_pkce (c : config) : Z :=
  let '((code, _), a) := authorize drawn cb "xyz" None "S256" init in
  issued (token c hex code None (Some cb) a).1.

Definition downgrade_plain (c : config) : Z :=
  let attacker_secret := "attacker-chosen-value" in
  let '((code, _), a) := authorize drawn cb "xyz" (Some attacker_secret) "plain" init in
  issued (token c hex code (Some attacker_secret) (Some cb) a).1.

Definition code_reuse (c : config) : Z :=
  let '((code, _), a) := authorize drawn cb "xyz" (Some (s256 verifier)) "S256" init in
  let '(_, a) := token c hex code (Some verifier) (Some cb) a in
  issued (token c hex' code (Some verifier) (Some cb) a).1.

Definition code_expiry (c : config) : Z :=
  let '((code, _), a) := authorize drawn cb "xyz" (Some (s256 verifier)) "S256" init in
  issued (token c hex code (Some verifier) (Some cb) (mk (codes a) 61)).1.

Definition redirect_prefix (c : config) : Z :=
  let '((code, _), a) := authorize drawn "https://app.test/cb.attacker.test" "xyz" (Some (s256 verifier)) "S256" init in
  issued (token c hex code (Some verifier) (Some "https://app.test/cb.attacker.test") a).1.

End scenarios.

(** *** A run of the server *)

Inductive op : Type :=
| Authorize (drawn uri state : string) (challenge : option string) (method : string)
| Token (hex presented : string) (verifier redirect : option string)
| Passes (now : Z).

(** The log holds each answer of [/token] with the code it was for, last first. *)
Definition step (c : config) (s : list (string * answer) * t) (o : op) : list (string * answer) * t :=
  let '(log, a) := s in
  match o with
  | Authorize d u st ch m => (log, (authorize d u st ch m a).2)
  | Token h p v r => let '(x, a) := token c h p v r a in ((p, x) :: log, a)
  | Passes now => (log, mk (codes a) now)
  end.

Definition run (c : config) (os : list op) : list (string * answer) * t := fold_left (step c) os ([], init).

(** ** Lemmas *)

(** The redirect that is accepted. *)
Definition redirect_allowed (c : config) (redirect : option string) : Prop :=
  if String.eqb (redirect_match c) "exact" then redirect = Some registered_redirect
  else exists rest, redirect = Some (registered_redirect +:+ rest).

Lemma prefix_spec (p s : string) : String.prefix p s = true <-> exists rest, s = p +:+ rest.
Proof.
  revert s. induction p as [|x p IH]; intros s; [split; [by exists s|by destruct s]|].
  destruct s as [|y s]; cbn [String.prefix]; [split; [done|by intros [? ?]]|].
  destruct (Ascii.ascii_dec x y) as [->|Hne].
  - rewrite IH. split; intros [r H]; exists r; [by rewrite H|]. cbn in H. by injection H.
  - split; [done|]. intros [r H]. cbn in H. by injection H as E _.
Qed.

Lemma redirect_ok_spec (c : config) (redirect : option string) :
  _redirect_ok c registered_redirect redirect = Some true <-> redirect_allowed c redirect.
Proof.
  unfold _redirect_ok, redirect_allowed. destruct (String.eqb (redirect_match c) "exact").
  - destruct redirect as [p|]; [|by split]. split.
    + intros [= H]. apply String.eqb_eq in H. by rewrite H.
    + intros [= ->]. by rewrite String.eqb_refl.
  - destruct redirect as [p|]; cbn [fmap option_fmap option_map]; [|by split; [|intros [? ?]]]. split.
    + intros [= H]. apply prefix_spec in H as [r ->]. by exists r.
    + intros [r [= ->]]. f_equal. apply prefix_spec. by exists r.
Qed.

(** What the verifier has to be. *)
Definition proof_of (k : code) (verifier : option string) : Prop :=
  exists v, verifier = Some v /\ v <> ""%string /\
    challenge k = Some (if String.eqb (method k) "S256" then s256 v else v).

Lemma verified_spec (k : code) (verifier : option string) : verified k verifier = true <-> proof_of k verifier.
Proof.
  unfold verified, proof_of, truthy. destruct verifier as [v|]; [|split; [done|intros (v & ? & _); done]].
  rewrite andb_true_iff, negb_true_iff, String.eqb_neq. destruct (challenge k) as [e|]; [rewrite String.eqb_eq|].
  - split; [intros [? <-]; by exists v|]. intros (v' & [= <-] & ? & [= <-]). done.
  - split; [by intros [_ ?]|]. intros (? & _ & _ & ?). done.
Qed.

(** A code that [/token] redeems. *)
Record redeemable (c : config) (a : t) (k : code) (verifier redirect : option string) : Prop := {
  r_fresh : now a - issued_at k <= code_ttl c;
  r_unused : single_use c = true -> used k = false;
  r_redirect : redirect_allowed c redirect;
  r_proof : demands c k = true -> proof_of k verifier }.

Lemma token_cases (c : config) (hex p : string) (v r : option string) (a : t) :
  (exists k, codes a !! p = Some k /\ redeemable c a k v r /\
     token c hex p v r a = (Answer 200 (Some ("access-token-" +:+ hex)), mk (<[p := set_used k]> (codes a)) (now a))) \/
  (~ (exists k, codes a !! p = Some k /\ redeemable c a k v r) /\
   (token c hex p v r a = (refuse, a) \/ token c hex p v r a = (AttributeError, a))).
Proof.
  unfold token. destruct (codes a !! p) as [k|] eqn:Ek; [|right; split; [by intros (k & ? & _)|by left]].
  assert (Hno : ~ redeemable c a k v r -> ~ (exists k', Some k = Some k' /\ redeemable c a k' v r))
    by (intros Hn (k' & [= <-] & H); done).
  destruct (Z.ltb_spec (code_ttl c) (now a - issued_at k)) as [Ht|Ht].
  { right. split; [|by left]. apply Hno. intros []. lia. }
  destruct (used k && single_use c) eqn:Eu.
  { right. split; [|by left]. apply Hno. intros []. apply andb_true_iff in Eu as [Eu Es]. rewrite r_unused0 in Eu; done. }
  pose proof (redirect_ok_spec c r) as Hr. destruct (_redirect_ok c registered_redirect r) as [[]|].
  2: { right. split; [|by left]. apply Hno. intros []. by apply Hr in r_redirect0. }
  2: { right. split; [|by right]. apply Hno. intros []. by apply Hr in r_redirect0. }
  pose proof (verified_spec k v) as Hv. destruct (demands c k && negb (verified k v)) eqn:Ed.
  { right. split; [|by left]. apply Hno. intros []. apply andb_true_iff in Ed as [Ed En].
    apply r_proof0, Hv in Ed. by rewrite Ed in En. }
  left. exists k. split; [done|]. split; [|done]. split; [lia| |by apply Hr|].
  - intros Es. rewrite Es, andb_true_r in Eu. done.
  - intros E. apply Hv. rewrite E in Ed. by destruct (verified k v).
Qed.

(** How many tokens the log has for a code. *)
Definition redeemed (p : string) (log : list (string * answer)) : Z :=
  zsum ((fun x => if String.eqb x.1 p then issued x.2 else 0) <$> log).

Definition drawn_codes (os : list op) : list string :=
  omap (fun o => match o with Authorize d _ _ _ _ => Some d | _ => None end) os.

(** Each code so far: redeemed as often as it is marked. *)
Definition accounted (ds : list string) (s : list (string * answer) * t) : Prop :=
  forall p, match codes s.2 !! p with
    | Some k => p ∈ ds /\ redeemed p s.1 = (if used k then 1 else 0)
    | None => redeemed p s.1 = 0
    end.

Lemma redeemed_cons (p q : string) (x : answer) (log : list (string * answer)) :
  redeemed p ((q, x) :: log) = (if String.eqb q p then issued x else 0) + redeemed p log.
Proof. unfold redeemed. by rewrite zsum_fmap_cons. Qed.

Lemma step_accounted (c : config) (o : op) (ds : list string) (s : list (string * answer) * t) :
  single_use c = true -> NoDup (ds ++ drawn_codes [o]) -> accounted ds s -> accounted (ds ++ drawn_codes [o]) (step c s o).
Proof.
  intros Hs Hnd H p. destruct s as [log a]. specialize (H p) as Hp. cbn [fst snd] in Hp.
  destruct o as [d u st ch m|h q v r|n]; cbn [step drawn_codes omap list_omap] in *.
  - cbn [authorize snd fst codes]. destruct (decide (d = p)) as [->|Hne].
    + rewrite lookup_insert_eq. split; [set_solver|].
      destruct (codes a !! p) as [k|]; [|exact Hp]. apply list.NoDup_app in Hnd as (_ & Hd & _). destruct Hp as [Hin _].
      destruct (Hd p Hin). set_solver.
    + rewrite lookup_insert_ne by done. destruct (codes a !! p); [|exact Hp].
      destruct Hp. split; [set_solver|done].
  - rewrite app_nil_r. destruct (token_cases c h q v r a) as [(k & Ek & Hk & ->)|[_ [->| ->]]]; cbn [fst snd];
      rewrite redeemed_cons.
    2,3: replace (if String.eqb q p then _ else 0) with 0 by (by destruct (String.eqb q p)); exact Hp.
    cbn [codes]. destruct (String.eqb_spec q p) as [->|Hne].
    + rewrite lookup_insert_eq, Ek in *. destruct Hp as [Hin Hc]. rewrite (r_unused _ _ _ _ _ Hk Hs) in Hc. split; [done|].
      rewrite Hc. done.
    + rewrite lookup_insert_ne by done. exact Hp.
  - rewrite app_nil_r. exact Hp.
Qed.

Lemma run_accounted (c : config) (os : list op) :
  single_use c = true -> NoDup (drawn_codes os) -> accounted (drawn_codes os) (run c os).
Proof.
  intros Hs. unfold run. induction os as [|o os IH] using rev_ind; intros Hnd; [intros p; cbn; by rewrite lookup_empty|].
  rewrite fold_left_app. cbn [fold_left]. unfold drawn_codes in *. rewrite omap_app in *. apply step_accounted; [done..|].
  apply IH. by apply list.NoDup_app in Hnd as [? _].
Qed.

(** ** Properties *)

(** C29: [/token] issues a token exactly when the code is known, not expired, not spent (under
    [single_use]), the redirect is allowed (equal to the registered one, or, under prefix
    matching, an extension of it), and, when the mode demands a verifier, the one presented
    is the proof of the challenge; it then marks the code.  In every other case it issues
    nothing and changes nothing; the only exception is a missing redirect under prefix
    matching. *)
Theorem token_sound_and_complete (c : config) (hex p : string) (v r : option string) (a : t) :
  let ok := exists k, codes a !! p = Some k /\ redeemable c a k v r in
  (issued (token c hex p v r a).1 = 1 <-> ok) /\
  (issued (token c hex p v r a).1 = 0 -> (token c hex p v r a).2 = a) /\
  (ok -> exists k, codes a !! p = Some k /\
     (token c hex p v r a).2 = mk (<[p := set_used k]> (codes a)) (now a)) /\
  ((token c hex p v r a).1 = AttributeError -> r = None /\ redirect_match c <> "exact"%string).
Proof.
  cbn zeta. destruct (token_cases c hex p v r a) as [(k & Ek & Hk & E)|[Hn E]].
  - rewrite E. cbn [fst snd]. assert (Hok : exists k, codes a !! p = Some k /\ redeemable c a k v r) by (by exists k).
    split_and!; [by split|by intros ?|intros _; by exists k|by intros ?].
  - split; [|split; [|split]].
    + split; [|by intros H]. destruct E as [-> | ->]; cbn; by intros ?.
    + intros _. by destruct E as [-> | ->].
    + by intros H.
    + revert E. unfold token. destruct (codes a !! p) as [k|]; [|by intros _ ?].
      destruct (_ <? _); [by intros _ ?|]. destruct (used k && single_use c); [by intros _ ?|].
      unfold _redirect_ok. destruct (String.eqb_spec (redirect_match c) "exact"); [|destruct r; cbn [fmap option_fmap option_map]].
      * destruct r as [r|]; [destruct (String.eqb r registered_redirect)|]; try (by intros _ ?).
        destruct (demands c k && negb (verified k v)); by intros _ ?.
      * destruct (String.prefix _ _); [|by intros _ ?]. destruct (demands c k && negb (verified k v)); by intros _ ?.
      * done.
Qed.

Lemma token_sound_and_complete_witness :
  (token (cfg "required") "00" "c" (Some "v") (Some cb) (authorize "c" cb "xyz" (Some "v") "plain" init).2).2 =
    mk {["c" := mkCode (Some "v") "plain" cb 0 true]} 0.
Proof.
  destruct (token_sound_and_complete (cfg "required") "00" "c" (Some "v") (Some cb)
    (authorize "c" cb "xyz" (Some "v") "plain" init).2) as (_ & _ & H & _).
  destruct H as (k & Ek & ->).
  - exists (mkCode (Some "v") "plain" cb 0 false). split; [reflexivity|].
    split; [cbn; lia|reflexivity|reflexivity|]. intros _. exists "v"%string. split_and!; [reflexivity|discriminate|reflexivity].
  - vm_compute in Ek. injection Ek as <-. vm_compute. reflexivity.
Defined.

(** C21: A single-use code buys one token: however calls of [/authorize] and [/token] and the
    clock are interleaved, as long as [secrets] does not draw a code twice, no code is
    redeemed more than once, and only a code that was drawn. *)
Theorem code_redeemed_once (c : config) (os : list op) (p : string) :
  single_use c = true -> NoDup (drawn_codes os) ->
  0 <= redeemed p (run c os).1 <= 1 /\ (redeemed p (run c os).1 = 1 -> p ∈ drawn_codes os).
Proof.
  intros Hs Hnd. pose proof (run_accounted c os Hs Hnd p) as H. destruct (codes (run c os).2 !! p) as [k|].
  - destruct H as [Hin ->]. destruct (used k); split; (lia || done).
  - rewrite H. split; [lia|done].
Qed.

Lemma code_redeemed_once_witness :
  redeemed "c" (run (cfg "off") [Authorize "c" cb "xyz" None "S256"; Token "00" "c" None (Some cb); Token "01" "c" None (Some cb)]).1 = 1 /\
  "c"%string ∈ ["c"%string].
Proof.
  split; [vm_compute; reflexivity|].
  refine (proj2 (code_redeemed_once (cfg "off")
    [Authorize "c" cb "xyz" None "S256"; Token "00" "c" None (Some cb); Token "01" "c" None (Some cb)] "c" eq_refl _) eq_refl).
  repeat constructor; set_solver.
Defined.

#[local] Opaque s256.

(** What each scenario issues, for every drawn code, verifier and guess: the two attacks on
    the code alone fail unless the guess has the same digest as the verifier; without PKCE
    the code is enough; a second use, an expired code and a foreign redirect under exact
    matching are refused, the last is not under prefix matching.  The downgrade succeeds in
    the mode that the scenario plays, and in the mode [required] too: no mode looks at the
    method. *)
Theorem scenarios_issue (d h h' v w : string) :
  v <> ""%string -> w <> ""%string ->
  happy d h v (cfg "required") = 1 /\
  replay_no_verifier d h v (cfg "required") = 0 /\
  replay_wrong_verifier d h v w (cfg "required") = (if String.eqb (s256 w) (s256 v) then 1 else 0) /\
  replay_no_pkce d h (cfg "off") = 1 /\
  downgrade_plain d h (cfg "optional") = 1 /\ downgrade_plain d h (cfg "required") = 1 /\
  code_reuse d h h' v (cfg "required") = 0 /\
  code_expiry d h v (cfg "required") = 0 /\
  redirect_prefix d h v (mkConfig "required" 60 true "prefix") = 1 /\
  redirect_prefix d h v (mkConfig "required" 60 true "exact") = 0.
Proof.
  intros Hv Hw. apply String.eqb_neq in Hv, Hw.
  unfold happy, replay_no_verifier, replay_wrong_verifier, replay_no_pkce, downgrade_plain, code_reuse, code_expiry,
    redirect_prefix, token, authorize, verified, truthy. cbn [codes now fst snd].
  split_and!; repeat progress (rewrite ?lookup_insert_eq, ?Hv, ?Hw, ?String.eqb_refl; cbn); try done.
  - by destruct (String.eqb (s256 w) (s256 v)).
  - change (60 <? 0 - 0) with false. cbn iota beta. cbn [codes now]. rewrite lookup_insert_eq. done.
Qed.

Lemma scenarios_issue_witness :
  replay_wrong_verifier "c" "00" "dBjftJeZ4CVP-mB92K27uhbUJU1p1r_wW1gFWFOEjXk" "guess" (cfg "required") = 0 /\
  s256 "dBjftJeZ4CVP-mB92K27uhbUJU1p1r_wW1gFWFOEjXk" = "E9Melhoa2OwvFrEMTJguCHaoeK1t8URWbuGJSstw-cM"%string.
Proof.
  split; [|vm_compute; reflexivity].
  rewrite (proj1 (proj2 (proj2 (scenarios_issue "c" "00" "01" "dBjftJeZ4CVP-mB92K27uhbUJU1p1r_wW1gFWFOEjXk" "guess"
    ltac:(discriminate) ltac:(discriminate))))).
  vm_compute. reflexivity.
Defined.
