(* ===== verification/Security.v ===== *)
(** * Security layer: tokens, rate limits and object access

    Models, of src/07-security: [_b64url], the reading of a payload and the revocation
    strategies of 04-jwt-and-revocation/python/jwt_demo.py; [naive_eq] and the rate limiters
    of 08-crypto-and-rate-limiting/python/crypto_ratelimit.py; the invoice store and its three
    handlers of 01-authn-authz-and-idor/python/idor_enumeration.py. *)

From Stdlib Require Import ZArith Lia String.
From stdpp Require Import base option list gmap sets strings numbers.
From S2P Require Import Prelude PyHash.

Open Scope Z_scope.

(** ** Definitions *)

Module Jwt.

Definition _b64url (b : list Z) : list Z := rstrip_pad (urlsafe_b64encode b).

(** [part_a], from the payload segment to the bytes that [json.loads] reads. *)
Definition read_payload (payload_seg : list Z) : option (list Z) :=
  urlsafe_b64decode (payload_seg ++ replicate (Z.to_nat (- Z.of_nat (List.length payload_seg) mod 4)) pad_char).

Inductive strategy : Type := plain | denylist | opaque_introspect.

Definition TTL_MS : Z := 2000.
Definition LOGOUT_AT : Z := 500.
Definition POLL_MS : Z := 50.

Record revocation : Type := mkRevocation { denied : bool; dead : bool }.

Definition me (s : strategy) (r : revocation) (now_ms : Z) : Z :=
  if TTL_MS <=? now_ms then 401
  else match s with
  | denylist => if denied r then 401 else 200
  | opaque_introspect => if dead r then 401 else 200
  | plain => 200
  end.

Definition logout (s : strategy) (r : revocation) : revocation :=
  match s with
  | denylist => mkRevocation true (dead r)
  | opaque_introspect => mkRevocation (denied r) true
  | plain => r
  end.

(** [range(LOGOUT_AT, TTL_MS + POLL_MS, POLL_MS)]. *)
Definition polls : list Z :=
  map (fun k => LOGOUT_AT + Z.of_nat k * POLL_MS) (seq 0 (Z.to_nat ((TTL_MS + POLL_MS - LOGOUT_AT + POLL_MS - 1) / POLL_MS))).

Definition latency (s : strategy) : Z :=
  let r := logout s (mkRevocation false false) in
  match List.find (fun now => me s r now =? 401) polls with
  | Some now => now - LOGOUT_AT
  | None => TTL_MS - LOGOUT_AT
  end.

End Jwt.

Module RateLimit.

Fixpoint naive_bytes (a b : list Z) : bool :=
  match a, b with
  | x :: a, y :: b => if negb (x =? y) then false else naive_bytes a b
  | _, _ => true
  end.

Definition naive_eq (a b : list Z) : bool :=
  if negb (Nat.eqb (List.length a) (List.length b)) then false else naive_bytes a b.

Definition LIST : Z := 1000.
Definition CORRECT_AT : Z := 500.
Definition CONFIGURED : Z := 10.

Inductive mode : Type := off | redis_token_bucket | inproc | ip_keyed.

Inductive key : Type := Account | Worker (w : Z) | Ip (ip : Z).

#[export] Instance key_eq_dec : EqDecision key.
Proof. solve_decision. Defined.

#[export] Program Instance key_countable : Countable key :=
  inj_countable' (fun k => match k with Account => inl () | Worker w => inr (inl w) | Ip i => inr (inr i) end)
    (fun x => match x with inl _ => Account | inr (inl w) => Worker w | inr (inr i) => Ip i end) _.
Next Obligation. by intros []. Qed.

Record state : Type := mkState { buckets : gmap key Z; allowed : Z; attempts_to_success : option Z }.

(** Which bucket an attempt takes from, if any. *)
Definition bucket_of (m : mode) (workers source_ips i : Z) : option key :=
  match m with
  | off => None
  | redis_token_bucket => Some Account
  | inproc => Some (Worker (i mod workers))
  | ip_keyed => Some (Ip (i mod source_ips))
  end.

Definition uses (m : mode) (workers source_ips : Z) (k : key) (i : Z) : bool :=
  bool_decide (bucket_of m workers source_ips i = Some k).

(** [setdefault], the test, and the token. *)
Definition take (capacity : Z) (k : key) (b : gmap key Z) : bool * gmap key Z :=
  let v := default capacity (b !! k) in
  if 0 <? v then (true, <[k := v - 1]> b) else (false, <[k := v]> b).

Definition attempt (m : mode) (capacity workers source_ips i : Z) (s : state) : state :=
  let '(permitted, b) :=
    match bucket_of m workers source_ips i with None => (true, buckets s) | Some k => take capacity k (buckets s) end in
  if permitted
  then mkState b (allowed s + 1) (if i =? CORRECT_AT then Some (allowed s + 1) else attempts_to_success s)
  else mkState b (allowed s) (attempts_to_success s).

(** [range(1, LIST + 1)]. *)
Definition attempts (n : Z) : list Z := map (fun k => 1 + Z.of_nat k) (seq 0 (Z.to_nat n)).

Definition run_list (m : mode) (capacity workers source_ips : Z) (l : list Z) : state :=
  fold_left (fun s i => attempt m capacity workers source_ips i s) l (mkState ∅ 0 None).

Definition run (m : mode) (workers source_ips : Z) : Z * option Z :=
  let s := run_list m CONFIGURED workers source_ips (attempts LIST) in (allowed s, attempts_to_success s).

End RateLimit.

Module Idor.

Definition N_INVOICES : Z := 1500.
Definition CALLER : Z := 1.
Definition N_REQUESTS : Z := 1000.

Record Invoice : Type := mkInvoice { id : Z; owner_id : Z; amount_cents : Z }.

Record store : Type := mkStore { _rows : gmap Z Invoice; _request_user : option Z }.

Definition seed : store :=
  mkStore (list_to_map (map (fun k => let i := 1 + Z.of_nat k in (i, mkInvoice i ((i - 1) mod 3 + 1) (i * 100)))
    (seq 0 (Z.to_nat N_INVOICES)))) None.

Definition get (invoice_id : Z) (s : store) : option Invoice := _rows s !! invoice_id.

Definition get_scoped (invoice_id owner : Z) (s : store) : option Invoice :=
  match _rows s !! invoice_id with
  | Some row => if owner_id row =? owner then Some row else None
  | None => None
  end.

Definition set_request_user (owner : Z) (s : store) : store := mkStore (_rows s) (Some owner).

Definition get_rls (invoice_id : Z) (s : store) : option Invoice :=
  match _rows s !! invoice_id, _request_user s with
  | Some row, Some u => if owner_id row =? u then Some row else None
  | _, _ => None
  end.

Definition respond (row : option Invoice) : Z * option Invoice :=
  match row with Some r => (200, Some r) | None => (404, None) end.

Definition handler : Type := Z -> Z -> store -> (Z * option Invoice) * store.

Definition handler_vulnerable : handler := fun caller i s => (respond (get i s), s).
Definition handler_fixed_query : handler := fun caller i s => (respond (get_scoped i caller s), s).
Definition handler_fixed_rls : handler := fun caller i s =>
  let s := set_request_user caller s in (respond (get_rls i s), s).

(** The ids of [n] requests. *)
Fixpoint enumeration_ids (n : nat) (x : Z) : list Z :=
  match n with
  | O => []
  | S n => let x := Z.land (1103515245 * x + 12345) 2147483647 in (1 + x mod N_INVOICES) :: enumeration_ids n x
  end.

Record counts : Type := mkCounts { leaked : Z; ok_own : Z; not_found : Z }.

Definition request (h : handler) (st : counts * store) (i : Z) : counts * store :=
  let '(c, s) := st in
  let '((status, row), s) := h CALLER i s in
  (if status =? 200
   then if negb (default 0 (owner_id <$> row) =? CALLER)
        then mkCounts (leaked c + 1) (ok_own c) (not_found c)
        else mkCounts (leaked c) (ok_own c + 1) (not_found c)
   else mkCounts (leaked c) (ok_own c) (not_found c + 1), s).

Definition run (h : handler) : counts * Z :=
  let '(c, s) := fold_left (request h) (enumeration_ids (Z.to_nat N_REQUESTS) 1) (mkCounts 0 0 0, seed) in
  (c, (h CALLER 2 s).1.1).

End Idor.

(** ** Lemmas *)

(** *** Rate limits *)

#[local] Arguments countb : simpl never.

Section limits.
Import RateLimit.
Context (m : mode) (capacity workers source_ips : Z).
Hypothesis limited : m <> off.
Hypothesis capacity_pos : 0 <= capacity.

Let bucket (i : Z) : option key := bucket_of m workers source_ips i.
Let uses (k : key) (i : Z) : bool := RateLimit.uses m workers source_ips k i.

(** After the attempts [l]. *)
Record metered (l : list Z) (s : state) : Prop := {
  m_buckets : forall k, buckets s !! k = if decide (0 < countb (uses k) l) then Some (Z.max 0 (capacity - countb (uses k) l)) else None;
  m_allowed : allowed s = map_sum ((fun v => capacity - v) <$> buckets s) }.

Lemma bucket_some (i : Z) : exists k, bucket i = Some k.
Proof using limited. unfold bucket, bucket_of. destruct m; [done|by eexists..]. Qed.

Lemma take_sum (k : key) (b : gmap key Z) :
  map_sum ((fun v => capacity - v) <$> (take capacity k b).2) =
    map_sum ((fun v => capacity - v) <$> b) + bit (take capacity k b).1.
Proof.
  unfold take. set (v := default capacity (b !! k)).
  assert (Hv : default 0 (((fun v => capacity - v) <$> b) !! k) = capacity - v)
    by (unfold v; rewrite lookup_fmap; destruct (b !! k); cbn; lia).
  destruct (0 <? v); cbn [fst snd bit]; rewrite fmap_insert, <- map_sum_add with (k := k), Hv; do 2 f_equal; lia.
Qed.

Lemma attempt_metered (l : list Z) (i : Z) (s : state) :
  metered l s -> metered (l ++ [i]) (attempt m capacity workers source_ips i s).
Proof using limited capacity_pos.
  intros [Hb Ha]. destruct (bucket_some i) as [k Hk]. unfold attempt. fold (bucket i). rewrite Hk.
  pose proof (take_sum k (buckets s)) as Hs. rewrite <- Ha in Hs.
  assert (Ht : (take capacity k (buckets s)).2 = <[k := Z.max 0 (capacity - (countb (uses k) l + 1))]> (buckets s)).
  { unfold take. rewrite Hb. pose proof (countb_nonneg (uses k) l). case_decide; cbn [default]; unfold id.
    - destruct (Z.ltb_spec 0 (Z.max 0 (capacity - countb (uses k) l))); cbn [snd]; f_equal; lia.
    - destruct (Z.ltb_spec 0 capacity); cbn [snd]; f_equal; lia. }
  assert (Hb' : forall k', (take capacity k (buckets s)).2 !! k' =
    if decide (0 < countb (uses k') (l ++ [i])) then Some (Z.max 0 (capacity - countb (uses k') (l ++ [i]))) else None).
  { intros k'. rewrite Ht, countb_snoc. assert (Hu : uses k' i = bool_decide (k = k'))
      by (unfold uses, RateLimit.uses; fold (bucket i); rewrite Hk; apply bool_decide_ext; split; [by intros [=]|by intros ->]).
    rewrite Hu. destruct (decide (k = k')) as [<-|Hne].
    - rewrite lookup_insert_eq, bool_decide_true by done. pose proof (countb_nonneg (uses k) l). rewrite decide_True by (cbn; lia). done.
    - rewrite lookup_insert_ne, Hb, bool_decide_false by congruence. cbn [bit]. by rewrite Z.add_0_r. }
  destruct (take capacity k (buckets s)) as [[] b]; cbn [fst snd bit] in *; split; cbn [buckets allowed]; try done; lia.
Qed.

Lemma run_metered (l : list Z) : metered l (run_list m capacity workers source_ips l).
Proof using limited capacity_pos.
  induction l as [|i l IH] using rev_ind.
  - split; [|done]. intros k. cbn. by rewrite lookup_empty.
  - unfold run_list. rewrite fold_left_app. by apply attempt_metered.
Qed.

(** The buckets that a run touches, and what each lets through. *)
Lemma run_per_bucket (l : list Z) :
  exists ks, NoDup ks /\ (forall k, k ∈ ks <-> exists i, i ∈ l /\ bucket i = Some k) /\
    allowed (run_list m capacity workers source_ips l) = zsum ((fun k => Z.min capacity (countb (uses k) l)) <$> ks).
Proof using limited capacity_pos.
  destruct (run_metered l) as [Hb Ha]. set (b := buckets _) in *. exists ((map_to_list b).*1).
  split; [apply NoDup_fst_map_to_list|]. split.
  - intros k. rewrite list_elem_of_fmap. split.
    + intros ([k' v] & -> & Hv%elem_of_map_to_list). rewrite Hb in Hv. case_decide as Hc; [|done].
      apply countb_witness in Hc as (i & Hi & Hu). exists i. split; [done|]. by apply bool_decide_eq_true in Hu.
    + intros (i & Hi & Hu). assert (Hc : 0 < countb (uses k) l).
      { apply list_elem_of_lookup in Hi as [j Hj]. pose proof (countb_pos (uses k) l j i Hj ltac:(by apply bool_decide_true)). lia. }
      exists (k, Z.max 0 (capacity - countb (uses k) l)). split; [done|]. apply elem_of_map_to_list. rewrite Hb.
      by rewrite decide_True.
  - rewrite Ha. unfold map_sum. rewrite map_to_list_fmap, <- !list_fmap_compose. f_equal. apply list_fmap_ext.
    intros j [k v] Hj%list_elem_of_lookup_2%elem_of_map_to_list. cbn. rewrite Hb in Hj. case_decide; [|done].
    injection Hj as <-. lia.
Qed.

End limits.

(** The comparison that stops early is still equality. *)
Lemma naive_eq_spec (a b : list Z) : RateLimit.naive_eq a b = true <-> a = b.
Proof.
  unfold RateLimit.naive_eq. destruct (Nat.eqb_spec (List.length a) (List.length b)) as [Hl|Hl]; cbn [negb];
    [|split; [done|by intros ->]].
  revert b Hl. induction a as [|x a IH]; intros [|y b] Hl; try done. cbn [RateLimit.naive_bytes].
  destruct (Z.eqb_spec x y) as [->|]; cbn [negb]; [|split; [done|by intros [=]]].
  rewrite IH by (simpl in Hl; lia). split; [by intros ->|by intros [=]].
Qed.

(** From logout to the first 401: a plain token lives out its time, one that is checked is
    refused at once. *)
Lemma revocation_latency : (Jwt.latency Jwt.plain, Jwt.latency Jwt.denylist, Jwt.latency Jwt.opaque_introspect) = (1500, 0, 0).
Proof. vm_compute. reflexivity. Qed.

(** *** Object access *)

Import Idor.

(** What a handler may answer about an invoice: the row, to its owner, or 404. *)
Lemma scoped_answer (caller i : Z) (s : store) :
  (handler_fixed_query caller i s).1 =
    respond (match _rows s !! i with Some row => if owner_id row =? caller then Some row else None | None => None end).
Proof. done. Qed.

Lemma rls_answer (caller i : Z) (s : store) : (handler_fixed_rls caller i s).1 = (handler_fixed_query caller i s).1.
Proof. unfold handler_fixed_rls, handler_fixed_query, get_rls, get_scoped. cbn. by destruct (_rows s !! i). Qed.

(** A run of a handler that only answers with the caller's rows leaks nothing. *)
Lemma no_leak (h : handler) (l : list Z) (c : counts) (s : store) :
  (forall i s row, (h CALLER i s).1 = (200, Some row) -> owner_id row = CALLER) ->
  (forall i s, (h CALLER i s).1 = (404, None) \/ exists row, (h CALLER i s).1 = (200, Some row)) ->
  leaked (fold_left (request h) l (c, s)).1 = leaked c.
Proof.
  intros Hown Hans. revert c s. induction l as [|i l IH]; intros c s; [done|]. cbn [fold_left request].
  specialize (Hown i s). destruct (Hans i s) as [E|[row E]]; destruct (h CALLER i s) as [r s']; cbn in E; subst r; cbn.
  - by rewrite IH.
  - rewrite (Hown row eq_refl), Z.eqb_refl. cbn. by rewrite IH.
Qed.

Lemma fixed_answers (caller i : Z) (s : store) (row : Invoice) :
  ((handler_fixed_query caller i s).1 = (200, Some row) <-> _rows s !! i = Some row /\ owner_id row = caller) /\
  ((handler_fixed_query caller i s).1 = (404, None) \/ exists row, (handler_fixed_query caller i s).1 = (200, Some row)).
Proof.
  rewrite scoped_answer. destruct (_rows s !! i) as [r|]; cbn; [|split; [split; [done|by intros [? _]]|by left]].
  destruct (Z.eqb_spec (owner_id r) caller); cbn; (split; [|by eauto]); (split; [intros [=]|intros [[= ->] ?]]); by subst.
Qed.

(** ** Properties *)

(** Signing hides nothing: the payload segment of a token, with the padding put back as
    [part_a] does, decodes to the bytes that were encoded, for every payload; no key is
    involved. *)
Theorem payload_needs_no_key (claims : list Z) :
  Forall is_byte claims -> Jwt.read_payload (Jwt._b64url claims) = Some claims.
Proof. apply b64_round_trip. Qed.

Lemma payload_needs_no_key_witness :
  Jwt.read_payload (encode_str "YWxpY2U") = Some (encode_str "alice").
Proof. exact (payload_needs_no_key (encode_str "alice") (encode_bytes "alice")). Defined.

(** What a limiter lets through: of the attempts that share a bucket, the capacity or all of
    them, whichever is less, in whatever order they come.  So a list of a thousand gets ten
    through a shared bucket, forty through four workers that count apart, and half of it,
    with the password, through a limit for each of fifty addresses. *)
Theorem limit_per_bucket (m : RateLimit.mode) (capacity workers source_ips : Z) (l : list Z) :
  m <> RateLimit.off -> 0 <= capacity ->
  (exists ks, NoDup ks /\
    (forall k, k ∈ ks <-> exists i, i ∈ l /\ RateLimit.bucket_of m workers source_ips i = Some k) /\
    RateLimit.allowed (RateLimit.run_list m capacity workers source_ips l) =
      zsum ((fun k => Z.min capacity (countb (RateLimit.uses m workers source_ips k) l)) <$> ks)) /\
  RateLimit.run RateLimit.off 1 1 = (1000, Some 500) /\
  RateLimit.run RateLimit.redis_token_bucket 1 1 = (10, None) /\
  RateLimit.run RateLimit.inproc 1 1 = (10, None) /\
  RateLimit.run RateLimit.inproc 4 1 = (40, None) /\
  RateLimit.run RateLimit.ip_keyed 1 50 = (500, Some 500).
Proof.
  intros Hm Hc. split; [by apply run_per_bucket|]. split_and!; vm_compute; reflexivity.
Qed.

Lemma limit_per_bucket_witness :
  exists ks, NoDup ks /\
    (forall k, k ∈ ks <-> exists i, i ∈ [1; 2; 3] /\ RateLimit.bucket_of RateLimit.inproc 2 1 i = Some k) /\
    2 = zsum ((fun k => Z.min 1 (countb (RateLimit.uses RateLimit.inproc 2 1 k) [1; 2; 3])) <$> ks).
Proof. exact (proj1 (limit_per_bucket RateLimit.inproc 1 2 1 [1; 2; 3] ltac:(discriminate) ltac:(lia))). Defined.

(** The two fixes are the same to a caller, whatever the store and whoever asked before: an
    invoice is returned to its owner, and everybody else gets the answer of an id that does
    not exist.  So neither leaks a row in the enumeration, and the lookup by id leaks 672
    of 1000. *)
Theorem fixed_handlers_agree (caller i : Z) (s : store) (row : Invoice) :
  (handler_fixed_rls caller i s).1 = (handler_fixed_query caller i s).1 /\
  ((handler_fixed_query caller i s).1 = (200, Some row) <-> _rows s !! i = Some row /\ owner_id row = caller) /\
  ((handler_fixed_query caller i s).1 = (404, None) \/ exists row, (handler_fixed_query caller i s).1 = (200, Some row)) /\
  leaked (run handler_fixed_query).1 = 0 /\ leaked (run handler_fixed_rls).1 = 0 /\
  run handler_vulnerable = (mkCounts 672 328 0, 200).
Proof.
  destruct (fixed_answers caller i s row) as [H1 H2]. split_and!; [apply rls_answer|exact H1|exact H2| | |vm_compute; reflexivity].
  - unfold run. pose proof (no_leak handler_fixed_query (enumeration_ids (Z.to_nat N_REQUESTS) 1) (mkCounts 0 0 0) seed) as H.
    destruct (fold_left _ _ _) as [c s']. apply H.
    + intros j s0 r E. by apply (proj1 (fixed_answers CALLER j s0 r)) in E as [_ ?].
    + intros j s0. apply (fixed_answers CALLER j s0 row).
  - unfold run. pose proof (no_leak handler_fixed_rls (enumeration_ids (Z.to_nat N_REQUESTS) 1) (mkCounts 0 0 0) seed) as H.
    destruct (fold_left _ _ _) as [c s']. apply H.
    + intros j s0 r E. rewrite rls_answer in E. by apply (proj1 (fixed_answers CALLER j s0 r)) in E as [_ ?].
    + intros j s0. rewrite rls_answer. apply (fixed_answers CALLER j s0 row).
Qed.
