(* ===== verification/RetryStorm.v ===== *)
(** * Failure layer: retries in a chain

    Models src/05-failure/03-retries-that-dont-become-the-outage/python/retry_storm.py: the
    retry budget, the leaf, [with_retries], the chain of three hops, and the requests that
    [run_variant] starts; not its reporting, and not [synchronised_cohort].

    A request is a coroutine in the sense of [PyAsync]; the hops are numbered from the
    gateway, and the timer of a hop's [wait_for] has its number.  When requests arrive, which
    one the loop resumes, and how its [await] ends, are inputs. *)

From Stdlib Require Import ZArith Lia.
From stdpp Require Import base option list numbers.
From S2P Require Import Prelude PyFloat PyWorld TokenBucket PyAsync.

Open Scope Z_scope.

(** ** Definitions *)

Definition FAULT_ON : float := of_Z 5.
Definition FAULT_OFF : float := of_Z 12.
Definition ATTEMPTS : nat := 3.
Definition BASE_BACKOFF : float := lit 50 1000.
Definition BACKOFF_CAP : float := lit 400 1000.
Definition ATTEMPT_TIMEOUT : float := lit 300 1000.
Definition REQUEST_BUDGET : float := lit 1500 1000.
Definition LEAF_POOL : Z := 8.
Definition BUDGET_RATIO : float := lit 10 100.
Definition BUDGET_MIN_TOKENS : float := of_Z 3.

Module RetryBudget.

Record t : Type := mk { ratio : float; floor : float; tokens : float; denied : Z }.

Definition init : t := mk BUDGET_RATIO BUDGET_MIN_TOKENS BUDGET_MIN_TOKENS 0.

Definition topped_up (ratio floor tokens : float) : float := fmin (fadd tokens ratio) (fadd floor (of_Z 100)).

Definition deposit (b : t) : t := mk (ratio b) (floor b) (topped_up (ratio b) (floor b) (tokens b)) (denied b).

Definition withdraw (b : t) : bool * t :=
  match bucket_take (tokens b) with
  | (true, tokens) => (true, mk (ratio b) (floor b) tokens (denied b))
  | (false, tokens) => (false, mk (ratio b) (floor b) tokens (denied b + 1))
  end.

End RetryBudget.

(** The exceptions; [Cancelled h]: a [CancelledError] on its way to the [wait_for] of hop
    [h]. *)
Inductive exn : Type := Unavailable | NonRetryable | TimeoutError | Cancelled (h : nat).

(** What the requests share: the counters, the leaf, a budget for each hop. *)
Record world : Type := mkWorld {
  leaf_received : Z;
  ok : Z;
  failed : Z;
  retries : Z;
  budget_denied : Z;
  sem : Semaphore.t;
  faulty : bool;
  budgets : list (option RetryBudget.t);
}.

Definition set_sem (s : Semaphore.t) (w : world) : world :=
  mkWorld (leaf_received w) (ok w) (failed w) (retries w) (budget_denied w) s (faulty w) (budgets w).
Definition set_faulty (b : bool) (w : world) : world :=
  mkWorld (leaf_received w) (ok w) (failed w) (retries w) (budget_denied w) (sem w) b (budgets w).
Definition set_budgets (l : list (option RetryBudget.t)) (w : world) : world :=
  mkWorld (leaf_received w) (ok w) (failed w) (retries w) (budget_denied w) (sem w) (faulty w) l.
Definition add_retries (n d : Z) (w : world) : world :=
  mkWorld (leaf_received w) (ok w) (failed w) (retries w + n) (budget_denied w + d) (sem w) (faulty w) (budgets w).
Definition add_received (w : world) : world :=
  mkWorld (leaf_received w + 1) (ok w) (failed w) (retries w) (budget_denied w) (sem w) (faulty w) (budgets w).
Definition add_done (a b : Z) (w : world) : world :=
  mkWorld (leaf_received w) (ok w + a) (failed w + b) (retries w) (budget_denied w) (sem w) (faulty w) (budgets w).

(** [if budget is not None and not budget.withdraw()]: denied, or one more retry.  There are
    three hops. *)
Definition spend (h : nat) (w : world) : bool * world :=
  match budgets w !! h with
  | Some None => (true, add_retries 1 0 w)
  | Some (Some b) =>
      match RetryBudget.withdraw b with
      | (true, b) => (true, add_retries 1 0 (set_budgets (<[h := Some b]> (budgets w)) w))
      | (false, b) => (false, add_retries 0 1 (set_budgets (<[h := Some b]> (budgets w)) w))
      end
  | None => (false, w)
  end.

Definition deposit (h : nat) (w : world) : world :=
  match budgets w !! h with
  | Some (Some b) => set_budgets (<[h := Some (RetryBudget.deposit b)]> (budgets w)) w
  | _ => w
  end.

Inductive action : Type :=
| Received | Enters | Granted | Leaves | Releases
| Spends (h : nat) | Deposits (h : nat)
| Succeeds | Fails.

Definition exec (a : action) (w : world) : world :=
  match a with
  | Received => add_received w
  | Enters => set_sem (if Semaphore.locked (sem w) then Semaphore.wait (sem w) else Semaphore.take (sem w)) w
  | Granted => set_sem (Semaphore.granted (sem w)) w
  | Leaves => set_sem (Semaphore.leave (sem w)) w
  | Releases => set_sem (Semaphore.release (sem w)) w
  | Spends h => (spend h w).2
  | Deposits h => deposit h w
  | Succeeds => add_done 1 0 w
  | Fails => add_done 0 1 w
  end.

Definition coroutine : Type := proc world action (res exn unit).

(** An [await] inside the [wait_for]s of the hops below [d]. *)
Definition await_in (d : nat) (ready : world -> bool) (k : option exn -> coroutine) : coroutine :=
  PyAsync.await_in d ready (fun h => k (Cancelled <$> h)).

Definition finished (e : option exn) : coroutine := Ret (match e with None => Ok tt | Some e => Err e end).

(** [Leaf.call]. *)
Definition serve : coroutine := await_in 3 (fun _ => true) (fun e => Do Releases (fun _ => finished e)).

Definition call : coroutine :=
  Do Received (fun w =>
    if faulty w then Ret (Err Unavailable)
    else Do Enters (fun w =>
      if Semaphore.locked (sem w)
      then await_in 3 (fun w => 0 <? Semaphore.value (sem w)) (fun e =>
        match e with None => Do Granted (fun _ => serve) | Some e => Do Leaves (fun _ => Ret (Err e)) end)
      else serve)).

(** [asyncio.wait_for] of hop [h]: with no time left the coroutine is never started. *)
Definition wait_for (h : nat) (remaining : float) (p : coroutine) : coroutine :=
  if fleb remaining (of_Z 0)
  then await_in h (fun _ => true) (fun e => Ret (Err (match e with None => TimeoutError | Some e => e end)))
  else r ← p;
    Ret (match r with Err (Cancelled h') => if (h' =? h)%nat then Err TimeoutError else r | r => r end).

Section with_retries.
Context (h : nat) (budgeted jitter : bool) (deadline : float) (p : coroutine).

(** The [try], and what follows from it. *)
Definition attempt (again : coroutine) : coroutine :=
  Clock (fun t =>
    if fleb deadline t then Ret (Err Unavailable)
    else Clock (fun t =>
      r ← wait_for h (fmin ATTEMPT_TIMEOUT (fsub deadline t)) p;
      match r with
      | Ok _ => if budgeted then Do (Deposits h) (fun _ => Ret r) else Ret r
      | Err Unavailable | Err TimeoutError => again
      | Err _ => Ret r
      end)).

(** From the second attempt on, of [n] that are left. *)
Fixpoint retry (n : nat) (delay : float) : coroutine :=
  match n with
  | O => Ret (Err Unavailable)
  | S n =>
      Do (Spends h) (fun w =>
        if (spend h w).1
        then
          let backoff (k : float -> coroutine) : coroutine :=
            if jitter then Uniform (of_Z 0) (fmin BACKOFF_CAP delay) k else k (fmin BACKOFF_CAP delay) in
          backoff (fun sleep_for =>
            Clock (fun t =>
              if fltb deadline (fadd t sleep_for) then Ret (Err Unavailable)
              else await_in h (fun _ => true) (fun e =>
                match e with
                | None => attempt (retry n (fmul delay (of_Z 2)))
                | Some e => Ret (Err e)
                end)))
        else Ret (Err Unavailable))
  end.

Definition with_retries : coroutine := attempt (retry (ATTEMPTS - 1) BASE_BACKOFF).

End with_retries.

(** *** The chain *)

Record variant : Type := mkVariant { jitter : bool; budgeted : bool; edge_only : bool }.

Definition service_c (v : variant) (deadline : float) : coroutine :=
  r ← with_retries 2 (budgeted v) (jitter v) deadline call;
  Ret (match r with Err Unavailable => if edge_only v then Err NonRetryable else r | r => r end).

Definition service_b (v : variant) (deadline : float) : coroutine :=
  with_retries 1 (budgeted v) (jitter v) deadline (service_c v deadline).

Definition gateway (v : variant) : coroutine :=
  Clock (fun t =>
    let deadline := fadd t REQUEST_BUDGET in
    r ← with_retries 0 (budgeted v) (jitter v) deadline (service_b v deadline);
    match r with
    | Ok _ => Do Succeeds (fun _ => Ret (Ok tt))
    | Err (Cancelled _) => Ret r
    | Err _ => Do Fails (fun _ => Ret (Ok tt))
    end).

(** *** A run *)

(** [Arrives t]: a request arrives [t] seconds into the run; its task starts later. *)
Inductive event : Type :=
| Arrives (t : float)
| Wakes (i : nat) (s : signal) (readings : list float).

Record state : Type := mkState { shared : world; tasks : list coroutine; trace : list action }.

Definition in_fault (t : float) : bool := fleb FAULT_ON t && fltb t FAULT_OFF.

Definition step (v : variant) (e : event) (s : state) : state :=
  match e with
  | Arrives t =>
      mkState (set_faulty (in_fault t) (shared s))
        (tasks s ++ [await_in 0 (fun _ => true) (fun _ => gateway v)]) (trace s)
  | Wakes i g o =>
      match tasks s !! i with
      | None => s
      | Some p => let '(p, w, tr) := wake exec p g (shared s) o (trace s) in mkState w (<[i := p]> (tasks s)) tr
      end
  end.

Definition start (v : variant) : state :=
  mkState (mkWorld 0 0 0 0 0 (Semaphore.init LEAF_POOL) false
    (replicate 3 (if budgeted v then Some RetryBudget.init else None))) [] [].

Definition run_variant (v : variant) (es : list event) : state := fold_left (fun s e => step v e s) es (start v).

(** ** Lemmas *)

(** The calls that the leaf has received; if [net], less the retries that were allowed. *)
Definition calls (net : bool) (w : world) : Z := leaf_received w - if net then retries w else 0.

Lemma spend_calls (net : bool) (h : nat) (w : world) :
  calls net (exec (Spends h) w) = calls net w - bit (net && (spend h w).1).
Proof.
  cbn [exec]. unfold spend, calls. destruct (budgets w !! h) as [[b|]|]; [destruct (RetryBudget.withdraw b) as [[] b']| |];
    destruct net; cbn; lia.
Qed.

Definition is_spend (a : action) : bool := match a with Spends _ => true | _ => false end.
Definition is_received (a : action) : bool := match a with Received => true | _ => false end.

Lemma exec_calls (net : bool) (a : action) (w : world) :
  is_spend a = false -> calls net (exec a w) = calls net w + bit (is_received a).
Proof.
  destruct a as [| | | | |h|h| |]; intros Ha; try discriminate Ha; unfold calls; cbn; try lia.
  unfold deposit. destruct (budgets w !! h) as [[b|]|]; cbn; lia.
Qed.

Section amplification.
Context (net : bool) (okS : signal -> Prop).

#[local] Notation within n Q p := (bounded okS exec (calls net) n Q p).

Lemma do_bounded (n : Z) (Q : Z -> res exn unit -> Prop) (a : action) (k : world -> coroutine) :
  is_spend a = false -> (forall w, within (n - bit (is_received a)) Q (k w)) -> within n Q (Do a k).
Proof.
  intros Ha H w. specialize (H w). rewrite (exec_calls net a w Ha).
  replace (n - (calls net w + bit (is_received a) - calls net w)) with (n - bit (is_received a)) by lia. exact H.
Qed.

Lemma spend_bounded (n : Z) (Q : Z -> res exn unit -> Prop) (h : nat) (k : world -> coroutine) :
  (forall w, within (n + bit (net && (spend h w).1)) Q (k w)) -> within n Q (Do (Spends h) k).
Proof.
  intros H w. specialize (H w). rewrite (spend_calls net h w).
  replace (n - (calls net w - bit (net && (spend h w).1) - calls net w)) with (n + bit (net && (spend h w).1)) by lia. exact H.
Qed.

Lemma await_bounded (n : Z) (Q : Z -> res exn unit -> Prop) (d : nat) (ready : world -> bool) (k : option exn -> coroutine) :
  0 <= n -> within n Q (k None) -> (forall h, okS (Expires h) -> within n Q (k (Some (Cancelled h)))) ->
  within n Q (await_in d ready k).
Proof. intros Hn H0 H1. apply await_in_bounded; [exact Hn|exact H0|]. intros h Hh _. by apply H1. Qed.

(** Without expired timers, the leaf serves or is unavailable. *)
Definition plain (r : res exn unit) : Prop :=
  r = Ok tt \/ r = Err Unavailable \/ exists h, r = Err (Cancelled h) /\ okS (Expires h).

Lemma serve_bounded : within 0 (fun _ => plain) serve.
Proof.
  apply await_bounded; [lia| |intros h Hh]; apply do_bounded; try done; intros w; (split; [cbn; lia|]); [by left|].
  right. right. by exists h.
Qed.

Lemma call_bounded : within 1 (fun _ => plain) call.
Proof.
  apply do_bounded; [done|]. intros w. change (1 - bit (is_received Received)) with 0.
  destruct (faulty w); [split; [lia|by right; left]|]. apply do_bounded; [done|]. intros w'.
  change (0 - bit (is_received Enters)) with 0.
  destruct (Semaphore.locked (sem w')); [|apply serve_bounded]. apply await_bounded; [lia| |intros h Hh].
  - apply do_bounded; [done|]. intros _. apply serve_bounded.
  - apply do_bounded; [done|]. intros _. split; [cbn; lia|]. right. right. by exists h.
Qed.

(** The results that a hop can pass on. *)
Context (P : res exn unit -> Prop).
Hypothesis P_unavailable : P (Err Unavailable).
Hypothesis P_cancelled : forall h, okS (Expires h) -> P (Err (Cancelled h)).

Lemma wait_for_bounded (n m : Z) (h : nat) (remaining : float) (p : coroutine) :
  0 <= n -> 0 <= m -> within n (fun _ => P) p ->
  within (n + m) (fun k r => m <= k /\ (P r \/ r = Err TimeoutError)) (wait_for h remaining p).
Proof using P_cancelled.
  intros Hn Hm Hp. unfold wait_for. destruct (fleb remaining (of_Z 0)).
  - apply await_bounded; [lia| |]; cbn.
    + split; [lia|]. split; [lia|by right].
    + intros h' Hh. split; [lia|]. split; [lia|left; by apply P_cancelled].
  - eapply bounded_bind with (Q := fun k r => m <= k /\ P r).
    + eapply bounded_frame; [lia| |exact Hp]. cbn. intros k r ? ?. split; [lia|done].
    + intros k r Hk [Hmk Hr]. split; [lia|]. split; [lia|].
      destruct r as [[]|[| | |h']]; try (by left). destruct (h' =? h)%nat; [by right|by left].
Qed.

Lemma attempt_bounded (n m : Z) (h : nat) (bd : bool) (deadline : float) (p again : coroutine) :
  0 <= n -> 0 <= m -> within n (fun _ => P) p -> within m (fun _ => P) again ->
  within (n + m) (fun _ => P) (attempt h bd deadline p again).
Proof using P_unavailable P_cancelled.
  intros Hn Hm Hp Ha t. destruct (fleb deadline t); [split; [lia|done]|]. intros t'.
  eapply bounded_bind; [by apply wait_for_bounded|]. intros k r Hk [Hmk Hr].
  assert (Hag : within k (fun _ => P) again).
  { replace k with (m + (k - m)) by lia. eapply bounded_frame; [lia| |exact Ha]. done. }
  destruct r as [[]|[| | |h']]; [|exact Hag| |exact Hag|]; (destruct Hr as [Hr|]; [|done]).
  - destruct bd; [|by split]. apply do_bounded; [done|]. intros w. split; [cbn; lia|done].
  - by split.
  - by split.
Qed.

(** The sleep and the attempt that follow a retry that was allowed. *)
Lemma backoff_bounded (n : Z) (h : nat) (jt : bool) (deadline delay : float) (next : coroutine) :
  0 <= n -> within n (fun _ => P) next ->
  within n (fun _ => P)
    ((if jt then Uniform (of_Z 0) (fmin BACKOFF_CAP delay) else fun k => k (fmin BACKOFF_CAP delay))
      (fun sleep_for => Clock (fun t => if fltb deadline (fadd t sleep_for) then Ret (Err Unavailable)
        else await_in h (fun _ => true) (fun e => match e with None => next | Some e => Ret (Err e) end)))).
Proof using P_unavailable P_cancelled.
  intros Hn Hp. assert (Hb : forall sleep_for, within n (fun _ => P)
    (Clock (fun t => if fltb deadline (fadd t sleep_for) then Ret (Err Unavailable)
        else await_in h (fun _ => true) (fun e => match e with None => next | Some e => Ret (Err e) end)))).
  { intros sl t. destruct (fltb deadline (fadd t sl)); [by split|]. apply await_bounded; [exact Hn|exact Hp|].
    intros h' Hh. split; [exact Hn|by apply P_cancelled]. }
  destruct jt; [intros x; apply Hb|apply Hb].
Qed.

Lemma retry_bounded (n : Z) (h : nat) (bd jt : bool) (deadline : float) (p : coroutine) (k : nat) (delay : float) :
  bit net <= n -> within n (fun _ => P) p ->
  within (Z.of_nat k * (n - bit net)) (fun _ => P) (retry h bd jt deadline p k delay).
Proof using P_unavailable P_cancelled.
  intros Hn Hp. assert (Hb : 0 <= bit net) by (destruct net; cbn; lia). revert delay.
  induction k as [|k IH]; intros delay; cbn [retry]; [split; [lia|done]|].
  assert (H0 : 0 <= Z.of_nat (S k) * (n - bit net)) by (apply Z.mul_nonneg_nonneg; lia).
  assert (H1 : 0 <= Z.of_nat k * (n - bit net)) by (apply Z.mul_nonneg_nonneg; lia).
  apply spend_bounded. intros w. destruct (spend h w).1.
  - rewrite andb_true_r. assert (Ha : within (n + Z.of_nat k * (n - bit net)) (fun _ => P)
      (attempt h bd deadline p (retry h bd jt deadline p k (fmul delay (of_Z 2)))))
      by (apply attempt_bounded; [lia|lia|exact Hp|apply IH]).
    replace (Z.of_nat (S k) * (n - bit net) + bit net) with (n + Z.of_nat k * (n - bit net)) by lia.
    pose proof (backoff_bounded (n + Z.of_nat k * (n - bit net)) h jt deadline delay _ ltac:(lia) Ha) as H. by destruct jt.
  - split; [destruct net; cbn in *; lia|done].
Qed.

(** A hop multiplies what is below it by its attempts; net of the retries, it does not. *)
Lemma with_retries_bounded (n : Z) (h : nat) (bd jt : bool) (deadline : float) (p : coroutine) :
  bit net <= n -> within n (fun _ => P) p ->
  within (n + 2 * (n - bit net)) (fun _ => P) (with_retries h bd jt deadline p).
Proof using P_unavailable P_cancelled.
  intros Hn Hp. assert (Hb : 0 <= bit net) by (destruct net; cbn; lia).
  apply attempt_bounded; [lia|apply Z.mul_nonneg_nonneg; lia|exact Hp|]. by apply (retry_bounded n h bd jt deadline p 2).
Qed.

End amplification.

#[local] Notation within net okS n Q p := (bounded okS exec (calls net) n Q p).

(** Whatever the signals: 27 calls, and one that no retry paid for. *)
Definition any : signal -> Prop := fun _ => True.

Lemma gateway_bounded (net : bool) (v : variant) :
  within net any (if net then 1 else 27) (fun _ _ => True) (gateway v).
Proof.
  set (b n := if net then 1 else n). assert (Hb : forall n, 1 <= n -> bit net <= b n /\ b n + 2 * (b n - bit net) = b (3 * n))
    by (intros n; unfold b; destruct net; cbn; lia).
  assert (Hr : forall n h deadline p, 1 <= n -> within net any (b n) (fun _ _ => True) p ->
    within net any (b (3 * n)) (fun _ _ => True) (with_retries h (budgeted v) (jitter v) deadline p)).
  { intros n h deadline p H1 Hp. destruct (Hb n H1) as [H2 <-]. by apply (with_retries_bounded net any (fun _ => True) I (fun _ _ => I)). }
  intros t. cbv zeta. eapply (bounded_bind _ _ _ (b 27)).
  - apply (Hr 9 0%nat); [lia|]. apply (Hr 3 1%nat); [lia|]. eapply (bounded_bind _ _ _ (b 3)); [|intros k r Hk _; by split].
    apply (Hr 1 2%nat); [lia|]. replace (b 1) with 1 by (by destruct net). eapply bounded_post; [|apply call_bounded]. done.
  - intros k r Hk _. destruct r as [[]|[| | |h]]; try (by split); apply do_bounded; try done; intros w; split; cbn; lia || done.
Qed.

(** No timer expires. *)
Definition quiet (s : signal) : Prop := s = Resumes.

(** A hop that gives up has not touched the leaf: with [n] calls to spend, they are left. *)
Definition settled (n k : Z) (r : res exn unit) : Prop :=
  (r = Err Unavailable -> n <= k) /\ r <> Err TimeoutError /\ forall h, r <> Err (Cancelled h).

Lemma settled_more (n k m : Z) (r : res exn unit) : 0 <= m -> settled n k r -> settled n (k + m) r.
Proof. intros Hm (H & ? & ?). split_and!; [intros E; specialize (H E); lia|done..]. Qed.

Lemma wait_for_settled (n : Z) (h : nat) (remaining : float) (p : coroutine) :
  0 <= n -> within false quiet n (settled n) p ->
  within false quiet n (fun k r => settled n k r \/ (r = Err TimeoutError /\ n <= k)) (wait_for h remaining p).
Proof.
  intros Hn Hp. unfold wait_for. destruct (fleb remaining (of_Z 0)).
  - apply await_bounded; [lia| |by intros ? ?]. split; [lia|]. by right.
  - eapply bounded_bind; [exact Hp|]. intros k r Hk Hr. split; [lia|]. left.
    destruct r as [[]|[| | |h']]; try exact Hr. destruct Hr as (_ & _ & Hr). by destruct (Hr h').
Qed.

Lemma attempt_settled (n : Z) (h : nat) (bd : bool) (deadline : float) (p again : coroutine) :
  0 <= n -> within false quiet n (settled n) p -> within false quiet n (settled n) again ->
  within false quiet n (settled n) (attempt h bd deadline p again).
Proof.
  intros Hn Hp Ha t. destruct (fleb deadline t); [by split|]. intros t'.
  eapply bounded_bind; [by apply wait_for_settled|]. intros k r Hk Hr.
  assert (Hag : n <= k -> within false quiet k (settled n) again).
  { intros Hle. replace k with (n + (k - n)) by lia. eapply bounded_frame; [lia| |exact Ha].
    intros j r' _ Hj. apply settled_more; [lia|exact Hj]. }
  destruct r as [[]|[| | |h']].
  - destruct Hr as [Hr|[? _]]; [|done]. destruct bd; [|by split]. apply do_bounded; [done|]. intros w. cbn. rewrite Z.sub_0_r. by split.
  - apply Hag. destruct Hr as [[Hr _]|[? _]]; [by apply Hr|done].
  - destruct Hr as [Hr|[? _]]; [|done]. by split.
  - apply Hag. destruct Hr as [(_ & Hr & _)|[_ Hr]]; [done|exact Hr].
  - destruct Hr as [(_ & _ & Hr)|[? _]]; [by destruct (Hr h')|done].
Qed.

Lemma retry_settled (n : Z) (h : nat) (bd jt : bool) (deadline : float) (p : coroutine) (k : nat) (delay : float) :
  0 <= n -> within false quiet n (settled n) p -> within false quiet n (settled n) (retry h bd jt deadline p k delay).
Proof.
  intros Hn Hp. revert delay. induction k as [|k IH]; intros delay; cbn [retry]; [by split|].
  apply spend_bounded. intros w. cbn [andb bit]. rewrite Z.add_0_r. destruct (spend h w).1; [|by split].
  assert (Hb : forall sleep_for, within false quiet n (settled n)
    (Clock (fun t => if fltb deadline (fadd t sleep_for) then Ret (Err Unavailable)
      else await_in h (fun _ => true) (fun e => match e with
        | None => attempt h bd deadline p (retry h bd jt deadline p k (fmul delay (of_Z 2))) | Some e => Ret (Err e) end)))).
  { intros sl t. destruct (fltb deadline (fadd t sl)); [by split|]. apply await_bounded; [exact Hn| |by intros ? ?].
    apply attempt_settled; [lia|exact Hp|apply IH]. }
  destruct jt; [intros x; apply Hb|apply Hb].
Qed.

Lemma with_retries_settled (n : Z) (h : nat) (bd jt : bool) (deadline : float) (p : coroutine) :
  0 <= n -> within false quiet n (settled n) p ->
  within false quiet n (settled n) (with_retries h bd jt deadline p).
Proof. intros Hn Hp. apply attempt_settled; [lia|exact Hp|]. by apply retry_settled. Qed.

Lemma gateway_edge (v : variant) : edge_only v = true -> within false quiet 3 (fun _ _ => True) (gateway v).
Proof.
  intros He t. set (deadline := fadd t REQUEST_BUDGET).
  assert (Hc : within false quiet 3 (settled 3) (service_c v deadline)).
  { eapply (bounded_bind _ _ _ 3 (fun _ r => r = Ok tt \/ r = Err Unavailable)).
    - apply (with_retries_bounded false quiet (fun r => r = Ok tt \/ r = Err Unavailable) (or_intror eq_refl)
        (fun h (H : quiet (Expires h)) => ltac:(discriminate H)) 1); [cbn; lia|].
      eapply bounded_post; [|apply call_bounded]. intros k r _ [?|[?|(h & _ & ?)]]; [by left|by right|done].
    - intros k r Hk [-> | ->]; [|rewrite He]; split; done || lia. }
  eapply (bounded_bind _ _ _ 3).
  - apply (with_retries_settled 3); [lia|]. apply with_retries_settled; [lia|exact Hc].
  - intros k r Hk _. destruct r as [[]|[| | |h]]; try (by split); apply do_bounded; try done; intros w; split; cbn; lia || done.
Qed.

(** *** All requests together *)

Section requests.
Context (v : variant) (net : bool) (okS : signal -> Prop) (n : Z).
Hypothesis n_pos : 0 <= n.
Hypothesis each : within net okS n (fun _ _ => True) (gateway v).

Definition allowed (e : event) : Prop := match e with Wakes _ g _ => okS g | Arrives _ => True end.

Lemma step_spent (e : event) (s : state) :
  allowed e -> all_bounded okS exec (calls net) n (shared s) (tasks s) ->
  all_bounded okS exec (calls net) n (shared (step v e s)) (tasks (step v e s)).
Proof using n_pos each.
  intros He Hs. destruct e as [t|i g o]; cbn [step].
  - apply (all_bounded_spawn _ _ _ n (shared s)); [exact n_pos|unfold calls; cbn; lia| |exact Hs]. split; [exact n_pos|]. intros w [|h] _ _; exact each.
  - destruct (tasks s !! i) as [p|] eqn:Ei; [|exact Hs].
    pose proof (all_bounded_wake okS exec (calls net) n (shared s) (tasks s) i p g o (trace s) He Ei Hs) as Hb.
    by destruct (wake exec p g (shared s) o (trace s)) as [[p' w'] tr'].
Qed.

Lemma run_amplification (es : list event) :
  Forall allowed es -> calls net (shared (run_variant v es)) <= n * Z.of_nat (length (tasks (run_variant v es))).
Proof using n_pos each.
  intros Ha. apply (all_bounded_measure okS exec). unfold run_variant.
  assert (H0 : all_bounded okS exec (calls net) n (shared (start v)) (tasks (start v)))
    by (exists []; cbn; split; [apply List.Forall2_nil|destruct net; unfold calls, zsum; simpl; lia]).
  revert H0 Ha. generalize (start v). induction es as [|e es IH]; intros s Hs Ha; [exact Hs|].
  apply List.Forall_cons_iff in Ha as [He Ha]. cbn [fold_left]. apply IH; [|exact Ha]. by apply step_spent.
Qed.

End requests.

(** *** The budgets *)

Definition tokens_k (b : option RetryBudget.t) : Z :=
  match b with Some b => match RetryBudget.tokens b with Fin t => t | _ => 0 end | None => 0 end.
Definition denied_of (b : option RetryBudget.t) : Z := match b with Some b => RetryBudget.denied b | None => 0 end.

(** A budget in range. *)
Definition sound (b : option RetryBudget.t) : Prop :=
  exists t d, b = Some (RetryBudget.mk BUDGET_RATIO BUDGET_MIN_TOKENS (Fin t) d) /\ wf (Fin t) /\ 0 <= t <= 103 * unit_k.

Definition is_deposit (a : action) : bool := match a with Deposits _ => true | _ => false end.

(** What has been retried was in the buckets at the start or was deposited since. *)
Record funded (w : world) (tr : list action) : Prop := {
  f_each : Forall sound (budgets w);
  f_sum : retries w * unit_k + zsum (tokens_k <$> budgets w) <= 9 * unit_k + countb is_deposit tr * (tenth_k + slop);
  f_denied : budget_denied w = zsum (denied_of <$> budgets w) }.

Lemma sound_intro (t d : Z) :
  wf (Fin t) -> 0 <= t <= 103 * unit_k -> sound (Some (RetryBudget.mk BUDGET_RATIO BUDGET_MIN_TOKENS (Fin t) d)).
Proof. intros Hw Hr. exists t, d. exact (conj eq_refl (conj Hw Hr)). Qed.

Lemma withdraw_sound (b : RetryBudget.t) :
  sound (Some b) -> let '(granted, b') := RetryBudget.withdraw b in
  sound (Some b') /\ tokens_k (Some b') = tokens_k (Some b) - (if granted then unit_k else 0) /\
  denied_of (Some b') = denied_of (Some b) + if granted then 0 else 1.
Proof.
  intros (t & d & [= ->] & Hw & Hr). unfold RetryBudget.withdraw. cbn [RetryBudget.tokens RetryBudget.ratio RetryBudget.floor RetryBudget.denied].
  destruct (bucket_take_step 103 t) as (t' & E & Hw' & Hr' & Et); [lia|done..|]. rewrite E.
  destruct (unit_k <=? t); cbn [tokens_k denied_of RetryBudget.tokens RetryBudget.denied]; (split; [apply sound_intro; assumption|split; lia]).
Qed.

Lemma topped_up_eq (t : Z) :
  wf (Fin t) -> 0 <= t <= 103 * unit_k ->
  exists t', RetryBudget.topped_up BUDGET_RATIO BUDGET_MIN_TOKENS (Fin t) = Fin t' /\ wf (Fin t') /\ 0 <= t' <= 103 * unit_k /\
    t' <= t + tenth_k + slop.
Proof.
  intros Hw Ht. destruct (tenth_deposit t Hw Ht) as (t' & E & H). exists t'. split; [|exact H].
  assert (Ec : fadd BUDGET_MIN_TOKENS (of_Z 100) = of_Z 103) by (vm_compute; reflexivity).
  unfold RetryBudget.topped_up. rewrite Ec. exact E.
Qed.

Lemma deposit_sound (b : RetryBudget.t) :
  sound (Some b) ->
  sound (Some (RetryBudget.deposit b)) /\ tokens_k (Some (RetryBudget.deposit b)) <= tokens_k (Some b) + (tenth_k + slop) /\
  denied_of (Some (RetryBudget.deposit b)) = denied_of (Some b).
Proof.
  intros (t & d & [= ->] & Hw & Hr). unfold RetryBudget.deposit. cbn [RetryBudget.tokens RetryBudget.ratio RetryBudget.floor RetryBudget.denied].
  destruct (topped_up_eq t Hw Hr) as (t' & E & Hw' & Hr' & Hle). rewrite E.
  cbn [tokens_k denied_of RetryBudget.tokens RetryBudget.denied]. split; [apply sound_intro; assumption|split; [lia|reflexivity]].
Qed.

(** One budget of the three changes. *)
Lemma replace_funded (l : list (option RetryBudget.t)) (h : nat) (b b' : RetryBudget.t) :
  l !! h = Some (Some b) -> Forall sound l -> sound (Some b') ->
  Forall sound (<[h := Some b']> l) /\
  zsum (tokens_k <$> <[h := Some b']> l) = zsum (tokens_k <$> l) - tokens_k (Some b) + tokens_k (Some b') /\
  zsum (denied_of <$> <[h := Some b']> l) = zsum (denied_of <$> l) - denied_of (Some b) + denied_of (Some b').
Proof. intros Eb Hl Hb. split; [by apply Forall_insert|]. split; by apply zsum_insert. Qed.

Lemma exec_funded (a : action) (w : world) (tr : list action) : funded w tr -> funded (exec a w) (a :: tr).
Proof.
  intros [He Hs Hd].
  assert (Hcp : countb is_deposit (a :: tr) = bit (is_deposit a) + countb is_deposit tr) by apply countb_cons.
  assert (Hp : 0 < tenth_k + slop).
  { destruct tenth_near as (_ & ? & _). assert (0 < slop) by (unfold slop; apply Z.pow_pos_nonneg; lia). lia. }
  assert (Hsame : retries (exec a w) = retries w -> budgets (exec a w) = budgets w -> budget_denied (exec a w) = budget_denied w ->
    funded (exec a w) (a :: tr)).
  { intros E1 E2 E3. split; rewrite ?E1, ?E2, ?E3, ?Hcp; [exact He| |exact Hd]. destruct (is_deposit a); cbn [bit]; lia. }
  assert (Hsnd : forall h b, budgets w !! h = Some (Some b) -> sound (Some b)) by (intros h b Eb; by apply (Forall_lookup_1 _ _ _ _ He Eb)).
  destruct a as [| | | | |h|h| |]; [exact (Hsame eq_refl eq_refl eq_refl)..| | |exact (Hsame eq_refl eq_refl eq_refl)|exact (Hsame eq_refl eq_refl eq_refl)];
    cbn [exec] in *.
  - unfold spend in *. destruct (budgets w !! h) as [[b|]|] eqn:Eb; [| |exact (Hsame eq_refl eq_refl eq_refl)].
    + pose proof (withdraw_sound b (Hsnd h b Eb)) as Hb. destruct (RetryBudget.withdraw b) as [g b'].
      destruct Hb as (Hb & Et & Ed). destruct (replace_funded _ _ _ _ Eb He Hb) as (H1 & H2 & H3).
      destruct g; split; rewrite ?Hcp; cbn [snd retries budgets budget_denied add_retries set_budgets is_deposit bit]; try exact H1; lia.
    + destruct (Forall_lookup_1 _ _ _ _ He Eb) as (t & d & ? & _). done.
  - unfold deposit in *. destruct (budgets w !! h) as [[b|]|] eqn:Eb; [|exact (Hsame eq_refl eq_refl eq_refl)..].
    destruct (deposit_sound b (Hsnd h b Eb)) as (Hb & Et & Ed). destruct (replace_funded _ _ _ _ Eb He Hb) as (H1 & H2 & H3).
    split; rewrite ?Hcp; cbn [retries budgets budget_denied set_budgets is_deposit bit]; try exact H1; lia.
Qed.

Lemma run_funded (v : variant) (es : list event) :
  budgeted v = true -> funded (shared (run_variant v es)) (trace (run_variant v es)).
Proof.
  intros Hv. assert (H0 : funded (shared (start v)) (trace (start v))).
  { unfold start. rewrite Hv. assert (Hs : sound (Some RetryBudget.init)).
    { assert (Ei : RetryBudget.init = RetryBudget.mk BUDGET_RATIO BUDGET_MIN_TOKENS (Fin (3 * unit_k)) 0)
        by (unfold RetryBudget.init; f_equal; vm_compute; reflexivity).
      rewrite Ei. apply sound_intro; [by apply of_Z_wf_small|pose proof unit_k_pos; lia]. }
    split; cbn [shared trace budgets retries budget_denied]; [by repeat constructor| |done].
    assert (Et : tokens_k (Some RetryBudget.init) = 3 * unit_k) by (vm_compute; reflexivity).
    cbn [replicate fmap list_fmap]. rewrite Et. unfold countb, zsum. cbn [foldr fmap list_fmap]. lia. }
  unfold run_variant. revert H0. generalize (start v). induction es as [|e es IH]; intros s Hs; [exact Hs|].
  cbn [fold_left]. apply IH. destruct e as [t|i g o]; cbn [step].
  - destruct Hs. by split.
  - destruct (tasks s !! i) as [p|]; [|exact Hs].
    pose proof (wake_invariant exec funded exec_funded p g (shared s) o (trace s) Hs) as H.
    by destruct (wake exec p g (shared s) o (trace s)) as [[p' w'] tr'].
Qed.

(** ** Properties *)

(** A request of variant D while the fault ends: twice refused, then the leaf is slow and
    the gateway's timer expires, and so again; its third attempt is served. *)
Definition slow_leaf : list event :=
  let ms t := lit t 1000 in
  [Arrives (ms 11900); Wakes 0 Resumes [ms 0; ms 0; ms 0; ms 0; ms 0; ms 0; ms 0; ms 20; ms 0];
   Wakes 0 Resumes [ms 20; ms 20; ms 50; ms 20]; Arrives (ms 12000);
   Wakes 0 Resumes [ms 70; ms 70]; Wakes 0 (Expires 0) [ms 30; ms 300];
   Wakes 0 Resumes (replicate 6 (ms 330)); Wakes 0 (Expires 0) [ms 30; ms 630];
   Wakes 0 Resumes (replicate 6 (ms 660)); Wakes 0 Resumes []].

(** C6: Amplification: in every variant and every interleaving, the leaf receives at most 27
    calls for a request, and at most one that no retry paid for; when only the hop next to
    the leaf retries, at most three, as long as no attempt times out: a timeout is retried
    by the hops above all the same, and one request can then reach the leaf five times. *)
Theorem amplification_bounded (v : variant) (es : list event) :
  let s := run_variant v es in
  let n := Z.of_nat (length (tasks s)) in
  leaf_received (shared s) <= 27 * n /\
  leaf_received (shared s) <= n + retries (shared s) /\
  (edge_only v = true -> Forall (allowed quiet) es -> leaf_received (shared s) <= 3 * n) /\
  leaf_received (shared (run_variant (mkVariant true false true) slow_leaf)) = 5.
Proof.
  cbn zeta. assert (Hall : Forall (allowed any) es) by (apply Forall_true; intros []; exact I). split_and!.
  - pose proof (run_amplification v false any 27 ltac:(lia) (gateway_bounded false v) es Hall). unfold calls in *. lia.
  - pose proof (run_amplification v true any 1 ltac:(lia) (gateway_bounded true v) es Hall). unfold calls in *. lia.
  - intros He Hq. pose proof (run_amplification v false quiet 3 ltac:(lia) (gateway_edge v He) es Hq). unfold calls in *. lia.
  - vm_compute. reflexivity.
Qed.

(** C17: The budget is a bound and not a delay: with a bucket at every hop, all requests together
    retry at most nine times, and eleven times for every hundred attempts that succeeded;
    so the leaf receives no more than that above one call for each request.  What was denied
    is what the three buckets denied. *)
Theorem budget_bounds_the_storm (v : variant) (es : list event) :
  budgeted v = true ->
  let s := run_variant v es in
  let deposits := countb is_deposit (trace s) in
  100 * retries (shared s) <= 900 + 11 * deposits /\
  100 * leaf_received (shared s) <= 100 * Z.of_nat (length (tasks s)) + 900 + 11 * deposits /\
  budget_denied (shared s) = zsum (denied_of <$> budgets (shared s)).
Proof.
  intros Hv. cbn zeta. destruct (run_funded v es Hv) as [He Hs Hd].
  assert (Hall : Forall (allowed any) es) by (apply Forall_true; intros []; exact I).
  pose proof (run_amplification v true any 1 ltac:(lia) (gateway_bounded true v) es Hall) as Hn. unfold calls in Hn.
  set (s := run_variant v es) in *. clearbody s. set (d := countb is_deposit (trace s)) in *.
  assert (Hd0 : 0 <= d) by apply countb_nonneg. clearbody d.
  assert (Ht : 0 <= zsum (tokens_k <$> budgets (shared s))).
  { clear Hs Hd. induction He as [|b l (t & k & -> & _ & Ht) _ IH]; [done|]. rewrite zsum_fmap_cons.
    cbn [tokens_k RetryBudget.tokens]. lia. }
  assert (Hr : 100 * retries (shared s) <= 900 + 11 * d); [|split_and!; [exact Hr|lia|exact Hd]].
  assert (Hk : 100 * (tenth_k + slop) <= 11 * unit_k).
  { destruct tenth_near as (_ & _ & H). clear -H. generalize dependent tenth_k. intros k Hk. unfold slop.
    assert (2 ^ 1027 = 64 * 2 ^ 1021) by reflexivity. assert (unit_k = 9007199254740992 * 2 ^ 1021) by reflexivity.
    pose proof (Z.pow_pos_nonneg 2 1021). lia. }
  pose proof unit_k_pos. clear -Hs Ht Hk Hd0 H. revert Hs Ht Hk H. generalize unit_k, (tenth_k + slop), (zsum (tokens_k <$> budgets (shared s))), (retries (shared s)).
  intros u c z r Hs Ht Hk Hu. assert (100 * (d * c) <= 11 * (d * u)) by nia. nia.
Qed.

Lemma budget_bounds_the_storm_witness :
  100 * retries (shared (run_variant (mkVariant true true false) slow_leaf)) <=
    900 + 11 * countb is_deposit (trace (run_variant (mkVariant true true false) slow_leaf)) /\
  0 < retries (shared (run_variant (mkVariant true true false) slow_leaf)).
Proof.
  split; [exact (proj1 (budget_bounds_the_storm (mkVariant true true false) slow_leaf eq_refl))|vm_compute; reflexivity].
Defined.
