(* ===== verification/DeadlineChain.v ===== *)
(** * Failure layer: deadlines through a chain

    Models src/05-failure/02-timeout-budgets-and-deadline-propagation/python/deadline_chain.py:
    the three hops, the database with its pool, and the requests that [run_variant] starts;
    not the sampled gauge and the report.

    A request is a coroutine in the sense of [PyAsync]; the [wait_for] of the gateway has the
    timer 0 and that of service B the timer 1.  A query is a task of its own, which outlives
    its request: a [place] in the state that the requests share. *)

From Stdlib Require Import ZArith Lia.
From stdpp Require Import base option list numbers.
From S2P Require Import Prelude PyFloat PyAsync.

Open Scope Z_scope.

(** ** Definitions *)

Definition GATEWAY_BUDGET : float := lit 500 1000.
Definition SLACK : float := lit 20 1000.
Definition C_SERVICE_FAST : float := lit 40 1000.
Definition C_SERVICE_SLOW : float := lit 800 1000.
Definition C_POOL_SIZE : Z := 8.

Record metrics : Type := mkMetrics {
  gateway_ok : Z;
  gateway_timeout : Z;
  gateway_rejected : Z;
  c_started : Z;
  c_completed : Z;
  c_zombie : Z;
  c_killed : Z;
  c_abandoned : Z;
  c_latencies : list float;
}.

Inductive verdict : Type := Ran | Abandoned | Killed.

(** A query: created, waiting for a connection, sleeping on one (since when, for how long,
    and whether the statement timeout ends it), returned, or accounted for (and whether as a
    zombie). *)
Inductive place : Type :=
| Created
| Queued
| Sleeping (since sleeps : float) (killed : bool)
| Returned (v : verdict)
| Accounted (v : verdict) (zombie : bool).

Record query : Type := mkQuery {
  duration : float;
  deadline : option float;
  stmt_timeout : bool;
  started : float;
  gateway_deadline : float;
  at_ : place;
}.

Record world : Type := mkWorld { m : metrics; sem : Semaphore.t; in_use : Z; queries : list query }.

Definition on_metrics (f : metrics -> metrics) (w : world) : world := mkWorld (f (m w)) (sem w) (in_use w) (queries w).
Definition set_sem (s : Semaphore.t) (w : world) : world := mkWorld (m w) s (in_use w) (queries w).
Definition add_in_use (n : Z) (w : world) : world := mkWorld (m w) (sem w) (in_use w + n) (queries w).

Definition answered (k : metrics) : metrics :=
  mkMetrics (gateway_ok k + 1) (gateway_timeout k) (gateway_rejected k) (c_started k) (c_completed k) (c_zombie k) (c_killed k)
    (c_abandoned k) (c_latencies k).
Definition timed_out (k : metrics) : metrics :=
  mkMetrics (gateway_ok k) (gateway_timeout k + 1) (gateway_rejected k) (c_started k) (c_completed k) (c_zombie k) (c_killed k)
    (c_abandoned k) (c_latencies k).
Definition start_query (k : metrics) : metrics :=
  mkMetrics (gateway_ok k) (gateway_timeout k) (gateway_rejected k) (c_started k + 1) (c_completed k) (c_zombie k) (c_killed k)
    (c_abandoned k) (c_latencies k).
Definition complete (zombie : bool) (latency : float) (k : metrics) : metrics :=
  mkMetrics (gateway_ok k) (gateway_timeout k) (gateway_rejected k) (c_started k) (c_completed k + 1)
    (c_zombie k + if zombie then 1 else 0) (c_killed k) (c_abandoned k) (c_latencies k ++ [latency]).
Definition kill (k : metrics) : metrics :=
  mkMetrics (gateway_ok k) (gateway_timeout k) (gateway_rejected k) (c_started k) (c_completed k) (c_zombie k) (c_killed k + 1)
    (c_abandoned k) (c_latencies k).
Definition give_back (k : metrics) : metrics :=
  mkMetrics (gateway_ok k) (gateway_timeout k) (gateway_rejected k) (c_started k) (c_completed k) (c_zombie k) (c_killed k)
    (c_abandoned k + 1) (c_latencies k).

(** *** The database *)

(** [stmt]: what is left of the deadline, less the slack. *)
Definition stmt (now : float) (q : query) : option float :=
  match deadline q with
  | Some d => if stmt_timeout q then Some (fmax (of_Z 0) (fsub (fsub d now) SLACK)) else None
  | None => None
  end.

Definition out_of_budget (now : float) (q : query) : bool :=
  match deadline q with Some d => fltb (fsub d now) SLACK | None => false end.

(** Inside [async with self.sem], up to the sleep. *)
Definition checked_out (now : float) (q : query) (w : world) : place * world :=
  if out_of_budget now q
  then (Returned Abandoned, set_sem (Semaphore.release (sem w)) (on_metrics give_back w))
  else
    let w := add_in_use 1 w in
    match stmt now q with
    | Some s => if fleb (duration q) s then (Sleeping now (duration q) false, w) else (Sleeping now s true, w)
    | None => (Sleeping now (duration q) false, w)
    end.

(** [Database.query] and the callback [account], from one await to the next. *)
Definition resume (now : float) (q : query) (w : world) : place * world :=
  match at_ q with
  | Created =>
      if Semaphore.locked (sem w) then (Queued, set_sem (Semaphore.wait (sem w)) w)
      else checked_out now q (set_sem (Semaphore.take (sem w)) w)
  | Queued =>
      if 0 <? Semaphore.value (sem w) then checked_out now q (set_sem (Semaphore.granted (sem w)) w) else (Queued, w)
  | Sleeping _ _ killed =>
      (Returned (if killed then Killed else Ran),
       set_sem (Semaphore.release (sem w)) (add_in_use (-1) (if killed then on_metrics kill w else w)))
  | Returned v =>
      let zombie := fltb (gateway_deadline q) now in
      (Accounted v zombie, on_metrics (complete zombie (fsub now (started q))) w)
  | Accounted v z => (Accounted v z, w)
  end.

Definition move (p : place) (q : query) : query :=
  mkQuery (duration q) (deadline q) (stmt_timeout q) (started q) (gateway_deadline q) p.

Definition query_runs (j : nat) (now : float) (w : world) : world :=
  match queries w !! j with
  | None => w
  | Some q => let '(p, w) := resume now q w in mkWorld (m w) (sem w) (in_use w) (<[j := move p q]> (queries w))
  end.

Definition is_done (j : nat) (w : world) : bool :=
  match queries w !! j with Some q => match at_ q with Accounted _ _ => true | _ => false end | None => false end.

(** *** The hops *)

Inductive exn : Type := TimeoutError | Cancelled (h : nat).

Inductive action : Type :=
| Starts (duration : float) (deadline : option float) (stmt_timeout : bool) (started gateway_deadline : float)
| Answers
| TimesOut.

Definition exec (a : action) (w : world) : world :=
  match a with
  | Starts du de st t g => mkWorld (start_query (m w)) (sem w) (in_use w) (queries w ++ [mkQuery du de st t g Created])
  | Answers => on_metrics answered w
  | TimesOut => on_metrics timed_out w
  end.

Definition coroutine : Type := proc world action (res exn unit).

Record variant : Type := mkVariant { propagate : bool; use_statement_timeout : bool }.

(** [await] of something that returns nothing, and then [k]. *)
Definition await_then (d : nat) (ready : world -> bool) (k : coroutine) : coroutine :=
  await_in d ready (fun e => match e with None => k | Some h => Ret (Err (Cancelled h)) end).

(** [asyncio.wait_for]: with no time left the coroutine is never started. *)
Definition wait_for (h : nat) (timeout : float) (p : coroutine) : coroutine :=
  if fleb timeout (of_Z 0) then await_then h (fun _ => true) (Ret (Err TimeoutError))
  else r ← p;
    Ret (match r with Err (Cancelled h') => if (h' =? h)%nat then Err TimeoutError else r | r => r end).

(** [if remaining() < SLACK: raise TimeoutError], under [propagate]. *)
Definition refuse_late (v : variant) (d : float) (k : coroutine) : coroutine :=
  if propagate v then Clock (fun t => if fltb (fsub d t) SLACK then Ret (Err TimeoutError) else k) else k.

Definition service_c (v : variant) (slow : bool) (d : float) : coroutine :=
  refuse_late v d (await_then 2 (fun _ => true) (Clock (fun t =>
    Do (Starts (if slow then C_SERVICE_SLOW else C_SERVICE_FAST) (if propagate v then Some d else None)
          (use_statement_timeout v) t d)
      (fun w => await_then 2 (is_done (length (queries w))) (Ret (Ok tt)))))).

Definition service_b (v : variant) (slow : bool) (d : float) : coroutine :=
  refuse_late v d (await_then 1 (fun _ => true)
    (if propagate v then Clock (fun t => wait_for 1 (fmax (of_Z 0) (fsub (fsub d t) SLACK)) (service_c v slow d))
     else wait_for 1 GATEWAY_BUDGET (service_c v slow d))).

Definition gateway (v : variant) (slow : bool) : coroutine :=
  Clock (fun t =>
    let d := fadd t GATEWAY_BUDGET in
    r ← wait_for 0 GATEWAY_BUDGET (service_b v slow d);
    match r with
    | Ok _ => Do Answers (fun _ => Ret (Ok tt))
    | Err TimeoutError => Do TimesOut (fun _ => Ret (Ok tt))
    | Err (Cancelled _) => Ret r
    end).

(** *** A run *)

Inductive event : Type :=
| Arrives (slow : bool)
| Wakes (i : nat) (s : signal) (readings : list float)
| QueryRuns (j : nat) (now : float).

Record state : Type := mkState { shared : world; tasks : list coroutine }.

Definition step (v : variant) (e : event) (s : state) : state :=
  match e with
  | Arrives slow => mkState (shared s) (tasks s ++ [await_in 0 (fun _ => true) (fun _ => gateway v slow)])
  | Wakes i g o =>
      match tasks s !! i with
      | None => s
      | Some p => let '(p, w, _) := wake exec p g (shared s) o [] in mkState w (<[i := p]> (tasks s))
      end
  | QueryRuns j now => mkState (query_runs j now (shared s)) (tasks s)
  end.

Definition start : state := mkState (mkWorld (mkMetrics 0 0 0 0 0 0 0 0 []) (Semaphore.init C_POOL_SIZE) 0 []) [].

Definition run_variant (v : variant) (es : list event) : state := fold_left (fun s e => step v e s) es start.

(** ** Lemmas *)

Definition is_queued (q : query) : bool := match at_ q with Queued => true | _ => false end.
Definition is_sleeping (q : query) : bool := match at_ q with Sleeping _ _ _ => true | _ => false end.
Definition is_accounted (q : query) : bool := match at_ q with Accounted _ _ => true | _ => false end.
Definition is_zombie (q : query) : bool := match at_ q with Accounted _ z => z | _ => false end.
Definition was_killed (q : query) : bool := match at_ q with Returned Killed | Accounted Killed _ => true | _ => false end.
Definition was_abandoned (q : query) : bool :=
  match at_ q with Returned Abandoned | Accounted Abandoned _ => true | _ => false end.

(** A connection in use is a query that sleeps; the counters count queries. *)
Record books (w : world) : Prop := {
  b_value : 0 <= Semaphore.value (sem w);
  b_pool : Semaphore.value (sem w) + in_use w = C_POOL_SIZE;
  b_in_use : in_use w = countb is_sleeping (queries w);
  b_waiters : Semaphore.waiters (sem w) = countb is_queued (queries w);
  b_started : c_started (m w) = Z.of_nat (length (queries w));
  b_completed : c_completed (m w) = countb is_accounted (queries w);
  b_latencies : Z.of_nat (length (c_latencies (m w))) = c_completed (m w);
  b_zombie : c_zombie (m w) = countb is_zombie (queries w);
  b_killed : c_killed (m w) = countb was_killed (queries w);
  b_abandoned : c_abandoned (m w) = countb was_abandoned (queries w);
  b_rejected : gateway_rejected (m w) = 0 }.

#[local] Arguments countb : simpl never.

Lemma exec_books (a : action) (w : world) : books w -> books (exec a w).
Proof.
  intros []. destruct a; [|by constructor..]. constructor; cbn [exec sem in_use m queries start_query c_started c_completed c_zombie
    c_killed c_abandoned c_latencies gateway_rejected]; rewrite ?countb_snoc, ?length_app; cbn; lia.
Qed.

(** The books of a state in which a query [q] has moved to [p]. *)
#[local] Ltac close_books Ej Ep :=
  constructor; cbn -[Z.add Z.sub C_POOL_SIZE]; rewrite ?(countb_insert _ _ _ _ _ Ej), ?length_insert, ?length_app;
  unfold is_queued, is_sleeping, is_accounted, is_zombie, was_killed, was_abandoned in *; rewrite ?Ep; cbn -[Z.add Z.sub C_POOL_SIZE];
  lia.

Lemma query_runs_books (j : nat) (now : float) (w : world) : books w -> books (query_runs j now w).
Proof.
  intros H. unfold query_runs. destruct (queries w !! j) as [q|] eqn:Ej; [|exact H]. unfold resume.
  assert (Hck : forall s, at_ q = Created \/ at_ q = Queued -> 0 < Semaphore.value (sem w) -> Semaphore.value s = Semaphore.value (sem w) - 1 ->
    Semaphore.waiters s = Semaphore.waiters (sem w) - (if is_queued q then 1 else 0) ->
    books (let '(p, w) := checked_out now q (set_sem s w) in mkWorld (m w) (sem w) (in_use w) (<[j := move p q]> (queries w)))).
  { intros s Hp Hv Es Ew. destruct H. unfold checked_out.
    destruct Hp as [Ep|Ep]; unfold is_queued in Ew; rewrite Ep in Ew;
      (destruct (out_of_budget now q); [|destruct (stmt now q) as [st|]; [destruct (fleb (duration q) st)|]]); close_books Ej Ep. }
  destruct (at_ q) as [| |since sleeps killed|vd|vd z] eqn:Ep.
  - unfold Semaphore.locked. destruct (Z.eqb_spec (Semaphore.value (sem w)) 0); cbn [orb]; [destruct H; close_books Ej Ep|].
    destruct (0 <? Semaphore.waiters (sem w)); [destruct H; close_books Ej Ep|].
    apply Hck; [by left|destruct H; lia|done|unfold is_queued; rewrite Ep; cbn; lia].
  - destruct (Z.ltb_spec 0 (Semaphore.value (sem w))); [|destruct H; close_books Ej Ep].
    apply Hck; [by right|done|done|unfold is_queued; by rewrite Ep].
  - destruct H. destruct killed; close_books Ej Ep.
  - destruct H. destruct vd, (fltb (gateway_deadline q) now); close_books Ej Ep.
  - destruct H. destruct vd, z; close_books Ej Ep.
Qed.

(** What a request adds to a measure to which an action [a] adds [cost a]. *)
Section adds.
Context (v : variant) (measure : world -> Z) (cost : action -> Z) (ns na : Z).
Hypothesis exec_cost : forall a w, measure (exec a w) = measure w + cost a.
Hypothesis ns_pos : 0 <= ns.
Hypothesis na_pos : 0 <= na.
Hypothesis cost_starts : forall (slow : bool) t d,
  cost (Starts (if slow then C_SERVICE_SLOW else C_SERVICE_FAST) (if propagate v then Some d else None) (use_statement_timeout v) t d) = ns.
Hypothesis cost_answers : cost Answers = na.
Hypothesis cost_times_out : cost TimesOut = na.

Definition any (_ : signal) : Prop := True.

#[local] Notation adds n Q p := (bounded any exec measure n Q p).

Lemma do_adds (n : Z) (Q : Z -> res exn unit -> Prop) (a : action) (k : world -> coroutine) :
  (forall w, adds (n - cost a) Q (k w)) -> adds n Q (Do a k).
Proof using exec_cost.
  intros H w. specialize (H w). rewrite exec_cost. replace (n - (measure w + cost a - measure w)) with (n - cost a) by lia. exact H.
Qed.

Lemma if_adds (b : bool) (n : Z) (Q : Z -> res exn unit -> Prop) (p q : coroutine) : adds n Q p -> adds n Q q -> adds n Q (if b then p else q).
Proof using Type. by destruct b. Qed.

Lemma await_then_adds (n : Z) (Q : Z -> res exn unit -> Prop) (d : nat) (ready : world -> bool) (k : coroutine) :
  0 <= n -> adds n Q k -> (forall h, Q n (Err (Cancelled h))) -> adds n Q (await_then d ready k).
Proof. intros Hn Hk HQ. apply await_in_bounded; [exact Hn|exact Hk|]. intros h _ _. by split. Qed.

Lemma wait_for_adds (h : nat) (timeout : float) (p : coroutine) :
  adds ns (fun _ _ => True) p -> adds ns (fun _ _ => True) (wait_for h timeout p).
Proof using ns_pos.
  intros Hp. unfold wait_for. destruct (fleb timeout (of_Z 0)); [by apply await_then_adds|].
  eapply bounded_bind; [exact Hp|]. intros k r Hk _. by split.
Qed.

Lemma refuse_late_adds (d : float) (p : coroutine) :
  adds ns (fun _ _ => True) p -> adds ns (fun _ _ => True) (refuse_late v d p).
Proof using ns_pos.
  intros Hp. apply if_adds; [|exact Hp]. intros t. by apply if_adds.
Qed.

Lemma service_c_adds (slow : bool) (d : float) : adds ns (fun _ _ => True) (service_c v slow d).
Proof using exec_cost cost_starts ns_pos.
  apply refuse_late_adds, await_then_adds; [exact ns_pos| |done]. intros t. apply do_adds. intros w. rewrite cost_starts, Z.sub_diag.
  apply await_then_adds; [lia|by split|done].
Qed.

Lemma service_b_adds (slow : bool) (d : float) : adds ns (fun _ _ => True) (service_b v slow d).
Proof using exec_cost cost_starts ns_pos.
  apply refuse_late_adds, await_then_adds; [exact ns_pos| |done].
  apply if_adds; [intros t|]; apply wait_for_adds, service_c_adds.
Qed.

Lemma gateway_adds (slow : bool) : adds (ns + na) (fun _ _ => True) (gateway v slow).
Proof using exec_cost cost_starts cost_answers cost_times_out ns_pos na_pos.
  intros t. eapply (bounded_bind _ _ _ _ (fun k _ => na <= k)).
  - eapply bounded_frame; [exact na_pos| |apply wait_for_adds, service_b_adds]. cbn. intros; lia.
  - intros k r Hk Hna. destruct r as [[]|[|h]]; [apply do_adds; intros w; rewrite cost_answers| |by split].
    + split; [lia|done].
    + apply do_adds. intros w. rewrite cost_times_out. split; [lia|done].
Qed.

Lemma step_adds (e : event) (s : state) :
  (forall j now w, measure (query_runs j now w) <= measure w) ->
  all_bounded any exec measure (ns + na) (shared s) (tasks s) ->
  all_bounded any exec measure (ns + na) (shared (step v e s)) (tasks (step v e s)).
Proof using exec_cost cost_starts cost_answers cost_times_out ns_pos na_pos.
  intros Hq Hs. destruct e as [slow|i g o|j now]; cbn [step].
  - apply (all_bounded_spawn _ _ _ _ (shared s)); [lia|cbn; lia| |exact Hs]. split; [lia|]. intros w [|h] _ _; apply gateway_adds.
  - destruct (tasks s !! i) as [p|] eqn:Ei; [|exact Hs].
    pose proof (all_bounded_wake any exec measure _ (shared s) (tasks s) i p g o [] I Ei Hs) as Hb.
    by destruct (wake exec p g (shared s) o []) as [[p' w'] tr'].
  - cbn [shared tasks]. by apply (all_bounded_other _ _ _ _ (shared s)).
Qed.

Lemma run_adds (es : list event) :
  (forall j now w, measure (query_runs j now w) <= measure w) -> measure (shared start) = 0 ->
  measure (shared (run_variant v es)) <= (ns + na) * Z.of_nat (length (tasks (run_variant v es))).
Proof using exec_cost cost_starts cost_answers cost_times_out ns_pos na_pos.
  intros Hq H0. apply (all_bounded_measure any exec). unfold run_variant.
  assert (Hs : all_bounded any exec measure (ns + na) (shared start) (tasks start))
    by (exists []; split; [apply List.Forall2_nil|rewrite H0; unfold zsum; simpl; lia]).
  revert Hs. generalize start. induction es as [|e es IH]; intros s Hs; [exact Hs|]. cbn [fold_left]. apply IH. by apply step_adds.
Qed.

End adds.

(** *** What holds of a query *)

(** It was started for the variant [v]. *)
Definition made_for (v : variant) (q : query) : bool :=
  eqb (match deadline q with Some _ => true | None => false end) (propagate v) && eqb (stmt_timeout q) (use_statement_timeout v).

Definition kept (q : query) : Prop :=
  match at_ q with
  | Sleeping since sleeps killed =>
      out_of_budget since q = false /\ (killed = false -> sleeps = duration q) /\ (killed = true -> stmt since q <> None) /\
      (forall s, stmt since q = Some s -> fltb s sleeps = false)
  | Returned Abandoned | Accounted Abandoned _ => deadline q <> None
  | Returned Killed | Accounted Killed _ => deadline q <> None /\ stmt_timeout q = true
  | _ => True
  end.

Lemma stmt_needs (now : float) (q : query) : stmt now q <> None -> deadline q <> None /\ stmt_timeout q = true.
Proof. unfold stmt. by destruct (deadline q), (stmt_timeout q). Qed.

Lemma checked_out_kept (now : float) (q : query) (w : world) :
  kept (move (checked_out now q w).1 q).
Proof.
  unfold checked_out. destruct (out_of_budget now q) eqn:Ho.
  - unfold out_of_budget in Ho. cbn. by destruct (deadline q).
  - destruct (stmt now q) as [s|] eqn:Es; [destruct (fleb (duration q) s) eqn:Ed|];
      (split; [exact Ho|]); (split; [done|]); (split; [intros ?|intros s' E]);
      try change (stmt now q = Some s') in E; try change (stmt now q <> None); rewrite Es in *; try done; injection E as <-.
    + by apply fleb_not_fltb.
    + unfold fltb. destruct s; try done. apply Z.ltb_irrefl.
Qed.

Lemma resume_kept (now : float) (q : query) (w : world) :
  kept q -> kept (move (resume now q w).1 q).
Proof.
  intros H. unfold resume. unfold kept in H. destruct (at_ q) as [| |since sleeps killed|vd|vd z] eqn:Ep.
  - destruct (Semaphore.locked (sem w)); [done|]. exact (checked_out_kept now q (set_sem _ w)).
  - destruct (0 <? Semaphore.value (sem w)); [|done]. exact (checked_out_kept now q (set_sem _ w)).
  - destruct killed; [|done]. destruct H as (_ & _ & H & _). by apply (stmt_needs since), H.
  - done.
  - done.
Qed.

Lemma resume_queries (now : float) (q : query) (w : world) : queries (resume now q w).2 = queries w.
Proof.
  unfold resume, checked_out. destruct (at_ q) as [| |? ? []|vd|vd z]; [destruct (Semaphore.locked (sem w))|destruct (0 <? Semaphore.value (sem w))| | | |];
    try done; (destruct (out_of_budget now q); [done|]); (destruct (stmt now q) as [s|]; [|done]); by destruct (fleb (duration q) s).
Qed.

Lemma query_runs_queries (j : nat) (now : float) (w : world) :
  queries (query_runs j now w) =
  match queries w !! j with Some q => <[j := move (resume now q w).1 q]> (queries w) | None => queries w end.
Proof. unfold query_runs. destruct (queries w !! j) as [q|]; [|done]. pose proof (resume_queries now q w) as H. destruct (resume now q w). cbn in *. by rewrite H. Qed.

Lemma exec_queries (a : action) (w : world) :
  queries (exec a w) = queries w ++ match a with Starts du de st t g => [mkQuery du de st t g Created] | _ => [] end.
Proof. destruct a; cbn; by rewrite ?app_nil_r. Qed.

(** What every action and every query keeps holds after a run. *)
Lemma run_invariant (P : world -> Prop) (v : variant) (es : list event) :
  (forall a w, P w -> P (exec a w)) -> (forall j now w, P w -> P (query_runs j now w)) -> P (shared start) ->
  P (shared (run_variant v es)).
Proof.
  intros Ha Hq. unfold run_variant. generalize start. induction es as [|e es IH]; intros s Hs; [exact Hs|]. cbn [fold_left]. apply IH.
  destruct e as [slow|i g o|j now]; cbn [step]; [exact Hs| |by apply Hq].
  destruct (tasks s !! i) as [p|]; [|exact Hs].
  pose proof (wake_invariant exec (fun w _ => P w) (fun a w _ => Ha a w) p g (shared s) o [] Hs) as H.
  by destruct (wake exec p g (shared s) o []) as [[p' w'] tr'].
Qed.

Lemma chain_run_books (v : variant) (es : list event) : books (shared (run_variant v es)).
Proof. apply run_invariant; [apply exec_books|apply query_runs_books|by constructor]. Qed.

Lemma run_kept (v : variant) (es : list event) : Forall kept (queries (shared (run_variant v es))).
Proof.
  apply run_invariant; [intros a w H|intros j now w H|constructor].
  - rewrite exec_queries. apply Forall_app. split; [exact H|]. destruct a; by repeat constructor.
  - rewrite query_runs_queries. destruct (queries w !! j) as [q|] eqn:Ej; [|exact H].
    apply Forall_insert; [exact H|]. apply resume_kept. exact (Forall_lookup_1 _ _ _ _ H Ej).
Qed.

Definition made_for_others (v : variant) (w : world) : Z := countb (fun q => negb (made_for v q)) (queries w).

Lemma run_made_for (v : variant) (es : list event) : made_for_others v (shared (run_variant v es)) = 0.
Proof.
  apply Z.le_antisymm; [|apply countb_nonneg].
  apply (run_adds v (made_for_others v)
    (fun a => match a with Starts du de st t g => bit (negb (made_for v (mkQuery du de st t g Created))) | _ => 0 end) 0 0); try done.
  - intros a w. unfold made_for_others. rewrite exec_queries. destruct a; rewrite ?app_nil_r, ?countb_snoc; lia.
  - intros slow t d. unfold made_for. cbn. destruct (propagate v); by rewrite !eqb_reflx.
  - intros j now w. unfold made_for_others. rewrite query_runs_queries. destruct (queries w !! j) as [q|] eqn:Ej; [|lia].
    rewrite (countb_insert _ _ _ _ _ Ej). cbn. unfold made_for. cbn. lia.
Qed.

Lemma made_for_each (v : variant) (es : list event) (q : query) :
  q ∈ queries (shared (run_variant v es)) -> made_for v q = true.
Proof.
  intros [j Ej]%list_elem_of_lookup. destruct (made_for v q) eqn:E; [done|].
  pose proof (run_made_for v es) as H. pose proof (countb_pos (fun q => negb (made_for v q)) _ j q Ej) as G.
  cbn beta in G. rewrite E in G. specialize (G eq_refl). unfold made_for_others in H. lia.
Qed.

(** A query's task counts neither requests nor starts. *)
Lemma query_runs_counters (j : nat) (now : float) (w : world) :
  c_started (m (query_runs j now w)) = c_started (m w) /\
  gateway_ok (m (query_runs j now w)) + gateway_timeout (m (query_runs j now w)) = gateway_ok (m w) + gateway_timeout (m w).
Proof.
  unfold query_runs, resume, checked_out. destruct (queries w !! j) as [q|]; [|done].
  destruct (at_ q) as [| |? ? []|vd|vd z]; [destruct (Semaphore.locked (sem w))|destruct (0 <? Semaphore.value (sem w))| | | |]; try done;
    (destruct (out_of_budget now q); [done|]); (destruct (stmt now q) as [s|]; [|done]); by destruct (fleb (duration q) s).
Qed.

(** ** Properties *)

#[local] Notation ms t := (lit t 1000).

(** One request of variant 4, whose query starts after 10 ms. *)
Definition one_request : list event :=
  [Arrives true; Wakes 0 Resumes [ms 0; ms 0; ms 0]; Wakes 0 Resumes [ms 5; ms 5; ms 5]; Wakes 0 Resumes [ms 10]].

(** C24: Books of the chain: in every variant and every interleaving, the connections in use
    are the queries that sleep, at most eight; a query has one place, and the counters count
    the queries that reached it; a request starts at most one query and is answered or times
    out at most once; nothing is counted as rejected.  A zombie need not have used a
    connection, and a killed query can be an answered request. *)
Theorem chain_books (v : variant) (es : list event) :
  let s := run_variant v es in
  let w := shared s in
  let n := Z.of_nat (length (tasks s)) in
  books w /\ in_use w <= C_POOL_SIZE /\
  c_zombie (m w) <= c_completed (m w) <= c_started (m w) /\ c_started (m w) <= n /\
  gateway_ok (m w) + gateway_timeout (m w) <= n /\
  (let z := m (shared (run_variant (mkVariant true true) (one_request ++ [QueryRuns 0 (ms 490); QueryRuns 0 (ms 501)]))) in
   (c_abandoned z, c_zombie z) = (1, 1)) /\
  (let k := m (shared (run_variant (mkVariant true true)
     (one_request ++ [QueryRuns 0 (ms 10); QueryRuns 0 (ms 480); QueryRuns 0 (ms 480); Wakes 0 Resumes []]))) in
   (c_killed k, gateway_ok k) = (1, 1)).
Proof.
  cbn zeta. pose proof (chain_run_books v es) as H. split; [exact H|]. destruct H. split; [lia|].
  set (w := shared (run_variant v es)) in *. split; [|split; [|split; [|by vm_compute]]].
  - rewrite b_completed0, b_zombie0, b_started0. split; [|apply countb_length].
    apply countb_le. intros q. unfold is_zombie, is_accounted. by destruct (at_ q).
  - rewrite <- (Z.mul_1_l (Z.of_nat _)). apply (run_adds v (fun w => c_started (m w)) (fun a => match a with Starts _ _ _ _ _ => 1 | _ => 0 end) 1 0);
      try done; [by intros [] w'; cbn; lia|].
    intros j now w'. by rewrite (proj1 (query_runs_counters j now w')).
  - rewrite <- (Z.mul_1_l (Z.of_nat _)).
    apply (run_adds v (fun w => gateway_ok (m w) + gateway_timeout (m w)) (fun a => match a with Starts _ _ _ _ _ => 0 | _ => 1 end) 0 1);
      try done; [by intros [] w'; cbn; lia|].
    intros j now w'. by rewrite (proj2 (query_runs_counters j now w')).
Qed.

(** Bounds of a query: without deadline propagation no query gives its connection back
    unused, and none is killed unless the statement timeout is derived from the deadline too;
    a query sleeps on its connection only if it had the slack left when it got it, for its
    duration unless it is killed, and under a statement timeout never longer than that. *)
Theorem query_bounds (v : variant) (es : list event) (q : query) :
  q ∈ queries (shared (run_variant v es)) ->
  (propagate v = false -> was_abandoned q = false) /\
  (propagate v && use_statement_timeout v = false -> was_killed q = false) /\
  (forall since sleeps killed, at_ q = Sleeping since sleeps killed ->
    out_of_budget since q = false /\ (killed = false -> sleeps = duration q) /\
    (forall s, stmt since q = Some s -> fltb s sleeps = false)).
Proof.
  intros Hq. pose proof (made_for_each v es q Hq) as Hv.
  pose proof (proj1 (list.Forall_forall _ _) (run_kept v es) q Hq) as Hk. unfold kept in Hk. unfold made_for in Hv.
  apply andb_true_iff in Hv as [Hd Hs]. apply eqb_prop in Hd, Hs. unfold was_abandoned, was_killed. split_and!.
  - intros Hp. rewrite Hp in Hd. destruct (at_ q) as [| | |[]|[]]; try done; by destruct (deadline q).
  - intros Hp. rewrite <- Hd, <- Hs in Hp. destruct (at_ q) as [| | |[]|[]]; try done; destruct Hk as [Hk Hst];
      rewrite Hst in Hp; by destruct (deadline q).
  - intros since sleeps killed E. rewrite E in Hk. by destruct Hk as (? & ? & _ & ?).
Qed.

Lemma query_bounds_witness :
  let s := run_variant (mkVariant true true) (one_request ++ [QueryRuns 0 (ms 10)]) in
  exists q, q ∈ queries (shared s) /\ exists since sleeps, at_ q = Sleeping since sleeps true /\
    (forall s, stmt since q = Some s -> fltb s sleeps = false).
Proof.
  cbn zeta. set (s := run_variant _ _). assert (E : exists q, queries (shared s) = [q] /\ exists since sleeps, at_ q = Sleeping since sleeps true).
  { vm_compute. do 2 eexists; [reflexivity|]. by do 2 eexists. }
  destruct E as (q & E & since & sleeps & Ep). exists q.
  assert (Hq : q ∈ queries (shared s)) by (rewrite E; by apply list_elem_of_singleton).
  split; [exact Hq|]. exists since, sleeps. split; [exact Ep|]. by apply (query_bounds (mkVariant true true) _ q Hq) in Ep as (_ & _ & ?).
Defined.
