(* ===== verification/TailFanout.v ===== *)
(** * Failure layer: fan-out and hedging

    Models src/05-failure/06-tail-latency-fanout-and-coordinated-omission/python/fanout.py:
    backends, token bucket, the gateway's legs with their hedges, the requests of an open
    cell, and what the closed loop records; not the distributions, the statistics and the
    tables.

    A call to a backend is a task: a [place] in a list, like a leg.  Which of them the loop
    runs next, the readings of the clock and whether the timer of a leg expired are inputs. *)

From Stdlib Require Import ZArith Lia.
From stdpp Require Import base option list numbers.
From S2P Require Import Prelude PyFloat TokenBucket PyAsync.

Open Scope Z_scope.

(** ** Definitions *)

Definition HEDGE_BUDGET_RATIO : float := lit 5 100.
Definition HEDGE_BUCKET_CAPACITY : float := of_Z 20.
Definition MS : float := of_Z 1000.

Module Backend.

Record t : Type := mk { sem : Semaphore.t; started : Z; completed : Z; cancelled : Z; busy_s : float }.

Definition init (workers : Z) : t := mk (Semaphore.init workers) 0 0 0 (of_Z 0).

(** The parts of [call] between its awaits. *)
Definition set_sem (s : Semaphore.t) (b : t) : t := mk s (started b) (completed b) (cancelled b) (busy_s b).
Definition start (b : t) : t := mk (sem b) (started b + 1) (completed b) (cancelled b) (busy_s b).
Definition give_back (t0 now : float) (b : t) : t :=
  mk (Semaphore.release (sem b)) (started b) (completed b) (cancelled b) (fadd (busy_s b) (fsub now t0)).
Definition complete (b : t) : t := mk (sem b) (started b) (completed b + 1) (cancelled b) (busy_s b).
Definition cancel (b : t) : t := mk (sem b) (started b) (completed b) (cancelled b + 1) (busy_s b).

End Backend.

Inductive place : Type :=
| Created
| Queued
| Serving (t0 : float)
| Done
| Cancelled
| Dropped.

(** A call: where it goes, where it is, and whether it is being cancelled. *)
Record call : Type := mkCall { to : nat; at_ : place; cancelling : bool }.

Definition is_over (p : place) : bool := match p with Done | Cancelled | Dropped => true | _ => false end.

(** [Backend.call] from its beginning to its first await. *)
Definition begin_call (now : float) (b : Backend.t) : place * Backend.t :=
  let b := Backend.start b in
  if Semaphore.locked (Backend.sem b) then (Queued, Backend.set_sem (Semaphore.wait (Backend.sem b)) b)
  else (Serving now, Backend.set_sem (Semaphore.take (Backend.sem b)) b).

(** Its next stretch; a task that is cancelled before it starts never runs. *)
Definition resume (now : float) (k : call) (b : Backend.t) : place * Backend.t :=
  match at_ k, cancelling k with
  | Created, true => (Dropped, b)
  | Created, false => begin_call now b
  | Queued, true => (Cancelled, Backend.cancel (Backend.set_sem (Semaphore.leave (Backend.sem b)) b))
  | Queued, false =>
      if 0 <? Semaphore.value (Backend.sem b) then (Serving now, Backend.set_sem (Semaphore.granted (Backend.sem b)) b) else (Queued, b)
  | Serving t0, true => (Cancelled, Backend.cancel (Backend.give_back t0 now b))
  | Serving t0, false => (Done, Backend.complete (Backend.give_back t0 now b))
  | p, _ => (p, b)
  end.

(** *** The gateway *)

(** [_leg]: not started, awaiting a call of its own, waiting for the first with a timer,
    awaiting it without budget, racing two, returned. *)
Inductive leg : Type :=
| NotStarted (backend : nat)
| Plain (c : nat)
| First (c : nat)
| Awaiting (c : nat)
| Racing (c d : nat)
| Returned (hedged : bool).

Record gateway : Type := mkGateway { tokens : float; legs : Z; legs_hedged : Z; budget_denied : Z }.

Definition add_leg (g : gateway) : gateway := mkGateway (tokens g) (legs g + 1) (legs_hedged g) (budget_denied g).
Definition on_primary (g : gateway) : gateway :=
  mkGateway (bucket_add HEDGE_BUCKET_CAPACITY (tokens g) HEDGE_BUDGET_RATIO) (legs g) (legs_hedged g) (budget_denied g).
Definition hedge_or_deny (g : gateway) : bool * gateway :=
  match bucket_take (tokens g) with
  | (true, t) => (true, mkGateway t (legs g) (legs_hedged g + 1) (budget_denied g))
  | (false, t) => (false, mkGateway t (legs g) (legs_hedged g) (budget_denied g + 1))
  end.

(** [hedging]: there is a hedge delay. *)
Record config : Type := mkConfig { workers : Z; hedging : bool; cancel_losers : bool }.

Record request : Type := mkRequest { due : float; its_legs : list nat; finished : bool }.

Record world : Type := mkWorld {
  backends : list Backend.t;
  calls : list call;
  gw : gateway;
  places : list leg;
  requests : list request;
  lat_ms : list float;
  hedged_requests : Z;
}.

Definition set_calls (bs : list Backend.t) (l : list call) (w : world) : world :=
  mkWorld bs l (gw w) (places w) (requests w) (lat_ms w) (hedged_requests w).
Definition set_leg (i : nat) (p : leg) (w : world) : world :=
  mkWorld (backends w) (calls w) (gw w) (<[i := p]> (places w)) (requests w) (lat_ms w) (hedged_requests w).
Definition on_gateway (f : gateway -> gateway) (w : world) : world :=
  mkWorld (backends w) (calls w) (f (gw w)) (places w) (requests w) (lat_ms w) (hedged_requests w).

Definition over (w : world) (c : nat) : bool := match calls w !! c with Some k => is_over (at_ k) | None => false end.

(** [asyncio.create_task(backend.call(...))]. *)
Definition create (b : nat) (w : world) : world := set_calls (backends w) (calls w ++ [mkCall b Created false]) w.

(** A call awaited in place runs at once. *)
Definition call_now (now : float) (b : nat) (w : world) : world :=
  match backends w !! b with
  | None => w
  | Some s => let '(p, s) := begin_call now s in set_calls (<[b := s]> (backends w)) (calls w ++ [mkCall b p false]) w
  end.

(** [task.cancel()] of a task that is not over. *)
Definition cancel_task (c : nat) (w : world) : world :=
  match calls w !! c with
  | Some k => if is_over (at_ k) then w else set_calls (backends w) (<[c := mkCall (to k) (at_ k) true]> (calls w)) w
  | None => w
  end.

Definition backend_of (w : world) (c : nat) : nat := match calls w !! c with Some k => to k | None => O end.

(** A leg runs to its next await; [timed_out]: the hedge delay has passed. *)
Definition leg_runs (cf : config) (i : nat) (timed_out : bool) (now : float) (w : world) : world :=
  let n := length (calls w) in
  match places w !! i with
  | Some (NotStarted b) =>
      let w := on_gateway add_leg w in
      if hedging cf then set_leg i (First n) (create b (on_gateway on_primary w))
      else set_leg i (Plain n) (call_now now b w)
  | Some (Plain c) | Some (Awaiting c) => if over w c then set_leg i (Returned false) w else w
  | Some (First c) =>
      if over w c then set_leg i (Returned false) w
      else if timed_out
      then
        let '(granted, g) := hedge_or_deny (gw w) in
        let w := on_gateway (fun _ => g) w in
        if granted then set_leg i (Racing c n) (create (backend_of w c) w) else set_leg i (Awaiting c) w
      else w
  | Some (Racing c d) =>
      if over w c || over w d
      then set_leg i (Returned true) (if cancel_losers cf then cancel_task d (cancel_task c w) else w)
      else w
  | Some (Returned _) | None => w
  end.

Definition call_runs (c : nat) (now : float) (w : world) : world :=
  match calls w !! c with
  | None => w
  | Some k =>
      match backends w !! to k with
      | None => w
      | Some s => let '(p, s) := resume now k s in set_calls (<[to k := s]> (backends w)) (<[c := mkCall (to k) p (cancelling k)]> (calls w)) w
      end
  end.

(** *** A cell *)

(** [gather] has a leg per backend. *)
Definition arrives (k : nat) (due : float) (w : world) : world :=
  mkWorld (backends w) (calls w) (gw w) (places w ++ (NotStarted <$> seq 0 k))
    (requests w ++ [mkRequest due (seq (length (places w)) k) false]) (lat_ms w) (hedged_requests w).

Definition leg_result (w : world) (i : nat) : option bool :=
  match places w !! i with Some (Returned h) => Some h | _ => None end.

(** [one], once [gather] is over. *)
Definition finishes (r : nat) (fin : float) (w : world) : world :=
  match requests w !! r with
  | Some q =>
      match finished q, mapM (leg_result w) (its_legs q) with
      | false, Some hs =>
          mkWorld (backends w) (calls w) (gw w) (places w) (<[r := mkRequest (due q) (its_legs q) true]> (requests w))
            (lat_ms w ++ [fmul (fsub fin (due q)) MS]) (hedged_requests w + bit (existsb (fun h => h) hs))
      | _, _ => w
      end
  | None => w
  end.

Inductive event : Type :=
| Arrives (due : float)
| LegRuns (i : nat) (timed_out : bool) (now : float)
| CallRuns (c : nat) (now : float)
| Finishes (r : nat) (fin : float).

Definition step (cf : config) (e : event) (w : world) : world :=
  match e with
  | Arrives due => arrives (length (backends w)) due w
  | LegRuns i timed_out now => leg_runs cf i timed_out now w
  | CallRuns c now => call_runs c now w
  | Finishes r fin => finishes r fin w
  end.

Definition start (cf : config) (k : nat) : world :=
  mkWorld (replicate k (Backend.init (workers cf))) [] (mkGateway HEDGE_BUCKET_CAPACITY 0 0 0) [] [] [] 0.

Definition run_open_cell (cf : config) (k : nat) (es : list event) : world := fold_left (fun w e => step cf e w) es (start cf k).

(** *** The closed loop *)

(** When virtual user [v] owed its request [j]. *)
Definition vu_due (t0 nominal_rate per_vu_interval : float) (v j : Z) : option float :=
  x ← fdiv (of_Z v) nominal_rate; Some (fadd (fadd t0 x) (fmul (of_Z j) per_vu_interval)).

Definition raw_ms (start fin : float) : float := fmul (fsub fin start) MS.
Definition corrected_ms (start due fin : float) : float := fmul (fsub fin (fmin start due)) MS.

(** ** Lemmas *)

(** *** A backend *)

Definition on (b : nat) (f : place -> bool) (k : call) : bool := f (at_ k) && (to k =? b)%nat.

Definition is_queued (p : place) : bool := match p with Queued => true | _ => false end.
Definition is_serving (p : place) : bool := match p with Serving _ => true | _ => false end.
Definition is_done (p : place) : bool := match p with Done => true | _ => false end.
Definition is_cancelled (p : place) : bool := match p with Cancelled => true | _ => false end.
Definition has_started (p : place) : bool := is_queued p || is_serving p || is_done p || is_cancelled p.

(** The workers in use are the calls that are served; the counters count calls. *)
Record backend_books (n : Z) (b : nat) (l : list call) (s : Backend.t) : Prop := {
  b_value : 0 <= Semaphore.value (Backend.sem s);
  b_workers : Semaphore.value (Backend.sem s) + countb (on b is_serving) l = n;
  b_waiters : Semaphore.waiters (Backend.sem s) = countb (on b is_queued) l;
  b_started : Backend.started s = countb (on b has_started) l;
  b_completed : Backend.completed s = countb (on b is_done) l;
  b_cancelled : Backend.cancelled s = countb (on b is_cancelled) l }.

#[local] Arguments countb : simpl never.

(** The books of one call alone. *)
Record moved (p q : place) (s s' : Backend.t) : Prop := {
  m_value : 0 <= Semaphore.value (Backend.sem s) -> 0 <= Semaphore.value (Backend.sem s');
  m_workers : Semaphore.value (Backend.sem s') + bit (is_serving q) = Semaphore.value (Backend.sem s) + bit (is_serving p);
  m_waiters : Semaphore.waiters (Backend.sem s') - bit (is_queued q) = Semaphore.waiters (Backend.sem s) - bit (is_queued p);
  m_started : Backend.started s' - bit (has_started q) = Backend.started s - bit (has_started p);
  m_completed : Backend.completed s' - bit (is_done q) = Backend.completed s - bit (is_done p);
  m_cancelled : Backend.cancelled s' - bit (is_cancelled q) = Backend.cancelled s - bit (is_cancelled p) }.

Lemma begin_moved (now : float) (s : Backend.t) :
  0 <= Semaphore.value (Backend.sem s) -> moved Created (begin_call now s).1 s (begin_call now s).2.
Proof.
  intros Hv. unfold begin_call, Semaphore.locked. cbn [Backend.start Backend.sem].
  destruct (Z.eqb_spec (Semaphore.value (Backend.sem s)) 0); cbn [orb];
    [|destruct (0 <? Semaphore.waiters (Backend.sem s))]; constructor; cbn; lia.
Qed.

Lemma resume_moved (now : float) (k : call) (s : Backend.t) :
  0 <= Semaphore.value (Backend.sem s) -> moved (at_ k) (resume now k s).1 s (resume now k s).2.
Proof.
  intros Hv. unfold resume. destruct (at_ k) as [| |t0| | |], (cancelling k); try (constructor; cbn; lia); [by apply begin_moved|].
  destruct (Z.ltb_spec 0 (Semaphore.value (Backend.sem s))); constructor; cbn; lia.
Qed.

Lemma on_insert (b : nat) (f : place -> bool) (l : list call) (c : nat) (k k' : call) :
  l !! c = Some k -> to k' = to k ->
  countb (on b f) (<[c := k']> l) = countb (on b f) l + if (to k =? b)%nat then bit (f (at_ k')) - bit (f (at_ k)) else 0.
Proof.
  intros Hc Ht. rewrite (countb_insert _ _ _ _ _ Hc). unfold on. rewrite Ht.
  destruct (to k =? b)%nat; rewrite ?andb_true_r, ?andb_false_r; cbn [bit]; lia.
Qed.

Lemma on_snoc (b : nat) (f : place -> bool) (l : list call) (k : call) :
  countb (on b f) (l ++ [k]) = countb (on b f) l + if (to k =? b)%nat then bit (f (at_ k)) else 0.
Proof. rewrite countb_snoc. unfold on. destruct (to k =? b)%nat; rewrite ?andb_true_r, ?andb_false_r; cbn [bit]; lia. Qed.

Definition all_books (n : Z) (bs : list Backend.t) (l : list call) : Prop :=
  forall b s, bs !! b = Some s -> backend_books n b l s.

(** A call moves, and only its backend notices. *)
Lemma books_moved (n : Z) (bs : list Backend.t) (l : list call) (c : nat) (k k' : call) (s s' : Backend.t) :
  l !! c = Some k -> to k' = to k -> bs !! to k = Some s -> moved (at_ k) (at_ k') s s' ->
  all_books n bs l -> all_books n (<[to k := s']> bs) (<[c := k']> l).
Proof.
  intros Hc Ht Hs Hm Hb b x Hx. destruct (decide (b = to k)) as [->|Hne].
  - rewrite list_lookup_insert_eq in Hx by (by eapply lookup_lt_Some). injection Hx as <-. destruct (Hb _ _ Hs), Hm.
    constructor; rewrite ?(on_insert _ _ _ _ _ _ Hc Ht), ?Nat.eqb_refl; first [by auto | lia].
  - rewrite list_lookup_insert_ne in Hx by done. destruct (Hb _ _ Hx).
    constructor; rewrite ?(on_insert _ _ _ _ _ _ Hc Ht); try done; replace (to k =? b)%nat with false by (symmetry; by apply Nat.eqb_neq); lia.
Qed.

(** A new call. *)
Lemma books_new (n : Z) (bs : list Backend.t) (l : list call) (k : call) (s s' : Backend.t) :
  bs !! to k = Some s -> moved Created (at_ k) s s' -> all_books n bs l -> all_books n (<[to k := s']> bs) (l ++ [k]).
Proof.
  intros Hs Hm Hb b x Hx. destruct (decide (b = to k)) as [->|Hne].
  - rewrite list_lookup_insert_eq in Hx by (by eapply lookup_lt_Some). injection Hx as <-. destruct (Hb _ _ Hs), Hm. cbn in *.
    constructor; rewrite ?on_snoc, ?Nat.eqb_refl; first [by auto | lia].
  - rewrite list_lookup_insert_ne in Hx by done. destruct (Hb _ _ Hx).
    constructor; rewrite ?on_snoc; try done; replace (to k =? b)%nat with false by (symmetry; by apply Nat.eqb_neq); lia.
Qed.

Lemma books_created (n : Z) (bs : list Backend.t) (l : list call) (b : nat) :
  all_books n bs l -> all_books n bs (l ++ [mkCall b Created false]).
Proof.
  intros Hb b' x Hx. destruct (Hb _ _ Hx). constructor; rewrite ?on_snoc; cbn; try done; destruct (b =? b')%nat; lia.
Qed.

Lemma books_flag (n : Z) (bs : list Backend.t) (l : list call) (c : nat) (k : call) (f : bool) :
  l !! c = Some k -> all_books n bs l -> all_books n bs (<[c := mkCall (to k) (at_ k) f]> l).
Proof.
  intros Hc Hb b x Hx. destruct (Hb _ _ Hx).
  constructor; rewrite ?(on_insert _ _ _ _ k (mkCall (to k) (at_ k) f) Hc eq_refl); cbn [at_]; try done; destruct (to k =? b)%nat; lia.
Qed.

(** *** The gateway *)

Definition has_begun (p : leg) : bool := match p with NotStarted _ => false | _ => true end.
Definition has_hedged (p : leg) : bool := match p with Racing _ _ | Returned true => true | _ => false end.
Definition undecided (p : leg) : bool := match p with Plain _ | First _ => true | _ => false end.
Definition mentions (p : leg) (c : nat) : Prop :=
  match p with Plain d | First d | Awaiting d => c = d | Racing d e => c = d \/ c = e | _ => False end.

Definition ratio_k : Z := match HEDGE_BUDGET_RATIO with Fin k => k | _ => 0 end.

Lemma ratio_near : HEDGE_BUDGET_RATIO = Fin ratio_k /\ 0 < ratio_k /\ 20 * ratio_k <= unit_k + 20 * 2 ^ 1021.
Proof.
  assert (E : HEDGE_BUDGET_RATIO = fround (5 * unit_k) 100) by apply lit_eq. pose proof unit_k_pos as Hu.
  assert (Hs : 2 ^ 1021 * 2 ^ 53 = unit_k) by (rewrite unit_k_eq, <- Z.pow_add_r by lia; reflexivity).
  destruct (fround_near_at 0 (5 * unit_k) 100) as (k & Ek & Hk & Hb); [lia..|]. change (1021 + 0) with 1021 in Hb.
  unfold ratio_k. rewrite E, Ek. split; [reflexivity|]. change (2 ^ 53) with 9007199254740992 in Hs.
  assert (0 < 2 ^ 1021) by (apply Z.pow_pos_nonneg; lia). lia.
Qed.

(** What has been hedged was in the bucket at the start or was deposited since. *)
Definition funded (g : gateway) : Prop :=
  exists t, tokens g = Fin t /\ wf (Fin t) /\ 0 <= t <= 20 * unit_k /\
    legs_hedged g * unit_k + t <= 20 * unit_k + legs g * (ratio_k + slop).

Lemma funded_leg (g : gateway) : funded g -> funded (add_leg g).
Proof.
  intros (t & E & W & R & H). exists t. split; [exact E|]. split; [exact W|]. split; [exact R|]. destruct ratio_near as (_ & ? & _).
  assert (0 < slop) by (apply Z.pow_pos_nonneg; lia). cbn. lia.
Qed.

Lemma funded_primary (g : gateway) : funded g -> funded (on_primary (add_leg g)).
Proof.
  intros (t & E & W & R & H). destruct ratio_near as (Er & Hr & _).
  destruct (bucket_add_step 20 t ratio_k) as (t' & E' & W' & R' & H'); [lia|exact W|exact R|exact Hr|].
  exists t'. unfold on_primary, add_leg. cbn [tokens legs legs_hedged]. rewrite E, Er. split; [exact E'|]. split; [exact W'|]. split; [exact R'|]. lia.
Qed.

Lemma funded_take (g : gateway) :
  funded g -> let '(granted, g') := hedge_or_deny g in
  funded g' /\ legs g' = legs g /\ legs_hedged g' = legs_hedged g + bit granted /\ budget_denied g' = budget_denied g + bit (negb granted).
Proof.
  intros (t & E & W & R & H). unfold hedge_or_deny. rewrite E.
  destruct (bucket_take_step 20 t) as (t' & E' & W' & R' & H'); [lia|exact W|exact R|]. rewrite E'.
  destruct (unit_k <=? t); cbn [legs legs_hedged budget_denied]; (split; [|cbn; lia]); exists t'; cbn [tokens legs legs_hedged]; (split; [reflexivity|]);
    (split; [exact W'|]); (split; [exact R'|]); lia.
Qed.

(** A leg mentions its calls, in a list of [n]. *)
Definition well_leg (nb n : nat) (p : leg) : Prop :=
  match p with
  | NotStarted b => (b < nb)%nat
  | Plain c | First c | Awaiting c => (c < n)%nat
  | Racing c d => (c < n)%nat /\ (d < n)%nat
  | Returned _ => True
  end.

Record books (cf : config) (w : world) : Prop := {
  w_backends : all_books (workers cf) (backends w) (calls w);
  w_to : Forall (fun k => (to k < length (backends w))%nat) (calls w);
  w_places : Forall (well_leg (length (backends w)) (length (calls w))) (places w);
  w_legs : legs (gw w) = countb has_begun (places w);
  w_hedged : legs_hedged (gw w) = countb has_hedged (places w);
  w_denied : legs_hedged (gw w) + budget_denied (gw w) + countb undecided (places w) <= legs (gw w);
  w_calls : Z.of_nat (length (calls w)) = legs (gw w) + legs_hedged (gw w);
  w_funded : funded (gw w);
  w_lat : 0 <= hedged_requests w <= Z.of_nat (length (lat_ms w)) /\ Z.of_nat (length (lat_ms w)) = countb finished (requests w) }.

Lemma well_leg_more (nb n m : nat) (p : leg) : (n <= m)%nat -> well_leg nb n p -> well_leg nb m p.
Proof. intros H. destruct p; cbn; lia. Qed.

Lemma places_more (nb n m : nat) (l : list leg) : (n <= m)%nat -> Forall (well_leg nb n) l -> Forall (well_leg nb m) l.
Proof. intros H Hl. eapply list.Forall_impl; [exact Hl|]. intros p. by apply well_leg_more. Qed.

(** A leg changes its place, and nothing else. *)
Lemma leg_moves (cf : config) (w : world) (i : nat) (p q : leg) :
  places w !! i = Some p -> well_leg (length (backends w)) (length (calls w)) q -> has_begun q = has_begun p -> has_hedged q = has_hedged p ->
  bit (undecided q) <= bit (undecided p) -> books cf w -> books cf (set_leg i q w).
Proof.
  intros Hi Hq Hb Hh Hu []. constructor; cbn [backends calls gw places requests lat_ms hedged_requests set_leg]; try done.
  - by apply Forall_insert.
  - rewrite (countb_insert _ _ _ _ _ Hi), Hb. lia.
  - rewrite (countb_insert _ _ _ _ _ Hi), Hh. lia.
  - rewrite (countb_insert _ _ _ _ _ Hi). lia.
Qed.

Lemma fanout_cancel_books (cf : config) (w : world) (c : nat) : books cf w -> books cf (cancel_task c w).
Proof.
  intros H. unfold cancel_task. destruct (calls w !! c) as [k|] eqn:Ec; [|exact H]. destruct (is_over (at_ k)); [exact H|].
  destruct H. constructor; cbn [backends calls gw places requests lat_ms hedged_requests set_calls]; rewrite ?length_insert; try done.
  - by apply books_flag.
  - apply Forall_insert; [done|]. exact (Forall_lookup_1 _ _ _ _ w_to0 Ec).
Qed.

Lemma cancel_places (w : world) (c : nat) :
  places (cancel_task c w) = places w /\ length (calls (cancel_task c w)) = length (calls w) /\ backends (cancel_task c w) = backends w.
Proof.
  unfold cancel_task. destruct (calls w !! c) as [k|]; [|done]. destruct (is_over (at_ k)); [done|]. cbn. by rewrite length_insert.
Qed.

Lemma call_runs_books (cf : config) (w : world) (c : nat) (now : float) : books cf w -> books cf (call_runs c now w).
Proof.
  intros H. unfold call_runs. destruct (calls w !! c) as [k|] eqn:Ec; [|exact H]. destruct (backends w !! to k) as [s|] eqn:Es; [|exact H].
  destruct H. pose proof (b_value _ _ _ _ (w_backends0 _ _ Es)) as Hv. pose proof (resume_moved now k s Hv) as Hm.
  destruct (resume now k s) as [p s']. cbn [fst snd] in Hm.
  constructor; cbn [backends calls gw places requests lat_ms hedged_requests set_calls]; rewrite ?length_insert; try done.
  - by apply (books_moved _ _ _ _ k (mkCall (to k) p (cancelling k)) s s').
  - apply Forall_insert; [done|]. exact (Forall_lookup_1 _ _ _ _ w_to0 Ec).
Qed.

Lemma arrives_books (cf : config) (w : world) (due : float) : books cf w -> books cf (arrives (length (backends w)) due w).
Proof.
  intros []. assert (Hn : forall f, (forall b, f (NotStarted b) = false) -> countb f (NotStarted <$> seq 0 (length (backends w))) = 0).
  { intros f Hf. generalize (seq 0 (length (backends w))). intros l. induction l as [|b l IH]; [done|]. cbn [fmap list_fmap]. by rewrite countb_cons, Hf, IH. }
  assert (Ha : forall f, (forall b, f (NotStarted b) = false) -> countb f (places w ++ (NotStarted <$> seq 0 (length (backends w)))) = countb f (places w)).
  { intros f Hf. unfold countb. rewrite fmap_app, zsum_app. change (countb f (places w) + countb f (NotStarted <$> seq 0 (length (backends w))) = countb f (places w)).
    rewrite Hn by exact Hf. lia. }
  constructor; cbn [backends calls gw places requests lat_ms hedged_requests arrives]; rewrite ?Ha by done; try done.
  - apply Forall_app. split; [done|]. apply Forall_fmap, list.Forall_forall. intros b Hb%elem_of_seq. cbn. lia.
  - rewrite countb_snoc. cbn. lia.
Qed.

Lemma finishes_books (cf : config) (w : world) (r : nat) (fin : float) : books cf w -> books cf (finishes r fin w).
Proof.
  intros H. unfold finishes. destruct (requests w !! r) as [q|] eqn:Er; [|exact H]. destruct (finished q) eqn:Ef; [exact H|].
  destruct (mapM (leg_result w) (its_legs q)) as [hs|]; [|exact H]. destruct H.
  constructor; cbn [backends calls gw places requests lat_ms hedged_requests]; try done.
  rewrite length_app, (countb_insert _ _ _ _ _ Er), Ef. cbn. destruct (existsb (fun h => h) hs); cbn; lia.
Qed.

(** A leg begins: its call is created, or runs at once. *)
Lemma leg_begins (cf : config) (w : world) (i b : nat) (now : float) :
  places w !! i = Some (NotStarted b) -> books cf w ->
  books cf (let w' := on_gateway add_leg w in
    if hedging cf then set_leg i (First (length (calls w))) (create b (on_gateway on_primary w'))
    else set_leg i (Plain (length (calls w))) (call_now now b w')).
Proof.
  intros Hi H. pose proof (Forall_lookup_1 _ _ _ _ (w_places _ _ H) Hi) as Hb. cbn in Hb. destruct H. cbn zeta.
  pose proof (funded_leg _ w_funded0) as F1. pose proof (funded_primary _ w_funded0) as F2. destruct (hedging cf).
  - constructor; cbn [backends calls gw places requests lat_ms hedged_requests set_leg create set_calls on_gateway on_primary add_leg legs legs_hedged budget_denied];
      rewrite ?length_app; cbn [length]; try done; rewrite ?(countb_insert _ _ _ _ _ Hi); cbn [has_begun has_hedged undecided bit]; try lia.
    + by apply books_created.
    + apply Forall_app. split; [done|]. by repeat constructor.
    + apply Forall_insert; [eapply places_more; [|done]; lia|]. cbn. lia.
  - destruct (lookup_lt_is_Some_2 (backends w) b Hb) as [s Es]. pose proof (b_value _ _ _ _ (w_backends0 _ _ Es)) as Hv.
    pose proof (begin_moved now s Hv) as Hm. unfold call_now. cbn [backends on_gateway]. rewrite Es. destruct (begin_call now s) as [p s']. cbn [fst snd] in Hm.
    constructor; cbn [backends calls gw places requests lat_ms hedged_requests set_leg create set_calls on_gateway on_primary add_leg legs legs_hedged budget_denied];
      rewrite ?length_app, ?length_insert; cbn [length]; try done; rewrite ?(countb_insert _ _ _ _ _ Hi); cbn [has_begun has_hedged undecided bit]; try lia.
    + by apply (books_new _ _ _ (mkCall b p false) s s').
    + apply Forall_app. split; [done|]. by repeat constructor.
    + apply Forall_insert; [eapply places_more; [|done]; lia|]. cbn. lia.
Qed.

(** The timer of a leg. *)
Lemma leg_expires (cf : config) (w : world) (i c : nat) :
  places w !! i = Some (First c) -> books cf w ->
  books cf (let '(granted, g) := hedge_or_deny (gw w) in
    let w' := on_gateway (fun _ => g) w in
    if granted then set_leg i (Racing c (length (calls w))) (create (backend_of w' c) w') else set_leg i (Awaiting c) w').
Proof.
  intros Hi H. pose proof (Forall_lookup_1 _ _ _ _ (w_places _ _ H) Hi) as Hc. cbn in Hc. destruct H.
  pose proof (funded_take _ w_funded0) as Ht. destruct (hedge_or_deny (gw w)) as [granted g]. destruct Ht as (F & El & Eh & Ed). cbn zeta.
  destruct (lookup_lt_is_Some_2 (calls w) c Hc) as [k Ek]. pose proof (Forall_lookup_1 _ _ _ _ w_to0 Ek) as Hto. cbn in Hto.
  destruct granted; cbn [negb bit] in *;
    (constructor; cbn [backends calls gw places requests lat_ms hedged_requests set_leg create set_calls on_gateway];
      rewrite ?length_app; cbn [length]; try done; rewrite ?(countb_insert _ _ _ _ _ Hi); cbn [has_begun has_hedged undecided bit]; try lia).
  - by apply books_created.
  - apply Forall_app. split; [done|]. unfold backend_of. cbn [calls on_gateway]. rewrite Ek. by repeat constructor.
  - apply Forall_insert; [eapply places_more; [|done]; lia|]. cbn. lia.
  - apply Forall_insert; [done|]. cbn. lia.
Qed.

Lemma leg_runs_books (cf : config) (w : world) (i : nat) (timed_out : bool) (now : float) :
  books cf w -> books cf (leg_runs cf i timed_out now w).
Proof.
  intros H. unfold leg_runs. destruct (places w !! i) as [p|] eqn:Ei; [|exact H].
  destruct p as [b|c|c|c|c d|h]; [by apply leg_begins|..].
  - destruct (over w c); [|exact H]. by apply (leg_moves cf w i (Plain c)).
  - destruct (over w c); [by apply (leg_moves cf w i (First c))|]. destruct timed_out; [|exact H]. by apply leg_expires.
  - destruct (over w c); [|exact H]. by apply (leg_moves cf w i (Awaiting c)).
  - destruct (over w c || over w d); [|exact H]. set (w' := if cancel_losers cf then _ else w).
    assert (Hw : books cf w' /\ places w' = places w) by (unfold w'; destruct (cancel_losers cf); [|done];
      (split; [by do 2 apply fanout_cancel_books|]); by rewrite (proj1 (cancel_places _ _)), (proj1 (cancel_places _ _))).
    destruct Hw as [Hw Ep]. apply (leg_moves cf w' i (Racing c d)); try done. by rewrite Ep.
  - exact H.
Qed.

Lemma fanout_start_books (cf : config) (k : nat) : 0 <= workers cf -> books cf (start cf k).
Proof.
  intros Hk. constructor; cbn [start backends calls gw places requests lat_ms hedged_requests legs legs_hedged budget_denied]; try done.
  - intros b s Hs. apply lookup_replicate in Hs as [-> _]. constructor; cbn; unfold countb, zsum; cbn; lia.
  - exists (20 * unit_k). pose proof unit_k_pos. split; [apply of_Z_small; lia|]. split; [by apply of_Z_wf_small|]. cbn. lia.
Qed.

Lemma fanout_step_books (cf : config) (e : event) (w : world) : books cf w -> books cf (step cf e w).
Proof.
  intros H. destruct e; cbn [step]; [by apply arrives_books|by apply leg_runs_books|by apply call_runs_books|by apply finishes_books].
Qed.

Lemma run_cell_books (cf : config) (k : nat) (es : list event) : 0 <= workers cf -> books cf (run_open_cell cf k es).
Proof.
  intros Hk. unfold run_open_cell. pose proof (fanout_start_books cf k Hk) as H. revert H. generalize (start cf k).
  induction es as [|e es IH]; intros w Hw; [exact Hw|]. cbn [fold_left]. apply IH. by apply fanout_step_books.
Qed.

(** *** Who waits for a call *)

(** A call that runs and is not being cancelled; each has a leg that waits for it. *)
Definition live (k : call) : Prop := is_over (at_ k) = false /\ cancelling k = false.

Definition owned (w : world) : Prop :=
  forall c k, calls w !! c = Some k -> live k -> exists i p, places w !! i = Some p /\ mentions p c.

Lemma owned_leg (w : world) (i : nat) (p q : leg) :
  places w !! i = Some p -> (forall c k, calls w !! c = Some k -> live k -> mentions p c -> mentions q c) ->
  owned w -> owned (set_leg i q w).
Proof.
  intros Hi Hm Ho c k Hc Hk. cbn [calls set_leg] in Hc. destruct (Ho c k Hc Hk) as (j & r & Hj & Hr). cbn [places set_leg].
  destruct (decide (j = i)) as [->|Hne].
  - exists i, q. rewrite Hi in Hj. injection Hj as <-. split; [apply list_lookup_insert_eq; by eapply lookup_lt_Some|by apply (Hm c k)].
  - exists j, r. split; [by rewrite list_lookup_insert_ne|exact Hr].
Qed.

(** A leg that takes a new call. *)
Lemma owned_new (w w' : world) (i : nat) (p q : leg) (k : call) :
  places w !! i = Some p -> calls w' = calls w ++ [k] -> places w' = places w -> (forall c, mentions p c -> mentions q c) ->
  mentions q (length (calls w)) -> owned w -> owned (set_leg i q w').
Proof.
  intros Hi Hc Hp Hm Hq Ho c x Hx Hl. cbn [calls places set_leg] in *. rewrite Hc in Hx. rewrite Hp.
  assert (Hi' : <[i := q]> (places w) !! i = Some q) by (apply list_lookup_insert_eq; by eapply lookup_lt_Some).
  apply lookup_app_Some in Hx as [Hx|[Hge Hx]].
  - destruct (Ho c x Hx Hl) as (j & r & Hj & Hr). destruct (decide (j = i)) as [->|Hne].
    + exists i, q. rewrite Hi in Hj. injection Hj as <-. split; [exact Hi'|by apply Hm].
    + exists j, r. split; [by rewrite list_lookup_insert_ne|exact Hr].
  - exists i, q. split; [exact Hi'|]. assert (c = length (calls w)) as ->; [|exact Hq].
    apply lookup_lt_Some in Hx. cbn in Hx. lia.
Qed.

Lemma owned_cancel (w : world) (c : nat) : owned w -> owned (cancel_task c w).
Proof.
  intros Ho d x Hx Hl. rewrite (proj1 (cancel_places w c)). unfold cancel_task in Hx.
  destruct (calls w !! c) as [k|] eqn:Ec; [|by apply (Ho d x)]. destruct (is_over (at_ k)); [by apply (Ho d x)|].
  cbn [calls set_calls] in Hx. destruct (decide (d = c)) as [->|Hne].
  - rewrite list_lookup_insert_eq in Hx by (by eapply lookup_lt_Some). injection Hx as <-. by destruct Hl.
  - rewrite list_lookup_insert_ne in Hx by done. by apply (Ho d x).
Qed.

(** A cancelled task is not live. *)
Lemma cancel_not_live (w : world) (c d : nat) (x : call) :
  calls (cancel_task d w) !! c = Some x -> live x -> c <> d /\ calls w !! c = Some x.
Proof.
  unfold cancel_task. destruct (calls w !! d) as [k|] eqn:Ed.
  - destruct (is_over (at_ k)) eqn:Eo; intros Hx Hl.
    + split; [|exact Hx]. intros ->. rewrite Ed in Hx. injection Hx as <-. destruct Hl. congruence.
    + cbn [calls set_calls] in Hx. destruct (decide (c = d)) as [->|Hne].
      * rewrite list_lookup_insert_eq in Hx by (by eapply lookup_lt_Some). injection Hx as <-. by destruct Hl.
      * rewrite list_lookup_insert_ne in Hx by done. by split.
  - intros Hx _. split; [|exact Hx]. intros ->. congruence.
Qed.

Lemma over_not_live (w : world) (c : nat) (k : call) : over w c = true -> calls w !! c = Some k -> ~ live k.
Proof. unfold over. intros H E [Hl _]. rewrite E in H. congruence. Qed.

Lemma leg_runs_owned (cf : config) (w : world) (i : nat) (timed_out : bool) (now : float) :
  cancel_losers cf = true -> owned w -> owned (leg_runs cf i timed_out now w).
Proof.
  intros Hcf Ho. unfold leg_runs. destruct (places w !! i) as [p|] eqn:Ei; [|exact Ho].
  destruct p as [b|c|c|c|c d|h].
  - destruct (hedging cf).
    + by eapply (owned_new w _ i (NotStarted b)).
    + unfold call_now. cbn [backends on_gateway]. destruct (backends w !! b) as [s|] eqn:Eb.
      * destruct (begin_call now s) as [p s']. by eapply (owned_new w _ i (NotStarted b)).
      * by apply (owned_leg w i (NotStarted b)).
  - destruct (over w c) eqn:Eo; [|exact Ho]. apply (owned_leg w i (Plain c)); [exact Ei| |exact Ho].
    intros d k Hd Hl ->. by destruct (over_not_live w c k Eo Hd).
  - destruct (over w c) eqn:Eo.
    + apply (owned_leg w i (First c)); [exact Ei| |exact Ho]. intros d k Hd Hl ->. by destruct (over_not_live w c k Eo Hd).
    + destruct timed_out; [|exact Ho]. destruct (hedge_or_deny (gw w)) as [[] g].
      * eapply (owned_new w _ i (First c)); [exact Ei|reflexivity|reflexivity|by intros ? ->; left|by right|exact Ho].
      * by apply (owned_leg (on_gateway (fun _ => g) w) i (First c)).
  - destruct (over w c) eqn:Eo; [|exact Ho]. apply (owned_leg w i (Awaiting c)); [exact Ei| |exact Ho].
    intros d k Hd Hl ->. by destruct (over_not_live w c k Eo Hd).
  - destruct (over w c || over w d); [|exact Ho]. rewrite Hcf.
    apply (owned_leg _ i (Racing c d)); [by rewrite (proj1 (cancel_places _ _)), (proj1 (cancel_places _ _))| |by do 2 apply owned_cancel].
    intros e k He Hl [-> | ->].
    + apply cancel_not_live in He as [_ He]; [|exact Hl]. apply cancel_not_live in He as [He _]; [|exact Hl]. by apply He.
    + apply cancel_not_live in He as [He _]; [|exact Hl]. by apply He.
  - exact Ho.
Qed.

Lemma resume_over (now : float) (k : call) (s : Backend.t) : is_over (at_ k) = true -> (resume now k s).1 = at_ k.
Proof. unfold resume. by destruct (at_ k), (cancelling k). Qed.

Lemma step_owned (cf : config) (e : event) (w : world) : cancel_losers cf = true -> owned w -> owned (step cf e w).
Proof.
  intros Hcf Ho. destruct e as [due|i timed_out now|c now|r fin]; cbn [step].
  - intros c k Hc Hk. destruct (Ho c k Hc Hk) as (i & p & Hi & Hm). exists i, p. split; [|exact Hm]. by apply lookup_app_l_Some.
  - by apply leg_runs_owned.
  - unfold call_runs. destruct (calls w !! c) as [k|] eqn:Ec; [|exact Ho]. destruct (backends w !! to k) as [s|]; [|exact Ho].
    pose proof (resume_over now k s) as Hr. destruct (resume now k s) as [p s']. intros d x Hx Hl. cbn [calls places set_calls] in *.
    destruct (decide (d = c)) as [->|Hne].
    + rewrite list_lookup_insert_eq in Hx by (by eapply lookup_lt_Some). injection Hx as <-. apply (Ho c k Ec).
      destruct Hl as [Hl1 Hl2]. split; [|exact Hl2]. cbn in Hl1. destruct (is_over (at_ k)) eqn:E; [|done]. specialize (Hr eq_refl). cbn in Hr. congruence.
    + rewrite list_lookup_insert_ne in Hx by done. by apply (Ho d x).
  - unfold finishes. destruct (requests w !! r) as [q|]; [|exact Ho]. destruct (finished q); [exact Ho|].
    by destruct (mapM (leg_result w) (its_legs q)).
Qed.

Lemma run_owned (cf : config) (k : nat) (es : list event) : cancel_losers cf = true -> owned (run_open_cell cf k es).
Proof.
  intros Hcf. unfold run_open_cell. assert (H : owned (start cf k)) by (intros c x Hc; done). revert H. generalize (start cf k).
  induction es as [|e es IH]; intros w Hw; [exact Hw|]. cbn [fold_left]. apply IH. by apply step_owned.
Qed.

(** ** Properties *)

#[local] Notation ms t := (lit t 1000).

(** One leg whose first copy is slow: its hedge wins, and the request ends. *)
Definition hedge_wins : list event :=
  [Arrives (ms 0); LegRuns 0 false (ms 0); CallRuns 0 (ms 0); LegRuns 0 true (ms 95); CallRuns 1 (ms 95); CallRuns 1 (ms 105);
   LegRuns 0 false (ms 105); Finishes 0 (ms 105)].

(** C39: Hedging: in every interleaving the workers in use are the calls that are served,
    each counter counts the calls or legs that got there, a leg makes one call and one more
    if it hedges, and hedges are at most twenty and one in twenty legs, rounding counted.  With cancelled losers
    every call that runs and is not being cancelled has a leg that waits for it, so that
    none is left when all legs have returned; without, a loser keeps its worker after its
    request has ended. *)
Theorem hedging_books (cf : config) (k : nat) (es : list event) :
  0 <= workers cf ->
  let w := run_open_cell cf k es in
  books cf w /\
  legs_hedged (gw w) * unit_k <= 20 * unit_k + legs (gw w) * (ratio_k + slop) /\
  (cancel_losers cf = true -> owned w /\
   ((forall i p, places w !! i = Some p -> exists h, p = Returned h) ->
    forall c k, calls w !! c = Some k -> is_over (at_ k) = true \/ cancelling k = true)) /\
  (forall cancels, let w := run_open_cell (mkConfig 2 true cancels) 1 hedge_wins in
   length (lat_ms w) = 1%nat /\ hedged_requests w = 1 /\ (Semaphore.value ∘ Backend.sem) <$> backends w = [1] /\
   cancelling <$> calls w = [cancels; false]).
Proof.
  intros Hk. cbn zeta. pose proof (run_cell_books cf k es Hk) as H. split; [exact H|]. split; [|split].
  - destruct (w_funded _ _ H) as (t & _ & _ & Ht & Hf). lia.
  - intros Hcf. split; [by apply run_owned|]. intros Hp c x Hx. destruct (is_over (at_ x)) eqn:Eo; [by left|]. destruct (cancelling x) eqn:Ec; [by right|].
    destruct (run_owned cf k es Hcf c x Hx) as (i & p & Hi & Hm); [by split|]. by destruct (Hp i p Hi) as [h ->].
  - intros cancels. destruct cancels; vm_compute; auto.
Qed.

Lemma hedging_books_witness :
  let w := run_open_cell (mkConfig 2 true true) 1 hedge_wins in books (mkConfig 2 true true) w.
Proof. exact (proj1 (hedging_books (mkConfig 2 true true) 1 hedge_wins ltac:(cbn; lia))). Defined.

Lemma MS_eq : MS = Fin (1000 * unit_k).
Proof. apply of_Z_small. lia. Qed.

(** Scaling by a positive number keeps the order, infinities included. *)
Lemma fmul_pos_mono (a b : float) (k : Z) :
  0 < k -> fleb a b = true -> fleb (fmul a (Fin k)) (fmul b (Fin k)) = true.
Proof.
  pose proof unit_k_pos. intros Hk Hab. assert (Ek : (k <? 0) = false) by lia.
  destruct a as [x| | |], b as [y| | |], k as [|k|k]; try lia; try discriminate Hab; cbn [fmul fneg xorb]; try rewrite Ek; cbn [xorb];
    try reflexivity; try apply fround_mono; try lia.
  - rewrite fleb_Fin in Hab. apply Z.leb_le in Hab. apply Z.mul_le_mono_nonneg_r; [lia|]. by apply Z.mul_le_mono_nonneg_r; [lia|].
  - destruct (fround _ _) eqn:E; try reflexivity. pose proof (fround_not_nan (x * Z.pos k) unit_k) as Hn. by rewrite E in Hn.
  - destruct (fround _ _) eqn:E; try reflexivity. pose proof (fround_not_nan (y * Z.pos k) unit_k) as Hn. by rewrite E in Hn.
Qed.

(** Coordinated omission: whatever the schedule, the latency that the closed loop
    corrects is at least the raw one, and it is the raw one when a request is on time. *)
Theorem corrected_not_below_raw (start due fin : Z) :
  fleb (raw_ms (Fin start) (Fin fin)) (corrected_ms (Fin start) (Fin due) (Fin fin)) = true /\
  (start <= due -> corrected_ms (Fin start) (Fin due) (Fin fin) = raw_ms (Fin start) (Fin fin)).
Proof.
  unfold raw_ms, corrected_ms, fmin. cbn [fltb]. destruct (Z.ltb_spec due start) as [Hd|Hd].
  - split; [|lia]. rewrite MS_eq. apply fmul_pos_mono; [pose proof unit_k_pos; lia|]. apply fround_mono; lia.
  - split; [|reflexivity]. apply fleb_refl. rewrite MS_eq. cbn [fsub fopp fadd].
    pose proof (fround_not_nan (fin + - start) 1) as Hn. destruct (fround _ 1) as [z| | |]; try reflexivity; [|done].
    apply fround_not_nan.
Qed.
