(* ===== verification/BurnRate.v ===== *)
(** * Observability: error budgets and burn rates

    Models the availability side of
    src/06-observability/06-slos-and-error-budgets/python/burn_rate.py: the shapes, the
    rolling windows, the rules and their replay.  The latency distribution, which needs
    [math.exp], is left out, and [naive_latency_rule] takes any series.

    A count of a minute is a float, as the programs have it; [units] is its exact value. *)

From Stdlib Require Import ZArith Lia.
From stdpp Require Import base option list numbers strings.
From S2P Require Import Prelude PyFloat.

Open Scope Z_scope.

(** ** Definitions *)

Definition TARGET : float := lit 999 1000.
Definition REQUESTS_PER_MINUTE : Z := 6000.
Definition BASELINE_ERROR_RATIO : float := lit 2 10000.

(** A rule: its long and its short window, in minutes, and the burn rate. *)
Record rule : Type := mkRule { long_win : Z; short_win : Z; factor : float }.

Definition RULES : list rule := [mkRule 60 5 (lit 144 10); mkRule 360 30 (of_Z 6); mkRule 4320 360 (of_Z 1)].

(** *** burn_rate.py *)

Definition SIM_MINUTES : Z := 6 * 24 * 60.
Definition INCIDENT_START : Z := 4 * 24 * 60.

Record Shape : Type := mkShape { duration : Z; error_ratio : option float }.

Definition active (s : Shape) (minute : Z) : bool :=
  (INCIDENT_START <=? minute) && (minute <? INCIDENT_START + duration s).

Definition error_ratio_at (s : Shape) (minute : Z) : float :=
  match error_ratio s with
  | Some r => if active s minute then r else BASELINE_ERROR_RATIO
  | None => BASELINE_ERROR_RATIO
  end.

Definition shape_A : Shape := mkShape 3 (Some (of_Z 1)).
Definition shape_B : Shape := mkShape 240 (Some (lit 8 100)).

Definition errors (s : Shape) (minute : Z) : float := fmul (error_ratio_at s minute) (of_Z REQUESTS_PER_MINUTE).

(** [simulate], for availability. *)
Definition availability_bad (s : Shape) : list float := (fun m => errors s (Z.of_nat m)) <$> seq 0 (Z.to_nat SIM_MINUTES).

Fixpoint prefix_from (total : float) (values : list float) : list float :=
  total :: match values with [] => [] | v :: values => prefix_from (fadd total v) values end.

Definition prefix_sums (values : list float) : list float := prefix_from (of_Z 0) values.

(** [(bad / valid) / (1 - TARGET)]; [None]: [ZeroDivisionError]. *)
Definition burn (bad : float) (valid : Z) : option float :=
  q ← fdiv bad (of_Z valid); fdiv q (fsub (of_Z 1) TARGET).

(** Also [None] for an [IndexError]. *)
Definition burn_rate (prefix : list float) (minute window : Z) : option float :=
  let start := minute - window + 1 in
  if start <? 0 then Some (of_Z 0)
  else
    p ← prefix !! Z.to_nat (minute + 1);
    s ← prefix !! Z.to_nat start;
    burn (fsub p s) (window * REQUESTS_PER_MINUTE).

(** The body of the loop of [evaluate]. *)
Definition fires (use_short_window : bool) (prefix : list float) (r : rule) (minute : Z) : option bool :=
  long_burn ← burn_rate prefix minute (long_win r);
  if fleb long_burn (factor r) then Some false
  else if use_short_window
  then short_burn ← burn_rate prefix minute (short_win r); Some (negb (fleb short_burn (factor r)))
  else Some true.

Fixpoint collect (p : Z -> option bool) (from : Z) (n : nat) : option (list Z) :=
  match n with
  | O => Some []
  | S n => b ← p from; l ← collect p (from + 1) n; Some (if b : bool then from :: l else l)
  end.

(** [range(a, b)]. *)
Definition range (a b : Z) : list Z := (fun k => a + Z.of_nat k) <$> seq 0 (Z.to_nat (b - a)).

Definition evaluate (use_short_window : bool) (prefix : list float) : option (list (list Z)) :=
  mapM (fun r => collect (fires use_short_window prefix r) (long_win r) (Z.to_nat (SIM_MINUTES - long_win r))) RULES.

(** [enumerate] with the streak. *)
Fixpoint naive_from (minute streak : Z) (threshold_ms : float) (for_minutes : Z) (p99_series : list float) : list Z :=
  match p99_series with
  | [] => []
  | p99 :: l =>
      let streak := if fltb threshold_ms p99 then streak + 1 else 0 in
      let firing := naive_from (minute + 1) streak threshold_ms for_minutes l in
      if for_minutes <=? streak then minute :: firing else firing
  end.

Definition naive_latency_rule (threshold_ms : float) (for_minutes : Z) (p99_series : list float) : list Z :=
  naive_from 0 0 threshold_ms for_minutes p99_series.

(** First and last minute of an alert, and how long it is lit after the incident. *)
Record summary : Type := mkSummary { first_ : Z; detect : Z; lit_minutes : Z; lit_after_end : Z }.

Definition summarise (minutes : list Z) (incident_start incident_end : Z) : option summary :=
  match minutes with
  | [] => None
  | m :: l =>
      let first := foldr Z.min m l in
      let last := foldr Z.max m l in
      Some (mkSummary first (first - incident_start) (Z.of_nat (length minutes))
              (if incident_end <=? last then Z.max 0 (last - incident_end + 1) else 0))
  end.

(** ** Lemmas *)

(** *** Sums of floats *)

Definition units (a : float) : Z := match a with Fin k => k | _ => 0 end.
Definition total (l : list float) : Z := zsum (units <$> l).

(** A count of a minute. *)
Definition counted (a : float) : Prop := exists k, a = Fin k /\ 0 <= k <= REQUESTS_PER_MINUTE * unit_k.

(** The rounding of one sum below 2^26, in units: 2^-27. *)
Definition ulp : Z := 2 ^ 1047.

Lemma unit_ulp : unit_k = 2 ^ 27 * ulp.
Proof. rewrite unit_k_eq. unfold ulp. by rewrite <- Z.pow_add_r by lia. Qed.

Lemma ulp_pos : 0 < ulp.
Proof. apply Z.pow_pos_nonneg; lia. Qed.

Opaque ulp.

Lemma fround_near_abs (n : Z) :
  Z.abs n < 2 ^ 26 * unit_k -> exists k, fround n 1 = Fin k /\ Z.abs (k - n) <= ulp.
Proof.
  intros Hn. assert (He : forall n, 0 <= n < 2 ^ 26 * unit_k -> exists k, fround n 1 = Fin k /\ 0 <= k /\ Z.abs (k - n) <= ulp).
  { intros j Hj. destruct (fround_near_at 26 j 1) as (k & Ek & Hk & Hb); [lia..|]. exists k. split; [exact Ek|]. split; [exact Hk|].
    change (2 ^ (1021 + 26)) with ulp in Hb. lia. }
  destruct (Z.le_gt_cases 0 n) as [H0|H0].
  - destruct (He n) as (k & Ek & _ & Hk); [lia|]. by exists k.
  - destruct (He (- n)) as (k & Ek & Hk0 & Hk); [lia|]. exists (- k). split; [|lia].
    assert (Er : rnd (- n) 1 = k /\ - max_k < k < max_k).
    { rewrite fround_eq in Ek. unfold overflow in Ek. destruct (max_k <=? rnd (- n) 1) eqn:E1; [done|].
      destruct (rnd (- n) 1 <=? - max_k) eqn:E2; [done|]. to_props. injection Ek as Ek. lia. }
    destruct Er as [Er Hm]. assert (Er' : rnd n 1 = - k) by (rewrite <- Er, rnd_opp by lia; lia).
    rewrite fround_eq. unfold overflow. rewrite Er'. destruct (max_k <=? - k) eqn:E1; to_props; [lia|].
    destruct (- k <=? - max_k) eqn:E2; to_props; [lia|]. reflexivity.
Qed.

Lemma total_snoc (l : list float) (a : float) : total (l ++ [a]) = total l + units a.
Proof. unfold total. rewrite fmap_app, zsum_app. unfold zsum. simpl. lia. Qed.

Lemma total_app (l k : list float) : total (l ++ k) = total l + total k.
Proof. unfold total. by rewrite fmap_app, zsum_app. Qed.

Lemma total_bounds (l : list float) : Forall counted l -> 0 <= total l <= Z.of_nat (length l) * (REQUESTS_PER_MINUTE * unit_k).
Proof.
  induction l as [|a l IH]; intros H; [done|]. apply List.Forall_cons_iff in H as [(k & -> & Hk) H]. specialize (IH H).
  unfold total in *. rewrite zsum_fmap_cons. cbn [units length]. rewrite Nat2Z.inj_succ, Z.mul_succ_l. lia.
Qed.

(** The sum that the program has of at most 10000 counts. *)
Lemma sum_near (l : list float) :
  Forall counted l -> Z.of_nat (length l) <= 10000 ->
  exists p, fold_left fadd l (of_Z 0) = Fin p /\ Z.abs (p - total l) <= Z.of_nat (length l) * ulp.
Proof.
  rewrite of_Z_0. induction l as [|a l IH] using rev_ind; intros Hl Hn; [exists 0; by split|].
  apply Forall_app in Hl as [Hl (k & -> & Hk)%Forall_singleton]. rewrite length_app in Hn. cbn [length] in Hn.
  destruct IH as (p & Ep & Hp); [exact Hl|lia|]. pose proof (total_bounds l Hl) as Ht. pose proof unit_ulp. pose proof ulp_pos.
  rewrite fold_left_app, Ep. cbn [fold_left]. change (fadd (Fin p) (Fin k)) with (fround (p + k) 1).
  unfold REQUESTS_PER_MINUTE in *.
  destruct (fround_near_abs (p + k)) as (q & Eq & Hq); [nia|]. exists q. split; [exact Eq|].
  rewrite total_snoc, length_app. cbn [units length]. lia.
Qed.

Lemma prefix_lookup (l : list float) (x : float) (j : nat) :
  (j <= length l)%nat -> prefix_from x l !! j = Some (fold_left fadd (take j l) x).
Proof.
  revert x j. induction l as [|a l IH]; intros x [|j] H; cbn in *; try lia; try done. rewrite IH by lia. done.
Qed.

(** The exact count of the window that ends at [minute]. *)
Definition in_window (counts : list float) (minute window : Z) : Z :=
  total (take (Z.to_nat window) (drop (Z.to_nat (minute - window + 1)) counts)).

Lemma in_window_split (counts : list float) (minute window : Z) :
  0 <= window <= minute + 1 ->
  total (take (Z.to_nat (minute + 1)) counts) = total (take (Z.to_nat (minute - window + 1)) counts) + in_window counts minute window.
Proof.
  intros H. unfold in_window. rewrite take_drop_commute, <- total_app.
  replace (Z.to_nat (minute - window + 1) + Z.to_nat window)%nat with (Z.to_nat (minute + 1)) by lia.
  f_equal. rewrite <- (take_drop (Z.to_nat (minute - window + 1)) (take (Z.to_nat (minute + 1)) counts)) at 1.
  rewrite take_take. f_equal. f_equal. lia.
Qed.

(** *** Deciding a burn rate *)

(** At half an event below and above the threshold [t], the rate of a window of [valid] is
    not above the factor [f], and above it. *)
Definition decides (t valid : Z) (f : float) : bool :=
  (0 <? valid) && (0 <? units (fsub (of_Z 1) TARGET)) &&
  match burn (lit (2 * t - 1) 2) valid, burn (lit (2 * t + 1) 2) valid with
  | Some lo, Some hi => fleb lo f && fltb f hi
  | _, _ => false
  end.

Lemma fdiv_mono (a b : float) (y : Z) :
  0 < y -> fleb a b = true -> exists q q', fdiv a (Fin y) = Some q /\ fdiv b (Fin y) = Some q' /\ fleb q q' = true.
Proof.
  intros Hy Hx. destruct y as [|y|y]; [lia| |lia]. pose proof unit_k_pos.
  assert (Hi : forall n, fleb (fround n (Z.pos y)) PInf = true /\ fleb NInf (fround n (Z.pos y)) = true).
  { intros n. rewrite fround_eq. unfold overflow. by repeat case_match. }
  destruct a as [x| | |], b as [x'| | |]; try done; cbn; (do 2 eexists); (split; [reflexivity|]); (split; [reflexivity|]); try done; try apply Hi.
  rewrite fleb_Fin in Hx. to_props. apply fround_mono; [lia..|].
  apply Z.mul_le_mono_nonneg_r; [lia|]. apply Z.mul_le_mono_nonneg_r; lia.
Qed.

Lemma burn_mono (a b : float) (valid : Z) :
  0 < valid <= 2 ^ 53 -> 0 < units (fsub (of_Z 1) TARGET) -> fleb a b = true ->
  exists q q', burn a valid = Some q /\ burn b valid = Some q' /\ fleb q q' = true.
Proof.
  intros Hv Ht Hab. unfold burn. rewrite (of_Z_small valid) by lia. pose proof unit_k_pos.
  destruct (fdiv_mono a b (valid * unit_k)) as (q & q' & -> & -> & Hq); [nia|exact Hab|]. cbn [option_bind mbind].
  destruct (fsub (of_Z 1) TARGET) as [y| | |]; cbn in Ht; try lia. by apply fdiv_mono.
Qed.

Lemma lit_half (z : Z) : Z.abs z <= 2 ^ 53 -> lit z 2 = Fin (z * 2 ^ 1073).
Proof.
  intros Hz. rewrite lit_eq. replace (z * unit_k) with (z * 2 ^ 1073 * 2) by (rewrite unit_k_eq; change 1074 with (1 + 1073); rewrite Z.pow_add_r by lia; lia).
  pose proof (rep_int z Hz) as Hr. apply fround_exact; [lia| |].
  - destruct (Z.le_gt_cases 0 z); [apply rep_mult; lia|]. replace (z * 2 ^ 1073) with (- (- z * 2 ^ 1073)) by lia.
    apply rep_opp, rep_mult; lia.
  - rewrite max_k_unit, unit_k_eq. rewrite Z.abs_mul, (Z.abs_eq (2 ^ 1073)) by (apply Z.pow_nonneg; lia).
    apply Z.le_lt_trans with (2 ^ 53 * 2 ^ 1073); [apply Z.mul_le_mono_nonneg_r; [apply Z.pow_nonneg; lia|exact Hz]|].
    rewrite <- !Z.pow_add_r by lia. apply Z.pow_lt_mono_r; lia.
Qed.

Lemma burn_decides (t valid x : Z) (f : float) :
  0 <= t <= 2 ^ 50 -> valid <= 2 ^ 53 -> decides t valid f = true ->
  (exists b, burn (Fin x) valid = Some b) /\
  (2 * x <= (2 * t - 1) * unit_k -> exists b, burn (Fin x) valid = Some b /\ fleb b f = true) /\
  ((2 * t + 1) * unit_k <= 2 * x -> exists b, burn (Fin x) valid = Some b /\ fltb f b = true /\ fleb b f = false).
Proof.
  intros Ht Hv H. unfold decides in H. apply andb_true_iff in H as [H Hd]. apply andb_true_iff in H as [H0 H1]. to_props.
  assert (Hh : unit_k = 2 * 2 ^ 1073) by (rewrite unit_k_eq; change 1074 with (1 + 1073); by rewrite Z.pow_add_r by lia).
  destruct (burn (lit (2 * t - 1) 2) valid) as [lo|] eqn:El; [|done].
  destruct (burn (lit (2 * t + 1) 2) valid) as [hi|] eqn:Eh; [|done]. apply andb_true_iff in Hd as [Hlo Hhi].
  rewrite lit_half in El, Eh by lia. split; [|split; intros Hx].
  - destruct (burn_mono (Fin x) (Fin x) valid) as (q & _ & Eq & _); [lia|exact H1|by apply fleb_refl|]. by exists q.
  - destruct (burn_mono (Fin x) (Fin ((2 * t - 1) * 2 ^ 1073)) valid) as (q & q' & Eq & Eq' & Hq); [lia|exact H1| |].
    + rewrite fleb_Fin. apply Z.leb_le. lia.
    + exists q. split; [exact Eq|]. rewrite El in Eq'. injection Eq' as <-. by eapply fleb_trans.
  - destruct (burn_mono (Fin ((2 * t + 1) * 2 ^ 1073)) (Fin x) valid) as (q & q' & Eq & Eq' & Hq); [lia|exact H1| |].
    + rewrite fleb_Fin. apply Z.leb_le. lia.
    + exists q'. split; [exact Eq'|]. rewrite Eh in Eq. injection Eq as <-. pose proof (fltb_fleb_trans _ _ _ Hhi Hq) as Hlt.
      split; [exact Hlt|]. destruct (fleb q' f) eqn:E; [|done]. apply fleb_not_fltb in E. by rewrite E in Hlt.
Qed.

(** The thresholds of a rule's windows, in bad events: [6 * factor * window]. *)
Definition thresholds (r : rule) (tl ts : Z) : Prop :=
  In (r, tl, ts) (zip (zip RULES [5184; 12960; 25920]) [432; 1080; 2160]).

Record sharp (r : rule) (tl ts : Z) : Prop := {
  s_wins : 0 < short_win r <= long_win r /\ long_win r <= 4320;
  s_range : 0 <= tl <= 2 ^ 50 /\ 0 <= ts <= 2 ^ 50;
  s_long : decides tl (long_win r * REQUESTS_PER_MINUTE) (factor r) = true;
  s_short : decides ts (short_win r * REQUESTS_PER_MINUTE) (factor r) = true }.

Lemma thresholds_sharp (r : rule) (tl ts : Z) : thresholds r tl ts -> sharp r tl ts.
Proof.
  assert (H : Forall (fun '(r, tl, ts) => sharp r tl ts) (zip (zip RULES [5184; 12960; 25920]) [432; 1080; 2160])).
  { repeat apply List.Forall_cons; [..|apply List.Forall_nil]; (split; [cbn; lia|lia|vm_compute; reflexivity..]). }
  intros Hr. exact (proj1 (List.Forall_forall _ _) H _ Hr).
Qed.

(** *** The rolling windows of burn_rate.py *)

Section windows.
Context (counts : list float).
Hypothesis counts_ok : Forall counted counts.
Hypothesis counts_length : Z.of_nat (length counts) <= 10000.

Lemma prefix_near (j : Z) :
  0 <= j <= Z.of_nat (length counts) ->
  exists p, prefix_sums counts !! Z.to_nat j = Some (Fin p) /\ Z.abs (p - total (take (Z.to_nat j) counts)) <= 10000 * ulp.
Proof using counts_ok counts_length.
  intros Hj. unfold prefix_sums. rewrite prefix_lookup by lia. pose proof ulp_pos.
  destruct (sum_near (take (Z.to_nat j) counts)) as (p & -> & Hp); [by apply Forall_take|rewrite length_take; lia|].
  exists p. split; [reflexivity|]. rewrite length_take in Hp. nia.
Qed.

(** A window is above the factor of a rule if its exact count is an event above the
    threshold, and not if it is an event below. *)
Lemma window_decides (t window minute : Z) (f : float) :
  0 <= t <= 2 ^ 50 -> 0 < window <= 4320 -> window <= minute + 1 -> minute < Z.of_nat (length counts) ->
  decides t (window * REQUESTS_PER_MINUTE) f = true ->
  (exists b, burn_rate (prefix_sums counts) minute window = Some b) /\
  (in_window counts minute window <= (t - 1) * unit_k -> exists b, burn_rate (prefix_sums counts) minute window = Some b /\ fleb b f = true) /\
  ((t + 1) * unit_k <= in_window counts minute window ->
    exists b, burn_rate (prefix_sums counts) minute window = Some b /\ fleb b f = false).
Proof using counts_ok counts_length.
  intros Ht Hw Hm Hlen Hd. unfold burn_rate. destruct (Z.ltb_spec (minute - window + 1) 0); [lia|].
  destruct (prefix_near (minute + 1)) as (p & -> & Hp); [lia|]. destruct (prefix_near (minute - window + 1)) as (s & -> & Hs); [lia|].
  pose proof (in_window_split counts minute window ltac:(lia)) as Hsplit. pose proof unit_ulp as Hu. pose proof ulp_pos as He.
  pose proof (total_bounds (take (Z.to_nat (minute + 1)) counts) ltac:(by apply Forall_take)) as Hb1.
  pose proof (total_bounds (take (Z.to_nat (minute - window + 1)) counts) ltac:(by apply Forall_take)) as Hb2.
  rewrite length_take in Hb1, Hb2. unfold REQUESTS_PER_MINUTE in *. cbn [option_bind mbind].
  change (fsub (Fin p) (Fin s)) with (fround (p - s) 1).
  destruct (fround_near_abs (p - s)) as (x & -> & Hx); [nia|].
  destruct (burn_decides t (window * 6000) x f Ht ltac:(lia) Hd) as (H0 & H1 & H2).
  split; [exact H0|]. split; intros Hc; [apply H1; lia|]. destruct H2 as (b & Eb & _ & Hb); [lia|]. by exists b.
Qed.

Context (r : rule) (tl ts minute : Z).
Hypothesis Hr : sharp r tl ts.
Hypothesis warm : long_win r <= minute + 1.
Hypothesis within : minute < Z.of_nat (length counts).

(** An alert is lit when both windows are an event above their thresholds, not when one of
    them that it looks at is an event below. *)
Lemma fires_decides (use_short : bool) :
  ((tl + 1) * unit_k <= in_window counts minute (long_win r) ->
   (use_short = true -> (ts + 1) * unit_k <= in_window counts minute (short_win r)) ->
   fires use_short (prefix_sums counts) r minute = Some true) /\
  (in_window counts minute (long_win r) <= (tl - 1) * unit_k \/
   (use_short = true /\ in_window counts minute (short_win r) <= (ts - 1) * unit_k) ->
   fires use_short (prefix_sums counts) r minute = Some false).
Proof using counts_ok counts_length Hr warm within.
  destruct Hr as [Hw [Htl Hts] Hl Hs]. unfold fires.
  destruct (window_decides tl (long_win r) minute (factor r)) as ((b & Eb) & L1 & L2); [lia..|exact Hl|].
  destruct (window_decides ts (short_win r) minute (factor r)) as ((c & Ec) & S1 & S2); [lia..|exact Hs|]. rewrite Eb. cbn [option_bind mbind].
  split.
  - intros HL HS. destruct L2 as (b' & Eb' & Hb); [exact HL|]. rewrite Eb in Eb'. injection Eb' as <-. rewrite Hb.
    destruct use_short; [|done]. rewrite Ec. destruct S2 as (c' & Ec' & Hc); [by apply HS|]. rewrite Ec in Ec'. injection Ec' as <-. cbn. by rewrite Hc.
  - intros [HL|[-> HS]].
    + destruct L1 as (b' & Eb' & Hb); [exact HL|]. rewrite Eb in Eb'. injection Eb' as <-. by rewrite Hb.
    + destruct S1 as (c' & Ec' & Hc); [exact HS|]. rewrite Ec in Ec'. injection Ec' as <-. rewrite Ec. cbn. rewrite Hc. by destruct (fleb b (factor r)).
Qed.

End windows.

(** *** The shapes *)

(** Minutes of [[a, a + w)] in the incident. *)
Definition overlap (start d a w : Z) : Z := Z.max 0 (Z.min (a + w) (start + d) - Z.max a start).

(** Counts that are [bad] in the incident and [base] outside. *)
Lemma total_overlap (v : Z -> float) (start d base bad a : Z) (w : nat) :
  0 <= d -> (forall m, units (v m) = if (start <=? m) && (m <? start + d) then bad else base) -> 0 <= a ->
  total ((fun m => v (Z.of_nat m)) <$> seq (Z.to_nat a) w) = Z.of_nat w * base + overlap start d a (Z.of_nat w) * (bad - base).
Proof.
  intros Hd Hv Ha. induction w as [|w IH]; [unfold overlap, total; cbn; nia|].
  rewrite seq_S, fmap_app, total_app, IH. unfold total at 1. cbn [fmap list_fmap zsum foldr]. rewrite Hv.
  replace (Z.of_nat (Z.to_nat a + w)) with (a + Z.of_nat w) by lia. unfold overlap.
  destruct (start <=? a + Z.of_nat w) eqn:E1, (a + Z.of_nat w <? start + d) eqn:E2; cbn [andb]; to_props;
    [replace (Z.max 0 (Z.min (a + Z.of_nat (S w)) (start + d) - Z.max a start)) with
      (Z.max 0 (Z.min (a + Z.of_nat w) (start + d) - Z.max a start) + 1) by lia
    |replace (Z.max 0 (Z.min (a + Z.of_nat (S w)) (start + d) - Z.max a start)) with
      (Z.max 0 (Z.min (a + Z.of_nat w) (start + d) - Z.max a start)) by lia..]; lia.
Qed.

Lemma window_of_seq (v : Z -> float) (n : nat) (minute window : Z) :
  0 <= window <= minute + 1 -> minute < Z.of_nat n ->
  in_window ((fun m => v (Z.of_nat m)) <$> seq 0 n) minute window =
  total ((fun m => v (Z.of_nat m)) <$> seq (Z.to_nat (minute - window + 1)) (Z.to_nat window)).
Proof.
  intros Hw Hm. unfold in_window. rewrite <- fmap_drop, <- fmap_take. do 2 f_equal.
  apply list_eq. intros i. destruct (decide (i < Z.to_nat window)%nat) as [Hi|Hi].
  - rewrite lookup_take_lt, lookup_drop by done. rewrite !lookup_seq_lt by lia. f_equal.
  - rewrite lookup_take_ge, lookup_seq_ge by lia. done.
Qed.

(** A threshold [t] lies between [c] and [c + 1] minutes of the incident in a window [w]. *)
Definition cut (base bad t w c : Z) : Prop :=
  w * base + c * (bad - base) <= (t - 1) * unit_k /\ (t + 1) * unit_k <= w * base + (c + 1) * (bad - base).

Lemma cut_decides (base bad t w c o : Z) :
  base <= bad -> cut base bad t w c ->
  (o <= c -> w * base + o * (bad - base) <= (t - 1) * unit_k) /\ (c < o -> (t + 1) * unit_k <= w * base + o * (bad - base)).
Proof.
  intros Hb [H1 H2]. split; intros Ho.
  - assert (o * (bad - base) <= c * (bad - base)) by (apply Z.mul_le_mono_nonneg_r; lia). lia.
  - assert ((c + 1) * (bad - base) <= o * (bad - base)) by (apply Z.mul_le_mono_nonneg_r; lia). lia.
Qed.

Section shapes.
Context (s : Shape) (base bad : Z).
Hypothesis duration_pos : 0 <= duration s.
Hypothesis base_bad : 0 <= base <= bad /\ bad <= REQUESTS_PER_MINUTE * unit_k.
Hypothesis errors_eq : forall m, errors s m = Fin (if active s m then bad else base).

Lemma availability_counted : Forall counted (availability_bad s) /\ length (availability_bad s) = Z.to_nat SIM_MINUTES.
Proof using base_bad errors_eq.
  split; [|unfold availability_bad; by rewrite length_fmap, length_seq]. apply Forall_fmap, list.Forall_forall. intros m _. cbn.
  rewrite errors_eq. eexists. split; [reflexivity|]. destruct (active s (Z.of_nat m)); lia.
Qed.

Lemma availability_window (minute window : Z) :
  0 <= window <= minute + 1 -> minute < SIM_MINUTES ->
  in_window (availability_bad s) minute window =
  window * base + overlap INCIDENT_START (duration s) (minute - window + 1) window * (bad - base).
Proof using duration_pos errors_eq.
  intros Hw Hm. unfold availability_bad. rewrite window_of_seq by (unfold SIM_MINUTES in *; lia).
  rewrite (total_overlap (errors s) INCIDENT_START (duration s) base bad) by (try lia; intros m; rewrite errors_eq; reflexivity).
  by rewrite Z2Nat.id by lia.
Qed.

(** When a rule is lit, in minutes of the incident in its windows. *)
Lemma shape_fires (use_short : bool) (r : rule) (tl ts cl cs minute : Z) :
  sharp r tl ts -> cut base bad tl (long_win r) cl -> cut base bad ts (short_win r) cs ->
  long_win r <= minute + 1 -> minute < SIM_MINUTES ->
  fires use_short (prefix_sums (availability_bad s)) r minute =
  Some ((cl <? overlap INCIDENT_START (duration s) (minute - long_win r + 1) (long_win r)) &&
        (negb use_short || (cs <? overlap INCIDENT_START (duration s) (minute - short_win r + 1) (short_win r)))).
Proof using duration_pos base_bad errors_eq.
  intros Hr Hl Hs Hw Hm. destruct availability_counted as [Hc Hlen]. pose proof Hr as [Hws _ _ _].
  destruct (fires_decides (availability_bad s) Hc ltac:(rewrite Hlen; vm_compute; discriminate) r tl ts minute Hr Hw
    ltac:(rewrite Hlen; unfold SIM_MINUTES in *; lia) use_short) as [F1 F2].
  rewrite (availability_window minute (long_win r)) in F1, F2 by lia. rewrite (availability_window minute (short_win r)) in F1, F2 by lia.
  set (ol := overlap _ _ _ (long_win r)) in *. set (os := overlap _ _ _ (short_win r)) in *.
  destruct (cut_decides base bad tl (long_win r) cl ol) as [L1 L2]; [lia|exact Hl|].
  destruct (cut_decides base bad ts (short_win r) cs os) as [S1 S2]; [lia|exact Hs|].
  destruct (Z.ltb_spec cl ol); cbn [andb]; [|apply F2; left; by apply L1].
  destruct use_short; cbn [negb orb]; [|apply F1; [by apply L2|done]].
  destruct (Z.ltb_spec cs os); [apply F1; [by apply L2|intros _; by apply S2]|apply F2; right; split; [done|by apply S1]].
Qed.

End shapes.

Lemma range_nil (a b : Z) : b <= a -> range a b = [].
Proof. intros H. unfold range. by replace (Z.to_nat (b - a)) with 0%nat by lia. Qed.

Lemma range_cons (a b : Z) : a < b -> range a b = a :: range (a + 1) b.
Proof.
  intros H. unfold range. replace (Z.to_nat (b - a)) with (S (Z.to_nat (b - (a + 1)))) by lia. cbn [seq].
  rewrite fmap_cons, <- fmap_S_seq, <- list_fmap_compose. f_equal; [lia|]. apply list_fmap_ext. intros i k _. cbn. lia.
Qed.

(** The minutes of an interval. *)
Lemma collect_range (p : Z -> option bool) (lo hi from : Z) (n : nat) :
  (forall m, from <= m < from + Z.of_nat n -> p m = Some ((lo <=? m) && (m <? hi))) -> hi <= from + Z.of_nat n ->
  collect p from n = Some (range (Z.max lo from) hi).
Proof.
  revert from. induction n as [|n IH]; intros from Hp Hh; cbn [collect]; [rewrite range_nil by lia; done|].
  rewrite Hp by lia. cbn [option_bind mbind]. rewrite IH; [|intros m Hm; apply Hp; lia|lia]. cbn [option_bind mbind].
  destruct (Z.leb_spec lo from); cbn [andb]; [|by rewrite Z.max_l, Z.max_l by lia].
  rewrite (Z.max_r lo (from + 1)), (Z.max_r lo from) by lia. destruct (Z.ltb_spec from hi); [by rewrite (range_cons from)|].
  by rewrite !range_nil by lia.
Qed.

(** *** The two availability incidents *)

Definition base_k : Z := units (fmul BASELINE_ERROR_RATIO (of_Z REQUESTS_PER_MINUTE)).
Definition outage_k : Z := units (fmul (of_Z 1) (of_Z REQUESTS_PER_MINUTE)).
Definition partial_k : Z := units (fmul (lit 8 100) (of_Z REQUESTS_PER_MINUTE)).

Definition cutb (base bad t w c : Z) : bool :=
  (w * base + c * (bad - base) <=? (t - 1) * unit_k) && ((t + 1) * unit_k <=? w * base + (c + 1) * (bad - base)).

Lemma cut_of (base bad t w c : Z) : cutb base bad t w c = true -> cut base bad t w c.
Proof. unfold cutb. intros H. apply andb_true_iff in H as [H1 H2]. split; by apply Z.leb_le. Qed.

Lemma rules_sharp : sharp (mkRule 60 5 (lit 144 10)) 5184 432 /\ sharp (mkRule 360 30 (of_Z 6)) 12960 1080 /\ sharp (mkRule 4320 360 (of_Z 1)) 25920 2160.
Proof. split; [|split]; apply thresholds_sharp; unfold thresholds; cbn; auto. Qed.

Lemma outage_values : fmul BASELINE_ERROR_RATIO (of_Z REQUESTS_PER_MINUTE) = Fin base_k /\
  fmul (of_Z 1) (of_Z REQUESTS_PER_MINUTE) = Fin outage_k /\ fmul (lit 8 100) (of_Z REQUESTS_PER_MINUTE) = Fin partial_k /\
  (0 <=? base_k) && (base_k <=? partial_k) && (partial_k <=? outage_k) && (outage_k <=? REQUESTS_PER_MINUTE * unit_k) = true.
Proof. vm_compute. auto. Qed.

Lemma shape_A_errors (m : Z) : errors shape_A m = Fin (if active shape_A m then outage_k else base_k).
Proof. unfold errors, error_ratio_at. cbn [error_ratio shape_A]. destruct outage_values as (H1 & H2 & _). destruct (active shape_A m); [exact H2|exact H1]. Qed.

Lemma shape_B_errors (m : Z) : errors shape_B m = Fin (if active shape_B m then partial_k else base_k).
Proof. unfold errors, error_ratio_at. cbn [error_ratio shape_B]. destruct outage_values as (H1 & _ & H3 & _). destruct (active shape_B m); [exact H3|exact H1]. Qed.

(** One rule of a replay: lit from [lo] to [hi], given in minutes of the incident. *)
Lemma collect_fires (use_short : bool) (s : Shape) (base bad tl ts cl cs lo hi : Z) (r : rule) :
  0 <= duration s -> 0 <= base <= bad /\ bad <= REQUESTS_PER_MINUTE * unit_k ->
  (forall m, errors s m = Fin (if active s m then bad else base)) ->
  sharp r tl ts -> cutb base bad tl (long_win r) cl && cutb base bad ts (short_win r) cs = true ->
  long_win r <= lo -> hi <= SIM_MINUTES ->
  (forall m, long_win r <= m < SIM_MINUTES ->
    (cl < overlap INCIDENT_START (duration s) (m - long_win r + 1) (long_win r) /\
     (use_short = true -> cs < overlap INCIDENT_START (duration s) (m - short_win r + 1) (short_win r)) <-> lo <= m < hi)) ->
  collect (fires use_short (prefix_sums (availability_bad s)) r) (long_win r) (Z.to_nat (SIM_MINUTES - long_win r)) = Some (range lo hi).
Proof.
  intros Hd Hb He Hr Hc Hlo Hhi Hm. apply andb_true_iff in Hc as [Hcl Hcs]. pose proof Hr as [Hw _ _ _].
  rewrite (collect_range _ lo hi) by (try (unfold SIM_MINUTES in *; lia); intros m Hmm;
    rewrite (shape_fires s base bad Hd Hb He use_short r tl ts cl cs m Hr) by (by apply cut_of || (unfold SIM_MINUTES in *; lia));
    f_equal; apply eq_true_iff_eq; rewrite !andb_true_iff, orb_true_iff, Z.leb_le, !Z.ltb_lt;
    rewrite <- Hm by (unfold SIM_MINUTES in *; lia); destruct use_short; cbn; intuition congruence).
  by rewrite Z.max_l by lia.
Qed.

Lemma evaluate_eq (use_short : bool) (counts : list float) (l1 l2 l3 : list Z) :
  let p := prefix_sums counts in
  collect (fires use_short p (mkRule 60 5 (lit 144 10))) 60 (Z.to_nat (SIM_MINUTES - 60)) = Some l1 ->
  collect (fires use_short p (mkRule 360 30 (of_Z 6))) 360 (Z.to_nat (SIM_MINUTES - 360)) = Some l2 ->
  collect (fires use_short p (mkRule 4320 360 (of_Z 1))) 4320 (Z.to_nat (SIM_MINUTES - 4320)) = Some l3 ->
  evaluate use_short p = Some [l1; l2; l3].
Proof. intros p H1 H2 H3. unfold evaluate, RULES. cbn [mapM long_win]. fold p. by rewrite H1, H2, H3. Qed.

(** One rule of a shape, with the minutes of the incident that its thresholds lie after. *)
#[local] Ltac lit_by s bad tl ts cl cs errors_eq sharp_eq :=
  let H := fresh in destruct outage_values as (_ & _ & _ & H); to_props;
  apply (collect_fires _ s base_k bad tl ts cl cs);
    [cbn [duration s]; lia|lia|apply errors_eq|exact sharp_eq|vm_compute; reflexivity|cbn; unfold INCIDENT_START; lia
    |unfold SIM_MINUTES, INCIDENT_START; lia
    |let m := fresh in intros m ?; unfold overlap; cbn [duration s long_win short_win]; unfold SIM_MINUTES, INCIDENT_START in *; lia].

Lemma replay_A (use_short : bool) :
  evaluate use_short (prefix_sums (availability_bad shape_A)) =
  Some [range INCIDENT_START (INCIDENT_START + if use_short then 7 else 62);
        range (INCIDENT_START + 2) (INCIDENT_START + if use_short then 32 else 360); []].
Proof.
  destruct rules_sharp as (R1 & R2 & R3). rewrite <- (range_nil 4320 4320) by lia. apply evaluate_eq.
  - destruct use_short; lit_by shape_A outage_k 5184 432 0 0 shape_A_errors R1.
  - destruct use_short; lit_by shape_A outage_k 12960 1080 2 0 shape_A_errors R2.
  - destruct use_short; lit_by shape_A outage_k 25920 2160 3 0 shape_A_errors R3.
Qed.

Lemma replay_B (use_short : bool) :
  evaluate use_short (prefix_sums (availability_bad shape_B)) =
  Some [range (INCIDENT_START + 10) (INCIDENT_START + if use_short then 244 else 289);
        range (INCIDENT_START + 26) (INCIDENT_START + if use_short then 267 else 573);
        range (INCIDENT_START + 43) (INCIDENT_START + if use_short then 596 else 2880)].
Proof.
  destruct rules_sharp as (R1 & R2 & R3). apply evaluate_eq.
  - destruct use_short; lit_by shape_B partial_k 5184 432 10 0 shape_B_errors R1.
  - destruct use_short; lit_by shape_B partial_k 12960 1080 26 2 shape_B_errors R2.
  - destruct use_short; lit_by shape_B partial_k 25920 2160 43 3 shape_B_errors R3.
Qed.


(** Counts that are at most [c] from minute [from] on. *)
Lemma quiet_window (counts : list float) (c from minute window : Z) :
  0 <= c -> 0 <= window -> 0 <= from <= minute - window + 1 ->
  (forall i a, from <= Z.of_nat i -> counts !! i = Some a -> units a <= c) ->
  in_window counts minute window <= window * c.
Proof.
  intros Hc Hw Hf H. unfold in_window.
  assert (Hl : Z.of_nat (length (take (Z.to_nat window) (drop (Z.to_nat (minute - window + 1)) counts))) <= window)
    by (rewrite length_take; lia).
  assert (He : Forall (fun a => units a <= c) (take (Z.to_nat window) (drop (Z.to_nat (minute - window + 1)) counts))).
  { apply Forall_lookup_2. intros i a Ha. apply lookup_take_Some in Ha as [Ha _]. rewrite lookup_drop in Ha.
    apply (H _ a) in Ha; [exact Ha|lia]. }
  revert Hl He. generalize (take (Z.to_nat window) (drop (Z.to_nat (minute - window + 1)) counts)). intros l Hl He.
  apply Z.le_trans with (Z.of_nat (length l) * c); [|by apply Z.mul_le_mono_nonneg_r]. clear Hl H. induction He as [|a l Ha _ IH]; [done|].
  unfold total in *. rewrite zsum_fmap_cons. cbn [length]. rewrite Nat2Z.inj_succ, Z.mul_succ_l. lia.
Qed.

Lemma rules_thresholds (r : rule) : In r RULES -> exists tl ts, sharp r tl ts /\ 5 * short_win r <= ts - 1.
Proof.
  destruct rules_sharp as (R1 & R2 & R3). intros [<-|[<-|[<-|[]]]]; [exists 5184, 432|exists 12960, 1080|exists 25920, 2160]; (split; [done|cbn; lia]).
Qed.

(** ** Properties *)

(** C33: Replay: in a total outage of three minutes the one-hour rule pages at once and the
    six-hour rule in the third minute, and both clear within their short windows, four and 29
    minutes after the end, where the long windows alone would stay lit for 59 and 357; four
    hours at 8% are paged after ten minutes, and all three rules fire. *)
Theorem replay_rules (use_short : bool) :
  let lit_from a b := range (INCIDENT_START + a) (INCIDENT_START + b) in
  let after l := lit_after_end <$> summarise l INCIDENT_START (INCIDENT_START + 3) in
  evaluate use_short (prefix_sums (availability_bad shape_A)) =
    Some [lit_from 0 (if use_short then 7 else 62); lit_from 2 (if use_short then 32 else 360); []] /\
  evaluate use_short (prefix_sums (availability_bad shape_B)) =
    Some [lit_from 10 (if use_short then 244 else 289); lit_from 26 (if use_short then 267 else 573);
          lit_from 43 (if use_short then 596 else 2880)] /\
  after (lit_from 0 (if use_short then 7 else 62)) = Some (if use_short then 4 else 59) /\
  after (lit_from 2 (if use_short then 32 else 360)) = Some (if use_short then 29 else 357).
Proof.
  cbn zeta. split; [|split; [|destruct use_short; split; vm_compute; reflexivity]].
  - rewrite replay_A. by rewrite Z.add_0_r.
  - apply replay_B.
Qed.

(** The short window clears the page: whatever the incident, if from some minute on at
    most five requests in six thousand are bad, then no rule is lit once its short window
    has passed, even though the long window may still be above the rate. *)
Theorem short_window_clears (counts : list float) (r : rule) (from minute : Z) :
  Forall counted counts -> Z.of_nat (length counts) <= 10000 -> In r RULES -> 0 <= from ->
  (forall i a, from <= Z.of_nat i -> counts !! i = Some a -> units a <= 5 * unit_k) ->
  long_win r <= minute < Z.of_nat (length counts) -> from + short_win r <= minute + 1 ->
  fires true (prefix_sums counts) r minute = Some false.
Proof.
  intros Hc Hlen Hr Hf Hq Hm Hs. destruct (rules_thresholds r Hr) as (tl & ts & Hsh & Hts). pose proof Hsh as [Hw _ _ _]. pose proof unit_k_pos.
  destruct (fires_decides counts Hc Hlen r tl ts minute Hsh ltac:(lia) ltac:(lia) true) as [_ Hn]. apply Hn. right. split; [reflexivity|].
  apply Z.le_trans with (short_win r * (5 * unit_k)); [|rewrite Z.mul_assoc, (Z.mul_comm (short_win r)); by apply Z.mul_le_mono_nonneg_r; [lia|]].
  apply (quiet_window counts (5 * unit_k) from); [lia|lia|lia|exact Hq].
Qed.

Lemma short_window_clears_witness :
  let counts := [of_Z 6000; of_Z 6000; of_Z 6000] ++ replicate 97 (of_Z 5) in
  fires true (prefix_sums counts) (mkRule 60 5 (lit 144 10)) 60 = Some false.
Proof.
  cbn zeta. assert (E : forall z, 0 <= z <= 6000 -> of_Z z = Fin (z * unit_k)) by (intros z Hz; apply of_Z_small; lia). pose proof unit_k_pos.
  rewrite !E by lia. set (counts := _ ++ _). assert (Hlen : length counts = 100%nat) by reflexivity.
  apply (short_window_clears counts (mkRule 60 5 (lit 144 10)) 3 60); [|rewrite Hlen; lia|left; reflexivity|lia| |rewrite Hlen; cbn; lia|cbn; lia]; unfold counts.
  - apply Forall_app. split; [repeat apply List.Forall_cons; try apply List.Forall_nil|apply Forall_replicate];
      (eexists; split; [reflexivity|unfold REQUESTS_PER_MINUTE; lia]).
  - intros i a Hi Ha. rewrite lookup_app_r in Ha by (cbn; lia). apply lookup_replicate in Ha as [-> _]. cbn [units]. lia.
Defined.
