(* ===== verification/PageRules.v ===== *)
(** * Observability: which rule deserves to page

    Models src/06-observability/07-symptoms-and-postmortems/python/page_worthiness.py: the
    scenarios, the four cause rules, the four symptom rules, user harm and the verdicts.  The
    burn rates have the thresholds of [BurnRate], here over a running sum. *)

From Stdlib Require Import ZArith Lia.
From stdpp Require Import base option list numbers strings.
From S2P Require Import Prelude PyFloat BurnRate.

Open Scope Z_scope.

#[local] Opaque ulp.

(** ** Definitions *)

Module Page.

Inductive signal : Type := cpu | pool_util | replica_lag_s | error_logs_per_min | error_ratio | slow_ratio.

#[export] Instance signal_eq_dec : EqDecision signal.
Proof. solve_decision. Defined.

Definition state : Type := signal -> float.

Definition BASE : state := fun s =>
  match s with
  | cpu => lit 35 100
  | pool_util => lit 40 100
  | replica_lag_s => lit 4 10
  | error_logs_per_min => of_Z 2
  | error_ratio => lit 2 10000
  | slow_ratio => lit 1 10000
  end.

Definition INCIDENT_START : Z := 3 * 24 * 60.
Definition TIMELINE_MINUTES : Z := INCIDENT_START + 180.

Record Scenario : Type := mkScenario { duration : Z; overrides : list (signal * float) }.

(** [state.update(overrides)]. *)
Definition update (l : list (signal * float)) (s : state) : state :=
  fold_left (fun s '(k, x) => fun j => if decide (j = k) then x else s j) l s.

Definition at_ (sc : Scenario) (minute : Z) : state :=
  if (INCIDENT_START <=? minute) && (minute <? INCIDENT_START + duration sc) then update (overrides sc) BASE else BASE.

Definition scenario_W : Scenario := mkScenario 20 [(cpu, lit 97 100); (error_logs_per_min, of_Z 3)].
Definition scenario_X : Scenario :=
  mkScenario 40 [(cpu, lit 18 100); (pool_util, of_Z 1); (slow_ratio, lit 62 100); (error_logs_per_min, of_Z 4); (error_ratio, lit 4 1000)].
Definition scenario_Y : Scenario := mkScenario 35 [(replica_lag_s, of_Z 60)].
Definition scenario_Z : Scenario := mkScenario 25 [(error_ratio, lit 3 100); (error_logs_per_min, of_Z 180)].

Definition timeline (sc : Scenario) : list state := (fun m => at_ sc (Z.of_nat m)) <$> seq 0 (Z.to_nat TIMELINE_MINUTES).

Fixpoint sustained_from (minute streak : Z) (condition_by_minute : list bool) (for_minutes : Z) : list Z :=
  match condition_by_minute with
  | [] => []
  | holds :: l =>
      let streak := if holds : bool then streak + 1 else 0 in
      let firing := sustained_from (minute + 1) streak l for_minutes in
      if for_minutes <=? streak then minute :: firing else firing
  end.

Definition sustained (condition_by_minute : list bool) (for_minutes : Z) : list Z := sustained_from 0 0 condition_by_minute for_minutes.

Definition above (k : signal) (x : float) (states : list state) : list bool := (fun s => fltb x (s k)) <$> states.

Definition cause_rules (states : list state) : list (list Z) :=
  [sustained (above cpu (lit 80 100) states) 5; sustained (above pool_util (lit 90 100) states) 5;
   sustained (above replica_lag_s (of_Z 10) states) 5; sustained (above error_logs_per_min (of_Z 10) states) 5].

(** The window of [burn_rate_series] after [minute]. *)
Definition roll (bad_per_minute : list float) (window minute : Z) (running bad : float) : option float :=
  let running := fadd running bad in
  if window <=? minute then fsub running <$> bad_per_minute !! Z.to_nat (minute - window) else Some running.

Fixpoint series_from (bad_per_minute : list float) (window minute : Z) (running : float) (l : list float) : option (list float) :=
  match l with
  | [] => Some []
  | bad :: l =>
      running ← roll bad_per_minute window minute running bad;
      b ← burn running (Z.min (minute + 1) window * REQUESTS_PER_MINUTE);
      out ← series_from bad_per_minute window (minute + 1) running l;
      Some (b :: out)
  end.

Definition burn_rate_series (bad_per_minute : list float) (window : Z) : option (list float) :=
  series_from bad_per_minute window 0 (of_Z 0) bad_per_minute.

Definition bad_of (s : state) : float := fmul (fadd (s error_ratio) (s slow_ratio)) (of_Z REQUESTS_PER_MINUTE).

Definition burn_rule (bad : list float) (r : rule) : option (list Z) :=
  long_series ← burn_rate_series bad (long_win r);
  short_series ← burn_rate_series bad (short_win r);
  collect (fun m =>
    l ← long_series !! Z.to_nat m;
    if fltb (factor r) l then s ← short_series !! Z.to_nat m; Some (fltb (factor r) s) else Some false)
    0 (length bad).

Definition symptom_rules (states : list state) : option (list (list Z)) :=
  burns ← mapM (burn_rule (bad_of <$> states)) RULES;
  Some (burns ++ [sustained (above error_ratio (lit 1 100) states) 5]).

(** A minute that harms; [user_harm] also sums the requests. *)
Definition harms (s : state) : option bool :=
  b ← fdiv (fadd (s error_ratio) (s slow_ratio)) (fsub (of_Z 1) TARGET); Some (fltb (of_Z 1) b).

Definition user_harm (states : list state) : option (list Z) :=
  collect (fun m => s ← states !! Z.to_nat m; harms s) 0 (length states).

Inductive verdict : Type := symptoms_only | both_fired | nothing_paged | cause_only (n : Z) | quiet | symptom_unharmed.

Definition classify (harmed : bool) (cause_fired symptom_fired : Z) : verdict :=
  if harmed && negb (symptom_fired =? 0) && (cause_fired =? 0) then symptoms_only
  else if harmed && negb (symptom_fired =? 0) then both_fired
  else if harmed && (symptom_fired =? 0) then nothing_paged
  else if negb harmed && negb (cause_fired =? 0) then cause_only cause_fired
  else if negb harmed && (cause_fired =? 0) && (symptom_fired =? 0) then quiet
  else symptom_unharmed.

(** How many rules of a family fired, and the row of a scenario in the scoreboard. *)
Definition fired (rules : list (list Z)) : Z := countb (fun l => match l with [] => false | _ => true end) rules.

Definition row (sc : Scenario) : option (bool * Z * Z * verdict) :=
  let states := timeline sc in
  harmed_minutes ← user_harm states;
  symptoms ← symptom_rules states;
  let harmed := match harmed_minutes with [] => false | _ => true end in
  let c := fired (cause_rules states) in
  let s := fired symptoms in
  Some (harmed, c, s, classify harmed c s).

End Page.

(** ** Lemmas *)

(** *** Streaks *)

(** The last [n] of the minutes up to [m] hold. *)
Definition held (l : list bool) (n m : Z) : Prop := forall i, m - n < i <= m -> 0 <= i /\ l !! Z.to_nat i = Some true.

Lemma sustained_from_spec (l pre : list bool) (streak n m : Z) :
  1 <= n -> 0 <= streak -> held (pre ++ l) streak (Z.of_nat (length pre) - 1) ->
  (streak <= Z.of_nat (length pre) - 1 -> pre !! Z.to_nat (Z.of_nat (length pre) - 1 - streak) = Some false) ->
  m ∈ Page.sustained_from (Z.of_nat (length pre)) streak l n <->
  Z.of_nat (length pre) <= m < Z.of_nat (length pre) + Z.of_nat (length l) /\ held (pre ++ l) n m.
Proof.
  intros Hn. revert pre streak. induction l as [|b l IH]; intros pre streak Hs Hh Hf; cbn [Page.sustained_from length].
  - split; [by intros ?%elem_of_nil|lia].
  - set (k := if b then streak + 1 else 0).
    assert (Eapp : pre ++ b :: l = (pre ++ [b]) ++ l) by (by rewrite <- app_assoc).
    assert (El : Z.of_nat (length (pre ++ [b])) = Z.of_nat (length pre) + 1) by (rewrite length_app; cbn; lia).
    assert (Eb : (pre ++ b :: l) !! Z.to_nat (Z.of_nat (length pre)) = Some b) by (rewrite Nat2Z.id; by apply list_lookup_middle).
    specialize (IH (pre ++ [b]) k). rewrite <- Eapp, El in IH.
    assert (IH' : m ∈ Page.sustained_from (Z.of_nat (length pre) + 1) k l n <->
      Z.of_nat (length pre) + 1 <= m < Z.of_nat (length pre) + 1 + Z.of_nat (length l) /\ held (pre ++ b :: l) n m).
    { apply IH; unfold k; [destruct b; lia| |].
      - destruct b; intros i Hi; [|lia]. destruct (Z.eq_dec i (Z.of_nat (length pre))) as [->|Hne]; [split; [lia|exact Eb]|]. apply Hh. lia.
      - destruct b; intros Hk; [|rewrite Z.sub_0_r, lookup_app_r by lia; by replace (_ - _)%nat with 0%nat by lia].
        rewrite lookup_app_l by lia. replace (Z.of_nat (length pre) + 1 - 1 - (streak + 1)) with (Z.of_nat (length pre) - 1 - streak) by lia.
        apply Hf. lia. }
    assert (Hnow : n <=? k = true <-> held (pre ++ b :: l) n (Z.of_nat (length pre))).
    { rewrite Z.leb_le. unfold k. split.
      - destruct b; [|lia]. intros Hk i Hi. destruct (Z.eq_dec i (Z.of_nat (length pre))) as [->|Hne]; [split; [lia|exact Eb]|]. apply Hh. lia.
      - intros Hm. destruct b.
        + destruct (Z.le_gt_cases n (streak + 1)); [done|]. exfalso.
          destruct (Hm (Z.of_nat (length pre) - 1 - streak)) as [H0 H1]; [lia|]. rewrite lookup_app_l, Hf in H1 by lia. done.
        + destruct (Hm (Z.of_nat (length pre))) as [_ H1]; [lia|]. by rewrite Eb in H1. }
    destruct (n <=? k) eqn:Ek; [rewrite elem_of_cons, IH'|rewrite IH'].
    + split; [intros [->|[Hm Hr]]; (split; [lia|]); [by apply Hnow|exact Hr]|]. intros [Hm Hr].
      destruct (Z.eq_dec m (Z.of_nat (length pre))); [by left|right; split; [lia|exact Hr]].
    + split; [intros [Hm Hr]; split; [lia|exact Hr]|]. intros [Hm Hr]. split; [|exact Hr].
      destruct (Z.eq_dec m (Z.of_nat (length pre))) as [->|]; [|lia]. by apply Hnow in Hr.
Qed.

(** [for: Nm]: lit when the last [n] minutes hold. *)
Lemma sustained_spec (l : list bool) (n m : Z) :
  1 <= n -> m ∈ Page.sustained l n <-> m < Z.of_nat (length l) /\ held l n m.
Proof.
  intros Hn. pose proof (sustained_from_spec l [] 0 n m Hn ltac:(lia)) as H. unfold Page.sustained. cbn in H. rewrite H.
  - split; [intros [? ?]; split; [lia|done]|]. intros [Hm Hh]. split; [|done]. destruct (Hh m); lia.
  - intros i Hi. lia.
  - lia.
Qed.

(** The two programs' loops are one. *)
Lemma naive_is_sustained (x : float) (n : Z) (l : list float) : naive_latency_rule x n l = Page.sustained (fltb x <$> l) n.
Proof.
  unfold naive_latency_rule, Page.sustained. generalize 0 at 1 3. generalize 0. induction l as [|p l IH]; intros k m; [done|].
  cbn [naive_from Page.sustained_from fmap list_fmap]. by rewrite IH.
Qed.

(** *** The running windows of page_worthiness.py *)

(** The exact count of the last [window] minutes up to [minute], or of all of them. *)
Definition last_window (counts : list float) (minute window : Z) : Z :=
  total (take (Z.to_nat (minute + 1)) counts) - total (take (Z.to_nat (minute + 1 - window)) counts).

Lemma last_in_window (counts : list float) (minute window : Z) :
  0 <= window <= minute + 1 -> last_window counts minute window = in_window counts minute window.
Proof.
  intros H. unfold last_window. rewrite (in_window_split counts minute window H).
  replace (minute + 1 - window) with (minute - window + 1) by lia. lia.
Qed.

Lemma total_take_S (l : list float) (j : nat) (a : float) :
  l !! j = Some a -> total (take (S j) l) = total (take j l) + units a.
Proof. intros H. by rewrite (take_S_r _ _ a), total_snoc. Qed.

Section series.
Context (bad : list float) (window : Z).
Hypothesis bad_ok : Forall counted bad.
Hypothesis bad_length : Z.of_nat (length bad) <= 10000.
Hypothesis window_ok : 0 < window <= 4320.

Lemma take_bounds (j : nat) : 0 <= total (take j bad) <= 10000 * (REQUESTS_PER_MINUTE * unit_k).
Proof using bad_ok bad_length.
  destruct (total_bounds (take j bad)) as [H0 H1]; [by apply Forall_take|]. split; [exact H0|]. rewrite length_take in H1.
  unfold REQUESTS_PER_MINUTE in *. pose proof unit_k_pos. nia.
Qed.

(** A step keeps the running sum near the exact one: two roundings more. *)
Lemma roll_near (m r : Z) (a : float) :
  0 <= m < Z.of_nat (length bad) -> bad !! Z.to_nat m = Some a ->
  Z.abs (r - last_window bad (m - 1) window) <= 2 * m * ulp ->
  exists r', Page.roll bad window m (Fin r) a = Some (Fin r') /\ Z.abs (r' - last_window bad m window) <= 2 * (m + 1) * ulp.
Proof using bad_ok bad_length window_ok.
  intros Hm Ha Hr. pose proof (Forall_lookup_1 _ _ _ _ bad_ok Ha) as (k & -> & Hk). unfold Page.roll, last_window in *.
  replace (m - 1 + 1) with m in Hr by lia. replace (m - 1 + 1 - window) with (m - window) in Hr by lia.
  pose proof (total_take_S bad (Z.to_nat m) _ Ha) as HS. replace (S (Z.to_nat m)) with (Z.to_nat (m + 1)) in HS by lia.
  pose proof (take_bounds (Z.to_nat m)). pose proof (take_bounds (Z.to_nat (m - window))). pose proof (take_bounds (Z.to_nat (m + 1))).
  pose proof unit_ulp as Hu. pose proof ulp_pos. cbn [units] in HS. change (fadd (Fin r) (Fin k)) with (fround (r + k) 1).
  unfold REQUESTS_PER_MINUTE in *. assert (Hmu : m * ulp <= 10000 * ulp) by (apply Z.mul_le_mono_nonneg_r; lia).
  destruct (fround_near_abs (r + k)) as (x & -> & Hx); [lia|].
  destruct (Z.leb_spec window m).
  - destruct (lookup_lt_is_Some_2 bad (Z.to_nat (m - window))) as [b Eb]; [lia|]. rewrite Eb.
    pose proof (Forall_lookup_1 _ _ _ _ bad_ok Eb) as (j & -> & Hj). cbn [fmap option_fmap option_map].
    change (fsub (Fin x) (Fin j)) with (fround (x - j) 1).
    pose proof (total_take_S bad (Z.to_nat (m - window)) _ Eb) as HS'. replace (S (Z.to_nat (m - window))) with (Z.to_nat (m + 1 - window)) in HS' by lia.
    cbn [units] in HS'. pose proof (take_bounds (Z.to_nat (m + 1 - window))). unfold REQUESTS_PER_MINUTE in *.
    destruct (fround_near_abs (x - j)) as (y & -> & Hy); [lia|]. exists y. split; [reflexivity|lia].
  - exists x. split; [reflexivity|]. replace (Z.to_nat (m + 1 - window)) with (Z.to_nat (m - window)) by lia. lia.
Qed.

Lemma series_near (l pre : list float) (r : Z) :
  bad = pre ++ l -> Z.abs (r - last_window bad (Z.of_nat (length pre) - 1) window) <= 2 * Z.of_nat (length pre) * ulp ->
  exists out, Page.series_from bad window (Z.of_nat (length pre)) (Fin r) l = Some out /\ length out = length l /\
    forall i, (i < length l)%nat -> exists x b, out !! i = Some b /\
      let m := Z.of_nat (length pre) + Z.of_nat i in
      burn (Fin x) (Z.min (m + 1) window * REQUESTS_PER_MINUTE) = Some b /\ Z.abs (x - last_window bad m window) <= 20000 * ulp.
Proof using bad_ok bad_length window_ok.
  revert pre r. induction l as [|a l IH]; intros pre r Hbad Hr; cbn [Page.series_from length].
  { exists []. split; [done|]. split; [done|]. intros i Hi. lia. }
  assert (Ha : bad !! Z.to_nat (Z.of_nat (length pre)) = Some a) by (rewrite Hbad, Nat2Z.id; by apply list_lookup_middle).
  assert (Hlen : Z.of_nat (length pre) < Z.of_nat (length bad)) by (rewrite Hbad, length_app; cbn; lia).
  destruct (roll_near (Z.of_nat (length pre)) r a) as (r' & -> & Hr'); [lia|exact Ha|exact Hr|]. cbn [option_bind mbind].
  destruct (burn_mono (Fin r') (Fin r') (Z.min (Z.of_nat (length pre) + 1) window * REQUESTS_PER_MINUTE)) as (b & _ & Eb & _ & _);
    [unfold REQUESTS_PER_MINUTE; lia|vm_compute; reflexivity|by apply fleb_refl|]. rewrite Eb. cbn [option_bind mbind].
  destruct (IH (pre ++ [a]) r') as (out & Eo & Elo & Ho).
  - by rewrite Hbad, <- app_assoc.
  - rewrite length_app. cbn [length]. replace (Z.of_nat (length pre + 1)) with (Z.of_nat (length pre) + 1) by lia. by rewrite Z.add_simpl_r.
  - rewrite length_app in Eo, Ho. cbn [length] in Eo, Ho. replace (Z.of_nat (length pre + 1)) with (Z.of_nat (length pre) + 1) in Eo, Ho by lia.
    rewrite Eo. exists (b :: out). split; [reflexivity|]. split; [cbn; lia|]. intros [|i] Hi.
    + exists r', b. split; [reflexivity|]. cbn zeta. rewrite Z.add_0_r. split; [exact Eb|]. pose proof ulp_pos. nia.
    + destruct (Ho i) as (x & c & Ec & Hx); [lia|]. exists x, c. split; [exact Ec|]. cbn zeta in *.
      by replace (Z.of_nat (length pre) + Z.of_nat (S i)) with (Z.of_nat (length pre) + 1 + Z.of_nat i) by lia.
Qed.

Lemma series_spec :
  exists out, Page.burn_rate_series bad window = Some out /\ forall m, 0 <= m < Z.of_nat (length bad) -> exists x b,
    out !! Z.to_nat m = Some b /\ burn (Fin x) (Z.min (m + 1) window * REQUESTS_PER_MINUTE) = Some b /\
    Z.abs (x - last_window bad m window) <= 20000 * ulp.
Proof using bad_ok bad_length window_ok.
  unfold Page.burn_rate_series. rewrite of_Z_0. destruct (series_near bad [] 0) as (out & Eo & _ & Ho).
  - reflexivity.
  - unfold last_window. cbn [length]. replace (Z.to_nat (Z.of_nat 0 - 1 + 1 - window)) with 0%nat by lia.
    replace (Z.to_nat (Z.of_nat 0 - 1 + 1)) with 0%nat by lia. rewrite !take_0. unfold total, zsum. cbn. lia.
  - exists out. split; [exact Eo|]. intros m Hm. destruct (Ho (Z.to_nat m)) as (x & b & Eb & Hx); [lia|].
    exists x, b. cbn in Hx. by rewrite Z2Nat.id in Hx by lia.
Qed.

End series.

(** *** A rule over a timeline *)

(** With at most two bad events in each minute so far, no window is above one. *)
Lemma quiet_burn (x span : Z) :
  1 <= span <= 10000 -> x <= 2 * span * unit_k -> exists b, burn (Fin x) (span * REQUESTS_PER_MINUTE) = Some b /\ fleb b (of_Z 1) = true.
Proof.
  intros Hs Hx. unfold REQUESTS_PER_MINUTE.
  destruct (burn_mono (Fin x) (Fin (2 * span * unit_k)) (span * 6000)) as (q & q' & Eq & Eq' & Hq);
    [lia|vm_compute; reflexivity|rewrite fleb_Fin; by apply Z.leb_le|].
  exists q. split; [exact Eq|]. apply (fleb_trans _ q'); [exact Hq|]. pose proof unit_k_pos as Hu.
  unfold burn in Eq'. rewrite (of_Z_small (span * 6000)) in Eq' by lia.
  assert (Es : fdiv (Fin (2 * span * unit_k)) (Fin (span * 6000 * unit_k)) = Some (fround (2 * unit_k) 6000)).
  { destruct (span * 6000 * unit_k) as [|p|p] eqn:E; [nia| |nia]. cbn [fdiv Z.sgn Z.abs]. rewrite <- E, Z.mul_1_l. f_equal.
    rewrite !fround_eq. f_equal. apply Z.le_antisymm; apply rnd_mono; nia. }
  rewrite Es in Eq'. cbn [option_bind mbind] in Eq'. revert Eq'.
  assert (Ec : match fdiv (fround (2 * unit_k) 6000) (fsub (of_Z 1) TARGET) with Some c => fleb c (of_Z 1) | None => false end = true) by (vm_compute; reflexivity).
  intros Eq'. by rewrite Eq' in Ec.
Qed.

Lemma burn_side (t valid x : Z) (f b : float) :
  0 <= t <= 2 ^ 50 -> valid <= 2 ^ 53 -> decides t valid f = true -> burn (Fin x) valid = Some b ->
  (2 * x <= (2 * t - 1) * unit_k -> fltb f b = false) /\ ((2 * t + 1) * unit_k <= 2 * x -> fltb f b = true).
Proof.
  intros Ht Hv Hd Eb. destruct (burn_decides t valid x f Ht Hv Hd) as (_ & H1 & H2). split; intros H.
  - destruct (H1 H) as (c & Ec & Hc). rewrite Eb in Ec. injection Ec as <-. by apply fleb_not_fltb.
  - destruct (H2 H) as (c & Ec & Hc & _). rewrite Eb in Ec. by injection Ec as <-.
Qed.

Section timeline.
Context (bad : list float) (r : rule) (tl ts : Z).
Hypothesis bad_ok : Forall counted bad.
Hypothesis bad_length : Z.of_nat (length bad) <= 10000.
Hypothesis Hr : sharp r tl ts.
Hypothesis Hf : fleb (of_Z 1) (factor r) = true.

(** The minute [m] is surely not lit, or surely [lit]. *)
Definition calm (m : Z) : Prop := last_window bad m (long_win r) <= 2 * Z.min (m + 1) (long_win r) * unit_k - 20000 * ulp.
Definition clear (m : Z) : Prop :=
  long_win r <= m + 1 /\
  (last_window bad m (long_win r) <= (tl - 1) * unit_k \/ last_window bad m (short_win r) <= (ts - 1) * unit_k).
Definition lit_ (m : Z) : Prop :=
  long_win r <= m + 1 /\
  (tl + 1) * unit_k <= last_window bad m (long_win r) /\ (ts + 1) * unit_k <= last_window bad m (short_win r).

Lemma burn_rule_range (lo hi : Z) :
  0 <= lo -> hi <= Z.of_nat (length bad) ->
  (forall m, 0 <= m < Z.of_nat (length bad) -> if (lo <=? m) && (m <? hi) then lit_ m else calm m \/ clear m) ->
  Page.burn_rule bad r = Some (range lo hi).
Proof using bad_ok bad_length Hr Hf.
  intros Hlo Hhi Hp. destruct Hr as [Hw [Htl Hts] Hl Hs]. pose proof unit_ulp as Hu. pose proof ulp_pos.
  destruct (series_spec bad (long_win r) bad_ok bad_length ltac:(lia)) as (ol & El & Ho).
  destruct (series_spec bad (short_win r) bad_ok bad_length ltac:(lia)) as (os & Es & Hos).
  unfold Page.burn_rule. rewrite El, Es. cbn [option_bind mbind]. rewrite (collect_range _ lo hi); [by rewrite Z.max_l| |lia].
  intros m Hm. rewrite Z.add_0_l in Hm. destruct (Ho m Hm) as (x & b & -> & Eb & Hx). destruct (Hos m Hm) as (y & c & -> & Ec & Hy).
  specialize (Hp m Hm). cbn [option_bind mbind].
  assert (Hl' : long_win r <= m + 1 -> (2 * x <= (2 * tl - 1) * unit_k -> fltb (factor r) b = false) /\
    ((2 * tl + 1) * unit_k <= 2 * x -> fltb (factor r) b = true)).
  { intros Hwm. rewrite Z.min_r in Eb by lia. eapply burn_side; [lia| |exact Hl|exact Eb]. unfold REQUESTS_PER_MINUTE. lia. }
  assert (Hs' : long_win r <= m + 1 -> (2 * y <= (2 * ts - 1) * unit_k -> fltb (factor r) c = false) /\
    ((2 * ts + 1) * unit_k <= 2 * y -> fltb (factor r) c = true)).
  { intros Hwm. rewrite Z.min_r in Ec by lia. eapply burn_side; [lia| |exact Hs|exact Ec]. unfold REQUESTS_PER_MINUTE. lia. }
  destruct ((lo <=? m) && (m <? hi)).
  - destruct Hp as (Hwm & HL & HS). destruct (Hl' Hwm) as [_ ->]; [|lia]. cbn. by destruct (Hs' Hwm) as [_ ->]; [|lia].
  - destruct Hp as [Hc|(Hwm & Hc)].
    + unfold calm in Hc. destruct (quiet_burn x (Z.min (m + 1) (long_win r))) as (q & Eq & Hq); [lia..|].
      rewrite Eb in Eq. injection Eq as <-. by rewrite (fleb_not_fltb _ _ (fleb_trans _ _ _ Hq Hf)).
    + destruct Hc as [Hc|Hc].
      * destruct (Hl' Hwm) as [-> _]; [reflexivity|lia].
      * destruct (Hs' Hwm) as [-> _]; [by destruct (fltb (factor r) b)|lia].
Qed.

End timeline.

(** *** The scenarios *)

Definition in_incident (sc : Page.Scenario) (m : Z) : bool :=
  (Page.INCIDENT_START <=? m) && (m <? Page.INCIDENT_START + Page.duration sc).

Lemma at_eq (sc : Page.Scenario) (m : Z) :
  Page.at_ sc m = if in_incident sc m then Page.update (Page.overrides sc) Page.BASE else Page.BASE.
Proof. reflexivity. Qed.

Definition bads (sc : Page.Scenario) : list float := Page.bad_of <$> Page.timeline sc.

Lemma bads_eq (sc : Page.Scenario) : bads sc = (fun m => Page.bad_of (Page.at_ sc (Z.of_nat m))) <$> seq 0 (Z.to_nat Page.TIMELINE_MINUTES).
Proof. unfold bads, Page.timeline. by rewrite <- list_fmap_compose. Qed.

Section scenario.
Context (sc : Page.Scenario) (base bad : Z).
Hypothesis duration_ok : 0 <= Page.duration sc <= 180.
Hypothesis base_bad : 0 <= base <= bad /\ bad <= REQUESTS_PER_MINUTE * unit_k /\ 10 * base <= 19 * unit_k.
Hypothesis bad_eq : forall m, Page.bad_of (Page.at_ sc m) = Fin (if in_incident sc m then bad else base).

Lemma bads_counted : Forall counted (bads sc) /\ Z.of_nat (length (bads sc)) = Page.TIMELINE_MINUTES.
Proof using base_bad bad_eq.
  rewrite bads_eq. split; [|rewrite length_fmap, length_seq; by rewrite Z2Nat.id by (vm_compute; discriminate)].
  apply Forall_fmap, list.Forall_forall. intros m _. cbn.
  rewrite bad_eq. eexists. split; [reflexivity|]. destruct (in_incident sc (Z.of_nat m)); lia.
Qed.

Lemma total_until (j : Z) :
  0 <= j <= Page.TIMELINE_MINUTES ->
  total (take (Z.to_nat j) (bads sc)) = j * base + overlap Page.INCIDENT_START (Page.duration sc) 0 j * (bad - base).
Proof using duration_ok bad_eq.
  intros Hj. rewrite bads_eq, <- fmap_take.
  replace (take (Z.to_nat j) (seq 0 (Z.to_nat Page.TIMELINE_MINUTES))) with (seq 0 (Z.to_nat j)).
  - change 0%nat with (Z.to_nat 0) at 1.
    rewrite (total_overlap (fun m => Page.bad_of (Page.at_ sc m)) Page.INCIDENT_START (Page.duration sc) base bad) by (try lia; intros m; rewrite bad_eq; reflexivity).
    by rewrite Z2Nat.id by lia.
  - apply list_eq. intros i. destruct (decide (i < Z.to_nat j)%nat) as [Hi|Hi].
    + rewrite lookup_take_lt by done. rewrite !lookup_seq_lt by lia. done.
    + rewrite lookup_take_ge, lookup_seq_ge by lia. done.
Qed.

(** Before the incident, and from then on. *)
Lemma window_before (m w : Z) :
  0 <= m < Page.INCIDENT_START -> 0 < w -> last_window (bads sc) m w = Z.min (m + 1) w * base.
Proof using duration_ok bad_eq.
  intros Hm Hw. unfold last_window. rewrite total_until by (unfold Page.TIMELINE_MINUTES, Page.INCIDENT_START in *; lia).
  replace (Z.to_nat (m + 1 - w)) with (Z.to_nat (Z.max 0 (m + 1 - w))) by lia. rewrite total_until by (unfold Page.TIMELINE_MINUTES, Page.INCIDENT_START in *; lia).
  replace (overlap Page.INCIDENT_START (Page.duration sc) 0 (m + 1)) with 0 by (unfold overlap; lia).
  replace (overlap Page.INCIDENT_START (Page.duration sc) 0 (Z.max 0 (m + 1 - w))) with 0 by (unfold overlap; lia).
  replace (Z.max 0 (m + 1 - w)) with (m + 1 - Z.min (m + 1) w) by lia. lia.
Qed.

Lemma window_from (m w : Z) :
  Page.INCIDENT_START <= m < Page.TIMELINE_MINUTES -> 0 < w <= 4320 ->
  last_window (bads sc) m w = w * base + overlap Page.INCIDENT_START (Page.duration sc) (m + 1 - w) w * (bad - base).
Proof using duration_ok bad_eq.
  intros Hm Hw. unfold last_window. rewrite !total_until by (unfold Page.TIMELINE_MINUTES, Page.INCIDENT_START in *; lia).
  replace (overlap Page.INCIDENT_START (Page.duration sc) (m + 1 - w) w) with
    (overlap Page.INCIDENT_START (Page.duration sc) 0 (m + 1) - overlap Page.INCIDENT_START (Page.duration sc) 0 (m + 1 - w))
    by (unfold overlap, Page.INCIDENT_START in *; lia). lia.
Qed.

Context (r : rule) (tl ts : Z).
Hypothesis Hr : sharp r tl ts.
Hypothesis Hf : fleb (of_Z 1) (factor r) = true.

Lemma calm_before (m : Z) : 0 <= m < Page.INCIDENT_START -> calm (bads sc) r m.
Proof using duration_ok base_bad bad_eq Hr.
  intros Hm. destruct Hr as [Hw _ _ _]. unfold calm. rewrite window_before by lia. pose proof unit_ulp as Hu. pose proof ulp_pos.
  set (k := Z.min (m + 1) (long_win r)). assert (1 <= k) by lia.
  assert (H1 : 1 * (2 * unit_k - base) <= k * (2 * unit_k - base)) by (apply Z.mul_le_mono_nonneg_r; lia). lia.
Qed.

(** A rule that the incident cannot light. *)
Lemma scenario_never :
  long_win r * base + Page.duration sc * (bad - base) <= (tl - 1) * unit_k -> Page.burn_rule (bads sc) r = Some [].
Proof using duration_ok base_bad bad_eq Hr Hf.
  intros Hn. destruct bads_counted as [Hc Hlen]. pose proof Hr as [Hw _ _ _]. rewrite <- (range_nil 0 0) by lia.
  apply (burn_rule_range (bads sc) r tl ts Hc); [rewrite Hlen; vm_compute; discriminate|exact Hr|exact Hf|lia|lia|]. rewrite Hlen. intros m Hm.
  replace ((0 <=? m) && (m <? 0)) with false by (symmetry; apply andb_false_iff; right; apply Z.ltb_ge; lia).
  destruct (Z.lt_ge_cases m Page.INCIDENT_START) as [Hb|Hb]; [left; apply calm_before; lia|]. right.
  split; [unfold Page.INCIDENT_START in Hb; lia|]. left. rewrite window_from by lia.
  assert (overlap Page.INCIDENT_START (Page.duration sc) (m + 1 - long_win r) (long_win r) * (bad - base) <= Page.duration sc * (bad - base))
    by (apply Z.mul_le_mono_nonneg_r; [lia|unfold overlap; lia]). lia.
Qed.

(** A rule that is lit from [lo] to [hi]. *)
Lemma scenario_range (cl cs lo hi : Z) :
  cut base bad tl (long_win r) cl -> cut base bad ts (short_win r) cs -> Page.INCIDENT_START <= lo -> hi <= Page.TIMELINE_MINUTES ->
  (forall m, Page.INCIDENT_START <= m < Page.TIMELINE_MINUTES ->
    (cl < overlap Page.INCIDENT_START (Page.duration sc) (m + 1 - long_win r) (long_win r) /\
     cs < overlap Page.INCIDENT_START (Page.duration sc) (m + 1 - short_win r) (short_win r)) <-> lo <= m < hi) ->
  Page.burn_rule (bads sc) r = Some (range lo hi).
Proof using duration_ok base_bad bad_eq Hr Hf.
  intros Hcl Hcs Hlo Hhi Hm. destruct bads_counted as [Hc Hlen]. pose proof Hr as [Hw _ _ _].
  apply (burn_rule_range (bads sc) r tl ts Hc); [rewrite Hlen; vm_compute; discriminate|exact Hr|exact Hf|unfold Page.INCIDENT_START in *; lia|by rewrite Hlen|].
  rewrite Hlen. intros m Hmm. destruct (Z.lt_ge_cases m Page.INCIDENT_START) as [Hb|Hb].
  { replace ((lo <=? m) && (m <? hi)) with false by (symmetry; apply andb_false_iff; left; apply Z.leb_gt; lia). left. apply calm_before. lia. }
  specialize (Hm m ltac:(lia)).
  assert (Hwarm : long_win r <= m + 1) by (unfold Page.INCIDENT_START in Hb; lia).
  pose proof (window_from m (long_win r) ltac:(lia) ltac:(lia)) as El. pose proof (window_from m (short_win r) ltac:(lia) ltac:(lia)) as Es.
  set (ol := overlap _ _ _ (long_win r)) in *. set (os := overlap _ _ _ (short_win r)) in *.
  destruct (cut_decides base bad tl (long_win r) cl ol ltac:(lia) Hcl) as [L1 L2].
  destruct (cut_decides base bad ts (short_win r) cs os ltac:(lia) Hcs) as [S1 S2].
  destruct ((lo <=? m) && (m <? hi)) eqn:E.
  - apply andb_true_iff in E as [E1 E2]. to_props. destruct (proj2 Hm) as [HL HS]; [lia|]. split; [exact Hwarm|].
    rewrite El, Es. split; [by apply L2|by apply S2].
  - assert (Hn : ~ (lo <= m < hi)) by (apply andb_false_iff in E as [E|E]; to_props; lia). right. split; [exact Hwarm|].
    rewrite El, Es. destruct (Z.le_gt_cases ol cl); [left; by apply L1|right; apply S1].
    destruct (Z.le_gt_cases os cs); [done|]. exfalso. apply Hn, Hm. lia.
Qed.

End scenario.

(** *** The scoreboard *)

Lemma timeline_lookup (sc : Page.Scenario) (m : Z) :
  0 <= m < Page.TIMELINE_MINUTES -> Page.timeline sc !! Z.to_nat m = Some (Page.at_ sc m).
Proof.
  intros Hm. unfold Page.timeline. rewrite list_lookup_fmap, lookup_seq_lt by lia. cbn. by rewrite Z2Nat.id by lia.
Qed.

Lemma timeline_length (sc : Page.Scenario) : Z.of_nat (length (Page.timeline sc)) = Page.TIMELINE_MINUTES.
Proof. unfold Page.timeline. rewrite length_fmap, length_seq. by rewrite Z2Nat.id by (vm_compute; discriminate). Qed.

Definition lit_up (l : list Z) : bool := match l with [] => false | _ => true end.

(** A condition that is false outside the incident fires for five minutes if and only if it
    is true inside. *)
Lemma sustained_fired (sc : Page.Scenario) (k : Page.signal) (x : float) :
  5 <= Page.duration sc <= 180 -> fltb x (Page.BASE k) = false ->
  lit_up (Page.sustained (Page.above k x (Page.timeline sc)) 5) = fltb x (Page.update (Page.overrides sc) Page.BASE k).
Proof.
  intros Hd Hb. set (l := Page.above k x (Page.timeline sc)). set (b := fltb x (Page.update (Page.overrides sc) Page.BASE k)).
  assert (Hlen : Z.of_nat (length l) = Page.TIMELINE_MINUTES) by (unfold l, Page.above; by rewrite length_fmap, timeline_length).
  assert (Hl : forall m, 0 <= m < Page.TIMELINE_MINUTES -> l !! Z.to_nat m = Some (in_incident sc m && b)).
  { intros m Hm. unfold l, Page.above. rewrite list_lookup_fmap, timeline_lookup by done. cbn. f_equal. rewrite at_eq.
    destruct (in_incident sc m); [reflexivity|exact Hb]. }
  assert (Hs : forall m, m ∈ Page.sustained l 5 -> b = true).
  { intros m Hm. apply sustained_spec in Hm as [Hm Hh]; [|lia]. destruct (Hh m) as [H0 H1]; [lia|]. rewrite Hl in H1 by lia.
    injection H1 as H1. by apply andb_true_iff in H1 as [_ H1]. }
  destruct b eqn:Eb; [|destruct (Page.sustained l 5) as [|m ms]; [reflexivity|by specialize (Hs m ltac:(left))]].
  assert (Hin : Page.INCIDENT_START + 4 ∈ Page.sustained l 5).
  { apply sustained_spec; [lia|]. rewrite Hlen. split; [unfold Page.TIMELINE_MINUTES; lia|]. intros i Hi.
    split; [unfold Page.INCIDENT_START in *; lia|]. rewrite Hl by (unfold Page.TIMELINE_MINUTES, Page.INCIDENT_START in *; lia).
    f_equal. rewrite andb_true_r. unfold in_incident. apply andb_true_iff. rewrite Z.leb_le, Z.ltb_lt. lia. }
  destruct (Page.sustained l 5); [by apply elem_of_nil in Hin|reflexivity].
Qed.

(** Who is harmed: nobody outside the incident. *)
Lemma user_harm_range (sc : Page.Scenario) (b : bool) :
  0 <= Page.duration sc <= 180 -> Page.harms Page.BASE = Some false ->
  Page.harms (Page.update (Page.overrides sc) Page.BASE) = Some b ->
  Page.user_harm (Page.timeline sc) =
  Some (range Page.INCIDENT_START (if b then Page.INCIDENT_START + Page.duration sc else Page.INCIDENT_START)).
Proof.
  intros Hd H0 Hb. unfold Page.user_harm. pose proof (timeline_length sc) as Hlen.
  rewrite (collect_range _ Page.INCIDENT_START (if b then Page.INCIDENT_START + Page.duration sc else Page.INCIDENT_START)).
  - by rewrite Z.max_l by (vm_compute; discriminate).
  - intros m Hm. rewrite timeline_lookup by lia. cbn [option_bind mbind]. rewrite at_eq. unfold in_incident.
    destruct ((Page.INCIDENT_START <=? m) && (m <? Page.INCIDENT_START + Page.duration sc)) eqn:E.
    + rewrite Hb. apply andb_true_iff in E as [E1 E2]. f_equal. destruct b; [by rewrite E1, E2|]. rewrite E1. symmetry. to_props. apply Z.ltb_ge. lia.
    + rewrite H0. f_equal. destruct b; [by rewrite E|]. symmetry. apply andb_false_iff. destruct (Z.leb_spec Page.INCIDENT_START m); [right; apply Z.ltb_ge; lia|by left].
  - rewrite Hlen. unfold Page.TIMELINE_MINUTES. destruct b; lia.
Qed.

(** Whether a signal is above [x] outside and inside the incident. *)
Definition flag (sc : Page.Scenario) (k : Page.signal) (x : float) (b : bool) : Prop :=
  fltb x (Page.BASE k) = false /\ fltb x (Page.update (Page.overrides sc) Page.BASE k) = b.

Lemma fired_cons (l : list Z) (ls : list (list Z)) : Page.fired (l :: ls) = bit (lit_up l) + Page.fired ls.
Proof. exact (countb_cons _ l ls). Qed.

Lemma fired_snoc (ls : list (list Z)) (l : list Z) : Page.fired (ls ++ [l]) = Page.fired ls + bit (lit_up l).
Proof. exact (countb_snoc _ ls l). Qed.

Lemma cause_fired (sc : Page.Scenario) (c1 c2 c3 c4 : bool) :
  5 <= Page.duration sc <= 180 ->
  flag sc Page.cpu (lit 80 100) c1 -> flag sc Page.pool_util (lit 90 100) c2 -> flag sc Page.replica_lag_s (of_Z 10) c3 ->
  flag sc Page.error_logs_per_min (of_Z 10) c4 ->
  Page.fired (Page.cause_rules (Page.timeline sc)) = bit c1 + (bit c2 + (bit c3 + (bit c4 + 0))).
Proof.
  intros Hd [B1 F1] [B2 F2] [B3 F3] [B4 F4]. unfold Page.cause_rules. rewrite !fired_cons.
  rewrite (sustained_fired sc _ _ Hd B1), (sustained_fired sc _ _ Hd B2), (sustained_fired sc _ _ Hd B3), (sustained_fired sc _ _ Hd B4).
  rewrite F1, F2, F3, F4. reflexivity.
Qed.

Lemma symptom_fired (sc : Page.Scenario) (burns : list (list Z)) (a : bool) :
  5 <= Page.duration sc <= 180 -> mapM (Page.burn_rule (bads sc)) RULES = Some burns -> flag sc Page.error_ratio (lit 1 100) a ->
  exists symptoms, Page.symptom_rules (Page.timeline sc) = Some symptoms /\ Page.fired symptoms = Page.fired burns + bit a.
Proof.
  intros Hd Hb [B F]. unfold Page.symptom_rules. fold (bads sc). rewrite Hb. cbn [option_bind mbind]. eexists. split; [reflexivity|].
  by rewrite fired_snoc, (sustained_fired sc _ _ Hd B), F.
Qed.

Lemma row_of (sc : Page.Scenario) (hs : list Z) (symptoms : list (list Z)) :
  Page.user_harm (Page.timeline sc) = Some hs -> Page.symptom_rules (Page.timeline sc) = Some symptoms ->
  Page.row sc = (let c := Page.fired (Page.cause_rules (Page.timeline sc)) in let s := Page.fired symptoms in
    Some (lit_up hs, c, s, Page.classify (lit_up hs) c s)).
Proof.
  unfold Page.row. cbv zeta. generalize (Page.user_harm (Page.timeline sc)) (Page.symptom_rules (Page.timeline sc)). by intros ? ? -> ->.
Qed.

Lemma row_eq (sc : Page.Scenario) (h : bool) (burns : list (list Z)) (c s : Z) (a : bool) :
  5 <= Page.duration sc <= 180 -> Page.harms Page.BASE = Some false ->
  Page.harms (Page.update (Page.overrides sc) Page.BASE) = Some h ->
  Page.fired (Page.cause_rules (Page.timeline sc)) = c ->
  mapM (Page.burn_rule (bads sc)) RULES = Some burns -> flag sc Page.error_ratio (lit 1 100) a -> Page.fired burns + bit a = s ->
  Page.row sc = Some (h, c, s, Page.classify h c s).
Proof.
  intros Hd H0 Hh Hc Hb Ha Hs. destruct (symptom_fired sc burns a Hd Hb Ha) as (symptoms & Es & Ef).
  assert (Hd' : 0 <= Page.duration sc <= 180) by lia. rewrite (row_of sc _ _ (user_harm_range sc h Hd' H0 Hh) Es). cbv zeta. rewrite Hc, Ef, Hs.
  assert (Eh : lit_up (range Page.INCIDENT_START (if h then Page.INCIDENT_START + Page.duration sc else Page.INCIDENT_START)) = h)
    by (destruct h; [rewrite range_cons by lia|rewrite range_nil by lia]; reflexivity).
  rewrite Eh. reflexivity.
Qed.

(** The rules on the bad events of a scenario. *)
Lemma burns_eq (sc : Page.Scenario) (l1 l2 l3 : list Z) :
  Page.burn_rule (bads sc) (mkRule 60 5 (lit 144 10)) = Some l1 -> Page.burn_rule (bads sc) (mkRule 360 30 (of_Z 6)) = Some l2 ->
  Page.burn_rule (bads sc) (mkRule 4320 360 (of_Z 1)) = Some l3 -> mapM (Page.burn_rule (bads sc)) RULES = Some [l1; l2; l3].
Proof. intros H1 H2 H3. unfold RULES. cbn [mapM]. by rewrite H1, H2, H3. Qed.

Definition calm_k : Z := units (Page.bad_of Page.BASE).
Definition bad_k (sc : Page.Scenario) : Z := units (Page.bad_of (Page.update (Page.overrides sc) Page.BASE)).

(** The counts of a scenario, in range. *)
Definition in_rangeb (base bad : Z) : bool :=
  (0 <=? base) && ((base <=? bad) && ((bad <=? REQUESTS_PER_MINUTE * unit_k) && (10 * base <=? 19 * unit_k))).

Record counts_ok (sc : Page.Scenario) : Prop := {
  c_calm : Page.bad_of Page.BASE = Fin calm_k;
  c_bad : Page.bad_of (Page.update (Page.overrides sc) Page.BASE) = Fin (bad_k sc);
  c_range : in_rangeb calm_k (bad_k sc) = true }.

Lemma in_rangeb_spec (base bad : Z) :
  in_rangeb base bad = true -> 0 <= base <= bad /\ bad <= REQUESTS_PER_MINUTE * unit_k /\ 10 * base <= 19 * unit_k.
Proof. unfold in_rangeb. rewrite !andb_true_iff, !Z.leb_le. tauto. Qed.

Lemma counts_at (sc : Page.Scenario) (m : Z) :
  counts_ok sc -> Page.bad_of (Page.at_ sc m) = Fin (if in_incident sc m then bad_k sc else calm_k).
Proof. intros [H1 H2 _]. rewrite at_eq. destruct (in_incident sc m); [exact H2|exact H1]. Qed.

Lemma factors_ok : fleb (of_Z 1) (lit 144 10) = true /\ fleb (of_Z 1) (of_Z 6) = true /\ fleb (of_Z 1) (of_Z 1) = true.
Proof. vm_compute. auto. Qed.

(** No burn rate is reached. *)
Definition too_small (sc : Page.Scenario) (w t : Z) : bool :=
  w * calm_k + Page.duration sc * (bad_k sc - calm_k) <=? (t - 1) * unit_k.

Lemma burns_never (sc : Page.Scenario) :
  0 <= Page.duration sc <= 180 -> counts_ok sc ->
  too_small sc 60 5184 = true -> too_small sc 360 12960 = true -> too_small sc 4320 25920 = true ->
  mapM (Page.burn_rule (bads sc)) RULES = Some [[]; []; []].
Proof.
  intros Hd Hc T1 T2 T3. pose proof (in_rangeb_spec _ _ (c_range sc Hc)) as Hb. pose proof (fun m => counts_at sc m Hc) as He.
  destruct rules_sharp as (R1 & R2 & R3). destruct factors_ok as (F1 & F2 & F3). apply Z.leb_le in T1, T2, T3. apply burns_eq.
  - exact (scenario_never sc calm_k (bad_k sc) Hd Hb He _ _ _ R1 F1 T1).
  - exact (scenario_never sc calm_k (bad_k sc) Hd Hb He _ _ _ R2 F2 T2).
  - exact (scenario_never sc calm_k (bad_k sc) Hd Hb He _ _ _ R3 F3 T3).
Qed.

#[local] Ltac by_value := vm_compute; reflexivity.

Lemma scenarios_counts :
  counts_ok Page.scenario_W /\ counts_ok Page.scenario_X /\ counts_ok Page.scenario_Y /\ counts_ok Page.scenario_Z.
Proof. split_and!; (split; [by_value..]). Qed.

(** Exhaustion of the pool lights all three burn rates. *)
Lemma burns_X :
  let lit_from a b := range (Page.INCIDENT_START + a) (Page.INCIDENT_START + b) in
  mapM (Page.burn_rule (bads Page.scenario_X)) RULES = Some [lit_from 1 44; lit_from 3 69; lit_from 4 180].
Proof.
  cbn zeta. destruct scenarios_counts as (_ & Hc & _). pose proof (in_rangeb_spec _ _ (c_range _ Hc)) as Hb.
  pose proof (fun m => counts_at _ m Hc) as He. destruct rules_sharp as (R1 & R2 & R3). destruct factors_ok as (F1 & F2 & F3).
  assert (Hd : 0 <= Page.duration Page.scenario_X <= 180) by (cbn; lia).
  apply burns_eq;
    [apply (scenario_range Page.scenario_X calm_k _ Hd Hb He _ _ _ R1 F1 1 0)
    |apply (scenario_range Page.scenario_X calm_k _ Hd Hb He _ _ _ R2 F2 3 0)
    |apply (scenario_range Page.scenario_X calm_k _ Hd Hb He _ _ _ R3 F3 4 0)];
    try (apply cut_of; by_value); try (unfold Page.TIMELINE_MINUTES, Page.INCIDENT_START; lia);
    intros m Hm; cbn [Page.duration Page.scenario_X long_win short_win]; unfold overlap, Page.TIMELINE_MINUTES, Page.INCIDENT_START in *; lia.
Qed.

Lemma harms_values :
  Page.harms Page.BASE = Some false /\
  Page.harms (Page.update (Page.overrides Page.scenario_W) Page.BASE) = Some false /\
  Page.harms (Page.update (Page.overrides Page.scenario_X) Page.BASE) = Some true /\
  Page.harms (Page.update (Page.overrides Page.scenario_Y) Page.BASE) = Some false /\
  Page.harms (Page.update (Page.overrides Page.scenario_Z) Page.BASE) = Some true.
Proof. split_and!; by_value. Qed.

(** The row of a scenario whose bad events reach no burn rate. *)
Lemma row_never (sc : Page.Scenario) (h c1 c2 c3 c4 a : bool) :
  5 <= Page.duration sc <= 180 -> counts_ok sc -> Page.harms (Page.update (Page.overrides sc) Page.BASE) = Some h ->
  too_small sc 60 5184 && too_small sc 360 12960 && too_small sc 4320 25920 = true ->
  flag sc Page.cpu (lit 80 100) c1 -> flag sc Page.pool_util (lit 90 100) c2 -> flag sc Page.replica_lag_s (of_Z 10) c3 ->
  flag sc Page.error_logs_per_min (of_Z 10) c4 -> flag sc Page.error_ratio (lit 1 100) a ->
  let c := bit c1 + (bit c2 + (bit c3 + (bit c4 + 0))) in Page.row sc = Some (h, c, bit a, Page.classify h c (bit a)).
Proof.
  intros Hd Hc Hh Ht F1 F2 F3 F4 F5. apply andb_true_iff in Ht as [Ht T3]. apply andb_true_iff in Ht as [T1 T2]. cbn zeta.
  assert (Hd' : 0 <= Page.duration sc <= 180) by lia. destruct harms_values as (H0 & _).
  exact (row_eq sc h _ _ _ a Hd H0 Hh (cause_fired sc c1 c2 c3 c4 Hd F1 F2 F3 F4) (burns_never sc Hd' Hc T1 T2 T3) F5 eq_refl).
Qed.

(** What the four cause rules and the availability rule look at, inside the incident. *)
Definition flags (sc : Page.Scenario) (c1 c2 c3 c4 a : bool) : Prop :=
  flag sc Page.cpu (lit 80 100) c1 /\ flag sc Page.pool_util (lit 90 100) c2 /\ flag sc Page.replica_lag_s (of_Z 10) c3 /\
  flag sc Page.error_logs_per_min (of_Z 10) c4 /\ flag sc Page.error_ratio (lit 1 100) a.

Lemma flags_values :
  flags Page.scenario_W true false false false false /\ flags Page.scenario_X false true false false false /\
  flags Page.scenario_Y false false true false false /\ flags Page.scenario_Z false false false true true.
Proof. split_and!; (split; [|split; [|split; [|split]]]); (split; by_value). Qed.

(** ** Properties *)

(** Scoreboard: with the floats as they are, the two scenarios that harm nobody each
    raise one page, from a cause rule, and no symptom rule; in the two that harm users both
    families fire.  In each of the four exactly one cause rule fires, in the exhaustion of
    the pool too, where it is the pool's. *)
Theorem page_scoreboard :
  Page.row Page.scenario_W = Some (false, 1, 0, Page.cause_only 1) /\
  Page.row Page.scenario_X = Some (true, 1, 3, Page.both_fired) /\
  Page.row Page.scenario_Y = Some (false, 1, 0, Page.cause_only 1) /\
  Page.row Page.scenario_Z = Some (true, 1, 1, Page.both_fired).
Proof.
  destruct scenarios_counts as (CW & CX & CY & CZ). destruct harms_values as (H0 & HW & HX & HY & HZ).
  destruct flags_values as ((W1 & W2 & W3 & W4 & W5) & (X1 & X2 & X3 & X4 & X5) & (Y1 & Y2 & Y3 & Y4 & Y5) & (Z1 & Z2 & Z3 & Z4 & Z5)).
  split_and!.
  - refine (row_never Page.scenario_W _ _ _ _ _ _ _ CW HW _ W1 W2 W3 W4 W5); [cbn; lia|by_value].
  - refine (row_eq Page.scenario_X _ _ _ _ _ _ H0 HX (cause_fired Page.scenario_X _ _ _ _ _ X1 X2 X3 X4) burns_X X5 _); [cbn; lia|cbn; lia|by_value].
  - refine (row_never Page.scenario_Y _ _ _ _ _ _ _ CY HY _ Y1 Y2 Y3 Y4 Y5); [cbn; lia|by_value].
  - refine (row_never Page.scenario_Z _ _ _ _ _ _ _ CZ HZ _ Z1 Z2 Z3 Z4 Z5); [cbn; lia|by_value].
Qed.

(** [for: Nm] fires exactly when the last N minutes held, and the latency rule of
    burn_rate.py is the same rule. *)
Theorem streak_rule (l : list float) (x : float) (n m : Z) :
  1 <= n ->
  naive_latency_rule x n l = Page.sustained (fltb x <$> l) n /\
  (m ∈ naive_latency_rule x n l <->
   m < Z.of_nat (length l) /\ forall i, m - n < i <= m -> 0 <= i /\ exists p, l !! Z.to_nat i = Some p /\ fltb x p = true).
Proof.
  intros Hn. split; [apply naive_is_sustained|]. rewrite naive_is_sustained, sustained_spec, length_fmap by exact Hn.
  apply and_iff_compat_l. unfold held. split; intros H i Hi; destruct (H i Hi) as [H0 H1]; (split; [exact H0|]).
  - rewrite list_lookup_fmap in H1. destruct (l !! Z.to_nat i) as [p|]; [|done]. exists p. split; [done|]. by injection H1.
  - destruct H1 as (p & Ep & Hp). by rewrite list_lookup_fmap, Ep, <- Hp.
Qed.

Lemma streak_rule_witness :
  let l := [of_Z 700; of_Z 700; of_Z 700] in 2 ∈ naive_latency_rule (of_Z 500) 3 l.
Proof.
  cbn zeta. apply (streak_rule _ _ 3 2); [lia|]. split; [cbn; lia|]. intros i Hi. split; [lia|].
  assert (H : fltb (of_Z 500) (of_Z 700) = true) by (vm_compute; reflexivity). exists (of_Z 700). split; [|exact H].
  assert (i = 0 \/ i = 1 \/ i = 2) as [-> | [-> | ->]] by lia; reflexivity.
Defined.
