(* ===== verification/Histogram.v ===== *)
(** * Observability: what a histogram says of a quantile

    Models src/06-observability/02-real-p99/python/histogram_lies.py: the cumulative
    counters of a Prometheus histogram, [histogram_quantile], and the sum of the counters of
    several pods; not the native histograms, whose buckets need [math.log]. *)

From Stdlib Require Import ZArith Lia.
From stdpp Require Import base option list numbers sorting.
From S2P Require Import Prelude PyFloat.

Open Scope Z_scope.

(** ** Definitions *)

Definition BUCKETS_GUESSED : list float :=
  [lit 5 1000; lit 10 1000; lit 25 1000; lit 50 1000; lit 100 1000; lit 250 1000; lit 500 1000; lit 1000 1000].

Definition BUCKETS_OTEL : list float :=
  [lit 5 1000; lit 10 1000; lit 25 1000; lit 50 1000; lit 75 1000; lit 100 1000; lit 250 1000; lit 500 1000; lit 750 1000;
   lit 1000 1000; lit 2500 1000; lit 5000 1000; lit 7500 1000; lit 10000 1000].

(** The bucket of a sample: the first boundary that is not below it, or the last bucket. *)
Fixpoint placed (s : float) (boundaries : list float) : nat :=
  match boundaries with
  | [] => O
  | b :: boundaries => if fleb s b then O else S (placed s boundaries)
  end.

Fixpoint accumulate (running : Z) (counts : list Z) : list Z :=
  match counts with
  | [] => []
  | c :: counts => (running + c) :: accumulate (running + c) counts
  end.

Definition bucket_counts (samples boundaries : list float) : list Z :=
  fold_left (fun counts s => alter (Z.add 1) (placed s boundaries) counts) samples (replicate (S (length boundaries)) 0).

Definition bucketize (samples boundaries : list float) : list Z := accumulate 0 (bucket_counts samples boundaries).

(** [cum >= target], of an integer and a float. *)
Definition reaches (cum : Z) (target : float) : bool :=
  match target with Fin x => x <=? cum * unit_k | NInf => true | _ => false end.

(** Inside a bucket. *)
Definition interpolate (lower upper target : float) (prev span : Z) : option float :=
  frac ← (if span =? 0 then Some (of_Z 0) else fdiv (fsub target (of_Z prev)) (of_Z span));
  Some (fadd lower (fmul (fsub upper lower) frac)).

(** The element before index [i], or [d]. *)
Definition before {A} (d : A) (l : list A) (i : nat) : option A := match i with O => Some d | S i => l !! i end.

(** The loop of [histogram_quantile], from bucket [i]; [None]: an exception.  The flag says
    that the value is clamped. *)
Fixpoint find_quantile (target : float) (cumulative : list Z) (boundaries : list float) (i : nat) (l : list Z) : option (float * bool) :=
  match l with
  | [] => top ← last boundaries; Some (top, true)
  | cum :: l =>
      if reaches cum target
      then
        if (i =? length boundaries)%nat then top ← last boundaries; Some (top, true)
        else
          lower ← before (of_Z 0) boundaries i;
          upper ← boundaries !! i;
          prev ← before 0 cumulative i;
          v ← interpolate lower upper target prev (cum - prev); Some (v, false)
      else find_quantile target cumulative boundaries (S i) l
  end.

(** [None]: an exception; [Some None]: Python's [None]. *)
Definition histogram_quantile (q : float) (cumulative : list Z) (boundaries : list float) : option (option (float * bool)) :=
  total ← last cumulative;
  if total =? 0 then Some None
  else Some <$> find_quantile (fmul q (of_Z total)) cumulative boundaries 0 cumulative.

(** [part_2_aggregation]: the counters of all pods, summed. *)
Definition merge (pods : list (list float)) (boundaries : list float) : list Z :=
  fold_left (fun merged samples => zip_with Z.add merged (bucketize samples boundaries)) pods (replicate (S (length boundaries)) 0).

(** ** Lemmas *)

(** *** Counters *)

Lemma accumulate_length (r : Z) (l : list Z) : length (accumulate r l) = length l.
Proof. revert r. induction l as [|c l IH]; intros r; cbn; [done|by rewrite IH]. Qed.

Lemma accumulate_lookup (l : list Z) (r : Z) (i : nat) :
  (i < length l)%nat -> accumulate r l !! i = Some (r + zsum (take (S i) l)).
Proof.
  revert r i. induction l as [|c l IH]; intros r [|i] Hi; cbn [accumulate length] in *; try lia.
  - change (take 1 (c :: l)) with [c]. unfold zsum. cbn [foldr lookup list_lookup]. f_equal. lia.
  - cbn [lookup list_lookup]. rewrite IH by lia. change (take (S (S i)) (c :: l)) with (c :: take (S i) l). unfold zsum. cbn [foldr]. f_equal. lia.
Qed.

Lemma counts_length (samples boundaries : list float) : length (bucket_counts samples boundaries) = S (length boundaries).
Proof.
  unfold bucket_counts. rewrite <- (length_replicate (S (length boundaries)) 0) at 2. generalize (replicate (S (length boundaries)) 0).
  induction samples as [|s samples IH]; intros l; cbn [fold_left]; [done|]. by rewrite IH, length_alter.
Qed.

(** Each bucket counts its samples. *)
Lemma counts_lookup (samples boundaries : list float) (i : nat) :
  (i <= length boundaries)%nat ->
  bucket_counts samples boundaries !! i = Some (countb (fun s => (placed s boundaries =? i)%nat) samples).
Proof.
  intros Hi. unfold bucket_counts.
  assert (H : forall (l : list Z) c, l !! i = Some c ->
    fold_left (fun counts s => alter (Z.add 1) (placed s boundaries) counts) samples l !! i =
    Some (c + countb (fun s => (placed s boundaries =? i)%nat) samples)).
  { induction samples as [|s samples IH]; intros l c Hl; cbn [fold_left]; [rewrite Hl; f_equal; unfold countb, zsum; cbn; lia|].
    rewrite countb_cons. destruct (Nat.eqb_spec (placed s boundaries) i) as [E|E].
    - rewrite (IH _ (1 + c)); [f_equal; cbn; lia|]. by rewrite E, list_lookup_alter_eq, Hl.
    - rewrite (IH _ c); [f_equal; cbn; lia|]. by rewrite list_lookup_alter_ne. }
  rewrite (H _ 0); [done|]. apply lookup_replicate_2. lia.
Qed.

Lemma sum_of_buckets (samples boundaries : list float) (i : nat) :
  (i <= length boundaries)%nat ->
  zsum (take (S i) (bucket_counts samples boundaries)) = countb (fun s => (placed s boundaries <=? i)%nat) samples.
Proof.
  induction i as [|i IH]; intros Hi; pose proof (counts_lookup samples boundaries _ Hi) as Hl; rewrite (take_S_r _ _ _ Hl), zsum_app.
  - unfold zsum at 1 2. cbn [take foldr]. rewrite Z.add_0_r, Z.add_0_l. apply countb_ext. intros s _. by destruct (placed s boundaries).
  - rewrite IH by lia. unfold zsum. cbn [foldr]. rewrite Z.add_0_r, countb_disjoint.
    + apply countb_ext. intros s _. apply eq_true_iff_eq. rewrite orb_true_iff, !Nat.leb_le, Nat.eqb_eq. lia.
    + intros s Hs%Nat.leb_le. apply Nat.eqb_neq. lia.
Qed.

(** The boundaries ascend. *)
Definition ascending (boundaries : list float) : Prop := StronglySorted (fun a b => fleb a b = true) boundaries.

Lemma placed_le (s : float) (boundaries : list float) (i : nat) (b : float) :
  ascending boundaries -> boundaries !! i = Some b -> (placed s boundaries <=? i)%nat = fleb s b.
Proof.
  intros Ha. revert i. induction Ha as [|a bs Ha IH Hall]; intros i Hi; [done|]. cbn [placed]. destruct (fleb s a) eqn:E.
  - destruct i as [|i]; cbn in *; [by injection Hi as <-|]. symmetry. apply (fleb_trans _ a); [exact E|].
    exact (Forall_lookup_1 _ _ _ _ Hall Hi).
  - destruct i as [|i]; cbn in *; [injection Hi as <-; by rewrite E|]. exact (IH i Hi).
Qed.

Lemma placed_bound (s : float) (boundaries : list float) : (placed s boundaries <= length boundaries)%nat.
Proof. induction boundaries as [|b bs IH]; cbn; [lia|]. destruct (fleb s b); lia. Qed.

(** How many samples are at most the boundary [i], or in all. *)
Definition below (samples boundaries : list float) (i : nat) : Z :=
  match boundaries !! i with Some b => countb (fun s => fleb s b) samples | None => Z.of_nat (length samples) end.

Lemma bucketize_lookup (samples boundaries : list float) (i : nat) :
  ascending boundaries -> (i <= length boundaries)%nat -> bucketize samples boundaries !! i = Some (below samples boundaries i).
Proof.
  intros Ha Hi. unfold bucketize. rewrite accumulate_lookup, sum_of_buckets by (rewrite ?counts_length; lia). f_equal. unfold below.
  destruct (boundaries !! i) as [b|] eqn:E; [apply countb_ext; intros s _; by apply placed_le|].
  apply lookup_ge_None in E. rewrite Z.add_0_l. induction samples as [|s samples IH]; [done|]. rewrite countb_cons, IH.
  pose proof (placed_bound s boundaries). destruct (Nat.leb_spec (placed s boundaries) i); cbn [bit length]; lia.
Qed.

Lemma bucketize_length (samples boundaries : list float) : length (bucketize samples boundaries) = S (length boundaries).
Proof. unfold bucketize. by rewrite accumulate_length, counts_length. Qed.

(** Counters of pods add up. *)
Lemma bucketize_app (samples samples' boundaries : list float) :
  ascending boundaries -> zip_with Z.add (bucketize samples boundaries) (bucketize samples' boundaries) = bucketize (samples ++ samples') boundaries.
Proof.
  intros Ha. apply list_eq. intros i. destruct (decide (i <= length boundaries)%nat) as [Hi|Hi].
  - rewrite lookup_zip_with, !bucketize_lookup by done. cbn. f_equal. unfold below.
    destruct (boundaries !! i); [unfold countb; by rewrite fmap_app, zsum_app|rewrite length_app; lia].
  - rewrite !lookup_ge_None_2; [done|rewrite bucketize_length; lia|rewrite length_zip_with, !bucketize_length; lia].
Qed.

Lemma bucketize_nil (boundaries : list float) : bucketize [] boundaries = replicate (S (length boundaries)) 0.
Proof.
  unfold bucketize, bucket_counts. cbn [fold_left]. generalize (S (length boundaries)). intros n. induction n as [|n IH]; [done|].
  cbn [replicate accumulate]. by rewrite Z.add_0_r, IH.
Qed.

Lemma merge_concat (pods : list (list float)) (boundaries : list float) :
  ascending boundaries -> merge pods boundaries = bucketize (concat pods) boundaries.
Proof.
  intros Ha. unfold merge. rewrite <- (bucketize_nil boundaries). change (concat pods) with ([] ++ concat pods). generalize (@nil float).
  induction pods as [|samples pods IH]; intros pre; cbn [fold_left concat]; [by rewrite app_nil_r|].
  by rewrite bucketize_app, IH, <- app_assoc.
Qed.

(** *** The loop *)

Lemma exists_first (p : nat -> bool) (n : nat) : p n = true -> exists j, (j <= n)%nat /\ p j = true /\ forall k, (k < j)%nat -> p k = false.
Proof.
  induction n as [n IH] using lt_wf_ind. intros Hn. destruct (decide (Exists (fun k => p k = true) (seq 0 n))) as [H|H].
  - apply list.Exists_exists in H as (k & Hk & Hp). apply elem_of_seq in Hk. destruct (IH k) as (j & Hj & H); [lia|exact Hp|].
    exists j. split; [lia|exact H].
  - exists n. split; [done|]. split; [done|]. intros k Hk. destruct (p k) eqn:E; [|done]. exfalso. apply H, list.Exists_exists.
    exists k. split; [apply elem_of_seq; lia|exact E].
Qed.

(** What the loop does at the first bucket that reaches the target. *)
Definition at_bucket (target : float) (cumulative : list Z) (boundaries : list float) (i : nat) (cum : Z) : option (float * bool) :=
  if (i =? length boundaries)%nat then top ← last boundaries; Some (top, true)
  else
    lower ← before (of_Z 0) boundaries i; upper ← boundaries !! i; prev ← before 0 cumulative i;
    v ← interpolate lower upper target prev (cum - prev); Some (v, false).

Lemma find_first (target : float) (cumulative : list Z) (boundaries : list float) (j : nat) (cum : Z) (i : nat) :
  (i <= j)%nat -> cumulative !! j = Some cum -> reaches cum target = true ->
  (forall k c, (i <= k < j)%nat -> cumulative !! k = Some c -> reaches c target = false) ->
  find_quantile target cumulative boundaries i (drop i cumulative) = at_bucket target cumulative boundaries j cum.
Proof.
  intros Hij Hj Hc Hk. remember (j - i)%nat as n eqn:En. revert i Hij Hk En. induction n as [|n IH]; intros i Hij Hk En.
  - assert (i = j) as -> by lia. rewrite (drop_S _ cum) by exact Hj. cbn [find_quantile]. by rewrite Hc.
  - destruct (lookup_lt_is_Some_2 cumulative i) as [c Ec]; [apply lookup_lt_Some in Hj; lia|].
    rewrite (drop_S _ c) by exact Ec. cbn [find_quantile]. rewrite (Hk i c) by (lia || exact Ec). apply IH; [lia| |lia].
    intros k d Hkk. apply Hk. lia.
Qed.

(** *** Inside a bucket *)

Lemma fin_between (a : float) (lo hi : Z) :
  fleb (Fin lo) a = true -> fleb a (Fin hi) = true -> exists k, a = Fin k /\ lo <= k <= hi.
Proof. destruct a as [k| | |]; try done. rewrite !fleb_Fin. intros H1 H2. to_props. by exists k. Qed.

Lemma fround_between (n d lo hi : Z) :
  0 < d -> wf (Fin lo) -> wf (Fin hi) -> lo * d <= n <= hi * d -> exists k, fround n d = Fin k /\ lo <= k <= hi.
Proof.
  intros Hd [Rl Ml] [Rh Mh] Hn. apply fin_between.
  - rewrite <- (fround_exact lo d) by done. apply fround_mono; nia.
  - rewrite <- (fround_exact hi d) by done. apply fround_mono; nia.
Qed.

(** A boundary: a number that is not negative. *)
Definition bound (b : float) : Prop := exists k, b = Fin k /\ wf (Fin k) /\ 0 <= k.

Lemma interpolate_within (l u t prev span : Z) :
  wf (Fin l) -> wf (Fin u) -> 0 <= l <= u -> 0 <= prev -> 0 <= span -> prev + span <= 2 ^ 50 ->
  prev * unit_k <= t <= (prev + span) * unit_k ->
  exists v, interpolate (Fin l) (Fin u) (Fin t) prev span = Some v /\
    fleb (Fin l) v = true /\ fleb v (fadd (Fin l) (fsub (Fin u) (Fin l))) = true.
Proof.
  intros Wl Wu Hlu Hp Hs Hmax Ht. pose proof unit_k_pos as Hu. pose proof wf_0 as W0.
  assert (W1 : wf (Fin unit_k)) by (rewrite <- (Z.mul_1_l unit_k); apply of_Z_wf_small; lia).
  assert (Hfrac : exists f, (if span =? 0 then Some (of_Z 0) else fdiv (fsub (Fin t) (of_Z prev)) (of_Z span)) = Some (Fin f) /\ 0 <= f <= unit_k).
  { destruct (Z.eqb_spec span 0) as [E|E]; [exists 0; rewrite of_Z_0; split; [done|lia]|].
    rewrite (of_Z_small prev), (of_Z_small span) by lia. change (fsub (Fin t) (Fin (prev * unit_k))) with (fround (t - prev * unit_k) 1).
    destruct (fround_between (t - prev * unit_k) 1 0 (span * unit_k)) as (d & -> & Hd); [lia|exact W0|apply of_Z_wf_small; lia|lia|].
    destruct (span * unit_k) as [|p|p] eqn:Ep; [nia| |nia]. cbn [fdiv Z.sgn Z.abs]. rewrite Z.mul_1_l.
    destruct (fround_between (d * unit_k) (Z.pos p) 0 unit_k) as (f & Ef & Hf); [lia|exact W0|exact W1|nia|]. exists f. split; [by rewrite <- Ef|exact Hf]. }
  destruct Hfrac as (f & Ef & Hf). unfold interpolate. rewrite Ef. cbn [option_bind mbind]. eexists. split; [reflexivity|].
  change (fsub (Fin u) (Fin l)) with (fround (u - l) 1).
  destruct (fround_between (u - l) 1 0 u) as (w & Ew & Hw); [lia|exact W0|exact Wu|lia|].
  pose proof (fround_wf (u - l) 1 ltac:(lia)) as Ww. rewrite Ew in *.
  destruct (fmul_fraction w f Ww) as [M0 M1]; [lia|exact Hf|]. destruct (fin_between _ 0 w M0 M1) as (g & -> & Hg).
  change (fadd (Fin l) (Fin g)) with (fround (l + g) 1). change (fadd (Fin l) (Fin w)) with (fround (l + w) 1). split.
  - destruct Wl as [Rl Ml]. rewrite <- (fround_exact l 1) by (lia || done). apply fround_mono; lia.
  - apply fround_mono; lia.
Qed.

(** The target of a quantile. *)
Lemma target_range (q n : Z) :
  wf (Fin q) -> 0 <= q <= unit_k -> 0 <= n <= 2 ^ 50 -> exists t, fmul (Fin q) (of_Z n) = Fin t /\ 0 <= t <= n * unit_k.
Proof.
  intros Wq Hq Hn. rewrite of_Z_small by lia. change (fmul (Fin q) (Fin (n * unit_k))) with (fround (q * (n * unit_k)) unit_k).
  pose proof unit_k_pos. apply fround_between; [done|apply wf_0|apply of_Z_wf_small; lia|nia].
Qed.

Lemma below_mono (samples boundaries : list float) (i j : nat) :
  ascending boundaries -> (i <= j)%nat -> below samples boundaries i <= below samples boundaries j.
Proof.
  intros Ha Hij. unfold below. destruct (boundaries !! j) as [b|] eqn:Ej.
  - destruct (lookup_lt_is_Some_2 boundaries i) as [a Ei]; [apply lookup_lt_Some in Ej; lia|]. rewrite Ei.
    apply countb_le. intros s Hs. rewrite <- (placed_le s boundaries i a Ha Ei) in Hs. rewrite <- (placed_le s boundaries j b Ha Ej).
    apply Nat.leb_le in Hs. apply Nat.leb_le. lia.
  - destruct (boundaries !! i); [apply countb_length|done].
Qed.

Lemma below_nonneg (samples boundaries : list float) (i : nat) : 0 <= below samples boundaries i.
Proof. unfold below. destruct (boundaries !! i); [apply countb_nonneg|lia]. Qed.

Lemma reaches_mono (c d : Z) (target : float) : c <= d -> reaches c target = true -> reaches d target = true.
Proof. intros H. pose proof unit_k_pos. destruct target; cbn; try done. rewrite !Z.leb_le. nia. Qed.

(** The ends of a bucket. *)
Lemma bucket_ends (boundaries : list float) (i : nat) (upper : float) :
  ascending boundaries -> Forall bound boundaries -> boundaries !! i = Some upper ->
  exists l u, before (of_Z 0) boundaries i = Some (Fin l) /\ upper = Fin u /\ wf (Fin l) /\ wf (Fin u) /\ 0 <= l <= u.
Proof.
  intros Ha Hb Hi. pose proof (Forall_lookup_1 _ _ _ _ Hb Hi) as (u & -> & Wu & Hu). destruct i as [|i].
  - exists 0, u. cbn. rewrite of_Z_0. exact (conj eq_refl (conj eq_refl (conj wf_0 (conj Wu (conj (Z.le_refl 0) Hu))))).
  - destruct (lookup_lt_is_Some_2 boundaries i) as [b Eb]; [apply lookup_lt_Some in Hi; lia|].
    pose proof (Forall_lookup_1 _ _ _ _ Hb Eb) as (l & -> & Wl & Hl). exists l, u. split; [exact Eb|]. split; [done|]. split; [exact Wl|]. split; [exact Wu|].
    assert (H : fleb (Fin l) (Fin u) = true).
    { rewrite <- (placed_le (Fin l) boundaries (S i) _ Ha Hi). apply Nat.leb_le.
      pose proof (placed_le (Fin l) boundaries i _ Ha Eb) as Hp. rewrite fleb_Fin, Z.leb_refl in Hp. apply Nat.leb_le in Hp. lia. }
    rewrite fleb_Fin in H. by to_props.
Qed.

Section picked.
Context (samples boundaries : list float) (t : Z) (j : nat).
Hypothesis size : Z.of_nat (length samples) <= 2 ^ 50.
Hypothesis ascends : ascending boundaries.
Hypothesis bounds : Forall bound boundaries.
Hypothesis t_pos : 0 <= t.
Hypothesis reached : reaches (below samples boundaries j) (Fin t) = true.
Hypothesis first : forall k, (k < j)%nat -> reaches (below samples boundaries k) (Fin t) = false.

Lemma picked_inside (upper : float) :
  boundaries !! j = Some upper ->
  exists v lower, at_bucket (Fin t) (bucketize samples boundaries) boundaries j (below samples boundaries j) = Some (v, false) /\
    before (of_Z 0) boundaries j = Some lower /\ (j <> O -> reaches (countb (fun s => fleb s lower) samples) (Fin t) = false) /\
    fleb lower v = true /\ fleb v (fadd lower (fsub upper lower)) = true.
Proof using All.
  intros Hj. destruct (bucket_ends boundaries j upper ascends bounds Hj) as (l & u & El & -> & Wl & Wu & Hlu).
  pose proof (lookup_lt_Some _ _ _ Hj) as Hjl. pose proof unit_k_pos as Hu.
  assert (Hprev : exists prev, before 0 (bucketize samples boundaries) j = Some prev /\ 0 <= prev <= below samples boundaries j /\
    prev * unit_k <= t /\ (j <> O -> reaches (countb (fun s => fleb s (Fin l)) samples) (Fin t) = false)).
  { destruct j as [|i].
    - exists 0. split; [reflexivity|]. split; [split; [lia|apply below_nonneg]|]. split; [lia|done].
    - exists (below samples boundaries i). cbn [before] in *. rewrite bucketize_lookup by (exact ascends || lia). split; [reflexivity|].
      split; [split; [apply below_nonneg|apply below_mono; [exact ascends|lia]]|].
      pose proof (first i ltac:(lia)) as Hf. split; [cbn in Hf; to_props; lia|]. intros _. unfold below in Hf. by rewrite El in Hf. }
  destruct Hprev as (prev & Ep & Hp & Ht & Hn). unfold at_bucket.
  replace (j =? length boundaries)%nat with false by (symmetry; apply Nat.eqb_neq; lia). rewrite El, Hj, Ep. cbn [option_bind mbind].
  assert (Hcum : below samples boundaries j <= Z.of_nat (length samples)) by (unfold below; rewrite Hj; apply countb_length).
  destruct (interpolate_within l u t prev (below samples boundaries j - prev)) as (v & Ev & V1 & V2);
    [exact Wl|exact Wu|exact Hlu|lia|lia|lia|cbn in reached; to_props; split; [lia|]; rewrite Zplus_minus; lia|].
  rewrite Ev. exists v, (Fin l). split; [reflexivity|]. split; [reflexivity|]. split; [exact Hn|]. by split.
Qed.

End picked.

(** *** The two lists *)

Lemma lit_bound (n d : Z) : 0 < d -> 0 <= n <= 2 ^ 40 * d -> bound (lit n d).
Proof.
  intros Hd Hn. rewrite lit_eq. pose proof unit_k_pos.
  destruct (fround_between (n * unit_k) d 0 (2 ^ 40 * unit_k)) as (k & Ek & Hk); [lia|apply wf_0|apply of_Z_wf_small; lia|nia|].
  exists k. split; [exact Ek|]. split; [rewrite <- Ek; by apply fround_wf|lia].
Qed.

Definition ascendingb (boundaries : list float) : bool :=
  forallb (fun '(a, b) => fleb a b) (zip boundaries (tail boundaries)).

Lemma ascendingb_spec (boundaries : list float) : ascendingb boundaries = true -> ascending boundaries.
Proof.
  intros H. apply Sorted_StronglySorted; [intros a b c; apply fleb_trans|].
  induction boundaries as [|a [|b l] IH]; [constructor|by repeat constructor|].
  unfold ascendingb in *. cbn [tail zip zip_with forallb] in H. apply andb_true_iff in H as [Hab H]. constructor; [by apply IH|by constructor].
Qed.

(** The interpolation never leaves its bucket by a rounding. *)
Definition tightb (boundaries : list float) : bool :=
  forallb (fun '(l, u) => fleb (fadd l (fsub u l)) u) (zip (of_Z 0 :: boundaries) boundaries).

Lemma tightb_spec (boundaries : list float) (i : nat) (lower upper : float) :
  tightb boundaries = true -> before (of_Z 0) boundaries i = Some lower -> boundaries !! i = Some upper ->
  fleb (fadd lower (fsub upper lower)) upper = true.
Proof.
  intros H Hl Hu. unfold tightb in H. rewrite forallb_forall in H.
  apply (H (lower, upper)). apply list_elem_of_In, (list_elem_of_lookup_2 _ i). rewrite lookup_zip_with.
  assert (Hl' : (of_Z 0 :: boundaries) !! i = Some lower) by (destruct i; exact Hl). rewrite Hl'. cbn [option_bind mbind]. rewrite Hu. reflexivity.
Qed.

Lemma lists_ok (boundaries : list float) :
  boundaries = BUCKETS_GUESSED \/ boundaries = BUCKETS_OTEL ->
  ascending boundaries /\ Forall bound boundaries /\ tightb boundaries = true /\
  exists top, last boundaries = Some top.
Proof.
  intros [-> | ->]; (split; [apply ascendingb_spec; vm_compute; reflexivity|]);
    (split; [repeat apply List.Forall_cons; try apply List.Forall_nil; apply lit_bound; lia|]);
    (split; [vm_compute; reflexivity|]); eexists; reflexivity.
Qed.

(** ** Properties *)

(** C32: [histogram_quantile] is honest to a bucket: from the counters of any samples, the
    bucket it picks is the first whose boundary has at least [q * n] samples at or below it,
    and the value it gives lies in that bucket, up to one rounding at its upper end, and
    without that in the two lists of the program; it is clamped to the top boundary exactly when fewer samples than that are below the top. *)
Theorem quantile_in_its_bucket (q : Z) (samples boundaries : list float) (top : float) :
  wf (Fin q) -> 0 <= q <= unit_k -> 0 < Z.of_nat (length samples) <= 2 ^ 50 ->
  ascending boundaries -> Forall bound boundaries -> last boundaries = Some top ->
  let target := fmul (Fin q) (of_Z (Z.of_nat (length samples))) in
  let at_most b := countb (fun s => fleb s b) samples in
  exists v clamped, histogram_quantile (Fin q) (bucketize samples boundaries) boundaries = Some (Some (v, clamped)) /\
    clamped = negb (reaches (at_most top) target) /\
    (clamped = true -> v = top) /\
    (clamped = false -> exists i lower upper, before (of_Z 0) boundaries i = Some lower /\ boundaries !! i = Some upper /\
       reaches (at_most upper) target = true /\ (i <> O -> reaches (at_most lower) target = false) /\
       fleb lower v = true /\ fleb v (fadd lower (fsub upper lower)) = true /\ (tightb boundaries = true -> fleb v upper = true)).
Proof.
  intros Wq Hq Hn Ha Hb Htop. cbn zeta. set (n := Z.of_nat (length samples)) in *.
  destruct (target_range q n Wq Hq ltac:(lia)) as (t & Et & Ht). rewrite Et.
  assert (HL : below samples boundaries (length boundaries) = n) by (unfold below; by rewrite lookup_ge_None_2).
  assert (Htb : boundaries !! pred (length boundaries) = Some top) by (by rewrite <- last_lookup).
  assert (Hlen : (0 < length boundaries)%nat) by (destruct boundaries; [done|cbn; lia]).
  destruct (exists_first (fun k => reaches (below samples boundaries k) (Fin t)) (length boundaries)) as (j & Hj & Hr & Hf).
  { rewrite HL. cbn. apply Z.leb_le. lia. }
  assert (Hfind : histogram_quantile (Fin q) (bucketize samples boundaries) boundaries =
    Some <$> at_bucket (Fin t) (bucketize samples boundaries) boundaries j (below samples boundaries j)).
  { unfold histogram_quantile. rewrite last_lookup, bucketize_length. cbn [pred]. rewrite bucketize_lookup, HL by done. cbn [option_bind mbind].
    replace (n =? 0) with false by (symmetry; apply Z.eqb_neq; lia). rewrite Et. f_equal.
    apply (find_first (Fin t) _ boundaries j _ 0); [lia|by apply bucketize_lookup|exact Hr|].
    intros k c Hk Hc. rewrite bucketize_lookup in Hc by (exact Ha || lia). injection Hc as <-. apply Hf. lia. }
  rewrite Hfind. assert (Htop' : below samples boundaries (pred (length boundaries)) = countb (fun s => fleb s top) samples) by (unfold below; by rewrite Htb).
  rewrite <- Htop'. destruct (decide (j = length boundaries)) as [->|Hne].
  - exists top, true. unfold at_bucket. rewrite Nat.eqb_refl, Htop. split; [reflexivity|]. rewrite (Hf (pred (length boundaries))) by lia. done.
  - destruct (lookup_lt_is_Some_2 boundaries j) as [upper Eu]; [lia|].
    destruct (picked_inside samples boundaries t j ltac:(lia) Ha Hb ltac:(lia) Hr Hf upper Eu) as (v & lower & -> & El & Hl & V1 & V2).
    exists v, false. split; [reflexivity|]. rewrite (reaches_mono (below samples boundaries j)); [|apply below_mono; [exact Ha|lia]|exact Hr].
    split; [reflexivity|]. split; [done|]. intros _. exists j, lower, upper.
    split_and!; try done; [unfold below in Hr; by rewrite Eu in Hr|]. intros Hti. apply (fleb_trans _ _ _ V2). by apply (tightb_spec boundaries j).
Qed.

Lemma quantile_in_its_bucket_witness :
  exists q v clamped, lit 99 100 = Fin q /\
    histogram_quantile (Fin q) (bucketize [lit 30 1000; lit 37 10; lit 38 10] BUCKETS_GUESSED) BUCKETS_GUESSED = Some (Some (v, clamped)) /\
    (clamped = true -> v = lit 1000 1000) /\
    (clamped = false -> exists i upper, BUCKETS_GUESSED !! i = Some upper /\ fleb v upper = true).
Proof.
  assert (Hq : exists q, lit 99 100 = Fin q /\ wf (Fin q) /\ 0 <= q <= unit_k).
  { rewrite lit_eq. assert (W1 : wf (Fin unit_k)) by (rewrite <- (Z.mul_1_l unit_k); apply of_Z_wf_small; lia). pose proof unit_k_pos.
    destruct (fround_between (99 * unit_k) 100 0 unit_k) as (q & Eq & Hq); [lia|apply wf_0|exact W1|lia|]. exists q.
    split; [exact Eq|]. split; [rewrite <- Eq; by apply fround_wf|exact Hq]. }
  destruct Hq as (q & Eq & Wq & Hq). destruct (lists_ok BUCKETS_GUESSED (or_introl eq_refl)) as (Ha & Hb & Ht & _).
  destruct (quantile_in_its_bucket q [lit 30 1000; lit 37 10; lit 38 10] BUCKETS_GUESSED (lit 1000 1000) Wq Hq ltac:(cbn; lia) Ha Hb eq_refl)
    as (v & c & E & _ & Hc & Hi). exists q, v, c. split; [exact Eq|]. split; [exact E|]. split; [exact Hc|].
  intros Hf. destruct (Hi Hf) as (i & _ & upper & _ & Eu & _ & _ & _ & _ & Hv). exists i, upper. split; [exact Eu|exact (Hv Ht)].
Defined.

(** Counters add up, quantiles do not have to: the summed counters of any pods are the
    counters of all their samples, so their quantile is the one of all the samples. *)
Theorem counters_add_up (q : float) (pods : list (list float)) (boundaries : list float) :
  ascending boundaries ->
  merge pods boundaries = bucketize (concat pods) boundaries /\
  histogram_quantile q (merge pods boundaries) boundaries = histogram_quantile q (bucketize (concat pods) boundaries) boundaries /\
  (forall i b, boundaries !! i = Some b -> merge pods boundaries !! i = Some (countb (fun s => fleb s b) (concat pods))).
Proof.
  intros Ha. rewrite merge_concat by exact Ha. split; [reflexivity|]. split; [reflexivity|]. intros i b Hb.
  pose proof (lookup_lt_Some _ _ _ Hb). rewrite bucketize_lookup by (exact Ha || lia). unfold below. by rewrite Hb.
Qed.

Lemma counters_add_up_witness :
  let pods := [[lit 30 1000; lit 37 10]; [lit 2 1000]] in merge pods BUCKETS_OTEL = bucketize (concat pods) BUCKETS_OTEL.
Proof.
  intros pods. exact (proj1 (counters_add_up NaN pods BUCKETS_OTEL (proj1 (lists_ok BUCKETS_OTEL (or_intror eq_refl))))).
Defined.
