(* ===== verification/RowStore.v ===== *)
(** * Rows, row locks and who waits for whom

    What the programs of src/03-data see of a Postgres table: committed rows, each with the
    number of times it was written, and the row locks that [FOR UPDATE] and [UPDATE] take
    and that the end of a transaction frees.  A transaction keeps its own versions until it
    commits.  A lock somebody else holds is waited for ([None]).  The lemmas say when the
    waits form no cycle, and that a standstill has one. *)

From Stdlib Require Import ZArith Lia.
From stdpp Require Import base option list numbers gmap relations fin_maps.
From S2P Require Import Prelude.

Open Scope Z_scope.

(** ** Definitions *)

Section Rows.
Context {K V : Type} `{Countable K}.

Record rows : Type := mkRows { table : gmap K (V * nat); locks : gmap K nat }.

(** The last committed version, and what a transaction with the versions [own] sees. *)
Definition read (d : rows) (k : K) : option V := fst <$> table d !! k.
Definition see (own : gmap K V) (d : rows) (k : K) : option V :=
  match own !! k with Some v => Some v | None => read d k end.

(** [SELECT .. WHERE id = k FOR UPDATE] in transaction [i]. *)
Definition lock_row (i : nat) (k : K) (d : rows) : option rows :=
  match table d !! k, locks d !! k with
  | None, _ => Some d
  | Some _, Some j => if decide (j = i) then Some d else None
  | Some _, None => Some (mkRows (table d) (<[k := i]> (locks d)))
  end.

(** [UPDATE .. SET v = f v WHERE id = k]. *)
Definition update_row (i : nat) (k : K) (f : V -> V) (own : gmap K V) (d : rows) : option (gmap K V * rows) :=
  d' ← lock_row i k d;
  Some (match see own d' k with Some v => <[k := f v]> own | None => own end, d').

Definition release (i : nat) (d : rows) : rows := mkRows (table d) (filter (fun p => p.2 <> i) (locks d)).

(** [COMMIT]; [ROLLBACK] is [release]. *)
Definition commit (i : nat) (own : gmap K V) (d : rows) : rows :=
  release i (mkRows (map_imap (fun k p => Some (match own !! k with Some v => (v, S p.2) | None => p end)) (table d)) (locks d)).

(** Transaction [i] waits for the one that holds the row it wants. *)
Definition waits (wants : nat -> option K) (d : rows) (i j : nat) : Prop :=
  exists k, wants i = Some k /\ locks d !! k = Some j /\ j <> i.

(** ** Lemmas *)

Lemma lock_row_table (i : nat) (k : K) (d d' : rows) : lock_row i k d = Some d' -> table d' = table d.
Proof. unfold lock_row. repeat case_match; intros; by simplify_eq. Qed.

Lemma lock_row_takes (i : nat) (k : K) (d d' : rows) :
  lock_row i k d = Some d' -> is_Some (table d !! k) -> locks d' = <[k := i]> (locks d).
Proof.
  unfold lock_row. intros E [x Hx]. rewrite Hx in E. destruct (locks d !! k) as [j|] eqn:El; [|by simplify_eq].
  destruct (decide (j = i)) as [->|]; simplify_eq. by rewrite insert_id.
Qed.

Lemma lock_row_free (i : nat) (k : K) (d d' : rows) (j : nat) :
  lock_row i k d = Some d' -> is_Some (table d !! k) -> locks d !! k = Some j -> j = i.
Proof. unfold lock_row. intros E [x Hx] Hl. rewrite Hx, Hl in E. by case_decide. Qed.

Lemma lock_row_waits (i : nat) (k : K) (d : rows) :
  lock_row i k d = None -> exists j, locks d !! k = Some j /\ j <> i.
Proof. unfold lock_row. repeat case_match; intros; simplify_eq; eauto. Qed.

Lemma locks_released (i j : nat) (k : K) (d : rows) : locks (release i d) !! k = Some j <-> locks d !! k = Some j /\ j <> i.
Proof. cbn. by rewrite map_lookup_filter_Some. Qed.

Lemma commit_locks (i j : nat) (own : gmap K V) (k : K) (d : rows) :
  locks (commit i own d) !! k = Some j <-> locks d !! k = Some j /\ j <> i.
Proof. cbn. by rewrite map_lookup_filter_Some. Qed.

Lemma commit_read (i : nat) (own : gmap K V) (k : K) (d : rows) :
  read (commit i own d) k = (v ← read d k; Some (default v (own !! k))).
Proof.
  unfold read, commit. cbn. rewrite map_lookup_imap. destruct (table d !! k) as [[v n]|]; [|done]. cbn.
  by destruct (own !! k).
Qed.

(** A lock is held by one transaction: what [i] holds, nobody else takes. *)
Lemma commit_read_other (i : nat) (own : gmap K V) (k : K) (d : rows) :
  own !! k = None -> read (commit i own d) k = read d k.
Proof. intros Ho. rewrite commit_read, Ho. by destruct (read d k). Qed.

Lemma read_some (d : rows) (k : K) : is_Some (read d k) <-> is_Some (table d !! k).
Proof. unfold read. by rewrite fmap_is_Some. Qed.

Lemma read_release (i : nat) (d : rows) (k : K) : read (release i d) k = read d k.
Proof. done. Qed.

(** *** The locks of one transaction *)

Definition holds (i : nat) (l : list K) (d : rows) : Prop := forall k, locks d !! k = Some i <-> k ∈ l.

(** A step of somebody else. *)
Record quiet (i : nat) (d d' : rows) : Prop := {
  quiet_locks : forall k, locks d' !! k = Some i <-> locks d !! k = Some i;
  quiet_reads : forall k, locks d !! k = Some i -> read d' k = read d k }.

Lemma lock_quiet (i j : nat) (k : K) (d d' : rows) : lock_row i k d = Some d' -> j <> i -> quiet j d d'.
Proof.
  intros E Hj. pose proof (lock_row_table _ _ _ _ E) as Ht. split.
  - intros k'. destruct (table d !! k) as [x|] eqn:Ex.
    + rewrite (lock_row_takes _ _ _ _ E) by eauto. destruct (decide (k = k')) as [<-|Hne].
      * rewrite lookup_insert_eq. split; [congruence|]. intros Hl. by rewrite (lock_row_free _ _ _ _ _ E ltac:(eauto) Hl) in Hj.
      * by rewrite lookup_insert_ne.
    + unfold lock_row in E. rewrite Ex in E. by simplify_eq.
  - intros k' _. unfold read. by rewrite Ht.
Qed.

Lemma release_quiet (i j : nat) (d : rows) : j <> i -> quiet j d (release i d).
Proof. intros Hj. split; [|done]. intros k. rewrite locks_released. naive_solver. Qed.

Lemma commit_quiet (i j : nat) (own : gmap K V) (d : rows) :
  j <> i -> (forall k, is_Some (own !! k) -> locks d !! k = Some i) -> quiet j d (commit i own d).
Proof.
  intros Hj Ho. split.
  - intros k. rewrite commit_locks. naive_solver.
  - intros k Hk. apply commit_read_other. destruct (own !! k) as [v|] eqn:E; [|done].
    rewrite (Ho k) in Hk by eauto. congruence.
Qed.

Lemma lock_holds (i : nat) (k : K) (l : list K) (d d' : rows) :
  lock_row i k d = Some d' -> is_Some (read d k) -> holds i l d -> holds i (l ++ [k]) d'.
Proof.
  intros E Hk Hl k'. rewrite (lock_row_takes _ _ _ _ E) by (by apply read_some). rewrite elem_of_app, list_elem_of_singleton.
  destruct (decide (k = k')) as [<-|Hne].
  - rewrite lookup_insert_eq. naive_solver.
  - rewrite lookup_insert_ne by done. rewrite (Hl k'). naive_solver.
Qed.

Lemma lock_owner (i j : nat) (k k' : K) (d d' : rows) :
  lock_row i k d = Some d' -> locks d' !! k' = Some j -> j = i \/ locks d !! k' = Some j.
Proof.
  intros E Hl. destruct (decide (j = i)) as [|Hj]; [by left|right]. by apply (quiet_locks _ _ _ (lock_quiet _ _ _ _ _ E Hj)).
Qed.

(** *** Cycles *)

Lemma waits_wants (wants : nat -> option K) (d : rows) (i j : nat) : tc (waits wants d) i j -> exists k x, wants i = Some k /\ waits wants d i x.
Proof. intros Hi. inversion Hi as [?? Hw|??? Hw]; pose proof Hw as (k & Hk & _); eauto. Qed.

(** When whoever waits wants a row above those it holds, nobody waits for itself. *)
Lemma ranked_never_cycles (rank : K -> Z) (wants : nat -> option K) (d : rows) :
  (forall i j k k', waits wants d i j -> wants i = Some k -> locks d !! k' = Some i -> rank k' < rank k) ->
  forall i, ~ tc (waits wants d) i i.
Proof.
  intros Hr.
  assert (Hup : forall i j, tc (waits wants d) i j -> forall k k' x, wants i = Some k -> waits wants d j x -> wants j = Some k' -> rank k < rank k').
  { induction 1 as [i j (k0 & H1 & H2 & _)|i j l (k0 & H1 & H2 & _) Hjl IH]; intros k k' x Hk Hx Hk'; simplify_eq.
    - by eapply Hr.
    - destruct (waits_wants _ _ _ _ Hjl) as (k1 & y & Hk1 & Hy).
      specialize (IH k1 k' x Hk1 Hx Hk'). pose proof (Hr _ _ _ _ Hy Hk1 H2). lia. }
  intros i Hi. destruct (waits_wants _ _ _ _ Hi) as (k & x & Hk & Hx). pose proof (Hup _ _ Hi _ _ _ Hk Hx Hk). lia.
Qed.

End Rows.

#[global] Arguments rows K V {_ _}.

(** In a finite standstill, where everybody waits, somebody waits for itself. *)
Lemma standstill_cycles (R : nat -> nat -> Prop) (P : nat -> Prop) (n i0 : nat) :
  (forall i, P i -> (i < n)%nat) -> (forall i, P i -> exists j, R i j /\ P j) -> P i0 -> exists i, tc R i i.
Proof.
  intros Hn HR H0.
  assert (Hpath : forall m, exists l : list nat, length l = S m /\ Forall P l /\ forall a b i j, (a < b)%nat -> l !! a = Some i -> l !! b = Some j -> tc R i j).
  { induction m as [|m (l & Hl & HP & HT)].
    - exists [i0]. split; [done|]. split; [by constructor|]. intros [|a] [|b] i j; cbn; intros; try lia; done.
    - destruct (lookup_lt_is_Some_2 l m ltac:(lia)) as [x Hx].
      destruct (HR x) as (y & Hxy & Hy); [eapply Forall_lookup_1; eauto|].
      exists (l ++ [y]). rewrite length_app, Hl. cbn. split; [lia|]. split; [apply Forall_app; by repeat constructor|].
      intros a b i j Hab Ha Hb. apply lookup_app_Some in Hb as [Hb|[Hb Hb']].
      + apply lookup_app_Some in Ha as [Ha|[Ha _]]; [by eapply HT|apply lookup_lt_Some in Hb; lia].
      + apply list_lookup_singleton_Some in Hb' as [Hb' ->]. rewrite lookup_app_l in Ha by lia.
        destruct (decide (a = m)) as [->|]; [simplify_eq; by apply tc_once|].
        eapply tc_r; [|exact Hxy]. eapply (HT a m); eauto; lia. }
  destruct (Hpath n) as (l & Hl & HP & HT).
  destruct (decide (NoDup l)) as [Hd|Hd].
  - exfalso. assert (Hle : (length l <= length (seq 0 n))%nat).
    { apply submseteq_length, NoDup_submseteq; [done|]. intros x Hx. apply elem_of_seq.
      rewrite Forall_forall in HP. specialize (Hn x (HP x Hx)). lia. }
    rewrite length_seq in Hle. lia.
  - assert (exists a b x, (a < b)%nat /\ l !! a = Some x /\ l !! b = Some x) as (a & b & x & Hab & Ha & Hb).
    { clear -Hd. induction l as [|y l IH]; [by destruct Hd; constructor|].
      destruct (decide (y ∈ l)) as [Hy|Hy].
      - apply list_elem_of_lookup in Hy as [b Hb]. exists 0%nat, (S b), y. split; [lia|]. by split.
      - destruct IH as (a & b & x & Hab & Ha & Hb); [intros Hl; apply Hd; by constructor|].
        exists (S a), (S b), x. split; [lia|]. by split. }
    exists x. by eapply HT.
Qed.
