(* ===== verification/LockOrder.v ===== *)
(** * Data layer: deadlocks and lock ordering

    Models src/03-data/05-locking-and-deadlocks/python/deadlock_ordering.py: [transfer] in
    its two variants, the retry loop of a worker, and the counters of a run; not the
    latencies and the report.

    A step is one statement of one worker's transaction, which waits for the row locks of
    the others ([RowStore]), or the abort of a transaction that waits in a cycle: that
    Postgres breaks a cycle by such an abort, and aborts nobody else so, is its documented
    behaviour.  The pairs that the random generator draws are an input. *)

From Stdlib Require Import ZArith Lia.
From stdpp Require Import base option list numbers gmap relations.
From S2P Require Import Prelude RowStore.

Open Scope Z_scope.

(** ** Definitions *)

Definition ACCOUNTS : Z := 16.
Definition TRANSFERS : Z := 240.
Definition WORKERS : Z := 12.
Definition MAX_RETRIES : nat := 5.
Definition BALANCE : Z := 100000.
Definition CENTS : Z := 1.

#[local] Abbreviation own_rows := (gmap Z Z).

(** Between two transfers; locking the rows [left], in attempt [n]; between the two
    [UPDATE]s; before [COMMIT]. *)
Inductive place : Type :=
| Between
| Locking (n : nat) (left : list Z)
| Crediting (n : nat) (own : own_rows)
| Committing (own : own_rows).

Record stats : Type := mkStats { done : Z; deadlocks : Z; gave_up : Z }.

(** [made] keeps the transfers that [done] counts. *)
Record worker : Type := mkWorker { todo : list (Z * Z); at_ : place; its : stats; made : list (Z * Z) }.

Record world : Type := mkWorld { db : rows Z Z; workers : list worker }.

(** The order in which [transfer] locks its rows: one statement with [ORDER BY id], or one
    statement per argument. *)
Definition lock_list (ordered : bool) (a b : Z) : list Z :=
  if ordered then if a <? b then [a; b] else if b <? a then [b; a] else [a] else [a; b].

Definition put (i : nat) (q : worker) (d : rows Z Z) (w : world) : world := mkWorld d (<[i := q]> (workers w)).
Definition go (p : place) (q : worker) : worker := mkWorker (todo q) p (its q) (made q).

(** The next statement of worker [i]; [None] when it waits, or has no more transfers. *)
Definition transfer (ordered : bool) (i : nat) (w : world) : option world :=
  q ← workers w !! i;
  match todo q, at_ q with
  | [], _ => None
  | (a, b) :: _, Between => Some (put i (go (Locking 0 (lock_list ordered a b)) q) (db w) w)
  | _, Locking n (k :: l) => d ← lock_row i k (db w); Some (put i (go (Locking n l) q) d w)
  | (a, _) :: _, Locking n [] =>
      r ← update_row i a (fun v => v - CENTS) ∅ (db w); Some (put i (go (Crediting n r.1) q) r.2 w)
  | (_, b) :: _, Crediting _ own =>
      r ← update_row i b (fun v => v + CENTS) own (db w); Some (put i (go (Committing r.1) q) r.2 w)
  | (a, b) :: rest, Committing own =>
      let s := its q in
      Some (put i (mkWorker rest Between (mkStats (done s + 1) (deadlocks s) (gave_up s)) (made q ++ [(a, b)]))
              (commit i own (db w)) w)
  end.

(** [except DeadlockDetected] in attempt [n], and the [else] of the loop. *)
Definition retry (ordered : bool) (n : nat) (q : worker) : worker :=
  let s := its q in
  let s := mkStats (done s) (deadlocks s + 1) (gave_up s) in
  match todo q with
  | [] => q
  | (a, b) :: rest =>
      if (S n <? MAX_RETRIES)%nat then mkWorker (todo q) (Locking (S n) (lock_list ordered a b)) s (made q)
      else mkWorker rest Between (mkStats (done s) (deadlocks s) (gave_up s + 1)) (made q)
  end.

Definition attempt_of (q : worker) : option nat :=
  match at_ q with Locking n _ | Crediting n _ => Some n | _ => None end.

(** The row that the next statement locks. *)
Definition wants (w : world) (i : nat) : option Z :=
  q ← workers w !! i;
  match todo q, at_ q with
  | _ :: _, Locking _ (k :: _) => Some k
  | (a, _) :: _, Locking _ [] => Some a
  | (_, b) :: _, Crediting _ _ => Some b
  | _, _ => None
  end.

Definition deadlocked (w : world) (i : nat) : Prop := tc (waits (wants w) (db w)) i i.

Inductive step (ordered : bool) : world -> world -> Prop :=
| step_transfer i w w' : transfer ordered i w = Some w' -> step ordered w w'
| step_deadlock i n q w :
    deadlocked w i -> workers w !! i = Some q -> attempt_of q = Some n ->
    step ordered w (put i (retry ordered n q) (release i (db w)) w).

(** [reset_accounts], and a worker per list of pairs. *)
Definition accounts (n : Z) : gmap Z (Z * nat) := list_to_map ((fun k => (k, (BALANCE, 0%nat))) <$> seqZ 1 n).

Definition start (n : Z) (pairs : list (list (Z * Z))) : world :=
  mkWorld (mkRows (accounts n) ∅) ((fun l => mkWorker l Between (mkStats 0 0 0) []) <$> pairs).

Definition per_worker : Z := Z.max 1 (TRANSFERS / WORKERS).

(** What [run_variant] reports. *)
Definition balances (n : Z) (w : world) : Z := zsum ((fun k => default 0 (read (db w) k)) <$> seqZ 1 n).
Definition total (f : stats -> Z) (w : world) : Z := zsum ((fun q => f (its q)) <$> workers w).

Definition finished (q : worker) : bool := match todo q with [] => true | _ => false end.

(** ** Lemmas *)

(** What the transfers [l] do to account [k]. *)
Definition net1 (k : Z) (p : Z * Z) : Z := (if p.2 =? k then CENTS else 0) - (if p.1 =? k then CENTS else 0).
Definition net (k : Z) (l : list (Z * Z)) : Z := zsum (net1 k <$> l).

(** The generator draws two different accounts ([rng.sample]). *)
Definition valid (n : Z) (p : Z * Z) : Prop := 1 <= p.1 <= n /\ 1 <= p.2 <= n /\ p.1 <> p.2.

(** The locks of worker [i] are those it has taken, and its versions are one transfer. *)
Definition place_ok (ordered : bool) (i : nat) (q : worker) (d : rows Z Z) : Prop :=
  match at_ q, todo q with
  | Between, _ => holds i [] d
  | Locking n l, (a, b) :: _ =>
      (n < MAX_RETRIES)%nat /\ exists pre, lock_list ordered a b = pre ++ l /\ holds i pre d
  | Crediting n own, (a, b) :: _ =>
      (n < MAX_RETRIES)%nat /\ holds i [a; b] d /\ exists v, read d a = Some v /\ own = {[a := v - CENTS]}
  | Committing own, (a, b) :: _ =>
      holds i [a; b] d /\ exists v u, read d a = Some v /\ read d b = Some u /\ own = <[b := u + CENTS]> {[a := v - CENTS]}
  | _, [] => False
  end.

Lemma transfers_place_ok_quiet (ordered : bool) (i : nat) (q : worker) (d d' : rows Z Z) :
  quiet i d d' -> place_ok ordered i q d -> place_ok ordered i q d'.
Proof.
  intros [Ql Qr]. assert (Hh : forall l, holds i l d -> holds i l d') by (intros l Hl k; by rewrite Ql).
  unfold place_ok. destruct (todo q) as [|[a b] rest], (at_ q) as [|n l|n own|own]; try done; try apply Hh.
  - intros (Hn & pre & E & Hp). split; [done|]. exists pre. split; [done|]. by apply Hh.
  - intros (Hn & Hp & v & Hv & Ho). split; [done|]. split; [by apply Hh|]. exists v.
    rewrite Qr by (apply Hp; set_solver). by split.
  - intros (Hp & v & u & Hv & Hu & Ho). split; [by apply Hh|]. exists v, u.
    rewrite !Qr by (apply Hp; set_solver). done.
Qed.

(** A row that is held already is simply updated. *)
Lemma update_held (i : nat) (k : Z) (f : Z -> Z) (own : own_rows) (d : rows Z Z) (v : Z) :
  locks d !! k = Some i -> see own d k = Some v -> update_row i k f own d = Some (<[k := f v]> own, d).
Proof.
  intros Hl Hs. unfold update_row, lock_row. rewrite Hl, decide_True by done.
  destruct (table d !! k); cbn; by rewrite Hs.
Qed.

Lemma lock_list_elem (ordered : bool) (a b k : Z) : a <> b -> k ∈ lock_list ordered a b <-> k ∈ [a; b].
Proof.
  intros Hne. unfold lock_list. destruct ordered; [|done].
  destruct (Z.ltb_spec a b); [done|]. destruct (Z.ltb_spec b a); [set_solver|lia].
Qed.

Record work_ok (n : Z) (l : list (Z * Z)) (q : worker) : Prop := {
  wk_count : Z.of_nat (length l) = Z.of_nat (length (made q)) + gave_up (its q) + Z.of_nat (length (todo q));
  wk_done : done (its q) = Z.of_nat (length (made q));
  wk_gave_up : 0 <= gave_up (its q) <= deadlocks (its q);
  wk_all : gave_up (its q) = 0 -> made q ++ todo q = l;
  wk_valid : Forall (valid n) (todo q ++ made q) }.

Record inv (ordered : bool) (n : Z) (pairs : list (list (Z * Z))) (w : world) : Prop := {
  inv_rows : forall k, is_Some (read (db w) k) <-> 1 <= k <= n;
  inv_places : forall i q, workers w !! i = Some q -> place_ok ordered i q (db w);
  inv_owners : forall k i, locks (db w) !! k = Some i -> is_Some (workers w !! i);
  inv_balance : forall k v, read (db w) k = Some v -> v = BALANCE + zsum ((fun q => net k (made q)) <$> workers w);
  inv_work : Forall2 (work_ok n) pairs (workers w) }.

(** Worker [i] takes a step. *)
Lemma transfers_put (ordered : bool) (n : Z) (pairs : list (list (Z * Z))) (w : world) (i : nat) (q q' : worker) (d' : rows Z Z) :
  inv ordered n pairs w -> workers w !! i = Some q ->
  (forall j, j <> i -> quiet j (db w) d') -> place_ok ordered i q' d' ->
  (forall k, read d' k = (fun v => v + net k (made q') - net k (made q)) <$> read (db w) k) ->
  (forall l, work_ok n l q -> work_ok n l q') ->
  inv ordered n pairs (put i q' d' w).
Proof.
  intros [Ir Ip Io Ib Iw] Hi Hq Hp Hr Hw. assert (Hlt := lookup_lt_Some _ _ _ Hi). constructor; cbn [db workers put].
  - intros k. by rewrite Hr, fmap_is_Some.
  - intros j x Hj. apply list_lookup_insert_Some in Hj as [(-> & <- & _)|[Hne Hj]]; [done|].
    eapply transfers_place_ok_quiet; [by apply Hq|]. by apply Ip.
  - intros k j Hl. apply lookup_lt_is_Some. rewrite length_insert. destruct (decide (j = i)) as [->|Hj]; [done|].
    apply lookup_lt_is_Some, (Io k), (quiet_locks _ _ _ (Hq j Hj)), Hl.
  - intros k v Hk. rewrite (zsum_insert _ _ _ _ _ Hi). rewrite Hr in Hk.
    destruct (read (db w) k) as [u|] eqn:E; [|done]. injection Hk as <-. rewrite (Ib _ _ E). lia.
  - destruct (Forall2_lookup_r _ _ _ _ _ Iw Hi) as (l & Hl & Hwl). rewrite <- (list_insert_id pairs i l) by done.
    apply Forall2_insert; [done|]. by apply Hw.
Qed.

(** A step that commits nothing. *)
Lemma transfers_go (ordered : bool) (n : Z) (pairs : list (list (Z * Z))) (w : world) (i : nat) (q : worker) (p : place) (d' : rows Z Z) :
  inv ordered n pairs w -> workers w !! i = Some q -> table d' = table (db w) ->
  (forall j, j <> i -> quiet j (db w) d') -> place_ok ordered i (go p q) d' ->
  inv ordered n pairs (put i (go p q) d' w).
Proof.
  intros Hw Hi Ht Hq Hp. eapply transfers_put; eauto.
  - intros k. unfold read. rewrite Ht. destruct (table (db w) !! k) as [[v m]|]; [|done].
    apply (f_equal Some). cbn [go made fst]. lia.
  - intros l []. by constructor.
Qed.

Lemma net_snoc (k : Z) (l : list (Z * Z)) (p : Z * Z) : net k (l ++ [p]) = net k l + net1 k p.
Proof. unfold net. rewrite fmap_app, zsum_app. cbn. lia. Qed.

Lemma work_valid (ordered : bool) (n : Z) (pairs : list (list (Z * Z))) (w : world) (i : nat) (q : worker) :
  inv ordered n pairs w -> workers w !! i = Some q ->
  exists l, pairs !! i = Some l /\ work_ok n l q /\
    forall a b rest, todo q = (a, b) :: rest -> a <> b /\ is_Some (read (db w) a) /\ is_Some (read (db w) b).
Proof.
  intros Hw Hi. destruct (Forall2_lookup_r _ _ _ _ _ (inv_work _ _ _ _ Hw) Hi) as (l & Hl & Hwl). exists l. split; [done|]. split; [done|].
  intros a b rest E. pose proof (wk_valid _ _ _ Hwl) as Hv. rewrite E in Hv. apply Forall_cons in Hv as [(H1 & H2 & H3) _].
  split; [done|]. split; by apply (inv_rows _ _ _ _ Hw).
Qed.

(** The commit of a transfer. *)
Lemma commit_inv (ordered : bool) (n : Z) (pairs : list (list (Z * Z))) (w : world) (i : nat) (q : worker) (a b : Z)
    (rest : list (Z * Z)) (own : own_rows) :
  inv ordered n pairs w -> workers w !! i = Some q -> todo q = (a, b) :: rest -> at_ q = Committing own ->
  inv ordered n pairs
    (put i (mkWorker rest Between (mkStats (done (its q) + 1) (deadlocks (its q)) (gave_up (its q))) (made q ++ [(a, b)]))
       (commit i own (db w)) w).
Proof.
  intros Hw Hi Ht Hp. destruct (work_valid _ _ _ _ _ _ Hw Hi) as (l & _ & _ & Hv). destruct (Hv _ _ _ Ht) as (Hab & _ & _).
  pose proof (inv_places _ _ _ _ Hw _ _ Hi) as Hq. unfold place_ok in Hq. rewrite Ht, Hp in Hq.
  destruct Hq as (Hh & v & u & Hva & Hub & ->). eapply transfers_put; eauto.
  - intros j Hj. apply commit_quiet; [done|]. intros k Hk. apply Hh.
    destruct Hk as [x Hx]. apply lookup_insert_Some in Hx as [[<- _]|[_ Hx]]; [set_solver|].
    apply lookup_singleton_Some in Hx as [<- _]. set_solver.
  - intros k. rewrite commit_locks. set_solver.
  - intros k. rewrite commit_read. cbn [made]. rewrite net_snoc. unfold net1. cbn [fst snd].
    destruct (Z.eqb_spec b k) as [<-|Hb].
    + rewrite Hub, lookup_insert_eq. destruct (Z.eqb_spec a b); [done|]. cbn. f_equal. lia.
    + rewrite lookup_insert_ne by done. destruct (Z.eqb_spec a k) as [<-|Ha].
      * rewrite Hva, lookup_singleton_eq. cbn. f_equal. lia.
      * rewrite lookup_singleton_ne by done. destruct (read (db w) k) as [x|]; [|done]. cbn. f_equal. lia.
  - intros l' [W1 W2 W3 W4 W5]. rewrite Ht in *. constructor; cbn [made its todo done deadlocks gave_up].
    + rewrite length_app. cbn [length] in *. lia.
    + rewrite length_app. cbn [length] in *. lia.
    + done.
    + intros Hg. rewrite <- W4 by done. by rewrite <- app_assoc.
    + rewrite Permutation_app_comm, <- app_assoc. cbn. by rewrite Permutation_app_comm in W5.
Qed.

Lemma transfer_inv (ordered : bool) (n : Z) (pairs : list (list (Z * Z))) (i : nat) (w w' : world) :
  inv ordered n pairs w -> transfer ordered i w = Some w' -> inv ordered n pairs w'.
Proof.
  intros Hw E. unfold transfer in E. destruct (workers w !! i) as [q|] eqn:Hi; [|done]. cbn in E.
  destruct (todo q) as [|[a b] rest] eqn:Ht; [done|].
  destruct (work_valid _ _ _ _ _ _ Hw Hi) as (l0 & _ & _ & Hv). destruct (Hv _ _ _ Ht) as (Hab & Ha & Hb).
  pose proof (inv_places _ _ _ _ Hw _ _ Hi) as Hq. unfold place_ok in Hq. rewrite Ht in Hq.
  destruct (at_ q) as [|m [|k l]|m own|own] eqn:Hp.
  - simplify_eq. eapply transfers_go; eauto; [by intros; split|]. unfold place_ok. cbn. rewrite Ht. split; [unfold MAX_RETRIES; lia|].
    exists []. by split.
  - destruct Hq as (Hm & pre & El & Hh). rewrite app_nil_r in El.
    assert (Hh' : holds i [a; b] (db w)) by (intros k; by rewrite (Hh k), <- El, lock_list_elem).
    destruct Ha as [v Hva]. rewrite (update_held _ _ _ _ _ v) in E by first [done | apply Hh'; set_solver].
    cbn in E. simplify_eq. eapply transfers_go; eauto; [by intros; split|]. unfold place_ok. cbn. rewrite Ht. split; [done|]. split; [done|].
    exists v. by split.
  - destruct Hq as (Hm & pre & El & Hh). destruct (lock_row i k (db w)) as [d'|] eqn:Ek; [|done]. cbn in E. simplify_eq.
    eapply transfers_go; eauto; [by eapply lock_row_table|by intros; eapply lock_quiet|].
    unfold place_ok. cbn. rewrite Ht. split; [done|]. exists (pre ++ [k]). split; [by rewrite <- app_assoc|].
    eapply lock_holds; eauto. assert (k ∈ [a; b]) as Hk by (rewrite <- (lock_list_elem ordered) by done; rewrite El; set_solver).
    apply elem_of_cons in Hk as [->|Hk]; [done|]. by apply list_elem_of_singleton in Hk as ->.
  - destruct Hq as (Hm & Hh & v & Hva & ->). destruct Hb as [u Hub].
    rewrite (update_held _ _ _ _ _ u) in E by first [unfold see; by rewrite lookup_singleton_ne | apply Hh; set_solver].
    cbn in E. simplify_eq. eapply transfers_go; eauto; [by intros; split|]. unfold place_ok. cbn. rewrite Ht. split; [done|]. by exists v, u.
  - simplify_eq. by apply commit_inv.
Qed.

Lemma retry_inv (ordered : bool) (n : Z) (pairs : list (list (Z * Z))) (i m : nat) (q : worker) (w : world) :
  inv ordered n pairs w -> workers w !! i = Some q -> attempt_of q = Some m ->
  inv ordered n pairs (put i (retry ordered m q) (release i (db w)) w).
Proof.
  intros Hw Hi Hm. pose proof (inv_places _ _ _ _ Hw _ _ Hi) as Hq.
  assert (Hfree : holds i [] (release i (db w))) by (intros k; rewrite locks_released; set_solver).
  assert (Hmade : made (retry ordered m q) = made q) by (unfold retry; destruct (todo q) as [|[a b] rest]; [done|by case_match]).
  unfold place_ok in Hq. eapply transfers_put; eauto.
  - intros j Hj. by apply release_quiet.
  - unfold retry, place_ok in *. destruct (todo q) as [|[a b] rest] eqn:Ht.
    { by destruct (at_ q) eqn:Hp; unfold attempt_of in Hm; rewrite Hp in Hm. }
    destruct (Nat.ltb_spec (S m) MAX_RETRIES); cbn [todo at_]; rewrite ?Ht; [|done]. split; [done|]. exists []. by split.
  - intros k. rewrite read_release, Hmade. destruct (read (db w) k); [|done]. cbn. f_equal. lia.
  - intros l [W1 W2 W3 W4 W5]. unfold retry. destruct (todo q) as [|[a b] rest] eqn:Ht; [by constructor; rewrite ?Ht|].
    destruct (Nat.ltb_spec (S m) MAX_RETRIES); constructor; cbn [made its todo done deadlocks gave_up]; rewrite ?Ht;
      cbn [length] in *; try done; try lia; by apply Forall_app in W5 as [?%Forall_cons ?]; apply Forall_app; naive_solver.
Qed.

Lemma accounts_lookup (n k : Z) : accounts n !! k = if decide (1 <= k <= n) then Some (BALANCE, 0%nat) else None.
Proof.
  unfold accounts. assert (Hd : NoDup (((fun k => (k, (BALANCE, 0%nat))) <$> seqZ 1 n).*1)).
  { rewrite <- list_fmap_compose. unfold compose. cbn. rewrite list_fmap_id. apply NoDup_seqZ. }
  case_decide as Hk.
  - apply elem_of_list_to_map; [done|]. apply list_elem_of_fmap. exists k. split; [done|]. apply elem_of_seqZ. lia.
  - apply not_elem_of_list_to_map. rewrite <- list_fmap_compose. unfold compose. cbn. rewrite list_fmap_id, elem_of_seqZ. lia.
Qed.

Lemma transfers_start (ordered : bool) (n : Z) (pairs : list (list (Z * Z))) :
  Forall (Forall (valid n)) pairs -> inv ordered n pairs (start n pairs).
Proof.
  intros Hv. constructor; cbn [db workers start].
  - intros k. unfold read. cbn [table]. rewrite accounts_lookup. case_decide; cbn; [by split|]. split; [by intros []|done].
  - intros i q Hi. apply list_lookup_fmap_Some in Hi as (l & -> & _). intros k. cbn. rewrite lookup_empty. set_solver.
  - intros k i Hk. cbn in Hk. by rewrite lookup_empty in Hk.
  - intros k v Hk. unfold read in Hk. cbn [table] in Hk. rewrite accounts_lookup in Hk. case_decide; [|done]. injection Hk as <-.
    rewrite <- list_fmap_compose. clear. induction pairs as [|l pairs IH]; [done|].
    rewrite zsum_fmap_cons. change (compose _ _ l) with 0. lia.
  - apply Forall2_fmap_r, Forall_Forall2_diag. eapply list.Forall_impl; [exact Hv|]. intros l Hl. constructor; cbn; try lia; try done.
    by rewrite app_nil_r.
Qed.

Lemma transfers_step (ordered : bool) (n : Z) (pairs : list (list (Z * Z))) (w w' : world) :
  inv ordered n pairs w -> step ordered w w' -> inv ordered n pairs w'.
Proof. intros Hw H. destruct H; [by eapply transfer_inv|by eapply retry_inv]. Qed.

Lemma transfers_run (ordered : bool) (n : Z) (pairs : list (list (Z * Z))) (w : world) :
  Forall (Forall (valid n)) pairs -> rtc (step ordered) (start n pairs) w -> inv ordered n pairs w.
Proof.
  intros Hv H. pose proof (transfers_start ordered n pairs Hv) as Hs. revert Hs. induction H; eauto using transfers_step.
Qed.

(** *** Waiting *)

Lemma wants_place (w : world) (i : nat) (k : Z) :
  wants w i = Some k -> exists q a b rest, workers w !! i = Some q /\ todo q = (a, b) :: rest /\
    ((exists n l, at_ q = Locking n (k :: l)) \/ (exists n, at_ q = Locking n [] /\ k = a) \/ (exists n own, at_ q = Crediting n own /\ k = b)).
Proof.
  unfold wants. intros E. destruct (workers w !! i) as [q|]; [|done]. cbn in E.
  destruct (todo q) as [|[a b] rest] eqn:Ht; [done|]. exists q, a, b, rest. split; [done|]. split; [done|].
  destruct (at_ q) as [|n [|x l]|n own|own]; simplify_eq; eauto 10.
Qed.

(** A worker that waits for another wants a row it does not hold yet. *)
Lemma waits_locking (ordered : bool) (n : Z) (pairs : list (list (Z * Z))) (w : world) (i j : nat) (k : Z) :
  inv ordered n pairs w -> waits (wants w) (db w) i j -> wants w i = Some k ->
  exists q m l a b rest pre, workers w !! i = Some q /\ todo q = (a, b) :: rest /\ at_ q = Locking m (k :: l) /\
    lock_list ordered a b = pre ++ k :: l /\ holds i pre (db w).
Proof.
  intros Hw (k' & Hk' & Hl & Hj) Hk. rewrite Hk in Hk'. injection Hk' as <-.
  destruct (wants_place _ _ _ Hk) as (q & a & b & rest & Hi & Ht & Hp).
  destruct (work_valid _ _ _ _ _ _ Hw Hi) as (_ & _ & _ & Hv). destruct (Hv _ _ _ Ht) as (Hab & _).
  pose proof (inv_places _ _ _ _ Hw _ _ Hi) as Hq. unfold place_ok in Hq. rewrite Ht in Hq.
  destruct Hp as [(m & l & Hp)|[(m & Hp & ->)|(m & own & Hp & ->)]]; rewrite Hp in Hq.
  - destruct Hq as (_ & pre & El & Hh). exists q, m, l, a, b, rest, pre. done.
  - destruct Hq as (_ & pre & El & Hh). rewrite app_nil_r in El. exfalso. apply Hj.
    assert (locks (db w) !! a = Some i) as Ha by (apply Hh; rewrite <- El, lock_list_elem by done; set_solver). congruence.
  - destruct Hq as (_ & Hh & _). exfalso. apply Hj. assert (locks (db w) !! b = Some i) as Hb by (apply Hh; set_solver). congruence.
Qed.

Lemma ordered_never_cycles (n : Z) (pairs : list (list (Z * Z))) (w : world) (i : nat) : inv true n pairs w -> ~ deadlocked w i.
Proof.
  intros Hw. apply (ranked_never_cycles (fun k => k)). clear i. intros i j k k' Hij Hk Hk'.
  destruct (waits_locking _ _ _ _ _ _ _ Hw Hij Hk) as (q & m & l & a & b & rest & pre & Hi & Ht & _ & El & Hh).
  apply Hh in Hk'. unfold lock_list in El.
  assert (Hs : forall x y, [x; y] = pre ++ k :: l -> x < y -> k' < k).
  { intros x y E Hxy. destruct pre as [|x1 [|x2 pre]]; [set_solver| |by destruct pre]. cbn in E. simplify_eq. set_solver. }
  destruct (Z.ltb_spec a b); [by eapply Hs|]. destruct (Z.ltb_spec b a); [by eapply Hs|].
  destruct pre as [|x1 [|x2 pre]]; [set_solver|done|done].
Qed.

Lemma holder_unfinished (ordered : bool) (n : Z) (pairs : list (list (Z * Z))) (w : world) (j : nat) (k : Z) :
  inv ordered n pairs w -> locks (db w) !! k = Some j -> exists q, workers w !! j = Some q /\ finished q = false.
Proof.
  intros Hw Hk. destruct (inv_owners _ _ _ _ Hw _ _ Hk) as [q Hq]. exists q. split; [done|].
  pose proof (inv_places _ _ _ _ Hw _ _ Hq) as Hp. unfold place_ok, finished in *. destruct (todo q); [|done].
  destruct (at_ q); try done. apply Hp in Hk. by apply not_elem_of_nil in Hk.
Qed.

Lemma blocked_waits (ordered : bool) (w : world) (i : nat) (q : worker) :
  workers w !! i = Some q -> finished q = false -> transfer ordered i w = None -> exists j, waits (wants w) (db w) i j.
Proof.
  intros Hi Hf E. unfold transfer in E. unfold waits, wants. rewrite Hi in *. cbn in *. unfold finished in Hf.
  assert (Hl : forall k, lock_row i k (db w) = None -> exists j k', Some k = Some k' /\ locks (db w) !! k' = Some j /\ j <> i)
    by (intros k Hk; destruct (lock_row_waits _ _ _ Hk) as (j & ? & ?); eauto).
  destruct (todo q) as [|[a b] rest]; [done|]. unfold update_row in E.
  destruct (at_ q) as [|m [|k l]|m own|own]; try done; apply Hl.
  - by destruct (lock_row i a (db w)).
  - by destruct (lock_row i k (db w)).
  - by destruct (lock_row i b (db w)).
Qed.

(** As long as a worker has transfers, somebody can go on, or a cycle is broken. *)
Lemma unfinished_steps (ordered : bool) (n : Z) (pairs : list (list (Z * Z))) (w : world) (i : nat) (q : worker) :
  inv ordered n pairs w -> workers w !! i = Some q -> finished q = false -> exists w', step ordered w w'.
Proof.
  intros Hw Hi Hf.
  destruct (decide (Exists (fun j => is_Some (transfer ordered j w)) (seq 0 (length (workers w))))) as [He|He].
  { apply Exists_exists in He as (j & _ & w' & E). exists w'. by eapply step_transfer. }
  assert (Hb : forall j x, workers w !! j = Some x -> transfer ordered j w = None).
  { intros j x Hj. destruct (transfer ordered j w) eqn:E; [|done]. destruct He. apply Exists_exists. exists j.
    rewrite elem_of_seq, E. apply lookup_lt_Some in Hj. split; [lia|by eexists]. }
  destruct (standstill_cycles (waits (wants w) (db w)) (fun j => exists x, workers w !! j = Some x /\ finished x = false)
              (length (workers w)) i) as [j Hj].
  - intros j (x & Hx & _). by eapply lookup_lt_Some.
  - intros j (x & Hx & Hu). destruct (blocked_waits ordered w j x Hx Hu ltac:(by eapply Hb)) as (y & Hy). exists y. split; [done|].
    destruct Hy as (k & _ & Hk & _). by eapply holder_unfinished.
  - by exists q.
  - destruct (waits_wants _ _ _ _ Hj) as (k & x & Hk & _). destruct (wants_place _ _ _ Hk) as (r & a & b & rest & Hr & _ & Hp).
    assert (exists m, attempt_of r = Some m) as [m Hm] by (unfold attempt_of; destruct Hp as [(m & l & ->)|[(m & -> & _)|(m & own & -> & _)]]; eauto).
    eexists. by eapply step_deadlock.
Qed.

(** *** How long a run can be *)

(** Five statements per attempt and one failure, five attempts, and the start. *)
Definition steps_left (q : worker) : Z :=
  match todo q with
  | [] => 0
  | _ :: rest =>
      31 * Z.of_nat (length rest) +
      match at_ q with
      | Between => 31
      | Locking n l => 6 * (4 - Z.of_nat n) + Z.of_nat (length l) + 3
      | Crediting n _ => 6 * (4 - Z.of_nat n) + 2
      | Committing _ => 1
      end
  end.

Definition fuel (w : world) : Z := zsum (steps_left <$> workers w).

Lemma steps_left_between (l : list (Z * Z)) (s : stats) (m : list (Z * Z)) :
  steps_left (mkWorker l Between s m) = 31 * Z.of_nat (length l).
Proof. destruct l; cbn [steps_left todo at_ length]; lia. Qed.

Lemma lock_list_length (ordered : bool) (a b : Z) : (length (lock_list ordered a b) <= 2)%nat.
Proof. unfold lock_list. repeat case_match; cbn; lia. Qed.

Lemma attempt_bound (ordered : bool) (i n : nat) (q : worker) (d : rows Z Z) :
  place_ok ordered i q d -> attempt_of q = Some n -> (n < MAX_RETRIES)%nat /\ todo q <> [].
Proof. unfold place_ok, attempt_of. destruct (at_ q), (todo q) as [|[a b] rest]; intros; simplify_eq; naive_solver. Qed.

Lemma steps_left_nonneg (ordered : bool) (i : nat) (q : worker) (d : rows Z Z) : place_ok ordered i q d -> 0 <= steps_left q.
Proof.
  intros Hp. unfold steps_left. destruct (todo q) eqn:Ht; [lia|].
  pose proof (fun n => attempt_bound _ _ n _ _ Hp) as Hb. unfold attempt_of, MAX_RETRIES in Hb.
  destruct (at_ q) as [|m l'|m own|own]; try lia; destruct (Hb m eq_refl); lia.
Qed.

Lemma fuel_nonneg (ordered : bool) (n : Z) (pairs : list (list (Z * Z))) (w : world) : inv ordered n pairs w -> 0 <= fuel w.
Proof.
  intros Hw. pose proof (inv_places _ _ _ _ Hw) as Hp. unfold fuel. revert Hp. generalize (db w). intros d.
  assert (H : forall l o, (forall i q, l !! i = Some q -> place_ok ordered (o + i) q d) -> 0 <= zsum (steps_left <$> l)).
  { induction l as [|q l IH]; intros o Hl; [done|]. rewrite zsum_fmap_cons.
    pose proof (steps_left_nonneg _ _ _ _ (Hl 0%nat q eq_refl)). assert (0 <= zsum (steps_left <$> l)); [|lia].
    apply (IH (S o)). intros i x Hi. replace (S o + i)%nat with (o + S i)%nat by lia. by apply Hl. }
  intros Hp. by apply (H _ 0%nat).
Qed.

Lemma transfer_fuel (ordered : bool) (n : Z) (pairs : list (list (Z * Z))) (i : nat) (w w' : world) :
  inv ordered n pairs w -> transfer ordered i w = Some w' -> fuel w' < fuel w.
Proof.
  intros Hw E. pose proof (fun q m Hi => attempt_bound _ _ m _ _ (inv_places _ _ _ _ Hw i q Hi)) as Hb.
  unfold attempt_of, MAX_RETRIES in Hb. unfold transfer in E. destruct (workers w !! i) as [q|] eqn:Hi; [|done]. cbn in E.
  assert (Hput : forall x d, steps_left x < steps_left q -> fuel (put i x d w) < fuel w)
    by (intros x d Hx; unfold fuel; cbn; rewrite (zsum_insert _ _ _ _ _ Hi); lia).
  destruct (todo q) as [|[a b] rest] eqn:Ht; [done|]. pose proof (lock_list_length ordered a b) as Hl.
  specialize (Hb q). destruct (at_ q) as [|m [|k l]|m own|own] eqn:Hp.
  - simplify_eq. apply Hput. unfold steps_left. cbn [go todo at_]. rewrite Ht, Hp. lia.
  - destruct (update_row i a _ ∅ (db w)); [|done]. cbn in E. simplify_eq. apply Hput. unfold steps_left. cbn [go todo at_ length].
    rewrite Ht, Hp. cbn [length]. lia.
  - destruct (lock_row i k (db w)); [|done]. cbn in E. simplify_eq. apply Hput. unfold steps_left. cbn [go todo at_]. rewrite Ht, Hp.
    cbn [length]. lia.
  - destruct (update_row i b _ own (db w)); [|done]. cbn in E. simplify_eq. apply Hput. unfold steps_left. cbn [go todo at_].
    rewrite Ht, Hp. destruct (Hb m eq_refl eq_refl). lia.
  - simplify_eq. apply Hput. rewrite steps_left_between. unfold steps_left. rewrite Ht, Hp. lia.
Qed.

Lemma retry_fuel (ordered : bool) (n : Z) (pairs : list (list (Z * Z))) (i m : nat) (q : worker) (d : rows Z Z) (w : world) :
  inv ordered n pairs w -> workers w !! i = Some q -> attempt_of q = Some m -> fuel (put i (retry ordered m q) d w) < fuel w.
Proof.
  intros Hw Hi Hm. destruct (attempt_bound _ _ _ _ _ (inv_places _ _ _ _ Hw _ _ Hi) Hm) as [Hb Ht].
  unfold fuel. cbn [workers put]. rewrite (zsum_insert _ _ _ _ _ Hi). assert (steps_left (retry ordered m q) < steps_left q); [|lia].
  unfold retry, attempt_of, MAX_RETRIES in *. destruct (todo q) as [|[a b] rest] eqn:Eq; [done|]. pose proof (lock_list_length ordered a b) as Hl.
  destruct (Nat.ltb_spec (S m) 5).
  - unfold steps_left. cbn [todo at_]. rewrite Eq. destruct (at_ q); simplify_eq; lia.
  - rewrite steps_left_between. unfold steps_left. rewrite Eq. destruct (at_ q); simplify_eq; lia.
Qed.

Lemma step_fuel (ordered : bool) (n : Z) (pairs : list (list (Z * Z))) (w w' : world) :
  inv ordered n pairs w -> step ordered w w' -> fuel w' < fuel w.
Proof. intros Hw H. destruct H; [by eapply transfer_fuel|by eapply retry_fuel]. Qed.

Definition transfers (pairs : list (list (Z * Z))) : Z := zsum ((fun l => Z.of_nat (length l)) <$> pairs).

Lemma start_fuel (n : Z) (pairs : list (list (Z * Z))) : fuel (start n pairs) = 31 * transfers pairs.
Proof.
  unfold fuel, transfers, start. cbn [workers]. induction pairs as [|l pairs IH]; [done|].
  rewrite fmap_cons, !zsum_fmap_cons, IH, steps_left_between. lia.
Qed.

(** *** Sums *)

Lemma zsum_point (k c : Z) (l : list Z) : NoDup l -> k ∈ l -> zsum ((fun x => if k =? x then c else 0) <$> l) = c.
Proof.
  induction l as [|x l IH]; intros Hd Hk; [by apply not_elem_of_nil in Hk|]. apply NoDup_cons in Hd as [Hx Hd]. rewrite zsum_fmap_cons.
  destruct (Z.eqb_spec k x) as [->|Hne].
  - rewrite zsum_zero; [lia|]. intros y Hy. destruct (Z.eqb_spec x y) as [->|]; done.
  - apply elem_of_cons in Hk as [|Hk]; [done|]. rewrite IH by done. lia.
Qed.

(** A transfer between two accounts of the table moves nothing in or out. *)
Lemma net_conserves (n : Z) (l : list (Z * Z)) : Forall (valid n) l -> zsum ((fun k => net k l) <$> seqZ 1 n) = 0.
Proof.
  intros Hl. unfold net. rewrite (zsum_swap net1). apply zsum_zero. intros [a b] Hp.
  rewrite Forall_forall in Hl. destruct (Hl _ Hp) as (Ha & Hb & _). cbn in Ha, Hb. unfold net1. cbn [fst snd].
  transitivity (zsum ((fun k => (if b =? k then CENTS else 0) + (if a =? k then - CENTS else 0)) <$> seqZ 1 n)).
  - f_equal. apply list_fmap_ext. intros _ k _. destruct (a =? k), (b =? k); lia.
  - rewrite zsum_add, !zsum_point; try apply NoDup_seqZ; try (apply elem_of_seqZ; lia). lia.
Qed.

Lemma balances_conserved (ordered : bool) (n : Z) (pairs : list (list (Z * Z))) (w : world) :
  0 <= n -> inv ordered n pairs w -> balances n w = n * BALANCE.
Proof.
  intros Hn Hw. unfold balances.
  transitivity (zsum ((fun k => BALANCE + zsum ((fun q => net k (made q)) <$> workers w)) <$> seqZ 1 n)).
  { f_equal. apply list_fmap_ext. intros i k Hk. apply list_elem_of_lookup_2, elem_of_seqZ in Hk.
    destruct (read (db w) k) as [v|] eqn:E; [cbn; by apply (inv_balance _ _ _ _ Hw)|].
    pose proof (proj2 (inv_rows _ _ _ _ Hw k) ltac:(lia)) as [v Hv]. congruence. }
  rewrite zsum_add, (zsum_swap (fun k q => net k (made q))).
  assert (E : zsum ((fun _ : Z => BALANCE) <$> seqZ 1 n) = n * BALANCE).
  { pose proof (length_seqZ 1 n) as Hl. revert Hl. generalize (seqZ 1 n). intros l Hl. replace n with (Z.of_nat (length l)) by lia.
    clear. induction l as [|x l IH]; [done|]. rewrite zsum_fmap_cons, IH. cbn [length]. lia. }
  rewrite E, zsum_zero; [lia|]. intros q Hq. apply net_conserves. apply list_elem_of_lookup in Hq as [i Hi].
  destruct (Forall2_lookup_r _ _ _ _ _ (inv_work _ _ _ _ Hw) Hi) as (l & _ & Hwl).
  by apply wk_valid, Forall_app in Hwl as [_ ?].
Qed.

Lemma transfers_work_totals (n : Z) (pairs : list (list (Z * Z))) (l : list worker) :
  Forall2 (work_ok n) pairs l ->
  zsum ((fun q => done (its q)) <$> l) + zsum ((fun q => gave_up (its q)) <$> l) +
    zsum ((fun q => Z.of_nat (length (todo q))) <$> l) = transfers pairs /\
  0 <= zsum ((fun q => gave_up (its q)) <$> l) <= zsum ((fun q => deadlocks (its q)) <$> l).
Proof.
  unfold transfers. induction 1 as [|p q ps qs [W1 W2 W3 W4 W5] _ [IH1 IH2]]; [done|]. rewrite !zsum_fmap_cons. lia.
Qed.

(** When nobody ever deadlocked, everything was transferred. *)
Lemma no_deadlocks_all (n : Z) (pairs : list (list (Z * Z))) (l : list worker) :
  Forall2 (work_ok n) pairs l -> Forall (fun q => finished q = true /\ deadlocks (its q) = 0) l ->
  (made <$> l) = pairs /\ zsum ((fun q => done (its q)) <$> l) = transfers pairs.
Proof.
  unfold transfers. induction 1 as [|p q ps qs [W1 W2 W3 W4 W5] _ IH]; [done|].
  intros [[Hf Hd] Hl]%Forall_cons. destruct (IH Hl) as [<- E]. rewrite fmap_cons, !zsum_fmap_cons. unfold finished in Hf.
  destruct (todo q) eqn:Ht; [|done]. rewrite app_nil_r in W4. rewrite W4 in * by lia. split; [done|lia].
Qed.

Lemma step_no_deadlock (n : Z) (pairs : list (list (Z * Z))) (w w' : world) :
  inv true n pairs w -> step true w w' -> Forall (fun q => deadlocks (its q) = 0) (workers w) ->
  Forall (fun q => deadlocks (its q) = 0) (workers w').
Proof.
  intros Hw H Hd. destruct H as [i w w' E|i m q w Hc _ _]; [|by destruct (ordered_never_cycles _ _ _ _ Hw Hc)].
  unfold transfer in E. destruct (workers w !! i) as [q|] eqn:Hi; [|done]. cbn in E.
  pose proof (Forall_lookup_1 _ _ _ _ Hd Hi) as Hq. cbn in Hq.
  assert (Hput : forall x d, deadlocks (its x) = 0 -> Forall (fun q => deadlocks (its q) = 0) (workers (put i x d w)))
    by (intros x d Hx; by apply Forall_insert).
  destruct (todo q) as [|[a b] rest]; [done|]. destruct (at_ q) as [|m [|k l]|m own|own]; simplify_eq; try by apply Hput.
  - destruct (update_row i a _ ∅ (db w)); [|done]. cbn in E. simplify_eq. by apply Hput.
  - destruct (lock_row i k (db w)); [|done]. cbn in E. simplify_eq. by apply Hput.
  - destruct (update_row i b _ own (db w)); [|done]. cbn in E. simplify_eq. by apply Hput.
Qed.

Lemma run_no_deadlock (n : Z) (pairs : list (list (Z * Z))) (w : world) :
  Forall (Forall (valid n)) pairs -> rtc (step true) (start n pairs) w -> Forall (fun q => deadlocks (its q) = 0) (workers w).
Proof.
  intros Hv H. apply (rtc_ind_r (fun w => Forall (fun q => deadlocks (its q) = 0) (workers w)) (start n pairs)) in H; [done| |].
  - cbn. by apply Forall_fmap, Forall_true.
  - intros x y Hx Hy. eapply step_no_deadlock; [|done]. by apply transfers_run.
Qed.

Lemma nsteps_fuel (ordered : bool) (n : Z) (pairs : list (list (Z * Z))) (c : nat) (w w' : world) :
  nsteps (step ordered) c w w' -> inv ordered n pairs w -> Z.of_nat c + fuel w' <= fuel w.
Proof.
  induction 1 as [w|c w x w' Hx _ IH]; intros Hw; [lia|].
  pose proof (step_fuel _ _ _ _ _ Hw Hx). specialize (IH ltac:(by eapply transfers_step)). lia.
Qed.

(** ** Properties *)

(** C12: Transfers with retries, in either order of the locks: whatever the interleaving
    and the deadlocks, the money in the accounts is what was there, each account has the
    starting balance plus the committed transfers, every transfer is committed or given up
    at most once, and those given up are no more than the deadlocks.  With ordered locks
    nobody ever waits for itself, and no transfer is given up. *)
Theorem transfers_conserve (ordered : bool) (n : Z) (pairs : list (list (Z * Z))) (w : world) :
  0 <= n -> Forall (Forall (valid n)) pairs -> rtc (step ordered) (start n pairs) w ->
  balances n w = n * BALANCE /\
  (forall k v, read (db w) k = Some v -> v = BALANCE + zsum ((fun q => net k (made q)) <$> workers w)) /\
  total done w + total gave_up w <= transfers pairs /\ 0 <= total gave_up w <= total deadlocks w /\
  (ordered = true -> (forall i, ~ deadlocked w i) /\ total deadlocks w = 0).
Proof.
  intros Hn Hv H. pose proof (transfers_run _ _ _ _ Hv H) as Hw. destruct (transfers_work_totals _ _ _ (inv_work _ _ _ _ Hw)) as [Ht Hg].
  split; [by eapply balances_conserved|]. split; [apply (inv_balance _ _ _ _ Hw)|].
  pose proof (zsum_nonneg (fun q => Z.of_nat (length (todo q))) (workers w) (fun q => Nat2Z.is_nonneg _)).
  unfold total. split; [lia|]. split; [exact Hg|]. intros ->. split; [intros i; by eapply ordered_never_cycles|].
  apply zsum_zero. intros q Hq. pose proof (run_no_deadlock _ _ _ Hv H) as Hd. rewrite Forall_forall in Hd. by apply Hd.
Qed.

(** C11: Every run ends: no schedule has more than 31 steps per transfer, and a run stops
    only when every worker is through its list, each transfer committed or given up.  With
    ordered locks it then has made all transfers. *)
Theorem every_run_ends (ordered : bool) (n : Z) (pairs : list (list (Z * Z))) (c : nat) (w : world) :
  Forall (Forall (valid n)) pairs -> nsteps (step ordered) c (start n pairs) w ->
  Z.of_nat c <= 31 * transfers pairs /\
  ((exists w', step ordered w w') \/
   Forall (fun q => finished q = true) (workers w) /\ total done w + total gave_up w = transfers pairs /\
   (ordered = true -> made <$> workers w = pairs /\ total done w = transfers pairs)).
Proof.
  intros Hv H. assert (Hr : rtc (step ordered) (start n pairs) w) by (apply rtc_nsteps; by exists c). pose proof (transfers_run _ _ _ _ Hv Hr) as Hw.
  pose proof (nsteps_fuel _ _ _ _ _ _ H (transfers_start _ _ _ Hv)) as Hf. rewrite start_fuel in Hf. pose proof (fuel_nonneg _ _ _ _ Hw).
  split; [lia|]. destruct (decide (Forall (fun q => finished q = true) (workers w))) as [Ha|Ha].
  - right. split; [done|]. destruct (transfers_work_totals _ _ _ (inv_work _ _ _ _ Hw)) as [Ht _].
    rewrite (zsum_zero (fun q => Z.of_nat (length (todo q)))) in Ht.
    + split; [unfold total; lia|]. intros ->. apply (no_deadlocks_all n); [apply (inv_work _ _ _ _ Hw)|].
      apply Forall_and. split; [done|]. by eapply run_no_deadlock.
    + intros q Hq. rewrite Forall_forall in Ha. specialize (Ha q Hq). unfold finished in Ha. by destruct (todo q).
  - left. apply not_Forall_Exists in Ha; [|intros q; apply _]. apply Exists_exists in Ha as (q & Hq & Hf').
    apply list_elem_of_lookup in Hq as [i Hi]. eapply unfinished_steps; [done..|]. cbn in Hf'. by destruct (finished q).
Qed.

Lemma transfers_conserve_witness :
  let w := start 2 [[(1, 2)]; [(2, 1)]] in balances 2 w = 200000 /\ (forall i, ~ deadlocked w i).
Proof.
  destruct (transfers_conserve true 2 [[(1, 2)]; [(2, 1)]] (start 2 [[(1, 2)]; [(2, 1)]])) as (H1 & _ & _ & _ & H2);
    [lia|by repeat constructor|by constructor|]. split; [exact H1|]. by apply H2.
Defined.

Lemma every_run_ends_witness :
  let w := start 2 [[(1, 2)]; [(2, 1)]] in Z.of_nat 0 <= 31 * transfers [[(1, 2)]; [(2, 1)]] /\ exists w', step true w w'.
Proof.
  destruct (every_run_ends true 2 [[(1, 2)]; [(2, 1)]] 0 (start 2 [[(1, 2)]; [(2, 1)]])) as [H [Hw|[Hf _]]];
    [by repeat constructor|by constructor|by split|]. exfalso. by inversion_clear Hf.
Defined.

(** In argument order two transfers between the same accounts, one each way, deadlock:
    each holds the row the other wants, and neither can go on. *)
Theorem argument_order_deadlocks (n a b : Z) :
  valid n (a, b) ->
  exists w, rtc (step false) (start n [[(a, b)]; [(b, a)]]) w /\ deadlocked w 0 /\ deadlocked w 1 /\
    (forall i, transfer false i w = None).
Proof.
  intros (Ha & Hb & Hab). cbn in Ha, Hb, Hab. pose (q := fun l p => mkWorker l p (mkStats 0 0 0) []).
  pose (m := accounts n).
  assert (Hm : forall k, 1 <= k <= n -> m !! k = Some (BALANCE, 0%nat)) by (intros k Hk; unfold m; rewrite accounts_lookup; by case_decide).
  pose (w := fun l p0 p1 => mkWorld (mkRows m l) [q [(a, b)] p0; q [(b, a)] p1]).
  assert (Hw : deadlocked (w (<[b := 1%nat]> {[a := 0%nat]}) (Locking 0 [b]) (Locking 0 [a])) 0 /\
               deadlocked (w (<[b := 1%nat]> {[a := 0%nat]}) (Locking 0 [b]) (Locking 0 [a])) 1).
  { assert (H0 : waits (wants (w (<[b := 1%nat]> {[a := 0%nat]}) (Locking 0 [b]) (Locking 0 [a])))
               (mkRows m (<[b := 1%nat]> {[a := 0%nat]})) 0 1) by (exists b; cbn; by rewrite lookup_insert_eq).
    assert (H1 : waits (wants (w (<[b := 1%nat]> {[a := 0%nat]}) (Locking 0 [b]) (Locking 0 [a])))
               (mkRows m (<[b := 1%nat]> {[a := 0%nat]})) 1 0)
      by (exists a; cbn; by rewrite lookup_insert_ne, lookup_singleton_eq).
    split; eapply tc_l; try eassumption; by apply tc_once. }
  exists (w (<[b := 1%nat]> {[a := 0%nat]}) (Locking 0 [b]) (Locking 0 [a])). split; [|split; [apply Hw|split; [apply Hw|]]].
  - apply rtc_l with (w ∅ (Locking 0 [a; b]) Between); [by apply (step_transfer _ 0)|].
    apply rtc_l with (w ∅ (Locking 0 [a; b]) (Locking 0 [b; a])); [by apply (step_transfer _ 1)|].
    apply rtc_l with (w {[a := 0%nat]} (Locking 0 [b]) (Locking 0 [b; a])).
    { apply (step_transfer _ 0). cbn. unfold lock_row. cbn. by rewrite Hm by done. }
    apply rtc_once, (step_transfer _ 1). cbn. unfold lock_row. cbn. rewrite Hm by done. by rewrite lookup_singleton_ne by done.
  - intros [|[|i]]; [| |done]; cbn; unfold lock_row; cbn; rewrite Hm by done.
    + by rewrite lookup_insert_eq.
    + by rewrite lookup_insert_ne, lookup_singleton_eq by done.
Qed.

Lemma argument_order_deadlocks_witness :
  exists w, rtc (step false) (start 2 [[(1, 2)]; [(2, 1)]]) w /\ deadlocked w 0.
Proof. destruct (argument_order_deadlocks 2 1 2) as (w & H & Hd & _); [done|]. by exists w. Defined.
