(* ===== verification/Isolation.v ===== *)
(** * Data layer: isolation levels

    Models src/03-data/01-isolation-levels/python: [rmw], [atomic] and the worker of
    lost_update.py, and [go_off_call] and the count of broken shifts of write_skew.py; not
    the latencies and the tables.

    A step is one statement, or the end of one that waited for a row ([RowStore]).  What
    Postgres documents of its levels: a statement reads the rows committed when it began,
    and at READ COMMITTED an update that waited takes the latest version and looks at its
    [WHERE] again; above that a transaction reads what was committed at its first statement,
    and an update of a row that has changed since fails with 40001.  SERIALIZABLE may fail
    any transaction with 40001, and the committed ones have a serial order. *)

From Stdlib Require Import ZArith Lia.
From stdpp Require Import base option list numbers gmap relations.
From S2P Require Import Prelude RowStore.

Open Scope Z_scope.

(** ** Definitions *)

Inductive isolation : Type := ReadCommitted | RepeatableRead | Serializable.

Definition has_snapshot (level : isolation) : bool := match level with ReadCommitted => false | _ => true end.

(** A transaction that goes on, waits, or fails with 40001. *)
Inductive outcome (A : Type) : Type :=
| Goes (a : A)
| Blocks
| Fails.

#[global] Arguments Goes {A} a.
#[global] Arguments Blocks {A}.
#[global] Arguments Fails {A}.

(** What was committed at some moment. *)
Abbreviation snapshot K V := (gmap K (V * nat)).

Section Statements.
Context {K V : Type} `{Countable K}.

Definition changed (snap : snapshot K V) (d : rows K V) (k : K) : bool :=
  bool_decide (snd <$> snap !! k <> snd <$> table d !! k).

(** Locking a row, for [UPDATE] or [FOR UPDATE]. *)
Definition take_row (level : isolation) (snap : snapshot K V) (i : nat) (k : K) (d : rows K V) : outcome (rows K V) :=
  match lock_row i k d with
  | None => Blocks
  | Some d' => if has_snapshot level && changed snap d' k then Fails else Goes d'
  end.

End Statements.

Module LostUpdate.

Definition ACCOUNT : Z := 1.
Definition START_BALANCE : Z := 100000.
Definition AMOUNT : Z := 100.
Definition MAX_RETRIES : nat := 8.

Inductive body : Type := Rmw | Atomic.
Record variant : Type := mkVariant { isolation_of : isolation; body_of : body; lock_reads : bool }.

Definition VARIANTS : list variant :=
  [mkVariant ReadCommitted Rmw false; mkVariant ReadCommitted Atomic false; mkVariant RepeatableRead Rmw false;
   mkVariant RepeatableRead Atomic false; mkVariant ReadCommitted Rmw true].

(** Before a transaction; in its first statement; past the [SELECT]; before [COMMIT], with
    the answer. *)
Inductive place : Type :=
| Idle
| Begun (snap : snapshot Z Z)
| Read (balance : Z) (snap : snapshot Z Z)
| Committing (ok : bool) (own : gmap Z Z).

Record counters : Type := mkCounters { ok : Z; declined : Z; aborts : Z; retries : Z; gave_up : Z }.

(** [left]: the withdrawals of the loop still to make; [attempt]: of the current one. *)
Record worker : Type := mkWorker { left_ : nat; attempt : nat; at_ : place; its : counters }.
Record world : Type := mkWorld { db : rows Z Z; workers : list worker }.

Definition balance_in (snap : snapshot Z Z) : Z := default 0 (fst <$> snap !! ACCOUNT).

(** The [UPDATE] of the account. *)
Definition withdraw (v : variant) (snap : snapshot Z Z) (i : nat) (f : Z -> option Z) (d : rows Z Z) : outcome (place * rows Z Z) :=
  match take_row (isolation_of v) snap i ACCOUNT d with
  | Goes d' =>
      match f (default 0 (read d' ACCOUNT)) with
      | Some x => Goes (Committing true {[ACCOUNT := x]}, d')
      | None => Goes (Committing false ∅, d')
      end
  | Blocks => Blocks
  | Fails => Fails
  end.

(** The next statement of [rmw] and [atomic]. *)
Definition statement (v : variant) (i : nat) (p : place) (d : rows Z Z) : outcome (place * rows Z Z) :=
  match p with
  | Idle => Goes (Begun (table d), d)
  | Begun snap =>
      match body_of v with
      | Rmw =>
          if lock_reads v
          then
            match take_row (isolation_of v) snap i ACCOUNT d with
            | Goes d' => Goes (Read (default 0 (read d' ACCOUNT)) snap, d')
            | Blocks => Blocks
            | Fails => Fails
            end
          else Goes (Read (balance_in snap) snap, d)
      | Atomic =>
          if balance_in snap <? AMOUNT then Goes (Committing false ∅, d)
          else withdraw v snap i (fun x => if x <? AMOUNT then None else Some (x - AMOUNT)) d
      end
  | Read balance snap =>
      if balance <? AMOUNT then Goes (Committing false ∅, d) else withdraw v snap i (fun _ => Some (balance - AMOUNT)) d
  | Committing b own => Goes (Idle, commit i own d)
  end.

(** [counters[outcome] += 1] after the commit, and the [except]. *)
Definition count (b : bool) (c : counters) : counters :=
  if b then mkCounters (ok c + 1) (declined c) (aborts c) (retries c) (gave_up c)
  else mkCounters (ok c) (declined c + 1) (aborts c) (retries c) (gave_up c).

Definition aborted (q : worker) : worker :=
  let c := its q in
  if (attempt q =? MAX_RETRIES)%nat
  then mkWorker (left_ q - 1) 0 Idle (mkCounters (ok c) (declined c) (aborts c + 1) (retries c) (gave_up c + 1))
  else mkWorker (left_ q) (S (attempt q)) Idle (mkCounters (ok c) (declined c) (aborts c + 1) (retries c + 1) (gave_up c)).

Definition advanced (p : place) (q : worker) : worker :=
  match at_ q with
  | Committing b _ => mkWorker (left_ q - 1) 0 Idle (count b (its q))
  | _ => mkWorker (left_ q) (attempt q) p (its q)
  end.

Definition step (v : variant) (i : nat) (w : world) : option world :=
  q ← workers w !! i;
  if (left_ q =? 0)%nat then None
  else
    match statement v i (at_ q) (db w) with
    | Goes (p, d) => Some (mkWorld d (<[i := advanced p q]> (workers w)))
    | Blocks => None
    | Fails => Some (mkWorld (release i (db w)) (<[i := aborted q]> (workers w)))
    end.

Definition steps (v : variant) (w w' : world) : Prop := exists i, step v i w = Some w'.

Definition start (n per_worker : nat) : world :=
  mkWorld (mkRows {[ACCOUNT := (START_BALANCE, 0%nat)]} ∅) (replicate n (mkWorker per_worker 0 Idle (mkCounters 0 0 0 0 0))).

(** What [run_variant] reports. *)
Definition total (f : counters -> Z) (w : world) : Z := zsum ((fun q => f (its q)) <$> workers w).
Definition final (w : world) : Z := default 0 (read (db w) ACCOUNT).
Definition expected (w : world) : Z := START_BALANCE - total ok w * AMOUNT.
Definition lost (w : world) : Z := (final w - expected w) / AMOUNT.

End LostUpdate.

Module WriteSkew.

Definition MAX_RETRIES : nat := 5.

Record variant : Type := mkVariant { isolation_of : isolation; lock_reads : bool }.

Definition VARIANTS : list variant :=
  [mkVariant ReadCommitted false; mkVariant RepeatableRead false; mkVariant Serializable false; mkVariant ReadCommitted true].

(** The key of a row of [oncall]: shift and doctor. *)
#[local] Abbreviation row := (Z * Z)%type.

(** Before the first statement; in it, with the rows it has still to lock and the flags it
    has read; past it; before [COMMIT]; over. *)
Inductive place : Type :=
| Idle
| Begun (snap : snapshot row bool) (todo : list row) (on_call : Z)
| Counted (on_call : Z) (snap : snapshot row bool)
| Committing (wrote : bool) (own : gmap row bool)
| Over.

Record counters : Type := mkCounters { aborts : Z; retries : Z; wrote : Z; declined : Z; gave_up : Z }.

(** A request: one doctor of one shift. *)
Record request : Type := mkRequest { shift : Z; doctor : Z; attempt : nat; at_ : place; its : counters }.
Record world : Type := mkWorld { db : rows row bool; requests : list request }.

Definition DOCTORS : list Z := [1; 2].
Definition rows_of (s : Z) : list row := (fun k => (s, k)) <$> DOCTORS.

(** [SELECT count( * ) .. WHERE shift_id = s AND on_call]. *)
Definition count_in (snap : snapshot row bool) (s : Z) : Z :=
  countb (fun k => default false (fst <$> snap !! k)) (rows_of s).

(** The next statement of [go_off_call]. *)
Definition statement (v : variant) (i : nat) (s k : Z) (p : place) (d : rows row bool) : outcome (place * rows row bool) :=
  match p with
  | Idle => Goes (Begun (table d) (rows_of s) 0, d)
  | Begun snap todo n =>
      if lock_reads v
      then
        match todo with
        | [] => Goes (Counted n snap, d)
        | r :: todo =>
            match take_row (isolation_of v) snap i r d with
            | Goes d' => Goes (Begun snap todo (n + bit (default false (read d' r))), d')
            | Blocks => Blocks
            | Fails => Fails
            end
        end
      else Goes (Counted (count_in snap s) snap, d)
  | Counted n snap =>
      if 1 <? n
      then
        match take_row (isolation_of v) snap i (s, k) d with
        | Goes d' => Goes (Committing true {[(s, k) := false]}, d')
        | Blocks => Blocks
        | Fails => Fails
        end
      else Goes (Committing false ∅, d)
  | Committing _ own => Goes (Over, commit i own d)
  | Over => Blocks
  end.

(** The counters of a committed attempt, and those of an aborted one. *)
Definition advanced (p : place) (q : request) : request :=
  let c := its q in
  mkRequest (shift q) (doctor q) (attempt q) p
    (match at_ q with
     | Committing true _ => mkCounters (aborts c) (retries c) (wrote c + 1) (declined c) (gave_up c)
     | Committing false _ => mkCounters (aborts c) (retries c) (wrote c) (declined c + 1) (gave_up c)
     | _ => c
     end).

Definition aborted (q : request) : request :=
  let c := its q in
  if (attempt q =? MAX_RETRIES)%nat
  then mkRequest (shift q) (doctor q) (attempt q) Over (mkCounters (aborts c + 1) (retries c) 0 0 (gave_up c + 1))
  else mkRequest (shift q) (doctor q) (S (attempt q)) Idle (mkCounters (aborts c + 1) (retries c + 1) 0 0 (gave_up c)).

Definition abort (i : nat) (q : request) (w : world) : world :=
  mkWorld (release i (db w)) (<[i := aborted q]> (requests w)).

Definition step (v : variant) (i : nat) (w : world) : option world :=
  q ← requests w !! i;
  match statement v i (shift q) (doctor q) (at_ q) (db w) with
  | Goes (p, d) => Some (mkWorld d (<[i := advanced p q]> (requests w)))
  | Blocks => None
  | Fails => Some (abort i q w)
  end.

(** The failures that SERIALIZABLE adds. *)
Inductive steps (v : variant) : world -> world -> Prop :=
| steps_statement i w w' : step v i w = Some w' -> steps v w w'
| steps_failure i q w :
    isolation_of v = Serializable -> requests w !! i = Some q -> at_ q <> Over -> at_ q <> Idle -> steps v w (abort i q w).

(** [reset_oncall]. *)
Definition everybody (shifts : Z) : gmap row (bool * nat) :=
  list_to_map (s ← seqZ 1 shifts; (fun r => (r, (true, 0%nat))) <$> rows_of s).

Definition start (shifts : Z) (l : list row) : world :=
  mkWorld (mkRows (everybody shifts) ∅)
    ((fun r => mkRequest r.1 r.2 0 Idle (mkCounters 0 0 0 0 0)) <$> l).

(** [HAVING sum(on_call::int) = 0]. *)
Definition broken (shifts : Z) (w : world) : Z :=
  countb (fun s => countb (fun r => default false (read (db w) r)) (rows_of s) =? 0) (seqZ 1 shifts).

End WriteSkew.

(** ** Lemmas *)

Section StatementLemmas.
Context {K V : Type} `{Countable K}.

Lemma take_row_goes (level : isolation) (snap : snapshot K V) (i : nat) (k : K) (d d' : rows K V) :
  take_row level snap i k d = Goes d' ->
  lock_row i k d = Some d' /\ table d' = table d /\ (has_snapshot level = true -> snd <$> snap !! k = snd <$> table d !! k).
Proof.
  unfold take_row, changed. destruct (lock_row i k d) as [d1|] eqn:E; [|done].
  destruct (has_snapshot level && _) eqn:Ec; intros; simplify_eq. pose proof (lock_row_table _ _ _ _ E) as Ht. split; [done|]. split; [done|].
  intros Hl. rewrite Hl in Ec. cbn in Ec. apply bool_decide_eq_false in Ec. rewrite Ht in Ec. by apply dec_stable.
Qed.

(** READ COMMITTED never fails. *)
Lemma take_row_read_committed (snap : snapshot K V) (i : nat) (k : K) (d : rows K V) : take_row ReadCommitted snap i k d <> Fails.
Proof. unfold take_row. by destruct (lock_row i k d). Qed.

(** How a row can have moved on since a snapshot. *)
Definition since (k : K) (t t' : gmap K (V * nat)) : Prop :=
  exists x y n m, t !! k = Some (x, n) /\ t' !! k = Some (y, m) /\ (n <= m)%nat /\ (n = m -> x = y).

Lemma since_refl (k : K) (t : gmap K (V * nat)) : is_Some (t !! k) -> since k t t.
Proof. intros [[x n] Hx]. by exists x, x, n, n. Qed.

Lemma since_trans (k : K) (t1 t2 t3 : gmap K (V * nat)) : since k t1 t2 -> since k t2 t3 -> since k t1 t3.
Proof.
  intros (x & y & n & m & H1 & H2 & Hnm & E1) (y' & z & m' & l & H2' & H3 & Hml & E2). rewrite H2 in H2'. simplify_eq.
  exists x, z, n, l. split; [done|]. split; [done|]. split; [lia|]. intros ->. rewrite E1, E2 by lia. done.
Qed.

Lemma since_commit (k : K) (i : nat) (own : gmap K V) (d : rows K V) : is_Some (table d !! k) -> since k (table d) (table (commit i own d)).
Proof.
  intros [[x n] Hx]. unfold since, commit. cbn. rewrite map_lookup_imap, Hx. cbn. destruct (own !! k) as [v|].
  - exists x, v, n, (S n). split_and!; try done; lia.
  - by exists x, x, n, n.
Qed.

End StatementLemmas.

Module LostUpdateLemmas.
Import LostUpdate.

(** A lock, a snapshot, or a single statement protects the balance that was read. *)
Definition safe (v : variant) : bool :=
  has_snapshot (isolation_of v) || lock_reads v || match body_of v with Atomic => true | Rmw => false end.

Definition place_ok (v : variant) (i : nat) (p : place) (d : rows Z Z) : Prop :=
  match p with
  | Idle => holds i [] d
  | Begun snap => holds i [] d /\ since ACCOUNT snap (table d)
  | Read bal snap =>
      since ACCOUNT snap (table d) /\
      if lock_reads v then holds i [ACCOUNT] d /\ read d ACCOUNT = Some bal
      else holds i [] d /\ body_of v = Rmw /\ fst <$> snap !! ACCOUNT = Some bal
  | Committing true own =>
      holds i [ACCOUNT] d /\ exists x, read d ACCOUNT = Some x /\ AMOUNT <= x /\ own = {[ACCOUNT := x - AMOUNT]}
  | Committing false own => (holds i [] d \/ holds i [ACCOUNT] d) /\ own = ∅
  end.

Lemma withdrawals_place_ok_quiet (v : variant) (i : nat) (p : place) (d d' : rows Z Z) :
  quiet i d d' -> since ACCOUNT (table d) (table d') -> place_ok v i p d -> place_ok v i p d'.
Proof.
  intros [Ql Qr] Hs. assert (Hh : forall l, holds i l d -> holds i l d') by (intros l Hl k; by rewrite Ql).
  assert (Hr : holds i [ACCOUNT] d -> read d' ACCOUNT = read d ACCOUNT) by (intros Hl; apply Qr, Hl; set_solver).
  destruct p as [|snap|bal snap|[] own]; cbn [place_ok]; try apply Hh.
  - intros [H1 H2]. split; [by apply Hh|by eapply since_trans].
  - intros [H1 H2]. split; [by eapply since_trans|]. destruct (lock_reads v).
    + destruct H2 as [H2 H3]. split; [by apply Hh|by rewrite Hr].
    + destruct H2 as (H2 & H3). split; [by apply Hh|done].
  - intros [H1 (x & H2 & H3)]. split; [by apply Hh|]. exists x. by rewrite Hr.
  - intros [[H1|H1] ->]; (split; [|done]); [left|right]; by apply Hh.
Qed.

Record work_ok (v : variant) (n : nat) (q : worker) : Prop := {
  wk_left : ok (its q) + declined (its q) + gave_up (its q) + Z.of_nat (left_ q) = Z.of_nat n;
  wk_aborts : aborts (its q) = retries (its q) + gave_up (its q);
  wk_attempt : (attempt q <= MAX_RETRIES)%nat;
  wk_none : isolation_of v = ReadCommitted -> aborts (its q) = 0;
  wk_nonneg : 0 <= ok (its q) /\ 0 <= declined (its q) /\ 0 <= gave_up (its q) /\ 0 <= retries (its q) }.

Record inv (v : variant) (n : nat) (w : world) : Prop := {
  inv_places : forall i q, workers w !! i = Some q -> place_ok v i (at_ q) (db w);
  inv_balance : read (db w) ACCOUNT = Some (START_BALANCE - total ok w * AMOUNT);
  inv_positive : total ok w * AMOUNT <= START_BALANCE;
  inv_work : Forall (work_ok v n) (workers w) }.

(** Worker [i] takes a step. *)
Lemma withdrawals_put (v : variant) (n : nat) (w : world) (i : nat) (q q' : worker) (d' : rows Z Z) :
  inv v n w -> workers w !! i = Some q ->
  (forall j, j <> i -> quiet j (db w) d') -> since ACCOUNT (table (db w)) (table d') ->
  place_ok v i (at_ q') d' -> read d' ACCOUNT = (fun x => x - (ok (its q') - ok (its q)) * AMOUNT) <$> read (db w) ACCOUNT ->
  (forall x, read d' ACCOUNT = Some x -> 0 <= x) -> (work_ok v n q -> work_ok v n q') ->
  inv v n (mkWorld d' (<[i := q']> (workers w))).
Proof.
  intros [Ip Ib Io Iw] Hi Hq Hs Hp Hr Hn Hw. rewrite Ib in Hr. cbn in Hr.
  assert (E : total ok (mkWorld d' (<[i := q']> (workers w))) = total ok w + (ok (its q') - ok (its q)))
    by (unfold total; cbn; rewrite (zsum_insert _ _ _ _ _ Hi); lia).
  constructor; cbn [db workers]; rewrite ?E.
  - intros j x Hj. apply list_lookup_insert_Some in Hj as [(-> & <- & _)|[Hne Hj]]; [done|].
    eapply withdrawals_place_ok_quiet; [by apply Hq|done|]. by apply Ip.
  - rewrite Hr. f_equal. lia.
  - specialize (Hn _ Hr). lia.
  - apply Forall_insert; [done|]. apply Hw. by eapply (Forall_lookup_1 _ _ _ _ Iw).
Qed.

(** A step that commits nothing. *)
Lemma withdrawals_go (v : variant) (n : nat) (w : world) (i : nat) (q q' : worker) (d' : rows Z Z) :
  inv v n w -> workers w !! i = Some q -> table d' = table (db w) -> (forall j, j <> i -> quiet j (db w) d') ->
  ok (its q') = ok (its q) -> place_ok v i (at_ q') d' -> (work_ok v n q -> work_ok v n q') ->
  inv v n (mkWorld d' (<[i := q']> (workers w))).
Proof.
  intros Hw Hi Ht Hq Ho Hp Hwk. pose proof (inv_balance _ _ _ Hw) as Hb. assert (Hr : read d' ACCOUNT = read (db w) ACCOUNT) by (unfold read; by rewrite Ht).
  eapply withdrawals_put; eauto.
  - rewrite Ht. apply since_refl, read_some. by rewrite Hb.
  - rewrite Hr, Hb, Ho. cbn. f_equal. lia.
  - intros x Hx. rewrite Hr, Hb in Hx. injection Hx as <-. pose proof (inv_positive _ _ _ Hw). lia.
Qed.

Lemma take_row_holds (level : isolation) (snap : snapshot Z Z) (i : nat) (l : list Z) (d d' : rows Z Z) :
  take_row level snap i ACCOUNT d = Goes d' -> is_Some (read d ACCOUNT) -> holds i l d -> l = [] \/ l = [ACCOUNT] ->
  table d' = table d /\ holds i [ACCOUNT] d' /\ (forall j, j <> i -> quiet j d d').
Proof.
  intros E Hr Hl Hcase. apply take_row_goes in E as (E & Ht & _). split; [done|]. split; [|intros j Hj; by eapply lock_quiet].
  pose proof (lock_holds _ _ _ _ _ E Hr Hl) as Hh. destruct Hcase as [->| ->]; [done|].
  intros k. rewrite (Hh k). set_solver.
Qed.

(** The [UPDATE], when the version that [f] leads to is the current one less the amount. *)
Lemma withdraw_ok (v : variant) (snap : snapshot Z Z) (i : nat) (f : Z -> option Z) (l : list Z) (d d' : rows Z Z) (p : place) (y : Z) :
  withdraw v snap i f d = Goes (p, d') -> read d ACCOUNT = Some y -> holds i l d -> l = [] \/ l = [ACCOUNT] ->
  ((has_snapshot (isolation_of v) = true -> snd <$> snap !! ACCOUNT = snd <$> table d !! ACCOUNT) ->
   forall x, f y = Some x -> x = y - AMOUNT /\ AMOUNT <= y) ->
  table d' = table d /\ (forall j, j <> i -> quiet j d d') /\ place_ok v i p d'.
Proof.
  intros E Hr Hl Hcase Hf. unfold withdraw in E. destruct (take_row _ _ _ _ _) as [d1| |] eqn:Et; try done.
  destruct (take_row_holds _ _ _ _ _ _ Et ltac:(by rewrite Hr) Hl Hcase) as (Ht & Hh & Hq).
  destruct (take_row_goes _ _ _ _ _ _ Et) as (_ & _ & Hv). specialize (Hf Hv).
  assert (Hr' : read d1 ACCOUNT = Some y) by (unfold read; by rewrite Ht). rewrite Hr' in E. cbn in E.
  destruct (f y) as [x|] eqn:Ef; simplify_eq; (split; [done|split; [done|]]); cbn [place_ok].
  - destruct (Hf x eq_refl) as [-> Hy]. split; [done|]. by exists y.
  - split; [by right|done].
Qed.

Lemma withdrawals_commit_step (v : variant) (n : nat) (w : world) (i : nat) (q : worker) (b : bool) (own : gmap Z Z) :
  inv v n w -> workers w !! i = Some q -> at_ q = Committing b own -> (0 < left_ q)%nat ->
  inv v n (mkWorld (commit i own (db w)) (<[i := mkWorker (left_ q - 1) 0 Idle (count b (its q))]> (workers w))).
Proof.
  intros Hw Hi Hp Hn. pose proof (inv_places _ _ _ Hw _ _ Hi) as Hq. rewrite Hp in Hq. pose proof (inv_balance _ _ _ Hw) as Hb.
  assert (Hown : forall k x, own !! k = Some x -> b = true /\ k = ACCOUNT).
  { destruct b; cbn [place_ok] in Hq; [destruct Hq as (_ & x & _ & _ & ->)|destruct Hq as (_ & ->)]; intros k y Hy; [|done].
    apply lookup_singleton_Some in Hy as [<- _]. done. }
  assert (Hread : read (commit i own (db w)) ACCOUNT = (fun x => x - bit b * AMOUNT) <$> read (db w) ACCOUNT).
  { rewrite commit_read. destruct b; cbn [place_ok] in Hq.
    - destruct Hq as (_ & x & -> & _ & ->). by rewrite lookup_singleton_eq.
    - destruct Hq as (_ & ->). rewrite Hb, lookup_empty. cbn. f_equal. lia. }
  eapply withdrawals_put; eauto.
  - intros j Hj. apply commit_quiet; [done|]. intros k [x Hx]. destruct (Hown _ _ Hx) as [-> ->]. apply Hq. set_solver.
  - apply since_commit, read_some. by rewrite Hb.
  - intros k. rewrite commit_locks. set_solver.
  - rewrite Hread. cbn [its]. destruct (read (db w) ACCOUNT); [|done]. cbn. f_equal. destruct b; cbn [count ok bit]; lia.
  - rewrite Hread. intros y Hy. destruct b; cbn [place_ok] in Hq.
    + destruct Hq as (_ & x & Hx & Hle & _). rewrite Hx in Hy. cbn in Hy. simplify_eq. lia.
    + rewrite Hb in Hy. cbn in Hy. simplify_eq. pose proof (inv_positive _ _ _ Hw). lia.
  - intros [W1 W2 W3 W4 W5]. constructor; cbn [its left_ attempt]; destruct b; cbn [count ok declined aborts retries gave_up]; try lia; try done.
Qed.

Lemma withdrawals_abort_step (v : variant) (n : nat) (w : world) (i : nat) (q : worker) :
  inv v n w -> workers w !! i = Some q -> (0 < left_ q)%nat -> isolation_of v <> ReadCommitted ->
  inv v n (mkWorld (release i (db w)) (<[i := aborted q]> (workers w))).
Proof.
  intros Hw Hi Hn Hv. unfold aborted. eapply withdrawals_go; eauto; [by intros; apply release_quiet|by case_match| |].
  - assert (at_ (if (attempt q =? MAX_RETRIES)%nat then mkWorker (left_ q - 1) 0 Idle (mkCounters (ok (its q)) (declined (its q)) (aborts (its q) + 1) (retries (its q)) (gave_up (its q) + 1))
      else mkWorker (left_ q) (S (attempt q)) Idle (mkCounters (ok (its q)) (declined (its q)) (aborts (its q) + 1) (retries (its q) + 1) (gave_up (its q)))) = Idle) as -> by (by case_match).
    intros k. rewrite locks_released. set_solver.
  - intros [W1 W2 W3 W4 W5]. destruct (Nat.eqb_spec (attempt q) MAX_RETRIES);
      constructor; cbn [its left_ attempt ok declined aborts retries gave_up]; try lia; done.
Qed.

(** A statement that commits nothing leaves its transaction in order. *)
Lemma statement_ok (v : variant) (i : nat) (p p' : place) (d d' : rows Z Z) (y : Z) :
  safe v = true -> place_ok v i p d -> read d ACCOUNT = Some y -> (forall b own, p <> Committing b own) ->
  statement v i p d = Goes (p', d') -> table d' = table d /\ (forall j, j <> i -> quiet j d d') /\ place_ok v i p' d'.
Proof.
  intros Hsafe Hp Hr Hc E. assert (Hquiet : forall j, j <> i -> quiet j d d) by done.
  assert (Hy : exists m, table d !! ACCOUNT = Some (y, m)) by (unfold read in Hr; destruct (table d !! ACCOUNT) as [[? m]|]; naive_solver).
  destruct p as [|snap|bal snap|b own]; cbn [statement place_ok] in *; [| | |by destruct (Hc b own)].
  - simplify_eq. split_and!; try done. cbn [place_ok]. split; [done|]. apply since_refl, read_some. by rewrite Hr.
  - destruct Hp as [Hh Hs]. destruct (body_of v) eqn:Eb.
    + destruct (lock_reads v) eqn:El.
      * destruct (take_row _ _ _ _ _) as [d1| |] eqn:Et; simplify_eq.
        destruct (take_row_holds _ _ _ _ _ _ Et ltac:(by rewrite Hr) Hh ltac:(by left)) as (Ht & Hh' & Hq).
        assert (Hr' : read d' ACCOUNT = Some y) by (unfold read; by rewrite Ht). split_and!; try done. cbn [place_ok].
        rewrite El, Hr', Ht. done.
      * simplify_eq. split_and!; try done. cbn [place_ok]. rewrite El. split; [done|]. split; [done|]. split; [done|].
        destruct Hs as (x & ? & ? & ? & Hx & _). unfold balance_in. by rewrite Hx.
    + case_match; simplify_eq; [split_and!; try done; cbn [place_ok]; by split; [left|]|].
      eapply withdraw_ok; eauto. intros _ x. cbn beta. destruct (Z.ltb_spec y AMOUNT); intros; by simplify_eq.
  - destruct Hp as [Hs Hp]. destruct (Z.ltb_spec bal AMOUNT); simplify_eq.
    + split_and!; try done. cbn [place_ok]. split; [|done]. destruct (lock_reads v); [right|left]; apply Hp.
    + destruct (lock_reads v) eqn:El.
      * destruct Hp as [Hh Hb]. rewrite Hr in Hb. simplify_eq. eapply withdraw_ok; eauto. intros _ x. naive_solver.
      * destruct Hp as (Hh & Eb & Hb). unfold safe in Hsafe. rewrite El, Eb, orb_false_r, orb_false_r in Hsafe.
        eapply withdraw_ok; eauto. intros Hv x [= <-]. specialize (Hv Hsafe).
        destruct Hs as (x0 & y0 & n & m & H1 & H2 & _ & Hnm). rewrite H1, H2 in Hv. unfold read in Hr. rewrite H2 in Hr. rewrite H1 in Hb.
        cbn in *. simplify_eq. rewrite Hnm in * by done. lia.
Qed.

Lemma statement_fails (v : variant) (i : nat) (p : place) (d : rows Z Z) : statement v i p d = Fails -> isolation_of v <> ReadCommitted.
Proof.
  intros E Hv. assert (Ht : forall snap, take_row (isolation_of v) snap i ACCOUNT d <> Fails) by (intros; rewrite Hv; apply take_row_read_committed).
  assert (Hw : forall snap f, withdraw v snap i f d <> Fails)
    by (intros snap f; unfold withdraw; specialize (Ht snap); destruct (take_row _ _ _ _ _) as [d'| |]; try done; by destruct (f _)).
  destruct p as [|snap|bal snap|b own]; cbn [statement] in E; try done.
  - destruct (body_of v), (lock_reads v); try done; try (case_match; [done|]; by apply Hw in E).
    specialize (Ht snap). by destruct (take_row _ _ _ _ _).
  - case_match; [done|]. by apply Hw in E.
Qed.

Lemma withdrawals_step (v : variant) (n i : nat) (w w' : world) : safe v = true -> inv v n w -> step v i w = Some w' -> inv v n w'.
Proof.
  intros Hs Hw E. unfold step in E. destruct (workers w !! i) as [q|] eqn:Hi; [|done]. cbn in E.
  destruct (Nat.eqb_spec (left_ q) 0); [done|].
  destruct (statement v i (at_ q) (db w)) as [[p d]| |] eqn:Es; simplify_eq.
  - destruct (at_ q) as [|snap|bal snap|b own] eqn:Ep.
    4:{ cbn [statement] in Es. simplify_eq. unfold advanced. rewrite Ep. apply withdrawals_commit_step; [done..|lia]. }
    all: pose proof (inv_places _ _ _ Hw _ _ Hi) as Hp; rewrite Ep in Hp;
      destruct (statement_ok _ _ _ _ _ _ _ Hs Hp (inv_balance _ _ _ Hw) ltac:(done) Es) as (Ht & Hq & Hp');
      unfold advanced; rewrite Ep; eapply withdrawals_go; eauto; intros [W1 W2 W3 W4 W5]; by constructor.
  - apply withdrawals_abort_step; [done..|lia|by eapply statement_fails].
Qed.

Lemma withdrawals_start (v : variant) (n m : nat) : inv v n (start m n).
Proof.
  assert (Ht : total ok (start m n) = 0) by (unfold total, start; cbn; rewrite fmap_replicate, zsum_replicate; cbn; lia).
  constructor; rewrite ?Ht; try done.
  - intros i q Hi. apply lookup_replicate in Hi as [-> _]. intros k. cbn. rewrite lookup_empty. set_solver.
  - apply Forall_replicate. constructor; cbn; lia.
Qed.

Lemma withdrawals_run (v : variant) (n m : nat) (w : world) : safe v = true -> rtc (steps v) (start m n) w -> inv v n w.
Proof.
  intros Hs H. pose proof (withdrawals_start v n m) as Hw. revert Hw. induction H as [|x y z [i Hxy] _ IH]; [done|]. intros Hw. apply IH. by eapply withdrawals_step.
Qed.

Lemma withdrawals_work_totals (v : variant) (n : nat) (l : list worker) :
  Forall (work_ok v n) l ->
  zsum ((fun q => ok (its q)) <$> l) + zsum ((fun q => declined (its q)) <$> l) + zsum ((fun q => gave_up (its q)) <$> l) +
    zsum ((fun q => Z.of_nat (left_ q)) <$> l) = Z.of_nat (length l) * Z.of_nat n /\
  zsum ((fun q => aborts (its q)) <$> l) = zsum ((fun q => retries (its q)) <$> l) + zsum ((fun q => gave_up (its q)) <$> l) /\
  (isolation_of v = ReadCommitted -> zsum ((fun q => aborts (its q)) <$> l) = 0).
Proof.
  induction 1 as [|q l [W1 W2 W3 W4 W5] _ (IH1 & IH2 & IH3)]; [done|]. rewrite !zsum_fmap_cons. cbn [length].
  split_and!; try lia. intros Hv. rewrite W4, IH3 by done. done.
Qed.
End LostUpdateLemmas.

Module WriteSkewLemmas.
Import WriteSkew.

(** The flag of a row, and how many are on call. *)
Definition flag (d : rows (Z * Z) bool) (r : Z * Z) : bool := default false (read d r).
Definition on_call (d : rows (Z * Z) bool) (s : Z) : Z := countb (flag d) (rows_of s).

Definition place_ok (i : nat) (s k : Z) (p : place) (d : rows (Z * Z) bool) : Prop :=
  match p with
  | Idle | Over => holds i [] d
  | Begun _ todo n => exists pre, rows_of s = pre ++ todo /\ holds i pre d /\ n = countb (flag d) pre
  | Counted n _ => holds i (rows_of s) d /\ n = on_call d s
  | Committing true own => holds i (rows_of s) d /\ 1 < on_call d s /\ own = {[(s, k) := false]}
  | Committing false own => holds i (rows_of s) d /\ own = ∅
  end.

Lemma doctors_place_ok_quiet (i : nat) (s k : Z) (p : place) (d d' : rows (Z * Z) bool) :
  quiet i d d' -> place_ok i s k p d -> place_ok i s k p d'.
Proof.
  intros [Ql Qr]. assert (Hh : forall l, holds i l d -> holds i l d') by (intros l Hl r; by rewrite Ql).
  assert (Hc : forall l, holds i l d -> countb (flag d') l = countb (flag d) l).
  { intros l Hl. apply countb_ext. intros r Hr. unfold flag. by rewrite Qr by (by apply Hl). }
  unfold place_ok, on_call. destruct p as [|snap todo n|n snap|[] own|]; try apply Hh.
  - intros (pre & E & Hp & ->). exists pre. split; [done|]. split; [by apply Hh|]. by rewrite Hc.
  - intros [H1 ->]. split; [by apply Hh|]. by rewrite Hc.
  - intros (H1 & H2 & ->). split; [by apply Hh|]. by rewrite Hc.
  - intros [H1 ->]. split; [by apply Hh|done].
Qed.

Definition is_over (p : place) : bool := match p with Over => true | _ => false end.

Record request_ok (shifts : Z) (q : request) : Prop := {
  rq_shift : 1 <= shift q <= shifts;
  rq_doctor : doctor q ∈ DOCTORS;
  rq_clean : aborts (its q) = 0 /\ retries (its q) = 0 /\ gave_up (its q) = 0;
  rq_answer : wrote (its q) + declined (its q) = bit (is_over (at_ q)) }.

Record inv (shifts : Z) (w : world) : Prop := {
  inv_places : forall i q, requests w !! i = Some q -> place_ok i (shift q) (doctor q) (at_ q) (db w);
  inv_requests : Forall (request_ok shifts) (requests w);
  inv_rows : forall s r, 1 <= s <= shifts -> r ∈ rows_of s -> is_Some (read (db w) r);
  inv_kept : forall s, 1 <= s <= shifts -> 1 <= on_call (db w) s }.

Lemma doctors_put (shifts : Z) (w : world) (i : nat) (q q' : request) (d' : rows (Z * Z) bool) :
  inv shifts w -> requests w !! i = Some q -> (forall j, j <> i -> quiet j (db w) d') ->
  place_ok i (shift q') (doctor q') (at_ q') d' -> (request_ok shifts q -> request_ok shifts q') ->
  (forall r, is_Some (read (db w) r) -> is_Some (read d' r)) ->
  (forall s, 1 <= s <= shifts -> 1 <= on_call (db w) s -> 1 <= on_call d' s) ->
  inv shifts (mkWorld d' (<[i := q']> (requests w))).
Proof.
  intros [Ip Iq Ir Ik] Hi Hq Hp Hw Hr Hk. constructor; cbn [db requests].
  - intros j x Hj. apply list_lookup_insert_Some in Hj as [(-> & <- & _)|[Hne Hj]]; [done|].
    eapply doctors_place_ok_quiet; [by apply Hq|]. by apply Ip.
  - apply Forall_insert; [done|]. apply Hw. by eapply (Forall_lookup_1 _ _ _ _ Iq).
  - intros s r Hs Hin. apply Hr. by eapply Ir.
  - intros s Hs. by apply Hk, Ik.
Qed.

Lemma doctors_go (shifts : Z) (w : world) (i : nat) (q : request) (p : place) (d' : rows (Z * Z) bool) :
  inv shifts w -> requests w !! i = Some q -> table d' = table (db w) -> (forall j, j <> i -> quiet j (db w) d') ->
  (forall b own, at_ q <> Committing b own) -> is_over p = is_over (at_ q) ->
  place_ok i (shift q) (doctor q) p d' -> inv shifts (mkWorld d' (<[i := advanced p q]> (requests w))).
Proof.
  intros Hw Hi Ht Hq Hc Ho Hp.
  assert (E : advanced p q = mkRequest (shift q) (doctor q) (attempt q) p (its q))
    by (unfold advanced; destruct (at_ q) as [| | |b own|]; try done; by destruct (Hc b own)).
  rewrite E. eapply doctors_put; eauto.
  - intros [R1 R2 R3 R4]. constructor; cbn; try done. by rewrite Ho.
  - intros r. unfold read. by rewrite Ht.
  - intros s _ Hs. unfold on_call, flag, read in *. by rewrite Ht.
Qed.

(** One doctor fewer, of one shift. *)
Lemma on_call_commit (i : nat) (s k : Z) (d : rows (Z * Z) bool) (s' : Z) :
  k ∈ DOCTORS -> on_call d s' - (if s =? s' then 1 else 0) <= on_call (commit i {[(s, k) := false]} d) s'.
Proof.
  intros Hk. assert (Hf : forall r, flag (commit i {[(s, k) := false]} d) r = if decide (r = (s, k)) then false else flag d r).
  { intros r. unfold flag. rewrite commit_read. case_decide as Hr.
    - subst r. rewrite lookup_singleton_eq. by destruct (read d (s, k)).
    - rewrite lookup_singleton_ne by congruence. by destruct (read d r). }
  unfold on_call, rows_of, DOCTORS. cbn [fmap list_fmap]. rewrite !countb_cons, !Hf. unfold countb. cbn [fmap list_fmap zsum foldr].
  assert (Hb : forall r, 0 <= bit (flag d r) <= 1) by (intros r; destruct (flag d r); cbn; lia).
  pose proof (Hb (s', 1)). pose proof (Hb (s', 2)).
  destruct (Z.eqb_spec s s') as [<-|Hne].
  - repeat case_decide; cbn [bit]; try lia. simplify_eq.
  - rewrite !decide_False by congruence. lia.
Qed.

Definition locking : variant := mkVariant ReadCommitted true.

Lemma doctors_commit_step (shifts : Z) (w : world) (i : nat) (q : request) (b : bool) (own : gmap (Z * Z) bool) :
  inv shifts w -> requests w !! i = Some q -> at_ q = Committing b own ->
  inv shifts (mkWorld (commit i own (db w)) (<[i := advanced Over q]> (requests w))).
Proof.
  intros Hw Hi Hp. pose proof (inv_places _ _ Hw _ _ Hi) as Hq. rewrite Hp in Hq.
  pose proof (Forall_lookup_1 _ _ _ _ (inv_requests _ _ Hw) Hi) as [Rs Rd _ _].
  assert (Hh : holds i (rows_of (shift q)) (db w)) by (destruct b; apply Hq).
  assert (Hin : (shift q, doctor q) ∈ rows_of (shift q)) by (apply list_elem_of_fmap; by exists (doctor q)).
  eapply doctors_put; eauto.
  - intros j Hj. apply commit_quiet; [done|]. intros r [x Hx]. apply Hh. destruct b; cbn [place_ok] in Hq.
    + destruct Hq as (_ & _ & ->). by apply lookup_singleton_Some in Hx as [<- _].
    + destruct Hq as (_ & ->). done.
  - cbn. intros r. rewrite commit_locks. set_solver.
  - intros [R1 R2 R3 R4]. rewrite Hp in R4. unfold advanced. rewrite Hp. constructor; destruct b; cbn in *; try done; lia.
  - intros r. rewrite commit_read. intros [x ->]. by eexists.
  - intros s _ Hs. destruct b; cbn [place_ok] in Hq.
    + destruct Hq as (_ & Hn & ->). pose proof (on_call_commit i (shift q) (doctor q) (db w) s Rd).
      destruct (Z.eqb_spec (shift q) s) as [<-|]; lia.
    + destruct Hq as (_ & ->). replace (on_call (commit i ∅ (db w)) s) with (on_call (db w) s); [done|].
      unfold on_call. apply countb_ext. intros r _. unfold flag. by rewrite commit_read_other.
Qed.

Lemma doctors_step (shifts : Z) (i : nat) (w w' : world) : inv shifts w -> step locking i w = Some w' -> inv shifts w'.
Proof.
  intros Hw E. unfold step in E. destruct (requests w !! i) as [q|] eqn:Hi; [|done]. cbn in E.
  pose proof (inv_places _ _ Hw _ _ Hi) as Hq. pose proof (Forall_lookup_1 _ _ _ _ (inv_requests _ _ Hw) Hi) as [Rs Rd _ _].
  assert (Hquiet : forall j, j <> i -> quiet j (db w) (db w)) by done.
  assert (Hin : (shift q, doctor q) ∈ rows_of (shift q)) by (apply list_elem_of_fmap; by exists (doctor q)).
  destruct (at_ q) as [|snap [|r todo] n|n snap|b own|] eqn:Hp; cbn [statement locking lock_reads isolation_of] in E; try done.
  - simplify_eq. eapply doctors_go; eauto; [by rewrite Hp|by rewrite Hp|]. cbn [place_ok]. by exists [].
  - simplify_eq. destruct Hq as (pre & Er & Hh & ->). rewrite app_nil_r in Er. subst pre.
    eapply doctors_go; eauto; [by rewrite Hp|by rewrite Hp|]. by cbn [place_ok].
  - destruct (take_row ReadCommitted snap i r (db w)) as [d'| |] eqn:Et; simplify_eq; [|by apply take_row_read_committed in Et].
    destruct Hq as (pre & Er & Hh & ->). destruct (take_row_goes _ _ _ _ _ _ Et) as (El & Ht & _).
    eapply doctors_go; eauto; [by intros; eapply lock_quiet|by rewrite Hp|by rewrite Hp|]. cbn [place_ok]. exists (pre ++ [r]).
    split; [by rewrite <- app_assoc|]. split.
    + eapply lock_holds; eauto. eapply (inv_rows _ _ Hw _ r Rs). rewrite Er. set_solver.
    + rewrite countb_snoc. unfold flag, read. by rewrite Ht.
  - destruct Hq as [Hh ->]. destruct (Z.ltb_spec 1 (on_call (db w) (shift q))); simplify_eq.
    + destruct (take_row ReadCommitted snap i _ (db w)) as [d'| |] eqn:Et; simplify_eq; [|by apply take_row_read_committed in Et].
      destruct (take_row_goes _ _ _ _ _ _ Et) as (El & Ht & _).
      eapply doctors_go; eauto; [by intros; eapply lock_quiet|by rewrite Hp|by rewrite Hp|]. cbn [place_ok].
      split; [|split; [unfold on_call, flag, read; by rewrite Ht|done]]. intros r.
      rewrite (lock_row_takes _ _ _ _ El) by (apply read_some; by eapply inv_rows). destruct (decide (r = (shift q, doctor q))) as [->|Hne].
      * by rewrite lookup_insert_eq.
      * by rewrite lookup_insert_ne.
    + eapply doctors_go; eauto; [by rewrite Hp|by rewrite Hp|]. by cbn [place_ok].
  - simplify_eq. by eapply doctors_commit_step.
Qed.

Lemma everybody_lookup (shifts s : Z) (r : Z * Z) : 1 <= s <= shifts -> r ∈ rows_of s -> everybody shifts !! r = Some (true, 0%nat).
Proof.
  intros Hs Hr. unfold everybody. set (l := s ← seqZ 1 shifts; _).
  assert (Hl : forall x y, (x, y) ∈ l -> y = (true, 0%nat)).
  { intros x y Hin. apply list_elem_of_bind in Hin as (s' & Hin & _). apply list_elem_of_fmap in Hin as (x' & [= _ ->] & _). done. }
  assert (Hin : (r, (true, 0%nat)) ∈ l).
  { apply list_elem_of_bind. exists s. split; [|apply elem_of_seqZ; lia]. apply list_elem_of_fmap. by exists r. }
  destruct (list_to_map l !! r) as [y|] eqn:E.
  - apply elem_of_list_to_map_2, Hl in E. by subst.
  - exfalso. apply not_elem_of_list_to_map_2 in E. apply E, list_elem_of_fmap. by exists (r, (true, 0%nat)).
Qed.

Lemma doctors_start (shifts : Z) (l : list (Z * Z)) :
  Forall (fun r => 1 <= r.1 <= shifts /\ r.2 ∈ DOCTORS) l -> inv shifts (start shifts l).
Proof.
  intros Hl. constructor; cbn [db requests start].
  - intros i q Hi. apply list_lookup_fmap_Some in Hi as (r & -> & _). intros k. cbn. rewrite lookup_empty. set_solver.
  - apply Forall_fmap. eapply list.Forall_impl; [exact Hl|]. intros r [H1 H2]. by constructor.
  - intros s r Hs Hr. unfold read. cbn [table]. by rewrite (everybody_lookup shifts s).
  - intros s Hs. unfold on_call. rewrite (countb_ext _ (fun _ => true)); [done|].
    intros r Hr. unfold flag, read. cbn [table]. by rewrite (everybody_lookup shifts s).
Qed.

Lemma doctors_run (shifts : Z) (l : list (Z * Z)) (w : world) :
  Forall (fun r => 1 <= r.1 <= shifts /\ r.2 ∈ DOCTORS) l -> rtc (steps locking) (start shifts l) w -> inv shifts w.
Proof.
  intros Hl H. pose proof (doctors_start shifts l Hl) as Hw. revert Hw. induction H as [|x y z Hxy _ IH]; [done|]. intros Hw. apply IH.
  destruct Hxy as [i w w' E|]; [by eapply doctors_step|done].
Qed.

Lemma broken_none (shifts : Z) (w : world) : (forall s, 1 <= s <= shifts -> 1 <= on_call (db w) s) -> broken shifts w = 0.
Proof.
  intros H. unfold broken, countb. assert (E : forall l, (forall s, s ∈ l -> 1 <= on_call (db w) s) ->
    zsum ((fun s => bit (countb (fun r => default false (read (db w) r)) (rows_of s) =? 0)) <$> l) = 0).
  { induction l as [|s l IH]; intros Hl; [done|]. rewrite zsum_fmap_cons, IH by (intros; apply Hl; by apply list_elem_of_further).
    specialize (Hl s ltac:(by apply list_elem_of_here)). unfold on_call, flag in Hl.
    destruct (Z.eqb_spec (countb (fun r => default false (read (db w) r)) (rows_of s)) 0); [lia|done]. }
  apply E. intros s Hs. apply H. apply elem_of_seqZ in Hs. lia.
Qed.

(** *** One request alone *)

(** What a request does to the flags when nothing runs beside it. *)
Definition alone (r : Z * Z) (t : Z * Z -> bool) : Z * Z -> bool :=
  if 1 <? countb t (rows_of r.1) then fun x => if decide (x = r) then false else t x else t.

Definition serial (order : list (Z * Z)) (t : Z * Z -> bool) : Z * Z -> bool := fold_left (fun t r => alone r t) order t.

Definition mine (d : rows (Z * Z) bool) : Prop := forall r j, locks d !! r = Some j -> j = 0%nat.

Definition solo (s k : Z) (p : place) (d : rows (Z * Z) bool) : world := mkWorld d [mkRequest s k 0 p (mkCounters 0 0 0 0 0)].

Lemma take_row_alone (level : isolation) (r : Z * Z) (d : rows (Z * Z) bool) :
  mine d -> is_Some (table d !! r) ->
  exists d', take_row level (table d) 0 r d = Goes d' /\ table d' = table d /\ mine d'.
Proof.
  intros Hm Hr. destruct (lock_row 0 r d) as [d'|] eqn:E.
  - pose proof (lock_row_table _ _ _ _ E) as Ht. exists d'. split_and!; [|done|].
    + unfold take_row, changed. rewrite E, Ht, bool_decide_eq_false_2, andb_false_r by naive_solver. done.
    + intros r' j Hj. rewrite (lock_row_takes _ _ _ _ E Hr) in Hj. apply lookup_insert_Some in Hj as [[_ ->]|[_ Hj]]; [done|by eapply Hm].
  - destruct (lock_row_waits _ _ _ E) as (j & Hj & Hne). by apply Hm in Hj.
Qed.

Lemma solo_goes (v : variant) (s k : Z) (p p' : place) (d d' : rows (Z * Z) bool) :
  statement v 0 s k p d = Goes (p', d') -> (forall b own, p <> Committing b own) -> steps v (solo s k p d) (solo s k p' d').
Proof.
  intros E Hc. apply (steps_statement _ 0%nat). unfold step, solo. cbn. rewrite E. unfold advanced. cbn.
  destruct p as [| | |b own|]; try done. by destruct (Hc b own).
Qed.

Lemma solo_locks (v : variant) (s k : Z) (todo : list (Z * Z)) (n : Z) (d : rows (Z * Z) bool) :
  lock_reads v = true -> mine d -> (forall r, r ∈ todo -> is_Some (table d !! r)) ->
  exists d', rtc (steps v) (solo s k (Begun (table d) todo n) d) (solo s k (Begun (table d) [] (n + countb (flag d) todo)) d') /\
    table d' = table d /\ mine d'.
Proof.
  intros Hv. revert n d. induction todo as [|r todo IH]; intros n d Hm Hr.
  - exists d. split_and!; try done. replace (n + countb (flag d) []) with n by (change (countb (flag d) []) with 0; lia). constructor.
  - destruct (take_row_alone (isolation_of v) r d Hm) as (d1 & E & Ht & Hm1); [apply Hr; by apply list_elem_of_here|].
    destruct (IH (n + bit (flag d1 r)) d1 Hm1) as (d' & H & Ht' & Hm'); [intros x Hx; rewrite Ht; apply Hr; by apply list_elem_of_further|].
    rewrite Ht in H. exists d'. split_and!; try congruence; try done. eapply rtc_l; [|rewrite countb_cons].
    + eapply solo_goes; [|done]. cbn [statement]. rewrite Hv, E. reflexivity.
    + replace (n + (bit (flag d r) + countb (flag d) todo)) with (n + bit (flag d1 r) + countb (flag d1) todo); [exact H|].
      assert (Hf : forall x, flag d1 x = flag d x) by (intros x; unfold flag, read; by rewrite Ht).
      rewrite Hf, (countb_ext (flag d1) (flag d)) by done. lia.
Qed.

Lemma solo_counts (v : variant) (s k : Z) (d : rows (Z * Z) bool) :
  mine d -> (forall r, r ∈ rows_of s -> is_Some (table d !! r)) ->
  exists d', rtc (steps v) (solo s k Idle d) (solo s k (Counted (on_call d s) (table d)) d') /\ table d' = table d /\ mine d'.
Proof.
  intros Hm Hr. destruct (lock_reads v) eqn:Hv.
  - destruct (solo_locks v s k (rows_of s) 0 d Hv Hm Hr) as (d' & H & Ht & Hm'). exists d'. split_and!; try done.
    eapply rtc_l; [by eapply solo_goes|]. eapply rtc_r; [exact H|]. eapply solo_goes; [|done]. cbn [statement]. by rewrite Hv.
  - exists d. split_and!; try done. eapply rtc_l; [by eapply solo_goes|]. apply rtc_once. eapply solo_goes; [|done]. cbn [statement]. rewrite Hv. done.
Qed.

Lemma solo_runs (v : variant) (s k : Z) (d : rows (Z * Z) bool) :
  mine d -> k ∈ DOCTORS -> (forall r, r ∈ rows_of s -> is_Some (table d !! r)) ->
  exists w, rtc (steps v) (solo s k Idle d) w /\ Forall (fun q => at_ q = Over) (requests w) /\
    forall r, read (db w) r = (fun _ => alone (s, k) (flag d) r) <$> read d r.
Proof.
  intros Hm Hk Hr. destruct (solo_counts v s k d Hm Hr) as (d1 & H & Ht & Hm1).
  assert (Hin : (s, k) ∈ rows_of s) by (apply list_elem_of_fmap; by exists k).
  assert (Hread : forall r, read d1 r = read d r) by (intros r; unfold read; by rewrite Ht).
  assert (Hsame : forall r, read d r = (fun _ => flag d r) <$> read d r) by (intros r; unfold flag; by destruct (read d r)).
  unfold alone. cbn [fst]. change (countb (flag d) (rows_of s)) with (on_call d s). destruct (1 <? on_call d s) eqn:En.
  - destruct (take_row_alone (isolation_of v) (s, k) d1 Hm1) as (d2 & E & Ht2 & _); [rewrite Ht; by apply Hr|].
    eexists. split; [etrans; [exact H|]; eapply rtc_l; [|apply rtc_once]|].
    + eapply solo_goes; [|done]. cbn [statement]. rewrite En, <- Ht, E. reflexivity.
    + by apply (steps_statement _ 0%nat).
    + split; [by repeat constructor|]. intros r. cbn [db]. rewrite commit_read. change (db (solo s k _ d2)) with d2.
      assert (read d2 r = read d r) as Hd2 by (unfold read; by rewrite Ht2, Ht). rewrite Hd2.
      case_decide as Hr'; [subst r; rewrite lookup_singleton_eq; by destruct (read d (s, k))|].
      rewrite lookup_singleton_ne by congruence. unfold flag. by destruct (read d r).
  - eexists. split; [etrans; [exact H|]; eapply rtc_l; [|apply rtc_once]|].
    + eapply solo_goes; [|done]. cbn [statement]. by rewrite En.
    + by apply (steps_statement _ 0%nat).
    + split; [by repeat constructor|]. intros r. cbn [db]. rewrite commit_read_other by done. change (db (solo s k _ d1)) with d1. by rewrite Hread.
Qed.

Lemma alone_keeps (r : Z * Z) (t : Z * Z -> bool) (s : Z) :
  r.2 ∈ DOCTORS -> 1 <= countb t (rows_of s) -> 1 <= countb (alone r t) (rows_of s).
Proof.
  destruct r as [s' k]. intros Hk Ht. unfold alone. cbn [fst snd] in *. destruct (Z.ltb_spec 1 (countb t (rows_of s'))) as [Hn|]; [|done].
  revert Ht Hn. unfold rows_of, DOCTORS. cbn [fmap list_fmap]. rewrite !countb_cons. unfold countb. cbn [fmap list_fmap zsum foldr].
  assert (Hb : forall x, 0 <= bit (t x) <= 1) by (intros x; destruct (t x); cbn; lia).
  pose proof (Hb (s, 1)). pose proof (Hb (s, 2)). intros Ht Hn. destruct (Z.eqb_spec s' s) as [->|Hne].
  - repeat case_decide; cbn [bit]; try lia. simplify_eq.
  - rewrite !decide_False by congruence. lia.
Qed.

Lemma serial_keeps (order : list (Z * Z)) (t : Z * Z -> bool) (s : Z) :
  Forall (fun r => r.2 ∈ DOCTORS) order -> 1 <= countb t (rows_of s) -> 1 <= countb (serial order t) (rows_of s).
Proof. intros Ho. revert t. induction Ho as [|r o Hr _ IH]; intros t Ht; [done|]. cbn. apply IH. by apply alone_keeps. Qed.
End WriteSkewLemmas.

(** *** Schedules *)

(** The statements of the processes in [sched], in that order. *)
Fixpoint play {W : Type} (step : nat -> W -> option W) (sched : list nat) (w : W) : option W :=
  match sched with [] => Some w | i :: sched => w' ← step i w; play step sched w' end.

Lemma play_steps {W : Type} (step : nat -> W -> option W) (R : W -> W -> Prop) (sched : list nat) (w w' : W) :
  (forall i x y, step i x = Some y -> R x y) -> play step sched w = Some w' -> rtc R w w'.
Proof.
  intros HR. revert w. induction sched as [|i sched IH]; intros w E; cbn in E; [by simplify_eq|].
  destruct (step i w) as [x|] eqn:Ex; [|done]. eapply rtc_l; eauto.
Qed.

(** ** Properties *)

Section LostUpdates.
Import LostUpdate.

(** C14: Withdrawals: in every variant but the unlocked read-modify-write at READ COMMITTED
    no confirmed withdrawal is lost, whatever the interleaving: the balance is what the
    confirmed ones leave, it never goes below zero, each withdrawal is confirmed, declined
    or given up, and READ COMMITTED aborts nobody.  The unlocked variant can confirm twenty
    and take one. *)
Theorem no_update_lost (v : variant) (m n : nat) (w : world) :
  v ∈ drop 1 VARIANTS -> rtc (steps v) (start m n) w ->
  (final w = expected w /\ lost w = 0 /\ 0 <= final w /\
   total ok w + total declined w + total gave_up w + zsum ((fun q => Z.of_nat (left_ q)) <$> workers w) =
     Z.of_nat (length (workers w)) * Z.of_nat n /\
   total aborts w = total retries w + total gave_up w /\ (isolation_of v = ReadCommitted -> total aborts w = 0)) /\
  (exists u, rtc (steps (mkVariant ReadCommitted Rmw false)) (start 20 1) u /\
     total ok u = 20 /\ final u = START_BALANCE - AMOUNT /\ lost u = 19).
Proof.
  intros Hv H. split.
  - assert (Hs : LostUpdateLemmas.safe v = true) by (unfold VARIANTS in Hv; cbn in Hv; set_unfold in Hv; naive_solver).
    pose proof (LostUpdateLemmas.withdrawals_run v n m w Hs H) as Hw. pose proof (LostUpdateLemmas.inv_balance _ _ _ Hw) as Hb.
    pose proof (LostUpdateLemmas.inv_positive _ _ _ Hw). pose proof (LostUpdateLemmas.withdrawals_work_totals _ _ _ (LostUpdateLemmas.inv_work _ _ _ Hw)) as (T1 & T2 & T3).
    assert (Hf : final w = expected w) by (unfold final, expected; by rewrite Hb).
    split; [done|]. split; [unfold lost; by rewrite Hf, Z.sub_diag|]. unfold expected in Hf. split_and!; try done. lia.
  - destruct (play (step (mkVariant ReadCommitted Rmw false))
                (seq 0 20 ++ seq 0 20 ++ (i ← seq 0 20; [i; i])) (start 20 1)) as [u|] eqn:E; [|by vm_compute in E].
    exists u. split; [eapply play_steps; [|exact E]; intros i x y Hxy; by exists i|].
    vm_compute in E. injection E as <-. by vm_compute.
Qed.

Lemma no_update_lost_witness : lost (start 2 3) = 0 /\ exists u, total ok u = 20 /\ lost u = 19.
Proof.
  destruct (no_update_lost (mkVariant RepeatableRead Rmw false) 2 3 (start 2 3)) as [(_ & H & _) (u & _ & H1 & _ & H2)];
    [by vm_compute; right; left|by constructor|]. split; [exact H|]. by exists u.
Defined.

End LostUpdates.

Section WriteSkews.
Import WriteSkew WriteSkewLemmas.

(** C13: Doctors: when the count locks the rows it reads, every shift keeps somebody on
    call, whatever the requests and their interleaving, nobody is aborted, and a request
    writes or declines once.  Without the locks, at READ COMMITTED and at REPEATABLE READ,
    two doctors of one shift can both leave, and nobody is aborted. *)
Theorem on_call_kept (shifts : Z) (l : list (Z * Z)) (w : world) :
  Forall (fun r => 1 <= r.1 <= shifts /\ r.2 ∈ DOCTORS) l -> rtc (steps (mkVariant ReadCommitted true)) (start shifts l) w ->
  (broken shifts w = 0 /\
   Forall (fun q => aborts (its q) = 0 /\ wrote (its q) + declined (its q) = bit (is_over (at_ q))) (requests w)) /\
  (forall v, lock_reads v = false -> isolation_of v <> Serializable -> exists u, rtc (steps v) (start 1 [(1, 1); (1, 2)]) u /\
     broken 1 u = 1 /\ Forall (fun q => at_ q = Over /\ aborts (its q) = 0 /\ wrote (its q) = 1) (requests u)).
Proof.
  intros Hl H. split.
  - pose proof (doctors_run shifts l w Hl H) as Hw. split; [apply broken_none, Hw|].
    eapply list.Forall_impl; [apply (inv_requests _ _ Hw)|]. intros q [_ _ (Ha & _) Hr]. done.
  - intros [iso lk] Hlk Hiso. cbn in Hlk, Hiso. subst lk.
    assert (E : exists u, play (step (mkVariant iso false)) [0; 1; 0; 1; 0; 1; 0; 1]%nat (start 1 [(1, 1); (1, 2)]) = Some u /\
      broken 1 u = 1 /\ Forall (fun q => at_ q = Over /\ aborts (its q) = 0 /\ wrote (its q) = 1) (requests u)).
    { destruct iso; [| |done]; eexists; (split; [by vm_compute|]); (split; [by vm_compute|]); repeat constructor. }
    destruct E as (u & E & Hu). exists u. split; [|done]. eapply play_steps; [|exact E]. intros. by econstructor.
Qed.

Lemma on_call_kept_witness : broken 1 (start 1 [(1, 1); (1, 2)]) = 0 /\ exists u, broken 1 u = 1.
Proof.
  destruct (on_call_kept 1 [(1, 1); (1, 2)] (start 1 [(1, 1); (1, 2)])) as [[H _] Hu].
  - constructor; [split; [cbn; lia|apply list_elem_of_here]|constructor; [|constructor]].
    split; [cbn; lia|apply list_elem_of_further, list_elem_of_here].
  - by constructor.
  - split; [exact H|]. destruct (Hu (mkVariant RepeatableRead false) eq_refl ltac:(done)) as (u & _ & Hb & _). by exists u.
Defined.

(** A request that runs alone does the same at every level, with and without locks, and
    when the committed flags are those of some serial order of requests, which is what
    SERIALIZABLE promises, every shift keeps somebody on call. *)
Theorem serial_order_keeps (shifts : Z) (order : list (Z * Z)) (w : world) :
  Forall (fun r => r.2 ∈ DOCTORS) order ->
  (forall s r, 1 <= s <= shifts -> r ∈ rows_of s -> read (db w) r = Some (serial order (fun _ => true) r)) ->
  broken shifts w = 0 /\
  (forall v s k d, (forall r j, locks d !! r = Some j -> j = 0%nat) -> k ∈ DOCTORS -> (forall r, r ∈ rows_of s -> is_Some (table d !! r)) ->
   exists u, rtc (steps v) (mkWorld d [mkRequest s k 0 Idle (mkCounters 0 0 0 0 0)]) u /\
     Forall (fun q => at_ q = Over) (requests u) /\
     forall r, read (db u) r = (fun _ => alone (s, k) (fun x => default false (read d x)) r) <$> read d r).
Proof.
  intros Ho Hw. split; [|intros v s k d; apply solo_runs]. apply broken_none. intros s Hs. unfold on_call.
  rewrite (countb_ext _ (serial order (fun _ => true))); [by apply serial_keeps|].
  intros r Hr. unfold flag. by rewrite (Hw s r Hs Hr).
Qed.

Lemma serial_order_keeps_witness : broken 1 (start 1 []) = 0.
Proof.
  apply (serial_order_keeps 1 [] (start 1 [])); [constructor|]. intros s r Hs Hr. unfold read. cbn [db table start].
  by rewrite (everybody_lookup 1 s).
Defined.

End WriteSkews.
