(* ===== verification/CpuBudget.v ===== *)
(** * Machine layer: a CPU budget in user space

    Models [CpuBudget] and [CpuStat] of
    src/01-machine/07-inside-a-container/00-harness/local/cfs_sim.py, with the threads that
    spend from it and wait on its condition; not the hashing that burns CPU, nor the texts.

    Time is in whole microseconds.  An event is what one thread does while it holds the
    lock: a spend or a park up to its [wait], what follows a [wait], a refill, the exit.
    Which thread is next, what it has burnt and how long it waited are inputs. *)

From Stdlib Require Import ZArith Lia.
From stdpp Require Import base option list numbers.
From S2P Require Import Prelude.

Open Scope Z_scope.

(** ** Definitions *)

Definition DEFAULT_PERIOD_US : Z := 100000.

Record CpuStat : Type := mkStat {
  usage_usec : Z;
  nr_periods : Z;
  nr_throttled : Z;
  throttled_usec : Z;
  nr_bursts : Z;
  burst_usec : Z;
}.

(** [quota_us]: [None] is no ceiling at all. *)
Record CpuBudget : Type := mkBudget {
  quota_us : option Z;
  burst_us : Z;
  stat : CpuStat;
  bank : Z;
  allowance : Z;
  balance : Z;
  throttled_this_period : bool;
  stop : bool;
}.

Definition new_budget (quota : option Z) (burst : Z) : CpuBudget :=
  mkBudget quota burst (mkStat 0 0 0 0 0 0) 0 (default 0 quota) (default 0 quota) false false.

Definition on_stat (f : CpuStat -> CpuStat) (b : CpuBudget) : CpuBudget :=
  mkBudget (quota_us b) (burst_us b) (f (stat b)) (bank b) (allowance b) (balance b) (throttled_this_period b) (stop b).

Definition add_usage (micros : Z) (s : CpuStat) : CpuStat :=
  mkStat (usage_usec s + micros) (nr_periods s) (nr_throttled s) (throttled_usec s) (nr_bursts s) (burst_usec s).
Definition add_throttled (micros : Z) (s : CpuStat) : CpuStat :=
  mkStat (usage_usec s) (nr_periods s) (nr_throttled s) (throttled_usec s + micros) (nr_bursts s) (burst_usec s).

Definition take (micros : Z) (b : CpuBudget) : CpuBudget :=
  mkBudget (quota_us b) (burst_us b) (add_usage micros (stat b)) (bank b) (allowance b) (balance b - micros)
    (throttled_this_period b) (stop b).

Definition mark_throttled (b : CpuBudget) : CpuBudget :=
  mkBudget (quota_us b) (burst_us b) (stat b) (bank b) (allowance b) (balance b) true (stop b).

(** The condition of the two [while] loops. *)
Definition empty (b : CpuBudget) : bool := (balance b <=? 0) && negb (stop b).

(** Where a thread is: outside, waiting in [spend], waiting in [park_if_throttled]. *)
Inductive place : Type := Running | Frozen | Parked.

(** The head of the loop of [spend]. *)
Definition freeze (b : CpuBudget) : place * CpuBudget :=
  if empty b then (Frozen, mark_throttled b) else (Running, b).

Definition spend (micros : Z) (b : CpuBudget) : place * CpuBudget :=
  match quota_us b with
  | None => (Running, on_stat (add_usage micros) b)
  | Some _ => freeze (take micros b)
  end.

Definition park_if_throttled (b : CpuBudget) : place :=
  match quota_us b with
  | None => Running
  | Some _ => if 0 <? balance b then Running else if empty b then Parked else Running
  end.

(** After a [wait] of [elapsed]. *)
Definition wake (p : place) (elapsed : Z) (b : CpuBudget) : place * CpuBudget :=
  match p with
  | Frozen => freeze (on_stat (add_throttled elapsed) b)
  | Parked => (if empty b then Parked else Running, b)
  | Running => (Running, b)
  end.

Definition used (b : CpuBudget) : Z := allowance b - Z.max 0 (balance b).

Definition _close_period (quota : Z) (b : CpuBudget) : CpuBudget :=
  let over := Z.max 0 (used b - quota) in
  let under := Z.max 0 (quota - used b) in
  let s := stat b in
  let s := mkStat (usage_usec s) (nr_periods s + 1) (if throttled_this_period b then nr_throttled s + 1 else nr_throttled s)
             (throttled_usec s) (if 0 <? over then nr_bursts s + 1 else nr_bursts s) (if 0 <? over then burst_usec s + over else burst_usec s) in
  mkBudget (quota_us b) (burst_us b) s (Z.max 0 (Z.min (burst_us b) (bank b + under - over))) (allowance b) (balance b)
    (throttled_this_period b) (stop b).

Definition _open_period (quota : Z) (b : CpuBudget) : CpuBudget :=
  mkBudget (quota_us b) (burst_us b) (stat b) (bank b) (quota + bank b) (quota + bank b) false (stop b).

(** A turn of [_refill_loop], which only runs under a quota. *)
Definition refill (b : CpuBudget) : CpuBudget :=
  match quota_us b with
  | Some quota => if stop b then b else _open_period quota (_close_period quota b)
  | None => b
  end.

Definition exit (b : CpuBudget) : CpuBudget :=
  mkBudget (quota_us b) (burst_us b) (stat b) (bank b) (allowance b) (balance b) (throttled_this_period b) true.

Record world : Type := mkWorld { budget : CpuBudget; threads : list place }.

Inductive event : Type :=
| Spends (i : nat) (micros : Z)
| Parks (i : nat)
| Wakes (i : nat) (elapsed : Z)
| Refills
| Exits.

Definition step (e : event) (w : world) : world :=
  match e with
  | Spends i micros =>
      match threads w !! i with
      | Some Running => let '(p, b) := spend micros (budget w) in mkWorld b (<[i := p]> (threads w))
      | _ => w
      end
  | Parks i =>
      match threads w !! i with
      | Some Running => mkWorld (budget w) (<[i := park_if_throttled (budget w)]> (threads w))
      | _ => w
      end
  | Wakes i elapsed =>
      match threads w !! i with
      | Some p => let '(p, b) := wake p elapsed (budget w) in mkWorld b (<[i := p]> (threads w))
      | None => w
      end
  | Refills => mkWorld (refill (budget w)) (threads w)
  | Exits => mkWorld (exit (budget w)) (threads w)
  end.

Definition start (quota : option Z) (burst : Z) (n : nat) : world := mkWorld (new_budget quota burst) (replicate n Running).

Definition run (es : list event) (w : world) : world := fold_left (fun w e => step e w) es w.

(** ** Lemmas *)

#[local] Arguments countb : simpl never.

Definition is_frozen (p : place) : bool := match p with Frozen => true | _ => false end.

(** Slices are at most [c] long, and none is negative. *)
Definition event_ok (c : Z) (e : event) : Prop :=
  match e with Spends _ micros => 0 <= micros <= c | Wakes _ elapsed => 0 <= elapsed | Exits => False | _ => True end.

Record sound (quota burst c : Z) (n : nat) (w : world) : Prop := {
  s_quota : quota_us (budget w) = Some quota /\ burst_us (budget w) = burst /\ stop (budget w) = false;
  s_bank : 0 <= bank (budget w) <= burst;
  s_allowance : allowance (budget w) = quota + bank (budget w);
  s_balance : balance (budget w) <= allowance (budget w);
  s_threads : length (threads w) = n;
  s_debt : balance (budget w) <= 0 -> - balance (budget w) <= c * countb is_frozen (threads w);
  s_throttled : 0 <= nr_throttled (stat (budget w)) <= nr_periods (stat (budget w));
  s_usage : usage_usec (stat (budget w)) + bank (budget w) <=
    nr_periods (stat (budget w)) * (quota + c * Z.of_nat n) + (allowance (budget w) - balance (budget w));
  s_bursts : 0 <= nr_bursts (stat (budget w)) <= nr_periods (stat (budget w)) /\
    0 <= burst_usec (stat (budget w)) <= nr_bursts (stat (budget w)) * burst }.

Lemma sound_start (quota burst c : Z) (n : nat) : 0 < quota -> 0 <= burst -> 0 <= c -> sound quota burst c n (start (Some quota) burst n).
Proof.
  intros Hq Hb Hc. constructor; cbn; try lia; [done|by rewrite length_replicate].
Qed.

Lemma frozen_insert (l : list place) (i : nat) (p q : place) :
  l !! i = Some p -> countb is_frozen (<[i := q]> l) = countb is_frozen l + (bit (is_frozen q) - bit (is_frozen p)).
Proof. apply countb_insert. Qed.

Lemma debt_bound (quota burst c : Z) (n : nat) (w : world) :
  0 <= c -> sound quota burst c n w -> Z.max 0 (- balance (budget w)) <= c * Z.of_nat n.
Proof.
  intros Hc Hw. pose proof (countb_length is_frozen (threads w)) as Hl. rewrite (s_threads _ _ _ _ _ Hw) in Hl.
  pose proof (Z.mul_le_mono_nonneg_l _ _ c Hc Hl). pose proof (s_debt _ _ _ _ _ Hw). nia.
Qed.

(** A spend: whoever finds the budget empty freezes, so a debt belongs to frozen threads. *)
Lemma spend_sound (quota burst c : Z) (n i : nat) (micros : Z) (w : world) :
  0 <= c -> 0 <= micros <= c -> sound quota burst c n w -> threads w !! i = Some Running ->
  sound quota burst c n (mkWorld (spend micros (budget w)).2 (<[i := (spend micros (budget w)).1]> (threads w))).
Proof.
  intros Hc Hm [(S1 & S2 & S3) S4 S5 S6 S7 S8 S9 S10 S11] Hi. unfold spend, freeze, empty. rewrite S1. cbn [take balance stop].
  rewrite S3, andb_true_r. destruct (Z.leb_spec (balance (budget w) - micros) 0) as [Hz|Hz]; cbn [fst snd];
    constructor; cbn; try lia; rewrite ?length_insert, ?(frozen_insert _ _ _ _ Hi); cbn [is_frozen bit]; try done; try lia.
  destruct (Z.le_gt_cases (balance (budget w)) 0) as [Hb|Hb]; [specialize (S8 Hb); lia|].
  pose proof (countb_nonneg is_frozen (threads w)). nia.
Qed.

Lemma park_sound (quota burst c : Z) (n i : nat) (w : world) :
  sound quota burst c n w -> threads w !! i = Some Running ->
  sound quota burst c n (mkWorld (budget w) (<[i := park_if_throttled (budget w)]> (threads w))).
Proof.
  intros [S1 S4 S5 S6 S7 S8 S9 S10 S11] Hi.
  assert (is_frozen (park_if_throttled (budget w)) = false) as Hf by (unfold park_if_throttled; repeat case_match; done).
  constructor; cbn; rewrite ?length_insert, ?(frozen_insert _ _ _ _ Hi), ?Hf; cbn [is_frozen bit]; try done. by rewrite Z.add_0_r.
Qed.

Lemma wake_sound (quota burst c : Z) (n i : nat) (p : place) (elapsed : Z) (w : world) :
  0 <= c -> sound quota burst c n w -> threads w !! i = Some p ->
  sound quota burst c n (mkWorld (wake p elapsed (budget w)).2 (<[i := (wake p elapsed (budget w)).1]> (threads w))).
Proof.
  intros Hc [(S1 & S2 & S3) S4 S5 S6 S7 S8 S9 S10 S11] Hi. unfold wake, freeze, empty. destruct p; cbn [on_stat balance stop]; rewrite ?S3, ?andb_true_r;
    try destruct (Z.leb_spec (balance (budget w)) 0); cbn [fst snd];
    constructor; cbn; rewrite ?length_insert, ?(frozen_insert _ _ _ _ Hi); cbn [is_frozen bit]; try done; lia.
Qed.

(** The refill pays for what was used, forgives what was overspent, and banks the rest. *)
Lemma refill_sound (quota burst c : Z) (n : nat) (w : world) :
  0 < quota -> 0 <= burst -> 0 <= c -> sound quota burst c n w -> sound quota burst c n (mkWorld (refill (budget w)) (threads w)).
Proof.
  intros Hq Hb Hc Hw. pose proof (debt_bound _ _ _ _ _ Hc Hw) as Hd. destruct Hw as [(S1 & S2 & S3) S4 S5 S6 S7 S8 S9 S10 S11].
  assert (Hu : used (budget w) <= allowance (budget w)) by (unfold used; lia).
  assert (Hbank : 0 <= bank (_close_period quota (budget w)) <= burst /\
    bank (_close_period quota (budget w)) <= bank (budget w) + quota - used (budget w)) by (cbn; rewrite S2; lia).
  unfold refill. rewrite S1, S3. unfold used in *. set (b := _close_period quota (budget w)) in *.
  constructor; cbn [budget threads _open_period quota_us burst_us stop bank allowance balance stat]; try done; try lia.
  - unfold b. cbn [_close_period stat nr_throttled nr_periods]. destruct (throttled_this_period (budget w)); lia.
  - unfold b at 1 3. cbn [_close_period stat usage_usec nr_periods]. lia.
  - unfold b. cbn [_close_period stat nr_bursts nr_periods burst_usec]. unfold used.
    destruct (Z.ltb_spec 0 (Z.max 0 (allowance (budget w) - Z.max 0 (balance (budget w)) - quota))); lia.
Qed.

Lemma step_sound (quota burst c : Z) (n : nat) (e : event) (w : world) :
  0 < quota -> 0 <= burst -> 0 <= c -> event_ok c e -> sound quota burst c n w -> sound quota burst c n (step e w).
Proof.
  intros Hq Hb Hc He Hw. destruct e as [i micros|i|i elapsed| |]; cbn [step event_ok] in *; [| | | |done].
  - destruct (threads w !! i) as [[]|] eqn:Hi; try done. pose proof (spend_sound _ _ _ _ i micros _ Hc He Hw Hi) as H. by destruct (spend micros (budget w)).
  - destruct (threads w !! i) as [[]|] eqn:Hi; try done. by apply park_sound.
  - destruct (threads w !! i) as [p|] eqn:Hi; [|done]. pose proof (wake_sound _ _ _ _ i p elapsed _ Hc Hw Hi) as H. by destruct (wake p elapsed (budget w)).
  - by apply refill_sound.
Qed.

Lemma run_sound (quota burst c : Z) (n : nat) (es : list event) (w : world) :
  0 < quota -> 0 <= burst -> 0 <= c -> Forall (event_ok c) es -> sound quota burst c n w -> sound quota burst c n (run es w).
Proof.
  intros Hq Hb Hc He. revert w. induction He as [|e es He _ IH]; intros w Hw; [done|]. apply IH. by apply step_sound.
Qed.

(** Three threads in the middle of a slice when a fourth has all but emptied the budget. *)
Definition overspend (c : Z) : list event :=
  [Spends 0 9; Spends 1 c; Spends 2 c; Spends 3 c; Refills; Wakes 1 1; Wakes 2 1; Wakes 3 1].

#[local] Abbreviation ten s bal thr l := (mkWorld (mkBudget (Some 10) 0 s 0 10 bal thr false) l).

(** A spend that empties the budget of ten. *)
Lemma spends_last (i : nat) (c bal : Z) (s : CpuStat) (thr : bool) (l : list place) :
  l !! i = Some Running -> bal - c <= 0 ->
  step (Spends i c) (ten s bal thr l) = ten (add_usage c s) (bal - c) true (<[i := Frozen]> l).
Proof.
  intros Hi Hb. cbn [step threads budget]. rewrite Hi. unfold spend, freeze, empty, take. cbn [quota_us balance stop].
  rewrite (proj2 (Z.leb_le _ _) Hb). reflexivity.
Qed.

Lemma refills_ten (bal : Z) (s : CpuStat) (thr : bool) (l : list place) :
  bal <= 0 -> exists s', step Refills (ten s bal thr l) = ten s' 10 false l /\ usage_usec s' = usage_usec s /\ nr_periods s' = nr_periods s + 1.
Proof.
  intros Hb. cbn [step threads budget]. unfold refill, _open_period, _close_period, used. cbn [quota_us burst_us stat bank allowance balance throttled_this_period stop].
  rewrite (Z.max_l 0 bal) by lia. eexists. split; [reflexivity|]. split; reflexivity.
Qed.

Lemma wakes_running (i : nat) (elapsed bal : Z) (s : CpuStat) (l : list place) :
  l !! i = Some Frozen -> 0 < bal ->
  step (Wakes i elapsed) (ten s bal false l) = ten (add_throttled elapsed s) bal false (<[i := Running]> l).
Proof.
  intros Hi Hb. cbn [step threads budget]. rewrite Hi. unfold wake, freeze, empty. cbn [on_stat balance stop].
  rewrite (proj2 (Z.leb_gt _ _) Hb). reflexivity.
Qed.

Lemma overspend_once (c : Z) (s : CpuStat) :
  0 < c -> exists s', run (overspend c) (ten s 10 false (replicate 4 Running)) = ten s' 10 false (replicate 4 Running) /\
    usage_usec s' = usage_usec s + (9 + 3 * c) /\ nr_periods s' = nr_periods s + 1.
Proof.
  intros Hc. unfold run, overspend. cbn [fold_left].
  replace (step (Spends 0 9) _) with (ten (add_usage 9 s) 1 false (replicate 4 Running)) by reflexivity.
  rewrite !spends_last by (reflexivity || lia).
  destruct (refills_ten (1 - c - c - c) (add_usage c (add_usage c (add_usage c (add_usage 9 s)))) true [Running; Frozen; Frozen; Frozen] ltac:(lia))
    as (s' & E & U & P).
  change (<[3%nat := Frozen]> _) with [Running; Frozen; Frozen; Frozen]. rewrite E, !wakes_running by (reflexivity || lia).
  eexists. split; [reflexivity|]. cbn. rewrite U, P. cbn. lia.
Qed.

Lemma budget_run_app (es fs : list event) (w : world) : run (es ++ fs) w = run fs (run es w).
Proof. apply fold_left_app. Qed.

Lemma overspend_for_ever (c : Z) (m : nat) (s : CpuStat) :
  0 < c -> exists s', run (concat (replicate m (overspend c))) (mkWorld (mkBudget (Some 10) 0 s 0 10 10 false false) (replicate 4 Running)) =
      mkWorld (mkBudget (Some 10) 0 s' 0 10 10 false false) (replicate 4 Running) /\
    usage_usec s' = usage_usec s + Z.of_nat m * (9 + 3 * c) /\ nr_periods s' = nr_periods s + Z.of_nat m.
Proof.
  intros Hc. revert s. induction m as [|m IH]; intros s; [exists s; cbn; split; [done|lia]|].
  destruct (overspend_once c s Hc) as (s1 & E & U & P). destruct (IH s1) as (s2 & E2 & U2 & P2).
  exists s2. change (concat (replicate (S m) (overspend c))) with (overspend c ++ concat (replicate m (overspend c))).
  rewrite budget_run_app, E, E2. split; [done|lia].
Qed.

(** ** Properties *)

(** C30: The budget: until the exit, with [n] threads and slices of at most [c], the usage
    after [p] refills is at most [p + 1] quotas, each with one slice per thread on top, and
    the bank stays within the burst; no more periods are throttled or bursts than there
    were; while the budget is empty a thread that waits goes on waiting.  What is overspent
    is never paid back: three slices over a quota of ten in every period, for ever. *)
Theorem cpu_bandwidth (quota burst c : Z) (n : nat) (es : list event) :
  0 < quota -> 0 <= burst -> 0 <= c -> Forall (event_ok c) es ->
  let w := run es (start (Some quota) burst n) in
  let s := stat (budget w) in
  usage_usec s <= (nr_periods s + 1) * (quota + c * Z.of_nat n) /\
  0 <= bank (budget w) <= burst /\ quota <= allowance (budget w) <= quota + burst /\
  0 <= nr_throttled s <= nr_periods s /\ 0 <= burst_usec s <= nr_bursts s * burst /\
  (forall i p elapsed, balance (budget w) <= 0 -> threads w !! i = Some p -> p <> Running ->
     threads (step (Wakes i elapsed) w) = threads w) /\
  (forall m, let u := run (concat (replicate m (overspend c))) (start (Some 10) 0 4) in
     0 < c -> usage_usec (stat (budget u)) = Z.of_nat m * (9 + 3 * c) /\ nr_periods (stat (budget u)) = Z.of_nat m).
Proof.
  intros Hq Hb Hc He. cbn zeta. pose proof (run_sound _ _ _ _ _ _ Hq Hb Hc He (sound_start _ _ _ n Hq Hb Hc)) as Hw.
  set (w := run es _) in *. clearbody w. pose proof (debt_bound _ _ _ _ _ Hc Hw) as Hd. destruct Hw as [(S1 & S2 & S3) S4 S5 S6 S7 S8 S9 S10 S11].
  split; [lia|]. split; [lia|]. split; [lia|]. split; [lia|]. split; [lia|]. split.
  - intros i p elapsed Hz Hi Hp. cbn [step]. rewrite Hi. unfold wake, freeze, empty. destruct p; [done| |]; cbn [on_stat balance stop];
      rewrite S3, andb_true_r; destruct (Z.leb_spec (balance (budget w)) 0); try lia; cbn [threads]; by apply list_insert_id.
  - intros m Hc'. destruct (overspend_for_ever c m (mkStat 0 0 0 0 0 0) Hc') as (s' & E & U & P).
    change (start (Some 10) 0 4) with (ten (mkStat 0 0 0 0 0 0) 10 false (replicate 4 Running)). rewrite E. cbn [budget stat]. split; [exact U|exact P].
Qed.

Lemma cpu_bandwidth_witness :
  let s := stat (budget (run [Spends 0 100; Refills; Wakes 0 7] (start (Some 100) 50 2))) in
  usage_usec s = 100 /\ usage_usec s <= (nr_periods s + 1) * (100 + 100 * Z.of_nat 2).
Proof.
  split; [reflexivity|]. apply (cpu_bandwidth 100 50 100 2 [Spends 0 100; Refills; Wakes 0 7]); [lia..|].
  repeat constructor; cbn; lia.
Defined.
