(* ===== verification/KeyRace.v ===== *)
(** * Failure layer: the idempotency race

    Models src/05-failure/07-idempotency-and-degradation-decided-in-advance/python/idempotency.py:
    the three handlers of [Server], the pool of connections they share and the counts; not
    the barrier, the latencies, the session trap and the degradation demo.

    A request runs from one point where others may run to the next: it has got a connection
    and begun, its [SELECT] or [INSERT] has gone through, its charge is inserted, its
    transaction has committed.  A transaction's rows show at its commit (its last [UPDATE]
    and the commit are one stretch); an [INSERT] of a key that an open transaction has
    inserted waits for it; the ids of [charges] are taken at the [INSERT] and never given
    back.  Any request may die at any point, by an error of the database or the pool or with
    its process, which rolls its transaction back.  Time is the database's, in microseconds;
    the fingerprint of a body is a parameter. *)

From Stdlib Require Import ZArith Lia.
From stdpp Require Import base option list numbers strings gmap relations.
From S2P Require Import Prelude.

Open Scope Z_scope.

(** ** Definitions *)

Definition CONCURRENCY : nat := 50.

(** The dict of [_do_work], whose ["status"] is always ["succeeded"]. *)
Record payload : Type := mkPayload { charge_id : Z; r_amount : Z; r_currency : string }.

Inductive key_state : Type := InProgress | Completed.

(** A row of [idempotency_keys], of [idempotency_keys_naive], and of [charges]. *)
Record key_row : Type := mkRow { fp : string; state : key_state; response : option payload; expires_at : Z }.
Record naive_row : Type := mkNaive { n_key : string; n_state : key_state; n_response : option payload }.
Record charge : Type := mkCharge { ch_id : Z; idem_key : string; amount_cents : Z; currency : string }.

(** The committed rows, the sequence of [charges], and the keys of open transactions. *)
Record tables : Type := mkTables {
  keys : gmap string key_row;
  keys_naive : list naive_row;
  charges : list charge;
  next_charge : Z;
  reserved : gmap string nat;
}.

Definition no_rows : tables := mkTables ∅ [] [] 1 ∅.

Definition set_keys (f : gmap string key_row -> gmap string key_row) (d : tables) : tables :=
  mkTables (f (keys d)) (keys_naive d) (charges d) (next_charge d) (reserved d).
Definition set_naive (f : list naive_row -> list naive_row) (d : tables) : tables :=
  mkTables (keys d) (f (keys_naive d)) (charges d) (next_charge d) (reserved d).
Definition add_charge (c : charge) (d : tables) : tables :=
  mkTables (keys d) (keys_naive d) (charges d ++ [c]) (next_charge d) (reserved d).
Definition reserve (k : string) (i : nat) (d : tables) : tables :=
  mkTables (keys d) (keys_naive d) (charges d) (next_charge d) (<[k := i]> (reserved d)).
Definition unreserve (i : nat) (d : tables) : tables :=
  mkTables (keys d) (keys_naive d) (charges d) (next_charge d) (filter (fun p => p.2 <> i) (reserved d)).
(** [nextval] of the sequence. *)
Definition take_id (d : tables) : tables :=
  mkTables (keys d) (keys_naive d) (charges d) (next_charge d + 1) (reserved d).

Inductive handler : Type := Naive | Correct | SingleTxn.

(** [Response], an exception of the handler itself, and any other end. *)
Inductive answer : Type :=
| Replied (p : option payload) (replayed : bool)
| Conflict
| Mismatch
| Raised
| Died.

Definition status (a : answer) : option Z :=
  match a with Replied _ _ => Some 200 | Conflict => Some 409 | Mismatch => Some 422 | Raised | Died => None end.

(** Before its first statement; [Naive] past its [SELECT], which found a row or not; the
    others in a transaction that began at [now]; [Correct] past a claim that won, until
    when, or lost; [SingleTxn] past an [INSERT] that went in, or not.  [id] is the charge
    the open transaction has inserted. *)
Inductive place : Type :=
| Arrived
| Selected (found : bool) (id : option Z)
| Begun (now : Z)
| Claimed (until : Z) (id : option Z)
| Refused
| Inserted (now : Z) (id : option Z)
| Beaten
| Answered (a : answer).

(** Whether the request has one of the pool's connections, and whether it is done. *)
Definition has_connection (p : place) : bool :=
  match p with Selected _ _ | Begun _ | Claimed _ (Some _) | Inserted _ _ | Beaten => true | _ => false end.
Definition is_over (p : place) : bool := match p with Answered _ => true | _ => false end.

Section Server.
Context {Body : Type} (fingerprint : Body -> string) (amount_of : Body -> Z) (currency_of : Body -> string).

(** The row [_do_work] inserts and what it returns. *)
Definition new_charge (id : Z) (k : string) (b : Body) : charge := mkCharge id k (amount_of b) (currency_of b).
Definition payload_of (c : charge) : payload := mkPayload (ch_id c) (amount_cents c) (currency c).

(** A handler from its place on: the next place, the tables, and the free connections;
    [None] when it has to wait or is over. *)
Definition outcome : Type := option (place * tables * nat).

(** *** [charge_naive] *)

(** The [SELECT], and what is done with the row. *)
Definition naive_select (k : string) (d : tables) : place :=
  match List.find (fun r => bool_decide (n_key r = k)) (keys_naive d) with
  | None => Selected false None
  | Some r =>
      match n_state r with
      | Completed => Answered (Replied (n_response r) true)
      | InProgress => Selected true None
      end
  end.

(** [UPDATE .. SET state = 'completed', response = :p WHERE key = :k]. *)
Definition complete_naive (k : string) (p : payload) (rows : list naive_row) : list naive_row :=
  (fun r => if decide (n_key r = k) then mkNaive k Completed (Some p) else r) <$> rows.

Definition charge_naive (k : string) (b : Body) (p : place) (d : tables) (free : nat) : outcome :=
  match p with
  | Arrived =>
      if (free =? 0)%nat then None
      else
        match naive_select k d with
        | Answered a => Some (Answered a, d, free)
        | p => Some (p, d, pred free)
        end
  | Selected found None => Some (Selected found (Some (next_charge d)), take_id d, free)
  | Selected found (Some id) =>
      let c := new_charge id k b in
      let rows := if found then keys_naive d else keys_naive d ++ [mkNaive k InProgress None] in
      Some (Answered (Replied (Some (payload_of c)) false),
            set_naive (fun _ => complete_naive k (payload_of c) rows) (add_charge c d), S free)
  | _ => None
  end.

(** *** [charge_correct] *)

(** The claim: [INSERT .. ON CONFLICT DO UPDATE .. WHERE .. RETURNING]. *)
Definition claimable (f : string) (now : Z) (row : option key_row) : bool :=
  match row with
  | None => true
  | Some r =>
      match state r with
      | InProgress => (expires_at r <? now) && bool_decide (fp r = f)
      | Completed => false
      end
  end.

Definition claimed_row (f : string) (until : Z) (row : option key_row) : key_row :=
  match row with
  | None => mkRow f InProgress None until
  | Some r => mkRow (fp r) InProgress (response r) until
  end.

Definition complete (p : payload) (r : key_row) : key_row := mkRow (fp r) Completed (Some p) (expires_at r).

(** The answer from the row that was there first; [none] when there is none. *)
Definition replay_or (none : answer) (f : string) (row : option key_row) : answer :=
  match row with
  | None => none
  | Some r =>
      if bool_decide (fp r = f)
      then
        match state r with
        | Completed => Replied (response r) true
        | InProgress => Conflict
        end
      else Mismatch
  end.
Definition replay_or_conflict : string -> option key_row -> answer := replay_or Conflict.

Definition charge_correct (ttl now : Z) (crash_after_claim : bool) (k : string) (b : Body)
    (p : place) (d : tables) (free : nat) : outcome :=
  let f := fingerprint b in
  match p with
  | Arrived => if (free =? 0)%nat then None else Some (Begun now, d, pred free)
  | Begun now =>
      match reserved d !! k with
      | Some _ => None
      | None =>
          let row := keys d !! k in
          if claimable f now row
          then Some (if crash_after_claim then Answered Raised else Claimed (now + ttl) None,
                     set_keys <[k := claimed_row f (now + ttl) row]> d, S free)
          else Some (Refused, d, S free)
      end
  | Refused => if (free =? 0)%nat then None else Some (Answered (replay_or_conflict f (keys d !! k)), d, free)
  | Claimed until None => if (free =? 0)%nat then None else Some (Claimed until (Some (next_charge d)), take_id d, pred free)
  | Claimed until (Some id) =>
      let c := new_charge id k b in
      Some (Answered (Replied (Some (payload_of c)) false),
            set_keys (alter (complete (payload_of c)) k) (add_charge c d), S free)
  | _ => None
  end.

(** *** [charge_correct_single_txn]; reading a row that is not there raises *)

Definition charge_correct_single_txn (ttl now : Z) (i : nat) (k : string) (b : Body)
    (p : place) (d : tables) (free : nat) : outcome :=
  let f := fingerprint b in
  match p with
  | Arrived => if (free =? 0)%nat then None else Some (Begun now, d, pred free)
  | Begun now =>
      match reserved d !! k with
      | Some _ => None
      | None =>
          match keys d !! k with
          | Some _ => Some (Beaten, d, free)
          | None => Some (Inserted now None, reserve k i d, free)
          end
      end
  | Inserted now None => Some (Inserted now (Some (next_charge d)), take_id d, free)
  | Inserted now (Some id) =>
      let c := new_charge id k b in
      Some (Answered (Replied (Some (payload_of c)) false),
            set_keys <[k := complete (payload_of c) (mkRow f InProgress None (now + ttl))]> (add_charge c (unreserve i d)), S free)
  | Beaten => Some (Answered (replay_or Raised f (keys d !! k)), d, S free)
  | _ => None
  end.

(** *** The server *)

Record request : Type := mkRequest { how : handler; key : string; body : Body; at_ : place }.

(** [free]: connections of the pool nobody has; [crash_after_claim]: the flag of the server. *)
Record world : Type := mkWorld {
  db : tables;
  clock : Z;
  free : nat;
  crash_after_claim : bool;
  requests : list request;
}.

Definition go (p : place) (q : request) : request := mkRequest (how q) (key q) (body q) p.

Definition handle (ttl : Z) (i : nat) (q : request) (w : world) : outcome :=
  match how q with
  | Naive => charge_naive (key q) (body q) (at_ q) (db w) (free w)
  | Correct => charge_correct ttl (clock w) (crash_after_claim w) (key q) (body q) (at_ q) (db w) (free w)
  | SingleTxn => charge_correct_single_txn ttl (clock w) i (key q) (body q) (at_ q) (db w) (free w)
  end.

Definition put (i : nat) (q : request) (d : tables) (conns : nat) (w : world) : world :=
  mkWorld d (clock w) conns (crash_after_claim w) (<[i := q]> (requests w)).

(** The next stretch of request [i]. *)
Definition turn (ttl : Z) (i : nat) (w : world) : option world :=
  q ← requests w !! i;
  o ← handle ttl i q w;
  let '(p, d, conns) := o in
  Some (put i (go p q) d conns w).

(** Request [i] dies; its connection goes back. *)
Definition die (i : nat) (q : request) (w : world) : world :=
  put i (go (Answered Died) q) (unreserve i (db w)) (if has_connection (at_ q) then S (free w) else free w) w.

Definition arrive (h : handler) (k : string) (b : Body) (w : world) : world :=
  mkWorld (db w) (clock w) (free w) (crash_after_claim w) (requests w ++ [mkRequest h k b Arrived]).

Definition at_time (t : Z) (w : world) : world := mkWorld (db w) t (free w) (crash_after_claim w) (requests w).
Definition crashing (c : bool) (w : world) : world := mkWorld (db w) (clock w) (free w) c (requests w).

(** [served] are the handlers that requests are sent to. *)
Inductive step (ttl : Z) (served : handler -> Prop) (w : world) : world -> Prop :=
| step_turn i w' : turn ttl i w = Some w' -> step ttl served w w'
| step_die i q : requests w !! i = Some q -> is_over (at_ q) = false -> step ttl served w (die i q w)
| step_tick t : clock w <= t -> step ttl served w (at_time t w)
| step_crash c : step ttl served w (crashing c w)
| step_arrive h k b : served h -> step ttl served w (arrive h k b w).

(** No claim has been outlived by its holder. *)
Definition timely (w : world) : Prop :=
  forall i q until id, requests w !! i = Some q -> at_ q = Claimed until id -> clock w <= until.
Definition timely_step (ttl : Z) (served : handler -> Prop) (w w' : world) : Prop := step ttl served w w' /\ timely w'.

Definition start (pool_size : nat) : world := mkWorld no_rows 0 pool_size false [].

(** [counts]. *)
Definition charges_for (k : string) (d : tables) : list charge :=
  List.filter (fun c => bool_decide (idem_key c = k)) (charges d).
Definition is_orphaned (now : Z) (r : key_row) : bool :=
  match state r with InProgress => now <? expires_at r | Completed => false end.
Definition is_expired (now : Z) (r : key_row) : bool :=
  match state r with InProgress => expires_at r <=? now | Completed => false end.
Record tally : Type := mkTally { n_charges : nat; orphaned : nat; expired : nat }.
Definition counts (k : string) (w : world) : tally :=
  let rows := snd <$> map_to_list (keys (db w)) in
  mkTally (length (charges_for k (db w)))
    (length (List.filter (is_orphaned (clock w)) rows)) (length (List.filter (is_expired (clock w)) rows)).

(** A schedule of turns; a request that cannot move is passed over. *)
Definition play (ttl : Z) (l : list nat) (w : world) : world :=
  foldl (fun w i => default w (turn ttl i w)) w l.

(** [fire_together] of [n] requests with one key and body. *)
Definition fire_together (h : handler) (k : string) (b : Body) (n : nat) (w : world) : world :=
  Nat.iter n (arrive h k b) w.

End Server.

#[global] Arguments request : clear implicits.
#[global] Arguments world : clear implicits.

(** ** Proofs *)

Section Proofs.
Context {Body : Type} (fingerprint : Body -> string) (amount_of : Body -> Z) (currency_of : Body -> string).
Context (ttl : Z) (served : handler -> Prop) (n : nat).
#[local] Abbreviation world := (world Body).
#[local] Abbreviation request := (request Body).
#[local] Abbreviation steps := (step fingerprint amount_of currency_of ttl).
#[local] Abbreviation turns := (turn fingerprint amount_of currency_of ttl).
#[local] Abbreviation charge_of := (new_charge amount_of currency_of).

(** *** Steps *)

(** What a turn did. *)
Lemma turn_put (i : nat) (w w' : world) :
  turns i w = Some w' ->
  exists q p d conns, requests w !! i = Some q /\
    handle fingerprint amount_of currency_of ttl i q w = Some (p, d, conns) /\ w' = put i (go p q) d conns w.
Proof.
  unfold turn. intros H. apply bind_Some in H as (q & Hq & H).
  apply bind_Some in H as ([[p d] conns] & Ho & [= <-]). eauto 10.
Qed.

(** An invariant that the empty world has and each step keeps. *)
Lemma runs_keep (P : world -> Prop) :
  P (start n) -> (forall w w', P w -> steps served w w' -> P w') -> forall w, rtc (steps served) (start n) w -> P w.
Proof. intros H0 HS w Hr. revert H0. induction Hr; eauto. Qed.

(** Case analysis on the handler and the place of a request that moves. *)
Ltac handle_cases H :=
  unfold handle, charge_naive, naive_select, charge_correct, charge_correct_single_txn in H;
  repeat case_match; simplify_eq; to_props; cbn [db clock free crash_after_claim requests] in *.

(** *** The pool *)

Definition pool (w : world) : Prop := Z.of_nat (free w) + countb (fun q => has_connection (at_ q)) (requests w) = Z.of_nat n.

Lemma handle_pool (i : nat) (q : request) (w : world) (p : place) (d : tables) (conns : nat) :
  handle fingerprint amount_of currency_of ttl i q w = Some (p, d, conns) ->
  Z.of_nat conns + bit (has_connection p) = Z.of_nat (free w) + bit (has_connection (at_ q)).
Proof.
  intros H. handle_cases H; rewrite ?Nat.eqb_neq in *; unfold bit; cbn [has_connection] in *; simplify_eq; try lia.
Qed.

Lemma step_pool (w w' : world) : pool w -> steps served w w' -> pool w'.
Proof.
  unfold pool. intros HP [i w1 H|i q Hq Ho|t Ht|c|h k b Hh]; cbn [free requests at_time crashing arrive die put]; try done.
  - apply turn_put in H as (q & p & d & conns & Hq & H & ->). cbn [free requests put].
    rewrite (countb_insert _ _ _ _ _ Hq). pose proof (handle_pool _ _ _ _ _ _ H). cbn [at_ go]. lia.
  - rewrite (countb_insert _ _ _ _ _ Hq). cbn [at_ go has_connection]. unfold bit. destruct (has_connection (at_ q)); lia.
  - rewrite countb_snoc. cbn [at_ has_connection]. unfold bit. lia.
Qed.

Lemma run_pool (w : world) : rtc (steps served) (start n) w -> pool w.
Proof. apply runs_keep; [|apply step_pool]. unfold pool. cbn. lia. Qed.

(** *** [charge_naive] *)

(** The requests past the [SELECT] for [k]. *)
Definition selecting (k : string) (q : request) : bool :=
  bool_decide (key q = k) && match at_ q with Selected _ _ => true | _ => false end.

Record naive_books (k : string) (w : world) : Prop := {
  nb_rows : forall r, r ∈ keys_naive (db w) -> n_state r = Completed;
  nb_found : charges_for k (db w) <> [] -> exists r, r ∈ keys_naive (db w) /\ n_key r = k;
  nb_bound : Z.of_nat (length (charges_for k (db w))) + countb (selecting k) (requests w) <= Z.of_nat n;
}.

Lemma naive_select_spec (k : string) (d : tables) (p : place) :
  naive_select k d = p -> (forall r, r ∈ keys_naive d -> n_state r = Completed) ->
  (p = Selected false None /\ forall r, r ∈ keys_naive d -> n_key r <> k) \/ exists a, p = Answered a.
Proof.
  unfold naive_select. intros <- Hr. destruct (List.find _ _) as [r|] eqn:E.
  - apply List.find_some in E as [Hin _]. apply list_elem_of_In in Hin. rewrite (Hr r Hin). eauto.
  - left. split; [done|]. intros r Hin Hk. apply list_elem_of_In in Hin.
    pose proof (List.find_none _ _ E r Hin) as Hn. by apply bool_decide_eq_false in Hn.
Qed.

Lemma complete_naive_rows (k : string) (p : payload) (rows : list naive_row) (r : naive_row) :
  r ∈ complete_naive k p rows -> n_state r = Completed \/ r ∈ rows /\ n_key r <> k.
Proof.
  unfold complete_naive. intros H. apply list_elem_of_fmap in H as (r0 & -> & H0).
  destruct (decide (n_key r0 = k)); [by left|by right].
Qed.

Lemma complete_naive_key (k : string) (p : payload) (rows : list naive_row) (r : naive_row) :
  r ∈ rows -> exists r', r' ∈ complete_naive k p rows /\ n_key r' = n_key r.
Proof.
  intros H. eexists. split; [apply list_elem_of_fmap; eauto|]. destruct (decide _) as [<-|]; done.
Qed.

Lemma charges_for_add (k : string) (c : charge) (d : tables) :
  charges_for k (add_charge c d) = charges_for k d ++ (if bool_decide (idem_key c = k) then [c] else []).
Proof. unfold charges_for, add_charge. cbn [charges]. rewrite List.filter_app. simpl. done. Qed.

Lemma charges_for_set_naive (k : string) (f : list naive_row -> list naive_row) (d : tables) :
  charges_for k (set_naive f d) = charges_for k d.
Proof. done. Qed.

Definition naive_place (q : request) : Prop := how q = Naive /\ forall id, at_ q <> Selected true id.

Definition naive_world (k : string) (w : world) : Prop :=
  pool w /\ Forall naive_place (requests w) /\ naive_books k w.

Lemma naive_turn (k : string) (i : nat) (q : request) (w : world) (p : place) (d : tables) (conns : nat) :
  naive_world k w -> requests w !! i = Some q ->
  charge_naive amount_of currency_of (key q) (body q) (at_ q) (db w) (free w) = Some (p, d, conns) ->
  naive_place (go p q) /\ naive_books k (put i (go p q) d conns w).
Proof.
  intros (HP & HQ & [HR HF HB]) Hq H. pose proof (Forall_lookup_1 _ _ _ _ HQ Hq) as [Hhow Hsel].
  assert (Hle : countb (selecting k) (requests w) <= countb (fun q => has_connection (at_ q)) (requests w)).
  { apply countb_le. unfold selecting. intros x [_ Hx]%andb_true_iff. by destruct (at_ x). }
  unfold pool in HP. unfold charge_naive in H. destruct (at_ q) as [|found [id|]| | | | | |] eqn:Hat; try done.
  - destruct (free w =? 0)%nat eqn:Hf; [done|]. apply Nat.eqb_neq in Hf.
    destruct (naive_select_spec (key q) (db w) _ eq_refl HR) as [[E Hno]|[a E]]; rewrite E in H; injection H as <- <- <-;
      (split; [by split|]); constructor; cbn [db put]; try done;
      cbn [requests put]; rewrite (countb_insert _ _ _ _ _ Hq); unfold selecting at 2 3; rewrite Hat; cbn [go key at_];
      rewrite ?andb_false_r, ?andb_true_r; unfold bit; [|lia].
    destruct (bool_decide (key q = k)) eqn:Ek; [|lia]. apply bool_decide_eq_true in Ek as <-.
    destruct (charges_for (key q) (db w)) eqn:Ec; [|destruct (HF ltac:(done)) as (r & Hr & Hk); by destruct (Hno r Hr)].
    cbn [length]. lia.
  - injection H as <- <- <-. destruct found; [by destruct (Hsel (Some id))|]. split; [by split|].
    constructor; cbn [db put set_naive add_charge keys_naive].
    + intros r Hr. apply complete_naive_rows in Hr as [Hr|[Hr Hk]]; [done|].
      apply elem_of_app in Hr as [Hr|Hr]; [by apply HR|]. apply list_elem_of_singleton in Hr as ->. done.
    + rewrite charges_for_set_naive, charges_for_add. cbn [idem_key new_charge]. intros Hc.
      assert (exists r, r ∈ keys_naive (db w) ++ [mkNaive (key q) InProgress None] /\ n_key r = k) as (r & Hr & <-).
      { destruct (decide (key q = k)) as [<-|Hk]; [eexists; split; [apply elem_of_app; right; by left|done]|].
        rewrite bool_decide_eq_false_2, app_nil_r in Hc by done. destruct (HF Hc) as (r & Hr & E).
        exists r. split; [apply elem_of_app; by left|done]. }
      by apply complete_naive_key.
    + rewrite charges_for_set_naive, charges_for_add, length_app. cbn [requests put].
      rewrite (countb_insert _ _ _ _ _ Hq). unfold selecting at 2 3. rewrite Hat. cbn [go key at_ idem_key new_charge].
      rewrite andb_false_r, andb_true_r. unfold bit. destruct (bool_decide (key q = k)); cbn [length]; lia.
  - injection H as <- <- <-. split; [split; [done|intros id [= -> _]; by destruct (Hsel None)]|].
    constructor; cbn [db put]; try done.
    cbn [requests put]. rewrite (countb_insert _ _ _ _ _ Hq). unfold selecting at 2 3. rewrite Hat. cbn [go key at_].
    change (charges_for k (take_id (db w))) with (charges_for k (db w)). lia.
Qed.

Lemma naive_step (k : string) (w w' : world) :
  (forall h, served h -> h = Naive) -> naive_world k w -> steps served w w' -> naive_world k w'.
Proof.
  intros Hs HW HS. destruct (HW) as (HP & HQ & [HR HF HB]). split; [by eapply step_pool|].
  destruct HS as [i w1 H|i q Hq Ho|t Ht|c|h k0 b Hh]; try (by split).
  - apply turn_put in H as (q & p & d & conns & Hq & H & ->).
    pose proof (Forall_lookup_1 _ _ _ _ HQ Hq) as [Hhow _]. unfold handle in H. rewrite Hhow in H.
    destruct (naive_turn k _ _ _ _ _ _ HW Hq H) as [Hp Hb]. split; [by apply Forall_insert|done].
  - pose proof (Forall_lookup_1 _ _ _ _ HQ Hq) as [Hhow _].
    split; [by apply Forall_insert|]. constructor; try done. cbn [die put db requests].
    rewrite (countb_insert _ _ _ _ _ Hq). unfold selecting at 2. cbn [go at_]. rewrite andb_false_r.
    change (charges_for k (unreserve i (db w))) with (charges_for k (db w)). unfold bit. destruct (selecting k q); lia.
  - split; [apply Forall_app; split; [done|]; apply Forall_singleton; split; [by apply Hs|done]|].
    constructor; try done. cbn [arrive requests db]. rewrite countb_snoc. unfold selecting at 2. cbn [at_].
    rewrite andb_false_r. unfold bit. lia.
Qed.

(** *** The invariant of the handlers that claim *)

#[local] Abbreviation payload_for id k b := (payload_of (charge_of id k b)).

(** The row of [k] against the charges for it. *)
Definition key_ok (k : string) (d : tables) : Prop :=
  match keys d !! k with
  | None => charges_for k d = []
  | Some r =>
      match state r with
      | InProgress => charges_for k d = []
      | Completed => exists b id, fp r = fingerprint b /\ charges_for k d = [charge_of id k b] /\ response r = Some (payload_for id k b)
      end
  end.

(** What each place of request [i] says of the row and the index entry of its key. *)
Definition place_ok (now : Z) (i : nat) (q : request) (d : tables) : Prop :=
  let row := keys d !! key q in
  let f := fingerprint (body q) in
  match how q, at_ q with
  | Naive, _ | _, Selected _ _ => False
  | _, Arrived => True
  | _, Begun began => began <= now
  | Correct, Claimed until _ => exists r, row = Some r /\ state r = InProgress /\ fp r = f /\ expires_at r = until
  | Correct, Refused | SingleTxn, Beaten => is_Some row
  | SingleTxn, Inserted _ _ => reserved d !! key q = Some i /\ row = None
  | _, Answered (Replied p _) => exists r, row = Some r /\ state r = Completed /\ fp r = f /\ response r = p
  | _, Answered Mismatch => exists r, row = Some r /\ fp r <> f
  | SingleTxn, Answered Raised => False
  | _, Answered _ => True
  | _, _ => False
  end.

(** A request with a claim, or with the index entry of its key. *)
Definition holds (p : place) : bool := match p with Claimed _ _ | Inserted _ _ => true | _ => false end.

Record kept (w : world) : Prop := {
  kp_keys : forall k, key_ok k (db w);
  kp_places : forall i q, requests w !! i = Some q -> place_ok (clock w) i q (db w);
  kp_reserved : forall k i, reserved (db w) !! k = Some i ->
    exists q now id, requests w !! i = Some q /\ key q = k /\ at_ q = Inserted now id;
  kp_unique : forall i j q q', requests w !! i = Some q -> requests w !! j = Some q' ->
    key q = key q' -> holds (at_ q) = true -> holds (at_ q') = true -> i = j;
}.

(** No other request holds the key of [q]. *)
Definition alone (i : nat) (q : request) (w : world) : Prop :=
  forall j q', j <> i -> requests w !! j = Some q' -> key q' = key q -> holds (at_ q') = false.

Lemma alone_holder (i : nat) (q : request) (w : world) :
  kept w -> requests w !! i = Some q -> holds (at_ q) = true -> alone i q w.
Proof.
  intros HK Hq Hh j q' Hj Hq' Hk. apply not_true_is_false. intros Hh'.
  by destruct Hj; eapply (kp_unique w HK).
Qed.

Lemma alone_free (i : nat) (q : request) (w : world) :
  kept w -> timely w -> reserved (db w) !! key q = None ->
  (forall r, keys (db w) !! key q = Some r -> state r = InProgress -> expires_at r < clock w) -> alone i q w.
Proof.
  intros HK HT Hres Hrow j q' Hj Hq' Hk. pose proof (kp_places w HK j q' Hq') as Hp. unfold place_ok in Hp. rewrite Hk in Hp.
  destruct (at_ q') as [| | |until id| |now id| |] eqn:Hat; try done; destruct (how q'); try done.
  - destruct Hp as (r & Hr & Hs & _ & <-). pose proof (HT _ _ _ _ Hq' Hat). specialize (Hrow r Hr Hs). lia.
  - destruct Hp as [Hp _]. congruence.
Qed.

(** A row keeps its fingerprint, and when completed does not change. *)
Definition row_grows (row row' : option key_row) : Prop :=
  forall r, row = Some r -> exists r', row' = Some r' /\ fp r' = fp r /\ (state r = Completed -> r' = r).

Lemma row_grows_same (row : option key_row) : row_grows row row.
Proof. intros r Hr. eauto. Qed.

(** The entries of the other requests stay. *)
Definition others_keep (i : nat) (d d' : tables) : Prop :=
  forall k j, j <> i -> reserved d' !! k = Some j <-> reserved d !! k = Some j.

Lemma place_ok_grows (now now' : Z) (j : nat) (q : request) (d d' : tables) :
  place_ok now j q d -> now <= now' -> row_grows (keys d !! key q) (keys d' !! key q) ->
  (reserved d !! key q = Some j -> reserved d' !! key q = Some j) ->
  (keys d' !! key q = keys d !! key q \/ holds (at_ q) = false) -> place_ok now' j q d'.
Proof.
  unfold place_ok. intros H Hn HG HR Hrow.
  destruct (how q), (at_ q) as [| | | | | | |[p rep| | | |]]; try done; try lia;
    try (destruct Hrow as [->|]; [|done]; naive_solver);
    try (destruct H as (r & Hr & H); destruct (HG r Hr) as (r' & -> & Hf & Hc)).
  all: try (destruct H as (Hs & Hf' & Hp); rewrite (Hc Hs); naive_solver).
  all: try (eexists; split; [done|]; congruence).
  all: destruct H as [r Hr]; destruct (HG r Hr) as (r' & -> & _); done.
Qed.

(** Request [i] moves and touches its own key only. *)
Lemma kept_put (i : nat) (q : request) (p : place) (d : tables) (conns : nat) (w : world) :
  kept w -> requests w !! i = Some q ->
  (forall k, k <> key q -> keys d !! k = keys (db w) !! k /\ charges_for k d = charges_for k (db w)) ->
  key_ok (key q) d -> row_grows (keys (db w) !! key q) (keys d !! key q) -> others_keep i (db w) d ->
  (forall k, reserved d !! k = Some i -> k = key q /\ exists now id, p = Inserted now id) ->
  place_ok (clock w) i (go p q) d ->
  (keys d !! key q = keys (db w) !! key q \/ alone i q w) -> (holds p = true -> alone i q w) ->
  kept (put i (go p q) d conns w).
Proof.
  intros HK Hq Helse Hkey HG Hres Hown Hp Hrow Hal. pose proof HK as [HKk HKp HKr HKu].
  pose proof (lookup_lt_Some _ _ _ Hq) as Hlt. constructor; cbn [put db requests clock].
  - intros k. destruct (decide (k = key q)) as [->|Hk]; [done|]. specialize (HKk k).
    unfold key_ok in *. destruct (Helse k Hk) as [-> ->]. done.
  - intros j q' Hj. apply list_lookup_insert_Some in Hj as [(<- & <- & _)|(Hne & Hj)]; [done|].
    pose proof (HKp j q' Hj) as Hold. destruct (decide (key q' = key q)) as [Hk|Hk].
    + eapply place_ok_grows; [exact Hold|done|by rewrite Hk|by apply Hres|].
      destruct Hrow as [Hr|Ha]; [left; by rewrite Hk|right; by eapply Ha].
    + destruct (Helse _ Hk) as [Hr _].
      eapply place_ok_grows; [exact Hold|done|rewrite Hr; apply row_grows_same|by apply Hres|by left].
  - intros k j Hj. destruct (decide (j = i)) as [->|Hne].
    + destruct (Hown k Hj) as (-> & now & id & ->). rewrite list_lookup_insert_eq by done. eauto 10.
    + rewrite list_lookup_insert_ne by done. apply HKr. by apply Hres in Hj.
  - intros a b qa qb Ha Hb Hk Hha Hhb.
    apply list_lookup_insert_Some in Ha as [(<- & <- & _)|(Hna & Ha)],
      Hb as [(<- & <- & _)|(Hnb & Hb)]; [done| | |by eapply HKu]; exfalso.
    + pose proof (Hal Hha b qb ltac:(done) Hb (eq_sym Hk)). congruence.
    + pose proof (Hal Hhb a qa ltac:(done) Ha Hk). congruence.
Qed.

(** [i] moves and touches no row. *)
Lemma kept_go (i : nat) (q : request) (p : place) (d : tables) (conns : nat) (w : world) :
  kept w -> requests w !! i = Some q -> keys d = keys (db w) -> charges d = charges (db w) -> others_keep i (db w) d ->
  (forall k, reserved d !! k = Some i -> k = key q /\ exists now id, p = Inserted now id) ->
  place_ok (clock w) i (go p q) d -> (holds p = true -> alone i q w) -> kept (put i (go p q) d conns w).
Proof.
  intros HK Hq Hkeys Hch Hres Hown Hp Hal. apply kept_put; try done; unfold charges_for in *; rewrite ?Hkeys, ?Hch; try done.
  - pose proof (kp_keys w HK (key q)) as H. unfold key_ok, charges_for in *. by rewrite Hkeys, Hch.
  - apply row_grows_same.
  - by left.
Qed.

(** Where a request has no entry of the index, [kp_reserved] says so. *)
Lemma no_entry (i : nat) (q : request) (w : world) (k : string) :
  kept w -> requests w !! i = Some q -> (forall now id, at_ q <> Inserted now id) -> reserved (db w) !! k <> Some i.
Proof. intros HK Hq Hn Hr. destruct (kp_reserved w HK k i Hr) as (q' & now & id & Hq' & _ & Hat). simplify_eq. by eapply Hn. Qed.

Lemma unreserve_lookup (i : nat) (d : tables) (k : string) (j : nat) :
  reserved (unreserve i d) !! k = Some j <-> reserved d !! k = Some j /\ j <> i.
Proof. unfold unreserve. cbn [reserved]. by rewrite map_lookup_filter_Some. Qed.

Lemma unreserve_keeps (i : nat) (d : tables) : others_keep i d (unreserve i d).
Proof. intros k j Hj. rewrite unreserve_lookup. naive_solver. Qed.

Lemma others_keep_refl (i : nat) (d : tables) : others_keep i d d.
Proof. done. Qed.

(** Answering from the row that was there first. *)
Lemma replay_ok (now : Z) (i : nat) (q : request) (d : tables) (none : answer) :
  how q <> Naive -> is_Some (keys d !! key q) ->
  place_ok now i (go (Answered (replay_or none (fingerprint (body q)) (keys d !! key q))) q) d.
Proof.
  intros Hh [r Hr]. unfold place_ok. cbn [how go at_ key body]. rewrite Hr. cbn [replay_or].
  case_bool_decide as Hf; [destruct (state r) eqn:Es|]; destruct (how q); naive_solver.
Qed.

Lemma claimable_inv (f : string) (now : Z) (row : option key_row) :
  claimable f now row = true -> forall r, row = Some r -> state r = InProgress /\ expires_at r < now /\ fp r = f.
Proof.
  intros H r ->. cbn in H. destruct (state r); [|done]. to_props. split_ands; [done|done|by eapply bool_decide_eq_true].
Qed.

(** The claim that wins. *)
Lemma claim_kept (i : nat) (q : request) (p : place) (began : Z) (conns : nat) (w : world) :
  kept w -> timely w -> requests w !! i = Some q -> how q = Correct -> at_ q = Begun began ->
  reserved (db w) !! key q = None -> claimable (fingerprint (body q)) began (keys (db w) !! key q) = true ->
  p = Answered Raised \/ p = Claimed (began + ttl) None ->
  kept (put i (go p q)
         (set_keys <[key q := claimed_row (fingerprint (body q)) (began + ttl) (keys (db w) !! key q)]> (db w)) conns w).
Proof.
  intros HK HT Hq Hh Hat Hres Hcl Hp. pose proof (kp_places w HK i q Hq) as Hb. unfold place_ok in Hb. rewrite Hh, Hat in Hb.
  assert (Hal : alone i q w).
  { apply alone_free; try done. intros r Hr Hs. destruct (claimable_inv _ _ _ Hcl r Hr) as (_ & He & _). lia. }
  pose proof (kp_keys w HK (key q)) as Hk. unfold key_ok in Hk. pose proof (claimable_inv _ _ _ Hcl) as Hinv.
  set (row := keys (db w) !! key q) in *. set (row' := claimed_row _ _ row).
  assert (Hrow' : state row' = InProgress /\ fp row' = fingerprint (body q) /\ expires_at row' = began + ttl).
  { unfold row'. destruct row as [r|]; [|done]. by destruct (Hinv r eq_refl) as (_ & _ & Hf). }
  destruct Hrow' as (Hs' & Hf' & He'). apply kept_put; try done; cbn [set_keys keys reserved].
  - intros k Hne. by rewrite lookup_insert_ne.
  - unfold key_ok. cbn [set_keys keys]. rewrite lookup_insert_eq, Hs'.
    destruct row as [r|]; [|done]. by destruct (Hinv r eq_refl) as (Hs & _); rewrite Hs in Hk.
  - intros r Hr. rewrite lookup_insert_eq. eexists. split; [done|]. destruct (Hinv r Hr) as (Hs & _ & Hf).
    rewrite Hs. by split; [congruence|].
  - intros k Hr. exfalso. eapply (no_entry i q w k); try done. intros. by rewrite Hat.
  - destruct Hp as [-> | ->]; unfold place_ok; cbn [how go at_ key body set_keys keys]; rewrite Hh; [done|].
    rewrite lookup_insert_eq. eauto 10.
  - by right.
Qed.

(** The commit of a charge by the request that holds the key, the row being [r]. *)
Lemma commit_kept (i : nat) (q : request) (ch : Z) (d : tables) (r : key_row) (conns : nat) (w : world) :
  kept w -> requests w !! i = Some q -> how q <> Naive -> alone i q w -> fp r = fingerprint (body q) ->
  charges_for (key q) (db w) = [] -> (forall r0, keys (db w) !! key q = Some r0 -> state r0 = InProgress /\ fp r0 = fp r) ->
  keys d = <[key q := complete (payload_for ch (key q) (body q)) r]> (keys (db w)) ->
  charges d = charges (db w) ++ [charge_of ch (key q) (body q)] ->
  others_keep i (db w) d -> (forall k, reserved d !! k <> Some i) ->
  kept (put i (go (Answered (Replied (Some (payload_for ch (key q) (body q))) false)) q) d conns w).
Proof.
  intros HK Hq Hh Hal Hf Hc Hr0 Hkeys Hch Hres Hown.
  assert (Hcf : forall k, charges_for k d = charges_for k (db w) ++ (if bool_decide (key q = k) then [charge_of ch (key q) (body q)] else [])).
  { intros k. unfold charges_for. rewrite Hch, List.filter_app. done. }
  apply kept_put; try done; try by right.
  - intros k Hne. rewrite Hkeys, lookup_insert_ne, Hcf, bool_decide_eq_false_2, app_nil_r by congruence. done.
  - unfold key_ok. rewrite Hkeys, lookup_insert_eq, Hcf, Hc, bool_decide_eq_true_2 by done. cbn. eauto.
  - intros r0 Hr. destruct (Hr0 r0 Hr) as [Hs Hfp]. rewrite Hkeys, lookup_insert_eq. eexists. split; [done|].
    cbn. split; congruence.
  - intros k Hk. by destruct (Hown k).
  - unfold place_ok. cbn [how go at_ key body]. rewrite Hkeys, lookup_insert_eq.
    destruct (how q); [done| |]; eexists; (split; [done|]); cbn; done.
Qed.

Lemma alter_present {A} (f : A -> A) (k : string) (m : gmap string A) (x : A) :
  m !! k = Some x -> alter f k m = <[k := f x]> m.
Proof.
  intros H. apply map_eq. intros j. destruct (decide (k = j)) as [<-|Hj].
  - by rewrite lookup_alter_eq, lookup_insert_eq, H.
  - by rewrite lookup_alter_ne, lookup_insert_ne.
Qed.

Lemma correct_turn (i : nat) (q : request) (w : world) (p : place) (d : tables) (conns : nat) :
  kept w -> timely w -> requests w !! i = Some q -> how q = Correct ->
  charge_correct fingerprint amount_of currency_of ttl (clock w) (crash_after_claim w) (key q) (body q) (at_ q) (db w) (free w)
    = Some (p, d, conns) -> kept (put i (go p q) d conns w).
Proof.
  intros HK HT Hq Hh H. pose proof (kp_places w HK i q Hq) as Hp. unfold place_ok in Hp. rewrite Hh in Hp.
  assert (Hno : (forall now id, at_ q <> Inserted now id) -> forall k, reserved (db w) !! k <> Some i).
  { intros Hat k. by eapply no_entry. }
  unfold charge_correct in H. destruct (at_ q) as [| |began|until id| | | |] eqn:Hat; try done; specialize (Hno ltac:(done)).
  - case_match; simplify_eq. apply kept_go; try done; [intros k Hk; by destruct (Hno k)|].
    unfold place_ok. cbn [how go at_]. by rewrite Hh.
  - destruct (reserved (db w) !! key q) eqn:Hres; [done|].
    destruct (claimable _ _ _) eqn:Hcl; simplify_eq.
    + eapply claim_kept; try done. destruct (crash_after_claim w); auto.
    + apply kept_go; try done; [intros k Hk; by destruct (Hno k)|].
      unfold place_ok. cbn [how go at_ key]. rewrite Hh. by destruct (keys (db w) !! key q).
  - destruct Hp as (r & Hr & Hs & Hf & He).
    assert (Hal : alone i q w) by (apply alone_holder; [done|done|by rewrite Hat]).
    pose proof (kp_keys w HK (key q)) as Hk. unfold key_ok in Hk. rewrite Hr, Hs in Hk.
    destruct id as [ch|].
    + simplify_eq. eapply (commit_kept i q ch _ r); try done; [by rewrite Hh| |].
      * intros r0 Hr0. by simplify_eq.
      * cbn [set_keys add_charge keys]. by apply alter_present.
    + destruct (free w =? 0)%nat; simplify_eq. apply kept_go; try done; [intros k Hk'; by destruct (Hno k)|].
      unfold place_ok. cbn [how go at_ key body]. rewrite Hh. eauto 10.
  - case_match; simplify_eq. apply kept_go; try done; [intros k Hk; by destruct (Hno k)|].
    apply replay_ok; [by rewrite Hh|done].
Qed.

Lemma single_turn (i : nat) (q : request) (w : world) (p : place) (d : tables) (conns : nat) :
  kept w -> timely w -> requests w !! i = Some q -> how q = SingleTxn ->
  charge_correct_single_txn fingerprint amount_of currency_of ttl (clock w) i (key q) (body q) (at_ q) (db w) (free w)
    = Some (p, d, conns) -> kept (put i (go p q) d conns w).
Proof.
  intros HK HT Hq Hh H. pose proof (kp_places w HK i q Hq) as Hp. unfold place_ok in Hp. rewrite Hh in Hp.
  pose proof (fun Hat k => no_entry i q w k HK Hq Hat) as Hno.
  unfold charge_correct_single_txn in H. destruct (at_ q) as [| |began| | |now id| |] eqn:Hat; try done.
  - case_match; simplify_eq. apply kept_go; try done; [intros k Hk; by destruct (Hno ltac:(done) k)|].
    unfold place_ok. cbn [how go at_]. by rewrite Hh.
  - destruct (reserved (db w) !! key q) eqn:Hres; [done|]. destruct (keys (db w) !! key q) as [r|] eqn:Hr; simplify_eq.
    + apply kept_go; try done; [intros k Hk; by destruct (Hno ltac:(done) k)|].
      unfold place_ok. cbn [how go at_ key]. by rewrite Hh, Hr.
    + apply kept_go; try done; cbn [reserve reserved].
      * intros k j Hj. cbn [reserve reserved]. rewrite lookup_insert_Some. naive_solver.
      * intros k [[<- _]|[_ Hk]]%lookup_insert_Some; [eauto|]. by destruct (Hno ltac:(done) k).
      * unfold place_ok. cbn [how go at_ key reserve reserved keys]. rewrite Hh. by rewrite lookup_insert_eq.
      * intros _. apply alone_free; try done. congruence.
  - destruct Hp as [Hres Hr].
    assert (Hal : alone i q w) by (apply alone_holder; [done|done|by rewrite Hat]).
    pose proof (kp_keys w HK (key q)) as Hk. unfold key_ok in Hk. rewrite Hr in Hk.
    destruct id as [ch|]; simplify_eq.
    + eapply (commit_kept i q ch _ (mkRow (fingerprint (body q)) InProgress None (now + ttl))); try done; [by rewrite Hh| | |].
      * intros r0 Hr0. congruence.
      * apply unreserve_keeps.
      * intros k Hk'. by apply unreserve_lookup in Hk' as [_ []].
    + apply kept_go; try done.
      * intros k Hk'. destruct (kp_reserved w HK k i Hk') as (q' & now' & id' & Hq' & Hk'' & _). simplify_eq. eauto.
      * unfold place_ok. cbn [how go at_ key]. by rewrite Hh.
  - simplify_eq. apply kept_go; try done; [intros k Hk; by destruct (Hno ltac:(done) k)|].
    apply replay_ok; [by rewrite Hh|done].
Qed.

Lemma kept_step (w w' : world) :
  (forall h, served h -> h <> Naive) -> kept w -> timely w -> steps served w w' -> kept w'.
Proof.
  intros Hs HK HT [i w1 H|i q Hq Ho|t Ht|c|h k b Hh]; [| | |by destruct HK|].
  - apply turn_put in H as (q & p & d & conns & Hq & H & ->). pose proof (kp_places w HK i q Hq) as Hp.
    unfold handle in H. unfold place_ok in Hp.
    destruct (how q) eqn:Hh; [done|by eapply correct_turn|by eapply single_turn].
  - apply kept_go; try done; [apply unreserve_keeps| |].
    + intros k Hk. by apply unreserve_lookup in Hk as [_ []].
    + pose proof (kp_places w HK i q Hq) as Hp. unfold place_ok in *. cbn [how go at_]. by destruct (how q).
  - destruct HK as [HKk HKp HKr HKu]. constructor; try done. intros i q Hq.
    eapply place_ok_grows; [by apply HKp|done|apply row_grows_same|done|by left].
  - destruct HK as [HKk HKp HKr HKu].
    assert (Hnew : forall i q, requests (arrive h k b w) !! i = Some q -> requests w !! i = Some q \/ q = mkRequest h k b Arrived).
    { intros i q [Hi|[_ Hi]]%lookup_app_Some; [by left|]. apply list_lookup_singleton_Some in Hi as [_ <-]. by right. }
    constructor; try done.
    + intros i q [Hi| ->]%Hnew; [by apply HKp|]. unfold place_ok. cbn [how at_]. specialize (Hs h Hh). by destruct h.
    + intros k0 i Hi. destruct (HKr k0 i Hi) as (q & now & id & Hq & Hk & Hat). exists q, now, id.
      split_ands; try done. by apply lookup_app_l_Some.
    + intros i j q q' [Hi| ->]%Hnew [Hj| ->]%Hnew Hk Ha Hb; try done. by eapply HKu.
Qed.

Lemma kept_start : kept (start n).
Proof. by constructor. Qed.

(** With timely steps; [SingleTxn] needs no such thing. *)
Lemma claims_kept (w : world) :
  (forall h, served h -> h <> Naive) -> rtc (timely_step fingerprint amount_of currency_of ttl served) (start n) w -> kept w /\ timely w.
Proof.
  intros Hs. cut (kept (start n) /\ timely (start n : world)).
  { intros H0 Hr. revert H0. induction Hr as [|x y z [Hxy Hy] Hr IH]; [done|].
    intros [HK HT]. apply IH. split; [by eapply kept_step|done]. }
  split; [apply kept_start|]. intros i q until id Hq. done.
Qed.

(** *** Progress *)

Lemma kept_moves (i : nat) (q : request) (w : world) :
  kept w -> requests w !! i = Some q -> is_over (at_ q) = false -> has_connection (at_ q) = true \/ free w <> 0%nat ->
  exists j w', turns j w = Some w'.
Proof.
  intros HK Hq Ho Hc.
  assert (Hmove : forall j qj, requests w !! j = Some qj ->
    is_Some (handle fingerprint amount_of currency_of ttl j qj w) -> exists j w', turns j w = Some w').
  { intros j qj Hj [[[p d] conns] H]. exists j. eexists. unfold turn. rewrite Hj. cbn. by rewrite H. }
  assert (Hheld : forall j, reserved (db w) !! key q = Some j -> exists j w', turns j w = Some w').
  { intros j (qj & now & id & Hj & _ & Hat)%(kp_reserved w HK). eapply Hmove; [done|].
    pose proof (kp_places w HK j qj Hj) as Hp. unfold place_ok in Hp. rewrite Hat in Hp.
    unfold handle. destruct (how qj); [done|done|]. rewrite Hat. by destruct id. }
  destruct (reserved (db w) !! key q) as [j|] eqn:Hres; [by eapply Hheld|].
  eapply Hmove; [done|]. pose proof (kp_places w HK i q Hq) as Hp. unfold place_ok in Hp.
  assert (Hf : has_connection (at_ q) = true \/ (free w =? 0)%nat = false) by (destruct Hc; [by left|right; by apply Nat.eqb_neq]).
  unfold handle, charge_correct, charge_correct_single_txn. rewrite Hres.
  destruct (how q), (at_ q) as [|found id| |until id| |now id| |]; try done; try destruct id; try done;
    try (by destruct Hf as [| ->]).
  - by destruct (claimable _ _ _).
  - by destruct (keys (db w) !! key q).
Qed.

Lemma steps_of_timely (w w' : world) :
  rtc (timely_step fingerprint amount_of currency_of ttl served) w w' -> rtc (steps served) w w'.
Proof. intros H. eapply rtc_subrel; [|exact H]. by intros x y [Hxy _]. Qed.

(** *** [charge_correct_single_txn] alone *)

Definition all_served (w : world) : Prop := Forall (fun q => served (how q)) (requests w).

Lemma served_step (w w' : world) : all_served w -> steps served w w' -> all_served w'.
Proof.
  unfold all_served. intros HQ [i w1 H|i q Hq Ho|t Ht|c|h k b Hh]; try done.
  - apply turn_put in H as (q & p & d & conns & Hq & _ & ->). apply Forall_insert; [done|].
    cbn [go how]. by apply (Forall_lookup_1 _ _ _ _ HQ Hq).
  - apply Forall_insert; [done|]. cbn [go how]. by apply (Forall_lookup_1 _ _ _ _ HQ Hq).
  - apply Forall_app. split; [done|]. by apply Forall_singleton.
Qed.

(** No row is in progress, and no request was told so. *)
Record completed_only (w : world) : Prop := {
  co_rows : forall k r, keys (db w) !! k = Some r -> state r = Completed;
  co_answers : forall i q, requests w !! i = Some q -> at_ q <> Answered Conflict;
}.

Lemma single_timely (w : world) : (forall h, served h -> h = SingleTxn) -> all_served w -> kept w -> timely w.
Proof.
  intros Hs HQ HK i q until id Hq Hat. pose proof (kp_places w HK i q Hq) as Hp. unfold place_ok in Hp.
  rewrite (Hs _ (Forall_lookup_1 _ _ _ _ HQ Hq)), Hat in Hp. done.
Qed.

Lemma completed_put (i : nat) (q : request) (d : tables) (conns : nat) (w : world) :
  completed_only w -> (forall k r, keys d !! k = Some r -> state r = Completed) -> at_ q <> Answered Conflict ->
  completed_only (put i q d conns w).
Proof.
  intros [HR HA] Hd Hq. constructor; [done|]. cbn [put requests].
  intros j q' [(_ & <- & _)|[_ Hj]]%list_lookup_insert_Some; [done|by eapply HA].
Qed.

Lemma completed_step (w w' : world) :
  (forall h, served h -> h = SingleTxn) -> all_served w -> completed_only w -> steps served w w' -> completed_only w'.
Proof.
  intros Hs HQ HC [i w1 H|i q Hq Ho|t Ht|c|h k b Hh].
  - apply turn_put in H as (q & p & d & conns & Hq & H & ->). unfold handle in H.
    rewrite (Hs _ (Forall_lookup_1 _ _ _ _ HQ Hq)) in H. destruct (HC) as [HR HA].
    apply completed_put; [done| |]; unfold charge_correct_single_txn in H; repeat case_match; simplify_eq; try done.
    + cbn [set_keys keys]. intros k r [[_ <-]|[_ Hk]]%lookup_insert_Some; [done|by eapply HR].
    + cbn [go at_]. unfold replay_or. destruct (keys (db w) !! key q) as [r|] eqn:Hr; [|done].
      rewrite (HR _ _ Hr). by case_bool_decide.
  - apply completed_put; [done|by apply HC|done].
  - by destruct HC.
  - by destruct HC.
  - destruct HC as [HR HA]. constructor; [done|].
    intros i q [Hi|[_ Hi]]%lookup_app_Some; [by eapply HA|]. by apply list_lookup_singleton_Some in Hi as [_ <-].
Qed.

Lemma run_single (w : world) :
  (forall h, served h -> h = SingleTxn) -> rtc (steps served) (start n) w ->
  all_served w /\ kept w /\ completed_only w.
Proof.
  intros Hs. revert w. apply runs_keep; [by split_ands; [apply Forall_nil|apply kept_start|]|].
  intros w w' (HQ & HK & HC) HS. split_ands; [by eapply served_step| |by eapply completed_step].
  apply kept_step with w; [|done|by apply single_timely|done]. intros h Hh. by rewrite (Hs h Hh).
Qed.


(** *** Schedules, for concrete runs *)

#[local] Abbreviation plays := (play fingerprint amount_of currency_of ttl).

Lemma play_runs (l : list nat) (w : world) : rtc (steps served) w (plays l w).
Proof.
  revert w. induction l as [|i l IH]; intros w; [done|]. cbn. destruct (turns i w) as [w'|] eqn:E; [|apply IH].
  eapply rtc_l; [by eapply step_turn|apply IH].
Qed.

Lemma fire_runs (h : handler) (k : string) (b : Body) (m : nat) (w : world) :
  served h -> rtc (steps served) w (fire_together h k b m w).
Proof. intros Hs. induction m as [|m IH]; [done|]. eapply rtc_r; [exact IH|]. by apply step_arrive. Qed.

Lemma fire_timely (h : handler) (k : string) (b : Body) (m : nat) (w : world) :
  served h -> timely w -> rtc (timely_step fingerprint amount_of currency_of ttl served) w (fire_together h k b m w) /\ timely (fire_together h k b m w).
Proof.
  intros Hs HT. induction m as [|m [IH HT']]; [done|]. cbn.
  assert (Ht : timely (arrive h k b (fire_together h k b m w))).
  { intros i q until id [Hi|[_ Hi]]%lookup_app_Some Hat; [by eapply HT'|].
    by apply list_lookup_singleton_Some in Hi as [_ <-]. }
  split; [|done]. eapply rtc_r; [exact IH|]. split; [by apply step_arrive|done].
Qed.

Definition timelyb (w : world) : bool :=
  forallb (fun q => match at_ q with Claimed until _ => clock w <=? until | _ => true end) (requests w).

Lemma timelyb_timely (w : world) : timelyb w = true -> timely w.
Proof.
  intros H i q until id Hq Hat. unfold timelyb in H. rewrite List.forallb_forall in H.
  assert (Hin : List.In q (requests w)) by (apply list_elem_of_In; by eapply list_elem_of_lookup_2).
  specialize (H q Hin). rewrite Hat in H. by apply Z.leb_le.
Qed.

(** The worlds that a schedule passes are timely. *)
Fixpoint play_timely (l : list nat) (w : world) : bool :=
  match l with
  | [] => true
  | i :: l => let w' := default w (turns i w) in timelyb w' && play_timely l w'
  end.

Lemma play_timely_runs (l : list nat) (w : world) :
  play_timely l w = true -> rtc (timely_step fingerprint amount_of currency_of ttl served) w (plays l w).
Proof.
  revert w. induction l as [|i l IH]; intros w H; [done|]. cbn in *. apply andb_true_iff in H as [Ht H].
  destruct (turns i w) as [w'|] eqn:E; [|by apply IH].
  eapply rtc_l; [split; [by eapply step_turn|by apply timelyb_timely]|by apply IH].
Qed.

End Proofs.

Section Race.
Context {Body : Type} (fingerprint : Body -> string) (amount_of : Body -> Z) (currency_of : Body -> string) (ttl : Z).
#[local] Abbreviation step := (step fingerprint amount_of currency_of ttl).
#[local] Abbreviation timely_step := (timely_step fingerprint amount_of currency_of ttl).
#[local] Abbreviation turn := (turn fingerprint amount_of currency_of ttl).
#[local] Abbreviation play := (play fingerprint amount_of currency_of ttl).

(** C28: The naive handler charges a key at most once for each connection of the pool,
    however many requests there are and whatever dies: a pool of one hides the bug.  With
    fifty connections fifty requests that interleave charge fifty times. *)
Theorem naive_charges_per_connection (n : nat) (k : string) (w : world Body) (b : Body) :
  rtc (step (eq Naive)) (start n) w ->
  (length (charges_for k (db w)) <= n)%nat /\
  let all := seq 0 CONCURRENCY in
  let w' := play (all ++ all ++ all) (fire_together Naive "key" b CONCURRENCY (start CONCURRENCY)) in
  rtc (step (eq Naive)) (start CONCURRENCY) w' /\ n_charges (counts "key" w') = CONCURRENCY.
Proof.
  intros Hr. split.
  - assert (H : naive_world n k w).
    { apply (runs_keep fingerprint amount_of currency_of ttl (eq Naive) n); [|by intros; eapply naive_step|done].
      split; [unfold pool; cbn; lia|split; [constructor|constructor; cbn; [by intros r ?%not_elem_of_nil|done|lia]]]. }
    destruct H as (_ & _ & [_ _ HB]). pose proof (countb_nonneg (selecting k) (requests w)). lia.
  - split; [|by vm_compute]. etrans; [by apply fire_runs|apply play_runs].
Qed.

(** C15: As long as no claim is outlived by its holder, both correct handlers together
    charge a key at most once, under every interleaving, crash and death.  Every 200 carries
    the payload of that one charge, which a body with the fingerprint of the request made;
    a 422 goes to a request whose fingerprint is not the row's; the handlers' connections
    are all accounted for; and somebody can move while a request is unanswered. *)
Theorem claims_charge_once (served : handler -> Prop) (n : nat) (w : world Body) :
  (forall h, served h -> h <> Naive) -> rtc (timely_step served) (start n) w ->
  (forall k, (length (charges_for k (db w)) <= 1)%nat) /\
  (forall i q p replayed, requests w !! i = Some q -> at_ q = Answered (Replied p replayed) ->
     exists b id, fingerprint b = fingerprint (body q) /\
       charges_for (key q) (db w) = [new_charge amount_of currency_of id (key q) b] /\
       p = Some (payload_of (new_charge amount_of currency_of id (key q) b))) /\
  (forall i q, requests w !! i = Some q -> at_ q = Answered Mismatch ->
     exists r, keys (db w) !! key q = Some r /\ fp r <> fingerprint (body q)) /\
  Z.of_nat (free w) + countb (fun q => has_connection (at_ q)) (requests w) = Z.of_nat n /\
  ((0 < n)%nat -> Exists (fun q => is_over (at_ q) = false) (requests w) -> exists i w', turn i w = Some w').
Proof.
  intros Hs Hr. destruct (claims_kept _ _ _ _ _ _ _ Hs Hr) as [HK HT].
  pose proof (run_pool _ _ _ _ _ _ _ (steps_of_timely _ _ _ _ _ _ _ Hr)) as HP.
  split_ands; [intros k|intros i q p rep Hq Hat|intros i q Hq Hat|done|intros Hn Hex].
  - pose proof (kp_keys _ _ _ w HK k) as H. unfold key_ok in H. repeat case_match; try (rewrite H; cbn; lia).
    destruct H as (b & id & _ & -> & _). cbn. lia.
  - pose proof (kp_places _ _ _ w HK i q Hq) as H. unfold place_ok in H. rewrite Hat in H.
    pose proof (kp_keys _ _ _ w HK (key q)) as Hk. unfold key_ok in Hk.
    destruct (how q); [done| |]; destruct H as (r & Hrow & Hst & Hf & Hp); rewrite Hrow, Hst in Hk;
      destruct Hk as (b & id & Hb & Hc & Hresp); exists b, id; split_ands; congruence.
  - pose proof (kp_places _ _ _ w HK i q Hq) as H. unfold place_ok in H. rewrite Hat in H. by destruct (how q).
  - apply Exists_exists in Hex as (q & Hin & Ho). apply list_elem_of_lookup in Hin as [i Hi].
    destruct (decide (free w = 0%nat)) as [Hf|Hf]; [|by eapply kept_moves; eauto].
    destruct (countb_witness (fun q => has_connection (at_ q)) (requests w)) as (qj & Hj & Hc); [unfold pool in HP; lia|].
    apply list_elem_of_lookup in Hj as [j Hj].
    eapply (kept_moves _ _ _ _ j qj); eauto. by destruct (at_ qj).
Qed.

(** [charge_correct_single_txn] alone needs no clock: at most one charge for a key, no
    orphaned or expired claim at any time, and never a 409 or an exception. *)
Theorem single_txn_never_conflicts (n : nat) (k : string) (w : world Body) :
  rtc (step (eq SingleTxn)) (start n) w ->
  (n_charges (counts k w) <= 1)%nat /\ orphaned (counts k w) = 0%nat /\ expired (counts k w) = 0%nat /\
  Forall (fun q => at_ q <> Answered Conflict /\ at_ q <> Answered Raised) (requests w).
Proof.
  intros Hr. assert (Hs : forall h, SingleTxn = h -> h = SingleTxn) by done.
  destruct (run_single _ _ _ _ _ _ _ Hs Hr) as (HQ & HK & [HR HA]).
  assert (Hrow : forall r, r ∈ snd <$> map_to_list (keys (db w)) -> state r = Completed).
  { intros r ([k' r'] & -> & H)%list_elem_of_fmap. apply elem_of_map_to_list in H. by eapply HR. }
  split_ands; cbn [counts n_charges orphaned expired].
  - pose proof (kp_keys _ _ _ w HK k) as H. unfold key_ok in H. repeat case_match; try (rewrite H; cbn; lia).
    destruct H as (b & id & _ & -> & _). cbn. lia.
  - rewrite List_filter_none; [done|]. apply Forall_forall. intros r Hr'. unfold is_orphaned. by rewrite (Hrow r Hr').
  - rewrite List_filter_none; [done|]. apply Forall_forall. intros r Hr'. unfold is_expired. by rewrite (Hrow r Hr').
  - apply Forall_lookup. intros i q Hq. split; [by eapply HA|]. intros Hat.
    pose proof (kp_places _ _ _ w HK i q Hq) as H. unfold place_ok in H. rewrite Hat in H.
    pose proof (Forall_lookup_1 _ _ _ _ HQ Hq) as Hh. by rewrite <- Hh in H.
Qed.

End Race.

(** *** Concrete runs *)

Definition one_body (_ : unit) : string := "fingerprint".
Definition usd (_ : unit) : string := "usd".
Definition amount (_ : unit) : Z := 4200.
#[local] Abbreviation plays ttl := (play one_body amount usd ttl).

(** Two requests of each correct handler for one key, on a pool of two. *)
Definition four : world unit := fire_together Correct "key" tt 2 (fire_together SingleTxn "key" tt 2 (start 2)).
Definition schedule : list nat := [0; 1; 0; 1; 0; 0; 1; 1; 2; 3; 2; 3; 2; 3]%nat.

Lemma claims_charge_once_witness :
  (forall k, (length (charges_for k (db (plays 60 schedule four))) <= 1)%nat) /\
  at_ <$> requests (plays 60 schedule four) =
    Answered (Replied (Some (mkPayload 1 4200 "usd")) false) ::
    replicate 3 (Answered (Replied (Some (mkPayload 1 4200 "usd")) true)).
Proof.
  split; [|by vm_compute].
  refine (proj1 (claims_charge_once one_body amount usd 60 (fun h => h <> Naive) 2 (plays 60 schedule four) (fun h Hh => Hh) _)).
  etrans; [|apply play_timely_runs; by vm_compute].
  destruct (fire_timely one_body amount usd 60 (fun h => h <> Naive) SingleTxn "key" tt 2 (start 2)) as [H HT]; [done|by intros ?|].
  etrans; [exact H|]. by apply (fire_timely one_body amount usd 60 (fun h => h <> Naive)).
Defined.

Lemma naive_charges_per_connection_witness :
  (length (charges_for "key" (db (plays 60 [0; 1; 0; 1; 0; 1]%nat (fire_together Naive "key" tt 3 (start 2))))) <= 2)%nat.
Proof.
  apply (naive_charges_per_connection one_body amount usd 60 2 "key"
    (plays 60 [0; 1; 0; 1; 0; 1]%nat (fire_together Naive "key" tt 3 (start 2))) tt).
  etrans; [by apply fire_runs|apply play_runs].
Defined.

Lemma single_txn_never_conflicts_witness :
  orphaned (counts "key" (plays 60 [0; 1; 0; 1; 0; 0; 1; 1]%nat (fire_together SingleTxn "key" tt 2 (start 2)))) = 0%nat.
Proof.
  refine (proj1 (proj2 (single_txn_never_conflicts one_body amount usd 60 2 "key" _ _))).
  etrans; [by apply fire_runs|apply play_runs].
Defined.

(** A claim whose holder lives longer than it is taken over, and both charge. *)
Example slow_claim_charges_twice :
  let w := plays 60 [0; 0; 0]%nat (fire_together Correct "key" tt 2 (start 2)) in
  n_charges (counts "key" (plays 60 [1; 1; 1; 1; 0; 0]%nat (at_time 61 w))) = 2%nat.
Proof. by vm_compute. Qed.

(** The crash test: the claim of a request that crashed answers 409 to five retries, and
    when it has expired, one of the next five charges. *)
Example crash_test :
  let all l := flat_map (fun _ => l) (seq 0 4) in
  let dead := plays 2000000 [0; 0]%nat (crashing true (fire_together Correct "key" tt 1 (start 5))) in
  let early := plays 2000000 (all (seq 1 5)) (fire_together Correct "key" tt 5 (crashing false dead)) in
  let late := plays 2000000 (all (seq 6 5)) (fire_together Correct "key" tt 5 (at_time 2300000 early)) in
  at_ <$> requests early = Answered Raised :: replicate 5 (Answered Conflict) /\
  counts "key" early = mkTally 0 1 0 /\ counts "key" (at_time 2300000 early) = mkTally 0 0 1 /\
  counts "key" late = mkTally 1 0 0.
Proof. by vm_compute. Qed.
